(* ===== verification/_CoqProject ===== *)
-Q . S2P
Prelude.v
Double.v
Json.v
JsonModel.v
Messages.v
Router.v
Orchestrator.v
Stream.v
StreamSeq.v
StreamDelivery.v
StreamErase.v
StreamConc.v
StreamReports.v
Rpc.v
GrpcServer.v
Shutdown.v
StreamShutdown.v
StreamEnd.v
Config.v
Url.v
HttpClient.v
Auth.v
MqttClient.v
MqttConc.v
MqttConcTheorems.v
Gateway.v
GatewayConc.v
Telemetry.v
GatewayReports.v
MainConc.v
MainExit.v
MainJoin.v
Main.v
MainInv.v
MainTheorems.v
