(* ===== verification/Prelude.v ===== *)
(** * iv-cloud-gateway: verification development

    The vehicle cloud gateway sits between a vehicle and its backend. Commands of
    the backend arrive by MQTT and are streamed to the vehicle over gRPC; events of
    the vehicle arrive on the same stream, or by unary RPCs, and are published by
    MQTT; at start-up the gateway signs in to the backend over HTTP and registers
    its vehicle. This library models that program as executable Rocq definitions
    and proves what makes each part, and their composition, correct.

    ** The parts and how they interact

<<
      backend --MQTT--> MqttClient --> MqttRouter --> TripOrchestrator
                                                            | callbacks
                                                            v
      vehicle <--gRPC stream-- GrpcServer <-- VehicleStreamHandler
      vehicle --events, unary calls--> VehicleStreamHandler, CallDataBase
                                                            | PublishFn
                                                            v
      backend <--MQTT-- MqttClient
      backend <--HTTP-- HttpClient <-- AuthService <-- Config
>>

    ** Files

    - [Prelude]: outcomes (value, exception, undefined behaviour), the state monad
      [M] that keeps the effects made before a throw, machine integers, lists,
      the lemmas on running, preserving and safety, and the hint database [gateway].
    - [Double]: the C++ [double] as the standard library's [spec_float] with the
      parameters of binary64; conversions from and to [int64_t].
    - [Json]: the interface of the JSON library (class [JsonLib]) and the documented
      behaviour the proofs use (class [JsonLaws]). [JsonModel] is an instance of
      both, so that the hypotheses can hold and examples evaluate.
    - [Messages]: the topics of [src/infra/constants.h] and the messages of
      [proto/vehicle_gateway.proto].
    - [Router], module [MqttRouter]: [src/services/mqtt_router.h], [.cc].
    - [Orchestrator], module [TripOrchestrator]:
      [src/application/trip_orchestrator.h], [.cc]. A handler is a computation over
      the orchestrator and what its callbacks capture; [decode] and [obey] are its
      abstract specification.
    - [Stream], module [VehicleStreamHandler]:
      [src/services/vehicle_stream_handler.h], [.cc], [stream_tag.h]. Handlers live
      on a heap, so that [delete this], the static members and the addresses the two
      threads share are the code's. The class [Publisher] is the interface of
      [PublishFn].
    - [StreamSeq], [StreamDelivery], [StreamConc]: the executions of the stream. In
      [StreamSeq] pushes and completions run one at a time and the invariant of the
      reachable states is proved; [StreamDelivery] derives the guarantees on
      commands; [StreamConc] lets the MQTT thread and the completion queue's thread
      interleave at the accesses the locks do not protect.
    - [Rpc], module [CallData]: [src/services/rpc_dispatcher.h], [.cc]; the six
      subclasses of [CallDataBase] are the constructors of [rpc] and [request].
    - [StreamErase]: the operations of the stream do the same whatever its publisher
      is, and do to the publisher only what [publish] does.
    - [GrpcServer]: [src/services/grpc_server.h], [.cc], on top of [Rpc] and
      [Stream]. [Shutdown] cuts [GrpcServer::stop] at its statements and interleaves
      it with the reports of the queue and the pushes of the MQTT thread, each a whole
      step; [StreamShutdown] is what that needs of the steps of [StreamConc], and
      [StreamEnd] shows that every call of the stream can come to its end there.
    - [Config]: [src/infra/config.h], with the parts of the C and C++ libraries it
      uses ([getline], [setenv], [stoi], [stod]).
    - [Url] and [HttpClient]: [src/transport/http_client/http_client.h], [.cpp]. The
      regular expression of [parse_url] runs in a backtracking matcher; the phases of
      a request on the network are the class [Network]. The class [HttpPost] is what
      the client promises to [AuthService].
    - [Auth], module [AuthService]: [src/services/auth_services.h], [.cc].
    - [MqttClient]: [src/transport/mqtt_client/mqtt_client.h], [.cpp], each call as one
      step. An instance of [Publisher]. [MqttConc] cuts the calls at their accesses to
      the members no lock protects and lets the thread that owns the client, the io
      thread and the publishers interleave; [MqttConcTheorems] has what follows.
    - [Gateway]: the wiring of [src/main.cpp]: callbacks, routes, the location
      subscriber, the requests at start-up.
    - [Telemetry]: what the published texts say to those who read them.
    - [GatewayConc]: the threads of [MqttConc] and [StreamConc] in one system: the io
      thread pushes what it decodes, the completion queue's thread publishes what it
      reads. [StreamReports] says what a completion reads and publishes under every
      interleaving, [GatewayReports] follows the reports to the broker, and [MainConc]
      runs [main] on top of that system, the calls it makes cut at their statements;
      [MainExit] shows that [main] can return, [MainJoin] that its wait for the queue's
      thread is bounded.
    - [Main]: the whole of [src/main.cpp] as one transition system. A step is a
      statement of [main], a task or a message of the MQTT client's io thread, a report
      of the completion queue, a location, a signal, or a statement of the signal
      handler's call of [stop]. [MainInv] has its invariant, [MainTheorems] what follows.

    ** What the theorems show

    - The gateway as a whole, a call at a time (C1, C2, C12, C13, C20, C25,
      [client_unshared]). In an orderly execution ([Main.orderly]: signals on the thread
      of [main], UTF-8 from the vehicle, no write that outlives its handler) every step
      of every thread runs to its end, but for three statements of the start-up that end
      the process exactly when the Zenoh session does not open or a configured text cannot
      be dumped ([main_throws]); the stream is in the state of a sequential
      execution that pushes exactly the commands received, reports of the vehicle reach
      the broker, the client connects where the deployment says. Once
      [server_->Shutdown()] has returned every way on leads to the end of [main], in a
      bounded number of steps, and nothing is left then; until it has, a connected vehicle
      can hold it ([signal_takes_down] says that a signal gets [main] there when all the
      vehicles leave). Outside: a signal before the server is
      started is forgotten ([early_signal_lost]), one handled by another thread makes two
      threads join the same one ([double_join]), one after the destruction of the server
      uses it ([late_signal]); a server that cannot be built ends the program like a stop
      ([failed_start_exits]).
    - The gateway as a whole, a statement at a time (C4-C7). Under every
      interleaving of its threads the commands received are accounted for, each
      exactly once, those in the queue of a handler when it was deleted as losses; the
      events reported go, in order, to the broker; unless the Zenoh session was ended
      under a running callback ([cut], [reset_races]), [main] uses the client
      so that no two threads race for its members, and [main] can return exactly when no
      push under way and no write outstanding belongs to a deleted handler.
    - The command stream (C3, C8, C17-C19, C34, [server_refines_stream]). Run one
      operation at a time, the stream delivers commands in order, once, to the
      connection they were queued for; it respects gRPC's rules for asynchronous
      operations; it never throws; it drains its queue; one handler always waits for the
      next vehicle; and a started server does nothing else to it. Under every
      interleaving every command is delivered, held, or lost with a handler
      ([commands_conserved]), and at most one write
      is outstanding; the interleaving semantics contains the sequential one
      ([sequential_interleaving]). What does not hold is
      shown by executions: a command can miss its wake-up ([lost_wakeup]), a push can use
      a deleted handler ([push_use_after_free]), a write can outlive its handler
      ([write_outlives_handler]) or be started after the status ([write_after_finish]),
      [disconnect_loses_commands], [commands_overtake].
    - Messages (C9-C11, C38, C40, [dispatch_total]): each handler refines a decoder
      of payloads, dispatching never lets an exception out, the composition of client,
      router, orchestrator and stream has exactly the effect of pushing the decoded
      commands; events and locations can be read back
      from what is published; the identifier of a trip is reported exactly as long as it
      fits a double. A trip asked for by a unary call would come back as a command
      ([unary_trip_echo]).
    - The unary calls (C21-C23, [one_call_in_reserve]) work as
      designed once started, but the server never starts them ([unary_rpcs_never_served]),
      and its loop could not run them ([runCQ_cast]).
    - The server's life cycle (C14, C24, [no_op_after_queue_shutdown], [join_returns],
      [stop_leaves_nothing], [stop_idempotent], [start_cases]): no operation is started on
      a queue that was shut down, under every interleaving, and the join returns, whatever
      the other threads do.
    - HTTP (C28, C29, C35, [redirect_same_origin]): requests follow at most
      [max_redirects] redirects, each by the rules of its status code; parsing a URL is a
      function with a simple direct definition, inverts composing, and relative redirects
      keep the origin.
    - Authentication (C26, C30, C31, C36, C39, [registration_without_keys]): the
      protocol of [setup], the bound on the retries of [create_vehicle] and the one
      exception that leaves it ([create_vehicle_throws]), the vehicle's login, the
      credentials file, the requests at start-up. Where they ask that the configured texts
      are UTF-8 they say so.
    - Configuration (C27, C32, C37, [from_env_numbers], [from_env_strings]): precedence of
      the environment over the file, round trips of quoted values and of integers (read
      into a [double] too), ranges of the numbers.
    - The MQTT client (C15, C16, C33, [calls_interleave],
      [subscriptions_flushed_once], [publish_settles]): its life cycle call by call, and the threads: [stop] returns,
      nothing is raced for when it is used as [main] does, and whole calls are
      interleavings of the statements. Used otherwise it is raced for:
      [publish_races_stop], [late_subscribe_races], [start_races_publish].

    ** Conventions

    Undefined behaviour (a deleted object, a null pointer, a wrong cast, a joinable
    thread assigned to, a conversion out of range) is the outcome [UB], so a theorem
    that an operation returns excludes it. Strings are byte strings. Logging is left
    out; nothing of it is read by the program. Integers of the messages are [Z] in
    the range of their type; [uint16_t] wraps ([to_uint16]).

    ** Fuel and bounds

    [flush_loop] takes the length of the pending queue as fuel: each turn pops one
    command and adds none ([flush_loop_run]). [create_vehicle] takes 4: a network
    retry can happen before and after the single login retry
    ([create_vehicle_terminates]; out of fuel would be [UB]). [do_request] recurses
    on [redirects_remaining], which the code decreases. The matcher of the regular
    expression recurses on the expression and the text.

    ** What is not modelled

    - The libraries: nlohmann/json, gRPC and protobuf, Boost.Asio, Beast and MQTT5,
      OpenSSL, Zenoh. What the program sees of them is a parameter (class [JsonLib],
      class [Network]), a choice of the environment (the completions of gRPC, the
      messages and errors of MQTT), or a log of what they were asked.
    - Scheduling below the granularity of [StreamConc] and [MqttConc]: one access to a
      shared member or one critical section is one step; the memory model is
      sequentially consistent, which is enough where there is no race. In [Main] the
      operations of the stream and the client are whole steps. In [MainConc] they are
      not, but what the start-up requests publish is left open, the session always
      opens, and the signal comes while [main] waits.
    - What a signal does to the system calls it interrupts, and before its handler is
      installed; two handlers at once; the order in which threads end at exit.
    - Inside Zenoh: [Main] has the configuration text, whether the session opens, and
      the locations delivered while it is open. Its documentation does not say whether
      ending the session waits for a callback that is running; in [MainConc] it does not.
    - The logging set-up, the pause before a network retry, time-outs.
    - Tests, build files, container files and [config/gateway.yaml], which no code
      reads.

    ** What could come next

    A signal handled by another thread than [main]'s under every interleaving ([Main]
    has it a call at a time: [double_join]); the end of [main] under every fair schedule
    ([MainExit] says that no thread waits in vain, [MainJoin] and [mqtt_stop_returns]
    bound its two joins, and [shutdown_completes] the whole way after the vehicles' calls, a
    call at a time; what is left is the wait for those calls); the error of
    [stod] on fractions. *)

From Stdlib Require Export ZArith Ascii.
From stdpp Require Export base tactics option gmap strings numbers list.

Declare Scope gateway_scope.
Delimit Scope gateway_scope with gw.

(** ** Outcomes: C++ exceptions and undefined behaviour *)

(** The exceptions the program's [catch] clauses tell apart: every nlohmann
    exception derives from [json::exception], which derives from
    [std::exception]. *)
Inductive exn : Type :=
| JsonException
| StdException (what : string).

(** The outcome of running a C++ expression: a value, a thrown exception, or
    undefined behaviour (use after free, null dereference, wrong cast). *)
Inductive outcome (A : Type) : Type :=
| Ret (a : A)
| Exn (e : exn)
| UB.
Arguments Ret {A} _.
Arguments Exn {A} _.
Arguments UB {A}.

(** A stateful computation: the effects made before a throw are kept, which
    is what C++ does. *)
Definition M (S A : Type) : Type := S → outcome A * S.

#[export] Instance M_ret {S} : MRet (M S) := λ A a s, (Ret a, s).
#[export] Instance M_bind {S} : MBind (M S) := λ A B k m s,
  match m s with
  | (Ret a, s') => k a s'
  | (Exn e, s') => (Exn e, s')
  | (UB, s') => (UB, s')
  end.

Definition get {S} : M S S := λ s, (Ret s, s).
Definition gets {S A} (f : S → A) : M S A := λ s, (Ret (f s), s).
Definition put {S} (s : S) : M S unit := λ _, (Ret tt, s).
Definition modify {S} (f : S → S) : M S unit := λ s, (Ret tt, f s).
Definition throw {S A} (e : exn) : M S A := λ s, (Exn e, s).
Definition undefined {S A} : M S A := λ s, (UB, s).

(** [try { m } catch (const std::exception&) { h }]: both exceptions are
    [std::exception]s, so the handler sees them all; it does not see
    undefined behaviour. *)
Definition catch {S A} (m : M S A) (h : exn → M S A) : M S A := λ s,
  match m s with
  | (Exn e, s') => h e s'
  | r => r
  end.

(** An operation of the JSON library that throws when it has no result. *)
Definition json_try {S A} (o : option A) : M S A :=
  match o with
  | Some a => mret a
  | None => throw JsonException
  end.

Definition when {S} (b : bool) (m : M S unit) : M S unit :=
  if b then m else mret tt.

(** Run [m] on a component of a larger state. *)
Definition zoom {W S A} (proj : W → S) (upd : S → W → W) (m : M S A) : M W A :=
  λ w, let '(r, s') := m (proj w) in (r, upd s' w).

(** Run [m] for every element, left to right. *)
Fixpoint for_each {S A} (f : A → M S unit) (l : list A) : M S unit :=
  match l with
  | [] => mret tt
  | x :: l' => f x ;; for_each f l'
  end.

(** The state after a computation, whatever its outcome. *)
Definition exec {S A} (m : M S A) (s : S) : S := snd (m s).

(** [m] neither throws nor is undefined from [s]. *)
Definition returns {S A} (m : M S A) (s : S) : Prop := ∃ a, fst (m s) = Ret a.

(** [m] is not undefined from [s]. *)
Definition no_ub {S A} (m : M S A) (s : S) : Prop := fst (m s) ≠ UB.

(** ** Machine integers *)

Definition int64_min : Z := (-(2 ^ 63))%Z.
Definition int64_max : Z := (2 ^ 63 - 1)%Z.
Definition int64_ok (z : Z) : bool :=
  ((int64_min <=? z) && (z <=? int64_max))%Z.

Definition int_min : Z := (-(2 ^ 31))%Z.
Definition int_max : Z := (2 ^ 31 - 1)%Z.
Definition int_ok (z : Z) : bool :=
  ((int_min <=? z) && (z <=? int_max))%Z.

(** [static_cast<uint16_t>]. *)
Definition to_uint16 (z : Z) : Z := (z mod 2 ^ 16)%Z.

(** ** Characters and text *)

(** Text is handled as a list of characters; [std::string] values kept as
    keys or fields are [string]. *)
Abbreviation chars := (list ascii).
Abbreviation chars_of := String.list_ascii_of_string.
Abbreviation string_of := String.string_of_list_ascii.

Definition char_in (c : ascii) (l : chars) : bool := bool_decide (c ∈ l).

(** Association lists with distinct keys, as JSON object literals are. *)
Fixpoint assoc {V} (k : string) (l : list (string * V)) : option V :=
  match l with
  | [] => None
  | (k', v) :: l' => if String.eqb k k' then Some v else assoc k l'
  end.

(** How often an element occurs in a list, and the list without one
    occurrence. *)
Definition occ `{EqDecision A} (x : A) (l : list A) : nat :=
  count_occ (decide_rel (=)) l x.
Arguments occ : simpl never.

Fixpoint remove_one `{EqDecision A} (x : A) (l : list A) : list A :=
  match l with
  | [] => []
  | y :: l' => if decide (x = y) then l' else y :: remove_one x l'
  end.

(** ** Shared lemmas and automation *)

Create HintDb gateway.

Section monad_lemmas.
Context {S : Type}.

Lemma bind_ret {A B} (a : A) (k : A → M S B) s : (mret a ≫= k) s = k a s.
Proof. reflexivity. Qed.

Lemma bind_unfold {A B} (m : M S A) (k : A → M S B) s :
  (m ≫= k) s =
  match m s with
  | (Ret a, s') => k a s'
  | (Exn e, s') => (Exn e, s')
  | (UB, s') => (UB, s')
  end.
Proof. reflexivity. Qed.

Lemma bind_run {A B} (m : M S A) (k : A → M S B) s a s' :
  m s = (Ret a, s') → (m ≫= k) s = k a s'.
Proof. intros H. by rewrite bind_unfold, H. Qed.

Lemma exec_ret {A} (m : M S A) s a s' : m s = (Ret a, s') → exec m s = s'.
Proof. intros Hm. unfold exec. by rewrite Hm. Qed.

Lemma bind_ret_inv {A B} (m : M S A) (k : A → M S B) s b s' :
  (m ≫= k) s = (Ret b, s') → ∃ a s1, m s = (Ret a, s1) ∧ k a s1 = (Ret b, s').
Proof. rewrite bind_unfold. destruct (m s) as [[a|e|] s1]; [eauto|done|done]. Qed.

Lemma bind_exn {A B} (m : M S A) (k : A → M S B) s e s' :
  m s = (Exn e, s') → (m ≫= k) s = (Exn e, s').
Proof. intros H. by rewrite bind_unfold, H. Qed.

Lemma catch_ret {A} (m : M S A) h s a s' :
  m s = (Ret a, s') → catch m h s = (Ret a, s').
Proof. intros H. unfold catch. by rewrite H. Qed.

Lemma catch_exn {A} (m : M S A) h s e s' :
  m s = (Exn e, s') → catch m h s = h e s'.
Proof. intros H. unfold catch. by rewrite H. Qed.

Lemma bind_json_try {A B} (o : option A) (k : A → M S B) s :
  (json_try o ≫= k) s =
  match o with Some a => k a s | None => (Exn JsonException, s) end.
Proof. by destruct o. Qed.

(** A handler that always returns makes the whole [try] return, provided the
    body has no undefined behaviour. *)
Lemma catch_returns {A} (m : M S A) h s :
  no_ub m s → (∀ e s', returns (h e) s') → returns (catch m h) s.
Proof.
  unfold no_ub, returns, catch. intros Hub Hh.
  destruct (m s) as [[a|e|] s'] eqn:E; simpl in *; [eauto|apply Hh|done].
Qed.

(** [m] is never undefined. *)
Definition safe {A} (m : M S A) : Prop := ∀ s, no_ub m s.

Lemma safe_ret {A} (a : A) : safe (mret a).
Proof. by intros s. Qed.

Lemma safe_throw {A} e : safe (throw (A:=A) e).
Proof. by intros s. Qed.

Lemma safe_gets {A} (f : S → A) : safe (gets f).
Proof. by intros s. Qed.

Lemma safe_get : safe get.
Proof. by intros s. Qed.

Lemma safe_modify f : safe (modify f).
Proof. by intros s. Qed.

Lemma safe_json {A} (o : option A) : safe (json_try o).
Proof. by destruct o; intros s. Qed.

Lemma safe_bind {A B} (m : M S A) (k : A → M S B) :
  safe m → (∀ a, safe (k a)) → safe (m ≫= k).
Proof.
  intros Hm Hk s. specialize (Hm s). unfold no_ub in *. rewrite bind_unfold.
  destruct (m s) as [[a|e|] s']; [apply Hk|done|done].
Qed.

(** [m] keeps the invariant [I], whatever its outcome. *)
Definition preserves {A} (I : S → Prop) (m : M S A) : Prop :=
  ∀ s, I s → I (exec m s).

Lemma preserves_ret {A} I (a : A) : preserves I (mret a).
Proof. by intros s Hs. Qed.

Lemma preserves_throw {A} I e : preserves I (throw (A:=A) e).
Proof. by intros s Hs. Qed.

Lemma preserves_undefined {A} I : preserves I (undefined (A:=A)).
Proof. by intros s Hs. Qed.

Lemma preserves_get I : preserves I get.
Proof. by intros s Hs. Qed.

Lemma preserves_json {A} I (o : option A) : preserves I (json_try o).
Proof. by destruct o; intros s Hs. Qed.

Lemma preserves_modify I f : (∀ s, I s → I (f s)) → preserves I (modify f).
Proof. intros Hf s Hs. by apply Hf. Qed.

Lemma preserves_bind {A B} I (m : M S A) (k : A → M S B) :
  preserves I m → (∀ a, preserves I (k a)) → preserves I (m ≫= k).
Proof.
  intros Hm Hk s Hs. specialize (Hm s Hs). unfold exec in *. rewrite bind_unfold.
  destruct (m s) as [[a|e|] s']; [by apply Hk|done|done].
Qed.

Lemma preserves_for_each {A} I (f : A → M S unit) l :
  (∀ a, preserves I (f a)) → preserves I (for_each f l).
Proof.
  intros Hf. induction l as [|a l IH]; [apply preserves_ret|].
  by apply preserves_bind.
Qed.

End monad_lemmas.

(** ** What a computation leaves alone, whatever its outcome *)

Section leaves.
Context {S X : Type} (f : S → X).

Definition leaves {A} (c : M S A) : Prop := ∀ s, f (exec c s) = f s.

Lemma leaves_ret {A} (a : A) : leaves (mret a).
Proof. done. Qed.
Lemma leaves_undefined {A} : leaves (A:=A) undefined.
Proof. done. Qed.
Lemma leaves_modify g : (∀ s, f (g s) = f s) → leaves (modify g).
Proof. intros Hg s. apply Hg. Qed.
Lemma leaves_bind {A B} (c : M S A) (k : A → M S B) :
  leaves c → (∀ a, leaves (k a)) → leaves (c ≫= k).
Proof.
  intros Hc Hk s. unfold exec. rewrite bind_unfold. specialize (Hc s). unfold exec in Hc.
  destruct (c s) as [[a|e|] s']; cbn [snd] in *; [|done|done].
  rewrite <- Hc. apply Hk.
Qed.
Lemma leaves_read {B} (k : S → M S B) : (∀ s, leaves (k s)) → leaves (s ← get; k s).
Proof. intros Hk. by apply leaves_bind. Qed.
Lemma leaves_each {A} (g : A → M S unit) l : (∀ a, leaves (g a)) → leaves (for_each g l).
Proof. intros Hg. induction l; [apply leaves_ret|by apply leaves_bind]. Qed.
Lemma leaves_zoom {T A} (proj : S → T) upd (c : M T A) :
  (∀ t s, f (upd t s) = f s) → leaves (zoom proj upd c).
Proof. intros Hf s. unfold exec, zoom. destruct (c (proj s)). apply Hf. Qed.

End leaves.

(** One step for each form of a computation. *)
Ltac leaves_step :=
  lazymatch goal with
  | |- leaves _ (mret _) => apply leaves_ret
  | |- leaves _ undefined => apply leaves_undefined
  | |- leaves _ (modify _) => apply leaves_modify; done
  | |- leaves _ (for_each _ _) => apply leaves_each; intros
  | |- leaves _ (mbind _ get) => apply leaves_read; intros
  | |- leaves _ (mbind _ _) => apply leaves_bind; intros
  | |- leaves _ (if ?b then _ else _) => destruct b
  | |- leaves _ (match ?x with _ => _ end) => destruct x
  end.

Section occurrences.
Context `{EqDecision A}.
Implicit Types (x y : A) (l : list A).

Lemma occ_app x l l' : occ x (l ++ l') = occ x l + occ x l'.
Proof. apply count_occ_app. Qed.

Lemma occ_cons x y l : occ x (y :: l) = (if decide (x = y) then 1 else 0) + occ x l.
Proof. unfold occ. simpl. destruct (decide_rel _ y x), (decide (x = y)); congruence || lia. Qed.

Lemma occ_single x y : occ x [y] = if decide (x = y) then 1 else 0.
Proof. rewrite occ_cons. change (occ x []) with 0. case_decide; lia. Qed.

Lemma occ_replicate x n y : occ x (replicate n y) = if decide (x = y) then n else 0.
Proof.
  induction n as [|n IH]; cbn [replicate]; [by case_decide|].
  rewrite occ_cons, IH. by case_decide.
Qed.

Lemma occ_remove x y l :
  y ∈ l → occ x (remove_one y l) = occ x l - (if decide (x = y) then 1 else 0).
Proof.
  induction l as [|a l IH]; [by intros ?%elem_of_nil|]. intros Hin.
  cbn [remove_one]. rewrite occ_cons. destruct (decide (y = a)) as [<-|Hne]; [lia|].
  apply elem_of_cons in Hin as [?|Hin]; [done|]. rewrite occ_cons, IH by done.
  repeat case_decide; subst; done || lia.
Qed.

Lemma elem_of_remove_one x y l : x ∈ remove_one y l → x ∈ l.
Proof.
  induction l as [|a l IH]; simpl; [done|].
  destruct (decide (y = a)); rewrite !elem_of_cons; naive_solver.
Qed.

Lemma remove_one_perm x l : x ∈ l → l ≡ₚ x :: remove_one x l.
Proof.
  induction l as [|a l IH]; [by intros ?%elem_of_nil|]. intros Hin. cbn [remove_one].
  destruct (decide (x = a)) as [<-|Hne]; [done|].
  apply elem_of_cons in Hin as [?|Hin]; [done|].
  rewrite Permutation_swap. by f_equiv; apply IH.
Qed.

Lemma occ_elem x l : x ∈ l ↔ 0 < occ x l.
Proof. rewrite list_elem_of_In. apply count_occ_In. Qed.

Lemma occ_pos x l : x ∈ l → 0 < occ x l.
Proof. apply occ_elem. Qed.

Lemma occ_zero x l : x ∉ l → occ x l = 0.
Proof. rewrite occ_elem. lia. Qed.

End occurrences.

Lemma forallb_weaken {A} (p q : A → bool) l :
  (∀ x, p x → q x) → forallb p l → forallb q l.
Proof.
  intros Hpq. induction l as [|x l IH]; [done|]. cbn [forallb].
  intros [Hx Hl]%andb_True. apply andb_True. auto.
Qed.

Lemma assoc_elem {V} k (v : V) l : assoc k l = Some v → (k, v) ∈ l.
Proof.
  induction l as [|[k' v'] l IH]; simpl; [done|].
  destruct (String.eqb_spec k k') as [->|_].
  - intros [= ->]. left.
  - intros Hv. right. auto.
Qed.

Lemma assoc_none {V} k (l : list (string * V)) : k ∉ l.*1 → assoc k l = None.
Proof.
  induction l as [|[k' v'] l IH]; simpl; [done|].
  intros [Hk Hl]%not_elem_of_cons. destruct (String.eqb_spec k k'); [done|auto].
Qed.

Lemma to_uint16_range z : (0 <= to_uint16 z < 2 ^ 16)%Z.
Proof. apply Z.mod_pos_bound. lia. Qed.

Lemma to_uint16_id z : (0 <= z < 2 ^ 16)%Z → to_uint16 z = z.
Proof. intros. by apply Z.mod_small. Qed.

#[export] Hint Resolve to_uint16_range preserves_ret preserves_throw preserves_undefined
  preserves_get preserves_json preserves_modify preserves_bind preserves_for_each
  safe_ret safe_throw safe_gets safe_get safe_modify safe_json safe_bind : gateway.

(** Follow the [j.at(key).get<T>()] of a handler: one case where the read
    succeeds, one where the handler has thrown. *)
Ltac json_reads :=
  repeat (rewrite bind_json_try;
          match goal with
          | |- context [match ?o with Some _ => _ | None => _ end] =>
              destruct o; [|reflexivity]
          end; cbn [mbind option_bind]).

(** Split on the outcome of every computation the goal matches on. *)
Ltac run_cases :=
  repeat (case_match; simplify_eq; try done).
