(* ===== verification/Double.v ===== *)
(** * IEEE binary64 values *)

(** The type [double] of the program: the standard library's [spec_float]
    with 53 bits of precision, and the conversions the source performs: from
    [int64_t] (rounded to nearest, ties to even), to [int64_t] (truncation,
    undefined out of range) and from a decimal or hexadecimal literal. *)

From Stdlib Require Export SpecFloat.
From S2P Require Import Prelude.

Local Open Scope Z_scope.

Abbreviation double := spec_float.

#[export] Instance double_eq_dec : EqDecision double.
Proof. solve_decision. Defined.

Definition prec : Z := 53.
Definition emax : Z := 1024.

(** Implicit conversion from [int64_t]. *)
Definition double_of_int (z : Z) : double := binary_normalize prec emax z 0 false.

(** The integer part of a finite double. *)
Definition double_trunc (d : double) : option Z :=
  match d with
  | S754_zero _ => Some 0
  | S754_finite s m e =>
      let a := if 0 <=? e then Zpos m * 2 ^ e else Zpos m / 2 ^ (- e) in
      Some (if s then - a else a)
  | _ => None
  end.

(** Implicit conversion to [int64_t]: undefined when the truncated value does
    not fit. *)
Definition int64_of_double (d : double) : option Z :=
  match double_trunc d with
  | Some z => if int64_ok z then Some z else None
  | None => None
  end.

Definition is_finite (d : double) : bool :=
  match d with
  | S754_zero _ | S754_finite _ _ _ => true
  | _ => false
  end.

(** The double nearest to [± m * 10^e]. *)
Definition double_of_decimal (neg : bool) (m : Z) (e : Z) : double :=
  match m with
  | Zpos p =>
      if 0 <=? e
      then binary_normalize prec emax ((if neg then -1 else 1) * (m * 10 ^ e)) 0 neg
      else SFdiv prec emax (S754_finite neg p 0)
             (S754_finite false (Z.to_pos (10 ^ (- e))) 0)
  | _ => S754_zero neg
  end.

(** ** Exactness of small integers *)

Lemma pow2_pred_succ a p :
  0 < a → 2 ^ (a - 1) <= p → 2 ^ (Z.succ a - 1) <= 2 * p.
Proof.
  intros Ha H. replace (Z.succ a - 1) with (Z.succ (a - 1)) by lia.
  rewrite Z.pow_succ_r; lia.
Qed.

Lemma digits2_pos_lower p : 2 ^ (Zpos (digits2_pos p) - 1) <= Zpos p.
Proof.
  induction p as [p IH|p IH|]; simpl; [..|done]; rewrite Pos2Z.inj_succ;
    pose proof (pow2_pred_succ (Zpos (digits2_pos p)) (Zpos p) ltac:(lia) IH); lia.
Qed.

Lemma digits2_pos_iter p n :
  Zpos (digits2_pos (Pos.iter xO p n)) = Zpos (digits2_pos p) + Zpos n.
Proof.
  induction n as [|n IH] using Pos.peano_ind; [simpl; lia|].
  rewrite Pos.iter_succ. simpl. lia.
Qed.

Lemma pos_iter_xO p n : Zpos (Pos.iter xO p n) = Zpos p * 2 ^ Zpos n.
Proof.
  induction n as [|n IH] using Pos.peano_ind; [rewrite Z.pow_1_r; simpl; lia|].
  rewrite Pos.iter_succ, Pos2Z.inj_succ, Z.pow_succ_r by apply Pos2Z.is_nonneg.
  rewrite Pos2Z.inj_xO, IH. ring.
Qed.

(** A mantissa already at its canonical exponent is kept as it is. *)
Lemma binary_round_aux_canonical s m e :
  fexp prec emax (Zpos (digits2_pos m) + e) = e → e <= emax - prec →
  binary_round_aux prec emax s (Zpos m) e loc_Exact = S754_finite s m e.
Proof.
  intros Hf He. unfold binary_round_aux, shr_fexp, Zdigits2.
  rewrite Hf, Z.sub_diag. simpl. rewrite Hf, Z.sub_diag. simpl.
  by rewrite (proj2 (Z.leb_le e (emax - prec)) He).
Qed.

(** The integers of at most 53 bits are converted exactly. *)
Lemma binary_round_small s p :
  Zpos (digits2_pos p) <= prec →
  ∃ m, binary_round prec emax s p 0 = S754_finite s m (Zpos (digits2_pos p) - prec) ∧
       Zpos m = Zpos p * 2 ^ (prec - Zpos (digits2_pos p)).
Proof.
  intros Hd. set (d := Zpos (digits2_pos p)) in *.
  assert (Hf : fexp prec emax d = d - prec).
  { unfold fexp, emin, prec, emax in *. lia. }
  assert (Hle : d - prec <= emax - prec) by (unfold emax, prec in *; lia).
  unfold binary_round. rewrite Z.add_0_r. fold d. rewrite Hf.
  unfold shl_align. destruct (d - prec - 0) as [|n|n] eqn:E; [| lia |].
  - exists p. replace (d - prec) with 0 by lia. replace (prec - d) with 0 by lia.
    split; [|lia]. apply binary_round_aux_canonical; [|unfold emax, prec; lia].
    fold d. rewrite Z.add_0_r. lia.
  - exists (Pos.iter xO p n). split.
    + apply binary_round_aux_canonical; [|done].
      rewrite digits2_pos_iter. fold d.
      replace (d + Zpos n + (d - prec)) with d by lia. done.
    + rewrite pos_iter_xO. do 2 f_equal. lia.
Qed.

Lemma trunc_round_small s p :
  Zpos (digits2_pos p) <= prec →
  double_trunc (binary_round prec emax s p 0) = Some (if s then - Zpos p else Zpos p).
Proof.
  intros Hd. destruct (binary_round_small s p Hd) as (m & -> & Hm). simpl.
  set (d := Zpos (digits2_pos p)) in *.
  assert (Ha : (if 0 <=? d - prec then Zpos m * 2 ^ (d - prec)
                else Zpos m / 2 ^ (- (d - prec))) = Zpos p).
  { destruct (Z.leb_spec 0 (d - prec)).
    - replace d with prec in * by lia. rewrite Z.sub_diag in *. lia.
    - rewrite Hm. replace (- (d - prec)) with (prec - d) by lia.
      apply Z.div_mul. apply Z.pow_nonzero; lia. }
  by rewrite Ha.
Qed.

(** Every integer of magnitude at most 2^53 survives the round trip through
    [double]. *)
Lemma double_of_int_exact z :
  - 2 ^ 53 <= z <= 2 ^ 53 → double_trunc (double_of_int z) = Some z.
Proof.
  intros Hz. unfold double_of_int, binary_normalize.
  destruct z as [|p|p]; [done|..];
    (destruct (decide (Zpos p = 2 ^ 53)) as [Hp|Hp];
     [injection Hp as ->; by vm_compute|]);
    (rewrite trunc_round_small; [done|]);
    pose proof (digits2_pos_lower p) as Hl;
    (destruct (Z.le_gt_cases (Zpos (digits2_pos p)) prec) as [Hd|Hd]; [done|]);
    exfalso; unfold prec in *;
    pose proof (Z.pow_le_mono_r 2 53 (Zpos (digits2_pos p) - 1) ltac:(lia) ltac:(lia));
    lia.
Qed.

Lemma int64_of_double_of_int z :
  - 2 ^ 53 <= z <= 2 ^ 53 → int64_of_double (double_of_int z) = Some z.
Proof.
  intros Hz. unfold int64_of_double. rewrite double_of_int_exact by done.
  unfold int64_ok, int64_min, int64_max.
  destruct (Z.leb_spec (- (2 ^ 63)) z), (Z.leb_spec z (2 ^ 63 - 1)); simpl; [done|lia..].
Qed.
