(* ===== verification/Json.v ===== *)
(** * The JSON library as an interface *)

(** nlohmann/json is a git submodule and not part of the repository, so the
    development is parameterised by it: [JsonLib] lists the operations the
    source calls, [JsonLaws] the documented behaviour the theorems rely on.
    Every failing operation throws a [json::exception], which the models
    render with [json_try]. *)

From S2P Require Import Prelude Double.

(** The values the gateway stores in the JSON objects it builds. *)
Inductive field : Type :=
| FString (s : string)
| FInt (z : Z)
| FDouble (d : double).

#[export] Instance field_eq_dec : EqDecision field.
Proof. solve_decision. Defined.

(** The fields of an object, in the order of the assignments that build it. *)
Abbreviation fields := (list (string * field)).

Class JsonLib : Type := {
  json : Type;
  (** [json::parse(text)]; [None] when it throws [parse_error]. *)
  json_parse : string → option json;
  (** [j.dump()]; [None] when it throws (a string that is not UTF-8). *)
  json_dump : json → option string;
  (** [j.dump(2)], the indented form. *)
  json_dump2 : json → option string;
  (** [j.at(key)]; [None] when it throws [type_error] or [out_of_range]. *)
  json_at : json → string → option json;
  (** [j[key]] of a mutable object: a missing key reads as [null]; [None] when
      [j] is not an object (nor null). *)
  json_index : json → string → option json;
  (** [j.get<T>()]; [None] when it throws [type_error]. *)
  get_string : json → option string;
  get_int64 : json → option Z;
  get_double : json → option double;
  (** [j.value(key, default)]; [None] when it throws [type_error]. *)
  value_bool : json → string → bool → option bool;
  value_string : json → string → string → option string;
  (** The conversions from C++ values and the object with given members. *)
  json_of_field : field → json;
  json_object : list (string * json) → json;
  (** [s] is well-formed UTF-8, the condition under which strings are dumped. *)
  utf8 : string → bool
}.

(** Plain ASCII text. *)
Definition ascii_text (s : string) : bool :=
  forallb (λ c, (nat_of_ascii c <? 128)%nat) (chars_of s).

Section json_ops.
Context `{JsonLib}.

(** The object a handler builds: [{{"k", v}, ...}] or [j["k"] = v; ...]. *)
Definition object (fs : fields) : json :=
  json_object (prod_map id json_of_field <$> fs).

Definition field_utf8 (f : field) : bool :=
  match f with FString s => utf8 s | _ => true end.

(** A double that is not finite is dumped as [null]. *)
Definition field_finite (f : field) : bool :=
  match f with FDouble d => is_finite d | _ => true end.

(** An integer field is an [int64_t]. *)
Definition field_int64 (f : field) : bool :=
  match f with FInt z => int64_ok z | _ => true end.

Definition fields_utf8 (fs : fields) : Prop :=
  Forall (λ kf, utf8 kf.1 ∧ field_utf8 kf.2) fs.

(** The fields that read back as they were written. *)
Definition fields_exact (fs : fields) : Prop :=
  Forall (λ kf, utf8 kf.1 ∧ field_utf8 kf.2 ∧ field_finite kf.2 ∧ field_int64 kf.2) fs.

(** [j.at(key).get<T>()]. *)
Definition at_string (j : json) (k : string) : option string :=
  v ← json_at j k; get_string v.
Definition at_int64 (j : json) (k : string) : option Z :=
  v ← json_at j k; get_int64 v.
Definition at_double (j : json) (k : string) : option double :=
  v ← json_at j k; get_double v.

(** Reading [v] with the [get] of its type gives the value of [f]. *)
Definition reads_as (v : json) (f : field) : Prop :=
  match f with
  | FString s => get_string v = Some s
  | FInt z => get_int64 v = Some z
  | FDouble d => get_double v = Some d
  end.

(** [j] has exactly the members [fs]. *)
Definition has_fields (j : json) (fs : fields) : Prop :=
  ∀ k, match assoc k fs with
       | Some f => ∃ v, json_at j k = Some v ∧ reads_as v f
       | None => json_at j k = None
       end.

End json_ops.

(** The documented behaviour of the library. *)
Class JsonLaws `{JsonLib} : Prop := {
  (** An object can be dumped when all its strings are UTF-8. *)
  dump_object fs : fields_utf8 fs → ∃ s, json_dump (object fs) = Some s;
  dump2_object fs : fields_utf8 fs → ∃ s, json_dump2 (object fs) = Some s;
  (** What was dumped parses to an object with the same members, provided the
      keys are distinct and every double is finite. *)
  parse_dump fs s :
    NoDup fs.*1 → fields_exact fs → json_dump (object fs) = Some s →
    ∃ j, json_parse s = Some j ∧ has_fields j fs;
  parse_dump2 fs s :
    NoDup fs.*1 → fields_exact fs → json_dump2 (object fs) = Some s →
    ∃ j, json_parse s = Some j ∧ has_fields j fs;
  (** The same for an object built from other values: it can be dumped when every
      member reads as a number or as a UTF-8 string, and the members read back. *)
  dump_values l :
    Forall (λ kv, utf8 kv.1 ∧ ∃ f, field_utf8 f ∧ reads_as kv.2 f) l →
    ∃ s, json_dump (json_object l) = Some s;
  parse_dump_values l s :
    NoDup l.*1 → json_dump (json_object l) = Some s →
    ∃ j, json_parse s = Some j ∧
      ∀ k v f, assoc k l = Some v → field_finite f → reads_as v f →
        ∃ v', json_at j k = Some v' ∧ reads_as v' f;
  (** A converted value reads as what it was converted from. *)
  of_field_reads f : field_int64 f → reads_as (json_of_field f) f;
  (** [j[key]] of a present member is the member. *)
  index_at j k v : json_at j k = Some v → json_index j k = Some v;
  (** [value] of an object member is [get] of it, and the default when there is
      no such member. *)
  value_string_at j k v d :
    json_at j k = Some v → value_string j k d = get_string v;
  (** ASCII text is UTF-8. *)
  utf8_ascii s : ascii_text s → utf8 s
}.

Section json_lemmas.
Context `{JsonLaws}.

Lemma has_fields_read j fs k f :
  has_fields j fs → assoc k fs = Some f →
  ∃ v, json_at j k = Some v ∧ reads_as v f.
Proof. intros Hj Hk. specialize (Hj k). by rewrite Hk in Hj. Qed.

Lemma at_string_fields j fs k s :
  has_fields j fs → assoc k fs = Some (FString s) → at_string j k = Some s.
Proof.
  intros Hj Hk. destruct (has_fields_read _ _ _ _ Hj Hk) as (v & Hv & Hr).
  unfold at_string. by rewrite Hv.
Qed.

Lemma at_int64_fields j fs k z :
  has_fields j fs → assoc k fs = Some (FInt z) → at_int64 j k = Some z.
Proof.
  intros Hj Hk. destruct (has_fields_read _ _ _ _ Hj Hk) as (v & Hv & Hr).
  unfold at_int64. by rewrite Hv.
Qed.

Lemma at_double_fields j fs k d :
  has_fields j fs → assoc k fs = Some (FDouble d) → at_double j k = Some d.
Proof.
  intros Hj Hk. destruct (has_fields_read _ _ _ _ Hj Hk) as (v & Hv & Hr).
  unfold at_double. by rewrite Hv.
Qed.

(** A member of a dumped object reads back. *)
Lemma at_field_read j k v f :
  json_at j k = Some v → reads_as v f →
  match f with
  | FString s => at_string j k = Some s
  | FInt z => at_int64 j k = Some z
  | FDouble d => at_double j k = Some d
  end.
Proof.
  intros Hv Hr. destruct f; unfold at_string, at_int64, at_double; by rewrite Hv.
Qed.

Lemma fields_exact_utf8 fs : fields_exact fs → fields_utf8 fs.
Proof. intros Hf. eapply Forall_impl; [exact Hf|]. intros kf (? & ? & _). done. Qed.

End json_lemmas.

#[export] Hint Resolve fields_exact_utf8 : gateway.
