(* ===== verification/JsonModel.v ===== *)
(** * A concrete JSON library *)

(** An instance of the [JsonLib] interface that satisfies [JsonLaws]: it shows
    that the interface can hold and lets the witnesses evaluate the models.
    It is not a model of nlohmann/json: its text form is an encoding of the
    members, not JSON syntax. *)

From stdpp Require Import countable.
From S2P Require Import Prelude Double Json.

Local Unset Elimination Schemes.

Inductive jvalue : Type :=
| JField (f : field)
| JBool (b : bool)
| JNull
| JObject (l : list (string * jvalue)).

(** ** The encoding of members as text *)

Definition double_code (d : double) : (bool + bool) + (unit + (bool * positive * Z)) :=
  match d with
  | S754_zero s => inl (inl s)
  | S754_infinity s => inl (inr s)
  | S754_nan => inr (inl tt)
  | S754_finite s m e => inr (inr (s, m, e))
  end.

Definition double_decode (c : (bool + bool) + (unit + (bool * positive * Z))) : double :=
  match c with
  | inl (inl s) => S754_zero s
  | inl (inr s) => S754_infinity s
  | inr (inl tt) => S754_nan
  | inr (inr (s, m, e)) => S754_finite s m e
  end.

#[export] Instance double_countable : Countable double.
Proof. apply (inj_countable' double_code double_decode). by intros []. Defined.

Definition field_code (f : field) : string + (Z + double) :=
  match f with
  | FString s => inl s
  | FInt z => inr (inl z)
  | FDouble d => inr (inr d)
  end.

Definition field_decode (c : string + (Z + double)) : field :=
  match c with
  | inl s => FString s
  | inr (inl z) => FInt z
  | inr (inr d) => FDouble d
  end.

#[export] Instance field_countable : Countable field.
Proof. apply (inj_countable' field_code field_decode). by intros []. Defined.

Fixpoint pos_bits (p : positive) : string :=
  match p with
  | xH => EmptyString
  | xO p' => String "0" (pos_bits p')
  | xI p' => String "1" (pos_bits p')
  end.

Fixpoint bits_pos (s : string) : option positive :=
  match s with
  | EmptyString => Some xH
  | String "0" s' => xO <$> bits_pos s'
  | String "1" s' => xI <$> bits_pos s'
  | _ => None
  end.

(** Flat objects ([F]) and objects whose members are booleans or flat objects
    ([R], the shape of the backend's replies). *)
Definition flat_text (l : fields) : string := String "F" (pos_bits (encode l)).
Definition reply_text (l : list (string * (bool + fields))) : string :=
  String "R" (pos_bits (encode l)).

Definition flat_value (l : fields) : jvalue := JObject (prod_map id JField <$> l).
Definition reply_value (l : list (string * (bool + fields))) : jvalue :=
  JObject (prod_map id (λ v, match v with inl b => JBool b | inr fs => flat_value fs end)
           <$> l).

Definition model_parse (s : string) : option jvalue :=
  match s with
  | String "F" s' => p ← bits_pos s'; flat_value <$> decode (A:=fields) p
  | String "R" s' =>
      p ← bits_pos s'; reply_value <$> decode (A:=list (string * (bool + fields))) p
  | _ => None
  end.

Definition as_field (kv : string * jvalue) : option (string * field) :=
  match kv with
  | (k, JField f) => Some (k, f)
  | _ => None
  end.

Definition text_ok (kf : string * field) : bool :=
  ascii_text kf.1 && match kf.2 with FString s => ascii_text s | _ => true end.

Definition model_dump (j : jvalue) : option string :=
  match j with
  | JObject l =>
      l' ← mapM as_field l;
      if forallb text_ok l' then Some (flat_text l') else None
  | _ => None
  end.

Definition model_at (j : jvalue) (k : string) : option jvalue :=
  match j with JObject l => assoc k l | _ => None end.

Definition model_index (j : jvalue) (k : string) : option jvalue :=
  match j with
  | JObject l => Some (default JNull (assoc k l))
  | JNull => Some JNull
  | _ => None
  end.

Definition model_string (j : jvalue) : option string :=
  match j with JField (FString s) => Some s | _ => None end.
Definition model_int64 (j : jvalue) : option Z :=
  match j with
  | JField (FInt z) => if int64_ok z then Some z else None
  | _ => None
  end.
Definition model_double (j : jvalue) : option double :=
  match j with JField (FDouble d) => Some d | _ => None end.
Definition model_value_bool (j : jvalue) (k : string) (d : bool) : option bool :=
  match j with
  | JObject l =>
      match assoc k l with
      | Some (JBool b) => Some b
      | Some _ => None
      | None => Some d
      end
  | _ => None
  end.
Definition model_value_string (j : jvalue) (k : string) (d : string) : option string :=
  match j with
  | JObject l =>
      match assoc k l with Some v => model_string v | None => Some d end
  | _ => None
  end.

#[export] Instance model_json : JsonLib := {
  json := jvalue;
  json_parse := model_parse;
  json_dump := model_dump;
  json_dump2 := model_dump;
  json_at := model_at;
  json_index := model_index;
  get_string := model_string;
  get_int64 := model_int64;
  get_double := model_double;
  value_bool := model_value_bool;
  value_string := model_value_string;
  json_of_field := JField;
  json_object := JObject;
  utf8 := ascii_text
}.

(** ** The laws *)

Lemma bits_pos_bits p : bits_pos (pos_bits p) = Some p.
Proof. induction p as [p IH|p IH|]; simpl; by rewrite ?IH. Qed.

Lemma mapM_as_field fs : mapM as_field (prod_map id JField <$> fs) = Some fs.
Proof. induction fs as [|[k f] fs IH]; [done|].
  csimpl. apply bind_Some. by exists fs. Qed.

Lemma assoc_fmap {A B} (g : A → B) k (l : list (string * A)) :
  assoc k (prod_map id g <$> l) = g <$> assoc k l.
Proof. induction l as [|[k' v] l IH]; simpl; [done|]. by destruct (String.eqb k k'). Qed.

Lemma model_dump_object fs :
  model_dump (object fs) = if forallb text_ok fs then Some (flat_text fs) else None.
Proof.
  exact (f_equal (λ o, l ← o; if forallb text_ok l then Some (flat_text l) else None)
           (mapM_as_field fs)).
Qed.

Lemma flat_text_parse fs : model_parse (flat_text fs) = Some (flat_value fs).
Proof. simpl. by rewrite bits_pos_bits; simpl; rewrite decode_encode. Qed.

Lemma reply_text_parse l : model_parse (reply_text l) = Some (reply_value l).
Proof. simpl. by rewrite bits_pos_bits; simpl; rewrite decode_encode. Qed.

Lemma model_dump_ok fs : fields_utf8 fs → ∃ s, model_dump (object fs) = Some s.
Proof.
  intros Hf. rewrite model_dump_object.
  assert (forallb text_ok fs = true) as ->; [|eauto].
  induction Hf as [|[k f] fs [Hk Hv] _ IH]; simpl; [done|].
  rewrite IH, andb_true_r. unfold text_ok. simpl in *.
  rewrite (Is_true_true_1 _ Hk). destruct f; [|done..]. by apply Is_true_true_1.
Qed.

Lemma model_round_trip fs s :
  fields_exact fs → model_dump (object fs) = Some s →
  ∃ j, model_parse s = Some j ∧ has_fields j fs.
Proof.
  rewrite model_dump_object. intros Hf Hs.
  destruct (forallb text_ok fs); [|done]. injection Hs as <-.
  exists (flat_value fs). split; [apply flat_text_parse|]. intros k. simpl.
  rewrite assoc_fmap. destruct (assoc k fs) as [f|] eqn:E; simpl; [|done].
  exists (JField f). split; [done|].
  apply assoc_elem in E. unfold fields_exact in Hf. rewrite Forall_forall in Hf.
  destruct (Hf _ E) as (_ & _ & _ & Hi).
  destruct f; simpl in *; [done| |done]. by rewrite (Is_true_true_1 _ Hi).
Qed.

(** What reads as a field is one. *)
Lemma model_reads_field v f : reads_as v f → ∃ f', v = JField f' ∧ (field_utf8 f → field_utf8 f').
Proof.
  destruct f as [s|z|d]; simpl; destruct v as [[s'|z'|d']| | |]; simpl; intros Hr; try done.
  - injection Hr as <-. by exists (FString s').
  - by exists (FInt z').
  - by exists (FDouble d').
Qed.

Lemma model_dump_values l :
  Forall (λ kv, utf8 kv.1 ∧ ∃ f, field_utf8 f ∧ reads_as kv.2 f) l →
  ∃ s, model_dump (JObject l) = Some s.
Proof.
  intros Hl. assert (∃ fs, l = prod_map id JField <$> fs ∧ fields_utf8 fs) as (fs & -> & Hfs).
  { induction Hl as [|[k v] l (Hk & f & Hu & Hr) _ (fs & -> & Hfs)]; [by exists []; split; [|constructor]|].
    destruct (model_reads_field v f Hr) as (f' & -> & Hf'). exists ((k, f') :: fs).
    split; [done|]. constructor; [|done]. split; [done|by apply Hf']. }
  by apply model_dump_ok.
Qed.

Lemma as_field_inv l fs : mapM as_field l = Some fs → l = prod_map id JField <$> fs.
Proof.
  revert fs. induction l as [|[k v] l IH]; intros fs; csimpl; [by intros [= <-]|].
  intros (kf & Hkf & (fs' & Hfs & [= <-])%bind_Some)%bind_Some.
  destruct v; simplify_eq. rewrite (IH fs' Hfs). done.
Qed.

Lemma model_values_round_trip l s :
  model_dump (JObject l) = Some s →
  ∃ j, model_parse s = Some j ∧
    ∀ k v f, assoc k l = Some v → field_finite f → reads_as v f →
      ∃ v', model_at j k = Some v' ∧ reads_as v' f.
Proof.
  intros Hs. cbn [model_dump] in Hs. apply bind_Some in Hs as (fs & Hfs & Hs).
  destruct (forallb text_ok fs); [|done]. injection Hs as <-.
  exists (flat_value fs). split; [apply flat_text_parse|]. intros k v f Hv _ Hr.
  exists v. split; [|done]. by rewrite (as_field_inv l fs Hfs) in Hv.
Qed.

#[export] Instance model_laws : JsonLaws.
Proof.
  split; simpl.
  - apply model_dump_ok.
  - apply model_dump_ok.
  - intros fs s _. apply model_round_trip.
  - intros fs s _. apply model_round_trip.
  - apply model_dump_values.
  - intros l s _. apply model_values_round_trip.
  - intros [s|z|d] Hz; [done| |done]. simpl in *. by rewrite (Is_true_true_1 _ Hz).
  - intros [| | |l] k v; simpl; try done. by intros ->.
  - intros [| | |l] k v d; simpl; try done. by intros ->.
  - done.
Qed.
