(* ===== verification/Messages.v ===== *)
(** * Topics and protobuf messages *)

(** The MQTT topics of [src/infra/constants.h] and the messages of
    [proto/vehicle_gateway.proto]. A [oneof] is an inductive type with one more
    constructor for the member that is not set. *)

From S2P Require Import Prelude Double.

(** ** Topics *)

Definition kTopicTripInit : string := "topic/trip/init".
Definition kTopicTripMove : string := "topic/trip/move".
Definition kTopicTripEta : string := "topic/trip/eta".
Definition kTopicTripStatus : string := "topic/trip/status".
Definition kTopicTripArrive : string := "topic/trip/arrive".
Definition kTopicUpdateLocation : string := "topic/vehicle/update/location".
Definition kTopicTripPark : string := "topic/trip/park".
Definition kTopicOrderUpdateLocation : string := "topic/update_location/order".
Definition kTopicOrderUpdateStatus : string := "topic/update_status/order".
Definition kTopicTripCancel : string := "topic/trip/cancel".
Definition kTopicStreamLocation : string := "topic/trip/stream_location".

(** ** Messages *)

Record EtaRequest : Type := {
  eta_vin_number : string;
  eta_request_id : Z;
  eta_time : double;
  eta_fare : double;
  eta_status : string
}.

Record StatusRequest : Type := {
  st_vin_number : string;
  st_trip_id : Z;
  st_status : string
}.

Record ArriveRequest : Type := {
  ar_vin_number : string;
  ar_trip_id : Z;
  ar_long : double;
  ar_lat : double
}.

Record UpdateVehicleLocationRequest : Type := {
  ul_vinNumber : string;
  ul_longitude : double;
  ul_latitude : double
}.

Record TripInitRequest : Type := {
  ti_vin_number : string;
  ti_request_id : Z;
  ti_start_long : double;
  ti_start_lat : double;
  ti_end_long : double;
  ti_end_lat : double
}.

Record TripMoveRequest : Type := {
  tm_vin_number : string;
  tm_trip_id : Z;
  tm_longitude : double;
  tm_latitude : double
}.

Record TripParkRequest : Type := {
  tp_vin_number : string;
  tp_longitude : double;
  tp_latitude : double
}.

Record OrderUpdateLocationRequest : Type := { oul_vin_number : string }.
Record OrderUpdateStatusRequest : Type := { ous_vin_number : string }.

Record TripCancelRequest : Type := {
  tc_vin_number : string;
  tc_request_id : Z
}.

(** Every response of the service has these two fields. *)
Record Response : Type := {
  success : bool;
  message : string
}.

(** The value of a response nobody has set. *)
Definition empty_response : Response := {| success := false; message := "" |}.

Inductive GatewayCommand : Type :=
| CmdNotSet
| CmdTripInit (r : TripInitRequest)
| CmdTripMove (r : TripMoveRequest)
| CmdTripPark (r : TripParkRequest)
| CmdOrderUpdateLocation (r : OrderUpdateLocationRequest)
| CmdOrderUpdateStatus (r : OrderUpdateStatusRequest)
| CmdTripCancel (r : TripCancelRequest).

Inductive VehicleEvent : Type :=
| EvNotSet
| EvTripInitAck (r : Response)
| EvTripMoveAck (r : Response)
| EvTripParkAck (r : Response)
| EvOrderUpdateLocationAck (r : Response)
| EvOrderUpdateStatusAck (r : Response)
| EvEta (r : EtaRequest)
| EvStatus (r : StatusRequest)
| EvArrive (r : ArriveRequest)
| EvLocation (r : UpdateVehicleLocationRequest)
| EvTripCancelAck (r : Response).

#[export] Instance trip_init_request_eq_dec : EqDecision TripInitRequest.
Proof. solve_decision. Defined.
#[export] Instance trip_move_request_eq_dec : EqDecision TripMoveRequest.
Proof. solve_decision. Defined.
#[export] Instance trip_park_request_eq_dec : EqDecision TripParkRequest.
Proof. solve_decision. Defined.
#[export] Instance order_update_location_request_eq_dec : EqDecision OrderUpdateLocationRequest.
Proof. solve_decision. Defined.
#[export] Instance order_update_status_request_eq_dec : EqDecision OrderUpdateStatusRequest.
Proof. solve_decision. Defined.
#[export] Instance trip_cancel_request_eq_dec : EqDecision TripCancelRequest.
Proof. solve_decision. Defined.
#[export] Instance response_eq_dec : EqDecision Response.
Proof. solve_decision. Defined.
#[export] Instance eta_request_eq_dec : EqDecision EtaRequest.
Proof. solve_decision. Defined.
#[export] Instance status_request_eq_dec : EqDecision StatusRequest.
Proof. solve_decision. Defined.
#[export] Instance arrive_request_eq_dec : EqDecision ArriveRequest.
Proof. solve_decision. Defined.
#[export] Instance update_vehicle_location_request_eq_dec : EqDecision UpdateVehicleLocationRequest.
Proof. solve_decision. Defined.
#[export] Instance gateway_command_eq_dec : EqDecision GatewayCommand.
Proof. solve_decision. Defined.
#[export] Instance vehicle_event_eq_dec : EqDecision VehicleEvent.
Proof. solve_decision. Defined.
