(* ===== verification/Router.v ===== *)
(** * MqttRouter *)

(** The per-topic dispatch of inbound MQTT messages
    ([src/services/mqtt_router.h], [mqtt_router.cc]). A handler is a
    computation over the state [W] its closure captures. *)

From S2P Require Import Prelude.

Module MqttRouter.

Abbreviation Handler W := (string → M W unit).

Section router.
Context {W : Type}.

Record MqttRouter : Type := { handlers_ : gmap string (Handler W) }.

Definition empty_router : MqttRouter := {| handlers_ := ∅ |}.

Definition on (topic : string) (handler : Handler W) (r : MqttRouter) : MqttRouter :=
  {| handlers_ := <[topic := handler]> (handlers_ r) |}.

(** Both [catch] clauses only log. *)
Definition dispatch (r : MqttRouter) (topic payload : string) : M W unit :=
  match handlers_ r !! topic with
  | None => mret tt
  | Some handler => catch (handler payload) (λ _, mret tt)
  end.

End router.

Arguments MqttRouter : clear implicits.

Section lemmas.
Context {W : Type}.

Lemma dispatch_handler (r : MqttRouter W) topic payload h :
  handlers_ r !! topic = Some h →
  dispatch r topic payload = catch (h payload) (λ _, mret tt).
Proof. unfold dispatch. by intros ->. Qed.

Lemma dispatch_unknown (r : MqttRouter W) topic payload w :
  handlers_ r !! topic = None → dispatch r topic payload w = (Ret tt, w).
Proof. unfold dispatch. by intros ->. Qed.

Lemma lookup_on_eq (r : MqttRouter W) topic h :
  handlers_ (on topic h r) !! topic = Some h.
Proof. apply lookup_insert_eq. Qed.

Lemma lookup_on_ne (r : MqttRouter W) topic topic' h :
  topic ≠ topic' → handlers_ (on topic h r) !! topic' = handlers_ r !! topic'.
Proof. apply lookup_insert_ne. Qed.

(** What the handler did before throwing is kept, and the exception is gone. *)
Lemma dispatch_run (r : MqttRouter W) topic payload h w :
  handlers_ r !! topic = Some h → no_ub (h payload) w →
  dispatch r topic payload w = (Ret tt, exec (h payload) w).
Proof.
  intros Hh Hub. rewrite (dispatch_handler _ _ _ _ Hh).
  unfold catch, exec, no_ub in *. by destruct (h payload w) as [[[]|e|] w'].
Qed.

End lemmas.

(** Dispatching is total and isolates the io thread from its handlers. For
    every message, whatever the topic and the payload, [dispatch] returns
    normally: an unknown topic changes nothing, and a handler that throws any
    exception leaves exactly the effects it had before the throw. The only
    assumption is that the handlers have no undefined behaviour. *)
Theorem dispatch_total {W} (r : MqttRouter W) topic payload w
  (Hub : ∀ t h p w', handlers_ r !! t = Some h → no_ub (h p) w') :
  dispatch r topic payload w =
  (Ret tt, match handlers_ r !! topic with
           | Some h => exec (h payload) w
           | None => w
           end).
Proof.
  destruct (handlers_ r !! topic) as [h|] eqn:Hh.
  - apply dispatch_run; eauto.
  - by apply dispatch_unknown.
Qed.

(** A handler that counts its message and then throws. *)
Definition counting_handler : Handler nat :=
  λ p, modify S ;; throw JsonException.

Lemma dispatch_total_witness :
  dispatch (on "t" counting_handler empty_router) "t" "x" 0 = (Ret tt, 1).
Proof.
  refine (eq_trans (dispatch_total (on "t" counting_handler empty_router) "t" "x" 0 _) _).
  - intros t h p w'. unfold on, empty_router. cbn [handlers_].
    destruct (decide (t = "t")) as [->|Hne].
    + rewrite lookup_insert_eq. intros [= <-]. done.
    + rewrite lookup_insert_ne by congruence. rewrite lookup_empty. done.
  - reflexivity.
Defined.

End MqttRouter.
