(* ===== verification/Orchestrator.v ===== *)
(** * TripOrchestrator *)

(** The decoding of the backend's MQTT commands
    ([src/application/trip_orchestrator.h], [trip_orchestrator.cc]). The
    callbacks are computations over the state [W] their closures capture; a
    [std::function] that was not set is [None]. *)

From S2P Require Import Prelude Double Json JsonModel Messages.

Module TripOrchestrator.

Section orchestrator.
Context `{JsonLib} {W : Type}.

Record TripCallbacks : Type := {
  on_trip_init : option (string → Z → double → double → double → double → M W unit);
  on_trip_move : option (string → Z → double → double → M W unit);
  on_trip_park : option (string → double → double → M W unit);
  on_order_update_location : option (string → M W unit);
  on_order_update_status : option (string → M W unit);
  on_trip_cancel : option (string → Z → M W unit)
}.

Definition no_callbacks : TripCallbacks :=
  {| on_trip_init := None; on_trip_move := None; on_trip_park := None;
     on_order_update_location := None; on_order_update_status := None;
     on_trip_cancel := None |}.

(** [request_id_] is a [std::atomic<double>], [trip_id_] an
    [std::atomic<int64_t>]. *)
Record TripOrchestrator : Type := {
  vin_number_ : string;
  trip_callbacks_ : TripCallbacks;
  trip_id_ : Z;
  request_id_ : double
}.

Definition new_orchestrator (vin_number : string) : TripOrchestrator :=
  {| vin_number_ := vin_number; trip_callbacks_ := no_callbacks;
     trip_id_ := 0; request_id_ := S754_zero false |}.

Definition set_callbacks (c : TripCallbacks) (o : TripOrchestrator) : TripOrchestrator :=
  {| vin_number_ := vin_number_ o; trip_callbacks_ := c;
     trip_id_ := trip_id_ o; request_id_ := request_id_ o |}.

(** [trip_id_.store(id)]; also the public [set_trip_id]. *)
Definition set_trip_id (id : Z) (o : TripOrchestrator) : TripOrchestrator :=
  {| vin_number_ := vin_number_ o; trip_callbacks_ := trip_callbacks_ o;
     trip_id_ := id; request_id_ := request_id_ o |}.

(** [request_id_.store(request_id)]: the [int64_t] is converted to [double]. *)
Definition store_request_id (id : Z) (o : TripOrchestrator) : TripOrchestrator :=
  {| vin_number_ := vin_number_ o; trip_callbacks_ := trip_callbacks_ o;
     trip_id_ := trip_id_ o; request_id_ := double_of_int id |}.

Definition active_trip_id (o : TripOrchestrator) : Z := trip_id_ o.

(** [return request_id_.load()] converts back; undefined out of range. *)
Definition active_request_id (o : TripOrchestrator) : option Z :=
  int64_of_double (request_id_ o).

Definition vin (o : TripOrchestrator) : string := vin_number_ o.

(** The handlers run on the orchestrator and what the callbacks capture. *)
Abbreviation state := (TripOrchestrator * W)%type.

Definition with_orchestrator (f : TripOrchestrator → TripOrchestrator) : M state unit :=
  modify (λ s, (f s.1, s.2)).

(** [if (trip_callbacks_.f) trip_callbacks_.f(args...)]. *)
Definition callback {F} (sel : TripCallbacks → option F) (call : F → M W unit) : M state unit :=
  o ← gets fst;
  match sel (trip_callbacks_ o) with
  | Some f => zoom snd (λ w s, (s.1, w)) (call f)
  | None => mret tt
  end.

Definition handle_trip_init (payload : string) : M state unit :=
  j ← json_try (json_parse payload);
  vin ← json_try (at_string j "vinNumber");
  request_id ← json_try (at_int64 j "requestId");
  start_lon ← json_try (at_double j "startLong");
  start_lat ← json_try (at_double j "startLat");
  end_lon ← json_try (at_double j "endLong");
  end_lat ← json_try (at_double j "endLat");
  with_orchestrator (store_request_id request_id) ;;
  callback on_trip_init (λ f, f vin request_id start_lat start_lon end_lat end_lon).

Definition handle_trip_move (payload : string) : M state unit :=
  j ← json_try (json_parse payload);
  vin ← json_try (at_string j "vinNumber");
  trip_id ← json_try (at_int64 j "tripId");
  lon ← json_try (at_double j "longitude");
  lat ← json_try (at_double j "latitude");
  with_orchestrator (set_trip_id trip_id) ;;
  callback on_trip_move (λ f, f vin trip_id lat lon).

Definition handle_trip_park (payload : string) : M state unit :=
  j ← json_try (json_parse payload);
  vin ← json_try (at_string j "vinNumber");
  lon ← json_try (at_double j "longitude");
  lat ← json_try (at_double j "latitude");
  callback on_trip_park (λ f, f vin lon lat).

Definition handle_order_update_location (payload : string) : M state unit :=
  j ← json_try (json_parse payload);
  vin ← json_try (at_string j "vinNumber");
  callback on_order_update_location (λ f, f vin).

Definition handle_order_update_status (payload : string) : M state unit :=
  j ← json_try (json_parse payload);
  vin ← json_try (at_string j "vinNumber");
  callback on_order_update_status (λ f, f vin).

Definition handle_trip_cancel (payload : string) : M state unit :=
  j ← json_try (json_parse payload);
  vin ← json_try (at_string j "vinNumber");
  request_id ← json_try (at_int64 j "requestId");
  callback on_trip_cancel (λ f, f vin request_id).

(** ** Specification: what a payload says *)

(** The six commands of the backend. *)
Inductive kind : Type :=
| KTripInit | KTripMove | KTripPark | KOrderUpdateLocation | KOrderUpdateStatus
| KTripCancel.

Definition handle (k : kind) : string → M state unit :=
  match k with
  | KTripInit => handle_trip_init
  | KTripMove => handle_trip_move
  | KTripPark => handle_trip_park
  | KOrderUpdateLocation => handle_order_update_location
  | KOrderUpdateStatus => handle_order_update_status
  | KTripCancel => handle_trip_cancel
  end.

(** The command a well-formed payload of each kind carries; [None] when the
    text is not JSON, a key is missing or a value has another type. *)
Definition decode (k : kind) (payload : string) : option GatewayCommand :=
  j ← json_parse payload;
  vin ← at_string j "vinNumber";
  match k with
  | KTripInit =>
      id ← at_int64 j "requestId";
      slon ← at_double j "startLong"; slat ← at_double j "startLat";
      elon ← at_double j "endLong"; elat ← at_double j "endLat";
      Some (CmdTripInit
        {| ti_vin_number := vin; ti_request_id := id; ti_start_long := slon;
           ti_start_lat := slat; ti_end_long := elon; ti_end_lat := elat |})
  | KTripMove =>
      id ← at_int64 j "tripId";
      lon ← at_double j "longitude"; lat ← at_double j "latitude";
      Some (CmdTripMove
        {| tm_vin_number := vin; tm_trip_id := id; tm_longitude := lon;
           tm_latitude := lat |})
  | KTripPark =>
      lon ← at_double j "longitude"; lat ← at_double j "latitude";
      Some (CmdTripPark
        {| tp_vin_number := vin; tp_longitude := lon; tp_latitude := lat |})
  | KOrderUpdateLocation =>
      Some (CmdOrderUpdateLocation {| oul_vin_number := vin |})
  | KOrderUpdateStatus =>
      Some (CmdOrderUpdateStatus {| ous_vin_number := vin |})
  | KTripCancel =>
      id ← at_int64 j "requestId";
      Some (CmdTripCancel {| tc_vin_number := vin; tc_request_id := id |})
  end.

(** The identifier a command makes the orchestrator remember. *)
Definition remember (c : GatewayCommand) (o : TripOrchestrator) : TripOrchestrator :=
  match c with
  | CmdTripInit r => store_request_id (ti_request_id r) o
  | CmdTripMove r => set_trip_id (tm_trip_id r) o
  | _ => o
  end.

(** The callback a command is handed to, with the argument order of each
    signature. *)
Definition notify (cb : TripCallbacks) (c : GatewayCommand) : option (M W unit) :=
  match c with
  | CmdTripInit r =>
      (λ f, f (ti_vin_number r) (ti_request_id r) (ti_start_lat r) (ti_start_long r)
              (ti_end_lat r) (ti_end_long r)) <$> on_trip_init cb
  | CmdTripMove r =>
      (λ f, f (tm_vin_number r) (tm_trip_id r) (tm_latitude r) (tm_longitude r))
        <$> on_trip_move cb
  | CmdTripPark r =>
      (λ f, f (tp_vin_number r) (tp_longitude r) (tp_latitude r)) <$> on_trip_park cb
  | CmdOrderUpdateLocation r =>
      (λ f, f (oul_vin_number r)) <$> on_order_update_location cb
  | CmdOrderUpdateStatus r =>
      (λ f, f (ous_vin_number r)) <$> on_order_update_status cb
  | CmdTripCancel r =>
      (λ f, f (tc_vin_number r) (tc_request_id r)) <$> on_trip_cancel cb
  | CmdNotSet => None
  end.

(** Obeying a decoded command: remember its identifier, then call back. *)
Definition obey (c : GatewayCommand) (s : state) : outcome unit * state :=
  match notify (trip_callbacks_ s.1) c with
  | Some m => let '(r, w) := m s.2 in (r, (remember c s.1, w))
  | None => (Ret tt, (remember c s.1, s.2))
  end.

End orchestrator.

Arguments TripCallbacks : clear implicits.
Arguments TripOrchestrator : clear implicits.

(** ** Correctness *)

Section theorems.
Context `{JsonLib} {W : Type}.

Lemma with_orchestrator_run f (k : unit → M (TripOrchestrator W * W) unit) o w :
  (with_orchestrator f ≫= k) (o, w) = k tt (f o, w).
Proof. reflexivity. Qed.

Lemma callback_run {F} (sel : TripCallbacks W → option F) call o w :
  callback sel call (o, w) =
  match sel (trip_callbacks_ o) with
  | Some f => let '(r, w') := call f w in (r, (o, w'))
  | None => (Ret tt, (o, w))
  end.
Proof. unfold callback, gets, mbind, M_bind. simpl. by destruct (sel _). Qed.

(** A handler is its decoder, followed by its callback. *)
Lemma handle_decode (k : kind) payload (s : TripOrchestrator W * W) :
  handle k payload s =
  match decode k payload with
  | Some c => obey c s
  | None => (Exn JsonException, s)
  end.
Proof.
  destruct s as [o w]. unfold decode.
  destruct k; cbn [handle];
    unfold handle_trip_init, handle_trip_move, handle_trip_park,
      handle_order_update_location, handle_order_update_status, handle_trip_cancel;
    json_reads; rewrite ?with_orchestrator_run, callback_run; unfold obey; simpl;
    match goal with
    | |- context [?sel (trip_callbacks_ o)] => by destruct (sel (trip_callbacks_ o))
    end.
Qed.

(** C10. Every handler refines its specification, on every payload. If the
    payload carries a command of the handler's kind, the handler stores the
    identifier of the command and passes exactly its fields to the registered
    callback; in every other case (not JSON, missing key, wrong type) it throws
    a [json::exception] and has changed nothing, so neither the remembered
    identifier nor the vehicle is affected by a malformed message. *)
Theorem handle_refines_decode (k : kind) payload (s : TripOrchestrator W * W) :
  handle k payload s =
  match decode k payload with
  | Some c => obey c s
  | None => (Exn JsonException, s)
  end.
Proof. apply handle_decode. Qed.

Lemma active_request_id_init (k : kind) payload (s : TripOrchestrator W * W) r :
  decode k payload = Some (CmdTripInit r) →
  active_request_id (exec (handle k payload) s).1 =
  int64_of_double (double_of_int (ti_request_id r)).
Proof.
  intros Hd. unfold exec. rewrite handle_decode, Hd. unfold obey.
  destruct (notify _ _) as [m|]; [|done]. by destruct (m s.2).
Qed.

(** C40. The identifier of the last TripInit is reported exactly as long as it
    fits the 53-bit significand of the [double] it is stored in, whatever the
    callback does. *)
Theorem request_id_exact payload (s : TripOrchestrator W * W) r
  (Hd : decode KTripInit payload = Some (CmdTripInit r))
  (Hid : (- 2 ^ 53 <= ti_request_id r <= 2 ^ 53)%Z) :
  active_request_id (exec (handle_trip_init payload) s).1 = Some (ti_request_id r).
Proof.
  change (handle_trip_init payload) with (handle (W:=W) KTripInit payload).
  rewrite (active_request_id_init _ _ _ _ Hd). by apply int64_of_double_of_int.
Qed.

(** Beyond 2^53 the stored [double] loses the identifier: for 2^53 + 1 the
    getter returns 2^53, another request's identifier, and for the largest
    [int64_t] the conversion back is undefined. This holds for every payload
    that carries such an identifier. *)
Theorem request_id_lossy payload (s : TripOrchestrator W * W) r
  (Hd : decode KTripInit payload = Some (CmdTripInit r)) :
  (ti_request_id r = 2 ^ 53 + 1 →
   active_request_id (exec (handle_trip_init payload) s).1 = Some (2 ^ 53))%Z ∧
  (ti_request_id r = int64_max →
   active_request_id (exec (handle_trip_init payload) s).1 = None).
Proof.
  change (handle_trip_init payload) with (handle (W:=W) KTripInit payload).
  rewrite (active_request_id_init _ _ _ _ Hd).
  split; intros ->; vm_compute; reflexivity.
Qed.

End theorems.


(** ** Witnesses *)

(** The payload of a TripInit with a given identifier. *)
Definition sample_init (id : Z) : TripInitRequest :=
  {| ti_vin_number := "VIN123"; ti_request_id := id;
     ti_start_long := double_of_int 35; ti_start_lat := double_of_int 139;
     ti_end_long := double_of_int 36; ti_end_lat := double_of_int 140 |}.

Definition sample_payload (id : Z) : string :=
  flat_text [("vinNumber", FString "VIN123"); ("requestId", FInt id);
             ("startLong", FDouble (double_of_int 35));
             ("startLat", FDouble (double_of_int 139));
             ("endLong", FDouble (double_of_int 36));
             ("endLat", FDouble (double_of_int 140))].

Definition sample_state : TripOrchestrator nat * nat := (new_orchestrator "VIN123", 0).

Lemma request_id_exact_witness :
  active_request_id (exec (handle_trip_init (sample_payload 7)) sample_state).1 = Some 7%Z.
Proof.
  apply (request_id_exact (sample_payload 7) sample_state (sample_init 7)).
  - vm_compute. reflexivity.
  - vm_compute. split; discriminate.
Defined.

Lemma request_id_lossy_witness :
  active_request_id (exec (handle_trip_init (sample_payload (2 ^ 53 + 1))) sample_state).1
  = Some (2 ^ 53)%Z.
Proof.
  refine (proj1 (request_id_lossy (sample_payload (2 ^ 53 + 1)) sample_state
                   (sample_init (2 ^ 53 + 1)) _) eq_refl).
  vm_compute. reflexivity.
Defined.

End TripOrchestrator.
