(* ===== verification/Stream.v ===== *)
(** * VehicleStreamHandler *)

(** The bidirectional command stream to the vehicle
    ([src/services/vehicle_stream_handler.h], [.cc], [stream_tag.h]).
    Handlers live on a heap and are shared by address between the completion
    queue's thread and the MQTT thread; touching a deleted one is undefined.
    The asynchronous operations handed to gRPC are recorded in [ops] until the
    completion queue reports them, and the messages handed to [stream_.Write]
    in [written].

    This file gives the operations and their effect when they run one at a
    time; [StreamSeq] and [StreamConc] study their executions. *)

From S2P Require Import Prelude Double Json Messages.

(** What the services need from their [PublishFn]: publishing on state [P]
    either reports its result to the callback at once, or keeps the callback
    for later ([None]). *)
Class Publisher (P : Type) : Type :=
  publish : string → string → P → option (bool * string) * P.

(** A publisher that accepts everything and remembers it. *)
#[export] Instance recorder : Publisher (list (string * string)) :=
  λ topic payload p, (Some (true, "ok"), p ++ [(topic, payload)]).

Module VehicleStreamHandler.

Definition addr := nat.

Inductive hstate : Type := CREATE | ACCEPTING | READING | FINISH.

#[export] Instance hstate_eq_dec : EqDecision hstate.
Proof. solve_decision. Defined.

Record handler : Type := {
  incoming_ : VehicleEvent;
  state_ : hstate;
  write_queue_ : list GatewayCommand;
  writing_ : bool
}.

(** An operation started on a handler's stream and not completed yet. *)
Inductive op : Type :=
| OpRequest (h : addr)
| OpRead (h : addr)
| OpFinish (h : addr)
| OpWrite (h : addr).

#[export] Instance op_eq_dec : EqDecision op.
Proof. solve_decision. Defined.

Section stream.
Context `{JsonLib} {P : Type} `{Publisher P}.

(** The static members of the class, the heap, and what was handed to gRPC and
    to the publisher. *)
Record world : Type := {
  heap : gmap addr handler;
  next : addr;
  active_ : option addr;
  pending_commands_ : list GatewayCommand;
  ops : list op;
  written : list (addr * GatewayCommand);
  publisher : P
}.

(** ** Memory *)

Definition set_heap (f : gmap addr handler → gmap addr handler) (w : world) : world :=
  {| heap := f (heap w); next := next w; active_ := active_ w;
     pending_commands_ := pending_commands_ w; ops := ops w; written := written w;
     publisher := publisher w |}.

Definition set_active (a : option addr) (w : world) : world :=
  {| heap := heap w; next := next w; active_ := a;
     pending_commands_ := pending_commands_ w; ops := ops w; written := written w;
     publisher := publisher w |}.

Definition set_pending (l : list GatewayCommand) (w : world) : world :=
  {| heap := heap w; next := next w; active_ := active_ w;
     pending_commands_ := l; ops := ops w; written := written w;
     publisher := publisher w |}.

Definition set_ops (l : list op) (w : world) : world :=
  {| heap := heap w; next := next w; active_ := active_ w;
     pending_commands_ := pending_commands_ w; ops := l; written := written w;
     publisher := publisher w |}.

Definition log_write (h : addr) (c : GatewayCommand) (w : world) : world :=
  {| heap := heap w; next := next w; active_ := active_ w;
     pending_commands_ := pending_commands_ w; ops := ops w;
     written := written w ++ [(h, c)]; publisher := publisher w |}.

Definition set_publisher (p : P) (w : world) : world :=
  {| heap := heap w; next := next w; active_ := active_ w;
     pending_commands_ := pending_commands_ w; ops := ops w; written := written w;
     publisher := p |}.

Definition alloc (x : handler) (w : world) : world :=
  {| heap := <[next w := x]> (heap w); next := S (next w); active_ := active_ w;
     pending_commands_ := pending_commands_ w; ops := ops w; written := written w;
     publisher := publisher w |}.

Definition set_state (s : hstate) (x : handler) : handler :=
  {| incoming_ := incoming_ x; state_ := s; write_queue_ := write_queue_ x;
     writing_ := writing_ x |}.
Definition set_queue (q : list GatewayCommand) (x : handler) : handler :=
  {| incoming_ := incoming_ x; state_ := state_ x; write_queue_ := q;
     writing_ := writing_ x |}.
Definition set_writing (b : bool) (x : handler) : handler :=
  {| incoming_ := incoming_ x; state_ := state_ x; write_queue_ := write_queue_ x;
     writing_ := b |}.
Definition set_incoming (ev : VehicleEvent) (x : handler) : handler :=
  {| incoming_ := ev; state_ := state_ x; write_queue_ := write_queue_ x;
     writing_ := writing_ x |}.

(** Access to [*this]: undefined once the object is deleted. *)
Definition this (h : addr) : M world handler :=
  w ← get;
  match heap w !! h with
  | Some x => mret x
  | None => undefined
  end.

Definition update (h : addr) (f : handler → handler) : M world unit :=
  x ← this h; modify (set_heap (insert h (f x))).

Definition delete_this (h : addr) : M world unit :=
  this h ;; modify (set_heap (delete h)).

Definition start_op (o : op) : M world unit :=
  modify (λ w, set_ops (ops w ++ [o]) w).

(** [VehicleStreamHandler* exp = this; active_.compare_exchange_strong(exp, nullptr)]. *)
Definition release_active (h : addr) : M world unit :=
  modify (λ w, if decide (active_ w = Some h) then set_active None w else w).

(** ** Writing commands *)

Definition flush_write_queue_locked (h : addr) : M world unit :=
  x ← this h;
  match write_queue_ x with
  | [] => mret tt
  | front :: rest =>
      if writing_ x then mret tt
      else
        update h (set_writing true) ;;
        start_op (OpWrite h) ;;
        modify (log_write h front) ;;
        update h (set_queue rest)
  end.

Definition enqueue (h : addr) (cmd : GatewayCommand) : M world unit :=
  update h (λ x, set_queue (write_queue_ x ++ [cmd]) x) ;;
  x ← this h;
  if writing_ x then mret tt else flush_write_queue_locked h.

Definition on_write_done (h : addr) (ok : bool) : M world unit :=
  if ok
  then update h (set_writing false) ;; flush_write_queue_locked h
  else update h (set_writing false).

Definition push_command (cmd : GatewayCommand) : M world unit :=
  w ← get;
  match active_ w with
  | None => modify (λ w, set_pending (pending_commands_ w ++ [cmd]) w)
  | Some h => enqueue h cmd
  end.

(** The loop of [flush_pending]; each turn pops one command, so the length of
    the queue is enough fuel. *)
Fixpoint flush_loop (fuel : nat) (h : addr) : M world unit :=
  match fuel with
  | O => mret tt
  | S fuel' =>
      w ← get;
      match pending_commands_ w with
      | [] => mret tt
      | front :: _ =>
          enqueue h front ;;
          modify (λ w, set_pending (tail (pending_commands_ w)) w) ;;
          flush_loop fuel' h
      end
  end.

Definition flush_pending (h : addr) : M world unit :=
  w ← get; flush_loop (length (pending_commands_ w)) h.

(** ** Incoming events *)

Definition publish_fields (topic : string) (fs : fields) : M world unit :=
  payload ← json_try (json_dump (object fs));
  modify (λ w, set_publisher (snd (publish topic payload (publisher w))) w).

Definition eta_fields (r : EtaRequest) : fields :=
  [("vinNumber", FString (eta_vin_number r));
   ("requestId", FInt (eta_request_id r));
   ("estimatedFare", FDouble (eta_fare r));
   ("estimatedTime", FDouble (eta_time r));
   ("status", FString (eta_status r))].

Definition status_fields (r : StatusRequest) : fields :=
  [("vinNumber", FString (st_vin_number r));
   ("tripId", FInt (st_trip_id r));
   ("tripStatus", FString (st_status r))].

Definition arrive_fields (r : ArriveRequest) : fields :=
  [("vinNumber", FString (ar_vin_number r));
   ("tripId", FInt (ar_trip_id r));
   ("longitude", FDouble (ar_long r));
   ("latitude", FDouble (ar_lat r))].

Definition location_fields (r : UpdateVehicleLocationRequest) : fields :=
  [("vinNumber", FString (ul_vinNumber r));
   ("latitude", FDouble (ul_latitude r));
   ("longitude", FDouble (ul_longitude r))].

(** The acknowledgements are only logged; TripMoveAck is not tested for, nor is
    an event with no member set. *)
Definition handle_incoming (ev : VehicleEvent) : M world unit :=
  match ev with
  | EvTripInitAck _ | EvTripParkAck _ | EvOrderUpdateLocationAck _
  | EvOrderUpdateStatusAck _ | EvTripCancelAck _ => mret tt
  | EvEta r => publish_fields kTopicTripEta (eta_fields r)
  | EvStatus r => publish_fields kTopicTripStatus (status_fields r)
  | EvArrive r => publish_fields kTopicTripArrive (arrive_fields r)
  | EvLocation r => publish_fields kTopicUpdateLocation (location_fields r)
  | EvTripMoveAck _ | EvNotSet => mret tt
  end.

(** ** The life of a handler *)

(** [Proceed] in state [CREATE], as the constructor runs it. *)
Definition proceed_create (h : addr) : M world unit :=
  update h (set_state ACCEPTING) ;; start_op (OpRequest h).

Definition new_handler : handler :=
  {| incoming_ := EvNotSet; state_ := CREATE; write_queue_ := []; writing_ := false |}.

(** [new VehicleStreamHandler(svc, cq, publish)]: the constructor ends with
    [Proceed(true)], in state [CREATE]. *)
Definition new_VehicleStreamHandler : M world unit :=
  h ← gets next;
  modify (alloc new_handler) ;;
  proceed_create h.

Definition Proceed (h : addr) (ok : bool) : M world unit :=
  x ← this h;
  match state_ x with
  | CREATE => proceed_create h
  | ACCEPTING =>
      if ok
      then
        new_VehicleStreamHandler ;;
        modify (set_active (Some h)) ;;
        flush_pending h ;;
        update h (set_state READING) ;;
        start_op (OpRead h)
      else delete_this h
  | READING =>
      if ok
      then
        handle_incoming (incoming_ x) ;;
        start_op (OpRead h)
      else
        release_active h ;;
        update h (set_state FINISH) ;;
        start_op (OpFinish h)
  | FINISH => release_active h ;; delete_this h
  end.

(** The initial static state and the handler [GrpcServer::start] creates. *)
Definition empty_world (p : P) : world :=
  {| heap := ∅; next := 0; active_ := None; pending_commands_ := []; ops := [];
     written := []; publisher := p |}.

Definition init_world (p : P) : world := exec new_VehicleStreamHandler (empty_world p).

(** ** Completions *)

(** The completion queue reports [o] with status [ok]: its tag is the handler,
    or the handler's [writer_] for a write, and the tag's [Proceed] runs. A
    successful read has filled [incoming_]. *)
Definition complete (o : op) (ok : bool) (ev : VehicleEvent) : M world unit :=
  modify (λ w, set_ops (remove_one o (ops w)) w) ;;
  match o with
  | OpRequest h | OpFinish h => Proceed h ok
  | OpRead h => (if ok then update h (set_incoming ev) else mret tt) ;; Proceed h ok
  | OpWrite h => on_write_done h ok
  end.

(** The handler an operation belongs to. *)
Definition op_addr (o : op) : addr :=
  match o with OpRequest h | OpRead h | OpFinish h | OpWrite h => h end.

(** The messages handed to one handler's stream. *)
Definition written_to (h : addr) (w : world) : list GatewayCommand :=
  snd <$> filter (λ hc, hc.1 = h) (written w).

End stream.

Arguments world : clear implicits.

(** ** The effect of the operations *)

Section effects.
Context `{JsonLib} {P : Type} `{Publisher P}.
Implicit Types (w : world P) (x : handler) (h : addr) (c : GatewayCommand).

(** What handing over queued commands changes: [cs] was appended to the queue of
    [h], the prefix [ms] of the queue went to the stream, and a write is
    outstanding exactly when [writing_] is set. *)
Record delivered (h : addr) (x x' : handler) (cs ms : list GatewayCommand)
    (w w' : world P) : Prop := {
  d_heap : heap w' = <[h := x']> (heap w);
  d_next : next w' = next w;
  d_active : active_ w' = active_ w;
  d_publisher : publisher w' = publisher w;
  d_state : state_ x' = state_ x;
  d_incoming : incoming_ x' = incoming_ x;
  d_ops : ops w' = ops w ++ replicate (length ms) (OpWrite h);
  d_written : written w' = written w ++ ((h,.) <$> ms);
  d_fifo : ms ++ write_queue_ x' = write_queue_ x ++ cs;
  d_writing : length ms + Nat.b2n (writing_ x) = Nat.b2n (writing_ x')
}.

Lemma delivered_trans h x x' x'' cs cs' ms ms' w w' w'' :
  delivered h x x' cs ms w w' → delivered h x' x'' cs' ms' w' w'' →
  delivered h x x'' (cs ++ cs') (ms ++ ms') w w''.
Proof.
  intros [] []. split; try congruence.
  - rewrite d_heap1, d_heap0. apply insert_insert_eq.
  - rewrite d_ops1, d_ops0, length_app, replicate_add, (assoc_L (++)). done.
  - rewrite d_written1, d_written0, fmap_app, (assoc_L (++)). done.
  - rewrite <- (assoc_L (++)), d_fifo1, (assoc_L (++)), d_fifo0, <- (assoc_L (++)). done.
  - rewrite length_app. lia.
Qed.

Lemma this_run h w x : heap w !! h = Some x → this h w = (Ret x, w).
Proof. intros Hx. unfold this. rewrite bind_unfold. simpl. by rewrite Hx. Qed.

Lemma this_dangling h w : heap w !! h = None → this h w = (UB, w).
Proof. intros Hx. unfold this. rewrite bind_unfold. simpl. by rewrite Hx. Qed.

Lemma update_run h f w x :
  heap w !! h = Some x →
  update h f w = (Ret tt, set_heap (insert h (f x)) w).
Proof. intros Hx. unfold update. by rewrite (bind_run _ _ _ _ _ (this_run h w x Hx)). Qed.

Lemma delete_this_run h w x :
  heap w !! h = Some x → delete_this h w = (Ret tt, set_heap (delete h) w).
Proof.
  intros Hx. unfold delete_this. by rewrite (bind_run _ _ _ _ _ (this_run h w x Hx)).
Qed.

(** [flush_write_queue_locked] hands over one command if it may. *)
Lemma flush_locked_run h w x :
  heap w !! h = Some x →
  ∃ x' ms w', flush_write_queue_locked h w = (Ret tt, w') ∧
    delivered h x x' [] ms w w' ∧ pending_commands_ w' = pending_commands_ w ∧
    (writing_ x' = false → write_queue_ x' = []).
Proof.
  intros Hx. unfold flush_write_queue_locked.
  rewrite (bind_run _ _ _ _ _ (this_run h w x Hx)).
  destruct (write_queue_ x) as [|front rest] eqn:Hq; [|destruct (writing_ x) eqn:Hw].
  - exists x, [], w. split_and!; [done| |done|done].
    split; simpl; rewrite ?app_nil_r, ?insert_id by done; done.
  - exists x, [], w. split_and!; [done| |done|congruence].
    split; simpl; rewrite ?app_nil_r, ?insert_id by done; congruence.
  - exists (set_queue rest (set_writing true x)), [front].
    eexists. split_and!.
    + rewrite (bind_run _ _ _ _ _ (update_run h _ w x Hx)).
      erewrite bind_run by reflexivity. erewrite bind_run by reflexivity.
      apply update_run. apply lookup_insert_eq.
    + split; simpl; rewrite ?insert_insert_eq, ?Hw, ?app_nil_r; done.
    + done.
    + done.
Qed.

Lemma enqueue_run h c w x :
  heap w !! h = Some x →
  ∃ x' ms w', enqueue h c w = (Ret tt, w') ∧ delivered h x x' [c] ms w w' ∧
    pending_commands_ w' = pending_commands_ w ∧ writing_ x' = true.
Proof.
  intros Hx. unfold enqueue. rewrite (bind_run _ _ _ _ _ (update_run h _ w x Hx)).
  set (x1 := set_queue (write_queue_ x ++ [c]) x).
  set (w1 := set_heap (insert h x1) w).
  assert (Hx1 : heap w1 !! h = Some x1) by apply lookup_insert_eq.
  rewrite (bind_run _ _ _ _ _ (this_run h w1 x1 Hx1)).
  assert (Hd : delivered h x x1 [c] [] w w1).
  { split; simpl; rewrite ?app_nil_r; done. }
  destruct (writing_ x1) eqn:Hw.
  - exists x1, [], w1. done.
  - destruct (flush_locked_run h w1 x1 Hx1) as (x2 & ms & w2 & Hrun & Hd2 & Hp & Hidle).
    exists x2, ms, w2. split_and!; [done| |by rewrite Hp|].
    + by apply (delivered_trans _ _ _ _ _ _ _ _ _ _ _ Hd Hd2).
    + destruct (writing_ x2) eqn:Hw2; [done|exfalso].
      pose proof (d_fifo _ _ _ _ _ _ _ Hd2) as Hf.
      pose proof (d_writing _ _ _ _ _ _ _ Hd2) as Hn.
      rewrite Hidle, Hw, Hw2 in * by done. simpl in *.
      destruct ms; simpl in *; [|lia]. destruct (write_queue_ x); discriminate.
Qed.

(** With the recorded fuel the loop of [flush_pending] empties the queue. *)
Lemma flush_loop_run h n w x :
  heap w !! h = Some x → n = length (pending_commands_ w) →
  ∃ x' ms w', flush_loop n h w = (Ret tt, w') ∧
    delivered h x x' (pending_commands_ w) ms w w' ∧ pending_commands_ w' = [].
Proof.
  revert w x. induction n as [|n IH]; intros w x Hx Hn.
  - exists x, [], w. simpl. destruct (pending_commands_ w) eqn:Hp; [|done].
    split_and!; [done| |done].
    split; simpl; rewrite ?app_nil_r, ?insert_id by done; done.
  - destruct (pending_commands_ w) as [|c cs] eqn:Hp; [done|].
    destruct (enqueue_run h c w x Hx) as (x1 & ms1 & w1 & Hrun & Hd1 & Hp1 & _).
    set (w2 := set_pending (tail (pending_commands_ w1)) w1).
    assert (Hd2 : delivered h x x1 [c] ms1 w w2) by (by destruct Hd1; split).
    assert (Hx2 : heap w2 !! h = Some x1).
    { rewrite (d_heap _ _ _ _ _ _ _ Hd2). apply lookup_insert_eq. }
    assert (Hp2 : pending_commands_ w2 = cs) by (simpl; by rewrite Hp1, Hp).
    destruct (IH w2 x1 Hx2) as (x3 & ms3 & w3 & Hrun3 & Hd3 & Hp3).
    { rewrite Hp2. simpl in Hn. lia. }
    exists x3, (ms1 ++ ms3), w3. split_and!; [| |done].
    + simpl. rewrite bind_unfold. simpl. rewrite Hp.
      rewrite (bind_run _ _ _ _ _ Hrun). by erewrite bind_run by reflexivity.
    + rewrite Hp2 in Hd3. apply (delivered_trans _ _ _ _ _ _ _ _ _ _ _ Hd2 Hd3).
Qed.

Lemma flush_pending_run h w x :
  heap w !! h = Some x →
  ∃ x' ms w', flush_pending h w = (Ret tt, w') ∧
    delivered h x x' (pending_commands_ w) ms w w' ∧ pending_commands_ w' = [].
Proof.
  intros Hx. unfold flush_pending. rewrite bind_unfold. simpl.
  by apply flush_loop_run.
Qed.

Lemma on_write_done_run h ok w x :
  heap w !! h = Some x →
  ∃ x' ms w', on_write_done h ok w = (Ret tt, w') ∧
    delivered h (set_writing false x) x' [] ms w w' ∧
    pending_commands_ w' = pending_commands_ w ∧
    (ok = true → writing_ x' = false → write_queue_ x' = []).
Proof.
  intros Hx. set (x1 := set_writing false x).
  set (w1 := set_heap (insert h x1) w).
  assert (Hx1 : heap w1 !! h = Some x1) by apply lookup_insert_eq.
  assert (Hd : delivered h x1 x1 [] [] w w1).
  { split; simpl; rewrite ?app_nil_r; done. }
  unfold on_write_done. destruct ok.
  - rewrite (bind_run _ _ _ _ _ (update_run h _ w x Hx)). fold x1. fold w1.
    destruct (flush_locked_run h w1 x1 Hx1) as (x2 & ms & w2 & Hrun & Hd2 & Hp & Hidle).
    exists x2, ms, w2. split_and!; [done| |done|done].
    apply (delivered_trans _ _ _ _ _ _ _ _ _ _ _ Hd Hd2).
  - exists x1, [], w1. split_and!; [by apply update_run|done|done|done].
Qed.

End effects.

End VehicleStreamHandler.
