(* ===== verification/StreamSeq.v ===== *)
(** * Executions of the command stream, one operation at a time *)

(** The executions in which every call of [push_command] and every completion
    runs to its end before the next one starts: the step relation, the effect
    of each step, the invariant of all reachable states, and the delivery
    theorems that hold without races. [StreamConc] interleaves the two
    threads. *)

From S2P Require Import Prelude Double Json JsonModel Messages Stream.
Import VehicleStreamHandler.

Module StreamSeq.

Inductive event : Type :=
| Push (c : GatewayCommand)
| Complete (o : op) (ok : bool) (ev : VehicleEvent).

Definition is_write (o : op) : bool :=
  match o with OpWrite _ => true | _ => false end.

(** How often each operation of a handler in a given state is outstanding. *)
Definition expect (o : op) (x : handler) : nat :=
  match o with
  | OpRequest _ => Nat.b2n (bool_decide (state_ x = ACCEPTING))
  | OpRead _ => Nat.b2n (bool_decide (state_ x = READING))
  | OpFinish _ => Nat.b2n (bool_decide (state_ x = FINISH))
  | OpWrite _ => Nat.b2n (writing_ x)
  end.

Section seq.
Context `{JL : JsonLib} {P : Type} `{PB : Publisher P}.

Definition run_event (e : event) : M (world P) unit :=
  match e with
  | Push c => push_command c
  | Complete o ok ev => complete o ok ev
  end.

(** gRPC reports only operations that were started. *)
Definition possible (w : world P) (e : event) : Prop :=
  match e with
  | Push _ => True
  | Complete o _ _ => o ∈ ops w
  end.

Inductive step (w : world P) (e : event) (w' : world P) : Prop :=
| step_run : possible w e → run_event e w = (Ret tt, w') → step w e w'.

(** Executions, with their events in order. *)
Inductive steps (w : world P) : list event → world P → Prop :=
| steps_nil : steps w [] w
| steps_snoc es w' e w'' : steps w es w' → step w' e w'' → steps w (es ++ [e]) w''.

Definition reachable (p : P) (w : world P) : Prop := ∃ es, steps (init_world p) es w.

(** The commands pushed by an execution, in order. *)
Definition pushed (es : list event) : list GatewayCommand :=
  omap (λ e, match e with Push c => Some c | _ => None end) es.

(** ** The effect of each event *)

Definition completed (o : op) (w : world P) : world P :=
  set_ops (remove_one o (ops w)) w.

Definition accepting_handler : handler := set_state ACCEPTING new_handler.

(** A sibling waits for the next connection and [h] is the active handler. *)
Definition spawned (h : addr) (w : world P) : world P :=
  set_active (Some h) (set_ops (ops w ++ [OpRequest (next w)]) (alloc accepting_handler w)).

Definition moved (h : addr) (s : hstate) (o : op) (x : handler) (w : world P) : world P :=
  set_ops (ops w ++ [o]) (set_heap (insert h (set_state s x)) w).

Definition released (h : addr) (w : world P) : world P :=
  if decide (active_ w = Some h) then set_active None w else w.

Inductive effect (w : world P) : event → world P → Prop :=
| E_queued c :
    active_ w = None →
    effect w (Push c) (set_pending (pending_commands_ w ++ [c]) w)
| E_pushed h x x' c ms w' :
    active_ w = Some h → heap w !! h = Some x →
    delivered h x x' [c] ms w w' → pending_commands_ w' = pending_commands_ w →
    effect w (Push c) w'
| E_refused h x ev :
    heap w !! h = Some x → state_ x = ACCEPTING →
    effect w (Complete (OpRequest h) false ev) (set_heap (delete h) (completed (OpRequest h) w))
| E_connected h x x' ms w' ev :
    heap w !! h = Some x → state_ x = ACCEPTING →
    delivered h x x' (pending_commands_ w) ms (spawned h (completed (OpRequest h) w)) w' →
    pending_commands_ w' = [] →
    effect w (Complete (OpRequest h) true ev) (moved h READING (OpRead h) x' w')
| E_event h x p ev :
    heap w !! h = Some x → state_ x = READING →
    effect w (Complete (OpRead h) true ev)
      (moved h READING (OpRead h) (set_incoming ev x)
         (set_publisher p (completed (OpRead h) w)))
| E_disconnected h x ev :
    heap w !! h = Some x → state_ x = READING →
    effect w (Complete (OpRead h) false ev)
      (moved h FINISH (OpFinish h) x (released h (completed (OpRead h) w)))
| E_finished h x ok ev :
    heap w !! h = Some x → state_ x = FINISH →
    effect w (Complete (OpFinish h) ok ev)
      (set_heap (delete h) (released h (completed (OpFinish h) w)))
| E_written h x x' ok ms w' ev :
    heap w !! h = Some x →
    delivered h (set_writing false x) x' [] ms (completed (OpWrite h) w) w' →
    pending_commands_ w' = pending_commands_ w →
    (ok = true → writing_ x' = false → write_queue_ x' = []) →
    effect w (Complete (OpWrite h) ok ev) w'.

(** ** The invariant of the sequential executions *)

(** How often [o] should be outstanding. *)
Definition want (w : world P) (o : op) : nat :=
  match heap w !! op_addr o with Some x => expect o x | None => 0 end.

(** [o] belongs to a live handler, or is not a write. *)
Definition accounted (w : world P) (o : op) : Prop :=
  is_write o = true → is_Some (heap w !! op_addr o).

Record invariant (w : world P) : Prop := {
  (** Each live handler has exactly one of its own operations outstanding, the
      one of its state, and one write when [writing_] is set; a deleted handler
      has nothing outstanding but possibly a write. *)
  inv_ops o : accounted w o → occ o (ops w) = want w o;
  inv_bound o : o ∈ ops w → op_addr o < next w;
  inv_live h x : heap w !! h = Some x → h < next w ∧ state_ x ≠ CREATE;
  (** The active handler is connected, and nothing is pending then. *)
  inv_active h : active_ w = Some h → ∃ x, heap w !! h = Some x ∧ state_ x = READING;
  inv_pending : active_ w ≠ None → pending_commands_ w = [];
  (** A waiting handler has nothing to write. *)
  inv_waiting h x : heap w !! h = Some x → state_ x = ACCEPTING →
    write_queue_ x = [] ∧ writing_ x = false ∧ h ∉ (written w).*1;
  inv_written h : h ∈ (written w).*1 → h < next w
}.

(** What must hold for [e] to run without undefined behaviour: a reported write
    belongs to a live handler. *)
Definition enabled (w : world P) (e : event) : Prop :=
  match e with
  | Push _ => True
  | Complete o _ _ => o ∈ ops w ∧ accounted w o
  end.

(** The event publishes a payload that cannot be dumped. *)
Definition publish_throws (e : event) (ex : exn) : Prop :=
  ∃ h ev w, e = Complete (OpRead h) true ev ∧ fst (handle_incoming (P:=P) ev w) = Exn ex.

Definition runs_ok (w : world P) (e : event) : Prop :=
  ∃ r w', run_event e w = (r, w') ∧ r ≠ UB ∧ (r = Ret tt → effect w e w') ∧
    (∀ ex, r = Exn ex → publish_throws e ex).

End seq.

(** ** Running the events *)

Section running.
Context `{JL : JsonLib} {P : Type} `{PB : Publisher P}.
Implicit Types (w : world P) (x : handler) (h : addr) (o : op).

(** Handling an event changes the publisher only; it may throw when a payload
    cannot be dumped. *)
Lemma handle_incoming_run ev w :
  ∃ r p, handle_incoming ev w = (r, set_publisher p w) ∧ r ≠ UB.
Proof.
  assert (Hsame : set_publisher (publisher w) w = w) by by destruct w.
  assert (Hpub : ∀ t fs, ∃ r p, publish_fields t fs w = (r, set_publisher p w) ∧ r ≠ UB).
  { intros t fs. unfold publish_fields. rewrite bind_json_try.
    destruct (json_dump (object fs)).
    - by exists (Ret tt); eexists.
    - exists (Exn JsonException), (publisher w). by rewrite Hsame. }
  destruct ev; simpl; try apply Hpub; exists (Ret tt), (publisher w); by rewrite Hsame.
Qed.

Lemma new_handler_run w :
  new_VehicleStreamHandler w =
  (Ret tt, set_ops (ops w ++ [OpRequest (next w)]) (alloc accepting_handler w)).
Proof.
  unfold new_VehicleStreamHandler. rewrite bind_unfold. simpl.
  rewrite bind_unfold. simpl. unfold proceed_create.
  erewrite bind_run; [|apply update_run, lookup_insert_eq].
  unfold start_op, modify. simpl. unfold set_ops, set_heap, alloc. simpl.
  by rewrite insert_insert_eq.
Qed.

Lemma release_active_run h w : release_active h w = (Ret tt, released h w).
Proof. done. Qed.

Lemma moved_run h s o w x :
  heap w !! h = Some x →
  (update h (set_state s) ;; start_op o) w = (Ret tt, moved h s o x w).
Proof. intros Hx. by rewrite (bind_run _ _ _ _ _ (update_run h _ w x Hx)). Qed.

(** The handler is alive, in the state in which the operation was started. *)
Definition outstanding w o : Prop := ∃ x, heap w !! op_addr o = Some x ∧ expect o x = 1.

(** So a reported operation of the handler itself finds it. *)
Lemma outstanding_state w o :
  invariant w → o ∈ ops w → is_write o = false → outstanding w o.
Proof.
  intros Hi Ho Hw. unfold outstanding. pose proof (occ_pos _ _ Ho) as Hpos.
  rewrite (inv_ops _ Hi) in Hpos by (intros ?; congruence). unfold want in Hpos.
  destruct (heap w !! op_addr o) as [x|]; [|lia]. exists x. split; [done|].
  destruct o; simpl in *; try done; case_bool_decide; simpl in *; lia.
Qed.

Lemma complete_run o ok ev w r w' :
  match o with
  | OpRequest h | OpFinish h => Proceed h ok
  | OpRead h => (if ok then update h (set_incoming ev) else mret tt) ;; Proceed h ok
  | OpWrite h => on_write_done h ok
  end (completed o w) = (r, w') →
  complete o ok ev w = (r, w').
Proof. unfold complete. rewrite bind_unfold. simpl. by destruct o. Qed.

Lemma completed_heap o w : heap (completed o w) = heap w.
Proof. done. Qed.

Lemma run_request w h ok ev :
  outstanding w (OpRequest h) → (ok = true → next w ≠ h) →
  ∃ w', complete (OpRequest h) ok ev w = (Ret tt, w') ∧
        effect w (Complete (OpRequest h) ok ev) w'.
Proof.
  intros (x & Hx & He) Hnext. simpl in *. case_bool_decide as Hs; [|done].
  set (w0 := completed (OpRequest h) w). assert (Hx0 : heap w0 !! h = Some x) by done.
  assert (Hrun : Proceed h ok w0 =
    (if ok then
       new_VehicleStreamHandler ;; modify (set_active (Some h)) ;; flush_pending h ;;
       update h (set_state READING) ;; start_op (OpRead h)
     else delete_this h) w0).
  { unfold Proceed. rewrite (bind_run _ _ _ _ _ (this_run h w0 x Hx0)). by rewrite Hs. }
  destruct ok.
  - pose proof (Hnext eq_refl) as Hne.
    assert (Hx1 : heap (spawned h w0) !! h = Some x).
    { simpl. by rewrite lookup_insert_ne. }
    destruct (flush_pending_run h _ x Hx1) as (x' & ms & w' & Hf & Hd & Hp).
    exists (moved h READING (OpRead h) x' w'). split.
    + apply complete_run; cbv beta iota; fold w0; rewrite Hrun.
      rewrite (bind_run _ _ _ _ _ (new_handler_run w0)).
      erewrite bind_run by reflexivity. rewrite (bind_run _ _ _ _ _ Hf).
      apply moved_run. rewrite (d_heap _ _ _ _ _ _ _ Hd). apply lookup_insert_eq.
    + by eapply E_connected.
  - eexists. split; [|by eapply E_refused]. apply complete_run; cbv beta iota; fold w0; rewrite Hrun.
    by apply (delete_this_run h w0 x).
Qed.

Lemma run_read_end w h ev :
  outstanding w (OpRead h) →
  ∃ w', complete (OpRead h) false ev w = (Ret tt, w') ∧
        effect w (Complete (OpRead h) false ev) w'.
Proof.
  intros (x & Hx & He). simpl in *. case_bool_decide as Hs; [|done].
  eexists. split; [|by eapply E_disconnected].
  apply complete_run; cbv beta iota. rewrite bind_ret. unfold Proceed.
  rewrite (bind_run _ _ _ _ _ (this_run h (completed (OpRead h) w) x Hx)), Hs.
  rewrite (bind_run _ _ _ _ _ (release_active_run h _)). apply moved_run.
  unfold released. by destruct (decide _).
Qed.

(** A successful read stores the event and handles it. *)
Definition read_world h (ev : VehicleEvent) x w : world P :=
  set_heap (insert h (set_incoming ev x)) (completed (OpRead h) w).

Lemma read_run w h ev x :
  heap w !! h = Some x → state_ x = READING →
  (update h (set_incoming ev) ;; Proceed h true) (completed (OpRead h) w) =
    (handle_incoming ev ;; start_op (OpRead h)) (read_world h ev x w).
Proof.
  intros Hx Hs. rewrite (bind_run _ _ _ _ _ (update_run h _ (completed (OpRead h) w) x Hx)).
  fold (read_world h ev x w). unfold Proceed.
  rewrite (bind_run _ _ _ _ _ (this_run h (read_world h ev x w) (set_incoming ev x)
    (lookup_insert_eq _ _ _))). simpl. by rewrite Hs.
Qed.

Lemma run_read w h ev :
  outstanding w (OpRead h) →
  ∃ r w', complete (OpRead h) true ev w = (r, w') ∧ r ≠ UB ∧
    (r = Ret tt → effect w (Complete (OpRead h) true ev) w') ∧
    (∀ e, r = Exn e → ∃ w0, fst (handle_incoming (P:=P) ev w0) = Exn e).
Proof.
  intros (x & Hx & He). simpl in *. case_bool_decide as Hs; [|done].
  set (w0 := completed (OpRead h) w). set (x1 := set_incoming ev x).
  set (w1 := read_world h ev x w). pose proof (read_run w h ev x Hx Hs) as Hrun.
  fold w0 w1 in Hrun.
  destruct (handle_incoming_run ev w1) as (r & p & Hh & Hr).
  destruct r as [[]|e|]; [| |done].
  - eexists (Ret tt), _. split_and!; [|done| |done].
    + apply complete_run; cbv beta iota; fold w0; rewrite Hrun, (bind_run _ _ _ _ _ Hh). reflexivity.
    + intros _. simpl.
      replace (set_ops _ _) with (moved h READING (OpRead h) x1 (set_publisher p w0)).
      { by eapply E_event. }
      unfold moved, w1. f_equal. unfold set_heap, set_publisher. simpl. f_equal. f_equal.
      by destruct x; simpl in *; subst.
  - eexists (Exn e), _. split_and!; [|done|done|].
    + apply complete_run; cbv beta iota; fold w0; rewrite Hrun, (bind_exn _ _ _ _ _ Hh). reflexivity.
    + intros e' [= <-]. exists w1. by rewrite Hh.
Qed.

Lemma run_finish w h ok ev :
  outstanding w (OpFinish h) →
  ∃ w', complete (OpFinish h) ok ev w = (Ret tt, w') ∧
        effect w (Complete (OpFinish h) ok ev) w'.
Proof.
  intros (x & Hx & He). simpl in *. case_bool_decide as Hs; [|done].
  eexists. split; [|by eapply E_finished].
  apply complete_run; cbv beta iota. unfold Proceed.
  rewrite (bind_run _ _ _ _ _ (this_run h (completed (OpFinish h) w) x Hx)), Hs.
  rewrite (bind_run _ _ _ _ _ (release_active_run h _)).
  eapply delete_this_run. unfold released. by destruct (decide _).
Qed.

Lemma run_write w h ok ev x :
  heap w !! h = Some x →
  ∃ w', complete (OpWrite h) ok ev w = (Ret tt, w') ∧
        effect w (Complete (OpWrite h) ok ev) w'.
Proof.
  intros Hx.
  destruct (on_write_done_run h ok (completed (OpWrite h) w) x Hx)
    as (x' & ms & w' & Hrun & Hd & Hp & Hidle).
  exists w'. split; [by apply complete_run|by eapply E_written].
Qed.

Lemma run_push w c :
  invariant w → ∃ w', push_command c w = (Ret tt, w') ∧ effect w (Push c) w'.
Proof.
  intros Hi. unfold push_command. rewrite bind_unfold. simpl.
  destruct (active_ w) as [h|] eqn:Ha.
  - destruct (inv_active _ Hi _ Ha) as (x & Hx & _).
    destruct (enqueue_run h c w x Hx) as (x' & ms & w' & Hrun & Hd & Hp & _).
    exists w'. split; [done|by eapply E_pushed].
  - eexists. split; [done|by apply E_queued].
Qed.

Lemma runs_ok_ret w e w' :
  run_event e w = (Ret tt, w') → effect w e w' → runs_ok w e.
Proof. intros Hrun Heff. by exists (Ret tt), w'. Qed.

(** From a state of the invariant, an enabled event has its effect; the only
    other outcome is an exception thrown while publishing a vehicle event. *)
Lemma run_event_effect w e : invariant w → enabled w e → runs_ok w e.
Proof.
  intros Hi He. destruct e as [c|o ok ev].
  { destruct (run_push w c Hi) as (? & ? & ?). by eapply runs_ok_ret. }
  destruct He as [Ho Hlive]. pose proof (outstanding_state w o Hi Ho) as Hst.
  destruct o as [h|h|h|h].
  - destruct (run_request w h ok ev (Hst eq_refl)) as (? & ? & ?).
    { intros _ <-. destruct (Hst eq_refl) as (x & Hx & _). destruct (inv_live _ Hi _ _ Hx). simpl in *. lia. }
    by eapply runs_ok_ret.
  - destruct ok.
    + destruct (run_read w h ev (Hst eq_refl)) as (r & w' & Hrun & Hub & Heff & Hex).
      exists r, w'. split_and!; [done..|]. intros ex Hr. destruct (Hex ex Hr) as [w0 Hw0].
      by exists h, ev, w0.
    + destruct (run_read_end w h ev (Hst eq_refl)) as (? & ? & ?). by eapply runs_ok_ret.
  - destruct (run_finish w h ok ev (Hst eq_refl)) as (? & ? & ?). by eapply runs_ok_ret.
  - destruct (Hlive eq_refl) as [x Hx].
    destruct (run_write w h ok ev x Hx) as (? & ? & ?). by eapply runs_ok_ret.
Qed.

(** A step of the system has the effect described above. *)
Lemma step_effect w e w' : invariant w → step w e w' → effect w e w'.
Proof.
  intros Hi [Hpos Hrun].
  assert (He : enabled w e).
  { destruct e as [c|o ok ev]; [done|]. split; [done|]. intros Hw.
    destruct o as [| | |h]; try done. destruct (heap w !! h) eqn:Hx; simpl; rewrite Hx; [done|].
    simpl in Hrun. unfold complete in Hrun. rewrite bind_unfold in Hrun. simpl in Hrun.
    assert (Hub : ∀ b w1, heap w1 !! h = None → fst (on_write_done (P:=P) h b w1) = UB).
    { intros b w1 Hd. unfold on_write_done, update. destruct b;
        repeat rewrite bind_unfold; by rewrite (this_dangling h w1 Hd). }
    specialize (Hub ok _ (Hx : heap (completed (OpWrite h) w) !! h = None)).
    unfold completed in Hub. by rewrite Hrun in Hub. }
  destruct (run_event_effect w e Hi He) as (r & w1 & Hrun1 & _ & Heff & _).
  rewrite Hrun in Hrun1. injection Hrun1 as <- <-. by apply Heff.
Qed.

End running.

(** ** The invariant holds in every reachable state *)

Ltac effect_cases Heff :=
  destruct Heff as [c Ha|h x x' c ms w' Ha Hx Hd Hp|h x ev Hx Hs
    |h x x' ms w' ev Hx Hs Hd Hp|h x p ev Hx Hs|h x ev Hx Hs|h x ok ev Hx Hs
    |h x x' ok ms w' ev Hx Hd Hp Hidle].

Section preservation.
Context `{JL : JsonLib} {P : Type} `{PB : Publisher P}.
Implicit Types (w : world P) (x : handler) (h : addr) (o : op).

(** The states [w] and [w'] agree on the operations of every handler but [h]. *)
Definition same_but (h : addr) (w w' : world P) : Prop :=
  ∀ o, op_addr o ≠ h →
    occ o (ops w') = occ o (ops w) ∧ heap w' !! op_addr o = heap w !! op_addr o.

Lemma same_but_ops h w w' :
  invariant w → same_but h w w' →
  (∀ o, op_addr o = h → accounted w' o → occ o (ops w') = want w' o) →
  ∀ o, accounted w' o → occ o (ops w') = want w' o.
Proof.
  intros Hi Hs Hh o Ha. destruct (decide (op_addr o = h)) as [?|Hne]; [by apply Hh|].
  destruct (Hs o Hne) as [Ho Hw]. unfold accounted, want in *. rewrite Ho, Hw in *.
  by apply inv_ops.
Qed.

Lemma occ_replicate_ne o h n : op_addr o ≠ h → occ o (replicate n (OpWrite h)) = 0.
Proof. intros Hne. rewrite occ_replicate. case_decide; [by subst|done]. Qed.

Lemma delivered_same h x x' cs ms w w' :
  delivered h x x' cs ms w w' → same_but h w w'.
Proof.
  intros Hd o Hne. rewrite (d_ops _ _ _ _ _ _ _ Hd), (d_heap _ _ _ _ _ _ _ Hd).
  rewrite occ_app, occ_replicate_ne, lookup_insert_ne by done. split; [lia|done].
Qed.

(** Delivering keeps the account of a handler balanced. *)
Lemma delivered_occ h x x' cs ms w w' o :
  delivered h x x' cs ms w w' → op_addr o = h →
  occ o (ops w') + expect o x = occ o (ops w) + expect o x'.
Proof.
  intros Hd Ho. rewrite (d_ops _ _ _ _ _ _ _ Hd), occ_app, occ_replicate.
  pose proof (d_writing _ _ _ _ _ _ _ Hd). pose proof (d_state _ _ _ _ _ _ _ Hd) as Hs.
  destruct o; simpl in *; subst; rewrite ?Hs; case_decide; simplify_eq; lia.
Qed.

Lemma inv_occ w h x o :
  invariant w → heap w !! h = Some x → op_addr o = h → occ o (ops w) = expect o x.
Proof.
  intros Hi Hx Ho. rewrite (inv_ops _ Hi).
  - unfold want. by rewrite Ho, Hx.
  - intros _. by rewrite Ho, Hx.
Qed.

Lemma completed_occ w o o' :
  o' ∈ ops w → occ o (ops (completed o' w)) = occ o (ops w) - (if decide (o = o') then 1 else 0).
Proof. apply occ_remove. Qed.

Lemma completed_same w h o : op_addr o = h → o ∈ ops w → same_but h w (completed o w).
Proof.
  intros Ho Hin o' Hne. rewrite completed_occ by done. split; [|done].
  case_decide; [by subst|lia].
Qed.

Lemma same_but_trans h w w' w'' : same_but h w w' → same_but h w' w'' → same_but h w w''.
Proof. intros H1 H2 o Ho. destruct (H1 o Ho), (H2 o Ho). split; congruence. Qed.

Lemma moved_same h s o x w : op_addr o = h → same_but h w (moved h s o x w).
Proof.
  intros Ho o' Hne. simpl. rewrite occ_app, occ_single, lookup_insert_ne by done.
  split; [|done]. case_decide; [by subst|]. simpl. lia.
Qed.

Lemma released_ops h w : ops (released h w) = ops w.
Proof. unfold released. by case_decide. Qed.
Lemma released_heap h w : heap (released h w) = heap w.
Proof. unfold released. by case_decide. Qed.
Lemma released_next h w : next (released h w) = next w.
Proof. unfold released. by case_decide. Qed.
Lemma released_pending h w : pending_commands_ (released h w) = pending_commands_ w.
Proof. unfold released. by case_decide. Qed.
Lemma released_written h w : written (released h w) = written w.
Proof. unfold released. by case_decide. Qed.
Lemma released_active h w a :
  active_ (released h w) = Some a ↔ active_ w = Some a ∧ a ≠ h.
Proof. unfold released. case_decide; simpl; naive_solver. Qed.

(** An operation of [h] that is not a write is outstanding once, in the state
    [s] that started it, and so every other such operation is not. *)
Definition own_op (s : hstate) (h : addr) : op :=
  match s with
  | ACCEPTING => OpRequest h
  | FINISH => OpFinish h
  | _ => OpRead h
  end.

Lemma expect_own s h x o :
  state_ x = s → s ≠ CREATE → op_addr o = h →
  expect o x = (if decide (o = own_op s h) then 1 else 0) +
               (if is_write o then Nat.b2n (writing_ x) else 0).
Proof.
  intros <- Hc Ho. destruct o; simpl in Ho; subst; simpl;
    destruct (state_ x); try done; repeat case_decide; try done; simpl; lia.
Qed.

(** A handler moves from state [s] to [s']: its own operation was reported and
    the next one is started. *)
Lemma moved_ops w w1 h x x1 s s' :
  invariant w → heap w !! h = Some x → state_ x = s → s ≠ CREATE → s' ≠ CREATE →
  own_op s h ∈ ops w → heap w1 = heap w → ops w1 = ops (completed (own_op s h) w) →
  writing_ x1 = writing_ x →
  ∀ o, accounted (moved h s' (own_op s' h) x1 w1) o →
    occ o (ops (moved h s' (own_op s' h) x1 w1)) = want (moved h s' (own_op s' h) x1 w1) o.
Proof.
  intros Hi Hx Hs Hc Hc' Hin Hh1 Ho1 Hw1.
  assert (Hown : ∀ s0, op_addr (own_op s0 h) = h) by by intros [].
  apply (same_but_ops h w); [done| |].
  - intros o Hne. destruct (completed_same w h _ (Hown s) Hin o Hne) as [Hc1 _].
    simpl. rewrite occ_app, occ_single, Ho1, Hh1, lookup_insert_ne, Hc1 by done.
    case_decide; [subst; by rewrite Hown in Hne|]. simpl. split; [lia|done].
  - intros o Ho _. unfold want. simpl. rewrite Ho, lookup_insert_eq.
    rewrite occ_app, occ_single, Ho1, completed_occ by done.
    rewrite (inv_occ _ _ _ o Hi Hx Ho).
    rewrite (expect_own s h x o), (expect_own s' h (set_state s' x1) o) by done.
    simpl. rewrite Hw1. repeat case_decide; simpl; lia.
Qed.

(** The part of the invariant about operations, for each effect. *)
Lemma preserve_connected w h x x' ms w' :
  invariant w → OpRequest h ∈ ops w → heap w !! h = Some x → state_ x = ACCEPTING →
  delivered h x x' (pending_commands_ w) ms (spawned h (completed (OpRequest h) w)) w' →
  ∀ o, accounted (moved h READING (OpRead h) x' w') o →
    occ o (ops (moved h READING (OpRead h) x' w')) = want (moved h READING (OpRead h) x' w') o.
Proof.
  intros Hi Hin Hx Hs Hd o Ha. destruct (inv_live _ Hi _ _ Hx) as [Hlt _].
  unfold want. simpl. rewrite occ_app, occ_single, (d_heap _ _ _ _ _ _ _ Hd).
  rewrite insert_insert_eq. simpl. destruct (decide (op_addr o = h)) as [Ho|Hne].
  - pose proof (delivered_occ _ _ _ _ _ _ _ o Hd Ho) as Hocc.
    assert (Hs' : state_ x' = ACCEPTING) by (rewrite (d_state _ _ _ _ _ _ _ Hd); done).
    rewrite Ho, lookup_insert_eq.
    rewrite (expect_own READING h (set_state READING x') o) by done.
    rewrite (expect_own ACCEPTING h x o), (expect_own ACCEPTING h x' o) in Hocc by done.
    simpl in Hocc. rewrite occ_app, occ_single, occ_remove, (inv_occ _ _ _ o Hi Hx Ho) in Hocc
      by done.
    rewrite (expect_own ACCEPTING h x o) in Hocc by done. simpl in *.
    assert (Hreq : o ≠ OpRequest (next w)) by (intros ->; simpl in Ho; lia).
    rewrite (decide_False (P:=o = OpRequest (next w))) in Hocc by done.
    repeat case_decide; simpl in *; simplify_eq; lia.
  - rewrite lookup_insert_ne by done. rewrite (decide_False (P:=o = OpRead h)) by (intros ->;
    by simpl in Hne).
    destruct (delivered_same _ _ _ _ _ _ _ Hd o Hne) as [-> _]. simpl.
    rewrite occ_app, occ_single, occ_remove by done.
    rewrite (decide_False (P:=o = OpRequest h)) by (intros ->; by simpl in Hne).
    destruct (decide (op_addr o = next w)) as [Hn|Hn].
    + assert (Hocc : occ o (ops w) = 0).
      { apply occ_zero. intros Hb%(inv_bound _ Hi). lia. }
      rewrite Hn, lookup_insert_eq, Hocc.
      rewrite (expect_own ACCEPTING (next w) accepting_handler o) by done. simpl.
      repeat case_decide; destruct (is_write o); simpl; lia.
    + rewrite lookup_insert_ne by done. rewrite (decide_False (P:=o = OpRequest (next w)))
        by (intros ->; by simpl in Hn).
      simpl. unfold accounted in Ha. simpl in Ha.
      rewrite (d_heap _ _ _ _ _ _ _ Hd) in Ha. simpl in Ha.
      rewrite insert_insert_eq, !lookup_insert_ne in Ha by done.
      rewrite (inv_ops _ Hi o Ha). unfold want. lia.
Qed.

Lemma preserve_deleted w w1 h x s :
  invariant w → own_op s h ∈ ops w → heap w !! h = Some x → state_ x = s → s ≠ CREATE →
  heap w1 = heap w → ops w1 = ops (completed (own_op s h) w) →
  ∀ o, accounted (set_heap (delete h) w1) o →
    occ o (ops (set_heap (delete h) w1)) = want (set_heap (delete h) w1) o.
Proof.
  intros Hi Hin Hx Hs Hc Hh1 Ho1.
  assert (Hown : op_addr (own_op s h) = h) by by destruct s.
  apply (same_but_ops h w); [done| |].
  - intros o Hne. simpl. rewrite Ho1, Hh1, lookup_delete_ne by done.
    split; [|done]. by apply (completed_same w h _ Hown Hin o Hne).
  - intros o Ho Ha. unfold want, accounted in *. simpl in *.
    rewrite Hh1, Ho, lookup_delete_eq in *.
    assert (Hw : is_write o = false).
    { destruct (is_write o); [|done]. by destruct (Ha eq_refl). }
    rewrite Ho1, occ_remove, (inv_occ _ _ _ o Hi Hx Ho), (expect_own s h x o), Hw by done.
    case_decide; lia.
Qed.

Lemma preserve_written w h x x' ms w' :
  invariant w → OpWrite h ∈ ops w → heap w !! h = Some x →
  delivered h (set_writing false x) x' [] ms (completed (OpWrite h) w) w' →
  ∀ o, accounted w' o → occ o (ops w') = want w' o.
Proof.
  intros Hi Hin Hx Hd. apply (same_but_ops h w); [done| |].
  - apply (same_but_trans h w (completed (OpWrite h) w)); [by apply completed_same|].
    by eapply delivered_same.
  - intros o Ho _. pose proof (delivered_occ _ _ _ _ _ _ _ o Hd Ho) as Hocc.
    rewrite completed_occ, (inv_occ _ _ _ o Hi Hx Ho) in Hocc by done.
    unfold want. rewrite (d_heap _ _ _ _ _ _ _ Hd), Ho, lookup_insert_eq.
    pose proof (occ_pos _ _ Hin) as Hw. rewrite (inv_occ _ _ _ (OpWrite h) Hi Hx eq_refl) in Hw.
    destruct o; simpl in *; subst; repeat case_decide; simplify_eq; simpl in *; try lia.
    destruct (writing_ x); simpl in *; lia.
Qed.

Lemma preserve_ops w e w' :
  invariant w → effect w e w' → possible w e →
  ∀ o, accounted w' o → occ o (ops w') = want w' o.
Proof.
  intros Hi Heff Hpos.
  destruct Heff as [c Ha|h x x' c ms w' Ha Hx Hd Hp|h x ev Hx Hs
    |h x x' ms w' ev Hx Hs Hd Hp|h x p ev Hx Hs|h x ev Hx Hs|h x ok ev Hx Hs
    |h x x' ok ms w' ev Hx Hd Hp _]; simpl in Hpos.
  - apply (inv_ops _ Hi).
  - apply (same_but_ops h w); [done|by eapply delivered_same|]. intros o Ho _.
    pose proof (delivered_occ _ _ _ _ _ _ _ o Hd Ho). pose proof (inv_occ _ _ _ o Hi Hx Ho).
    unfold want. rewrite (d_heap _ _ _ _ _ _ _ Hd), Ho, lookup_insert_eq. lia.
  - by apply (preserve_deleted w _ h x ACCEPTING).
  - by eapply preserve_connected.
  - by apply (moved_ops w _ h x (set_incoming ev x) READING READING).
  - apply (moved_ops w _ h x x READING FINISH); try done.
    + by rewrite released_heap.
    + by rewrite released_ops.
  - apply (preserve_deleted w _ h x FINISH); try done.
    + by rewrite released_heap.
    + by rewrite released_ops.
  - by eapply preserve_written.
Qed.

(** What [delivered] says of the fields it mentions. *)
Lemma delivered_elem_ops h x x' cs ms w w' o :
  delivered h x x' cs ms w w' → o ∈ ops w' → o ∈ ops w ∨ o = OpWrite h.
Proof.
  intros Hd. rewrite (d_ops _ _ _ _ _ _ _ Hd), elem_of_app, elem_of_replicate. naive_solver.
Qed.

Lemma delivered_elem_written h x x' cs ms w w' a :
  delivered h x x' cs ms w w' → a ∈ (written w').*1 → a ∈ (written w).*1 ∨ a = h.
Proof.
  intros Hd. rewrite (d_written _ _ _ _ _ _ _ Hd), fmap_app, elem_of_app.
  intros [?|Ha]; [by left|right]. rewrite <- list_fmap_compose in Ha.
  apply list_elem_of_fmap in Ha as (? & -> & _). done.
Qed.

Lemma delivered_lookup h x x' cs ms w w' a :
  delivered h x x' cs ms w w' →
  heap w' !! a = if decide (h = a) then Some x' else heap w !! a.
Proof. intros Hd. rewrite (d_heap _ _ _ _ _ _ _ Hd). apply lookup_insert. Qed.

Lemma preserve_next w e w' : effect w e w' → next w ≤ next w'.
Proof.
  intros Heff. effect_cases Heff; simpl;
    rewrite ?(d_next _ _ _ _ _ _ _ Hd), ?released_next; simpl; lia.
Qed.

Lemma preserve_bound w e w' :
  invariant w → effect w e w' → ∀ o, o ∈ ops w' → op_addr o < next w'.
Proof.
  intros Hi Heff. pose proof (preserve_next _ _ _ Heff) as Hn.
  assert (Hrem : ∀ o o', o ∈ remove_one o' (ops w) → op_addr o < next w').
  { intros o o' Ho%elem_of_remove_one%(inv_bound _ Hi). lia. }
  assert (Hlive : ∀ h x, heap w !! h = Some x → h < next w').
  { intros h x Hx. destruct (inv_live _ Hi _ _ Hx). lia. }
  effect_cases Heff; intros o Ho; simpl in *;
    rewrite ?released_ops in Ho; simpl in *; try (by eapply Hrem).
  - apply (inv_bound _ Hi _ Ho).
  - apply (delivered_elem_ops _ _ _ _ _ _ _ _ Hd) in Ho as [Ho| ->]; [|by eapply Hlive].
    pose proof (inv_bound _ Hi _ Ho). lia.
  - apply elem_of_app in Ho as [Ho| ->%list_elem_of_singleton]; [|by eapply Hlive].
    apply (delivered_elem_ops _ _ _ _ _ _ _ _ Hd) in Ho as [Ho| ->]; [|by eapply Hlive].
    simpl in Ho. apply elem_of_app in Ho as [Ho| ->%list_elem_of_singleton]; [by eapply Hrem|].
    rewrite (d_next _ _ _ _ _ _ _ Hd). simpl. lia.
  - apply elem_of_app in Ho as [Ho| ->%list_elem_of_singleton]; [by eapply Hrem|by eapply Hlive].
  - apply elem_of_app in Ho as [Ho| ->%list_elem_of_singleton]; [by eapply Hrem|by eapply Hlive].
  - apply (delivered_elem_ops _ _ _ _ _ _ _ _ Hd) in Ho as [Ho| ->]; [simpl in Ho; by eapply Hrem|].
    by eapply Hlive.
Qed.

Lemma preserve_written_bound w e w' :
  invariant w → effect w e w' → ∀ a, a ∈ (written w').*1 → a < next w'.
Proof.
  intros Hi Heff. pose proof (preserve_next _ _ _ Heff) as Hn.
  assert (Hold : ∀ a, a ∈ (written w).*1 → a < next w').
  { intros a Ha%(inv_written _ Hi). lia. }
  assert (Hlive : ∀ h x, heap w !! h = Some x → h < next w').
  { intros h x Hx. destruct (inv_live _ Hi _ _ Hx). lia. }
  effect_cases Heff; intros a Hwr; simpl in *; rewrite ?released_written in Hwr; auto;
    apply (delivered_elem_written _ _ _ _ _ _ _ _ Hd) in Hwr as [Hwr| ->]; eauto.
Qed.

Lemma preserve_live w e w' :
  invariant w → effect w e w' →
  ∀ a y, heap w' !! a = Some y → a < next w' ∧ state_ y ≠ CREATE.
Proof.
  intros Hi Heff. pose proof (preserve_next _ _ _ Heff) as Hn.
  assert (Hold : ∀ a y, heap w !! a = Some y → a < next w' ∧ state_ y ≠ CREATE).
  { intros a y Hy. destruct (inv_live _ Hi _ _ Hy). split; [lia|done]. }
  effect_cases Heff; intros a y Hy; simpl in *; rewrite ?released_heap in Hy.
  - eauto.
  - rewrite (delivered_lookup _ _ _ _ _ _ _ _ Hd) in Hy. case_decide; [|eauto].
    simplify_eq. rewrite (d_state _ _ _ _ _ _ _ Hd). apply (Hold _ _ Hx).
  - apply lookup_delete_Some in Hy as [_ Hy]. eauto.
  - apply lookup_insert_Some in Hy as [[<- <-]|[Hne Hy]]; [naive_solver|].
    rewrite (delivered_lookup _ _ _ _ _ _ _ _ Hd), decide_False in Hy by done. simpl in Hy.
    apply lookup_insert_Some in Hy as [[<- <-]|[_ Hy]]; [|eauto].
    rewrite (d_next _ _ _ _ _ _ _ Hd). simpl. split; [lia|done].
  - apply lookup_insert_Some in Hy as [[<- <-]|[_ Hy]]; [naive_solver|eauto].
  - apply lookup_insert_Some in Hy as [[<- <-]|[_ Hy]]; [naive_solver|eauto].
  - apply lookup_delete_Some in Hy as [_ Hy]. eauto.
  - rewrite (delivered_lookup _ _ _ _ _ _ _ _ Hd) in Hy. case_decide; [|eauto].
    simplify_eq. rewrite (d_state _ _ _ _ _ _ _ Hd). apply (Hold _ _ Hx).
Qed.

Lemma preserve_active w e w' :
  invariant w → effect w e w' →
  ∀ a, active_ w' = Some a → ∃ y, heap w' !! a = Some y ∧ state_ y = READING.
Proof.
  intros Hi Heff.
  effect_cases Heff; intros a Ha'; simpl in *; rewrite ?released_heap; simpl.
  - congruence.
  - rewrite (d_active _ _ _ _ _ _ _ Hd) in Ha'.
    destruct (inv_active _ Hi _ Ha') as (y & Hy & Hr).
    rewrite (delivered_lookup _ _ _ _ _ _ _ _ Hd). case_decide; simplify_eq; eauto.
    exists x'. by rewrite (d_state _ _ _ _ _ _ _ Hd).
  - destruct (inv_active _ Hi _ Ha') as (y & Hy & Hr).
    exists y. rewrite lookup_delete_ne; [done|congruence].
  - rewrite (d_active _ _ _ _ _ _ _ Hd) in Ha'. simpl in Ha'. simplify_eq.
    rewrite lookup_insert_eq. eauto.
  - destruct (inv_active _ Hi _ Ha') as (y & Hy & Hr). rewrite lookup_insert.
    case_decide; eauto.
  - apply released_active in Ha' as [Ha' Hne].
    destruct (inv_active _ Hi _ Ha') as (y & Hy & Hr). rewrite lookup_insert_ne by done. eauto.
  - apply released_active in Ha' as [Ha' Hne].
    destruct (inv_active _ Hi _ Ha') as (y & Hy & Hr). rewrite lookup_delete_ne by done. eauto.
  - rewrite (d_active _ _ _ _ _ _ _ Hd) in Ha'.
    destruct (inv_active _ Hi _ Ha') as (y & Hy & Hr).
    rewrite (delivered_lookup _ _ _ _ _ _ _ _ Hd). case_decide; simplify_eq; eauto.
    exists x'. rewrite (d_state _ _ _ _ _ _ _ Hd). simpl in *. naive_solver.
Qed.

Lemma preserve_pending w e w' :
  invariant w → effect w e w' → active_ w' ≠ None → pending_commands_ w' = [].
Proof.
  intros Hi Heff. pose proof (inv_pending _ Hi) as Hold.
  effect_cases Heff; simpl; rewrite ?released_pending; simpl; try done.
  - rewrite (d_active _ _ _ _ _ _ _ Hd), Hp. done.
  - intros Hr. apply Hold. destruct (active_ (released _ _)) eqn:Hr'; [|done].
    apply released_active in Hr' as [Hr' _]. simpl in Hr'. by rewrite Hr'.
  - intros Hr. apply Hold. destruct (active_ (released _ _)) eqn:Hr'; [|done].
    apply released_active in Hr' as [Hr' _]. simpl in Hr'. by rewrite Hr'.
  - rewrite (d_active _ _ _ _ _ _ _ Hd), Hp. done.
Qed.

Definition waiting_ok (w : world P) (a : addr) (y : handler) : Prop :=
  write_queue_ y = [] ∧ writing_ y = false ∧ a ∉ (written w).*1.

(** Delivering to a handler that is not waiting leaves the waiting ones alone. *)
Lemma delivered_waiting h x x' cs ms w w' a y :
  delivered h x x' cs ms w w' → state_ x ≠ ACCEPTING →
  heap w' !! a = Some y → state_ y = ACCEPTING →
  a ≠ h ∧ heap w !! a = Some y ∧ (waiting_ok w a y → waiting_ok w' a y).
Proof.
  intros Hd Hx Hy Hs. rewrite (delivered_lookup _ _ _ _ _ _ _ _ Hd) in Hy. case_decide.
  - simplify_eq. by rewrite (d_state _ _ _ _ _ _ _ Hd) in Hs.
  - split_and!; [done|done|]. intros (? & ? & Hw). split_and!; [done|done|].
    intros Ha. by apply (delivered_elem_written _ _ _ _ _ _ _ _ Hd) in Ha as [?| ->].
Qed.

Lemma preserve_waiting w e w' :
  invariant w → effect w e w' → possible w e →
  ∀ a y, heap w' !! a = Some y → state_ y = ACCEPTING → waiting_ok w' a y.
Proof.
  intros Hi Heff Hpos. pose proof (inv_waiting _ Hi) as Hold.
  effect_cases Heff; intros a y Hy Hs'; unfold waiting_ok in *; simpl in *;
    rewrite ?released_heap, ?released_written in *; simpl in *.
  - eauto.
  - destruct (inv_active _ Hi _ Ha) as (x0 & Hx0 & Hr). simplify_eq.
    destruct (delivered_waiting _ _ _ _ _ _ _ _ _ Hd ltac:(congruence) Hy Hs')
      as (_ & Hy0 & Hw). apply Hw. by apply (Hold a).
  - apply lookup_delete_Some in Hy as [_ Hy]. eauto.
  - apply lookup_insert_Some in Hy as [[<- <-]|[Hne Hy]]; [done|].
    rewrite (delivered_lookup _ _ _ _ _ _ _ _ Hd), decide_False in Hy by done. simpl in Hy.
    assert (Hw : ∀ b, b ∈ (written w').*1 → b ∈ (written w).*1 ∨ b = h).
    { intros b Hb. by apply (delivered_elem_written _ _ _ _ _ _ _ _ Hd) in Hb. }
    apply lookup_insert_Some in Hy as [[<- <-]|[Hne' Hy]].
    + split_and!; [done|done|]. intros [Hb%(inv_written _ Hi)|Hb]%Hw; [lia|by subst].
    + destruct (Hold _ _ Hy Hs') as (? & ? & ?).
      split_and!; [done|done|]. intros [?|?]%Hw; [done|by subst].
  - apply lookup_insert_Some in Hy as [[<- <-]|[_ Hy]]; [done|eauto].
  - apply lookup_insert_Some in Hy as [[<- <-]|[_ Hy]]; [done|eauto].
  - apply lookup_delete_Some in Hy as [_ Hy]. eauto.
  - assert (Hne : state_ x ≠ ACCEPTING).
    { intros Hacc. destruct (Hold _ _ Hx Hacc) as (_ & Hf & _).
      pose proof (occ_pos _ _ Hpos) as Hn.
      rewrite (inv_occ _ _ _ (OpWrite h) Hi Hx eq_refl) in Hn. simpl in Hn.
      rewrite Hf in Hn. simpl in Hn. lia. }
    destruct (delivered_waiting _ _ _ _ _ _ _ _ _ Hd Hne Hy Hs') as (_ & Hy0 & Hw).
    apply Hw. by apply (Hold a).
Qed.

Lemma preserve_invariant w e w' :
  invariant w → effect w e w' → possible w e → invariant w'.
Proof.
  intros Hi Heff Hpos. split.
  - by eapply preserve_ops.
  - by eapply preserve_bound.
  - by eapply preserve_live.
  - by eapply preserve_active.
  - by eapply preserve_pending.
  - by eapply preserve_waiting.
  - by eapply preserve_written_bound.
Qed.

Lemma init_world_eq (p : P) :
  init_world p =
  set_ops [OpRequest 0] (alloc accepting_handler (empty_world p)).
Proof. unfold init_world, exec. by rewrite new_handler_run. Qed.

Lemma init_invariant (p : P) : invariant (init_world p).
Proof.
  rewrite init_world_eq. split; simpl.
  - intros o Ha. unfold want, accounted in *. simpl in *. rewrite occ_single.
    destruct (decide (op_addr o = 0)) as [Ho|Ho].
    + rewrite Ho, lookup_insert_eq. by destruct o; simpl in *; subst.
    + rewrite lookup_insert_ne, lookup_empty by done. case_decide; [by subst|done].
  - intros o ->%list_elem_of_singleton. simpl. lia.
  - intros h x. rewrite lookup_insert_Some, lookup_empty. intros [[<- <-]|[_ ?]]; [|done].
    split; [lia|done].
  - done.
  - done.
  - intros h x. rewrite lookup_insert_Some, lookup_empty. intros [[<- <-]|[_ ?]] _; [|done].
    split_and!; [done|done|]. by apply not_elem_of_nil.
  - by intros h ?%elem_of_nil.
Qed.

Lemma steps_invariant w es w' : invariant w → steps w es w' → invariant w'.
Proof.
  intros Hi. induction 1 as [|es w1 e w2 _ IH Hst]; [done|].
  apply (preserve_invariant w1 e); [done|by apply step_effect|by destruct Hst].
Qed.

Lemma reachable_invariant p w : reachable p w → invariant w.
Proof. intros [es Hs]. eapply steps_invariant; [apply init_invariant|done]. Qed.

End preservation.

End StreamSeq.
