(* ===== verification/StreamDelivery.v ===== *)
(** * Delivery guarantees of the command stream *)

(** What the sequential executions of [StreamSeq] guarantee for the commands
    pushed by the orchestrator's callbacks, and the executions in which the
    code loses a command or touches a deleted handler. *)

From S2P Require Import Prelude Double Json JsonModel Messages Stream StreamSeq.
Import VehicleStreamHandler StreamSeq.

Module StreamDelivery.

(** ** Delivery *)

Section delivery.
Context `{JL : JsonLib} {P : Type} `{PB : Publisher P}.
Implicit Types (w : world P) (x : handler) (h : addr).

(** The commands handled by one connection: those handed to its stream, then
    those still in its queue. A connection that is gone may have lost a suffix. *)
Definition segment_ok (w : world P) (seg : addr * list GatewayCommand) : Prop :=
  match heap w !! seg.1 with
  | Some x => state_ x ≠ ACCEPTING ∧ seg.2 = written_to seg.1 w ++ write_queue_ x
  | None => written_to seg.1 w `prefix_of` seg.2
  end.

(** The commands [cs] are split, in order, between the successive connections
    [segs] and the pending queue. *)
Record partition (w : world P) (cs : list GatewayCommand)
    (segs : list (addr * list GatewayCommand)) : Prop := {
  part_all : cs = concat segs.*2 ++ pending_commands_ w;
  part_nodup : NoDup segs.*1;
  part_ok : Forall (segment_ok w) segs;
  part_last h : active_ w = Some h → last segs.*1 = Some h;
  part_bound h : h ∈ segs.*1 → h < next w;
  part_rest h : h ∉ segs.*1 → written_to h w = [];
  part_waiting h x : h ∉ segs.*1 → heap w !! h = Some x → state_ x = ACCEPTING
}.

Lemma written_to_app w l h :
  snd <$> filter (λ hc : addr * GatewayCommand, hc.1 = h) (written w ++ l) =
  written_to h w ++ (snd <$> filter (λ hc, hc.1 = h) l).
Proof. unfold written_to. by rewrite filter_app, fmap_app. Qed.

Lemma filter_sent h a (ms : list GatewayCommand) :
  snd <$> filter (λ hc : addr * GatewayCommand, hc.1 = a) ((h,.) <$> ms) =
  if decide (h = a) then ms else [].
Proof.
  induction ms as [|m ms IH]; csimpl; [by case_decide|].
  rewrite filter_cons. simpl. case_decide; csimpl; rewrite IH; by rewrite ?decide_True.
Qed.

Lemma delivered_written_to h x x' cs ms w w' a :
  delivered h x x' cs ms w w' →
  written_to a w' = written_to a w ++ (if decide (h = a) then ms else []).
Proof.
  intros Hd. unfold written_to at 1. rewrite (d_written _ _ _ _ _ _ _ Hd).
  by rewrite written_to_app, filter_sent.
Qed.

(** Segments of the other connections are untouched by a change at [h]. *)
Lemma segments_other w w' h segs :
  Forall (segment_ok w) segs → h ∉ segs.*1 →
  (∀ a, a ∈ segs.*1 → a ≠ h → heap w' !! a = heap w !! a) →
  (∀ a, a ≠ h → written_to a w' = written_to a w) →
  Forall (segment_ok w') segs.
Proof.
  intros Hok Hh Hheap Hwr. rewrite Forall_forall in Hok |- *.
  intros [a seg] Hin. specialize (Hok _ Hin). unfold segment_ok in *. simpl in *.
  assert (Ha : a ∈ segs.*1) by (apply list_elem_of_fmap; by exists (a, seg)).
  assert (a ≠ h) by congruence. by rewrite Hheap, Hwr.
Qed.

(** A change at [h] that keeps, or truncates, what [h] has to deliver. *)
Lemma segments_at w w' h segs :
  Forall (segment_ok w) segs →
  (∀ a, a ∈ segs.*1 → a ≠ h → heap w' !! a = heap w !! a) →
  (∀ a, a ≠ h → written_to a w' = written_to a w) →
  (∀ seg, segment_ok w (h, seg) → segment_ok w' (h, seg)) →
  Forall (segment_ok w') segs.
Proof.
  intros Hok Hheap Hwr Hh. rewrite Forall_forall in Hok |- *.
  intros [a seg] Hin. specialize (Hok _ Hin). destruct (decide (a = h)) as [->|Hne]; [by apply Hh|].
  assert (Ha : a ∈ segs.*1) by (apply list_elem_of_fmap; by exists (a, seg)).
  unfold segment_ok in *. simpl in *. by rewrite Hheap, Hwr.
Qed.

Lemma last_segment (segs : list (addr * list GatewayCommand)) h :
  last segs.*1 = Some h → ∃ segs0 seg, segs = segs0 ++ [(h, seg)].
Proof.
  intros Hl. destruct segs as [|[a seg] segs0 _] using rev_ind; [done|].
  rewrite fmap_app in Hl. cbn in Hl. rewrite last_snoc in Hl.
  injection Hl as ->. eauto.
Qed.

(** A change at [h] that pushes nothing and keeps [h]'s content. *)
Lemma partition_local w w' h cs segs :
  partition w cs segs →
  pending_commands_ w' = pending_commands_ w → next w' = next w →
  (∀ a, active_ w' = Some a → active_ w = Some a) →
  (∀ a, a ≠ h → heap w' !! a = heap w !! a) →
  (∀ a, a ≠ h → written_to a w' = written_to a w) →
  (h ∉ segs.*1 → written_to h w' = []) →
  (∀ x, h ∉ segs.*1 → heap w' !! h = Some x → state_ x = ACCEPTING) →
  (∀ seg, segment_ok w (h, seg) → segment_ok w' (h, seg)) →
  partition w' cs segs.
Proof.
  intros [Hall Hnd Hok Hl Hb Hr Hw] Hp Hn Ha Hheap Hwr Hr' Hw' Hh. split; auto.
  - by rewrite Hp.
  - apply (segments_at w _ h); auto.
  - intros a ?. rewrite Hn. auto.
  - intros a Hin. destruct (decide (a = h)) as [->|Hne]; [auto|]. rewrite Hwr; auto.
  - intros a x Hin Hx. destruct (decide (a = h)) as [->|Hne]; [by eapply Hw'|].
    rewrite Hheap in Hx by done. by eapply Hw.
Qed.

Lemma partition_pushed w w' h x x' c ms cs segs :
  invariant w → partition w cs segs → active_ w = Some h → heap w !! h = Some x →
  delivered h x x' [c] ms w w' → pending_commands_ w' = pending_commands_ w →
  ∃ segs', partition w' (cs ++ [c]) segs'.
Proof.
  intros Hi [Hall Hnd Hok Hl Hb Hr Hw] Ha Hx Hd Hp.
  destruct (last_segment segs h (Hl h Ha)) as (segs0 & seg & ->).
  assert (Hpend : pending_commands_ w = []) by (apply (inv_pending _ Hi); congruence).
  rewrite fmap_app in Hnd, Hb, Hr, Hw. apply Forall_app in Hok as [Hok0 Hok1].
  apply Forall_cons in Hok1 as [Hseg _]. unfold segment_ok in Hseg. simpl in Hseg.
  rewrite Hx in Hseg. destruct Hseg as [Hst ->].
  apply NoDup_app in Hnd as (Hnd0 & Hdisj & _).
  assert (Hh0 : h ∉ segs0.*1) by (intros Hin; apply (Hdisj _ Hin); simpl; by left).
  exists (segs0 ++ [(h, (written_to h w ++ write_queue_ x) ++ [c])]).
  split; rewrite ?fmap_app; simpl.
  - rewrite Hall, fmap_app, !concat_app, Hp, Hpend. simpl.
    by rewrite !app_nil_r, !(assoc_L (++)).
  - apply NoDup_app. split_and!; [done| |apply NoDup_singleton].
    intros a Hin ->%list_elem_of_singleton. done.
  - apply Forall_app. split; [|apply Forall_singleton].
    + apply (segments_other w _ h); [done|done| |].
      * intros a _ Hne. rewrite (delivered_lookup _ _ _ _ _ _ _ _ Hd), decide_False; done.
      * intros a Hne. rewrite (delivered_written_to _ _ _ _ _ _ _ _ Hd), decide_False by done.
        apply app_nil_r.
    + unfold segment_ok. simpl. rewrite (delivered_lookup _ _ _ _ _ _ _ _ Hd), decide_True by done.
      rewrite (d_state _ _ _ _ _ _ _ Hd). split; [done|].
      rewrite (delivered_written_to _ _ _ _ _ _ _ _ Hd), decide_True by done.
      rewrite <- !(assoc_L (++)). by rewrite (d_fifo _ _ _ _ _ _ _ Hd).
  - intros a. rewrite (d_active _ _ _ _ _ _ _ Hd), Ha, last_snoc. congruence.
  - intros a. rewrite (d_next _ _ _ _ _ _ _ Hd). apply Hb.
  - intros a Hna. rewrite (delivered_written_to _ _ _ _ _ _ _ _ Hd), decide_False.
    + rewrite app_nil_r. by apply Hr.
    + intros ->. apply Hna, elem_of_app. right. by apply list_elem_of_singleton.
  - intros a y Hna. rewrite (delivered_lookup _ _ _ _ _ _ _ _ Hd), decide_False; [by apply Hw|].
    intros ->. apply Hna, elem_of_app. right. by apply list_elem_of_singleton.
Qed.

Lemma partition_connected w h x x' ms w' cs segs :
  invariant w → partition w cs segs → heap w !! h = Some x → state_ x = ACCEPTING →
  delivered h x x' (pending_commands_ w) ms (spawned h (completed (OpRequest h) w)) w' →
  pending_commands_ w' = [] →
  ∃ segs', partition (moved h READING (OpRead h) x' w') cs segs'.
Proof.
  intros Hi [Hall Hnd Hok Hl Hb Hr Hw] Hx Hs Hd Hp.
  destruct (inv_live _ Hi _ _ Hx) as [Hlt _].
  destruct (inv_waiting _ Hi _ _ Hx Hs) as (Hq & _ & _).
  assert (Hh : h ∉ segs.*1).
  { intros ([a seg] & -> & Hin)%list_elem_of_fmap. rewrite Forall_forall in Hok.
    specialize (Hok _ Hin). unfold segment_ok in Hok. simpl in *. rewrite Hx in Hok.
    by destruct Hok. }
  assert (Hwr : ∀ a, written_to a (moved h READING (OpRead h) x' w') =
                     written_to a w ++ (if decide (h = a) then ms else [])).
  { intros a. change (written_to a (moved h READING (OpRead h) x' w')) with (written_to a w').
    by rewrite (delivered_written_to _ _ _ _ _ _ _ _ Hd). }
  exists (segs ++ [(h, pending_commands_ w)]). split; rewrite ?fmap_app; csimpl.
  - rewrite concat_app. simpl. by rewrite Hp, !app_nil_r.
  - apply NoDup_app. split_and!; [done| |apply NoDup_singleton].
    intros a Hin ->%list_elem_of_singleton. done.
  - apply Forall_app. split; [|apply Forall_singleton].
    + apply (segments_other w _ h); [done|done| |].
      * intros a Ha Hne. simpl. rewrite lookup_insert_ne by done.
        rewrite (delivered_lookup _ _ _ _ _ _ _ _ Hd), decide_False by done. simpl.
        apply lookup_insert_ne. apply Hb in Ha. lia.
      * intros a Hne. rewrite Hwr, decide_False by done. apply app_nil_r.
    + unfold segment_ok. cbn [fst snd]. rewrite Hwr, decide_True by done. simpl.
      rewrite lookup_insert_eq. split; [done|]. simpl. rewrite (Hr h Hh). simpl.
      by rewrite (d_fifo _ _ _ _ _ _ _ Hd), Hq.
  - intros a. simpl. rewrite (d_active _ _ _ _ _ _ _ Hd). simpl. intros [= <-].
    apply last_snoc.
  - intros a. simpl. rewrite (d_next _ _ _ _ _ _ _ Hd). simpl.
    rewrite elem_of_app, list_elem_of_singleton. intros [?%Hb| ->]; lia.
  - intros a. rewrite elem_of_app, list_elem_of_singleton. intros Hna.
    rewrite Hwr, decide_False by naive_solver. rewrite app_nil_r. naive_solver.
  - intros a y. rewrite elem_of_app, list_elem_of_singleton. intros Hna Hy. simpl in Hy.
    rewrite lookup_insert_ne in Hy by naive_solver.
    rewrite (delivered_lookup _ _ _ _ _ _ _ _ Hd), decide_False in Hy by naive_solver.
    simpl in Hy. apply lookup_insert_Some in Hy as [[_ <-]|[_ Hy]]; [done|]. naive_solver.
Qed.

(** A connection that releases [active_]: only its handler changes, and its segment
    stays right. *)
Lemma partition_released w w' h cs segs :
  partition w cs segs → h ∈ segs.*1 →
  pending_commands_ w' = pending_commands_ w → next w' = next w →
  active_ w' = active_ (released h w) → written w' = written w →
  (∀ a, a ≠ h → heap w' !! a = heap w !! a) →
  (∀ seg, segment_ok w (h, seg) → segment_ok w' (h, seg)) →
  partition w' cs segs.
Proof.
  intros Hpart Hin Hp Hn Ha Hw Hheap Hseg. apply (partition_local w _ h); try done.
  - intros a. rewrite Ha. by intros [? _]%released_active.
  - intros a _. unfold written_to. by rewrite Hw.
Qed.

(** A completed write belongs to a connection that has a segment. *)
Lemma write_segment w cs segs h x :
  invariant w → partition w cs segs → heap w !! h = Some x → OpWrite h ∈ ops w → h ∈ segs.*1.
Proof.
  intros Hi Hpart Hx Hpos. destruct (decide (h ∈ segs.*1)) as [?|Hh]; [done|exfalso].
  pose proof (part_waiting _ _ _ Hpart _ _ Hh Hx) as Hacc. pose proof (occ_pos _ _ Hpos) as Hn.
  rewrite (inv_occ _ _ _ (OpWrite h) Hi Hx eq_refl) in Hn. simpl in Hn.
  destruct (inv_waiting _ Hi _ _ Hx Hacc) as (_ & Hf & _). rewrite Hf in Hn. simpl in Hn. lia.
Qed.

(** The same, when an operation completes with the release. *)
Lemma partition_departed w w' o h cs segs :
  let w0 := released h (completed o w) in
  partition w cs segs → h ∈ segs.*1 →
  pending_commands_ w' = pending_commands_ w0 → next w' = next w0 →
  active_ w' = active_ w0 → written w' = written w0 →
  (∀ a, a ≠ h → heap w' !! a = heap w0 !! a) →
  (∀ seg, segment_ok w (h, seg) → segment_ok w' (h, seg)) →
  partition w' cs segs.
Proof.
  cbv zeta. intros Hpart Hin Hp Hn Ha Hw Hheap Hseg. apply (partition_released w _ h); try done.
  - by rewrite Hp, released_pending.
  - by rewrite Hn, released_next.
  - rewrite Ha. unfold released. simpl. by case_decide.
  - by rewrite Hw, released_written.
  - intros a Hne. by rewrite Hheap, released_heap.
Qed.

(** A write completes, and the next command of the queue is handed over. *)
Lemma partition_flushed w w' h x x' ms cs segs :
  partition w cs segs → heap w !! h = Some x → h ∈ segs.*1 →
  delivered h (set_writing false x) x' [] ms (completed (OpWrite h) w) w' →
  pending_commands_ w' = pending_commands_ w → partition w' cs segs.
Proof.
  intros Hpart Hx Hh Hd Hp. assert (Hwr := λ a, delivered_written_to _ _ _ _ _ _ _ a Hd).
  apply (partition_local w _ h); try done; simpl.
  - by rewrite (d_next _ _ _ _ _ _ _ Hd).
  - intros a. by rewrite (d_active _ _ _ _ _ _ _ Hd).
  - intros a Hne. by rewrite (delivered_lookup _ _ _ _ _ _ _ _ Hd), decide_False.
  - intros a Hne. rewrite Hwr, decide_False by done. apply app_nil_r.
  - unfold segment_ok. cbn [fst snd]. rewrite Hx, (delivered_lookup _ _ _ _ _ _ _ _ Hd).
    rewrite decide_True, Hwr, decide_True by done. intros seg [Hs ->].
    rewrite (d_state _ _ _ _ _ _ _ Hd). split; [done|].
    pose proof (d_fifo _ _ _ _ _ _ _ Hd) as Hf. rewrite app_nil_r in Hf. simpl in Hf.
    by rewrite <- (assoc_L (++)), Hf.
Qed.

Lemma partition_effect w e w' cs segs :
  invariant w → partition w cs segs → effect w e w' → possible w e →
  ∃ segs', partition w' (cs ++ pushed [e]) segs'.
Proof.
  intros Hi Hpart Heff Hpos.
  assert (Hseen : ∀ h x, heap w !! h = Some x → state_ x ≠ ACCEPTING → h ∈ segs.*1).
  { intros h x Hx Hs. destruct (decide (h ∈ segs.*1)) as [?|Hh]; [done|].
    by destruct Hs; eapply part_waiting. }
  effect_cases Heff; cbn; rewrite ?app_nil_r.
  - exists segs. destruct Hpart as [Hall Hnd Hok Hl Hb Hr Hw]. split; try done.
    simpl. by rewrite Hall, (assoc_L (++)).
  - by eapply partition_pushed.
  - exists segs. apply (partition_local w _ h); try done.
    + intros a Hne. simpl. by rewrite lookup_delete_ne.
    + intros Hh. apply (part_rest _ _ _ Hpart _ Hh).
    + intros y _. simpl. by rewrite lookup_delete_eq.
    + unfold segment_ok. simpl. rewrite Hx, lookup_delete_eq. by intros seg [].
  - by eapply partition_connected.
  - exists segs. apply (partition_local w _ h); try done.
    + intros a Hne. simpl. by rewrite lookup_insert_ne.
    + intros Hh. apply (part_rest _ _ _ Hpart _ Hh).
    + intros y []. apply (Hseen _ _ Hx). congruence.
    + unfold segment_ok. simpl. rewrite Hx, lookup_insert_eq. by intros seg [_ ->].
  - exists segs. apply (partition_departed w _ (OpRead h) h); try done; simpl.
    + apply (Hseen _ _ Hx). congruence.
    + intros a Hne. by rewrite lookup_insert_ne.
    + unfold segment_ok, written_to. simpl. rewrite Hx, lookup_insert_eq, released_written.
      by intros seg [_ ->].
  - exists segs. apply (partition_departed w _ (OpFinish h) h); try done; simpl.
    + apply (Hseen _ _ Hx). congruence.
    + intros a Hne. by rewrite lookup_delete_ne.
    + unfold segment_ok, written_to. simpl. rewrite Hx, lookup_delete_eq, released_written.
      intros seg [_ ->]. by apply prefix_app_r.
  - exists segs. eapply partition_flushed; [done|done| |done|done].
    exact (write_segment _ _ _ _ _ Hi Hpart Hx Hpos).
Qed.

Lemma partition_init (p : P) : partition (init_world p) [] [].
Proof.
  rewrite init_world_eq. split; try done; simpl.
  - apply NoDup_nil. done.
  - by intros h ?%elem_of_nil.
  - intros h x _. rewrite lookup_insert_Some, lookup_empty. naive_solver.
Qed.

Lemma pushed_app es es' : pushed (es ++ es') = pushed es ++ pushed es'.
Proof. apply omap_app. Qed.

Lemma steps_partition (p : P) es w :
  steps (init_world p) es w → ∃ segs, partition w (pushed es) segs.
Proof.
  induction 1 as [|es w1 e w2 Hs IH Hst].
  - exists []. apply partition_init.
  - destruct IH as [segs Hpart]. rewrite pushed_app.
    assert (Hi : invariant w1) by (eapply reachable_invariant; by exists es).
    eapply partition_effect; [done|done|by apply step_effect|by destruct Hst].
Qed.

(** ** Draining a queue *)

(** One successful write completion of a writing handler: the next command goes
    out, or writing stops. *)
Lemma drain_step w h x :
  invariant w → heap w !! h = Some x → writing_ x = true →
  ∃ x' w', step w (Complete (OpWrite h) true EvNotSet) w' ∧ heap w' !! h = Some x' ∧
    written_to h w' ++ write_queue_ x' = written_to h w ++ write_queue_ x ∧
    match write_queue_ x with
    | [] => writing_ x' = false ∧ write_queue_ x' = []
    | _ :: rest => writing_ x' = true ∧ write_queue_ x' = rest
    end.
Proof.
  intros Hi Hx Hw.
  assert (Hin : OpWrite h ∈ ops w).
  { apply occ_elem. rewrite (inv_occ _ _ _ (OpWrite h) Hi Hx eq_refl). simpl. rewrite Hw. simpl. lia. }
  destruct (on_write_done_run h true (completed (OpWrite h) w) x Hx)
    as (x' & ms & w' & Hrun & Hd & _ & Hidle).
  exists x', w'. split_and!.
  - split; [done|]. by apply complete_run.
  - rewrite (d_heap _ _ _ _ _ _ _ Hd). apply lookup_insert_eq.
  - rewrite (delivered_written_to _ _ _ _ _ _ _ h Hd), decide_True by done.
    pose proof (d_fifo _ _ _ _ _ _ _ Hd) as Hf. rewrite app_nil_r in Hf. simpl in Hf.
    by rewrite <- (assoc_L (++)), Hf.
  - pose proof (d_fifo _ _ _ _ _ _ _ Hd) as Hf. pose proof (d_writing _ _ _ _ _ _ _ Hd) as Hn.
    rewrite app_nil_r in Hf. simpl in Hf, Hn.
    destruct (writing_ x') eqn:Hw'; simpl in Hn.
    + destruct ms as [|m [|? ?]]; simpl in *; try lia. by rewrite <- Hf.
    + destruct ms; simpl in *; [|lia]. rewrite <- Hf. by rewrite Hidle.
Qed.

Lemma steps_cons w e w1 es w2 : step w e w1 → steps w1 es w2 → steps w (e :: es) w2.
Proof.
  intros Hst. induction 1 as [|es w2 e' w3 _ IH Hst'].
  - apply (steps_snoc w [] w e w1); [constructor|done].
  - change (e :: es ++ [e']) with ((e :: es) ++ [e']). by eapply steps_snoc.
Qed.

Lemma step_invariant w e w' : invariant w → step w e w' → invariant w'.
Proof.
  intros Hi Hst. apply (preserve_invariant w e); [done|by apply step_effect|by destruct Hst].
Qed.

Lemma drain_queue q w h x :
  invariant w → heap w !! h = Some x → writing_ x = true → write_queue_ x = q →
  ∃ x' w', steps w (replicate (S (length q)) (Complete (OpWrite h) true EvNotSet)) w' ∧
    heap w' !! h = Some x' ∧ written_to h w' = written_to h w ++ q ∧
    write_queue_ x' = [] ∧ writing_ x' = false.
Proof.
  revert w x. induction q as [|c q IH]; intros w x Hi Hx Hw Hq;
    destruct (drain_step w h x Hi Hx Hw) as (x1 & w1 & Hst & Hx1 & Hc & Hm);
    rewrite Hq in Hc, Hm.
  - destruct Hm as [Hw1 Hq1]. exists x1, w1. split_and!; [|done| |done|done].
    + apply (steps_cons _ _ w1); [done|constructor].
    + by rewrite Hq1, app_nil_r in Hc.
  - destruct Hm as [Hw1 Hq1].
    destruct (IH w1 x1 (step_invariant _ _ _ Hi Hst) Hx1 Hw1 Hq1)
      as (x2 & w2 & Hs & Hx2 & Hc2 & Hq2 & Hw2).
    exists x2, w2. split_and!; [|done| |done|done].
    + by apply (steps_cons _ _ w1).
    + rewrite Hc2. rewrite Hq1 in Hc. done.
Qed.

(** ** Exactly one handler waits for the next connection *)

(** No connection request was answered with a failure, which gRPC does only at
    shutdown. *)
Definition serving (es : list event) : Prop :=
  Forall (λ e, match e with Complete (OpRequest _) false _ => False | _ => True end) es.

Definition waits (w : world P) (h : addr) : Prop :=
  ∃ x, heap w !! h = Some x ∧ state_ x = ACCEPTING.

Definition one_waits (w : world P) : Prop := ∃ h, ∀ a, waits w a ↔ a = h.

(** Whether [a] waits, after a change of the handler [h]. *)
Lemma waits_insert w w' h y :
  heap w' = <[h := y]> (heap w) → state_ y ≠ ACCEPTING →
  ∀ a, waits w' a ↔ waits w a ∧ a ≠ h.
Proof.
  intros Hh Hy a. unfold waits. rewrite Hh. split.
  - intros (x & Hx & Hs). apply lookup_insert_Some in Hx as [[-> ->]|[? ?]]; [done|eauto].
  - intros [(x & Hx & Hs) Hne]. exists x. by rewrite lookup_insert_ne.
Qed.

Lemma one_waits_same w w' h y x :
  heap w' = <[h := y]> (heap w) → heap w !! h = Some x →
  state_ x ≠ ACCEPTING → state_ y ≠ ACCEPTING →
  one_waits w → one_waits w'.
Proof.
  intros Hh Hx Hxs Hys [b Hb]. exists b. intros a. rewrite (waits_insert w w' h y Hh Hys a), Hb.
  split; [by intros []|]. intros ->. split; [done|]. intros ->.
  assert (waits w h) as (z & Hz & Hs) by by apply Hb. congruence.
Qed.

Lemma effect_one_waits w e w' :
  invariant w → effect w e w' → possible w e → serving [e] → one_waits w → one_waits w'.
Proof.
  intros Hi Heff Hpos Hserv Hone. pose proof Hi as [_ _ Hlive Hact _ _ _].
  effect_cases Heff; simpl in Hpos.
  - done.
  - destruct (Hact _ Ha) as (y & Hy & Hr). simplify_eq.
    eapply (one_waits_same w w' h); [by apply Hd|done|congruence| |done].
    rewrite (d_state _ _ _ _ _ _ _ Hd). congruence.
  - unfold serving in Hserv. by rewrite Forall_singleton in Hserv.
  - destruct Hone as [b Hb]. exists (next w).
    assert (h = b) as -> by (apply Hb; by exists x).
    destruct (Hlive _ _ Hx) as [Hlt _].
    intros a. unfold waits. simpl. split.
    + intros (y & Hy & Hs').
      apply lookup_insert_Some in Hy as [[_ <-]|[Hne Hy]]; [done|].
      rewrite (delivered_lookup _ _ _ _ _ _ _ _ Hd), decide_False in Hy by done.
      simpl in Hy. apply lookup_insert_Some in Hy as [[<- _]|[_ Hy]]; [done|].
      destruct Hne. symmetry. apply Hb. by exists y.
    + intros ->. exists accepting_handler. split; [|done].
      rewrite lookup_insert_ne by lia.
      rewrite (delivered_lookup _ _ _ _ _ _ _ _ Hd), decide_False by lia.
      simpl. apply lookup_insert_eq.
  - eapply (one_waits_same w _ h); [reflexivity|done|congruence|done|done].
  - eapply (one_waits_same w _ h _ x); [simpl; by rewrite released_heap|done|congruence|done|done].
  - destruct Hone as [b Hb]. exists b. intros a. rewrite <- Hb. unfold waits. simpl.
    rewrite released_heap. simpl. split.
    + intros (y & Hy & Hs'). apply lookup_delete_Some in Hy as [_ Hy]. eauto.
    + intros (y & Hy & Hs'). exists y. rewrite lookup_delete_ne by congruence. done.
  - assert (Hne : state_ x ≠ ACCEPTING).
    { intros Hacc. pose proof (occ_pos _ _ Hpos) as Hn.
      rewrite (inv_occ _ _ _ (OpWrite h) Hi Hx eq_refl) in Hn. simpl in Hn.
      destruct (inv_waiting _ Hi _ _ Hx Hacc) as (_ & Hf & _). rewrite Hf in Hn.
      simpl in Hn. lia. }
    eapply (one_waits_same w w' h); [by apply Hd|done|done| |done].
    rewrite (d_state _ _ _ _ _ _ _ Hd). done.
Qed.

Lemma init_one_waits (p : P) : one_waits (init_world p).
Proof.
  rewrite init_world_eq. exists 0. intros a. unfold waits. simpl. split.
  - intros (y & Hy & _). apply lookup_insert_Some in Hy as [[<- _]|[_ Hy]]; [done|].
    by rewrite lookup_empty in Hy.
  - intros ->. exists accepting_handler. by rewrite lookup_insert_eq.
Qed.

Lemma steps_one_waits w0 es w :
  invariant w0 → one_waits w0 → steps w0 es w → serving es → one_waits w.
Proof.
  intros Hi0 H0. induction 1 as [|es w1 e w2 Hs IH Hst]; [done|].
  intros [Hes He]%Forall_app. assert (Hi : invariant w1) by by eapply steps_invariant.
  eapply effect_one_waits; [done|by apply step_effect|by destruct Hst|done|auto].
Qed.

(** ** Running concrete executions *)

Definition step_fn (e : event) (w : world P) : option (world P) :=
  if match e with Push _ => true | Complete o _ _ => bool_decide (o ∈ ops w) end
  then match run_event e w with (Ret tt, w') => Some w' | _ => None end
  else None.

Fixpoint steps_fn (es : list event) (w : world P) : option (world P) :=
  match es with
  | [] => Some w
  | e :: es' => w' ← step_fn e w; steps_fn es' w'
  end.

Lemma step_fn_sound e w w' : step_fn e w = Some w' → step w e w'.
Proof.
  unfold step_fn. destruct e as [c|o ok ev].
  - intros Hrun. split; [done|]. by destruct (run_event _ w) as [[[]| |] ?]; simplify_eq.
  - case_bool_decide; [|done]. intros Hrun. split; [done|].
    by destruct (run_event _ w) as [[[]| |] ?]; simplify_eq.
Qed.

Lemma steps_fn_sound es w w' : steps_fn es w = Some w' → steps w es w'.
Proof.
  revert w. induction es as [|e es IH]; simpl; intros w.
  - intros [= <-]. constructor.
  - intros (w1 & Hw1%step_fn_sound & Hes)%bind_Some. eapply steps_cons; eauto.
Qed.

Lemma steps_fn_reachable p es w : steps_fn es (init_world p) = Some w → reachable p w.
Proof. intros Hs%steps_fn_sound. by exists es. Qed.

End delivery.

(** The strings of an event are UTF-8, as protobuf guarantees for a parsed
    message. *)
Definition event_utf8 `{JL : JsonLib} (ev : VehicleEvent) : Prop :=
  match ev with
  | EvEta r => utf8 (eta_vin_number r) ∧ utf8 (eta_status r)
  | EvStatus r => utf8 (st_vin_number r) ∧ utf8 (st_status r)
  | EvArrive r => utf8 (ar_vin_number r)
  | EvLocation r => utf8 (ul_vinNumber r)
  | _ => True
  end.

Lemma handle_incoming_returns `{JL : JsonLaws} {P} `{PB : Publisher P} ev (w : world P) :
  event_utf8 ev → fst (handle_incoming ev w) = Ret tt.
Proof.
  assert (Hpub : ∀ t fs, fields_utf8 fs → fst (publish_fields t fs w) = Ret tt).
  { intros t fs [s Hs]%dump_object. unfold publish_fields. by rewrite bind_json_try, Hs. }
  assert (Hkey : ∀ k f (fs : fields), ascii_text k → field_utf8 f → fields_utf8 fs →
            fields_utf8 ((k, f) :: fs)).
  { intros k f fs Hk Hf Hfs. constructor; [|done]. split; [by apply utf8_ascii|done]. }
  assert (Hnil : fields_utf8 []) by constructor.
  destruct ev; simpl; intros Hev; try done; apply Hpub;
    repeat (apply Hkey; [done|simpl; by try apply Hev|]); done.
Qed.

Lemma invariant_returns `{JL : JsonLaws} {P} `{PB : Publisher P} (w : world P) e :
  invariant w → enabled w e →
  match e with Complete _ _ ev => event_utf8 ev | Push _ => True end →
  fst (run_event e w) = Ret tt.
Proof.
  intros Hi He Hutf8. destruct (run_event_effect w e Hi He) as (r & w' & Hrun & Hub & _ & Hex).
  rewrite Hrun. destruct r as [[]|ex|]; [done| |done]. exfalso.
  destruct (Hex ex eq_refl) as (h & ev & w0 & -> & Hth).
  by rewrite (handle_incoming_returns ev w0 Hutf8) in Hth.
Qed.

(** C17. In every state reached without interleaving, gRPC's rules for
    asynchronous operations are respected: a live handler has exactly one
    operation of its own outstanding, the one its state started (a request while
    accepting, a read while reading, the final status afterwards), no other, and
    at most one write, which is outstanding exactly when [writing_] is set. *)
Theorem outstanding_discipline `{JL : JsonLib} {P} `{PB : Publisher P} (p : P) w h x
  (Hr : reachable p w) (Hx : heap w !! h = Some x) :
  state_ x ≠ CREATE ∧
  occ (own_op (state_ x) h) (ops w) = 1 ∧
  (∀ o, op_addr o = h → is_write o = false → o ≠ own_op (state_ x) h → o ∉ ops w) ∧
  occ (OpWrite h) (ops w) = Nat.b2n (writing_ x).
Proof.
  pose proof (reachable_invariant _ _ Hr) as Hi.
  destruct (inv_live _ Hi _ _ Hx) as [_ Hc].
  assert (Hocc : ∀ o, op_addr o = h → occ o (ops w) =
    (if decide (o = own_op (state_ x) h) then 1 else 0) +
    (if is_write o then Nat.b2n (writing_ x) else 0)).
  { intros o Ho. rewrite (inv_occ _ _ _ o Hi Hx Ho). by apply expect_own. }
  split_and!; [done| | |].
  - rewrite Hocc by by destruct (state_ x). rewrite decide_True by done.
    by destruct (state_ x).
  - intros o Ho Hw Hne Hin%occ_pos. rewrite (Hocc o Ho), decide_False, Hw in Hin by done. lia.
  - rewrite Hocc, decide_False by (by destruct (state_ x) || done). done.
Qed.

(** C18. No reachable state has undefined behaviour or an escaping exception
    ahead of it, as long as no write outlives its handler: every push, and every
    completion of an outstanding operation whose handler is alive, runs to its
    end when the strings of the event are UTF-8. *)
Theorem events_return `{JL : JsonLaws} {P} `{PB : Publisher P} (p : P) w e
  (Hr : reachable p w) (He : enabled w e)
  (Hutf8 : match e with Complete _ _ ev => event_utf8 ev | Push _ => True end) :
  fst (run_event e w) = Ret tt.
Proof. apply invariant_returns; [by eapply reachable_invariant|done|done]. Qed.

(** C3. Commands are neither duplicated, reordered nor invented. After any
    sequential execution the pushed commands, in order, are the segments of the
    successive connections followed by the pending queue; a live connection's
    segment is what was handed to its stream followed by its queue, and a
    connection that is gone was handed a prefix of its segment. Nothing is
    pending while a vehicle is connected. *)
Theorem fifo_delivery `{JL : JsonLib} {P} `{PB : Publisher P} (p : P) es w
  (Hs : steps (init_world p) es w) :
  ∃ segs : list (addr * list GatewayCommand),
    NoDup segs.*1 ∧
    pushed es = concat segs.*2 ++ pending_commands_ w ∧
    Forall (λ seg, match heap w !! seg.1 with
                   | Some x => seg.2 = written_to seg.1 w ++ write_queue_ x
                   | None => written_to seg.1 w `prefix_of` seg.2
                   end) segs ∧
    (∀ h, h ∉ segs.*1 → written_to h w = []) ∧
    (∀ h, active_ w = Some h → last segs.*1 = Some h ∧ pending_commands_ w = []).
Proof.
  destruct (steps_partition p es w Hs) as (segs & [Hall Hnd Hok Hl _ Hr _]).
  exists segs. split_and!; [done|done| |done|].
  - eapply Forall_impl; [exact Hok|]. intros [a seg]. unfold segment_ok. simpl.
    by destruct (heap w !! a) as [x|]; [intros []|].
  - intros h Ha. split; [by apply Hl|].
    assert (Hi : invariant w) by (eapply reachable_invariant; by exists es).
    apply (inv_pending _ Hi). congruence.
Qed.

(** C19. A connected vehicle receives everything queued for it: from any
    reachable state with a write in flight, when the stream completes its writes
    one after the other, one completion per queued command (and one for the write in flight) hands
    over the whole queue in order and leaves the stream idle. *)
Theorem queue_drains `{JL : JsonLib} {P} `{PB : Publisher P} (p : P) w h x
  (Hr : reachable p w) (Hx : heap w !! h = Some x) (Hw : writing_ x = true) :
  ∃ x' w',
    steps w (replicate (S (length (write_queue_ x))) (Complete (OpWrite h) true EvNotSet)) w' ∧
    heap w' !! h = Some x' ∧
    written_to h w' = written_to h w ++ write_queue_ x ∧
    write_queue_ x' = [] ∧ writing_ x' = false.
Proof. by apply (drain_queue _ w h x (reachable_invariant _ _ Hr)). Qed.

(** C34. The gateway can always be connected to: as long as gRPC has not failed
    a connection request (shutdown), exactly one handler waits for the next
    connection, whatever connected, disconnected or failed before. *)
Theorem always_one_waiting `{JL : JsonLib} {P} `{PB : Publisher P} (p : P) es w
  (Hs : steps (init_world p) es w) (Hserv : serving es) :
  ∃ h, ∀ a, (∃ x, heap w !! a = Some x ∧ state_ x = ACCEPTING) ↔ a = h.
Proof.
  exact (steps_one_waits _ es w (init_invariant p) (init_one_waits p) Hs Hserv).
Qed.

(** Commands told apart by their request identifier. *)
Definition cancel (id : Z) : GatewayCommand :=
  CmdTripCancel {| tc_vin_number := "VIN123"; tc_request_id := id |}.

Definition connect_event : event := Complete (OpRequest 0) true EvNotSet.

(** A vehicle connects, two commands are pushed, the vehicle disconnects while
    the first write is still outstanding. *)
Definition disconnect_events : list event :=
  [connect_event; Push (cancel 1); Push (cancel 2);
   Complete (OpRead 0) false EvNotSet; Complete (OpFinish 0) true EvNotSet].

(** A command still queued when the vehicle disconnects is lost: it is
    neither handed to the stream, nor pending for the next connection, nor in
    the queue of any handler. *)
Theorem disconnect_loses_commands `{JL : JsonLib} {P} `{PB : Publisher P} (p : P) :
  ∃ w, steps (init_world p) disconnect_events w ∧
    cancel 2 ∈ pushed disconnect_events ∧
    pending_commands_ w = [] ∧ written w = [(0, cancel 1)] ∧
    (∀ h x, heap w !! h = Some x → write_queue_ x = []).
Proof.
  eexists. split_and!.
  - apply steps_fn_sound. vm_compute. reflexivity.
  - set_solver.
  - reflexivity.
  - reflexivity.
  - apply (bool_decide_unpack (map_Forall (λ _ x, write_queue_ x = []) _)).
    vm_compute. exact I.
Qed.

(** Nothing keeps a handler alive until its write completes: after a
    disconnection with a write in flight the handler is deleted, and when the
    completion queue then reports that write, [StreamWriter::Proceed] touches the
    deleted handler. *)
Theorem write_outlives_handler `{JL : JsonLib} {P} `{PB : Publisher P} (p : P) :
  ∃ w, steps (init_world p) disconnect_events w ∧
    heap w !! 0 = None ∧ OpWrite 0 ∈ ops w ∧
    (∀ ok ev, fst (run_event (Complete (OpWrite 0) ok ev) w) = UB).
Proof.
  eexists. split_and!.
  - apply steps_fn_sound. vm_compute. reflexivity.
  - reflexivity.
  - set_solver.
  - by intros [] ev.
Qed.

(** The same commands, with a client that closes its side of the stream and keeps
    reading: the first write completes well after the status was started. *)
Definition half_close_events : list event :=
  [connect_event; Push (cancel 1); Push (cancel 2);
   Complete (OpRead 0) false EvNotSet; Complete (OpWrite 0) true EvNotSet].

(** [on_write_done] does not look at the state of its handler: when the client
    closes its side with a write in flight, [Proceed] starts [Finish], and the
    completion of the write then starts the next [Write] on the finished stream. *)
Theorem write_after_finish `{JL : JsonLib} {P} `{PB : Publisher P} (p : P) :
  ∃ w x, steps (init_world p) half_close_events w ∧
    heap w !! 0 = Some x ∧ state_ x = FINISH ∧
    OpFinish 0 ∈ ops w ∧ OpWrite 0 ∈ ops w ∧ written w = [(0, cancel 1); (0, cancel 2)].
Proof.
  do 2 eexists. split_and!.
  - apply steps_fn_sound. vm_compute. reflexivity.
  - reflexivity.
  - reflexivity.
  - set_solver.
  - set_solver.
  - reflexivity.
Qed.

(** ** Witnesses *)

Definition sample_world : world (list (string * string)) :=
  default (empty_world []) (steps_fn [connect_event; Push (cancel 1); Push (cancel 2)]
                              (init_world [])).

Lemma sample_reachable : reachable [] sample_world.
Proof.
  apply (steps_fn_reachable _ [connect_event; Push (cancel 1); Push (cancel 2)]).
  vm_compute. reflexivity.
Qed.

Definition sample_handler : handler :=
  {| incoming_ := EvNotSet; state_ := READING; write_queue_ := [cancel 2]; writing_ := true |}.

Lemma sample_lookup : heap sample_world !! 0 = Some sample_handler.
Proof. vm_compute. reflexivity. Qed.

Lemma outstanding_discipline_witness : occ (OpRead 0) (ops sample_world) = 1.
Proof.
  exact (proj1 (proj2 (outstanding_discipline [] sample_world 0 sample_handler
                         sample_reachable sample_lookup))).
Defined.

Lemma events_return_witness :
  fst (run_event (Complete (OpWrite 0) true EvNotSet) sample_world) = Ret tt.
Proof.
  apply (events_return [] sample_world).
  - apply sample_reachable.
  - split; [by apply (bool_decide_unpack _); vm_compute|].
    intros _. exists sample_handler. apply sample_lookup.
  - exact I.
Defined.

Lemma fifo_delivery_witness :
  ∃ segs : list (addr * list GatewayCommand),
    pushed [connect_event; Push (cancel 1); Push (cancel 2)] =
    concat segs.*2 ++ pending_commands_ sample_world.
Proof.
  destruct (fifo_delivery ([] : list (string * string))
              [connect_event; Push (cancel 1); Push (cancel 2)] sample_world)
    as (segs & _ & Hall & _).
  - apply steps_fn_sound. vm_compute. reflexivity.
  - exists segs. exact Hall.
Defined.

Lemma queue_drains_witness :
  ∃ (x' : handler) (w' : world (list (string * string))), heap w' !! 0 = Some x' ∧
    written_to 0 w' = written_to 0 sample_world ++ [cancel 2] ∧ write_queue_ x' = [].
Proof.
  destruct (queue_drains [] sample_world 0 sample_handler sample_reachable sample_lookup eq_refl)
    as (x' & w' & _ & Hx & Hw & Hq & _).
  exists x', w'. split_and!; [exact Hx|exact Hw|exact Hq].
Defined.

Lemma always_one_waiting_witness :
  ∃ h, ∀ a, (∃ x, heap sample_world !! a = Some x ∧ state_ x = ACCEPTING) ↔ a = h.
Proof.
  apply (always_one_waiting [] [connect_event; Push (cancel 1); Push (cancel 2)]).
  - apply steps_fn_sound. vm_compute. reflexivity.
  - repeat constructor.
Defined.

End StreamDelivery.
