(* ===== verification/StreamErase.v ===== *)
(** * The stream does not depend on its publisher *)

(** What the handlers do with commands and gRPC is the same whatever the
    [PublishFn] answers and remembers: [erase] forgets the publisher of a world,
    and every operation commutes with it. The composition of the stream with the
    MQTT client uses this to apply the theorems on [StreamSeq.steps] although the
    client also changes by itself between two operations of the stream. *)

From S2P Require Import Prelude Double Json Messages Stream StreamSeq.

(** A publisher that forgets everything. *)
#[export] Instance silent : Publisher unit := λ _ _ p, (None, p).

Module StreamErase.
Import VehicleStreamHandler StreamSeq.

Section erase.
Context `{JL : JsonLib} {P : Type} `{PB : Publisher P}.
Implicit Types (w : world P) (h : addr).

(** The world with another publisher. *)
Definition with_publisher {Q} (q : Q) w : world Q :=
  {| heap := heap w; next := next w; active_ := active_ w;
     pending_commands_ := pending_commands_ w; ops := ops w; written := written w;
     publisher := q |}.

Definition erase w : world unit := with_publisher tt w.

(** [m2] does on the erased world what [m1] does. *)
Definition erases {A} (m1 : M (world P) A) (m2 : M (world unit) A) : Prop :=
  ∀ w, m2 (erase w) = (fst (m1 w), erase (snd (m1 w))).

Lemma erases_ret {A} (a : A) : erases (mret a) (mret a).
Proof. done. Qed.

Lemma erases_undefined {A} : erases (A:=A) undefined undefined.
Proof. done. Qed.

Lemma erases_json {A} (o : option A) : erases (json_try o) (json_try o).
Proof. by destruct o. Qed.

Lemma erases_bind {A B} (m1 : M (world P) A) m2 (k1 : A → M (world P) B) k2 :
  erases m1 m2 → (∀ a, erases (k1 a) (k2 a)) → erases (m1 ≫= k1) (m2 ≫= k2).
Proof.
  intros Hm Hk w. rewrite !bind_unfold, Hm. destruct (m1 w) as [[a| |] w1]; cbn [fst snd].
  - apply Hk.
  - done.
  - done.
Qed.

(** Reading the world: the continuation must not look at the publisher. *)
Lemma erases_get {A} (k1 : world P → M (world P) A) (k2 : world unit → M (world unit) A) :
  (∀ w, erases (k1 w) (k2 (erase w))) → erases (get ≫= k1) (get ≫= k2).
Proof. intros Hk w. rewrite !bind_unfold. cbn [get]. apply Hk. Qed.

Lemma erases_gets {A} (f1 : world P → A) (f2 : world unit → A) :
  (∀ w, f2 (erase w) = f1 w) → erases (gets f1) (gets f2).
Proof. intros Hf w. unfold gets, modify. by rewrite Hf. Qed.

Lemma erases_modify (f1 : world P → world P) (f2 : world unit → world unit) :
  (∀ w, f2 (erase w) = erase (f1 w)) → erases (modify f1) (modify f2).
Proof. intros Hf w. unfold gets, modify. by rewrite Hf. Qed.

(** ** The operations *)

Lemma this_erases h : erases (this h) (this h).
Proof.
  apply erases_get. intros w. cbn [erase with_publisher heap].
  destruct (heap w !! h); [apply erases_ret|apply erases_undefined].
Qed.

Lemma update_erases h f : erases (update h f) (update h f).
Proof.
  apply erases_bind; [apply this_erases|intros x]. by apply erases_modify.
Qed.

Lemma delete_this_erases h : erases (delete_this h) (delete_this h).
Proof.
  apply erases_bind; [apply this_erases|intros _]. by apply erases_modify.
Qed.

Lemma start_op_erases o : erases (start_op o) (start_op o).
Proof. by apply erases_modify. Qed.

Lemma release_active_erases h : erases (release_active h) (release_active h).
Proof. apply erases_modify. intros w. cbn. by case_decide. Qed.

Lemma flush_erases h : erases (flush_write_queue_locked h) (flush_write_queue_locked h).
Proof.
  apply erases_bind; [apply this_erases|intros x].
  destruct (write_queue_ x) as [|front rest]; [apply erases_ret|].
  destruct (writing_ x); [apply erases_ret|].
  apply erases_bind; [apply update_erases|intros _].
  apply erases_bind; [apply start_op_erases|intros _].
  by apply erases_bind; [apply erases_modify|intros _; apply update_erases].
Qed.

Lemma enqueue_erases h c : erases (enqueue h c) (enqueue h c).
Proof.
  apply erases_bind; [apply update_erases|intros _].
  apply erases_bind; [apply this_erases|intros x].
  destruct (writing_ x); [apply erases_ret|apply flush_erases].
Qed.

Lemma on_write_done_erases h ok : erases (on_write_done h ok) (on_write_done h ok).
Proof.
  destruct ok; [|apply update_erases].
  apply erases_bind; [apply update_erases|intros _; apply flush_erases].
Qed.

Lemma push_erases c : erases (push_command c) (push_command c).
Proof.
  apply erases_get. intros w. cbn [erase with_publisher active_].
  destruct (active_ w); [apply enqueue_erases|by apply erases_modify].
Qed.

Lemma flush_loop_erases n h : erases (flush_loop n h) (flush_loop n h).
Proof.
  induction n as [|n IH]; [apply erases_ret|].
  apply erases_get. intros w. cbn [erase with_publisher pending_commands_].
  destruct (pending_commands_ w) as [|c cs]; [apply erases_ret|].
  apply erases_bind; [apply enqueue_erases|intros _].
  by apply erases_bind; [apply erases_modify|intros _].
Qed.

Lemma flush_pending_erases h : erases (flush_pending h) (flush_pending h).
Proof. apply erases_get. intros w. apply flush_loop_erases. Qed.

Lemma publish_fields_erases topic fs :
  erases (publish_fields topic fs) (publish_fields topic fs).
Proof.
  apply erases_bind; [apply erases_json|intros payload]. by apply erases_modify.
Qed.

Lemma handle_incoming_erases ev : erases (handle_incoming ev) (handle_incoming ev).
Proof. destruct ev; first [apply erases_ret|apply publish_fields_erases]. Qed.

Lemma new_handler_erases : erases new_VehicleStreamHandler new_VehicleStreamHandler.
Proof.
  apply erases_bind; [by apply erases_gets|intros h].
  apply erases_bind; [by apply erases_modify|intros _].
  apply erases_bind; [apply update_erases|intros _; apply start_op_erases].
Qed.

Lemma Proceed_erases h ok : erases (Proceed h ok) (Proceed h ok).
Proof.
  apply erases_bind; [apply this_erases|intros x].
  destruct (state_ x).
  - apply erases_bind; [apply update_erases|intros _; apply start_op_erases].
  - destruct ok; [|apply delete_this_erases].
    apply erases_bind; [apply new_handler_erases|intros _].
    apply erases_bind; [by apply erases_modify|intros _].
    apply erases_bind; [apply flush_pending_erases|intros _].
    apply erases_bind; [apply update_erases|intros _; apply start_op_erases].
  - destruct ok.
    + apply erases_bind; [apply handle_incoming_erases|intros _; apply start_op_erases].
    + apply erases_bind; [apply release_active_erases|intros _].
      apply erases_bind; [apply update_erases|intros _; apply start_op_erases].
  - apply erases_bind; [apply release_active_erases|intros _; apply delete_this_erases].
Qed.

Lemma complete_erases o ok ev : erases (complete o ok ev) (complete o ok ev).
Proof.
  apply erases_bind; [by apply erases_modify|intros _].
  destruct o; [apply Proceed_erases| |apply Proceed_erases|apply on_write_done_erases].
  apply erases_bind; [|intros _; apply Proceed_erases].
  destruct ok; [apply update_erases|apply erases_ret].
Qed.

Lemma run_event_erases e : erases (run_event e) (run_event e).
Proof. destruct e; [apply push_erases|apply complete_erases]. Qed.

(** ** What the operations do to the publisher *)

(** What [publish] keeps, every completion keeps: the stream touches its publisher
    in no other way. *)
Section publishing.
Context (I : P → Prop) (HI : ∀ t s p, I p → I (snd (publish t s p))).

Abbreviation keeps m := (preserves (λ w, I (publisher w)) m).

Lemma publisher_this h : keeps (this (P:=P) h).
Proof.
  apply preserves_bind; [apply preserves_get|intros w].
  destruct (heap w !! h); [apply preserves_ret|apply preserves_undefined].
Qed.

Lemma publisher_update h f : keeps (update (P:=P) h f).
Proof. apply preserves_bind; [apply publisher_this|intros x]. by apply preserves_modify. Qed.

Lemma publisher_delete h : keeps (delete_this (P:=P) h).
Proof. apply preserves_bind; [apply publisher_this|intros x]. by apply preserves_modify. Qed.

Lemma publisher_start o : keeps (start_op (P:=P) o).
Proof. by apply preserves_modify. Qed.

Lemma publisher_release h : keeps (release_active (P:=P) h).
Proof. apply preserves_modify. intros w Hw. by case_decide. Qed.

Lemma publisher_flush h : keeps (flush_write_queue_locked (P:=P) h).
Proof.
  apply preserves_bind; [apply publisher_this|intros x].
  destruct (write_queue_ x) as [|front rest]; [apply preserves_ret|].
  destruct (writing_ x); [apply preserves_ret|].
  apply preserves_bind; [apply publisher_update|intros _].
  apply preserves_bind; [apply publisher_start|intros _].
  apply preserves_bind; [by apply preserves_modify|intros _; apply publisher_update].
Qed.

Lemma publisher_enqueue h c : keeps (enqueue (P:=P) h c).
Proof.
  apply preserves_bind; [apply publisher_update|intros _].
  apply preserves_bind; [apply publisher_this|intros x].
  destruct (writing_ x); [apply preserves_ret|apply publisher_flush].
Qed.

Lemma publisher_flush_pending h : keeps (flush_pending (P:=P) h).
Proof.
  apply preserves_bind; [apply preserves_get|intros w].
  generalize (length (pending_commands_ w)) as n. induction n as [|n IH]; [apply preserves_ret|].
  apply preserves_bind; [apply preserves_get|intros w'].
  destruct (pending_commands_ w'); [apply preserves_ret|].
  apply preserves_bind; [apply publisher_enqueue|intros _].
  apply preserves_bind; [by apply preserves_modify|by intros _].
Qed.

Lemma publisher_incoming ev : keeps (handle_incoming (P:=P) ev).
Proof.
  assert (Hpub : ∀ t fs, keeps (publish_fields (P:=P) t fs)).
  { intros t fs. apply preserves_bind; [apply preserves_json|intros payload].
    apply preserves_modify. intros w. apply HI. }
  destruct ev; first [apply preserves_ret|apply Hpub].
Qed.

Lemma publisher_create : keeps (new_VehicleStreamHandler (P:=P)).
Proof.
  apply preserves_bind; [by intros w|intros h].
  apply preserves_bind; [by apply preserves_modify|intros _].
  apply preserves_bind; [apply publisher_update|intros _; apply publisher_start].
Qed.

Lemma publisher_Proceed h ok : keeps (Proceed (P:=P) h ok).
Proof.
  apply preserves_bind; [apply publisher_this|intros x]. destruct (state_ x).
  - apply preserves_bind; [apply publisher_update|intros _; apply publisher_start].
  - destruct ok; [|apply publisher_delete].
    apply preserves_bind; [apply publisher_create|intros _].
    apply preserves_bind; [by apply preserves_modify|intros _].
    apply preserves_bind; [apply publisher_flush_pending|intros _].
    apply preserves_bind; [apply publisher_update|intros _; apply publisher_start].
  - destruct ok.
    + apply preserves_bind; [apply publisher_incoming|intros _; apply publisher_start].
    + apply preserves_bind; [apply publisher_release|intros _].
      apply preserves_bind; [apply publisher_update|intros _; apply publisher_start].
  - apply preserves_bind; [apply publisher_release|intros _; apply publisher_delete].
Qed.

Lemma complete_keeps o ok ev : keeps (complete (P:=P) o ok ev).
Proof.
  apply preserves_bind; [by apply preserves_modify|intros _].
  destruct o as [h|h|h|h]; try apply publisher_Proceed.
  - apply preserves_bind; [|intros _; apply publisher_Proceed].
    destruct ok; [apply publisher_update|apply preserves_ret].
  - destruct ok; [|apply publisher_update].
    apply preserves_bind; [apply publisher_update|intros _; apply publisher_flush].
Qed.

End publishing.

(** ** Executions *)

Lemma erase_init (p : P) : erase (init_world p) = init_world tt.
Proof.
  unfold init_world, exec. pose proof (new_handler_erases (empty_world p)) as He.
  change (erase (empty_world p)) with (empty_world tt) in He. by rewrite He.
Qed.

(** A step on any publisher is a step of the erased world. *)
Lemma step_erases w e w' : step w e w' → step (erase w) e (erase w').
Proof.
  intros [Hpos Hrun]. split; [by destruct e|]. by rewrite run_event_erases, Hrun.
Qed.

End erase.

End StreamErase.
