(* ===== verification/StreamConc.v ===== *)
(** * Interleavings of the MQTT thread and the completion queue's thread *)

(** [push_command] runs on the MQTT client's io thread, every completion on the
    gRPC completion queue's thread. The steps below are the accesses the two
    threads can interleave: the atomic [active_], the critical sections of
    [mu_] (each [enqueue] and [on_write_done]) and those of [pending_mu_]
    ([push_command]'s push; the loop of [flush_pending], which takes [mu_] once
    per command). Everything else a completion touches belongs to the
    completion queue's thread, and is one step with the shared access next to
    it. *)

From S2P Require Import Prelude Double Json JsonModel Messages.
From S2P Require Import Stream StreamSeq StreamDelivery.
Import VehicleStreamHandler StreamSeq StreamDelivery.

Module StreamConc.

(** Where the completion queue's thread is: between completions, past
    [active_.store(this)] and before [pending_mu_], or in the loop of
    [flush_pending], holding [pending_mu_]. *)
Inductive cq_pc : Type :=
| CqIdle
| CqActivated (h : addr)
| CqFlushing (h : addr).

(** Where the io thread is: not pushing, or past [active_.load()]. *)
Inductive io_pc : Type :=
| IoIdle
| IoLoaded (c : GatewayCommand) (a : option addr).

#[export] Instance cq_pc_eq_dec : EqDecision cq_pc.
Proof. solve_decision. Defined.
#[export] Instance io_pc_eq_dec : EqDecision io_pc.
Proof. solve_decision. Defined.

Section conc.
Context `{JL : JsonLib} {P : Type} `{PB : Publisher P}.

Record config : Type := { cw : world P; cq : cq_pc; io : io_pc }.

(** [Proceed] in state [ACCEPTING], up to [active_.store(this)]. *)
Definition connect_begin (h : addr) : M (world P) unit :=
  modify (completed (OpRequest h)) ;;
  x ← this h;
  match state_ x with
  | ACCEPTING => new_VehicleStreamHandler ;; modify (set_active (Some h))
  | _ => undefined
  end.

(** One turn of the loop of [flush_pending]. *)
Definition flush_one (h : addr) (c : GatewayCommand) : M (world P) unit :=
  enqueue h c ;; modify (λ w, set_pending (tail (pending_commands_ w)) w).

(** The rest of [Proceed] in state [ACCEPTING]. *)
Definition connect_end (h : addr) : M (world P) unit :=
  update h (set_state READING) ;; start_op (OpRead h).

(** The completion of a connection request is the only one that is not a single
    step. *)
Definition is_connect (o : op) (ok : bool) : bool :=
  match o with OpRequest _ => ok | _ => false end.

(** The steps of both threads; the label lists the command whose push begins. *)
Inductive cstep (s : config) : list GatewayCommand → config → Prop :=
| cq_complete o ok ev w' :
    cq s = CqIdle → o ∈ ops (cw s) → is_connect o ok = false →
    complete o ok ev (cw s) = (Ret tt, w') →
    cstep s [] {| cw := w'; cq := CqIdle; io := io s |}
| cq_connect h w' :
    cq s = CqIdle → OpRequest h ∈ ops (cw s) →
    connect_begin h (cw s) = (Ret tt, w') →
    cstep s [] {| cw := w'; cq := CqActivated h; io := io s |}
| cq_lock h :
    cq s = CqActivated h →
    cstep s [] {| cw := cw s; cq := CqFlushing h; io := io s |}
| cq_flush h c cs w' :
    cq s = CqFlushing h → pending_commands_ (cw s) = c :: cs →
    flush_one h c (cw s) = (Ret tt, w') →
    cstep s [] {| cw := w'; cq := CqFlushing h; io := io s |}
| cq_unlock h w' :
    cq s = CqFlushing h → pending_commands_ (cw s) = [] →
    connect_end h (cw s) = (Ret tt, w') →
    cstep s [] {| cw := w'; cq := CqIdle; io := io s |}
| io_load c :
    io s = IoIdle →
    cstep s [c] {| cw := cw s; cq := cq s; io := IoLoaded c (active_ (cw s)) |}
| io_pend c :
    io s = IoLoaded c None → (∀ h, cq s ≠ CqFlushing h) →
    cstep s [] {| cw := set_pending (pending_commands_ (cw s) ++ [c]) (cw s);
                  cq := cq s; io := IoIdle |}
| io_enqueue c h w' :
    io s = IoLoaded c (Some h) →
    enqueue h c (cw s) = (Ret tt, w') →
    cstep s [] {| cw := w'; cq := cq s; io := IoIdle |}.

(** Executions, with the commands pushed by them. *)
Inductive csteps (s : config) : list GatewayCommand → config → Prop :=
| csteps_nil : csteps s [] s
| csteps_snoc cs s' l s'' : csteps s cs s' → cstep s' l s'' → csteps s (cs ++ l) s''.

Definition init_config (p : P) : config :=
  {| cw := init_world p; cq := CqIdle; io := IoIdle |}.

(** The io thread's next access is to a deleted handler. *)
Definition io_undefined (s : config) : Prop :=
  ∃ c h, io s = IoLoaded c (Some h) ∧ fst (enqueue h c (cw s)) = UB.

(** The commands held by the system: handed to a stream, queued on a live
    handler, pending, or carried by a push in progress. *)
Definition queues (m : gmap addr handler) : list GatewayCommand :=
  concat ((λ hx : addr * handler, write_queue_ hx.2) <$> map_to_list m).

Definition content (w : world P) : list GatewayCommand :=
  (written w).*2 ++ queues (heap w) ++ pending_commands_ w.

(** The commands the handlers deleted from [w] to [w'] had queued. *)
Definition dropped (w w' : world P) : list GatewayCommand := queues (heap w ∖ heap w').

Definition in_flight (i : io_pc) : list GatewayCommand :=
  match i with IoIdle => [] | IoLoaded c _ => [c] end.

(** The gRPC rule on writes. *)
Record writes_ok (w : world P) : Prop := {
  wo_live h x : heap w !! h = Some x → occ (OpWrite h) (ops w) = Nat.b2n (writing_ x);
  wo_heap h x : heap w !! h = Some x → h < next w;
  wo_ops o : o ∈ ops w → op_addr o < next w
}.

End conc.

Arguments config : clear implicits.

(** ** Each operation keeps the rule on writes *)

Section writes.
Context `{JL : JsonLib} {P : Type} `{PB : Publisher P}.
Implicit Types (w : world P) (x : handler) (h : addr).

(** [m] keeps the rule, whatever its outcome. *)
Definition keeps {A} (m : M (world P) A) : Prop :=
  ∀ w, writes_ok w → writes_ok (exec m w).

Lemma keeps_bind {A B} (m : M (world P) A) (k : A → M (world P) B) :
  keeps m → (∀ a, keeps (k a)) → keeps (m ≫= k).
Proof.
  intros Hm Hk w Hw. unfold exec. rewrite bind_unfold.
  specialize (Hm w Hw). unfold exec in Hm.
  destruct (m w) as [[a|e|] w']; simpl in *; [by apply Hk|done|done].
Qed.

Lemma keeps_ret {A} (a : A) : keeps (mret a).
Proof. by intros w Hw. Qed.

Lemma keeps_this h : keeps (this h).
Proof.
  intros w Hw. unfold exec. destruct (heap w !! h) eqn:Hx.
  - by rewrite (this_run _ _ _ Hx).
  - by rewrite (this_dangling _ _ Hx).
Qed.

(** A change of the world the rule does not look at. *)
Lemma keeps_modify (f : world P → world P) :
  (∀ w, heap (f w) = heap w ∧ next (f w) = next w ∧ ops (f w) = ops w) → keeps (modify f).
Proof.
  intros Hf w [Hl Hh Ho]. unfold exec. simpl. destruct (Hf w) as (Hheap & Hn & Hops).
  split; intros *; rewrite ?Hheap, ?Hn, ?Hops; eauto.
Qed.

Lemma keeps_update h f :
  (∀ x, writing_ (f x) = writing_ x) → keeps (update h f).
Proof.
  intros Hf w [Hl Hh Ho]. unfold exec. destruct (heap w !! h) as [x|] eqn:Hx.
  - rewrite (update_run _ _ _ _ Hx). split; simpl; [..|done];
      intros a y [[<- <-]|[_ Hy]]%lookup_insert_Some; rewrite ?Hf; eauto.
  - unfold update. rewrite bind_unfold, (this_dangling _ _ Hx). by split.
Qed.

Lemma keeps_delete h : keeps (delete_this h).
Proof.
  intros w [Hl Hh Ho]. unfold exec. destruct (heap w !! h) as [x|] eqn:Hx.
  - rewrite (delete_this_run _ _ _ Hx). split; simpl; [..|done];
      intros a y [_ Hy]%lookup_delete_Some; eauto.
  - unfold delete_this. rewrite bind_unfold, (this_dangling _ _ Hx). by split.
Qed.

(** Starting an operation of a live handler that is not a write. *)
Lemma keeps_start o w :
  is_write o = false → op_addr o < next w → writes_ok w → writes_ok (exec (start_op o) w).
Proof.
  intros Ho Hb [Hl Hh Hops]. split; simpl; [|done|].
  - intros h x Hx. rewrite occ_app, occ_single, decide_False by (by intros <-).
    rewrite (Hl _ _ Hx). lia.
  - intros o' [?| ->%list_elem_of_singleton]%elem_of_app; eauto.
Qed.

Lemma delivered_writes_ok h x x' cs ms w w' :
  heap w !! h = Some x → delivered h x x' cs ms w w' → writes_ok w → writes_ok w'.
Proof.
  intros Hx Hd [Hl Hh Ho]. split.
  - intros a y. rewrite (delivered_lookup _ _ _ _ _ _ _ _ Hd).
    rewrite (d_ops _ _ _ _ _ _ _ Hd), occ_app, occ_replicate. case_decide as Ha.
    + intros [= <-]. subst a. rewrite decide_True by done. rewrite (Hl _ _ Hx).
      pose proof (d_writing _ _ _ _ _ _ _ Hd). lia.
    + intros Hy. rewrite decide_False by congruence. rewrite (Hl _ _ Hy). lia.
  - intros a y. rewrite (delivered_lookup _ _ _ _ _ _ _ _ Hd), (d_next _ _ _ _ _ _ _ Hd).
    case_decide; [subst; eauto|eauto].
  - intros o Hin. rewrite (d_next _ _ _ _ _ _ _ Hd).
    apply (delivered_elem_ops _ _ _ _ _ _ _ _ Hd) in Hin as [Hin| ->]; eauto.
Qed.

Lemma keeps_enqueue h c : keeps (enqueue h c).
Proof.
  intros w Hw. unfold exec. destruct (heap w !! h) as [x|] eqn:Hx.
  - destruct (enqueue_run h c w x Hx) as (x' & ms & w' & -> & Hd & _).
    by eapply delivered_writes_ok.
  - unfold enqueue, update. by rewrite !bind_unfold, (this_dangling _ _ Hx).
Qed.

Lemma keeps_new : keeps new_VehicleStreamHandler.
Proof.
  intros w [Hl Hh Ho]. unfold exec. rewrite new_handler_run. split; simpl.
  - intros a y [[<- <-]|[Hne Hy]]%lookup_insert_Some; rewrite occ_app, occ_single, decide_False by done.
    + rewrite occ_zero; [done|]. intros Hin%Ho. simpl in Hin. lia.
    + rewrite (Hl _ _ Hy). lia.
  - intros a y [[<- _]|[_ Hy%Hh]]%lookup_insert_Some; lia.
  - intros o [Hin%Ho| ->%list_elem_of_singleton]%elem_of_app; simpl; lia.
Qed.

Lemma keeps_handle_incoming ev : keeps (handle_incoming ev).
Proof.
  intros w Hw. unfold exec. destruct (handle_incoming_run ev w) as (r & p & -> & _).
  by destruct Hw; split.
Qed.

(** Moving a live handler on and starting its next operation. *)
Lemma keeps_move h s o :
  is_write o = false → op_addr o = h → keeps (update h (set_state s) ;; start_op o).
Proof.
  intros Ho Hh w Hw. destruct (heap w !! h) as [x|] eqn:Hx.
  - unfold exec. rewrite (bind_run _ _ _ _ _ (update_run h _ w x Hx)).
    apply keeps_start; [done| |].
    + simpl. rewrite Hh. by apply (wo_heap _ Hw _ x).
    + pose proof (keeps_update h (set_state s) (λ _, eq_refl) w Hw) as Hk.
      unfold exec in Hk. by rewrite (update_run h _ w x Hx) in Hk.
  - unfold exec, update. by rewrite !bind_unfold, (this_dangling _ _ Hx).
Qed.

Lemma completed_writes_ok w o :
  is_write o = false → o ∈ ops w → writes_ok w → writes_ok (completed o w).
Proof.
  intros Ho Hin [Hl Hh Hops]. split; simpl; [|done|].
  - intros h x Hx. rewrite occ_remove, decide_False by (done || by intros <-).
    rewrite (Hl _ _ Hx). lia.
  - intros o' ?%elem_of_remove_one. eauto.
Qed.

Lemma release_keeps h : keeps (release_active h).
Proof. apply keeps_modify. intros w. by case_decide. Qed.

(** After a successful read the next one is started on a live handler. *)
Lemma keeps_read h ev w x :
  heap w !! h = Some x → writes_ok w →
  writes_ok (exec (handle_incoming ev ;; start_op (OpRead h)) w).
Proof.
  intros Hx Hw. unfold exec. rewrite bind_unfold.
  pose proof (keeps_handle_incoming ev w Hw) as Hk. unfold exec in Hk.
  destruct (handle_incoming_run ev w) as (r & p & Hrun & _). rewrite Hrun in *. simpl in *.
  destruct r; [|done|done]. apply keeps_start; [done| |done]. simpl.
  by apply (wo_heap _ Hw _ x).
Qed.

Lemma keeps_flush_loop n h : keeps (flush_loop n h).
Proof.
  induction n as [|n IH]; [apply keeps_ret|]. intros w Hw. unfold exec. cbn [flush_loop].
  rewrite bind_unfold. simpl. destruct (pending_commands_ w) as [|c cs]; [done|].
  revert w Hw. apply keeps_bind; [apply keeps_enqueue|intros _].
  apply keeps_bind; [by apply keeps_modify|done].
Qed.

Lemma keeps_connect_end h : keeps (connect_end h).
Proof. by apply keeps_move. Qed.

Lemma keeps_Proceed h ok : keeps (Proceed h ok).
Proof.
  intros w Hw. destruct (heap w !! h) as [x|] eqn:Hx.
  - unfold exec, Proceed. rewrite (bind_run _ _ _ _ _ (this_run h w x Hx)).
    destruct (state_ x); [| destruct ok | destruct ok |].
    + by apply keeps_move.
    + revert w Hx Hw. intros w _. revert w. apply keeps_bind; [apply keeps_new|intros _].
      apply keeps_bind; [by apply keeps_modify|intros _].
      apply keeps_bind; [|intros _; apply keeps_connect_end].
      intros w Hw. unfold exec, flush_pending. rewrite bind_unfold. by apply keeps_flush_loop.
    + by apply keeps_delete.
    + by apply (keeps_read h (incoming_ x) w x).
    + revert w Hx Hw. intros w _. revert w. apply keeps_bind; [apply release_keeps|intros _].
      by apply keeps_move.
    + revert w Hx Hw. intros w _. revert w. apply keeps_bind; [apply release_keeps|intros _].
      apply keeps_delete.
  - unfold exec, Proceed. by rewrite bind_unfold, (this_dangling _ _ Hx).
Qed.

Lemma complete_writes_ok w o ok ev :
  o ∈ ops w → writes_ok w → writes_ok (exec (complete o ok ev) w).
Proof.
  intros Hin Hw. unfold exec, complete. rewrite bind_unfold. simpl. fold (completed o w).
  destruct o as [h|h|h|h].
  1, 3: by apply keeps_Proceed, completed_writes_ok.
  - apply (completed_writes_ok w (OpRead h) eq_refl Hin) in Hw. revert Hw.
    generalize (completed (OpRead h) w). apply keeps_bind; [|intros _; apply keeps_Proceed].
    destruct ok; [by apply keeps_update|apply keeps_ret].
  - destruct (heap w !! h) as [x|] eqn:Hx.
    + destruct (on_write_done_run h ok (completed (OpWrite h) w) x Hx)
        as (x' & ms & w' & Hrun & Hd & _). rewrite Hrun. simpl.
      set (w1 := set_heap (insert h (set_writing false x)) (completed (OpWrite h) w)).
      apply (delivered_writes_ok h (set_writing false x) x' [] ms w1).
      * apply lookup_insert_eq.
      * destruct Hd; split; simpl in *; try done. by rewrite insert_insert_eq.
      * destruct Hw as [Hl Hh Ho]. pose proof (occ_pos _ _ Hin) as Hpos.
        split; simpl; intros *.
        -- intros [[<- <-]|[Hne Hy]]%lookup_insert_Some; rewrite occ_remove by done.
           ++ rewrite (Hl _ _ Hx) in Hpos |- *. rewrite decide_True by done. simpl.
              destruct (writing_ x); simpl in *; lia.
           ++ rewrite decide_False by congruence. rewrite (Hl _ _ Hy). lia.
        -- intros [[<- <-]|[Hne Hy]]%lookup_insert_Some; eauto.
        -- intros ?%elem_of_remove_one. eauto.
    + assert (Hsame : snd (on_write_done h ok (completed (OpWrite h) w)) = completed (OpWrite h) w).
      { unfold on_write_done, update.
        destruct ok; by rewrite !bind_unfold, (this_dangling h (completed (OpWrite h) w) Hx). }
      rewrite Hsame. destruct Hw as [Hl Hh Ho]. split; simpl; [|done|].
      * intros a y Hy. rewrite occ_remove, decide_False by congruence. rewrite (Hl _ _ Hy). lia.
      * intros o ?%elem_of_remove_one. eauto.
Qed.

Lemma keeps_connect_begin h w :
  OpRequest h ∈ ops w → writes_ok w → writes_ok (exec (connect_begin h) w).
Proof.
  intros Hin Hw. unfold exec, connect_begin. rewrite bind_unfold. simpl.
  apply (completed_writes_ok w (OpRequest h) eq_refl Hin) in Hw. revert Hw.
  generalize (completed (OpRequest h) w).
  apply keeps_bind; [apply keeps_this|intros x].
  destruct (state_ x); try (by intros w' Hw').
  apply keeps_bind; [apply keeps_new|intros _]. by apply keeps_modify.
Qed.

Lemma cstep_writes_ok (s : config P) l s' : cstep s l s' → writes_ok (cw s) → writes_ok (cw s').
Proof.
  intros Hst Hw. destruct Hst as [o ok ev w' _ Hin _ Hrun|h w' _ Hin Hrun|h _|h c cs w' _ _ Hrun
    |h w' _ _ Hrun|c _|c _ _|c h w' _ Hrun]; simpl; try done;
    try (rewrite <- (exec_ret _ _ _ _ Hrun)).
  - by apply complete_writes_ok.
  - by apply keeps_connect_begin.
  - revert Hw. generalize (cw s). unfold flush_one.
    apply keeps_bind; [apply keeps_enqueue|intros _]. by apply keeps_modify.
  - by apply keeps_connect_end.
  - by destruct Hw; split.
  - by apply keeps_enqueue.
Qed.

End writes.

(** ** Nothing is duplicated, and only a deletion loses commands *)

Section conservation.
Context `{JL : JsonLib} {P : Type} `{PB : Publisher P}.
Implicit Types (w : world P) (x : handler) (h : addr).

(** From [w] to [w'] the content is kept, and every handler. *)
Definition moves (w w' : world P) : Prop :=
  content w ≡ₚ content w' ∧ ∀ a, is_Some (heap w !! a) → is_Some (heap w' !! a).

Definition conserves {A} (m : M (world P) A) : Prop :=
  ∀ w, writes_ok w → moves w (exec m w).

(** From [w] to [w'] the content is kept, but for what deleted handlers held. *)
Definition loses (w w' : world P) : Prop := content w ≡ₚ content w' ++ dropped w w'.

Lemma moves_trans w w' w'' : moves w w' → moves w' w'' → moves w w''.
Proof. intros [H1 K1] [H2 K2]. split; [by rewrite H1|auto]. Qed.

Lemma moves_refl w : moves w w.
Proof. by split. Qed.

Lemma dropped_none w w' : (∀ a, is_Some (heap w !! a) → is_Some (heap w' !! a)) → dropped w w' = [].
Proof.
  intros Hk. unfold dropped.
  assert (heap w ∖ heap w' = ∅) as ->; [|done]. apply map_eq. intros a.
  rewrite lookup_empty, lookup_difference. destruct (heap w' !! a) eqn:Ha; [done|].
  destruct (heap w !! a) eqn:Hx; [|done]. destruct (Hk a ltac:(by eexists)). congruence.
Qed.

Lemma moves_loses w w' : moves w w' → loses w w'.
Proof. intros [Hc Hk]. unfold loses. by rewrite dropped_none, app_nil_r. Qed.

(** What is dropped depends on the queues alone. *)
Lemma queues_fmap (m m' : gmap addr handler) :
  write_queue_ <$> m = write_queue_ <$> m' → queues m ≡ₚ queues m'.
Proof.
  intros Hm. unfold queues.
  assert (Hq : ∀ m0 : gmap addr handler, (λ hx : addr * handler, write_queue_ hx.2) <$> map_to_list m0
    ≡ₚ snd <$> map_to_list (write_queue_ <$> m0)).
  { intros m0. rewrite map_to_list_fmap, <- list_fmap_compose. done. }
  by rewrite !Hq, Hm.
Qed.

(** A step that changes nothing the accounts look at. *)
Definition same_queues (w w' : world P) : Prop :=
  written w' = written w ∧ pending_commands_ w' = pending_commands_ w ∧
  write_queue_ <$> heap w' = write_queue_ <$> heap w.

Lemma same_moves w w' : same_queues w w' → moves w w'.
Proof.
  intros (Hw & Hp & Hq). split.
  - unfold content. rewrite Hw, Hp. by rewrite (queues_fmap _ _ Hq).
  - intros a [x Hx]. apply (f_equal (lookup a)) in Hq. rewrite !lookup_fmap, Hx in Hq.
    destruct (heap w' !! a); [by eexists|done].
Qed.

Lemma same_loses w w' w'' : same_queues w w' → loses w' w'' → loses w w''.
Proof.
  intros Hs Hl. pose proof (same_moves _ _ Hs) as [Hc _]. destruct Hs as (_ & _ & Hq).
  unfold loses in *. rewrite Hc, Hl. f_equiv. apply queues_fmap, map_eq. intros a.
  apply (f_equal (lookup a)) in Hq. rewrite !lookup_fmap in *. rewrite !lookup_difference.
  by destruct (heap w'' !! a).
Qed.

Lemma conserves_bind {A B} (m : M (world P) A) (k : A → M (world P) B) :
  keeps m → conserves m → (∀ a, conserves (k a)) → conserves (m ≫= k).
Proof.
  intros Hkm Hm Hk w Hw. specialize (Hm w Hw). specialize (Hkm w Hw). unfold exec in *.
  rewrite bind_unfold. destruct (m w) as [[a|e|] w']; simpl in *; [|done|done].
  eapply moves_trans; [done|by apply Hk].
Qed.

Lemma queues_split (m : gmap addr handler) h x :
  m !! h = Some x → queues m ≡ₚ write_queue_ x ++ queues (delete h m).
Proof.
  intros Hx. unfold queues. rewrite <- (map_to_list_delete m h x Hx). done.
Qed.

Lemma queues_insert (m : gmap addr handler) h x :
  queues (<[h := x]> m) ≡ₚ write_queue_ x ++ queues (delete h m).
Proof. rewrite (queues_split _ h x); [by rewrite delete_insert_eq|apply lookup_insert_eq]. Qed.

(** Delivering stores [cs] and nothing else. *)
Lemma delivered_content h x x' cs ms w w' :
  heap w !! h = Some x → delivered h x x' cs ms w w' →
  (written w').*2 ++ queues (heap w') ≡ₚ (written w).*2 ++ queues (heap w) ++ cs.
Proof.
  intros Hx Hd. rewrite (d_written _ _ _ _ _ _ _ Hd), (d_heap _ _ _ _ _ _ _ Hd).
  rewrite queues_insert, (queues_split _ _ _ Hx), fmap_app, <- list_fmap_compose.
  assert (Hms : (snd ∘ pair h <$> ms) = ms) by (by rewrite list_fmap_id || apply list_fmap_id).
  rewrite Hms, <- !(assoc_L (++)), (assoc_L (++) ms), (d_fifo _ _ _ _ _ _ _ Hd).
  rewrite <- (assoc_L (++)). do 2 f_equiv. apply Permutation_app_comm.
Qed.

Lemma delivered_keeps h x x' cs ms w w' a :
  heap w !! h = Some x → delivered h x x' cs ms w w' →
  is_Some (heap w !! a) → is_Some (heap w' !! a).
Proof.
  intros Hx Hd Ha. rewrite (delivered_lookup _ _ _ _ _ _ _ _ Hd). by case_decide; [eexists|].
Qed.

(** [push_command]'s enqueue adds its command when the handler is alive. *)
Lemma enqueue_content h c w w' :
  enqueue h c w = (Ret tt, w') →
  content w' ≡ₚ content w ++ [c] ∧ (∀ a, is_Some (heap w !! a) → is_Some (heap w' !! a)) ∧
  pending_commands_ w' = pending_commands_ w.
Proof.
  intros Hrun. destruct (heap w !! h) as [x|] eqn:Hx.
  - destruct (enqueue_run h c w x Hx) as (x' & ms & w1 & Hrun' & Hd & Hp & _).
    rewrite Hrun in Hrun'. injection Hrun' as <-. split_and!; [| |done].
    + unfold content. rewrite Hp, (assoc_L (++)), (delivered_content _ _ _ _ _ _ _ Hx Hd).
      rewrite <- !(assoc_L (++)). do 2 f_equiv. apply Permutation_app_comm.
    + intros a. by eapply delivered_keeps.
  - unfold enqueue, update in Hrun. rewrite !bind_unfold, (this_dangling _ _ Hx) in Hrun. done.
Qed.

Lemma same_modify (f : world P → world P) w :
  heap (f w) = heap w → written (f w) = written w →
  pending_commands_ (f w) = pending_commands_ w → same_queues w (exec (modify f) w).
Proof. intros Hh Hw Hp. unfold same_queues, exec. simpl. by rewrite Hh, Hw, Hp. Qed.

Lemma same_update h f w :
  (∀ x, write_queue_ (f x) = write_queue_ x) → same_queues w (exec (update h f) w).
Proof.
  intros Hf. unfold exec. destruct (heap w !! h) as [x|] eqn:Hx.
  - rewrite (update_run _ _ _ _ Hx). split_and!; [done..|]. simpl.
    rewrite fmap_insert, Hf. apply insert_id. by rewrite lookup_fmap, Hx.
  - unfold update. by rewrite bind_unfold, (this_dangling _ _ Hx).
Qed.

Lemma conserves_modify (f : world P → world P) :
  (∀ w, heap (f w) = heap w ∧ written (f w) = written w ∧
        pending_commands_ (f w) = pending_commands_ w) → conserves (modify f).
Proof. intros Hf w _. destruct (Hf w) as (Hh & Hwr & Hp). by apply same_moves, same_modify. Qed.

Lemma conserves_update h f :
  (∀ x, write_queue_ (f x) = write_queue_ x) → conserves (update h f).
Proof. intros Hf w _. by apply same_moves, same_update. Qed.

Lemma conserves_ret {A} (a : A) : conserves (mret a).
Proof. intros w _. apply moves_refl. Qed.

(** Only a deletion drops commands: those queued on the handler. *)
Lemma delete_loses h w : loses w (exec (delete_this h) w).
Proof.
  unfold exec. destruct (heap w !! h) as [x|] eqn:Hx.
  - rewrite (delete_this_run _ _ _ Hx). unfold loses, dropped. simpl.
    assert (heap w ∖ delete h (heap w) = {[ h := x ]}) as ->.
    { apply map_eq. intros a. rewrite lookup_difference. destruct (decide (a = h)) as [->|Hne].
      - by rewrite lookup_delete_eq, Hx, lookup_singleton_eq.
      - rewrite lookup_delete_ne, lookup_singleton_ne by done. by destruct (heap w !! a). }
    unfold content. simpl. rewrite (queues_split _ _ _ Hx), <- !(assoc_L (++)).
    f_equiv. rewrite (assoc_L (++) (queues _)), Permutation_app_comm. f_equiv.
    unfold queues. rewrite map_to_list_singleton. cbn. by rewrite app_nil_r.
  - unfold delete_this. rewrite bind_unfold, (this_dangling _ _ Hx). apply moves_loses, moves_refl.
Qed.

Lemma conserves_new : conserves new_VehicleStreamHandler.
Proof.
  intros w Hw. unfold exec. rewrite new_handler_run. split; simpl.
  - unfold content. simpl. rewrite queues_insert. simpl. rewrite delete_id; [done|].
    destruct (heap w !! next w) eqn:Hx; [|done]. apply (wo_heap _ Hw) in Hx. lia.
  - intros a Ha. apply lookup_insert_is_Some'. by right.
Qed.

Lemma conserves_handle_incoming ev : conserves (handle_incoming ev).
Proof.
  intros w _. unfold exec. by destruct (handle_incoming_run ev w) as (r & p & -> & _).
Qed.

Lemma conserves_move h s o :
  conserves (update h (set_state s) ;; start_op o).
Proof.
  apply conserves_bind; [by apply keeps_update|by apply conserves_update|intros _].
  by apply conserves_modify.
Qed.

Lemma delivered_moves h x x' ms w w' :
  heap w !! h = Some x → delivered h x x' (pending_commands_ w) ms w w' →
  pending_commands_ w' = [] → moves w w'.
Proof.
  intros Hx Hd Hp. split; [|intros a; by eapply delivered_keeps].
  unfold content. rewrite Hp, app_nil_r, (delivered_content _ _ _ _ _ _ _ Hx Hd). done.
Qed.

Lemma conserves_flush_pending h : conserves (flush_pending h).
Proof.
  intros w Hw. destruct (heap w !! h) as [x|] eqn:Hx; unfold exec.
  - destruct (flush_pending_run h w x Hx) as (x' & ms & w' & -> & Hd & Hp).
    by eapply delivered_moves.
  - unfold flush_pending. rewrite bind_unfold. simpl.
    destruct (pending_commands_ w) as [|c cs] eqn:Hp; [apply moves_refl|]. simpl.
    rewrite !bind_unfold. simpl. rewrite Hp. rewrite !bind_unfold. unfold enqueue, update.
    rewrite !bind_unfold, (this_dangling _ _ Hx). apply moves_refl.
Qed.

Lemma keeps_flush_pending h : keeps (P:=P) (flush_pending h).
Proof.
  intros w Hw. unfold exec, flush_pending. rewrite bind_unfold. by apply keeps_flush_loop.
Qed.

Lemma release_same h w : same_queues w (exec (release_active h) w).
Proof. apply same_modify; by case_decide. Qed.

Lemma Proceed_loses h ok w : writes_ok w → loses w (exec (Proceed h ok) w).
Proof.
  intros Hw. destruct (heap w !! h) as [x|] eqn:Hx.
  2: { unfold exec, Proceed. rewrite bind_unfold, (this_dangling _ _ Hx).
       apply moves_loses, moves_refl. }
  unfold exec, Proceed. rewrite (bind_run _ _ _ _ _ (this_run h w x Hx)).
  destruct (state_ x); [| destruct ok | destruct ok |].
  - by apply moves_loses, conserves_move.
  - apply moves_loses. revert w Hx Hw. intros w _. revert w.
    apply conserves_bind; [apply keeps_new|apply conserves_new|intros _].
    apply conserves_bind; [by apply keeps_modify|by apply conserves_modify|intros _].
    apply conserves_bind; [apply keeps_flush_pending|apply conserves_flush_pending|intros _].
    apply conserves_move.
  - apply delete_loses.
  - apply moves_loses. revert w Hx Hw. intros w _. revert w.
    apply conserves_bind; [apply keeps_handle_incoming|apply conserves_handle_incoming|intros _].
    by apply conserves_modify.
  - apply moves_loses. revert w Hx Hw. intros w _. revert w.
    apply conserves_bind; [apply release_keeps|apply conserves_modify; intros; by case_decide|].
    intros _. apply conserves_move.
  - rewrite bind_unfold, release_active_run.
    pose proof (release_same h w) as Hs. rewrite (exec_ret _ _ _ _ (release_active_run h w)) in Hs.
    eapply same_loses; [exact Hs|]. apply delete_loses.
Qed.

Lemma complete_loses w o ok ev w' :
  o ∈ ops w → writes_ok w → complete o ok ev w = (Ret tt, w') → loses w w'.
Proof.
  intros Hin Hw Hrun. rewrite <- (exec_ret _ _ _ _ Hrun).
  assert (Hc : same_queues w (completed o w)) by done. apply (same_loses _ _ _ Hc).
  unfold exec, complete. rewrite bind_unfold. simpl.
  fold (completed o w). destruct o as [h|h|h|h].
  1, 3: by apply Proceed_loses, completed_writes_ok.
  - pose proof (completed_writes_ok w (OpRead h) eq_refl Hin Hw) as Hw1. clear Hrun Hc Hw Hin.
    destruct ok; [|by apply Proceed_loses]. revert Hw1. generalize (completed (OpRead h) w). intros w1 Hw1.
    pose proof (same_update h (set_incoming ev) w1 (λ _, eq_refl)) as Hs.
    pose proof (keeps_update h (set_incoming ev) (λ _, eq_refl) w1 Hw1) as Hk.
    unfold exec in Hs, Hk. rewrite bind_unfold.
    destruct (update h (set_incoming ev) w1) as [[[]| |] w2]; [|by apply moves_loses, same_moves..].
    eapply same_loses; [exact Hs|]. by apply Proceed_loses.
  - destruct (heap w !! h) as [x|] eqn:Hx.
    + destruct (on_write_done_run h ok (completed (OpWrite h) w) x Hx)
        as (x' & ms & w1 & Hrun1 & Hd & Hp & _). rewrite Hrun1. simpl.
      set (w2 := set_heap (insert h (set_writing false x)) (completed (OpWrite h) w)).
      apply (same_loses _ w2).
      * split_and!; [done..|]. simpl. rewrite fmap_insert. apply insert_id. by rewrite lookup_fmap, Hx.
      * assert (Hx2 : heap w2 !! h = Some (set_writing false x)) by apply lookup_insert_eq.
        assert (Hd2 : delivered h (set_writing false x) x' [] ms w2 w1).
        { destruct Hd; split; simpl in *; try done. by rewrite insert_insert_eq. }
        apply moves_loses. split; [|intros a; by eapply delivered_keeps].
        unfold content. rewrite Hp, (assoc_L (++) (written w1).*2),
          (delivered_content _ _ _ _ _ _ _ Hx2 Hd2). by rewrite app_nil_r, <- (assoc_L (++)).
    + exfalso. unfold complete in Hrun. rewrite bind_unfold in Hrun. simpl in Hrun.
      fold (completed (OpWrite h) w) in Hrun. unfold on_write_done, update in Hrun.
      destruct ok; rewrite !bind_unfold, (this_dangling h (completed (OpWrite h) w) Hx) in Hrun;
        done.
Qed.

Lemma connect_begin_moves h w w' :
  OpRequest h ∈ ops w → writes_ok w → connect_begin h w = (Ret tt, w') → moves w w'.
Proof.
  intros Hin Hw Hrun. rewrite <- (exec_ret _ _ _ _ Hrun). clear Hrun.
  assert (Hc : moves w (completed (OpRequest h) w)) by by apply same_moves.
  apply (moves_trans _ _ _ Hc). unfold exec, connect_begin. rewrite bind_unfold. simpl.
  apply (completed_writes_ok w (OpRequest h) eq_refl Hin) in Hw. clear Hc. revert Hw.
  generalize (completed (OpRequest h) w).
  apply conserves_bind; [apply keeps_this| |intros x].
  { intros w0 _. unfold exec. destruct (heap w0 !! h) eqn:Hx;
      [rewrite (this_run _ _ _ Hx)|rewrite (this_dangling _ _ Hx)]; apply moves_refl. }
  destruct (state_ x); try (intros w0 _; apply moves_refl).
  apply conserves_bind; [apply keeps_new|apply conserves_new|intros _]. by apply conserves_modify.
Qed.

Lemma flush_one_moves h c cs w w' :
  pending_commands_ w = c :: cs → flush_one h c w = (Ret tt, w') → moves w w'.
Proof.
  intros Hp Hrun. unfold flush_one in Hrun. rewrite bind_unfold in Hrun.
  destruct (enqueue h c w) as [[[]| |] w1] eqn:Henq; try done. simpl in Hrun.
  injection Hrun as <-. destruct (enqueue_content _ _ _ _ Henq) as (Hc & Hd & Hp1).
  split; [|done]. unfold content in *. simpl. rewrite Hp1, Hp in *. simpl.
  assert (Hcons : ∀ l1 l2 l3 : list GatewayCommand, l1 ++ l2 ++ c :: l3 ≡ₚ c :: (l1 ++ l2 ++ l3)).
  { intros. rewrite !(assoc_L (++)). symmetry. apply Permutation_middle. }
  rewrite !Hcons in *. rewrite <- app_comm_cons, <- Permutation_cons_append in Hc.
  by apply Permutation_cons_inv in Hc.
Qed.

(** A step accounts for the command whose push begins, the push in progress, and the
    commands of the handlers it deletes. *)
Lemma cstep_accounts (s : config P) l s' :
  cstep s l s' → writes_ok (cw s) →
  (content (cw s) ++ in_flight (io s)) ++ l ≡ₚ
    (content (cw s') ++ in_flight (io s')) ++ dropped (cw s) (cw s').
Proof.
  intros Hst Hw.
  assert (Hquiet : ∀ w' i, loses (cw s) w' →
    (content (cw s) ++ i) ++ [] ≡ₚ (content w' ++ i) ++ dropped (cw s) w').
  { intros w' i Hl. unfold loses in Hl. rewrite app_nil_r, Hl, <- !(assoc_L (++)). f_equiv.
    apply Permutation_app_comm. }
  assert (Hidle : ∀ c cs' w', content w' ≡ₚ cs' ++ [c] → moves (cw s) w' ∨ heap w' = heap (cw s) →
    content (cw s) = cs' → (cs' ++ [c]) ++ [] ≡ₚ (content w' ++ []) ++ dropped (cw s) w').
  { intros c cs' w' Hc Hd <-. rewrite Hc, dropped_none by (destruct Hd as [[_ Hd]|Hd]; by rewrite ?Hd).
    by rewrite !app_nil_r. }
  destruct Hst as [o ok ev w' _ Hin _ Hrun|h w' _ Hin Hrun|h _|h c cs' w' _ Hp Hrun
    |h w' _ _ Hrun|c Hio|c Hio _|c h w' Hio Hrun]; cbn [cw io].
  - by apply Hquiet, (complete_loses _ o ok ev).
  - apply Hquiet, moves_loses. by eapply connect_begin_moves.
  - apply Hquiet, moves_loses, moves_refl.
  - apply Hquiet, moves_loses. by eapply flush_one_moves.
  - apply Hquiet, moves_loses. rewrite <- (exec_ret _ _ _ _ Hrun). by apply conserves_move.
  - rewrite Hio, dropped_none by done. cbn. by rewrite !app_nil_r.
  - rewrite Hio. apply Hidle; [|by right|done]. unfold content. cbn. by rewrite <- !(assoc_L (++)).
  - rewrite Hio. destruct (enqueue_content _ _ _ _ Hrun) as (Hc & Hk & _).
    rewrite Hc, dropped_none by done. by rewrite !app_nil_r.
Qed.

(** What was pushed before the step, and what had been lost by then. *)
Lemma accounts_step (s : config P) l s' cs lost :
  cstep s l s' → writes_ok (cw s) → cs ≡ₚ content (cw s) ++ in_flight (io s) ++ lost →
  cs ++ l ≡ₚ content (cw s') ++ in_flight (io s') ++ lost ++ dropped (cw s) (cw s').
Proof.
  intros Hst Hw ->. pose proof (cstep_accounts s l s' Hst Hw) as Hacc.
  transitivity (((content (cw s) ++ in_flight (io s)) ++ l) ++ lost).
  { rewrite <- !(assoc_L (++)). do 2 f_equiv. apply Permutation_app_comm. }
  rewrite Hacc, <- !(assoc_L (++)). do 2 f_equiv. apply Permutation_app_comm.
Qed.

End conservation.

(** ** Scheduling the two threads *)

(** A scheduler's choice of the next step. *)
Inductive choice : Type :=
| ChComplete (o : op) (ok : bool) (ev : VehicleEvent)
| ChConnect (h : addr)
| ChLock
| ChFlush
| ChUnlock
| ChLoad (c : GatewayCommand)
| ChPend
| ChEnqueue.

Section scheduler.
Context `{JL : JsonLib} {P : Type} `{PB : Publisher P}.

(** The world after a step that must return. *)
Definition ran (r : outcome unit * world P) : option (world P) :=
  match r with (Ret tt, w) => Some w | _ => None end.

Definition is_flushing (c : cq_pc) : bool :=
  match c with CqFlushing _ => true | _ => false end.

(** The step a choice stands for, when it is enabled. *)
Definition schedule (s : config P) (ch : choice) : option (list GatewayCommand * config P) :=
  match ch with
  | ChComplete o ok ev =>
      if decide (cq s = CqIdle ∧ o ∈ ops (cw s) ∧ is_connect o ok = false)
      then w' ← ran (complete o ok ev (cw s));
           Some ([], {| cw := w'; cq := CqIdle; io := io s |})
      else None
  | ChConnect h =>
      if decide (cq s = CqIdle ∧ OpRequest h ∈ ops (cw s))
      then w' ← ran (connect_begin h (cw s));
           Some ([], {| cw := w'; cq := CqActivated h; io := io s |})
      else None
  | ChLock =>
      match cq s with
      | CqActivated h => Some ([], {| cw := cw s; cq := CqFlushing h; io := io s |})
      | _ => None
      end
  | ChFlush =>
      match cq s, pending_commands_ (cw s) with
      | CqFlushing h, c :: _ =>
          w' ← ran (flush_one h c (cw s));
          Some ([], {| cw := w'; cq := CqFlushing h; io := io s |})
      | _, _ => None
      end
  | ChUnlock =>
      match cq s, pending_commands_ (cw s) with
      | CqFlushing h, [] =>
          w' ← ran (connect_end h (cw s));
          Some ([], {| cw := w'; cq := CqIdle; io := io s |})
      | _, _ => None
      end
  | ChLoad c =>
      match io s with
      | IoIdle => Some ([c], {| cw := cw s; cq := cq s; io := IoLoaded c (active_ (cw s)) |})
      | _ => None
      end
  | ChPend =>
      match io s with
      | IoLoaded c None =>
          if is_flushing (cq s) then None else
          Some ([], {| cw := set_pending (pending_commands_ (cw s) ++ [c]) (cw s);
                       cq := cq s; io := IoIdle |})
      | _ => None
      end
  | ChEnqueue =>
      match io s with
      | IoLoaded c (Some h) =>
          w' ← ran (enqueue h c (cw s)); Some ([], {| cw := w'; cq := cq s; io := IoIdle |})
      | _ => None
      end
  end.

Fixpoint run_schedule (s : config P) (chs : list choice)
    : option (list GatewayCommand * config P) :=
  match chs with
  | [] => Some ([], s)
  | ch :: chs' =>
      '(l, s') ← schedule s ch; '(l', s'') ← run_schedule s' chs'; Some (l ++ l', s'')
  end.

Lemma ran_some r w : ran r = Some w → r = (Ret tt, w).
Proof. by destruct r as [[[]| |] ?]; intros [= ->]. Qed.

Lemma schedule_sound (s : config P) ch l s' : schedule s ch = Some (l, s') → cstep s l s'.
Proof.
  destruct ch; cbn [schedule]; intros Hs; repeat case_match; try done;
    try (apply bind_Some in Hs as (w' & Hr%ran_some & [= <- <-]); econstructor; naive_solver);
    injection Hs as <- <-; econstructor; try done.
  intros h Hh. by rewrite Hh in *.
Qed.

Lemma csteps_trans (s s' s'' : config P) l l' :
  csteps s l s' → csteps s' l' s'' → csteps s (l ++ l') s''.
Proof.
  intros H1 H2. induction H2; [by rewrite app_nil_r|].
  rewrite (assoc_L (++)). by econstructor.
Qed.

Lemma run_schedule_sound chs (s : config P) l s' :
  run_schedule s chs = Some (l, s') → csteps s l s'.
Proof.
  revert s l s'. induction chs as [|ch chs IH]; intros s l s'; cbn [run_schedule].
  - intros [= <- ->]. constructor.
  - intros ((l1 & s1) & H1%schedule_sound & H2)%bind_Some.
    apply bind_Some in H2 as ((l2 & s2) & H2 & [= <- <-]). apply IH in H2.
    eapply csteps_trans; [|done]. apply (csteps_snoc s [] s l1 s1); [constructor|done].
Qed.

Lemma init_writes_ok (p : P) : writes_ok (cw (init_config p)).
Proof.
  apply keeps_new. split; simpl; try done. intros o Ho. by apply elem_of_nil in Ho.
Qed.

Lemma csteps_invariant (p : P) cs s : csteps (init_config p) cs s → writes_ok (cw s).
Proof. induction 1; [apply init_writes_ok|by eapply cstep_writes_ok]. Qed.

(** Executions, with the commands lost by the handlers they delete. *)
Inductive clossy (s : config P) : list GatewayCommand → list GatewayCommand → config P → Prop :=
| clossy_nil : clossy s [] [] s
| clossy_snoc cs lost s' l s'' :
    clossy s cs lost s' → cstep s' l s'' →
    clossy s (cs ++ l) (lost ++ dropped (cw s') (cw s'')) s''.

Lemma clossy_csteps (s : config P) cs lost s' : clossy s cs lost s' → csteps s cs s'.
Proof. induction 1; by econstructor. Qed.

Lemma csteps_clossy (s : config P) cs s' : csteps s cs s' → ∃ lost, clossy s cs lost s'.
Proof.
  induction 1 as [|cs s1 l s2 _ [lost IH] Hst]; [exists []; constructor|].
  eexists. by econstructor.
Qed.

End scheduler.

(** ** The theorems *)

Section theorems.
Context `{JL : JsonLib} {P : Type} `{PB : Publisher P}.

(** C8. Whatever the interleaving of the MQTT thread and the completion
    queue's thread, a live handler never has two writes outstanding on its
    stream, and [writing_] says exactly whether it has one. *)
Theorem one_write_outstanding (p : P) cs (s : config P) h x :
  csteps (init_config p) cs s → heap (cw s) !! h = Some x →
  occ (OpWrite h) (ops (cw s)) = Nat.b2n (writing_ x).
Proof. intros Hs Hx. by eapply wo_live; [eapply csteps_invariant|]. Qed.

(** Whatever the interleaving, every pushed command is exactly once in one
    place: handed to a stream, queued on a live handler, pending, in the hands
    of the pushing thread, or in the queue of a handler when it was deleted; commands are
    never duplicated. *)
Theorem commands_conserved (p : P) cs lost (s : config P) :
  clossy (init_config p) cs lost s → cs ≡ₚ content (cw s) ++ in_flight (io s) ++ lost.
Proof.
  induction 1 as [|cs lost s l s' Hs IH Hst]; [done|].
  pose proof (csteps_invariant p cs s (clossy_csteps _ _ _ _ Hs)) as Hw.
  by apply (accounts_step _ _ _ _ _ Hst Hw).
Qed.

(** A vehicle connects while the MQTT thread is between [active_.load()] and
    [pending_mu_]. *)
Definition lost_wakeup_schedule : list choice :=
  [ChLoad (cancel 1); ChConnect 0; ChLock; ChUnlock; ChPend].

(** A wake-up can be lost: the MQTT thread sees no connection, the vehicle
    connects and flushes nothing, and the command becomes pending behind its
    back. Both threads are then idle, the vehicle is connected with an idle
    stream, and the command waits for the next connection. *)
Theorem lost_wakeup (p : P) :
  ∃ s : config P, csteps (init_config p) [cancel 1] s ∧
    cq s = CqIdle ∧ io s = IoIdle ∧
    active_ (cw s) = Some 0 ∧ pending_commands_ (cw s) = [cancel 1] ∧
    written (cw s) = [] ∧
    ∃ x, heap (cw s) !! 0 = Some x ∧ state_ x = READING ∧ writing_ x = false ∧
         write_queue_ x = [].
Proof.
  eexists. split.
  - apply (run_schedule_sound lost_wakeup_schedule). vm_compute. reflexivity.
  - split_and!; try reflexivity. eexists. split_and!; vm_compute; reflexivity.
Qed.

(** The vehicle disconnects while the MQTT thread is between [active_.load()]
    and [enqueue]. *)
Definition use_after_free_schedule : list choice :=
  [ChConnect 0; ChLock; ChUnlock; ChLoad (cancel 1);
   ChComplete (OpRead 0) false EvNotSet; ChComplete (OpFinish 0) true EvNotSet].

(** [push_command] can use a deleted handler: clearing [active_] before
    the deletion does not protect the push that has already loaded the pointer. *)
Theorem push_use_after_free (p : P) :
  ∃ s : config P, csteps (init_config p) [cancel 1] s ∧ io_undefined s ∧
    (∀ o, OpWrite o ∉ ops (cw s)).
Proof.
  eexists. split_and!.
  - apply (run_schedule_sound use_after_free_schedule). vm_compute. reflexivity.
  - exists (cancel 1), 0. split; reflexivity.
  - intros o Ho. vm_compute in Ho. set_solver.
Qed.

(** A vehicle connects with one command pending; another one is pushed between
    [active_.store(this)] and the flush. *)
Definition overtaking_schedule : list choice :=
  [ChLoad (cancel 1); ChPend; ChConnect 0; ChLoad (cancel 2); ChEnqueue; ChLock; ChFlush;
   ChUnlock; ChComplete (OpWrite 0) true EvNotSet].

(** Delivery in order holds only when pushes and connections do not
    overlap: a command pushed after another can reach the same stream first. *)
Theorem commands_overtake (p : P) :
  ∃ s : config P, csteps (init_config p) [cancel 1; cancel 2] s ∧
    written_to 0 (cw s) = [cancel 2; cancel 1].
Proof.
  eexists. split.
  - apply (run_schedule_sound overtaking_schedule). vm_compute. reflexivity.
  - vm_compute. reflexivity.
Qed.

(** The completion of a connection request, as the sequential semantics runs
    it, is one particular interleaving. *)
Lemma flush_loop_csteps n h (w w' : world P) i :
  n = length (pending_commands_ w) → flush_loop n h w = (Ret tt, w') →
  csteps {| cw := w; cq := CqFlushing h; io := i |} [] {| cw := w'; cq := CqFlushing h; io := i |}
  ∧ pending_commands_ w' = [].
Proof.
  revert w. induction n as [|n IH]; intros w Hn Hrun; cbn [flush_loop] in Hrun.
  - injection Hrun as <-. destruct (pending_commands_ w) eqn:Hp; [|done]. split; [constructor|done].
  - destruct (pending_commands_ w) as [|c cs] eqn:Hp; [done|].
    rewrite bind_unfold in Hrun. simpl in Hrun. rewrite Hp in Hrun.
    rewrite bind_unfold in Hrun.
    destruct (enqueue h c w) as [[[]| |] w1] eqn:Henq; try done.
    rewrite bind_unfold in Hrun. simpl in Hrun.
    destruct (enqueue_content _ _ _ _ Henq) as (_ & _ & Hp1).
    apply IH in Hrun as [Hs Hp']; [|simpl; rewrite Hp1, Hp; simpl in *; lia].
    split; [|done]. eapply (csteps_trans _ _ _ [] []); [|exact Hs].
    eapply (csteps_snoc _ [] _ []); [constructor|].
    eapply (cq_flush {| cw := w; cq := CqFlushing h; io := i |}); [done|exact Hp|].
    unfold flush_one. cbn [cw]. by rewrite (bind_run _ _ _ _ _ Henq).
Qed.

Lemma connect_csteps h ev (w w' : world P) x i :
  OpRequest h ∈ ops w → heap w !! h = Some x → state_ x = ACCEPTING →
  complete (OpRequest h) true ev w = (Ret tt, w') →
  csteps {| cw := w; cq := CqIdle; io := i |} [] {| cw := w'; cq := CqIdle; io := i |}.
Proof.
  intros Hin Hx Hst Hrun. unfold complete in Hrun. rewrite bind_unfold in Hrun. simpl in Hrun.
  fold (completed (OpRequest h) w) in Hrun. unfold Proceed in Hrun.
  assert (Hx' : heap (completed (OpRequest h) w) !! h = Some x) by done.
  rewrite (bind_run _ _ _ _ _ (this_run h _ x Hx')), Hst in Hrun.
  rewrite bind_unfold, new_handler_run in Hrun.
  match type of Hrun with (modify _ ;; _) ?w0 = _ => set (w1 := w0) in Hrun end.
  rewrite bind_unfold in Hrun. simpl in Hrun. rewrite bind_unfold in Hrun.
  destruct (flush_pending h (set_active (Some h) w1)) as [[[]| |] w2] eqn:Hfl; try done.
  unfold flush_pending in Hfl. rewrite bind_unfold in Hfl. cbn [get fst snd] in Hfl.
  destruct (flush_loop_csteps _ h _ w2 i eq_refl Hfl) as [Hs Hp].
  assert (Hbegin : connect_begin h w = (Ret tt, set_active (Some h) w1)).
  { unfold connect_begin. rewrite bind_unfold. simpl.
    rewrite (bind_run _ _ _ _ _ (this_run h _ x Hx')), Hst.
    rewrite bind_unfold, new_handler_run. done. }
  apply (csteps_trans _ {| cw := set_active (Some h) w1; cq := CqFlushing h; io := i |} _ [] []).
  - eapply (csteps_snoc _ [] _ []); [eapply (csteps_snoc _ [] _ []); [constructor|]|].
    + by apply (cq_connect {| cw := w; cq := CqIdle; io := i |} h (set_active (Some h) w1)).
    + by apply (cq_lock {| cw := set_active (Some h) w1; cq := CqActivated h; io := i |} h).
  - eapply (csteps_snoc _ [] _ []); [exact Hs|].
    by apply (cq_unlock {| cw := w2; cq := CqFlushing h; io := i |} h w').
Qed.

Lemma push_csteps c (w w' : world P) :
  push_command c w = (Ret tt, w') →
  csteps {| cw := w; cq := CqIdle; io := IoIdle |} [c] {| cw := w'; cq := CqIdle; io := IoIdle |}.
Proof.
  intros Hrun. unfold push_command in Hrun. rewrite bind_unfold in Hrun. simpl in Hrun.
  eapply (csteps_snoc _ [c] _ []).
  - eapply (csteps_snoc _ [] _ [c]); [constructor|].
    by apply (io_load {| cw := w; cq := CqIdle; io := IoIdle |}).
  - simpl. destruct (active_ w) as [h|] eqn:Ha.
    + by apply (io_enqueue {| cw := w; cq := CqIdle; io := IoLoaded c (Some h) |} c h w').
    + injection Hrun as <-.
      by apply (io_pend {| cw := w; cq := CqIdle; io := IoLoaded c None |} c).
Qed.

Lemma request_accepting (p : P) w h x :
  reachable p w → OpRequest h ∈ ops w → heap w !! h = Some x → state_ x = ACCEPTING.
Proof.
  intros Hr Hin%occ_pos Hx.
  rewrite (inv_occ _ _ _ (OpRequest h) (reachable_invariant _ _ Hr) Hx eq_refl) in Hin. simpl in Hin.
  case_bool_decide; [done|simpl in Hin; lia].
Qed.

(** The interleaving semantics contains the sequential one: every
    sequential execution in which each operation returns is an execution of the
    two threads, pushing the same commands and ending in the same world. *)
Theorem sequential_interleaving (p : P) es (w : world P) :
  steps (init_world p) es w →
  csteps (init_config p) (pushed es) {| cw := w; cq := CqIdle; io := IoIdle |}.
Proof.
  induction 1 as [|es w1 e w2 Hs IH Hst]; [constructor|].
  unfold pushed. rewrite omap_app. eapply csteps_trans; [exact IH|].
  destruct Hst as [Hin Hrun]. destruct e as [c|o ok ev]; simpl in *.
  - by apply push_csteps.
  - destruct (is_connect o ok) eqn:Hc.
    + destruct o as [h| | |]; try done. simpl in Hc. subst ok.
      destruct (heap w1 !! h) as [x|] eqn:Hx.
      * eapply connect_csteps; [done|exact Hx| |exact Hrun].
        by eapply request_accepting; [by exists es| |].
      * exfalso. unfold complete in Hrun. rewrite bind_unfold in Hrun. simpl in Hrun.
        fold (completed (OpRequest h) w1) in Hrun. unfold Proceed in Hrun.
        by rewrite bind_unfold, (this_dangling h (completed (OpRequest h) w1) Hx) in Hrun.
    + eapply (csteps_snoc _ [] _ []); [constructor|].
      by apply (cq_complete {| cw := w1; cq := CqIdle; io := IoIdle |} o ok ev w2).
Qed.

End theorems.

(** ** Witnesses *)

(** Two interleaved pushes around a connection. *)
Definition sample_config : config (list (string * string)) :=
  match run_schedule (init_config []) overtaking_schedule with
  | Some (_, s) => s
  | None => init_config []
  end.

Lemma sample_csteps : csteps (init_config []) [cancel 1; cancel 2] sample_config.
Proof. apply (run_schedule_sound overtaking_schedule). vm_compute. reflexivity. Qed.

Definition sample_writer : handler :=
  {| incoming_ := EvNotSet; state_ := READING; write_queue_ := []; writing_ := true |}.

Lemma one_write_outstanding_witness : occ (OpWrite 0) (ops (cw sample_config)) = 1.
Proof.
  apply (one_write_outstanding [] [cancel 1; cancel 2] sample_config 0 sample_writer).
  - apply sample_csteps.
  - vm_compute. reflexivity.
Defined.

Lemma commands_conserved_witness :
  ∃ lost, clossy (init_config []) [cancel 1; cancel 2] lost sample_config ∧
    [cancel 1; cancel 2] ≡ₚ content (cw sample_config) ++ lost.
Proof.
  destruct (csteps_clossy _ _ _ sample_csteps) as [lost Hs]. exists lost. split; [exact Hs|].
  exact (commands_conserved [] [cancel 1; cancel 2] lost sample_config Hs).
Defined.

Lemma sequential_interleaving_witness :
  csteps (init_config []) [cancel 1; cancel 2]
    {| cw := sample_world; cq := CqIdle; io := IoIdle |}.
Proof.
  apply (sequential_interleaving [] [connect_event; Push (cancel 1); Push (cancel 2)]).
  apply steps_fn_sound. vm_compute. reflexivity.
Defined.

End StreamConc.
