(* ===== verification/StreamReports.v ===== *)
(** * Reports of the vehicle under every interleaving *)

(** What [StreamConc] needs to say where the events of a vehicle go: in every
    interleaving an operation reported by the completion queue, but a write, belongs to
    a live handler in the state that started it. So a completed read is always handled,
    by the [handle_incoming] of [src/services/vehicle_stream_handler.h], and no other
    step publishes anything. *)

From S2P Require Import Prelude Double Json Messages.
From S2P Require Import Stream StreamSeq StreamDelivery StreamConc StreamErase.

Module StreamReports.
Import VehicleStreamHandler StreamSeq StreamDelivery.

Section reports.
Context `{JL : JsonLib} {P : Type} `{PB : Publisher P}.
Implicit Types (w : world P) (x : handler) (h : addr) (o : op).

(** An operation that is not a write is outstanding at most once, and only in the state
    of its handler that starts it. *)
Definition ops_ok w : Prop := ∀ o, is_write o = false → occ o (ops w) ≤ want w o.

(** Nothing of [h] is outstanding but possibly a write. *)
Definition idle h w : Prop := ∀ o, is_write o = false → op_addr o = h → occ o (ops w) = 0.

(** [w'] differs from [w] in writes and in what is queued only. *)
Definition same_ops w w' : Prop :=
  publisher w' = publisher w ∧
  ∀ o, is_write o = false → occ o (ops w') = occ o (ops w) ∧ want w' o = want w o.

Lemma same_ops_ok w w' : same_ops w w' → ops_ok w → ops_ok w'.
Proof. intros [_ Hs] Hok o Ho. destruct (Hs o Ho) as [-> ->]. by apply Hok. Qed.

Lemma same_idle h w w' : same_ops w w' → idle h w → idle h w'.
Proof. intros [_ Hs] Hi o Ho Ha. destruct (Hs o Ho) as [-> _]. by apply Hi. Qed.

Lemma same_trans w w' w'' : same_ops w w' → same_ops w' w'' → same_ops w w''.
Proof.
  intros [Hp1 H1] [Hp2 H2]. split; [congruence|]. intros o Ho.
  destruct (H1 o Ho), (H2 o Ho). split; congruence.
Qed.

Lemma expect_state o x x' : is_write o = false → state_ x = state_ x' → expect o x = expect o x'.
Proof. intros Ho Hs. by destruct o; simpl; rewrite ?Hs. Qed.

Lemma insert_want h x x' w w' o :
  heap w !! h = Some x → heap w' = <[h := x']> (heap w) → state_ x' = state_ x →
  is_write o = false → want w' o = want w o.
Proof.
  intros Hx Hh Hs Ho. unfold want. rewrite Hh. destruct (decide (op_addr o = h)) as [Ha|Ha].
  - rewrite Ha, lookup_insert_eq, Hx. by apply expect_state.
  - by rewrite lookup_insert_ne.
Qed.

Lemma delivered_same_ops h x x' cs ms w w' :
  heap w !! h = Some x → delivered h x x' cs ms w w' → same_ops w w'.
Proof.
  intros Hx Hd. split; [apply Hd|]. intros o Ho. split.
  - rewrite (d_ops _ _ _ _ _ _ _ Hd), occ_app, occ_replicate.
    case_decide; [by subst|lia].
  - eapply insert_want; [done|apply Hd|apply Hd|done].
Qed.

Lemma enqueue_same_ops h c w w' : enqueue h c w = (Ret tt, w') → same_ops w w'.
Proof.
  intros Hrun. destruct (heap w !! h) as [x|] eqn:Hx.
  - destruct (enqueue_run h c w x Hx) as (x' & ms & w1 & Hrun1 & Hd & _).
    rewrite Hrun in Hrun1. injection Hrun1 as <-. by eapply delivered_same_ops.
  - unfold enqueue, update in Hrun. by rewrite !bind_unfold, (this_dangling _ _ Hx) in Hrun.
Qed.

Lemma pending_same_ops f w : same_ops w (set_pending f w).
Proof. by split. Qed.

(** ** A report *)

(** The handler of a reported operation is alive, in the state that started it, and has
    nothing else outstanding. *)
Lemma reported_state w o :
  ops_ok w → o ∈ ops w → is_write o = false →
  outstanding w o ∧ idle (op_addr o) (completed o w) ∧ ops_ok (completed o w).
Proof.
  intros Hok Hin Ho. pose proof (occ_pos _ _ Hin) as Hpos. pose proof (Hok o Ho) as Hle.
  unfold want in Hle. unfold outstanding.
  destruct (heap w !! op_addr o) as [x|] eqn:Hx; [|lia].
  assert (He : expect o x = 1).
  { destruct o; simpl in *; try done; case_bool_decide; simpl in *; lia. }
  split_and!; [by exists x| |].
  - intros o' Ho' Ha. rewrite completed_occ by done. pose proof (Hok o' Ho') as Hle'.
    unfold want in Hle'. rewrite Ha, Hx in Hle'. case_decide as Heq; [subst; lia|].
    enough (expect o' x = 0) by lia.
    clear -He Heq Ha Ho Ho'.
    destruct o, o'; simpl in *; try done; subst; try done; by destruct (state_ x).
  - intros o' Ho'. rewrite completed_occ by done. specialize (Hok o' Ho').
    change (want (completed o w) o') with (want w o'). lia.
Qed.

Lemma complete_unfold o ok ev w :
  complete o ok ev w =
    match o with
    | OpRequest h | OpFinish h => Proceed h ok
    | OpRead h => (if ok then update h (set_incoming ev) else mret tt) ;; Proceed h ok
    | OpWrite h => on_write_done h ok
    end (completed o w).
Proof. unfold complete. by rewrite bind_unfold. Qed.

(** A report but a connection has the effect it has in the sequential executions. *)
Lemma complete_effect w o ok ev w' :
  ops_ok w → o ∈ ops w → StreamConc.is_connect o ok = false →
  complete o ok ev w = (Ret tt, w') → effect w (Complete o ok ev) w'.
Proof.
  intros Hok Hin Hc Hrun. destruct (is_write o) eqn:Hwr.
  - destruct o as [| | |h]; try done. destruct (heap w !! h) as [x|] eqn:Hx.
    + destruct (run_write w h ok ev x Hx) as (w1 & Hrun1 & He). congruence.
    + rewrite complete_unfold in Hrun. unfold on_write_done, update in Hrun.
      by destruct ok; rewrite !bind_unfold, (this_dangling h (completed (OpWrite h) w) Hx) in Hrun.
  - destruct (reported_state w o Hok Hin Hwr) as (Hout & _). destruct o as [h|h|h|h]; try done.
    + cbn in Hc. destruct (run_request w h ok ev Hout) as (w1 & Hrun1 & He); [congruence|congruence].
    + destruct ok.
      * destruct (run_read w h ev Hout) as (r & w1 & Hrun1 & _ & He & _).
        rewrite Hrun in Hrun1. injection Hrun1 as <- <-. by apply He.
      * destruct (run_read_end w h ev Hout) as (w1 & Hrun1 & He). congruence.
    + destruct (run_finish w h ok ev Hout) as (w1 & Hrun1 & He). congruence.
Qed.

Lemma moved_ops_ok h s x w :
  s ≠ CREATE → idle h w → ops_ok w → ops_ok (moved h s (own_op s h) x w).
Proof.
  intros Hs Hi Hok o Ho. unfold want. simpl. rewrite occ_app, occ_single.
  assert (Hown : op_addr (own_op s h) = h) by by destruct s.
  destruct (decide (op_addr o = h)) as [Ha|Ha].
  - rewrite (Hi o Ho Ha), Ha, lookup_insert_eq.
    rewrite (expect_own s h (set_state s x) o) by done. lia.
  - rewrite lookup_insert_ne by done. rewrite decide_False by congruence.
    specialize (Hok o Ho). unfold want in Hok. lia.
Qed.

Lemma deleted_ops_ok h w : idle h w → ops_ok w → ops_ok (set_heap (delete h) w).
Proof.
  intros Hi Hok o Ho. unfold want. simpl. destruct (decide (op_addr o = h)) as [Ha|Ha].
  - rewrite (Hi o Ho Ha). lia.
  - rewrite lookup_delete_ne by done. apply (Hok o Ho).
Qed.

(** What [release_active] and the publisher change is nothing here. *)
Lemma released_same_ops h w : same_ops w (released h w).
Proof. unfold released. by case_decide. Qed.

(** What a step gives to the publisher: what [handle_incoming] publishes of the event. *)
Definition handed ev w w' : Prop :=
  ∃ w1, publisher w1 = publisher w ∧
    handle_incoming ev w1 = (Ret tt, set_publisher (publisher w') w1).

Definition reads (o : op) (ok : bool) (ev : VehicleEvent) : option VehicleEvent :=
  match o with OpRead _ => if ok then Some ev else None | _ => None end.

Definition publishes (r : option VehicleEvent) w w' : Prop :=
  match r with Some ev => handed ev w w' | None => publisher w' = publisher w end.

(** A successful read is handled. *)
Lemma read_handed h ev w w' :
  ops_ok w → OpRead h ∈ ops w → complete (OpRead h) true ev w = (Ret tt, w') → handed ev w w'.
Proof.
  intros Hok Hin Hrun.
  destruct (reported_state w (OpRead h) Hok Hin eq_refl) as ((x & Hx & He) & _).
  simpl in Hx, He. case_bool_decide as Hs; [|done].
  rewrite complete_unfold, (read_run w h ev x Hx Hs) in Hrun.
  destruct (handle_incoming_run ev (read_world h ev x w)) as (r & p & Hh & _).
  apply bind_ret_inv in Hrun as ([] & w1 & Hh1 & [= <-]).
  rewrite Hh in Hh1. injection Hh1 as -> <-. by exists (read_world h ev x w).
Qed.

(** Every report but a connection keeps the account, and publishes what it reads. *)
Lemma complete_ok o b v w w' :
  ops_ok w → o ∈ ops w → StreamConc.is_connect o b = false →
  complete o b v w = (Ret tt, w') → ops_ok w' ∧ publishes (reads o b v) w w'.
Proof.
  intros Hok Hin Hc Hrun. pose proof (complete_effect _ _ _ _ _ Hok Hin Hc Hrun) as Heff.
  assert (Hst : is_write o = false → idle (op_addr o) (completed o w) ∧ ops_ok (completed o w))
    by (intros Hwr; by apply reported_state).
  remember (Complete o b v) as e eqn:He. effect_cases Heff; simplify_eq; cbn [op_addr is_write reads] in *;
    try (destruct (Hst eq_refl) as [Hi Hok0]); try done.
  - split; [by apply deleted_ops_ok|done].
  - split; [|by eapply read_handed].
    by apply (moved_ops_ok h READING _ (set_publisher p (completed (OpRead h) w))).
  - pose proof (released_same_ops h (completed (OpRead h) w)) as Hr. split; [|exact (proj1 Hr)].
    by apply (moved_ops_ok h FINISH); [|eapply same_idle|eapply same_ops_ok].
  - pose proof (released_same_ops h (completed (OpFinish h) w)) as Hr. split; [|exact (proj1 Hr)].
    by apply deleted_ops_ok; [eapply same_idle|eapply same_ops_ok].
  - assert (Hs : same_ops w w'); [|by split; [by eapply same_ops_ok|apply Hs]].
    split; [by rewrite (d_publisher _ _ _ _ _ _ _ Hd)|]. intros o Ho. split.
    + rewrite (d_ops _ _ _ _ _ _ _ Hd), occ_app, occ_replicate, completed_occ by done.
      case_decide; [by subst|]. lia.
    + apply (insert_want h x x'); [done|apply Hd|apply Hd|done].
Qed.

(** ** Every step *)

(** The handler of a connection under way has had its report and awaits nothing. *)
Record reads_ok (s : StreamConc.config P) : Prop := {
  ro_writes : StreamConc.writes_ok (StreamConc.cw s);
  ro_ops : ops_ok (StreamConc.cw s);
  ro_connecting h : StreamConc.cq s = StreamConc.CqActivated h ∨
    StreamConc.cq s = StreamConc.CqFlushing h → idle h (StreamConc.cw s)
}.

(** A sibling is created for the next vehicle. *)
Definition with_sibling w : world P :=
  set_ops (ops w ++ [OpRequest (next w)]) (alloc accepting_handler w).

Lemma sibling_ops_ok h w :
  heap w !! next w = None → heap w !! h ≠ None → idle h w → ops_ok w →
  ops_ok (with_sibling w) ∧ idle h (with_sibling w).
Proof.
  intros Hn Hh Hi Hok. split.
  - intros o Ho. unfold want. simpl. rewrite occ_app, occ_single.
    specialize (Hok o Ho). unfold want in Hok.
    destruct (decide (op_addr o = next w)) as [Ha|Ha].
    + rewrite Ha, Hn in Hok. rewrite Ha, lookup_insert_eq.
      rewrite (expect_own ACCEPTING (next w) accepting_handler o) by done. simpl. lia.
    + rewrite lookup_insert_ne by done. rewrite decide_False by (by intros ->). lia.
  - intros o Ho Ha. simpl. rewrite occ_app, occ_single, (Hi o Ho Ha).
    rewrite decide_False; [done|]. intros ->. simpl in Ha. by subst h.
Qed.

Lemma connect_run h w w' :
  ops_ok w → OpRequest h ∈ ops w → StreamConc.connect_begin h w = (Ret tt, w') →
  ∃ x, heap w !! h = Some x ∧ state_ x = ACCEPTING ∧
    w' = set_active (Some h) (with_sibling (completed (OpRequest h) w)).
Proof.
  intros Hok Hin Hrun. destruct (reported_state w (OpRequest h) Hok Hin eq_refl) as ((x & Hx & He) & _).
  simpl in Hx, He. case_bool_decide as Hs; [|done]. exists x. split_and!; [done..|].
  unfold StreamConc.connect_begin in Hrun. rewrite bind_unfold in Hrun. cbn [modify gets] in Hrun.
  rewrite (bind_run _ _ _ _ _ (this_run h (completed (OpRequest h) w) x Hx)), Hs in Hrun.
  rewrite (bind_run _ _ _ _ _ (new_handler_run (completed (OpRequest h) w))) in Hrun.
  by injection Hrun as <-.
Qed.

Lemma connect_ok h w w' :
  StreamConc.writes_ok w → ops_ok w → OpRequest h ∈ ops w →
  StreamConc.connect_begin h w = (Ret tt, w') →
  ops_ok w' ∧ idle h w' ∧ publisher w' = publisher w.
Proof.
  intros Hw Hok Hin Hrun. destruct (connect_run h w w' Hok Hin Hrun) as (x & Hx & _ & ->).
  destruct (reported_state w (OpRequest h) Hok Hin eq_refl) as (_ & Hi & Hok0).
  assert (Hn : heap w !! next w = None).
  { destruct (heap w !! next w) eqn:E; [|done]. apply (StreamConc.wo_heap _ Hw) in E. lia. }
  destruct (sibling_ops_ok h (completed (OpRequest h) w)) as [H1 H2];
    [done|by rewrite completed_heap, Hx|done..].
Qed.

Lemma flush_one_same h c w w' : StreamConc.flush_one h c w = (Ret tt, w') → same_ops w w'.
Proof.
  intros ([] & w1 & Henq & [= <-])%bind_ret_inv.
  eapply same_trans; [by eapply enqueue_same_ops|apply pending_same_ops].
Qed.

Lemma connect_end_ok h w w' :
  idle h w → ops_ok w → StreamConc.connect_end h w = (Ret tt, w') →
  ops_ok w' ∧ publisher w' = publisher w.
Proof.
  intros Hi Hok Hrun. destruct (heap w !! h) as [x|] eqn:Hx.
  - unfold StreamConc.connect_end in Hrun. rewrite (moved_run h READING (OpRead h) w x Hx) in Hrun.
    injection Hrun as <-. split; [by apply (moved_ops_ok h READING)|done].
  - unfold StreamConc.connect_end, update in Hrun.
    by rewrite !bind_unfold, (this_dangling _ _ Hx) in Hrun.
Qed.

(** What a choice of the scheduler reads. *)
Definition choice_reads (ch : StreamConc.choice) : option VehicleEvent :=
  match ch with StreamConc.ChComplete o ok ev => reads o ok ev | _ => None end.

Lemma same_reads_ok s w' q i :
  reads_ok s → StreamConc.writes_ok w' → same_ops (StreamConc.cw s) w' →
  (∀ h, q = StreamConc.CqActivated h ∨ q = StreamConc.CqFlushing h →
    StreamConc.cq s = StreamConc.CqActivated h ∨ StreamConc.cq s = StreamConc.CqFlushing h) →
  reads_ok {| StreamConc.cw := w'; StreamConc.cq := q; StreamConc.io := i |} ∧
  publisher w' = publisher (StreamConc.cw s).
Proof.
  intros [Hw Hok Hc] Hw' Hs Hq. split; [|apply Hs]. split; cbn; [done|by eapply same_ops_ok|].
  intros h Hh. eapply same_idle; [done|by apply Hc, Hq].
Qed.

Lemma step_reads s ch l s' :
  reads_ok s → StreamConc.schedule s ch = Some (l, s') →
  reads_ok s' ∧ publishes (choice_reads ch) (StreamConc.cw s) (StreamConc.cw s').
Proof.
  intros Hr Hsch. pose proof (StreamConc.schedule_sound _ _ _ _ Hsch) as Hst.
  pose proof (StreamConc.cstep_writes_ok _ _ _ Hst (ro_writes _ Hr)) as Hw'. clear Hst.
  pose proof Hr as [Hw Hok Hc].
  destruct ch as [o ok ev|h| | | |c| |]; cbn [StreamConc.schedule choice_reads publishes] in *.
  - destruct (decide _) as [(Hq & Hin & Hco)|]; [|done].
    apply bind_Some in Hsch as (w' & Hrun%StreamConc.ran_some & [= <- <-]).
    destruct (complete_ok o ok ev _ w' Hok Hin Hco Hrun) as [Hok' Hp].
    split; [|exact Hp]. split; cbn; [done..|by intros h [?|?]].
  - destruct (decide _) as [(Hq & Hin)|]; [|done].
    apply bind_Some in Hsch as (w' & Hrun%StreamConc.ran_some & [= <- <-]).
    destruct (connect_ok h _ w' Hw Hok Hin Hrun) as (Hok' & Hi & Hp).
    split; [|exact Hp]. split; cbn; [done..|]. by intros h' [[= <-]|?].
  - destruct (StreamConc.cq s) as [|h|] eqn:Hq; try done. injection Hsch as <- <-.
    apply (same_reads_ok s); try done. rewrite Hq. intros h' [?|[= <-]]; [done|by left].
  - destruct (StreamConc.cq s) as [| |h] eqn:Hq; try done.
    destruct (pending_commands_ _) as [|c cs]; [done|].
    apply bind_Some in Hsch as (w' & Hrun%StreamConc.ran_some & [= <- <-]).
    apply (same_reads_ok s); [done..|by eapply flush_one_same|by rewrite Hq].
  - destruct (StreamConc.cq s) as [| |h] eqn:Hq; try done.
    destruct (pending_commands_ _) as [|c cs]; [|done].
    apply bind_Some in Hsch as (w' & Hrun%StreamConc.ran_some & [= <- <-]).
    destruct (connect_end_ok h _ w' (Hc h (or_intror eq_refl)) Hok Hrun) as [Hok' Hp].
    split; [|exact Hp]. split; cbn; [done..|by intros h' [?|?]].
  - destruct (StreamConc.io s); [|done]. injection Hsch as <- <-. by apply (same_reads_ok s).
  - destruct (StreamConc.io s) as [|c [a|]]; try done.
    destruct (StreamConc.is_flushing _); [done|]. injection Hsch as <- <-. by apply (same_reads_ok s).
  - destruct (StreamConc.io s) as [|c [a|]]; try done.
    apply bind_Some in Hsch as (w' & Hrun%StreamConc.ran_some & [= <- <-]).
    apply (same_reads_ok s); [done..|by eapply enqueue_same_ops|done].
Qed.

Lemma init_reads_ok (p : P) : reads_ok (StreamConc.init_config p).
Proof.
  split; [apply StreamConc.init_writes_ok| |by intros h [?|?]].
  intros o Ho. rewrite (inv_ops _ (init_invariant p)); [done|unfold accounted; by rewrite Ho].
Qed.

(** ** The handlers that wait for a call *)

(** The connection of [h] is under way on the queue's thread. *)
Definition connecting (s : StreamConc.config P) h : Prop :=
  StreamConc.cq s = StreamConc.CqActivated h ∨ StreamConc.cq s = StreamConc.CqFlushing h.

(** A handler that waits for its call is neither active nor in the hands of the io
    thread, and writes nothing, unless its connection is under way. *)
Record calls_ok (s : StreamConc.config P) : Prop := {
  co_active h :
    active_ (StreamConc.cw s) = Some h ∨ (∃ c, StreamConc.io s = StreamConc.IoLoaded c (Some h)) →
    h < next (StreamConc.cw s) ∧
    ∀ x, heap (StreamConc.cw s) !! h = Some x → state_ x = ACCEPTING → connecting s h;
  co_waiting h x :
    heap (StreamConc.cw s) !! h = Some x → state_ x = ACCEPTING → ¬ connecting s h → writing_ x = false
}.

(** A step that makes no handler active or waiting. *)
Lemma calls_same s w' i :
  calls_ok s → next w' = next (StreamConc.cw s) →
  (∀ h, active_ w' = Some h → active_ (StreamConc.cw s) = Some h) →
  (∀ c h, i = StreamConc.IoLoaded c (Some h) →
     StreamConc.io s = i ∨ active_ (StreamConc.cw s) = Some h) →
  (∀ h x', heap w' !! h = Some x' → state_ x' = ACCEPTING →
     ∃ x, heap (StreamConc.cw s) !! h = Some x ∧ state_ x = ACCEPTING ∧
          (connecting s h ∨ writing_ x' = writing_ x)) →
  calls_ok {| StreamConc.cw := w'; StreamConc.cq := StreamConc.cq s; StreamConc.io := i |}.
Proof.
  intros [Ha Hw] Hn Hact Hio Hh. split; cbn.
  - intros h Hor. rewrite Hn. destruct (Ha h) as [Hlt Hc].
    { destruct Hor as [?|[c ->]]; [by left; apply Hact|].
      destruct (Hio c h eq_refl) as [?|?]; [right; by exists c|by left]. }
    split; [done|]. intros x' Hx' Hs. destruct (Hh h x' Hx' Hs) as (x & Hx & Hsx & _).
    by apply (Hc x).
  - intros h x' Hx' Hs Hnc. destruct (Hh h x' Hx' Hs) as (x & Hx & Hsx & [?|Hwx]); [done|].
    rewrite Hwx. by apply (Hw h).
Qed.

(** A change of a handler that is connected, or whose connection is under way. *)
Lemma calls_insert s h x x' w' i :
  calls_ok s → heap (StreamConc.cw s) !! h = Some x → (state_ x = ACCEPTING → connecting s h) →
  (state_ x' = ACCEPTING → state_ x = ACCEPTING) →
  heap w' = <[h := x']> (heap (StreamConc.cw s)) → next w' = next (StreamConc.cw s) →
  (∀ h, active_ w' = Some h → active_ (StreamConc.cw s) = Some h) →
  (∀ c h, i = StreamConc.IoLoaded c (Some h) →
     StreamConc.io s = i ∨ active_ (StreamConc.cw s) = Some h) →
  calls_ok {| StreamConc.cw := w'; StreamConc.cq := StreamConc.cq s; StreamConc.io := i |}.
Proof.
  intros Hok Hx Hc Hs Hh Hn Ha Hi. apply calls_same; [done..|]. intros h' y. rewrite Hh.
  intros [[<- <-]|[Hne Hy]]%lookup_insert_Some Hy'.
  - exists x. split_and!; [done|by apply Hs|]. left. by apply Hc, Hs.
  - exists y. split_and!; [done..|by right].
Qed.

(** A handler is deleted. *)
Lemma calls_delete s h w' :
  calls_ok s → heap w' = delete h (heap (StreamConc.cw s)) → next w' = next (StreamConc.cw s) →
  (∀ h, active_ w' = Some h → active_ (StreamConc.cw s) = Some h) →
  calls_ok {| StreamConc.cw := w'; StreamConc.cq := StreamConc.cq s; StreamConc.io := StreamConc.io s |}.
Proof.
  intros Hok Hh Hn Ha. apply calls_same; [done..|by left|]. intros h' y. rewrite Hh.
  intros [_ Hy]%lookup_delete_Some Hs. exists y. split_and!; [done..|by right].
Qed.

(** A report leaves the waiting handlers waiting. *)
Lemma complete_calls s e w' :
  calls_ok s → StreamConc.writes_ok (StreamConc.cw s) → StreamConc.cq s = StreamConc.CqIdle →
  (∀ h ok ev, e = Complete (OpWrite h) ok ev → OpWrite h ∈ ops (StreamConc.cw s)) →
  (∀ c, e ≠ Push c) → (∀ h ev, e ≠ Complete (OpRequest h) true ev) →
  effect (StreamConc.cw s) e w' →
  calls_ok {| StreamConc.cw := w'; StreamConc.cq := StreamConc.cq s; StreamConc.io := StreamConc.io s |}.
Proof.
  intros Hok Hw Hq Hin Hpush Hcon Heff. effect_cases Heff.
  - by destruct (Hpush c).
  - by destruct (Hpush c).
  - by apply (calls_delete s h).
  - by destruct (Hcon h ev).
  - apply (calls_insert s h x (set_state READING (set_incoming ev x))); try done; [congruence|by left].
  - apply (calls_insert s h x (set_state FINISH x)); try done; [congruence|..|by left].
    + cbn. by rewrite released_heap.
    + cbn. by rewrite released_next.
    + cbn. by intros h' [? _]%released_active.
  - apply (calls_delete s h); [done|..].
    + cbn. by rewrite released_heap.
    + cbn. by rewrite released_next.
    + cbn. by intros h' [? _]%released_active.
  - pose proof (occ_pos _ _ (Hin h ok ev eq_refl)) as Hpos. rewrite (StreamConc.wo_live _ Hw _ _ Hx) in Hpos.
    apply (calls_insert s h x x'); try done; [|..|by left].
    + intros Hs. exfalso. rewrite (co_waiting _ Hok h x Hx Hs) in Hpos; [cbn in Hpos; lia|].
      unfold connecting. rewrite Hq. by intros [?|?].
    + by rewrite (d_state _ _ _ _ _ _ _ Hd).
    + apply Hd.
    + apply Hd.
    + intros h'. by rewrite (d_active _ _ _ _ _ _ _ Hd).
Qed.

Lemma connect_calls s h w' :
  calls_ok s → StreamConc.writes_ok (StreamConc.cw s) → ops_ok (StreamConc.cw s) →
  StreamConc.cq s = StreamConc.CqIdle → OpRequest h ∈ ops (StreamConc.cw s) →
  StreamConc.connect_begin h (StreamConc.cw s) = (Ret tt, w') →
  calls_ok {| StreamConc.cw := w'; StreamConc.cq := StreamConc.CqActivated h;
              StreamConc.io := StreamConc.io s |}.
Proof.
  intros [Ha Hwt] Hw Hok Hq Hin Hrun. pose proof (connect_run h _ _ Hok Hin Hrun) as (x & Hx & _ & ->).
  assert (Hidle : ∀ h, ¬ connecting s h) by (intros h'; unfold connecting; rewrite Hq; by intros [?|?]).
  split; cbn.
  - intros h' [[= <-]|Hio].
    + split; [apply (StreamConc.wo_heap _ Hw) in Hx; lia|]. intros; by left.
    + destruct (Ha h' (or_intror Hio)) as [Hlt Hc]. split; [lia|].
      intros y [[<- <-]|[Hne Hy]]%lookup_insert_Some Hs; [lia|]. by destruct (Hidle h'); apply (Hc y).
  - intros h' y [[<- <-]|[Hne Hy]]%lookup_insert_Some Hs _; [done|]. by apply (Hwt h' y).
Qed.

(** The handler is connected. *)
Lemma connected_calls s h x w' :
  calls_ok s → connecting s h → heap (StreamConc.cw s) !! h = Some x →
  w' = moved h READING (OpRead h) x (StreamConc.cw s) →
  calls_ok {| StreamConc.cw := w'; StreamConc.cq := StreamConc.CqIdle; StreamConc.io := StreamConc.io s |}.
Proof.
  intros [Ha Hw] Hc Hx ->.
  assert (Hone : ∀ h', connecting s h' → h' = h) by (unfold connecting in *; intuition congruence).
  split; cbn.
  - intros h' Hor. destruct (Ha h' Hor) as [Hlt Hcon]. split; [done|].
    intros y [[<- <-]|[Hne Hy]]%lookup_insert_Some Hs; [done|]. by destruct Hne; symmetry; apply Hone, (Hcon y).
  - intros h' y [[<- <-]|[Hne Hy]]%lookup_insert_Some Hs _; [done|].
    apply (Hw h' y Hy Hs). intros Hcon. by destruct Hne; rewrite (Hone h').
Qed.

(** A command is enqueued on a handler. *)
Lemma enqueue_calls s h c w1 w' i :
  calls_ok s → enqueue h c (StreamConc.cw s) = (Ret tt, w1) →
  (∀ x, heap (StreamConc.cw s) !! h = Some x → state_ x = ACCEPTING → connecting s h) →
  heap w' = heap w1 → next w' = next w1 → active_ w' = active_ w1 →
  (∀ c h, i = StreamConc.IoLoaded c (Some h) →
     StreamConc.io s = i ∨ active_ (StreamConc.cw s) = Some h) →
  calls_ok {| StreamConc.cw := w'; StreamConc.cq := StreamConc.cq s; StreamConc.io := i |}.
Proof.
  intros Hok Hrun Hc Hh Hn Ha Hi. destruct (heap (StreamConc.cw s) !! h) as [x|] eqn:Hx.
  - destruct (enqueue_run h c _ x Hx) as (x' & ms & w2 & Hrun2 & Hd & _).
    rewrite Hrun in Hrun2. injection Hrun2 as <-.
    apply (calls_insert s h x x'); try done; [by apply Hc|..].
    + by rewrite (d_state _ _ _ _ _ _ _ Hd).
    + rewrite Hh. apply Hd.
    + rewrite Hn. apply Hd.
    + intros h'. by rewrite Ha, (d_active _ _ _ _ _ _ _ Hd).
  - unfold enqueue, update in Hrun. by rewrite !bind_unfold, (this_dangling _ _ Hx) in Hrun.
Qed.

Lemma step_calls s ch l s' :
  reads_ok s → calls_ok s → StreamConc.schedule s ch = Some (l, s') → calls_ok s'.
Proof.
  intros [Hw Hops _] Hok Hsch.
  destruct ch as [o ok ev|h| | | |c| |]; cbn [StreamConc.schedule] in *.
  - destruct (decide _) as [(Hq & Hin & Hco)|]; [|done].
    apply bind_Some in Hsch as (w' & Hrun%StreamConc.ran_some & [= <- <-]). rewrite <- Hq.
    apply (complete_calls s (Complete o ok ev)); try done; [by intros h ? ? [= -> _ _]| |by apply complete_effect].
    by intros h ev' [= -> -> _].
  - destruct (decide _) as [(Hq & Hin)|]; [|done].
    apply bind_Some in Hsch as (w' & Hrun%StreamConc.ran_some & [= <- <-]). by apply connect_calls.
  - destruct (StreamConc.cq s) as [|h|] eqn:Hq; try done. injection Hsch as <- <-.
    assert (Hsame : ∀ h', connecting s h' ↔ h' = h) by (unfold connecting; rewrite Hq; intuition congruence).
    destruct Hok as [Ha Hwt]. split; unfold connecting; cbn.
    + intros h' Hor. destruct (Ha h' Hor) as [Hlt Hc]. split; [done|]. intros x Hx Hs.
      right. f_equal. symmetry. by apply Hsame, (Hc x).
    + intros h' x Hx Hs Hnc. apply (Hwt h' x Hx Hs). rewrite Hsame. intros ->. apply Hnc. by right.
  - destruct (StreamConc.cq s) as [| |h] eqn:Hq; try done.
    destruct (pending_commands_ _) as [|c cs]; [done|].
    apply bind_Some in Hsch as (w' & Hrun%StreamConc.ran_some & [= <- <-]). rewrite <- Hq.
    apply bind_ret_inv in Hrun as ([] & w1 & Henq & [= <-]).
    eapply enqueue_calls; [done|exact Henq| |done..|by left]. intros; by right.
  - destruct (StreamConc.cq s) as [| |h] eqn:Hq; try done.
    destruct (pending_commands_ _) as [|c cs]; [|done].
    apply bind_Some in Hsch as (w' & Hrun%StreamConc.ran_some & [= <- <-]).
    unfold StreamConc.connect_end in Hrun. destruct (heap (StreamConc.cw s) !! h) as [x|] eqn:Hx.
    + rewrite (moved_run h READING (OpRead h) _ x Hx) in Hrun. injection Hrun as <-.
      by apply (connected_calls s h x); [|right|..].
    + unfold update in Hrun. by rewrite !bind_unfold, (this_dangling _ _ Hx) in Hrun.
  - destruct (StreamConc.io s) eqn:Hio; [|done]. injection Hsch as <- <-.
    apply calls_same; try done; [intros ? ? [= _ Ha]; by right|].
    intros h x Hx Hs. exists x. split_and!; [done..|by right].
  - destruct (StreamConc.io s) as [|c [a|]] eqn:Hio; try done.
    destruct (StreamConc.is_flushing _); [done|]. injection Hsch as <- <-.
    apply calls_same; try done. intros h x Hx Hs. exists x. split_and!; [done..|by right].
  - destruct (StreamConc.io s) as [|c [h|]] eqn:Hio; try done.
    apply bind_Some in Hsch as (w' & Hrun%StreamConc.ran_some & [= <- <-]).
    eapply enqueue_calls; [done|exact Hrun| |done..].
    intros x Hx Hs. destruct (co_active _ Hok h) as [_ Hc]; [right; by exists c|by apply (Hc x)].
Qed.

Lemma init_calls_ok (p : P) : calls_ok (StreamConc.init_config p).
Proof.
  split; cbn.
  - intros h [Ha|[c [=]]]. rewrite init_world_eq in Ha. done.
  - intros h x Hx Hs _. by destruct (inv_waiting _ (init_invariant p) h x Hx Hs) as (_ & ? & _).
Qed.

(** The scheduler makes every step. *)
Lemma schedule_complete (s : StreamConc.config P) l s' :
  StreamConc.cstep s l s' → ∃ ch, StreamConc.schedule s ch = Some (l, s').
Proof.
  intros [o ok ev w' Hq Hin Hc Hrun|h w' Hq Hin Hrun|h Hq|h c cs w' Hq Hp Hrun|h w' Hq Hp Hrun
    |c Hio|c Hio Hf|c h w' Hio Hrun];
    [exists (StreamConc.ChComplete o ok ev)|exists (StreamConc.ChConnect h)|exists StreamConc.ChLock
    |exists StreamConc.ChFlush|exists StreamConc.ChUnlock|exists (StreamConc.ChLoad c)
    |exists StreamConc.ChPend|exists StreamConc.ChEnqueue]; cbn [StreamConc.schedule];
    rewrite ?decide_True, ?Hq, ?Hp, ?Hio, ?Hrun by done; try done.
  by destruct (StreamConc.cq s); [..|destruct (Hf h)].
Qed.

End reports.
End StreamReports.
