(* ===== verification/Rpc.v ===== *)
(** * CallDataBase and the unary calls *)

(** The unary RPCs ([src/services/rpc_dispatcher.h], [rpc_dispatcher.cc]). The
    six subclasses differ in their request, their topic and their payload; here
    they are the constructors of [rpc] and of [request], and the virtual
    functions are definitions by cases. Calls live on a heap; the operations
    handed to gRPC wait in [ops], the publish callbacks not run yet in
    [waiting], what was handed to [publish_] is logged in [published] and what
    was handed to [responder_.Finish] in [answered]. *)

From S2P Require Import Prelude Double Json JsonModel Messages Orchestrator Stream.

Module CallData.

Abbreviation addr := nat.

(** [CallDataBase::State]. *)
Inductive rstate : Type := CREATE | PROCESS | FINISH.

(** The methods of the service that are not streams. *)
Inductive rpc : Type :=
| SendEta | SendStatus | SendArrive | UpdateVehicleLocation | TripInit | TripMove.

Inductive request : Type :=
| ReqEta (r : EtaRequest)
| ReqStatus (r : StatusRequest)
| ReqArrive (r : ArriveRequest)
| ReqUpdateLocation (r : UpdateVehicleLocationRequest)
| ReqTripInit (r : TripInitRequest)
| ReqTripMove (r : TripMoveRequest).

Definition method_of (r : request) : rpc :=
  match r with
  | ReqEta _ => SendEta
  | ReqStatus _ => SendStatus
  | ReqArrive _ => SendArrive
  | ReqUpdateLocation _ => UpdateVehicleLocation
  | ReqTripInit _ => TripInit
  | ReqTripMove _ => TripMove
  end.

(** The request of a call nobody has made yet. *)
Definition zero : double := double_of_int 0.
Definition default_request (m : rpc) : request :=
  match m with
  | SendEta =>
      ReqEta {| eta_vin_number := ""; eta_request_id := 0; eta_time := zero;
                eta_fare := zero; eta_status := "" |}
  | SendStatus => ReqStatus {| st_vin_number := ""; st_trip_id := 0; st_status := "" |}
  | SendArrive =>
      ReqArrive {| ar_vin_number := ""; ar_trip_id := 0; ar_long := zero; ar_lat := zero |}
  | UpdateVehicleLocation =>
      ReqUpdateLocation {| ul_vinNumber := ""; ul_longitude := zero; ul_latitude := zero |}
  | TripInit =>
      ReqTripInit {| ti_vin_number := ""; ti_request_id := 0; ti_start_long := zero;
                     ti_start_lat := zero; ti_end_long := zero; ti_end_lat := zero |}
  | TripMove =>
      ReqTripMove {| tm_vin_number := ""; tm_trip_id := 0; tm_longitude := zero;
                     tm_latitude := zero |}
  end.

(** An operation started for a call: waiting for the next request of a method,
    or sending the answer. *)
Inductive op : Type :=
| OpRequest (m : rpc) (a : addr)
| OpFinish (a : addr).

#[export] Instance rstate_eq_dec : EqDecision rstate.
Proof. solve_decision. Defined.
#[export] Instance rpc_eq_dec : EqDecision rpc.
Proof. solve_decision. Defined.
#[export] Instance request_eq_dec : EqDecision request.
Proof. solve_decision. Defined.
#[export] Instance op_eq_dec : EqDecision op.
Proof. solve_decision. Defined.

(** [grpc::Status]. *)
Inductive grpc_status : Type := OK | INTERNAL (msg : string).

Record call_data : Type := {
  method : rpc;
  request_ : request;
  response_ : Response;
  state_ : rstate
}.

Definition set_state (s : rstate) (c : call_data) : call_data :=
  {| method := method c; request_ := request_ c; response_ := response_ c; state_ := s |}.
Definition set_request (r : request) (c : call_data) : call_data :=
  {| method := method c; request_ := r; response_ := response_ c; state_ := state_ c |}.

(** The constructor of the base class, with the members of the subclass for the method
    default-initialised; the service, the queue and [publish_] are the same for all
    calls. *)
Definition CallDataBase (m : rpc) : call_data :=
  {| method := m; request_ := default_request m; response_ := empty_response;
     state_ := CREATE |}.

(** The constructors of the subclasses only call it. *)
Definition new_EtaCallData : call_data := CallDataBase SendEta.
Definition new_StatusCallData : call_data := CallDataBase SendStatus.
Definition new_ArriveCallData : call_data := CallDataBase SendArrive.
Definition new_UpdateLocationCallData : call_data := CallDataBase UpdateVehicleLocation.
Definition new_TripInitCallData : call_data := CallDataBase TripInit.
Definition new_TripMoveCallData : call_data := CallDataBase TripMove.

(** The objects the six [build_payload] dump. *)
Definition eta_payload (r : EtaRequest) : fields :=
  [("vin_number", FString (eta_vin_number r));
   ("request_id", FInt (eta_request_id r));
   ("estimated_fare", FDouble (eta_fare r));
   ("estimated_time", FDouble (eta_time r))].
Definition status_payload (r : StatusRequest) : fields :=
  [("vinNumber", FString (st_vin_number r));
   ("trip_id", FInt (st_trip_id r));
   ("status", FString (st_status r))].
Definition arrive_payload (r : ArriveRequest) : fields :=
  [("vinNumber", FString (ar_vin_number r));
   ("tripId", FInt (ar_trip_id r));
   ("longitude", FDouble (ar_long r));
   ("latitude", FDouble (ar_lat r))].
Definition update_location_payload (r : UpdateVehicleLocationRequest) : fields :=
  [("vinNumber", FString (ul_vinNumber r));
   ("longitude", FDouble (ul_longitude r));
   ("latitude", FDouble (ul_latitude r))].
Definition trip_init_payload (r : TripInitRequest) : fields :=
  [("vinNumber", FString (ti_vin_number r));
   ("requestId", FInt (ti_request_id r));
   ("startLong", FDouble (ti_start_long r));
   ("startLat", FDouble (ti_start_lat r));
   ("endLong", FDouble (ti_end_long r));
   ("endLat", FDouble (ti_end_lat r))].
Definition trip_move_payload (r : TripMoveRequest) : fields :=
  [("vinNumber", FString (tm_vin_number r));
   ("tripId", FInt (tm_trip_id r));
   ("longitude", FDouble (tm_longitude r));
   ("latitude", FDouble (tm_latitude r))].

(** The virtual call of [build_payload]. *)
Definition payload_fields (r : request) : fields :=
  match r with
  | ReqEta r => eta_payload r
  | ReqStatus r => status_payload r
  | ReqArrive r => arrive_payload r
  | ReqUpdateLocation r => update_location_payload r
  | ReqTripInit r => trip_init_payload r
  | ReqTripMove r => trip_move_payload r
  end.

(** The other virtual functions of a subclass of [CallDataBase]: the method
    [register_rpc] asks for, the topic, the response [set_response] makes, the
    status [finish_rpc] sends with it, the class [clone] creates. *)
Record vtable : Type := {
  requests : rpc;
  topic : string;
  respond : bool → string → Response;
  finish_status : bool → Response → grpc_status;
  clones : rpc
}.

Definition EtaCallData : vtable := {|
  requests := SendEta;
  topic := kTopicTripEta;
  respond := λ ok msg, {| success := ok; message := msg |};
  finish_status := λ ok r, if ok then OK else INTERNAL (message r);
  clones := SendEta
|}.
Definition StatusCallData : vtable := {|
  requests := SendStatus;
  topic := kTopicTripStatus;
  respond := λ ok msg, {| success := ok; message := msg |};
  finish_status := λ ok r, if ok then OK else INTERNAL (message r);
  clones := SendStatus
|}.
Definition ArriveCallData : vtable := {|
  requests := SendArrive;
  topic := kTopicTripArrive;
  respond := λ ok msg, {| success := ok; message := msg |};
  finish_status := λ ok r, if ok then OK else INTERNAL (message r);
  clones := SendArrive
|}.
Definition UpdateLocationCallData : vtable := {|
  requests := UpdateVehicleLocation;
  topic := kTopicUpdateLocation;
  respond := λ ok msg, {| success := ok; message := msg |};
  finish_status := λ ok r, if ok then OK else INTERNAL (message r);
  clones := UpdateVehicleLocation
|}.
Definition TripInitCallData : vtable := {|
  requests := TripInit;
  topic := kTopicTripInit;
  respond := λ ok msg, {| success := ok; message := msg |};
  finish_status := λ ok r, if ok then OK else INTERNAL (message r);
  clones := TripInit
|}.
Definition TripMoveCallData : vtable := {|
  requests := TripMove;
  topic := kTopicTripMove;
  respond := λ ok msg, {| success := ok; message := msg |};
  finish_status := λ ok r, if ok then OK else INTERNAL (message r);
  clones := TripMove
|}.

(** The dynamic class of a call is the method it was made for. *)
Definition class_of (m : rpc) : vtable :=
  match m with
  | SendEta => EtaCallData
  | SendStatus => StatusCallData
  | SendArrive => ArriveCallData
  | UpdateVehicleLocation => UpdateLocationCallData
  | TripInit => TripInitCallData
  | TripMove => TripMoveCallData
  end.

Definition mqtt_topic (m : rpc) : string := topic (class_of m).

Definition set_response (ok : bool) (msg : string) (c : call_data) : call_data :=
  {| method := method c; request_ := request_ c;
     response_ := respond (class_of (method c)) ok msg; state_ := state_ c |}.

(** Every class requests its own method, clones itself, and answers alike. *)
Lemma class_requests m : requests (class_of m) = m.
Proof. by destruct m. Qed.
Lemma class_clones m : clones (class_of m) = m.
Proof. by destruct m. Qed.
Lemma class_respond m ok msg : respond (class_of m) ok msg = {| success := ok; message := msg |}.
Proof. by destruct m. Qed.
Lemma class_status m ok r :
  finish_status (class_of m) ok r = if ok then OK else INTERNAL (message r).
Proof. by destruct m. Qed.

Section calls.
Context `{JL : JsonLib} {P : Type} `{PB : Publisher P}.

Definition build_payload (r : request) : option string :=
  json_dump (object (payload_fields r)).

Record world : Type := {
  heap : gmap addr call_data;
  next : addr;
  ops : list op;
  waiting : list addr;
  published : list (addr * (string * string));
  answered : list (addr * (Response * grpc_status));
  publisher : P
}.

Definition set_heap (f : gmap addr call_data → gmap addr call_data) (w : world) : world :=
  {| heap := f (heap w); next := next w; ops := ops w; waiting := waiting w;
     published := published w; answered := answered w; publisher := publisher w |}.
Definition alloc (c : call_data) (w : world) : world :=
  {| heap := <[next w := c]> (heap w); next := S (next w); ops := ops w;
     waiting := waiting w; published := published w; answered := answered w;
     publisher := publisher w |}.
Definition set_ops (l : list op) (w : world) : world :=
  {| heap := heap w; next := next w; ops := l; waiting := waiting w;
     published := published w; answered := answered w; publisher := publisher w |}.
Definition set_waiting (l : list addr) (w : world) : world :=
  {| heap := heap w; next := next w; ops := ops w; waiting := l;
     published := published w; answered := answered w; publisher := publisher w |}.
Definition log_published (a : addr) (t s : string) (p : P) (w : world) : world :=
  {| heap := heap w; next := next w; ops := ops w; waiting := waiting w;
     published := published w ++ [(a, (t, s))]; answered := answered w; publisher := p |}.
Definition log_answer (a : addr) (r : Response) (st : grpc_status) (w : world) : world :=
  {| heap := heap w; next := next w; ops := ops w; waiting := waiting w;
     published := published w; answered := answered w ++ [(a, (r, st))];
     publisher := publisher w |}.

(** Access to [*this]. *)
Definition this (a : addr) : M world call_data :=
  w ← get;
  match heap w !! a with
  | Some c => mret c
  | None => undefined
  end.
Definition update (a : addr) (f : call_data → call_data) : M world unit :=
  c ← this a; modify (set_heap (insert a (f c))).
Definition delete_this (a : addr) : M world unit :=
  this a ;; modify (set_heap (delete a)).
Definition start_op (o : op) : M world unit :=
  modify (λ w, set_ops (ops w ++ [o]) w).

(** [new XCallData(svc, cq, publish)]. *)
Definition new_call (m : rpc) : call_data :=
  match m with
  | SendEta => new_EtaCallData
  | SendStatus => new_StatusCallData
  | SendArrive => new_ArriveCallData
  | UpdateVehicleLocation => new_UpdateLocationCallData
  | TripInit => new_TripInitCallData
  | TripMove => new_TripMoveCallData
  end.
Lemma new_call_fields m : new_call m = CallDataBase m.
Proof. by destruct m. Qed.
Definition new_CallData (m : rpc) : M world addr :=
  a ← gets next; modify (alloc (new_call m)) ;; mret a.

(** [register_rpc]. *)
Definition register_rpc (a : addr) : M world unit :=
  c ← this a; start_op (OpRequest (requests (class_of (method c))) a).

(** [clone]. *)
Definition clone (a : addr) : M world addr :=
  c ← this a; new_CallData (clones (class_of (method c))).

(** [finish_rpc]. *)
Definition finish_rpc (a : addr) (ok : bool) : M world unit :=
  c ← this a;
  start_op (OpFinish a) ;;
  modify (log_answer a (response_ c)
            (finish_status (class_of (method c)) ok (response_ c))).

(** The lambda passed to [publish_]. *)
Definition on_published (a : addr) (ok : bool) (err : string) : M world unit :=
  (if ok then update a (set_response true "ok")
   else update a (set_response false ("mqtt publish failed: " ++ err))) ;;
  finish_rpc a ok.

(** [Proceed] in state [CREATE]. *)
Definition proceed_create (a : addr) : M world unit :=
  update a (set_state PROCESS) ;; register_rpc a.

(** [publish_(topic, payload, callback)]. *)
Definition publish_call (a : addr) (topic payload : string) : M world unit :=
  w ← get;
  let '(r, p) := publish topic payload (publisher w) in
  modify (log_published a topic payload p) ;;
  match r with
  | Some (ok, err) => on_published a ok err
  | None => modify (λ w, set_waiting (waiting w ++ [a]) w)
  end.

(** [Proceed]. The clone is in state [CREATE], so its [Proceed] registers it. *)
Definition Proceed (a : addr) : M world unit :=
  c ← this a;
  match state_ c with
  | CREATE => proceed_create a
  | PROCESS =>
      b ← clone a;
      proceed_create b ;;
      payload ← json_try (build_payload (request_ c));
      update a (set_state FINISH) ;;
      publish_call a (mqtt_topic (method c)) payload
  | FINISH => delete_this a
  end.

(** What happens to the calls: someone calls [Proceed] on a new one, gRPC
    reports a request (and has filled [request_]) or that an answer was sent,
    the publisher runs a callback it kept. *)
Inductive event : Type :=
| Start (a : addr)
| Accept (a : addr) (r : request)
| Sent (a : addr)
| Published (a : addr) (ok : bool) (err : string).

Definition run_event (e : event) : M world unit :=
  match e with
  | Start a => Proceed a
  | Accept a r =>
      modify (λ w, set_ops (remove_one (OpRequest (method_of r) a) (ops w)) w) ;;
      update a (set_request r) ;; Proceed a
  | Sent a =>
      modify (λ w, set_ops (remove_one (OpFinish a) (ops w)) w) ;; Proceed a
  | Published a ok err =>
      modify (λ w, set_waiting (remove_one a (waiting w)) w) ;; on_published a ok err
  end.

(** gRPC reports what was started, the publisher runs a callback once. *)
Definition possible (w : world) (e : event) : Prop :=
  match e with
  | Start a => state_ <$> heap w !! a = Some CREATE
  | Accept a r => OpRequest (method_of r) a ∈ ops w
  | Sent a => OpFinish a ∈ ops w
  | Published a _ _ => a ∈ waiting w
  end.

#[export] Instance possible_dec w e : Decision (possible w e).
Proof. destruct e; simpl; apply _. Defined.

(** The six calls of [GrpcServer::start]. *)
Definition empty_world (p : P) : world :=
  {| heap := ∅; next := 0; ops := []; waiting := []; published := []; answered := [];
     publisher := p |}.
Definition methods : list rpc :=
  [SendEta; SendStatus; SendArrive; UpdateVehicleLocation; TripInit; TripMove].
Definition init_world (p : P) : world :=
  exec (for_each (λ m, new_CallData m ;; mret tt) methods) (empty_world p).

Inductive step (w : world) (e : event) (w' : world) : Prop :=
| step_run : possible w e → run_event e w = (Ret tt, w') → step w e w'.

Inductive steps (w : world) : list event → world → Prop :=
| steps_nil : steps w [] w
| steps_snoc es w' e w'' : steps w es w' → step w' e w'' → steps w (es ++ [e]) w''.

(** ** The invariant *)

(** A call between its creation and its first request. *)
Definition awaits (w : world) (m : rpc) (a : addr) : Prop :=
  ∃ c, heap w !! a = Some c ∧ method c = m ∧ state_ c ≠ FINISH.

(** A call holds its registration while it is in state [PROCESS], and its answer,
    or the callback that will send it, once it is in state [FINISH]. *)
Definition registered (m : rpc) (c : option call_data) : nat :=
  match c with
  | Some c => Nat.b2n (bool_decide (state_ c = PROCESS ∧ method c = m))
  | None => 0
  end.

Definition answering (c : option call_data) : nat :=
  match c with
  | Some c => Nat.b2n (bool_decide (state_ c = FINISH))
  | None => 0
  end.

Record invariant (w : world) : Prop := {
  inv_next a c : heap w !! a = Some c → a < next w;
  inv_registered m a : occ (OpRequest m a) (ops w) = registered m (heap w !! a);
  inv_answering a : occ (OpFinish a) (ops w) + occ a (waiting w) = answering (heap w !! a);
  inv_method a c : heap w !! a = Some c → method_of (request_ c) = method c;
  inv_awaits m : ∃ a, ∀ b, awaits w m b ↔ b = a;
  inv_nodup : NoDup (published w).*1;
  inv_published a : a ∈ (published w).*1 ↔
    a < next w ∧ match heap w !! a with Some c => state_ c = FINISH | None => True end;
  inv_answered : (published w).*1 ≡ₚ (answered w).*1 ++ waiting w
}.

End calls.

Arguments world : clear implicits.

(** ** The effect of each event *)

Section effects.
Context `{JL : JsonLib} {P : Type} `{PB : Publisher P}.
Implicit Types (w : world P) (c : call_data) (a : addr).

Lemma call_this_run a w c : heap w !! a = Some c → this a w = (Ret c, w).
Proof. intros Hc. unfold this. rewrite bind_unfold. simpl. by rewrite Hc. Qed.

Lemma call_update_run a f w c :
  heap w !! a = Some c → update a f w = (Ret tt, set_heap (insert a (f c)) w).
Proof. intros Hc. unfold update. by rewrite (bind_run _ _ _ _ _ (call_this_run a w c Hc)). Qed.

Lemma call_delete_this_run a w c :
  heap w !! a = Some c → delete_this a w = (Ret tt, set_heap (delete a) w).
Proof. intros Hc. unfold delete_this. by rewrite (bind_run _ _ _ _ _ (call_this_run a w c Hc)). Qed.

Lemma proceed_create_run a w c :
  heap w !! a = Some c →
  proceed_create a w =
  (Ret tt, set_ops (ops w ++ [OpRequest (method c) a])
             (set_heap (insert a (set_state PROCESS c)) w)).
Proof.
  intros Hc. unfold proceed_create. rewrite (bind_run _ _ _ _ _ (call_update_run a _ w c Hc)).
  unfold register_rpc. erewrite bind_run; [|apply call_this_run, lookup_insert_eq].
  cbn [method set_state]. by rewrite class_requests.
Qed.

(** The answer to a call whose publish reported [ok] and [err]. *)
Definition answer (ok : bool) (err : string) : Response * grpc_status :=
  if ok then ({| success := true; message := "ok" |}, OK)
  else ({| success := false; message := "mqtt publish failed: " ++ err |},
        INTERNAL ("mqtt publish failed: " ++ err)).

Definition answered_call (ok : bool) (err : string) (c : call_data) : call_data :=
  {| method := method c; request_ := request_ c; response_ := (answer ok err).1;
     state_ := state_ c |}.

(** The state after a call was answered. *)
Definition answer_world (a : addr) (ok : bool) (err : string) (c : call_data) (w : world P)
    : world P :=
  log_answer a (answer ok err).1 (answer ok err).2
    (set_ops (ops w ++ [OpFinish a]) (set_heap (insert a (answered_call ok err c)) w)).

Lemma on_published_run a ok err w c :
  heap w !! a = Some c →
  on_published a ok err w = (Ret tt, answer_world a ok err c w).
Proof.
  intros Hc. unfold on_published.
  destruct ok; rewrite (bind_run _ _ _ _ _ (call_update_run a _ w c Hc)); unfold finish_rpc;
    (erewrite bind_run; [|apply call_this_run, lookup_insert_eq]);
    unfold set_response; rewrite class_respond; cbn [method response_];
    rewrite bind_unfold; cbn [start_op modify]; by rewrite class_status.
Qed.

(** The state after a request was taken and its sibling registered. *)
Definition sibling (m : rpc) : call_data := set_state PROCESS (CallDataBase m).
Definition taken_call (r : request) (c : call_data) : call_data :=
  set_state FINISH (set_request r c).
Definition taken_world (a : addr) (r : request) (c : call_data) (w : world P) : world P :=
  set_heap (insert a (taken_call r c))
    (set_ops (remove_one (OpRequest (method_of r) a) (ops w) ++ [OpRequest (method c) (next w)])
       (alloc (sibling (method c)) w)).

(** The publication of a request and what its result leads to. *)
Definition published_world (a : addr) (r : request) (c : call_data) (s : string) (w : world P)
    : world P :=
  let topic := mqtt_topic (method c) in
  let '(res, p) := publish topic s (publisher w) in
  let w1 := log_published a topic s p (taken_world a r c w) in
  match res with
  | Some (ok, err) => answer_world a ok err (taken_call r c) w1
  | None => set_waiting (waiting w ++ [a]) w1
  end.

Lemma Proceed_process_run a w c s :
  heap w !! a = Some c → a < next w → state_ c = PROCESS →
  build_payload (request_ c) = Some s →
  Proceed a w =
  publish_call a (mqtt_topic (method c)) s
    (set_heap (insert a (set_state FINISH c))
       (set_ops (ops w ++ [OpRequest (method c) (next w)]) (alloc (sibling (method c)) w))).
Proof.
  intros Hc Hlt Hs Hp. unfold Proceed. rewrite (bind_run _ _ _ _ _ (call_this_run a w c Hc)), Hs.
  unfold clone. rewrite bind_unfold, (bind_run _ _ _ _ _ (call_this_run a w c Hc)), class_clones.
  change (new_CallData (method c) w) with (Ret (next w), alloc (new_call (method c)) w).
  cbv beta iota. rewrite new_call_fields.
  erewrite bind_run by apply proceed_create_run, lookup_insert_eq.
  rewrite bind_json_try, Hp.
  erewrite bind_run; [|apply (call_update_run a _ _ c); simpl; rewrite !lookup_insert_ne by lia; done].
  unfold set_ops, set_heap, alloc. simpl. by rewrite insert_insert_eq.
Qed.

Lemma overwrite a b c1 c2 c3 (h : gmap addr call_data) :
  a ≠ b → <[a := c1]> (<[b := c2]> (<[a := c3]> h)) = <[a := c1]> (<[b := c2]> h).
Proof. intros Hne. by rewrite (insert_insert_ne _ b a), insert_insert_eq. Qed.

Lemma accept_run a r w c s :
  heap w !! a = Some c → a < next w → state_ c = PROCESS → method_of r = method c →
  build_payload r = Some s →
  run_event (Accept a r) w = (Ret tt, published_world a r c s w).
Proof.
  intros Hc Hlt Hs Hr Hp. cbn [run_event]. rewrite bind_unfold. cbn [modify].
  set (w0 := set_ops (remove_one _ (ops w)) w).
  assert (Hc0 : heap w0 !! a = Some c) by done.
  rewrite (bind_run _ _ _ _ _ (call_update_run a _ w0 c Hc0)).
  rewrite (Proceed_process_run a _ (set_request r c) s); [|apply lookup_insert_eq|done|done|done].
  unfold publish_call. rewrite bind_unfold. cbn [get]. unfold published_world.
  simpl. destruct (publish _ s (publisher w)) as [[[ok err]|] p]; rewrite bind_unfold; simpl.
  - erewrite on_published_run by apply lookup_insert_eq.
    unfold answer_world, taken_world, log_published, set_ops, set_heap, alloc. simpl.
    by rewrite !insert_insert_eq, overwrite by lia.
  - unfold set_waiting, taken_world, log_published, set_ops, set_heap, alloc. simpl.
    by rewrite overwrite by lia.
Qed.

End effects.

(** ** Every event keeps the invariant *)

Section preservation.
Context `{JL : JsonLib} {P : Type} `{PB : Publisher P}.
Implicit Types (w : world P) (c : call_data) (a b : addr).

(** What an event did to the calls: [a] is now [c'], and [new] calls were
    registered after it. *)
Lemma awaits_update w w' a c c' m b :
  heap w !! a = Some c → heap w' = <[a := c']> (heap w) →
  method c' = method c → (state_ c' = FINISH ↔ state_ c = FINISH) →
  awaits w' m b ↔ awaits w m b.
Proof.
  intros Hc Hh Hm Hs. unfold awaits. rewrite Hh.
  destruct (decide (b = a)) as [->|Hne]; [|by rewrite lookup_insert_ne by done].
  rewrite lookup_insert_eq, Hc. split; intros (x & [= <-] & <- & Hx); eexists; split_and!; try done;
    tauto || congruence.
Qed.

Lemma start_preserves w a c :
  invariant w → heap w !! a = Some c → state_ c = CREATE →
  invariant (set_ops (ops w ++ [OpRequest (method c) a])
               (set_heap (insert a (set_state PROCESS c)) w)).
Proof.
  intros [Hn Hreg Hans Hm Haw Hnd Hpub Hperm] Hc Hs. split; simpl.
  - intros b x [[<- _]|[_ Hx]]%lookup_insert_Some; eauto.
  - intros m b. rewrite occ_app, occ_single, Hreg.
    destruct (decide (b = a)) as [->|Hne].
    + rewrite lookup_insert_eq, Hc. simpl. rewrite Hs.
      repeat case_decide; simplify_eq; repeat case_bool_decide; naive_solver.
    + rewrite lookup_insert_ne, (decide_False (P:=_ = _)) by congruence. lia.
  - intros b. rewrite occ_app, occ_single, (decide_False (P:=_ = _)) by done.
    specialize (Hans b). destruct (decide (b = a)) as [->|Hne].
    + rewrite lookup_insert_eq. rewrite Hc in Hans. simpl in *. rewrite Hs in Hans.
      case_bool_decide; [done|]. simpl in *. lia.
    + rewrite lookup_insert_ne by done. lia.
  - intros b x [[<- <-]|[_ Hx]]%lookup_insert_Some; simpl; eauto.
  - intros m. destruct (Haw m) as [b Hb]. exists b. intros b'. rewrite <- Hb.
    eapply awaits_update; [done|done|done|]. simpl. by rewrite Hs.
  - done.
  - intros b. rewrite Hpub. destruct (decide (b = a)) as [->|Hne].
    + rewrite lookup_insert_eq, Hc. simpl. rewrite Hs. naive_solver.
    + by rewrite lookup_insert_ne.
  - done.
Qed.

Lemma sent_preserves w a c :
  invariant w → heap w !! a = Some c → state_ c = FINISH → OpFinish a ∈ ops w →
  invariant (set_heap (delete a) (set_ops (remove_one (OpFinish a) (ops w)) w)).
Proof.
  intros [Hn Hreg Hans Hm Haw Hnd Hpub Hperm] Hc Hs Ho. split; simpl.
  - intros b x [_ Hx]%lookup_delete_Some; eauto.
  - intros m b. rewrite occ_remove, (decide_False (P:=_ = _)), Hreg by done.
    destruct (decide (b = a)) as [->|Hne].
    + rewrite lookup_delete_eq, Hc. simpl. rewrite Hs. by case_bool_decide; [naive_solver|].
    + rewrite lookup_delete_ne by done. lia.
  - intros b. rewrite occ_remove by done. specialize (Hans b).
    destruct (decide (b = a)) as [->|Hne].
    + rewrite lookup_delete_eq, decide_True by done. rewrite Hc in Hans. simpl in *.
      apply occ_pos in Ho. case_bool_decide; [|done]. simpl in Hans. lia.
    + rewrite lookup_delete_ne, (decide_False (P:=_ = _)) by congruence. lia.
  - intros b x [_ Hx]%lookup_delete_Some; eauto.
  - intros m. destruct (Haw m) as [b Hb]. exists b. intros b'. rewrite <- Hb.
    unfold awaits. simpl. destruct (decide (b' = a)) as [->|Hne].
    + rewrite lookup_delete_eq, Hc. naive_solver.
    + by rewrite lookup_delete_ne.
  - done.
  - intros b. rewrite Hpub. destruct (decide (b = a)) as [->|Hne].
    + rewrite lookup_delete_eq, Hc. naive_solver.
    + by rewrite lookup_delete_ne.
  - done.
Qed.

Lemma answer_preserves w a ok err c :
  invariant w → heap w !! a = Some c → state_ c = FINISH → a ∈ waiting w →
  invariant (answer_world a ok err c (set_waiting (remove_one a (waiting w)) w)).
Proof.
  intros [Hn Hreg Hans Hm Haw Hnd Hpub Hperm] Hc Hs Ho. split; simpl.
  - intros b x [[<- _]|[_ Hx]]%lookup_insert_Some; eauto.
  - intros m b. rewrite occ_app, occ_single, (decide_False (P:=_ = _)), Hreg by done.
    destruct (decide (b = a)) as [->|Hne].
    + rewrite lookup_insert_eq, Hc. simpl. lia.
    + rewrite lookup_insert_ne by done. lia.
  - intros b. rewrite occ_app, occ_single, occ_remove by done. specialize (Hans b).
    destruct (decide (b = a)) as [->|Hne].
    + rewrite lookup_insert_eq, !decide_True by done. rewrite Hc in Hans. simpl in *.
      apply occ_pos in Ho. lia.
    + rewrite lookup_insert_ne, !(decide_False (P:=_ = _)) by congruence. lia.
  - intros b x [[<- <-]|[_ Hx]]%lookup_insert_Some; simpl; eauto.
  - intros m. destruct (Haw m) as [b Hb]. exists b. intros b'. rewrite <- Hb.
    by eapply awaits_update.
  - done.
  - intros b. rewrite Hpub. destruct (decide (b = a)) as [->|Hne].
    + rewrite lookup_insert_eq, Hc. done.
    + by rewrite lookup_insert_ne.
  - rewrite fmap_app, Hperm, <- (assoc_L (++)). f_equiv. simpl. by apply remove_one_perm.
Qed.

(** Taking a request: the sibling replaces [a], which either has its answer under
    way or waits for the publisher. *)
Record took (a : addr) (m : rpc) (now : bool) (c' : call_data) (w w' : world P) : Prop := {
  took_heap : heap w' = <[a := c']> (<[next w := sibling m]> (heap w));
  took_next : next w' = S (next w);
  took_ops : ops w' = remove_one (OpRequest m a) (ops w) ++ [OpRequest m (next w)] ++
                      (if now then [OpFinish a] else []);
  took_waiting : waiting w' = waiting w ++ (if now then [] else [a]);
  took_published : (published w').*1 = (published w).*1 ++ [a];
  took_answered : (answered w').*1 = (answered w).*1 ++ (if now then [a] else []);
  took_state : state_ c' = FINISH;
  took_method : method c' = m;
  took_request : method_of (request_ c') = m
}.

Lemma published_world_took a r c s w :
  method_of r = method c →
  ∃ now c', took a (method c) now c' w (published_world a r c s w).
Proof.
  intros Hr. unfold published_world. destruct (publish _ _ _) as [[[ok err]|] p].
  - exists true, (answered_call ok err (taken_call r c)). split; simpl; try done.
    + by rewrite !insert_insert_eq.
    + by rewrite Hr, <- (assoc_L (++)).
    + by rewrite app_nil_r.
    + by rewrite fmap_app.
    + by rewrite fmap_app.
  - exists false, (taken_call r c). split; simpl; rewrite ?app_nil_r, ?Hr, ?fmap_app; done.
Qed.

Lemma took_lookup a m now c' w w' b :
  took a m now c' w w' →
  heap w' !! b = if decide (b = a) then Some c'
                 else if decide (b = next w) then Some (sibling m) else heap w !! b.
Proof.
  intros Ht. rewrite (took_heap _ _ _ _ _ _ Ht).
  destruct (decide (b = a)) as [->|Hne]; [by rewrite lookup_insert_eq|].
  rewrite lookup_insert_ne by done. destruct (decide (b = next w)) as [->|Hne'].
  - by rewrite lookup_insert_eq.
  - by rewrite lookup_insert_ne.
Qed.

Lemma took_awaits a c c' now w w' m :
  invariant w → heap w !! a = Some c → state_ c = PROCESS → took a (method c) now c' w w' →
  ∃ b, ∀ b', awaits w' m b' ↔ b' = b.
Proof.
  intros Hi Hc Hs Ht. destruct (inv_awaits _ Hi m) as [b Hb].
  pose proof (inv_next _ Hi _ _ Hc) as Hlt.
  assert (Haw : ∀ b', awaits w' m b' ↔
            b' ≠ a ∧ (b' = next w ∧ method c = m ∨ b' ≠ next w ∧ awaits w m b')).
  { intros b'. unfold awaits at 1. rewrite (took_lookup _ _ _ _ _ _ b' Ht).
    destruct (decide (b' = a)) as [->|Hne].
    - split; [|tauto]. intros (x & [= <-] & _ & Hx). by rewrite (took_state _ _ _ _ _ _ Ht) in Hx.
    - destruct (decide (b' = next w)) as [->|Hne']; [|unfold awaits; tauto].
      split; [|naive_solver]. intros (x & [= <-] & <- & _). auto. }
  assert (Hnew : ¬ awaits w m (next w)).
  { intros (x & Hx%(inv_next _ Hi) & _). lia. }
  destruct (decide (method c = m)) as [Hm|Hm].
  - exists (next w). intros b'. rewrite Haw.
    assert (a = b) as -> by (apply Hb; exists c; split_and!; congruence).
    rewrite Hb. split; [naive_solver|]. intros ->. split; [lia|by left].
  - exists b. intros b'. rewrite Haw, Hb. split; [naive_solver|]. intros ->.
    assert (Ha : awaits w m b) by by apply Hb. split; [|right; split; [|done]].
    + intros ->. destruct Ha as (x & Hx & Hxm & _). congruence.
    + intros ->. done.
Qed.

Lemma took_answering a c c' now w w' b :
  invariant w → heap w !! a = Some c → state_ c = PROCESS →
  OpRequest (method c) a ∈ ops w → took a (method c) now c' w w' →
  occ (OpFinish b) (ops w') + occ b (waiting w') = answering (heap w' !! b).
Proof.
  intros Hi Hc Hs Ho Ht. pose proof (inv_answering _ Hi b) as Hans.
  pose proof (inv_next _ Hi _ _ Hc) as Hlt.
  assert (Hnone : heap w !! next w = None).
  { destruct (heap w !! next w) eqn:Hx; [apply (inv_next _ Hi) in Hx; lia|done]. }
  rewrite (took_lookup _ _ _ _ _ _ b Ht), (took_ops _ _ _ _ _ _ Ht), (took_waiting _ _ _ _ _ _ Ht),
    !occ_app, occ_single, occ_remove, !(decide_False (P:=OpFinish b = OpRequest _ _)) by done.
  assert (Hone : occ (OpFinish b) (if now then [OpFinish a] else []) +
                 occ b (if now then [] else [a]) = if decide (b = a) then 1 else 0).
  { destruct now; rewrite occ_single; unfold occ; simpl; repeat case_decide; simplify_eq; lia. }
  destruct (decide (b = a)) as [->|Hne].
  - rewrite Hc in Hans. simpl in *. rewrite (took_state _ _ _ _ _ _ Ht). rewrite Hs in Hans.
    simpl in *. lia.
  - destruct (decide (b = next w)) as [->|Hne']; [rewrite Hnone in Hans; simpl in *; lia|lia].
Qed.

Lemma took_preserves a c c' now w w' :
  invariant w → heap w !! a = Some c → state_ c = PROCESS →
  OpRequest (method c) a ∈ ops w → took a (method c) now c' w w' → invariant w'.
Proof.
  intros Hi Hc Hs Ho Ht. pose proof Hi as [Hn Hreg Hans Hm Haw Hnd Hpub Hperm].
  pose proof (Hn _ _ Hc) as Hlt.
  assert (Hnone : heap w !! next w = None).
  { destruct (heap w !! next w) eqn:Hx; [apply Hn in Hx; lia|done]. }
  assert (Hna : a ∉ (published w).*1) by (rewrite Hpub, Hc; rewrite Hs; naive_solver).
  assert (Hlook := λ b, took_lookup _ _ _ _ _ _ b Ht).
  split; rewrite ?(took_next _ _ _ _ _ _ Ht), ?(took_published _ _ _ _ _ _ Ht).
  - intros b x. rewrite Hlook. repeat case_decide; [lia|lia|]. intros ?%Hn. lia.
  - intros m b. rewrite Hlook, (took_ops _ _ _ _ _ _ Ht), !occ_app, occ_single, occ_remove by done.
    assert (Hfin : occ (OpRequest m b) (if now then [OpFinish a] else []) = 0).
    { destruct now; [|done]. by rewrite occ_single, decide_False. }
    rewrite Hfin, Hreg. pose proof (took_state _ _ _ _ _ _ Ht) as Hs'.
    destruct (decide (b = a)) as [->|Hne].
    + rewrite Hc. simpl. rewrite Hs, Hs', (decide_False (P:=_ = OpRequest _ (next w))).
      2: { intros [= _ ?]. lia. }
      rewrite (bool_decide_false (FINISH = PROCESS ∧ _)) by naive_solver.
      repeat case_decide; repeat case_bool_decide; simplify_eq; simpl; first [lia|naive_solver].
    + rewrite (decide_False (P:=_ = OpRequest _ a)) by congruence.
      destruct (decide (b = next w)) as [->|Hne']; [|rewrite decide_False by congruence; lia].
      rewrite Hnone. simpl. repeat case_decide; repeat case_bool_decide; simplify_eq; naive_solver.
  - intros b. by eapply took_answering.
  - intros b x. rewrite Hlook. repeat case_decide.
    + intros [= <-]. by rewrite (took_request _ _ _ _ _ _ Ht), (took_method _ _ _ _ _ _ Ht).
    + intros [= <-]. by destruct (method c).
    + apply Hm.
  - intros m. by eapply took_awaits.
  - apply NoDup_app. split_and!; [done| |apply NoDup_singleton].
    intros b Hb ->%list_elem_of_singleton. done.
  - intros b. rewrite elem_of_app, list_elem_of_singleton, Hpub, Hlook.
    pose proof (took_state _ _ _ _ _ _ Ht).
    repeat case_decide; subst; rewrite ?Hnone; naive_solver lia.
  - rewrite (took_answered _ _ _ _ _ _ Ht), (took_waiting _ _ _ _ _ _ Ht), Hperm.
    destruct now; rewrite ?app_nil_r, <- !(assoc_L (++)); [|done].
    apply Permutation_app_head, Permutation_app_comm.
Qed.

(** ** Every possible event runs and keeps the invariant *)

Lemma possible_call w e :
  invariant w → possible w e →
  match e with
  | Start a => ∃ c, heap w !! a = Some c ∧ state_ c = CREATE
  | Accept a r => ∃ c, heap w !! a = Some c ∧ state_ c = PROCESS ∧ method_of r = method c
  | Sent a | Published a _ _ => ∃ c, heap w !! a = Some c ∧ state_ c = FINISH
  end.
Proof.
  intros Hi. destruct e as [a|a r|a|a ok err]; simpl.
  - intros (c & Hs & Hc)%fmap_Some. eauto.
  - intros Ho%occ_pos. rewrite (inv_registered _ Hi) in Ho.
    destruct (heap w !! a) as [c|]; simpl in Ho; [|lia].
    case_bool_decide; simpl in Ho; [naive_solver|lia].
  - intros Ho%occ_pos. pose proof (inv_answering _ Hi a).
    destruct (heap w !! a) as [c|]; simpl in *; [|lia].
    case_bool_decide; simpl in *; [naive_solver|lia].
  - intros Ho%occ_pos. pose proof (inv_answering _ Hi a).
    destruct (heap w !! a) as [c|]; simpl in *; [|lia].
    case_bool_decide; simpl in *; [naive_solver|lia].
Qed.

(** The payload of a request that is taken can be dumped. *)
Definition dumpable (e : event) : Prop :=
  match e with Accept _ r => is_Some (build_payload r) | _ => True end.

Lemma possible_runs w e :
  invariant w → possible w e → dumpable e →
  ∃ w', run_event e w = (Ret tt, w') ∧ invariant w'.
Proof.
  intros Hi Hp Hd. pose proof (possible_call w e Hi Hp) as Hcall.
  destruct e as [a|a r|a|a ok err]; simpl in Hp, Hd.
  - destruct Hcall as (c & Hc & Hs). eexists. split; [|by eapply start_preserves].
    cbn [run_event]. unfold Proceed. rewrite (bind_run _ _ _ _ _ (call_this_run a w c Hc)), Hs.
    by apply proceed_create_run.
  - destruct Hcall as (c & Hc & Hs & Hr). destruct Hd as [s Hd].
    destruct (published_world_took a r c s w Hr) as (now & c' & Ht).
    exists (published_world a r c s w). split; [|].
    + apply accept_run; try done. by eapply inv_next.
    + eapply took_preserves; try done. by rewrite <- Hr.
  - destruct Hcall as (c & Hc & Hs). eexists. split; [|by eapply sent_preserves].
    cbn [run_event]. rewrite bind_unfold. cbn [modify].
    set (w0 := set_ops _ w). assert (Hc0 : heap w0 !! a = Some c) by done.
    unfold Proceed. rewrite (bind_run _ _ _ _ _ (call_this_run a w0 c Hc0)), Hs.
    by rewrite (call_delete_this_run a w0 c Hc0).
  - destruct Hcall as (c & Hc & Hs). eexists. split; [|by eapply answer_preserves].
    cbn [run_event]. rewrite bind_unfold. cbn [modify]. by apply on_published_run.
Qed.

Lemma accept_throws w a r :
  invariant w → possible w (Accept a r) → build_payload r = None →
  fst (run_event (Accept a r) w) = Exn JsonException.
Proof.
  intros Hi Hp Hd. destruct (possible_call w _ Hi Hp) as (c & Hc & Hs & Hr).
  cbn [run_event]. rewrite bind_unfold. cbn [modify]. set (w0 := set_ops _ w).
  assert (Hc0 : heap w0 !! a = Some c) by done.
  rewrite (bind_run _ _ _ _ _ (call_update_run a _ w0 c Hc0)). unfold Proceed.
  erewrite bind_run by apply call_this_run, lookup_insert_eq. simpl. rewrite Hs. unfold clone.
  erewrite bind_run; [|erewrite bind_run by apply call_this_run, lookup_insert_eq; reflexivity].
  erewrite bind_run by apply proceed_create_run, lookup_insert_eq.
  by rewrite bind_json_try, Hd.
Qed.

Lemma call_step_invariant w e w' : step w e w' → invariant w → invariant w'.
Proof.
  intros [Hp Hrun] Hi. destruct e as [a|a r|a|a ok err];
    try (destruct (possible_runs w _ Hi Hp I) as (w1 & Hrun1 & Hi1); congruence).
  destruct (build_payload r) as [s|] eqn:Hd.
  - destruct (possible_runs w _ Hi Hp (ltac:(by exists s))) as (w1 & Hrun1 & Hi1). congruence.
  - pose proof (accept_throws w a r Hi Hp Hd) as Hth. by rewrite Hrun in Hth.
Qed.

End preservation.

(** ** Executions *)

Section executions.
Context `{JL : JsonLib} {P : Type} `{PB : Publisher P}.
Implicit Types (w : world P) (a : addr).

Definition reachable (p : P) w : Prop := ∃ es, steps (init_world p) es w.

(** The payload a request is published with. *)
Definition publication (e : event) : option (addr * (string * string)) :=
  match e with
  | Accept a r => s ← build_payload r; Some (a, (mqtt_topic (method_of r), s))
  | _ => None
  end.

Lemma init_lookup (p : P) a : heap (init_world p) !! a = (CallDataBase <$> methods) !! a.
Proof.
  assert (Hh : heap (init_world p) = foldr (λ am, <[am.1 := new_call am.2]>) ∅
    [(5, TripMove); (4, TripInit); (3, UpdateVehicleLocation); (2, SendArrive);
     (1, SendStatus); (0, SendEta)]) by reflexivity.
  rewrite Hh. cbn [foldr fst snd].
  repeat match goal with
  | |- context [<[?k := ?x]> ?m !! a] =>
      destruct (decide (a = k)) as [->|?];
      [rewrite lookup_insert_eq; reflexivity|rewrite (lookup_insert_ne m k a) by done]
  end.
  rewrite lookup_empty. symmetry. apply lookup_ge_None_2. simpl. lia.
Qed.

Lemma init_call (p : P) a c :
  heap (init_world p) !! a = Some c → ∃ m, methods !! a = Some m ∧ c = CallDataBase m.
Proof. rewrite init_lookup, list_lookup_fmap. intros (m & Hm & ->)%fmap_Some. eauto. Qed.

Lemma methods_index m : ∃ a, ∀ b, methods !! b = Some m ↔ b = a.
Proof.
  destruct m; [exists 0|exists 1|exists 2|exists 3|exists 4|exists 5];
    intros [|[|[|[|[|[|b]]]]]]; naive_solver.
Qed.

Lemma call_init_invariant (p : P) : invariant (init_world p).
Proof.
  split.
  - intros a c (m & Hm%lookup_lt_Some & _)%init_call. exact Hm.
  - intros m a. destruct (heap _ !! a) as [c|] eqn:Hc; [|done].
    apply init_call in Hc as (m' & _ & ->). unfold registered.
    rewrite bool_decide_false; [done|naive_solver].
  - intros a. destruct (heap _ !! a) as [c|] eqn:Hc; [|done].
    by apply init_call in Hc as (m' & _ & ->).
  - intros a c (m & _ & ->)%init_call. by destruct m.
  - intros m. destruct (methods_index m) as [a Ha]. exists a. intros b. rewrite <- Ha.
    unfold awaits. split.
    + intros (c & (m' & Hm & ->)%init_call & <- & _). done.
    + intros Hm. exists (CallDataBase m). by rewrite init_lookup, list_lookup_fmap, Hm.
  - constructor.
  - intros a. split; [by intros ?%elem_of_nil|]. intros [Hlt Hs]. exfalso.
    rewrite init_lookup, list_lookup_fmap in Hs.
    destruct (lookup_lt_is_Some_2 methods a Hlt) as [m Hm]. by rewrite Hm in Hs.
  - done.
Qed.

Lemma call_reachable_invariant (p : P) w : reachable p w → invariant w.
Proof.
  intros [es Hs]. induction Hs; [apply call_init_invariant|by eapply call_step_invariant].
Qed.

Lemma step_published w e w' :
  invariant w → step w e w' → published w' = published w ++ option_list (publication e).
Proof.
  intros Hi [Hp Hrun]. pose proof (possible_call w e Hi Hp) as Hcall.
  destruct e as [a|a r|a|a ok err]; simpl in Hp; destruct Hcall as (c & Hc & Hs);
    cbn [publication option_list]; rewrite ?app_nil_r.
  - cbn [run_event] in Hrun. unfold Proceed in Hrun.
    rewrite (bind_run _ _ _ _ _ (call_this_run a w c Hc)), Hs, (proceed_create_run a w c Hc) in Hrun.
    by injection Hrun as <-.
  - destruct Hs as [Hs Hr]. destruct (build_payload r) as [s|] eqn:Hd.
    + rewrite (accept_run a r w c s) in Hrun; try done; [|by eapply inv_next].
      injection Hrun as <-. unfold published_world. rewrite Hr.
      by destruct (publish _ s (publisher w)) as [[[ok err]|] p].
    + pose proof (accept_throws w a r Hi Hp Hd) as Hth. by rewrite Hrun in Hth.
  - cbn [run_event] in Hrun. rewrite bind_unfold in Hrun. cbn [modify] in Hrun.
    set (w0 := set_ops _ w) in Hrun. assert (Hc0 : heap w0 !! a = Some c) by done.
    unfold Proceed in Hrun. rewrite (bind_run _ _ _ _ _ (call_this_run a w0 c Hc0)), Hs in Hrun.
    rewrite (call_delete_this_run a w0 c Hc0) in Hrun. by injection Hrun as <-.
  - cbn [run_event] in Hrun. rewrite bind_unfold in Hrun. cbn [modify] in Hrun.
    rewrite (on_published_run a ok err _ c) in Hrun by done. by injection Hrun as <-.
Qed.

(** An executable runner. *)
Definition step_fn (e : event) (w : world P) : option (world P) :=
  if decide (possible w e)
  then match run_event e w with (Ret tt, w') => Some w' | _ => None end
  else None.

Fixpoint steps_fn (es : list event) (w : world P) : option (world P) :=
  match es with
  | [] => Some w
  | e :: es' => w' ← step_fn e w; steps_fn es' w'
  end.

Lemma steps_trans w es w' es' w'' : steps w es w' → steps w' es' w'' → steps w (es ++ es') w''.
Proof.
  intros H1 H2. induction H2; [by rewrite app_nil_r|].
  rewrite (assoc_L (++)). by econstructor.
Qed.

Lemma call_steps_fn_sound es w w' : steps_fn es w = Some w' → steps w es w'.
Proof.
  revert w. induction es as [|e es IH]; intros w; cbn [steps_fn].
  - intros [= ->]. constructor.
  - intros (w1 & Hw1 & Hes%IH)%bind_Some. unfold step_fn in Hw1.
    destruct (decide (possible w e)) as [Hp|]; [|done].
    destruct (run_event e w) as [[[]| |] w2] eqn:Hrun; try done. injection Hw1 as ->.
    change (e :: es) with ([e] ++ es). eapply steps_trans; [|exact Hes].
    by apply (steps_snoc w [] w e w1); [constructor|split].
Qed.

End executions.

(** ** The theorems *)

Section theorems.
Context `{JL : JsonLib} {P : Type} `{PB : Publisher P}.
Implicit Types (w : world P) (a : addr).

(** C22. The contract of a unary call. When gRPC hands a request to a registered
    call of its method, in any reachable state: a sibling is registered for the
    next request of the method; the payload is published, once, on the topic of
    the method; and the caller is answered with [OK] when the publisher reports
    success, with [INTERNAL] and the publisher's error when it reports a failure,
    or not yet when the publisher keeps the callback. *)
Theorem unary_call_served (p : P) w a r s res p' :
  reachable p w → OpRequest (method_of r) a ∈ ops w → build_payload r = Some s →
  publish (mqtt_topic (method_of r)) s (publisher w) = (res, p') →
  ∃ w', run_event (Accept a r) w = (Ret tt, w') ∧
    publisher w' = p' ∧
    published w' = published w ++ [(a, (mqtt_topic (method_of r), s))] ∧
    OpRequest (method_of r) (next w) ∈ ops w' ∧
    match res with
    | Some (ok, err) =>
        answered w' = answered w ++ [(a, answer ok err)] ∧ OpFinish a ∈ ops w'
    | None => answered w' = answered w ∧ a ∈ waiting w'
    end.
Proof.
  intros Hr Ho Hd Hpub. pose proof (call_reachable_invariant p w Hr) as Hi.
  destruct (possible_call w (Accept a r) Hi Ho) as (c & Hc & Hs & Hm).
  exists (published_world a r c s w). split; [apply accept_run; try done; by eapply inv_next|].
  unfold published_world. rewrite <- Hm, Hpub. destruct res as [[ok err]|]; simpl.
  - rewrite Hm. split_and!; try done; [set_solver..| |set_solver]. by destruct (answer ok err).
  - rewrite Hm. split_and!; try done; set_solver.
Qed.

(** C21. No event of an execution is undefined: every event gRPC or the
    publisher can report runs on a live call, and runs to its end unless the
    payload of the request cannot be dumped; that exception leaves the thread of
    the completion queue. *)
Theorem unary_calls_return (p : P) w e :
  reachable p w → possible w e →
  fst (run_event e w) ≠ UB ∧ (dumpable e ↔ fst (run_event e w) = Ret tt).
Proof.
  intros Hr Hp. pose proof (call_reachable_invariant p w Hr) as Hi.
  assert (Hret : dumpable e → fst (run_event e w) = Ret tt).
  { intros Hd. by destruct (possible_runs w e Hi Hp Hd) as (w' & -> & _). }
  destruct e as [a|a r|a|a ok err]; try (rewrite Hret by done; by split).
  destruct (build_payload r) as [s|] eqn:Hd.
  - assert (Hdump : dumpable (Accept a r)) by by exists s. by rewrite (Hret Hdump).
  - rewrite (accept_throws w a r Hi Hp Hd). split; [done|]. simpl. rewrite Hd.
    split; [by intros [? [=]]|done].
Qed.

(** A method never runs out of calls and never has two in reserve: in every
    reachable state exactly one call of each method has not been made yet. *)
Theorem one_call_in_reserve (p : P) w m :
  reachable p w → ∃ a, ∀ b, awaits w m b ↔ b = a.
Proof. intros Hr. apply (inv_awaits w (call_reachable_invariant p w Hr)). Qed.

(** C23. Requests are published in the order gRPC reports them, once each, and
    every published request is either answered, once, or its answer waits for the
    publisher; the calls that wait are alive. *)
Theorem published_once_answered_once (p : P) es w :
  steps (init_world p) es w →
  published w = omap publication es ∧
  NoDup (published w).*1 ∧
  (published w).*1 ≡ₚ (answered w).*1 ++ waiting w ∧
  (∀ a, a ∈ waiting w → is_Some (heap w !! a)).
Proof.
  intros Hs. assert (Hi : invariant w) by (eapply call_reachable_invariant; by exists es).
  split_and!; [|exact (inv_nodup _ Hi)|exact (inv_answered _ Hi)|].
  - clear Hi. induction Hs as [|es w1 e w2 Hs IH Hst]; [done|].
    assert (Hi : invariant w1) by (eapply call_reachable_invariant; by exists es).
    rewrite (step_published _ _ _ Hi Hst), IH, omap_app. by destruct (publication e) eqn:He; simpl;
      rewrite He.
  - intros a Ha%occ_pos. pose proof (inv_answering _ Hi a) as Ho.
    destruct (heap w !! a); [by eexists|simpl in Ho; lia].
Qed.

End theorems.

Section roundtrip.
Context `{JL : JsonLaws}.

Lemma payload_keys r : NoDup (payload_fields r).*1.
Proof. destruct r; apply (bool_decide_unpack _); vm_compute; exact I. Qed.

(** The TripInit and TripMove calls publish, on the topics the gateway
    itself subscribes to, payloads from which [TripOrchestrator] decodes exactly
    the request's fields. *)
Theorem unary_trip_decodes :
  (∀ r s, fields_exact (payload_fields (ReqTripInit r)) →
     build_payload (ReqTripInit r) = Some s →
     TripOrchestrator.decode TripOrchestrator.KTripInit s = Some (CmdTripInit r)) ∧
  (∀ r s, fields_exact (payload_fields (ReqTripMove r)) →
     build_payload (ReqTripMove r) = Some s →
     TripOrchestrator.decode TripOrchestrator.KTripMove s = Some (CmdTripMove r)).
Proof.
  split; intros r s He Hd;
    destruct (parse_dump _ s (payload_keys _) He Hd)
    as (j & Hj & Hf); unfold TripOrchestrator.decode; rewrite Hj; cbn [mbind option_bind];
    rewrite (at_string_fields j _ "vinNumber" _ Hf eq_refl); cbn [mbind option_bind].
  - rewrite (at_int64_fields j _ "requestId" _ Hf eq_refl); cbn [mbind option_bind].
    rewrite (at_double_fields j _ "startLong" _ Hf eq_refl); cbn [mbind option_bind].
    rewrite (at_double_fields j _ "startLat" _ Hf eq_refl); cbn [mbind option_bind].
    rewrite (at_double_fields j _ "endLong" _ Hf eq_refl); cbn [mbind option_bind].
    rewrite (at_double_fields j _ "endLat" _ Hf eq_refl); cbn [mbind option_bind].
    by destruct r.
  - rewrite (at_int64_fields j _ "tripId" _ Hf eq_refl); cbn [mbind option_bind].
    rewrite (at_double_fields j _ "longitude" _ Hf eq_refl); cbn [mbind option_bind].
    rewrite (at_double_fields j _ "latitude" _ Hf eq_refl); cbn [mbind option_bind].
    by destruct r.
Qed.

(** The same topic carries two formats: an estimate or a status sent by the
    unary RPC lacks members of the same message sent on the stream, in particular
    a reader of the stream's format finds no ["vinNumber"] in a unary estimate and
    no ["tripId"] in a unary status. *)
Theorem unary_formats_differ (r : EtaRequest) (r' : StatusRequest) s s' :
  fields_exact (payload_fields (ReqEta r)) → build_payload (ReqEta r) = Some s →
  fields_exact (payload_fields (ReqStatus r')) → build_payload (ReqStatus r') = Some s' →
  (∃ j, json_parse s = Some j ∧ at_string j "vinNumber" = None ∧
        assoc "vinNumber" (VehicleStreamHandler.eta_fields r) =
          Some (FString (eta_vin_number r))) ∧
  (∃ j, json_parse s' = Some j ∧ at_int64 j "tripId" = None ∧
        assoc "tripId" (VehicleStreamHandler.status_fields r') = Some (FInt (st_trip_id r'))).
Proof.
  intros He Hd He' Hd'.
  destruct (parse_dump _ s (payload_keys _) He Hd)
    as (j & Hj & Hf).
  destruct (parse_dump _ s' (payload_keys _) He' Hd')
    as (j' & Hj' & Hf').
  split; [exists j|exists j']; split_and!; try done.
  - unfold at_string. specialize (Hf "vinNumber"). simpl in Hf. by rewrite Hf.
  - unfold at_int64. specialize (Hf' "tripId"). simpl in Hf'. by rewrite Hf'.
Qed.

End roundtrip.

(** ** Witnesses *)

(** A TripInit call is registered. *)
Definition sample_world : world (list (string * string)) :=
  default (empty_world []) (steps_fn [Start 4] (init_world [])).

Lemma call_sample_reachable : reachable [] sample_world.
Proof. exists [Start 4]. apply call_steps_fn_sound. vm_compute. reflexivity. Qed.

Definition sample_request : request := ReqTripInit (TripOrchestrator.sample_init 7).

Definition sample_text : string := TripOrchestrator.sample_payload 7.

Lemma sample_builds : build_payload sample_request = Some sample_text.
Proof. vm_compute. reflexivity. Qed.

Lemma sample_exact : fields_exact (payload_fields sample_request).
Proof. repeat constructor. Qed.

Lemma unary_call_served_witness :
  ∃ w', run_event (Accept 4 sample_request) sample_world = (Ret tt, w') ∧
    publisher w' = [(kTopicTripInit, sample_text)] ∧
    answered w' = [(4, ({| success := true; message := "ok" |}, OK))].
Proof.
  destruct (unary_call_served [] sample_world 4 sample_request sample_text (Some (true, "ok"))
              [(kTopicTripInit, sample_text)] call_sample_reachable)
    as (w' & Hrun & Hp & _ & _ & Ha & _).
  - apply (bool_decide_unpack _). vm_compute. exact I.
  - exact sample_builds.
  - reflexivity.
  - exists w'. split_and!; [exact Hrun|exact Hp|exact Ha].
Defined.

Lemma unary_calls_return_witness :
  fst (run_event (Accept 4 sample_request) sample_world) = Ret tt.
Proof.
  apply (unary_calls_return [] sample_world (Accept 4 sample_request) call_sample_reachable).
  - apply (bool_decide_unpack _). vm_compute. exact I.
  - exists sample_text. exact sample_builds.
Defined.

Lemma one_call_in_reserve_witness : ∃ a, ∀ b, awaits sample_world TripInit b ↔ b = a.
Proof. exact (one_call_in_reserve [] sample_world TripInit call_sample_reachable). Defined.

(** A request taken and answered. *)
Definition sample_events : list event := [Start 4; Accept 4 sample_request; Sent 4].
Definition sample_end : world (list (string * string)) :=
  default (empty_world []) (steps_fn sample_events (init_world [])).

Lemma published_once_answered_once_witness :
  published sample_end = [(4, (kTopicTripInit, sample_text))].
Proof.
  destruct (published_once_answered_once [] sample_events sample_end) as [Hp _].
  - apply call_steps_fn_sound. vm_compute. reflexivity.
  - rewrite Hp. vm_compute. reflexivity.
Defined.

Lemma unary_trip_decodes_witness :
  TripOrchestrator.decode TripOrchestrator.KTripInit sample_text =
  Some (CmdTripInit (TripOrchestrator.sample_init 7)).
Proof. exact (proj1 unary_trip_decodes _ _ sample_exact sample_builds). Defined.

Definition sample_eta : EtaRequest :=
  {| eta_vin_number := "VIN123"; eta_request_id := 7; eta_time := zero; eta_fare := zero;
     eta_status := "ok" |}.
Definition sample_status : StatusRequest :=
  {| st_vin_number := "VIN123"; st_trip_id := 9; st_status := "started" |}.

Lemma unary_formats_differ_witness :
  ∃ j, json_parse (flat_text (payload_fields (ReqEta sample_eta))) = Some j ∧
       at_string j "vinNumber" = None.
Proof.
  destruct (unary_formats_differ sample_eta sample_status
              (flat_text (payload_fields (ReqEta sample_eta)))
              (flat_text (payload_fields (ReqStatus sample_status))))
    as [(j & Hj & Hn & _) _].
  - repeat constructor.
  - vm_compute. reflexivity.
  - repeat constructor.
  - vm_compute. reflexivity.
  - exists j. split; [exact Hj|exact Hn].
Defined.

End CallData.
