(* ===== verification/GrpcServer.v ===== *)
(** * GrpcServer *)

(** The server that owns the completion queue
    ([src/services/grpc_server.h], [grpc_server.cc]) and the two kinds of
    objects it drives: the unary calls of [Rpc] and the stream handlers of
    [Stream]. Whether [BuildAndStart] succeeds and what the completion queue
    reports are inputs; the thread that runs [runCQ] is the flag
    [cq_thread_] (joinable or not) and the turns of its loop. *)

From S2P Require Import Prelude Double Json JsonModel Messages.
From S2P Require Import Stream StreamSeq StreamDelivery Rpc.

Module GrpcServer.
Import VehicleStreamHandler StreamSeq.

(** The objects whose address gRPC was given as a tag. *)
Inductive tag : Type :=
| TagCall (o : CallData.op)
| TagStream (o : op).

Section server.
Context `{JL : JsonLib} {P : Type} `{PB : Publisher P}.

(** [server_] and [cq_] are set or not, [server_down] and [cq_shutdown] record
    [Shutdown]; [rpcs] and [stream] hold the objects
    given to [async_service_] (the publisher is the one of [stream]: no unary
    call uses it before it is registered). *)
Record GrpcServer : Type := {
  server_ : bool;
  server_down : bool;
  cq_ : bool;
  cq_shutdown : bool;
  cq_thread_ : bool;
  rpcs : CallData.world P;
  stream : world P
}.

Definition new_GrpcServer (p : P) : GrpcServer :=
  {| server_ := false; server_down := false; cq_ := false; cq_shutdown := false; cq_thread_ := false;
     rpcs := CallData.empty_world p; stream := empty_world p |}.

Definition set_server (b down : bool) (s : GrpcServer) : GrpcServer :=
  {| server_ := b; server_down := down; cq_ := cq_ s; cq_shutdown := cq_shutdown s;
    cq_thread_ := cq_thread_ s;
     rpcs := rpcs s; stream := stream s |}.
Definition set_cq (b shut : bool) (s : GrpcServer) : GrpcServer :=
  {| server_ := server_ s; server_down := server_down s; cq_ := b; cq_shutdown := shut;
    cq_thread_ := cq_thread_ s;
     rpcs := rpcs s; stream := stream s |}.
Definition set_thread (b : bool) (s : GrpcServer) : GrpcServer :=
  {| server_ := server_ s; server_down := server_down s; cq_ := cq_ s;
    cq_shutdown := cq_shutdown s; cq_thread_ := b;
     rpcs := rpcs s; stream := stream s |}.
Definition set_rpcs (c : CallData.world P) (s : GrpcServer) : GrpcServer :=
  {| server_ := server_ s; server_down := server_down s; cq_ := cq_ s; cq_shutdown := cq_shutdown s;
     cq_thread_ := cq_thread_ s; rpcs := c; stream := stream s |}.
Definition set_stream (w : world P) (s : GrpcServer) : GrpcServer :=
  {| server_ := server_ s; server_down := server_down s; cq_ := cq_ s; cq_shutdown := cq_shutdown s;
     cq_thread_ := cq_thread_ s; rpcs := rpcs s; stream := w |}.

Definition on_rpcs {A} (m : M (CallData.world P) A) : M GrpcServer A := zoom rpcs set_rpcs m.
Definition on_stream {A} (m : M (world P) A) : M GrpcServer A := zoom stream set_stream m.

(** [start]; [built] is whether [BuildAndStart] returned a server. Assigning to
    a joinable [std::thread] calls [std::terminate], rendered as [undefined]. *)
Definition start (built : bool) : M GrpcServer unit :=
  modify (set_cq true false) ;;
  modify (set_server built false) ;;
  if built
  then
    for_each (λ m, on_rpcs (CallData.new_CallData m) ;; mret tt) CallData.methods ;;
    on_stream new_VehicleStreamHandler ;;
    s ← get;
    if cq_thread_ s then undefined else modify (set_thread true)
  else mret tt.

(** One turn of the loop of [runCQ]: the tag is cast to [IStreamTag*], which a
    [CallDataBase] is not. *)
Definition turn (t : tag) (ok : bool) (ev : VehicleEvent) : M GrpcServer unit :=
  match t with
  | TagStream o => on_stream (complete o ok ev)
  | TagCall _ => undefined
  end.

(** [runCQ]: the loop ends when [Next] returns false, which it does when the
    queue is shut down and everything was reported. *)
Definition runCQ (reports : list (tag * bool * VehicleEvent)) : M GrpcServer unit :=
  for_each (λ r, turn r.1.1 r.1.2 r.2) reports.

(** [stop]; [reports] is what the queue still reports before the thread ends. *)
Definition stop (reports : list (tag * bool * VehicleEvent)) : M GrpcServer unit :=
  s ← get;
  (if server_ s then modify (set_server true true) else mret tt) ;;
  (if cq_ s then modify (set_cq true true) else mret tt) ;;
  if cq_thread_ s
  then runCQ reports ;; modify (set_thread false)
  else mret tt.

(** [wait] blocks exactly while there is a server that was not shut down; it
    changes nothing. *)
Definition wait_returns (s : GrpcServer) : bool := negb (server_ s) || server_down s.

(** ** Executions *)

Inductive server_event : Type :=
| SvStart (built : bool)
| SvReport (t : tag) (ok : bool) (ev : VehicleEvent)
| SvPush (c : GatewayCommand)
| SvStop (reports : list (tag * bool * VehicleEvent)).

Definition run_server (e : server_event) : M GrpcServer unit :=
  match e with
  | SvStart built => start built
  | SvReport t ok ev => turn t ok ev
  | SvPush c => on_stream (push_command c)
  | SvStop reports => stop reports
  end.

(** The queue reports only what was started on it. *)
Definition outstanding (s : GrpcServer) (t : tag) : Prop :=
  match t with
  | TagCall o => o ∈ CallData.ops (rpcs s)
  | TagStream o => o ∈ ops (stream s)
  end.

(** Each report of a list is of an operation outstanding when it is made. *)
Inductive reports_ok (s : GrpcServer) : list (tag * bool * VehicleEvent) → Prop :=
| reports_nil : reports_ok s []
| reports_cons t ok ev l :
    outstanding s t → reports_ok (exec (turn t ok ev) s) l → reports_ok s ((t, ok, ev) :: l).

Definition allowed (s : GrpcServer) (e : server_event) : Prop :=
  match e with
  | SvReport t _ _ => cq_thread_ s = true ∧ outstanding s t
  | SvStop reports => reports_ok s reports
  | _ => True
  end.

Inductive server_steps (s : GrpcServer) : list server_event → GrpcServer → Prop :=
| server_nil : server_steps s [] s
| server_snoc es s' e s'' :
    server_steps s es s' → allowed s' e → run_server e s' = (Ret tt, s'') →
    server_steps s (es ++ [e]) s''.

(** No unary call is registered: every call is as its constructor left it. *)
Definition unregistered (c : CallData.world P) : Prop :=
  CallData.ops c = [] ∧ CallData.published c = [] ∧ CallData.answered c = [] ∧
  (∀ a x, CallData.heap c !! a = Some x → CallData.state_ x = CallData.CREATE).

End server.

Arguments GrpcServer : clear implicits.

Section proofs.
Context `{JL : JsonLib} {P : Type} `{PB : Publisher P}.
Implicit Types (s : GrpcServer P).

(** The calls are still as [start] left them. *)
Definition calls_unregistered (s : GrpcServer P) : Prop := unregistered (rpcs s).

Lemma on_stream_unregistered {A} (m : M (world P) A) :
  preserves calls_unregistered (on_stream m).
Proof. intros s Hs. unfold exec, on_stream, zoom. by destruct (m (stream s)). Qed.

Lemma new_call_unregistered m :
  preserves calls_unregistered (on_rpcs (CallData.new_CallData m) ;; mret tt).
Proof.
  intros s (Ho & Hp & Ha & Hh). split_and!; [done..|].
  intros a x Hx. change (<[CallData.next (rpcs s) := CallData.new_call m]>
    (CallData.heap (rpcs s)) !! a = Some x) in Hx.
  rewrite CallData.new_call_fields in Hx.
  apply lookup_insert_Some in Hx as [[_ <-]|[_ Hx]]; [done|eauto].
Qed.

Lemma turn_unregistered t ok ev : preserves calls_unregistered (turn t ok ev).
Proof. destruct t; [apply preserves_undefined|apply on_stream_unregistered]. Qed.

Lemma runCQ_unregistered l : preserves calls_unregistered (runCQ l).
Proof. apply preserves_for_each. intros r. apply turn_unregistered. Qed.

Lemma run_server_unregistered e : preserves calls_unregistered (run_server e).
Proof.
  destruct e as [built|t ok ev|c|l]; cbn [run_server].
  - apply preserves_bind; [by apply preserves_modify|intros _].
    apply preserves_bind; [by apply preserves_modify|intros _].
    destruct built; [|apply preserves_ret].
    apply preserves_bind; [apply preserves_for_each, new_call_unregistered|intros _].
    apply preserves_bind; [apply on_stream_unregistered|intros _].
    apply preserves_bind; [apply preserves_get|intros s].
    destruct (cq_thread_ s); [apply preserves_undefined|by apply preserves_modify].
  - apply turn_unregistered.
  - apply on_stream_unregistered.
  - apply preserves_bind; [apply preserves_get|intros s].
    apply preserves_bind; [destruct (server_ s); [by apply preserves_modify|apply preserves_ret]|].
    intros _.
    apply preserves_bind; [destruct (cq_ s); [by apply preserves_modify|apply preserves_ret]|].
    intros _. destruct (cq_thread_ s); [|apply preserves_ret].
    apply preserves_bind; [apply runCQ_unregistered|intros _]. by apply preserves_modify.
Qed.

Lemma server_unregistered (p : P) es s :
  server_steps (new_GrpcServer p) es s → unregistered (rpcs s).
Proof.
  induction 1 as [|es s1 e s2 _ IH _ Hrun].
  - split_and!; [done..|]. intros a x. simpl. by rewrite lookup_empty.
  - apply (f_equal snd) in Hrun. simpl in Hrun. subst s2. by apply run_server_unregistered.
Qed.

End proofs.

(** ** The theorems *)

(** The events of a server that is neither stopped nor started again. *)
Definition serving_event (e : server_event) : bool :=
  match e with SvReport _ _ _ | SvPush _ => true | _ => false end.

(** The commands pushed by an execution. *)
Definition server_pushed (es : list server_event) : list GatewayCommand :=
  omap (λ e, match e with SvPush c => Some c | _ => None end) es.

Section theorems.
Context `{JL : JsonLib} {P : Type} `{PB : Publisher P}.
Implicit Types (s : GrpcServer P).

(** The gateway never serves a unary RPC: [start] creates the six calls but
    never calls [Proceed] on them, so in no execution is a call registered with
    gRPC, published or answered, whatever the vehicle sends. *)
Theorem unary_rpcs_never_served (p : P) es s :
  server_steps (new_GrpcServer p) es s →
  CallData.ops (rpcs s) = [] ∧ CallData.published (rpcs s) = [] ∧
  CallData.answered (rpcs s) = [] ∧
  (∀ a x, CallData.heap (rpcs s) !! a = Some x → CallData.state_ x = CallData.CREATE).
Proof. apply server_unregistered. Qed.

(** The cast in [runCQ] is right only because no call is registered: every
    report of an execution is the tag of a stream handler, and the first report of a
    registered unary call would be undefined. *)
Theorem runCQ_cast (p : P) es s t ok ev :
  server_steps (new_GrpcServer p) es s →
  (outstanding s t → ∃ o, t = TagStream o) ∧
  (∀ o, t = TagCall o → fst (turn t ok ev s) = UB).
Proof.
  intros Hs. split.
  - destruct t as [o|o]; [|by exists o]. intros Ho.
    destruct (server_unregistered p es s Hs) as [Hops _]. simpl in Ho.
    rewrite Hops in Ho. by apply elem_of_nil in Ho.
  - by intros o ->.
Qed.

Lemma server_start_run (p : P) :
  ∃ s, start true (new_GrpcServer p) = (Ret tt, s) ∧ stream s = init_world p ∧
       cq_thread_ s = true ∧ server_ s = true.
Proof. eexists. split; [vm_compute; reflexivity|]. by vm_compute. Qed.

Lemma on_stream_run (m : M (world P) unit) s s' :
  on_stream m s = (Ret tt, s') → m (stream s) = (Ret tt, stream s') ∧
    cq_thread_ s' = cq_thread_ s.
Proof.
  unfold on_stream, zoom. destruct (m (stream s)) as [r w]. intros [= -> <-]. done.
Qed.

(** A started server implements the sequential semantics of the stream: as
    long as it is not stopped or started again, what its thread and its pushes do
    to the handlers is an execution of [StreamSeq] from the initial handler, with
    the same pushes, so the theorems on reachable worlds hold of the server. *)
Theorem server_refines_stream (p : P) s0 es s :
  start true (new_GrpcServer p) = (Ret tt, s0) →
  server_steps s0 es s → forallb serving_event es →
  ∃ es', steps (init_world p) es' (stream s) ∧ pushed es' = server_pushed es.
Proof.
  intros Hst Hs Hserv. destruct (server_start_run p) as (s1 & Hst' & Hw & _).
  rewrite Hst in Hst'. injection Hst' as <-.
  induction Hs as [|es s1 e s2 Hs IH Hal Hrun]; [exists []; rewrite Hw; by split; [constructor|]|].
  rewrite forallb_app in Hserv. apply andb_True in Hserv as [Hes He]. simpl in He.
  destruct (IH Hes) as (es' & Hsteps & Hpush).
  unfold server_pushed. rewrite omap_app. fold (server_pushed es). rewrite <- Hpush.
  destruct e as [built|t ok ev|c|l]; try done; cbn [run_server] in Hrun.
  - destruct t as [o|o]; [done|]. destruct Hal as [_ Ho]. cbn [turn] in Hrun.
    destruct (on_stream_run _ _ _ Hrun) as [Hrun' _].
    exists (es' ++ [Complete o ok ev]). split; [|unfold pushed; by rewrite omap_app].
    eapply steps_snoc; [exact Hsteps|by split].
  - destruct (on_stream_run _ _ _ Hrun) as [Hrun' _].
    exists (es' ++ [Push c]). split; [|unfold pushed; by rewrite omap_app].
    eapply steps_snoc; [exact Hsteps|by split].
Qed.

Lemma runCQ_flags l :
  ∀ b sv d c sh, preserves (λ s, cq_thread_ s = b ∧ server_ s = sv ∧ server_down s = d ∧
                                  cq_ s = c ∧ cq_shutdown s = sh) (runCQ (P:=P) l).
Proof.
  intros b sv d c sh. apply preserves_for_each. intros [[[o|o] ok] ev]; [apply preserves_undefined|].
  intros s. cbn [turn fst snd]. unfold exec, on_stream, zoom. by destruct (complete o ok ev (stream s)).
Qed.

(** [stop] can be called on any server, started or not, and twice (the
    destructor calls it again): when it returns the thread is joined and the queue
    is shut down, a waiting [main] goes on, and a second [stop] changes nothing. *)
Theorem stop_idempotent s reports s' :
  stop reports s = (Ret tt, s') →
  cq_thread_ s' = false ∧ server_ s' = server_ s ∧ cq_ s' = cq_ s ∧
  (cq_ s = true → cq_shutdown s' = true) ∧ wait_returns s' = true ∧
  stop [] s' = (Ret tt, s').
Proof.
  intros Hrun.
  assert (Hflags : cq_thread_ s' = false ∧ server_ s' = server_ s ∧ cq_ s' = cq_ s ∧
                   (cq_ s = true → cq_shutdown s' = true) ∧
                   (server_ s = true → server_down s' = true)).
  { unfold stop in Hrun. rewrite bind_unfold in Hrun. simpl in Hrun.
    destruct s as [sv d cqb sh th rp st]. simpl in Hrun.
    destruct sv, cqb, th; repeat (rewrite bind_unfold in Hrun; simpl in Hrun);
      try (injection Hrun as <-; done);
      match type of Hrun with
      | match runCQ ?l ?s0 with _ => _ end = _ =>
          pose proof (runCQ_flags l _ _ _ _ _ s0
              (conj eq_refl (conj eq_refl (conj eq_refl (conj eq_refl eq_refl)))))
            as Hf; unfold exec in Hf; destruct (runCQ l s0) as [[[]| |] s1]; try done;
          simpl in Hf; injection Hrun as <-; simpl; naive_solver
      end. }
  destruct Hflags as (Hth & Hsv & Hcq & Hsh & Hd). split_and!; try done.
  { unfold wait_returns. rewrite Hsv. by destruct (server_ s); [rewrite Hd|]. }
  unfold stop. rewrite bind_unfold. simpl. rewrite Hth.
  destruct s' as [sv' d' cqb' sh' th' rp' st']. simpl in *. subst.
  destruct (server_ s), (cq_ s); try specialize (Hsh eq_refl); try specialize (Hd eq_refl); subst;
    repeat (rewrite bind_unfold; simpl); done.
Qed.

(** The other calls of the life cycle: a [start] whose [BuildAndStart] fails
    creates no handler and no thread, so the server can still be stopped or started
    again; starting a running server is not allowed (its thread is assigned to
    while joinable). *)
Theorem start_cases (p : P) s0 :
  start true (new_GrpcServer p) = (Ret tt, s0) →
  (∃ s1, start false (new_GrpcServer p) = (Ret tt, s1) ∧ stream s1 = empty_world p ∧
         cq_thread_ s1 = false ∧ server_ s1 = false ∧
         fst (stop [] s1) = Ret tt ∧ fst (start true s1) = Ret tt) ∧
  (∀ es s, server_steps s0 es s → forallb serving_event es → fst (start true s) = UB).
Proof.
  intros Hst. split; [eexists; split_and!; reflexivity|].
  intros es s Hs Hserv. destruct (server_start_run p) as (s1 & Hst' & _ & Hth & _).
  rewrite Hst in Hst'. injection Hst' as <-.
  assert (Hrunning : cq_thread_ s = true).
  { induction Hs as [|es s1 e s2 Hs IH Hal Hrun]; [done|].
    rewrite forallb_app in Hserv. apply andb_True in Hserv as [Hes He]. simpl in He.
    destruct e as [built|[o|o] ok ev|c|l]; try done;
      (apply on_stream_run in Hrun as [_ ->]; auto). }
  unfold start. destruct s as [sv d cqb sh th rp st]. simpl in Hrunning. subst th.
  repeat (rewrite bind_unfold; simpl). unfold on_stream, zoom. simpl.
  by rewrite new_handler_run.
Qed.

End theorems.

(** ** Witnesses *)

(** A server that was started, a vehicle that connected, a command. *)
Definition sample_start : GrpcServer (list (string * string)) :=
  exec (start true) (new_GrpcServer []).
Definition sample_connect : server_event :=
  SvReport (TagStream (OpRequest 0)) true EvNotSet.
Definition sample_server : GrpcServer (list (string * string)) :=
  exec (run_server sample_connect) sample_start.

Lemma server_sample_steps : server_steps sample_start [sample_connect] sample_server.
Proof.
  apply (server_snoc _ [] sample_start); [constructor| |vm_compute; reflexivity].
  split; [vm_compute; reflexivity|]. change (OpRequest 0 ∈ ops (stream sample_start)).
    apply (bool_decide_unpack _). vm_compute. exact I.
Qed.

Lemma sample_steps_new :
  server_steps (new_GrpcServer []) [SvStart true; sample_connect] sample_server.
Proof.
  apply (server_snoc _ [SvStart true] sample_start).
  - apply (server_snoc _ [] (new_GrpcServer [])); [constructor|exact I|vm_compute; reflexivity].
  - split; [vm_compute; reflexivity|]. change (OpRequest 0 ∈ ops (stream sample_start)).
    apply (bool_decide_unpack _). vm_compute. exact I.
  - vm_compute. reflexivity.
Qed.

Lemma unary_rpcs_never_served_witness : CallData.ops (rpcs sample_server) = [].
Proof. apply (unary_rpcs_never_served [] _ sample_server sample_steps_new). Defined.

Lemma runCQ_cast_witness : ¬ outstanding sample_server (TagCall (CallData.OpFinish 0)).
Proof.
  intros Ho. destruct (runCQ_cast [] _ sample_server (TagCall (CallData.OpFinish 0)) true EvNotSet
    sample_steps_new) as [Hcast _]. destruct (Hcast Ho) as [o Heq]. discriminate Heq.
Defined.

Lemma server_refines_stream_witness :
  ∃ es', steps (init_world []) es' (stream sample_server) ∧ pushed es' = [].
Proof.
  apply (server_refines_stream [] sample_start [sample_connect] sample_server).
  - vm_compute. reflexivity.
  - exact server_sample_steps.
  - exact I.
Defined.

Lemma stop_idempotent_witness :
  ∃ s', stop [] sample_start = (Ret tt, s') ∧ cq_thread_ s' = false ∧ stop [] s' = (Ret tt, s').
Proof.
  destruct (stop [] sample_start) as [r s'] eqn:Hs.
  assert (Hr : r = Ret tt) by (apply (f_equal fst) in Hs; vm_compute in Hs; by rewrite <- Hs).
  subst r. destruct (stop_idempotent sample_start [] s' Hs) as (Ht & _ & _ & _ & _ & Hs').
  exists s'. split_and!; [reflexivity|exact Ht|exact Hs'].
Defined.

Lemma start_cases_witness : fst (start true sample_server) = UB.
Proof.
  destruct (start_cases [] sample_start) as [_ Hub]; [vm_compute; reflexivity|].
  apply (Hub [sample_connect] sample_server server_sample_steps). exact I.
Defined.

End GrpcServer.
