(* ===== verification/Shutdown.v ===== *)
(** * Shutting the server down while it works *)

(** [GrpcServer::stop] ([src/services/grpc_server.cc]) runs on the thread of the
    signal handler while the completion queue's thread and the MQTT thread go on.
    [GrpcServer] treats a call of [stop] as one step; here it is cut at its
    statements, and reports of the queue and pushes come in between.

    What gRPC documents about the two [Shutdown]s is the guards of [act]:
    [server_->Shutdown()] returns when no accepted call is left; from then on a
    pending request is reported as failed; [Next] goes on reporting after
    [cq_->Shutdown()] and returns false when nothing is outstanding. *)

From S2P Require Import Prelude Double Json JsonModel Messages Stream StreamSeq StreamDelivery.

Module Shutdown.
Import VehicleStreamHandler StreamSeq StreamDelivery.

(** Where [stop] is: not called; waiting in [server_->Shutdown()]; before
    [cq_->Shutdown()]; before or in [cq_thread_.join()]; returned. *)
Inductive phase : Type := Running | Stopping | ServerDown | QueueDown | Joined.

#[export] Instance phase_eq_dec : EqDecision phase.
Proof. solve_decision. Defined.

Inductive action : Type :=
| PushCommand (c : GatewayCommand)
| Report (o : op) (ok : bool) (ev : VehicleEvent)
| CallServerShutdown
| ServerShutdownReturns
| CallQueueShutdown
| JoinReturns.

Section shutdown.
Context `{JL : JsonLib} {P : Type} `{PB : Publisher P}.

Record server : Type := { sw : world P; ph : phase }.

(** Every live handler still waits for its call. *)
Definition no_calls (w : world P) : Prop := map_Forall (λ _ x, state_ x = ACCEPTING) (heap w).

#[export] Instance no_calls_dec w : Decision (no_calls w).
Proof. unfold no_calls. apply _. Defined.

(** The server no longer matches requests to calls. *)
Definition server_is_down (p : phase) : bool :=
  match p with Running | Stopping => false | _ => true end.

Definition can_report (s : server) (o : op) (ok : bool) : bool :=
  negb (bool_decide (ph s = Joined)) &&
  match o with OpRequest _ => negb (ok && server_is_down (ph s)) | _ => true end.

(** One step of a thread: [None] when it cannot be taken. *)
Definition act (a : action) (s : server) : option server :=
  match a with
  | PushCommand c =>
      w ← step_fn (Push c) (sw s); Some {| sw := w; ph := ph s |}
  | Report o ok ev =>
      if can_report s o ok
      then w ← step_fn (Complete o ok ev) (sw s); Some {| sw := w; ph := ph s |}
      else None
  | CallServerShutdown =>
      if decide (ph s = Running) then Some {| sw := sw s; ph := Stopping |} else None
  | ServerShutdownReturns =>
      if decide (ph s = Stopping ∧ no_calls (sw s))
      then Some {| sw := sw s; ph := ServerDown |} else None
  | CallQueueShutdown =>
      if decide (ph s = ServerDown) then Some {| sw := sw s; ph := QueueDown |} else None
  | JoinReturns =>
      if decide (ph s = QueueDown ∧ ops (sw s) = [])
      then Some {| sw := sw s; ph := Joined |} else None
  end.

Fixpoint acts (l : list action) (s : server) : option server :=
  match l with
  | [] => Some s
  | a :: l' => s' ← act a s; acts l' s'
  end.

Definition started (p : P) : server := {| sw := init_world p; ph := Running |}.

(** ** The invariant *)

Record shutdown_inv (s : server) : Prop := {
  inv_world : invariant (sw s);
  inv_down : server_is_down (ph s) = true → no_calls (sw s);
  inv_joined : ph s = Joined → ops (sw s) = []
}.

Lemma no_calls_active w : invariant w → no_calls w → active_ w = None.
Proof.
  intros Hi Hn. destruct (active_ w) as [h|] eqn:Ha; [exfalso|done].
  destruct (inv_active _ Hi h Ha) as (x & Hx & Hs). specialize (Hn h x Hx). congruence.
Qed.

(** A write of a waiting handler is never outstanding. *)
Lemma no_calls_write w h x :
  invariant w → no_calls w → heap w !! h = Some x → OpWrite h ∉ ops w.
Proof.
  intros Hi Hn Hx Ho. specialize (Hn h x Hx). pose proof (occ_pos _ _ Ho) as Hpos.
  rewrite (inv_occ _ _ _ (OpWrite h) Hi Hx eq_refl) in Hpos. simpl in Hpos.
  destruct (inv_waiting _ Hi h x Hx Hn) as (_ & Hf & _). rewrite Hf in Hpos. simpl in Hpos. lia.
Qed.

(** With no call left, a push is kept for later and a report deletes its handler. *)
Lemma down_effect w e w' :
  invariant w → no_calls w → effect w e w' → possible w e →
  (∀ h ev, e ≠ Complete (OpRequest h) true ev) →
  (∃ c, e = Push c ∧ w' = set_pending (pending_commands_ w ++ [c]) w) ∨
  (∃ h x ev, e = Complete (OpRequest h) false ev ∧ heap w !! h = Some x ∧
             w' = set_heap (delete h) (completed (OpRequest h) w)).
Proof.
  intros Hi Hn Heff Hpos Hreq. pose proof (no_calls_active w Hi Hn) as Hna.
  assert (Hst : ∀ h x, heap w !! h = Some x → state_ x = ACCEPTING) by exact Hn.
  effect_cases Heff.
  - left. by exists c.
  - congruence.
  - right. by exists h, x, ev.
  - by destruct (Hreq h ev).
  - by rewrite (Hst h x Hx) in Hs.
  - by rewrite (Hst h x Hx) in Hs.
  - by rewrite (Hst h x Hx) in Hs.
  - by destruct (no_calls_write w h x Hi Hn Hx).
Qed.

Lemma step_fn_run e w w' :
  invariant w → step_fn e w = Some w' → effect w e w' ∧ possible w e ∧ invariant w'.
Proof.
  intros Hi Hs%step_fn_sound. pose proof (step_effect _ _ _ Hi Hs) as Heff.
  destruct Hs as [Hpos _]. split_and!; [done|done|]. by eapply preserve_invariant.
Qed.

Lemma down_step e w w' :
  invariant w → no_calls w → (∀ h ev, e ≠ Complete (OpRequest h) true ev) →
  step_fn e w = Some w' →
  no_calls w' ∧ (ops w' = ops w ∨ ∃ o ok ev, e = Complete o ok ev ∧ ops w' = remove_one o (ops w)).
Proof.
  intros Hi Hn Hreq Hs. destruct (step_fn_run e w w' Hi Hs) as (Heff & Hpos & _).
  destruct (down_effect w e w' Hi Hn Heff Hpos Hreq)
    as [(c & -> & ->)|(h & x & ev & -> & _ & ->)].
  - by split; [|left].
  - split; [|right; by eexists _, _, _]. by apply map_Forall_delete.
Qed.

Lemma can_report_guard s o ok ev :
  can_report s o ok = true → server_is_down (ph s) = true →
  ∀ h ev', Complete o ok ev ≠ Complete (OpRequest h) true ev'.
Proof.
  unfold can_report. intros [_ H]%andb_true_iff Hd h ev' [= -> -> _]. by rewrite Hd in H.
Qed.

Lemma act_invariant a s s' : shutdown_inv s → act a s = Some s' → shutdown_inv s'.
Proof.
  intros [Hi Hd Hj] Ha. destruct a as [c|o ok ev| | | |]; cbn [act] in Ha.
  - apply bind_Some in Ha as (w & Hw & [= <-]).
    destruct (step_fn_run _ _ _ Hi Hw) as (_ & _ & Hi'). split; cbn [sw ph]; [done| |].
    + intros Hdown. by destruct (down_step (Push c) _ _ Hi (Hd Hdown) ltac:(done) Hw).
    + intros Hp. rewrite Hp in Hd.
      destruct (down_step (Push c) _ _ Hi (Hd eq_refl) ltac:(done) Hw)
        as [_ [->|(o & ok & ev & [=] & _)]]; auto.
  - destruct (can_report s o ok) eqn:Hc; [|done].
    apply bind_Some in Ha as (w & Hw & [= <-]).
    destruct (step_fn_run _ _ _ Hi Hw) as (_ & _ & Hi'). split; cbn [sw ph]; [done| |].
    + intros Hdown. by destruct (down_step (Complete o ok ev) _ _ Hi (Hd Hdown)
        (can_report_guard s o ok ev Hc Hdown) Hw).
    + intros Hp. unfold can_report in Hc. by rewrite Hp in Hc.
  - destruct (decide _) as [Hp|]; [|done]. injection Ha as <-. by split.
  - destruct (decide _) as [[Hp Hn]|]; [|done]. injection Ha as <-. by split.
  - destruct (decide _) as [Hp|]; [|done]. injection Ha as <-. split; cbn [sw ph]; [done| |done].
    intros _. apply Hd. by rewrite Hp.
  - destruct (decide _) as [[Hp Ho]|]; [|done]. injection Ha as <-. split; cbn [sw ph]; [done| |done].
    intros _. apply Hd. by rewrite Hp.
Qed.

Lemma acts_invariant l s s' : shutdown_inv s → acts l s = Some s' → shutdown_inv s'.
Proof.
  revert s. induction l as [|a l IH]; intros s Hs; [by intros [= <-]|].
  intros (s1 & Hs1 & Hl)%bind_Some. eapply IH; [|exact Hl]. by eapply act_invariant.
Qed.

Lemma started_inv (p : P) : shutdown_inv (started p).
Proof. split; [apply init_invariant|done|done]. Qed.

Lemma acts_app l l' s s' s'' :
  acts l s = Some s' → acts l' s' = Some s'' → acts (l ++ l') s = Some s''.
Proof.
  revert s. induction l as [|a l IH]; intros s; [by intros [= <-]|].
  intros (s1 & Hs1 & Hl)%bind_Some Hl'. simpl. rewrite Hs1. by apply IH.
Qed.

(** The events of the stream in a schedule. *)
Definition stream_event (a : action) : option StreamSeq.event :=
  match a with
  | PushCommand c => Some (Push c)
  | Report o ok ev => Some (Complete o ok ev)
  | _ => None
  end.

Lemma acts_steps l s s' :
  acts l s = Some s' → steps (sw s) (omap stream_event l) (sw s').
Proof.
  revert s. induction l as [|a l IH]; intros s; [intros [= <-]; constructor|].
  intros (s1 & Hs1 & Hl)%bind_Some. specialize (IH s1 Hl).
  destruct a as [c|o ok ev| | | |]; cbn [act] in Hs1; cbn [omap list_omap stream_event];
    try (case_decide; [|done]; injection Hs1 as <-; exact IH).
  - apply bind_Some in Hs1 as (w & Hw%step_fn_sound & [= <-]). by eapply steps_cons.
  - destruct (can_report s o ok); [|done].
    apply bind_Some in Hs1 as (w & Hw%step_fn_sound & [= <-]). by eapply steps_cons.
Qed.

(** The commands of a schedule. *)
Definition acts_pushed (l : list action) : list GatewayCommand :=
  pushed (omap stream_event l).

Lemma acts_pushed_app l l' : acts_pushed (l ++ l') = acts_pushed l ++ acts_pushed l'.
Proof. unfold acts_pushed. by rewrite omap_app, pushed_app. Qed.

(** Once the thread is joined no handler is left. *)
Lemma joined_empty s : shutdown_inv s → ph s = Joined → heap (sw s) = ∅ ∧ ops (sw s) = [].
Proof.
  intros [Hi Hd Hj] Hp. pose proof (Hd ltac:(by rewrite Hp)) as Hn. specialize (Hj Hp).
  split; [|done]. apply map_empty. intros h. destruct (heap (sw s) !! h) as [x|] eqn:Hx; [exfalso|done].
  pose proof (inv_occ _ _ _ (OpRequest h) Hi Hx eq_refl) as Ho. rewrite Hj in Ho.
  simpl in Ho. by rewrite (Hn h x Hx) in Ho.
Qed.

(** ** The join returns *)

(** The reports the thread still makes of failed requests. *)
Definition refuse (o : op) : action := Report o false EvNotSet.

Lemma refuse_run s h x :
  shutdown_inv s → ph s = QueueDown → heap (sw s) !! h = Some x → OpRequest h ∈ ops (sw s) →
  act (refuse (OpRequest h)) s =
    Some {| sw := set_heap (delete h) (completed (OpRequest h) (sw s)); ph := QueueDown |}.
Proof.
  intros [Hi Hd _] Hp Hx Ho. pose proof (Hd ltac:(by rewrite Hp) h x Hx) as Hacc.
  unfold refuse. cbn [act]. unfold can_report. rewrite Hp. simpl.
  unfold step_fn. rewrite bool_decide_true by done.
  destruct (run_request (sw s) h false EvNotSet (outstanding_state _ _ Hi Ho eq_refl) ltac:(done)) as (w' & Hrun & Heff).
  cbn [run_event]. rewrite Hrun. simpl. f_equal. f_equal.
  inversion Heff; [by subst|by simplify_eq..].
Qed.

(** Reporting the outstanding requests in order empties the queue. *)
Lemma refuse_all l s :
  shutdown_inv s → ph s = QueueDown → ops (sw s) = l → Forall (λ o, is_write o = false) l →
  ∃ s', acts (refuse <$> l) s = Some s' ∧ ph s' = QueueDown ∧ ops (sw s') = [].
Proof.
  revert s. induction l as [|o l IH]; intros s Hs Hp Hl Hf; [by exists s|].
  apply Forall_cons in Hf as [Hw Hf]. pose proof Hs as [Hi Hd _].
  assert (Ho : o ∈ ops (sw s)) by (rewrite Hl; by left).
  destruct (outstanding_state _ o Hi Ho Hw) as (x & Hx & He).
  pose proof (Hd ltac:(by rewrite Hp) _ _ Hx) as Hacc.
  destruct o as [h|h|h|h]; simpl in He, Hx, Hacc, Hw; rewrite ?Hacc in He; try done.
  pose proof (refuse_run s h x Hs Hp Hx Ho) as Hrun.
  destruct (IH {| sw := set_heap (delete h) (completed (OpRequest h) (sw s)); ph := QueueDown |})
    as (s' & Hs' & Hp' & Ho'); [by eapply act_invariant|done| |done|].
  { simpl. rewrite Hl. cbn [remove_one]. by rewrite decide_True. }
  exists s'. split_and!; [|done|done]. cbn [fmap list_fmap acts]. by rewrite Hrun.
Qed.

End shutdown.

Arguments server : clear implicits.

(** ** The theorems *)

Section theorems.
Context `{JL : JsonLib} {P : Type} `{PB : Publisher P}.

(** [cq_->Shutdown()] comes late enough: whatever the MQTT thread pushes and
    whatever the queue reports, no operation is started on a queue that was shut
    down. *)
Theorem no_op_after_queue_shutdown (p : P) l s a s'
  (Hl : acts l (started p) = Some s) (Hp : ph s = QueueDown ∨ ph s = Joined)
  (Ha : act a s = Some s') :
  ops (sw s') = ops (sw s) ∨
  ∃ o ok ev, a = Report o ok ev ∧ ops (sw s') = remove_one o (ops (sw s)).
Proof.
  destruct (acts_invariant l _ _ (started_inv p) Hl) as [Hi Hd _].
  assert (Hdown : server_is_down (ph s) = true) by (by destruct Hp as [-> | ->]).
  destruct a as [c|o ok ev| | | |]; cbn [act] in Ha.
  - apply bind_Some in Ha as (w & Hw & [= <-]).
    destruct (down_step (Push c) _ _ Hi (Hd Hdown) ltac:(done) Hw)
      as [_ [?|(? & ? & ? & [=] & _)]]. by left.
  - destruct (can_report s o ok) eqn:Hc; [|done]. apply bind_Some in Ha as (w & Hw & [= <-]).
    destruct (down_step (Complete o ok ev) _ _ Hi (Hd Hdown)
      (can_report_guard s o ok ev Hc Hdown) Hw)
      as [_ [?|(? & ? & ? & [= <- <- <-] & ?)]]; [by left|right; by eexists _, _, _].
  - case_decide; [|done]. injection Ha as <-. by left.
  - case_decide; [|done]. injection Ha as <-. by left.
  - case_decide; [|done]. injection Ha as <-. by left.
  - case_decide; [|done]. injection Ha as <-. by left.
Qed.

(** [stop] leaves nothing behind: when the thread is joined every handler is
    deleted, nothing is outstanding, and a later push only queues its command. *)
Theorem stop_leaves_nothing (p : P) l s
  (Hl : acts l (started p) = Some s) (Hp : ph s = Joined) :
  heap (sw s) = ∅ ∧ ops (sw s) = [] ∧ active_ (sw s) = None ∧
  ∀ c, act (PushCommand c) s =
         Some {| sw := set_pending (pending_commands_ (sw s) ++ [c]) (sw s); ph := Joined |}.
Proof.
  pose proof (acts_invariant l _ _ (started_inv p) Hl) as Hs.
  destruct (joined_empty s Hs Hp) as [Hh Ho]. destruct Hs as [Hi Hd _].
  pose proof (no_calls_active _ Hi (Hd ltac:(by rewrite Hp))) as Hna.
  split_and!; [done..|].
  - intros c. cbn [act]. unfold step_fn, run_event, push_command. rewrite bind_unfold.
    cbn [get]. rewrite Hna. simpl. by rewrite Hp.
Qed.

(** The join returns: once the queue is shut down, reporting what is outstanding,
    one failed request after the other, lets [Next] return false and [stop] return,
    unless a write has outlived its handler. *)
Theorem join_returns (p : P) l s
  (Hl : acts l (started p) = Some s) (Hp : ph s = QueueDown)
  (Hw : Forall (λ o, is_write o = false) (ops (sw s))) :
  ∃ s', acts ((refuse <$> ops (sw s)) ++ [JoinReturns]) s = Some s' ∧ ph s' = Joined.
Proof.
  destruct (refuse_all (ops (sw s)) s (acts_invariant l _ _ (started_inv p) Hl) Hp eq_refl Hw)
    as (s1 & Hs1 & Hp1 & Ho1).
  exists {| sw := sw s1; ph := Joined |}. split; [|done].
  eapply acts_app; [exact Hs1|]. cbn [acts act]. by rewrite decide_True.
Qed.

End theorems.

(** ** Witnesses *)

(** A vehicle connects and leaves, and the server stops; a command arrives late. *)
Definition stop_schedule : list action :=
  [Report (OpRequest 0) true EvNotSet; CallServerShutdown; Report (OpRead 0) false EvNotSet;
   Report (OpFinish 0) true EvNotSet; ServerShutdownReturns; CallQueueShutdown].
Definition sample_down : server (list (string * string)) :=
  default (started []) (acts stop_schedule (started [])).
Definition sample_joined : server (list (string * string)) :=
  default (started []) (acts (stop_schedule ++ [refuse (OpRequest 1); JoinReturns]) (started [])).

Lemma no_op_after_queue_shutdown_witness :
  ∃ s', act (PushCommand (cancel 1)) sample_down = Some s' ∧ ops (sw s') = ops (sw sample_down).
Proof.
  eexists. split; [vm_compute; reflexivity|].
  destruct (no_op_after_queue_shutdown [] stop_schedule sample_down (PushCommand (cancel 1))
    (default sample_down (act (PushCommand (cancel 1)) sample_down)))
    as [Hops|(o & ok & ev & [=] & _)].
  - vm_compute. reflexivity.
  - left. vm_compute. reflexivity.
  - vm_compute. reflexivity.
  - vm_compute in Hops |- *. exact Hops.
Defined.

Lemma stop_leaves_nothing_witness : heap (sw sample_joined) = ∅.
Proof.
  apply (stop_leaves_nothing [] (stop_schedule ++ [refuse (OpRequest 1); JoinReturns])
           sample_joined); vm_compute; reflexivity.
Defined.

Lemma join_returns_witness :
  ∃ s', acts ((refuse <$> ops (sw sample_down)) ++ [JoinReturns]) sample_down = Some s' ∧
    ph s' = Joined.
Proof.
  apply (join_returns [] stop_schedule sample_down).
  - vm_compute. reflexivity.
  - vm_compute. reflexivity.
  - vm_compute. repeat constructor.
Defined.

End Shutdown.
