(* ===== verification/StreamShutdown.v ===== *)
(** * Shutting the server down under every interleaving *)

(** [Shutdown] runs pushes and reports one at a time. Here the steps are those of
    [StreamConc]: the call of a push or of a connection may be half way when
    [server_->Shutdown()] ([src/services/grpc_server.cc]) returns. *)

From S2P Require Import Prelude Double Json Messages.
From S2P Require Import Stream StreamSeq StreamDelivery StreamConc StreamReports Shutdown.

Module StreamShutdown.
Import VehicleStreamHandler StreamSeq StreamDelivery.

Section shutdown.
Context `{JL : JsonLib} {P : Type} `{PB : Publisher P}.
Implicit Types (s : StreamConc.config P).

(** No accepted call is left, and none is being accepted. *)
Definition calls_over s : Prop :=
  StreamConc.cq s = StreamConc.CqIdle ∧ Shutdown.no_calls (StreamConc.cw s).

#[export] Instance calls_over_dec s : Decision (calls_over s).
Proof. unfold calls_over. apply and_dec; [apply StreamConc.cq_pc_eq_dec|apply _]. Defined.

(** Whether a choice is a new call being accepted. *)
Definition accepts (ch : StreamConc.choice) : bool :=
  match ch with StreamConc.ChConnect _ => true | _ => false end.

(** What a step does once no call is left: nothing is started. *)
Definition starts_nothing (s s' : StreamConc.config P) : Prop :=
  ops (StreamConc.cw s') = ops (StreamConc.cw s) ∨
  ∃ o, ops (StreamConc.cw s') = remove_one o (ops (StreamConc.cw s)).

(** Every live handler waits, so a report is that of a pending request, which fails, and
    its handler is deleted. *)
Lemma refused_after_calls s o ok ev w' :
  StreamReports.reads_ok s → StreamReports.calls_ok s → calls_over s →
  o ∈ ops (StreamConc.cw s) → effect (StreamConc.cw s) (Complete o ok ev) w' →
  (∀ h, Complete o ok ev ≠ Complete (OpRequest h) true ev) →
  ops w' = remove_one o (ops (StreamConc.cw s)) ∧ Shutdown.no_calls w'.
Proof.
  intros [Hw _ _] Hcalls [Hq Hno] Hin Heff Hreq.
  assert (Hst : ∀ h x, heap (StreamConc.cw s) !! h = Some x → state_ x = ACCEPTING) by exact Hno.
  remember (Complete o ok ev) as e eqn:He. destruct Heff; simplify_eq.
  - split; [done|]. intros h' y Hy. cbn in Hy. apply lookup_delete_Some in Hy as [_ Hy].
    by apply (Hst h').
  - by destruct (Hreq h).
  - match goal with H : heap _ !! _ = Some _ |- _ => apply Hst in H; congruence end.
  - match goal with H : heap _ !! _ = Some _ |- _ => apply Hst in H; congruence end.
  - match goal with H : heap _ !! _ = Some _ |- _ => apply Hst in H; congruence end.
  - exfalso. match goal with H : heap _ !! _ = Some _ |- _ => rename H into Hx end.
    pose proof (occ_pos _ _ Hin) as Hpos. rewrite (StreamConc.wo_live _ Hw _ _ Hx) in Hpos.
    rewrite (StreamReports.co_waiting _ Hcalls h x Hx (Hst h x Hx)) in Hpos; [cbn in Hpos; lia|].
    unfold StreamReports.connecting. rewrite Hq. by intros [?|?].
Qed.

Lemma quiet_when_down s ch l s' :
  StreamReports.reads_ok s → StreamReports.calls_ok s → calls_over s → accepts ch = false →
  StreamConc.schedule s ch = Some (l, s') → calls_over s' ∧ starts_nothing s s'.
Proof.
  intros Hr Hcalls Hover Ha Hsch. pose proof Hover as [Hq Hno].
  destruct ch as [o ok ev|h| | | |c| |]; try done; cbn [StreamConc.schedule] in Hsch; rewrite ?Hq in Hsch; try done.
  - destruct (decide _) as [(_ & Hin & Hco)|]; [|done].
    apply bind_Some in Hsch as (w' & Hrun%StreamConc.ran_some & [= <- <-]).
    pose proof (StreamReports.complete_effect _ _ _ _ _ (StreamReports.ro_ops _ Hr) Hin Hco Hrun) as Heff.
    destruct (refused_after_calls s o ok ev w' Hr Hcalls Hover Hin Heff) as [Hops Hno'].
    { by intros h [= -> ->]. }
    split; [by split|]. right. by exists o.
  - destruct (StreamConc.io s); [|done]. injection Hsch as <- <-. split; [by split|by left].
  - destruct (StreamConc.io s) as [|c [a|]]; try done. injection Hsch as <- <-. split; [by split|by left].
  - destruct (StreamConc.io s) as [|c [h|]] eqn:Hio; try done.
    apply bind_Some in Hsch as (w' & Hrun%StreamConc.ran_some & [= <- <-]). exfalso.
    destruct (heap (StreamConc.cw s) !! h) as [x|] eqn:Hx.
    + destruct (StreamReports.co_active _ Hcalls h) as [_ Hc]; [right; by exists c|].
      destruct (Hc x Hx (Hno h x Hx)) as [?|?]; congruence.
    + unfold enqueue, update in Hrun. by rewrite !bind_unfold, (this_dangling _ _ Hx) in Hrun.
Qed.

End shutdown.
End StreamShutdown.
