(* ===== verification/StreamEnd.v ===== *)
(** * Every call of the stream can come to its end *)

(** [server_->Shutdown()] and the loop of [GrpcServer::run] ([src/services/grpc_server.cc])
    wait until nothing of the stream is left. Under every interleaving of [StreamConc] a
    live handler of [src/services/vehicle_stream_handler.h] has its own operation
    outstanding, unless its connection is under way; so, as long as neither of the two
    known uses of a deleted handler is about to happen, the reports of gRPC lead to a
    state in which no handler and no operation is left. *)

From S2P Require Import Prelude Double Json Messages.
From S2P Require Import Stream StreamSeq StreamDelivery StreamConc StreamReports Shutdown StreamShutdown.

Module StreamEnd.
Import VehicleStreamHandler StreamSeq StreamDelivery StreamReports.

(** What is left to be reported until an operation has no successor: a failed read is
    followed by [Finish]. *)
Definition op_cost (o : op) : nat := match o with OpRead _ => 2 | _ => 1 end.
Definition ops_cost (l : list op) : nat := sum_list_with op_cost l.

(** The reports of failures, and the rest of a connection: no call is accepted, nothing
    is read. *)
Definition ends (ch : StreamConc.choice) : bool :=
  match ch with
  | StreamConc.ChComplete _ ok _ => negb ok
  | StreamConc.ChLock | StreamConc.ChFlush | StreamConc.ChUnlock => true
  | _ => false
  end.

Section stream.
Context `{JL : JsonLib} {P : Type} `{PB : Publisher P}.
Implicit Types (s : StreamConc.config P) (w : world P) (x : handler) (h : addr) (o : op).

(** A live handler has been started, and is told of its own operation or is the one whose
    connection is under way. *)
Definition waits s h x : Prop :=
  state_ x ≠ CREATE ∧ (connecting s h ∨ own_op (state_ x) h ∈ ops (StreamConc.cw s)).

Record live_ok s : Prop := {
  lo_waits h x : heap (StreamConc.cw s) !! h = Some x → waits s h x;
  lo_connecting h : connecting s h → is_Some (heap (StreamConc.cw s) !! h);
  lo_active h : active_ (StreamConc.cw s) = Some h → is_Some (heap (StreamConc.cw s) !! h)
}.

(** Neither a write's report nor the push under way is about to use a deleted handler. *)
Record intact s : Prop := {
  in_writes h : OpWrite h ∈ ops (StreamConc.cw s) → is_Some (heap (StreamConc.cw s) !! h);
  in_push c h : StreamConc.io s = StreamConc.IoLoaded c (Some h) →
    is_Some (heap (StreamConc.cw s) !! h)
}.

(** ** A live handler waits *)

(** What a step leaves of a handler that waits. *)
Definition still_waits s s' h x' : Prop :=
  ∃ x, heap (StreamConc.cw s) !! h = Some x ∧ state_ x' = state_ x ∧
    (connecting s h → connecting s' h) ∧
    (own_op (state_ x) h ∈ ops (StreamConc.cw s) → own_op (state_ x) h ∈ ops (StreamConc.cw s')).

Lemma live_step s s' :
  live_ok s →
  (∀ h x', heap (StreamConc.cw s') !! h = Some x' → waits s' h x' ∨ still_waits s s' h x') →
  (∀ h, connecting s' h ∨ active_ (StreamConc.cw s') = Some h → is_Some (heap (StreamConc.cw s') !! h)) →
  live_ok s'.
Proof.
  intros Hl Hh Hc. split; [|intros; apply Hc; by left|intros; apply Hc; by right].
  intros h x' Hx'. destruct (Hh h x' Hx') as [?|(x & Hx & Hs & H1 & H2)]; [done|].
  destruct (lo_waits _ Hl h x Hx) as [Hn Ho]. unfold waits. rewrite Hs. tauto.
Qed.

(** A step that leaves the handlers in their states, and their operations. *)
Lemma live_same s s' :
  live_ok s →
  (∀ h, connecting s' h ↔ connecting s h) →
  (∀ h, state_ <$> heap (StreamConc.cw s') !! h = state_ <$> heap (StreamConc.cw s) !! h) →
  (∀ o, is_write o = false → o ∈ ops (StreamConc.cw s) → o ∈ ops (StreamConc.cw s')) →
  active_ (StreamConc.cw s') = active_ (StreamConc.cw s) →
  live_ok s'.
Proof.
  intros Hl Hc Hh Ho Ha.
  assert (Hlive : ∀ h, is_Some (heap (StreamConc.cw s) !! h) → is_Some (heap (StreamConc.cw s') !! h)).
  { intros h Hx. by rewrite <- (fmap_is_Some state_), Hh, fmap_is_Some. }
  apply (live_step s); [done|..].
  - intros h x' Hx'. right. specialize (Hh h). rewrite Hx' in Hh. symmetry in Hh.
    apply fmap_Some in Hh as (x & Hx & Hs). exists x. split_and!; [done..|by apply Hc|].
    apply Ho. destruct (lo_waits _ Hl h x Hx) as [Hn _]. by destruct (state_ x).
  - intros h [Hc'|Ha']; apply Hlive; [by apply Hl, Hc|]. apply (lo_active _ Hl). congruence.
Qed.

Lemma delivered_states h x x' cs ms w w' a :
  heap w !! h = Some x → delivered h x x' cs ms w w' →
  state_ <$> heap w' !! a = state_ <$> heap w !! a.
Proof.
  intros Hx Hd. rewrite (delivered_lookup _ _ _ _ _ _ _ _ Hd). case_decide as Ha; [|done].
  subst a. rewrite Hx. cbn. by rewrite (d_state _ _ _ _ _ _ _ Hd).
Qed.

(** The handler of a reported operation goes to its next state, or is deleted; the others
    go on waiting. *)
Lemma live_moved s h st x w' i :
  live_ok s → (∀ h', connecting s h' → h' = h) → st ≠ CREATE →
  heap w' = <[h := set_state st x]> (heap (StreamConc.cw s)) → own_op st h ∈ ops w' →
  is_Some (heap (StreamConc.cw s) !! h) →
  (∀ o, op_addr o ≠ h → o ∈ ops (StreamConc.cw s) → o ∈ ops w') →
  (∀ a, active_ w' = Some a → active_ (StreamConc.cw s) = Some a) →
  live_ok {| StreamConc.cw := w'; StreamConc.cq := StreamConc.CqIdle; StreamConc.io := i |}.
Proof.
  intros Hl Hone Hst Hh Hown Hx Ho Ha. apply (live_step s); [done|..]; cbn.
  - intros a y. rewrite Hh. intros [[<- <-]|[Hne Hy]]%lookup_insert_Some; [left; by split; [|right]|].
    left. destruct (lo_waits _ Hl a y Hy) as [Hn [Hc|Hin]]; [by destruct Hne; symmetry; apply Hone|].
    split; [done|right]. apply Ho; [|done]. by destruct (state_ y).
  - intros a [[?|?]|Hact]; [done..|]. rewrite Hh. destruct (decide (a = h)) as [->|Hne].
    + by rewrite lookup_insert_eq.
    + rewrite lookup_insert_ne by done. by apply (lo_active _ Hl), Ha.
Qed.

Lemma live_deleted s h w' i :
  live_ok s → StreamConc.cq s = StreamConc.CqIdle →
  heap w' = delete h (heap (StreamConc.cw s)) →
  (∀ o, op_addr o ≠ h → o ∈ ops (StreamConc.cw s) → o ∈ ops w') →
  (∀ a, active_ w' = Some a → active_ (StreamConc.cw s) = Some a ∧ a ≠ h) →
  live_ok {| StreamConc.cw := w'; StreamConc.cq := StreamConc.CqIdle; StreamConc.io := i |}.
Proof.
  intros Hl Hq Hh Ho Ha. apply (live_step s); [done|..]; cbn.
  - intros a y. rewrite Hh. intros [Hne Hy]%lookup_delete_Some. left.
    destruct (lo_waits _ Hl a y Hy) as [Hn [[?|?]|Hin]]; [congruence..|].
    split; [done|right]. apply Ho; [|done]. by destruct (state_ y).
  - intros a [[?|?]|[Hact Hne]%Ha]; [done..|]. rewrite Hh, lookup_delete_ne by done. by apply (lo_active _ Hl).
Qed.

Lemma completed_others o w o' : o ∈ ops w → o' ≠ o → o' ∈ ops w → o' ∈ ops (completed o w).
Proof.
  intros Hin Hne Hin'. apply occ_elem. rewrite completed_occ, decide_False by done.
  by apply occ_pos in Hin'; lia.
Qed.

(** A report. *)
Lemma complete_live s o b v w' :
  live_ok s → calls_ok s → StreamConc.cq s = StreamConc.CqIdle → o ∈ ops (StreamConc.cw s) →
  StreamConc.is_connect o b = false → effect (StreamConc.cw s) (Complete o b v) w' →
  live_ok {| StreamConc.cw := w'; StreamConc.cq := StreamConc.CqIdle; StreamConc.io := StreamConc.io s |}.
Proof.
  intros Hl Hcs Hq Hin Hcon Heff.
  assert (Hnot : ∀ h, ¬ connecting s h) by (intros a; unfold connecting; rewrite Hq; by intros [?|?]).
  assert (Hone : ∀ h h', connecting s h' → h' = h) by (intros a a' Hc; by destruct (Hnot a')).
  assert (Hrest : ∀ o', op_addr o' ≠ op_addr o → o' ∈ ops (StreamConc.cw s) →
    o' ∈ ops (completed o (StreamConc.cw s))).
  { intros o' Hne. apply completed_others; [done|congruence]. }
  remember (Complete o b v) as e eqn:He. effect_cases Heff; simplify_eq; cbn [op_addr] in *.
  - apply (live_deleted s h); [done..|]. intros a Ha. split; [done|]. intros ->.
    destruct (co_active _ Hcs h (or_introl Ha)) as [_ Hc]. by apply (Hnot h), (Hc x).
  - apply (live_moved s h READING (set_incoming v x)); try done; [by apply Hone|..]; cbn.
    + apply elem_of_app. right. by apply list_elem_of_singleton.
    + intros o' Hne Ho'. apply elem_of_app. left. by apply Hrest.
  - apply (live_moved s h FINISH x); try done; [by apply Hone|..]; cbn;
      rewrite ?released_heap, ?released_ops; try done.
    + apply elem_of_app. right. by apply list_elem_of_singleton.
    + intros o' Hne Ho'. apply elem_of_app. left. by apply Hrest.
    + intros a [? _]%released_active. done.
  - apply (live_deleted s h); [done..| | |]; cbn; rewrite ?released_heap, ?released_ops; try done.
    intros a [? ?]%released_active. done.
  - apply (live_same s); try done; cbn.
    + unfold connecting; cbn. by rewrite Hq.
    + intros a. rewrite (delivered_lookup _ _ _ _ _ _ _ _ Hd). case_decide; [|done]. subst a.
      rewrite Hx. cbn. by rewrite (d_state _ _ _ _ _ _ _ Hd).
    + intros o Hw Ho. rewrite (d_ops _ _ _ _ _ _ _ Hd). apply elem_of_app. left.
      apply completed_others; [done|by intros ->|done].
    + by rewrite (d_active _ _ _ _ _ _ _ Hd).
Qed.

(** A connection begins: the sibling waits for the next call. *)
Lemma connect_live s h w' :
  reads_ok s → live_ok s → StreamConc.cq s = StreamConc.CqIdle → OpRequest h ∈ ops (StreamConc.cw s) →
  StreamConc.connect_begin h (StreamConc.cw s) = (Ret tt, w') →
  live_ok {| StreamConc.cw := w'; StreamConc.cq := StreamConc.CqActivated h;
             StreamConc.io := StreamConc.io s |}.
Proof.
  intros [Hw Hok _] Hl Hq Hin Hrun. pose proof (connect_run h _ _ Hok Hin Hrun) as (x & Hx & _ & ->).
  pose proof (StreamConc.wo_heap _ Hw _ _ Hx) as Hlt.
  assert (Hlive : ∀ a, is_Some (heap (StreamConc.cw s) !! a) →
    is_Some (<[next (StreamConc.cw s) := accepting_handler]> (heap (StreamConc.cw s)) !! a)).
  { intros a Ha. by apply lookup_insert_is_Some'; right. }
  apply (live_step s); [done|..]; unfold waits, connecting; cbn.
  - intros a y [[<- <-]|[Hne Hy]]%lookup_insert_Some; left.
    + split; [done|right]. apply elem_of_app. right. by apply list_elem_of_singleton.
    + destruct (lo_waits _ Hl a y Hy) as [Hn [[?|?]|Ho]]; [congruence..|]. split; [done|].
      destruct (decide (a = h)) as [->|Hah]; [by left; left|right].
      apply elem_of_app. left. apply (completed_others (OpRequest h)); [done| |done].
      destruct (state_ y); cbn; congruence.
  - intros a [[[= <-]|?]|[= <-]]; [|done|]; apply Hlive; by rewrite Hx.
Qed.

Lemma enqueue_live s h c w1 w' q i :
  live_ok s → enqueue h c (StreamConc.cw s) = (Ret tt, w1) →
  heap w' = heap w1 → ops w' = ops w1 → active_ w' = active_ w1 → q = StreamConc.cq s →
  live_ok {| StreamConc.cw := w'; StreamConc.cq := q; StreamConc.io := i |}.
Proof.
  intros Hl Hrun Hh Ho Ha ->. destruct (heap (StreamConc.cw s) !! h) as [x|] eqn:Hx.
  - destruct (enqueue_run h c _ x Hx) as (x' & ms & w2 & Hrun2 & Hd & _).
    rewrite Hrun in Hrun2. injection Hrun2 as <-. apply (live_same s); try done; cbn.
    + intros a. rewrite Hh. by eapply delivered_states.
    + intros o _ Hin. rewrite Ho, (d_ops _ _ _ _ _ _ _ Hd). apply elem_of_app. by left.
    + by rewrite Ha, (d_active _ _ _ _ _ _ _ Hd).
  - unfold enqueue, update in Hrun. by rewrite !bind_unfold, (this_dangling _ _ Hx) in Hrun.
Qed.

Lemma step_live s ch l s' :
  reads_ok s → calls_ok s → live_ok s → StreamConc.schedule s ch = Some (l, s') → live_ok s'.
Proof.
  intros Hr Hcs Hl Hsch.
  destruct ch as [o ok ev|h| | | |c| |]; cbn [StreamConc.schedule] in *.
  - destruct (decide _) as [(Hq & Hin & Hco)|]; [|done].
    apply bind_Some in Hsch as (w' & Hrun%StreamConc.ran_some & [= <- <-]).
    apply (complete_live s o ok ev); try done. by apply complete_effect; [apply Hr|..].
  - destruct (decide _) as [(Hq & Hin)|]; [|done].
    apply bind_Some in Hsch as (w' & Hrun%StreamConc.ran_some & [= <- <-]). by apply connect_live.
  - destruct (StreamConc.cq s) as [|h|] eqn:Hq; try done. injection Hsch as <- <-.
    apply (live_same s); try done. intros a. unfold connecting. cbn. rewrite Hq. intuition congruence.
  - destruct (StreamConc.cq s) as [| |h] eqn:Hq; try done.
    destruct (pending_commands_ _) as [|c cs]; [done|].
    apply bind_Some in Hsch as (w' & Hrun%StreamConc.ran_some & [= <- <-]).
    apply bind_ret_inv in Hrun as ([] & w1 & Henq & [= <-]). by eapply enqueue_live.
  - destruct (StreamConc.cq s) as [| |h] eqn:Hq; try done.
    destruct (pending_commands_ _) as [|c cs]; [|done].
    apply bind_Some in Hsch as (w' & Hrun%StreamConc.ran_some & [= <- <-]).
    destruct (lo_connecting _ Hl h) as [x Hx]; [by right|]. unfold StreamConc.connect_end in Hrun.
    rewrite (moved_run h READING (OpRead h) _ x Hx) in Hrun. injection Hrun as <-.
    apply (live_moved s h READING x); try done; cbn.
    + intros a. unfold connecting. rewrite Hq. intuition congruence.
    + apply elem_of_app. right. by apply list_elem_of_singleton.
    + intros o' _ Ho. apply elem_of_app. by left.
  - destruct (StreamConc.io s) eqn:Hio; [|done]. injection Hsch as <- <-. by apply (live_same s).
  - destruct (StreamConc.io s) as [|c [a|]] eqn:Hio; try done.
    destruct (StreamConc.is_flushing _); [done|]. injection Hsch as <- <-. by apply (live_same s).
  - destruct (StreamConc.io s) as [|c [h|]] eqn:Hio; try done.
    apply bind_Some in Hsch as (w' & Hrun%StreamConc.ran_some & [= <- <-]). by eapply enqueue_live.
Qed.

Lemma init_live_ok (p : P) : live_ok (StreamConc.init_config p).
Proof.
  unfold StreamConc.init_config. rewrite init_world_eq. split; unfold waits, connecting; cbn; [|by intros ? [?|?]|done].
  intros h x [[<- <-]|[_ Hx]]%lookup_insert_Some; [|by rewrite lookup_empty in Hx].
  split; [done|right]. by apply list_elem_of_singleton.
Qed.

(** ** The invariants together *)

Record good s : Prop := {
  go_reads : reads_ok s;
  go_calls : calls_ok s;
  go_live : live_ok s;
  go_intact : intact s
}.

Lemma good_step s ch l s' :
  good s → StreamConc.schedule s ch = Some (l, s') → intact s' → good s'.
Proof.
  intros [Hr Hc Hl _] Hs Hi. split; [by eapply step_reads|by eapply step_calls|by eapply step_live|done].
Qed.

(** A step that deletes nobody starts no write on a deleted handler. *)
Lemma intact_same s s' :
  intact s →
  (∀ h, is_Some (heap (StreamConc.cw s) !! h) → is_Some (heap (StreamConc.cw s') !! h)) →
  (∀ h, OpWrite h ∈ ops (StreamConc.cw s') →
     OpWrite h ∈ ops (StreamConc.cw s) ∨ is_Some (heap (StreamConc.cw s') !! h)) →
  (∀ c h, StreamConc.io s' = StreamConc.IoLoaded c (Some h) →
     StreamConc.io s = StreamConc.io s' ∨ is_Some (heap (StreamConc.cw s') !! h)) →
  intact s'.
Proof.
  intros [Hw Hp] Hh Ho Hio. split.
  - intros h [?|?]%Ho; [by apply Hh, Hw|done].
  - intros c h Hc. destruct (Hio c h Hc) as [He|?]; [|done]. apply Hh, (Hp c). congruence.
Qed.

(** A command is enqueued on a live handler. *)
Lemma enqueue_intact s h c x :
  intact s → heap (StreamConc.cw s) !! h = Some x →
  ∃ w1, enqueue h c (StreamConc.cw s) = (Ret tt, w1) ∧
    pending_commands_ w1 = pending_commands_ (StreamConc.cw s) ∧
    ∀ w' q i, heap w' = heap w1 → ops w' = ops w1 → i = StreamConc.io s ∨ i = StreamConc.IoIdle →
      intact {| StreamConc.cw := w'; StreamConc.cq := q; StreamConc.io := i |}.
Proof.
  intros Hi Hx. destruct (enqueue_run h c _ x Hx) as (x' & ms & w1 & Hrun & Hd & Hp & _).
  exists w1. split_and!; [done..|]. intros w' q i Hh Ho Hio.
  assert (Hlive : ∀ a, is_Some (heap (StreamConc.cw s) !! a) → is_Some (heap w' !! a)).
  { intros a. by rewrite Hh, <- (fmap_is_Some state_), <- (delivered_states _ _ _ _ _ _ _ a Hx Hd),
      fmap_is_Some. }
  apply (intact_same s); [done|exact Hlive|..]; cbn.
  - intros a. rewrite Ho. intros [?| [= ->]]%(delivered_elem_ops _ _ _ _ _ _ _ _ Hd); [by left|].
    right. apply Hlive. by rewrite Hx.
  - intros c' a ->. by destruct Hio as [<-|]; [left|].
Qed.

(** ** The rest of a connection *)

Lemma flush_step s h c cs :
  good s → StreamConc.cq s = StreamConc.CqFlushing h → pending_commands_ (StreamConc.cw s) = c :: cs →
  ∃ w', StreamConc.schedule s StreamConc.ChFlush =
      Some ([], {| StreamConc.cw := w'; StreamConc.cq := StreamConc.CqFlushing h;
                   StreamConc.io := StreamConc.io s |}) ∧
    pending_commands_ w' = cs ∧
    good {| StreamConc.cw := w'; StreamConc.cq := StreamConc.CqFlushing h;
            StreamConc.io := StreamConc.io s |}.
Proof.
  intros Hg Hq Hp. destruct (lo_connecting _ (go_live _ Hg) h (or_intror Hq)) as [x Hx].
  destruct (enqueue_intact s h c x (go_intact _ Hg) Hx) as (w1 & Hrun & Hp1 & Hi).
  exists (set_pending (tail (pending_commands_ w1)) w1).
  assert (Hs : StreamConc.schedule s StreamConc.ChFlush =
    Some ([], {| StreamConc.cw := set_pending (tail (pending_commands_ w1)) w1;
      StreamConc.cq := StreamConc.CqFlushing h; StreamConc.io := StreamConc.io s |})).
  { cbn [StreamConc.schedule]. rewrite Hq, Hp. unfold StreamConc.flush_one.
    by rewrite (bind_run _ _ _ _ _ Hrun). }
  split_and!; [exact Hs|cbn; by rewrite Hp1, Hp|].
  eapply good_step; [done|exact Hs|]. apply Hi; [done..|by left].
Qed.

Lemma unlock_step s h :
  good s → StreamConc.cq s = StreamConc.CqFlushing h → pending_commands_ (StreamConc.cw s) = [] →
  ∃ w', StreamConc.schedule s StreamConc.ChUnlock =
      Some ([], {| StreamConc.cw := w'; StreamConc.cq := StreamConc.CqIdle;
                   StreamConc.io := StreamConc.io s |}) ∧
    good {| StreamConc.cw := w'; StreamConc.cq := StreamConc.CqIdle; StreamConc.io := StreamConc.io s |}.
Proof.
  intros Hg Hq Hp. destruct (lo_connecting _ (go_live _ Hg) h (or_intror Hq)) as [x Hx].
  eexists.
  assert (Hs : StreamConc.schedule s StreamConc.ChUnlock =
    Some ([], {| StreamConc.cw := moved h READING (OpRead h) x (StreamConc.cw s);
      StreamConc.cq := StreamConc.CqIdle; StreamConc.io := StreamConc.io s |})).
  { cbn [StreamConc.schedule]. rewrite Hq, Hp. unfold StreamConc.connect_end.
    by rewrite (moved_run h READING (OpRead h) _ x Hx). }
  split; [exact Hs|]. eapply good_step; [done|exact Hs|].
  apply (intact_same s); [apply Hg|..]; cbn; [| |by left].
  - intros a Ha. apply lookup_insert_is_Some'. by right.
  - intros a [?|[= ->]%list_elem_of_singleton]%elem_of_app. by left.
Qed.

(** Executions of the scheduler that only end calls. *)
Definition winds_down s s' : Prop :=
  ∃ chs, StreamConc.run_schedule s chs = Some ([], s') ∧ Forall (λ ch, ends ch = true) chs.

Lemma winds_nil s : winds_down s s.
Proof. by exists []. Qed.

Lemma winds_cons s ch s1 s' :
  StreamConc.schedule s ch = Some ([], s1) → ends ch = true → winds_down s1 s' → winds_down s s'.
Proof.
  intros Hs He (chs & Hr & Hf). exists (ch :: chs). split; [|by constructor].
  cbn [StreamConc.run_schedule]. rewrite Hs. cbn. by rewrite Hr.
Qed.

Lemma winds_trans s s1 s' : winds_down s s1 → winds_down s1 s' → winds_down s s'.
Proof.
  intros (chs & Hr & Hf) Hw. revert s Hr. induction Hf as [|ch chs He _ IH]; intros s.
  - by intros [= ->].
  - cbn [StreamConc.run_schedule].
    intros ([l1 s2] & Hs & ([l2 s3] & Hr & [= Hl <-])%bind_Some)%bind_Some.
    apply app_nil in Hl as [-> ->]. eapply winds_cons; [exact Hs|done|by apply IH].
Qed.

Lemma flush_ends l : ∀ s h,
  good s → StreamConc.cq s = StreamConc.CqFlushing h → pending_commands_ (StreamConc.cw s) = l →
  ∃ s', winds_down s s' ∧ good s' ∧ StreamConc.cq s' = StreamConc.CqIdle ∧
    StreamConc.io s' = StreamConc.io s.
Proof.
  induction l as [|c cs IH]; intros s h Hg Hq Hp.
  - destruct (unlock_step s h Hg Hq Hp) as (w' & Hs & Hg'). eexists. split_and!; [|done..].
    eapply winds_cons; [exact Hs|done|apply winds_nil].
  - destruct (flush_step s h c cs Hg Hq Hp) as (w' & Hs & Hp' & Hg').
    destruct (IH _ h Hg' eq_refl Hp') as (s' & Hw & Hg2 & Hq2 & Hio).
    exists s'. split_and!; [|done..]. by eapply winds_cons.
Qed.

(** A connection under way comes to its end. *)
Lemma connection_ends s :
  good s → ∃ s', winds_down s s' ∧ good s' ∧ StreamConc.cq s' = StreamConc.CqIdle ∧
    StreamConc.io s' = StreamConc.io s.
Proof.
  intros Hg. destruct (StreamConc.cq s) as [|h|h] eqn:Hq.
  - exists s. split_and!; [apply winds_nil|done..].
  - set (s1 := {| StreamConc.cw := StreamConc.cw s; StreamConc.cq := StreamConc.CqFlushing h;
      StreamConc.io := StreamConc.io s |}).
    assert (Hs : StreamConc.schedule s StreamConc.ChLock = Some ([], s1)) by (cbn; by rewrite Hq).
    assert (Hg1 : good s1).
    { eapply good_step; [done|exact Hs|]. apply (intact_same s); [apply Hg|done|by left|by left]. }
    destruct (flush_ends _ s1 h Hg1 eq_refl eq_refl) as (s' & Hw & Hrest).
    exists s'. split; [by eapply winds_cons|exact Hrest].
  - by eapply flush_ends.
Qed.

(** ** The reports that are left *)

Lemma cost_remove o l : o ∈ l → ops_cost l = op_cost o + ops_cost (remove_one o l).
Proof. intros Hin. unfold ops_cost. by rewrite (remove_one_perm o l Hin) at 1. Qed.

(** The state after a report. *)
Definition after s w' : StreamConc.config P :=
  {| StreamConc.cw := w'; StreamConc.cq := StreamConc.CqIdle; StreamConc.io := StreamConc.io s |}.

Lemma fail_step s o w' :
  StreamConc.cq s = StreamConc.CqIdle → o ∈ ops (StreamConc.cw s) →
  complete o false EvNotSet (StreamConc.cw s) = (Ret tt, w') →
  StreamConc.schedule s (StreamConc.ChComplete o false EvNotSet) = Some ([], after s w').
Proof.
  intros Hq Hin Hrun. cbn [StreamConc.schedule]. rewrite decide_True by (split_and!; by destruct o).
  by rewrite Hrun.
Qed.

(** A write that fails is followed by no other. *)
Lemma write_fails s h x :
  heap (StreamConc.cw s) !! h = Some x →
  complete (OpWrite h) false EvNotSet (StreamConc.cw s) =
    (Ret tt, set_heap (insert h (set_writing false x)) (completed (OpWrite h) (StreamConc.cw s))).
Proof. intros Hx. apply complete_run. by apply update_run. Qed.

(** Any other operation that fails leaves nothing, or the final report of its call. *)
Lemma report_fails w o :
  ops_ok w → o ∈ ops w → is_write o = false →
  ∃ w', complete o false EvNotSet w = (Ret tt, w') ∧
    (ops w' = remove_one o (ops w) ∨
     ∃ h, o = OpRead h ∧ ops w' = remove_one o (ops w) ++ [OpFinish h]).
Proof.
  intros Hok Hin Hw. destruct (reported_state w o Hok Hin Hw) as (Hout & _).
  destruct o as [h|h|h|h]; try done.
  - destruct (run_request w h false EvNotSet Hout) as (w' & Hrun & Heff); [done|].
    exists w'. split; [done|left]. by inversion Heff.
  - destruct (run_read_end w h EvNotSet Hout) as (w' & Hrun & Heff).
    exists w'. split; [done|right]. exists h. split; [done|]. inversion Heff; subst. cbn.
    by rewrite released_ops.
  - destruct (run_finish w h false EvNotSet Hout) as (w' & Hrun & Heff).
    exists w'. split; [done|left]. inversion Heff; subst. cbn. by rewrite released_ops.
Qed.

(** Writes are reported first: their handlers are alive. *)
Lemma one_fails s :
  good s → StreamConc.cq s = StreamConc.CqIdle → StreamConc.io s = StreamConc.IoIdle →
  ops (StreamConc.cw s) ≠ [] →
  ∃ o w', StreamConc.schedule s (StreamConc.ChComplete o false EvNotSet) = Some ([], after s w') ∧
    good (after s w') ∧ ops_cost (ops w') < ops_cost (ops (StreamConc.cw s)).
Proof.
  intros Hg Hq Hio Hne.
  destruct (decide (Exists (λ o, is_write o = true) (ops (StreamConc.cw s)))) as [He|Hno].
  - apply Exists_exists in He as (o & Hin & Hw). destruct o as [| | |h]; try done.
    destruct (in_writes _ (go_intact _ Hg) h Hin) as [x Hx].
    pose proof (fail_step s _ _ Hq Hin (write_fails s h x Hx)) as Hs.
    exists (OpWrite h). eexists. split_and!; [exact Hs| |].
    + eapply good_step; [done|exact Hs|]. apply (intact_same s); [apply Hg|..]; cbn; [| |by left].
      * intros a Ha. apply lookup_insert_is_Some'. by right.
      * intros a ?%elem_of_remove_one. by left.
    + rewrite (cost_remove _ _ Hin). cbn [completed set_heap set_ops ops op_cost]. lia.
  - destruct (ops (StreamConc.cw s)) as [|o l] eqn:Ho; [done|].
    assert (Hin : o ∈ ops (StreamConc.cw s)) by (rewrite Ho; apply elem_of_cons; by left).
    assert (Hnone : ∀ h, OpWrite h ∉ ops (StreamConc.cw s)).
    { intros h Hh. apply Hno, Exists_exists. exists (OpWrite h). by rewrite <- Ho. }
    assert (Hw : is_write o = false) by (destruct o as [| | |h]; [done..|by destruct (Hnone h)]).
    destruct (report_fails _ o (ro_ops _ (go_reads _ Hg)) Hin Hw) as (w' & Hrun & Hops).
    pose proof (fail_step s _ _ Hq Hin Hrun) as Hs. exists o, w'. rewrite <- Ho.
    split_and!; [exact Hs| |].
    + eapply good_step; [done|exact Hs|]. split; cbn; [|intros c h; by rewrite Hio].
      intros h Hh. destruct (Hnone h). destruct Hops as [Hops|(a & -> & Hops)]; rewrite Hops in Hh.
      * by eapply elem_of_remove_one.
      * apply elem_of_app in Hh as [Hh|Hh%list_elem_of_singleton]; [by eapply elem_of_remove_one|done].
    + rewrite (cost_remove _ _ Hin). destruct Hops as [->|(a & -> & ->)].
      * destruct o; cbn [op_cost]; lia.
      * unfold ops_cost. rewrite sum_list_with_app. cbn [op_cost sum_list_with]. lia.
Qed.

Lemma all_fail n : ∀ s,
  ops_cost (ops (StreamConc.cw s)) = n → good s → StreamConc.cq s = StreamConc.CqIdle →
  StreamConc.io s = StreamConc.IoIdle →
  ∃ w', winds_down s (after s w') ∧ good (after s w') ∧ ops w' = [].
Proof.
  induction n as [n IH] using lt_wf_ind. intros s Hn Hg Hq Hio.
  destruct (decide (ops (StreamConc.cw s) = [])) as [He|Hne].
  - exists (StreamConc.cw s). replace (after s (StreamConc.cw s)) with s by (destruct s; cbn in *; by subst).
    split_and!; [apply winds_nil|done..].
  - destruct (one_fails s Hg Hq Hio Hne) as (o & w1 & Hs & Hg1 & Hlt).
    destruct (IH _ ltac:(rewrite <- Hn; exact Hlt) (after s w1) eq_refl Hg1 eq_refl Hio)
      as (w' & Hw & Hg' & Hops).
    exists w'. split_and!; [|done..]. by eapply winds_cons.
Qed.

(** No operation is outstanding only when no handler is left. *)
Lemma nothing_left s :
  live_ok s → StreamConc.cq s = StreamConc.CqIdle → ops (StreamConc.cw s) = [] →
  heap (StreamConc.cw s) = ∅.
Proof.
  intros Hl Hq Ho. apply map_empty. intros h. destruct (heap (StreamConc.cw s) !! h) as [x|] eqn:Hx; [|done].
  destruct (lo_waits _ Hl h x Hx) as [_ [[?|?]|Hin]]; [congruence..|].
  by rewrite Ho in Hin; apply elem_of_nil in Hin.
Qed.

(** Every call can come to its end: whatever was under way, the reports of failures lead
    to a state with no handler and nothing outstanding. *)
Lemma stream_ends s :
  good s → StreamConc.io s = StreamConc.IoIdle →
  ∃ s', winds_down s s' ∧ good s' ∧ StreamConc.cq s' = StreamConc.CqIdle ∧
    StreamConc.io s' = StreamConc.IoIdle ∧ ops (StreamConc.cw s') = [] ∧
    heap (StreamConc.cw s') = ∅.
Proof.
  intros Hg Hio. destruct (connection_ends s Hg) as (s1 & Hw1 & Hg1 & Hq1 & Hio1).
  rewrite Hio in Hio1. destruct (all_fail _ s1 eq_refl Hg1 Hq1 Hio1) as (w' & Hw & Hg' & Ho).
  exists (after s1 w'). split_and!; [by eapply winds_trans|done..|].
  by apply nothing_left; [apply Hg'|..].
Qed.

Lemma empty_over s :
  StreamConc.cq s = StreamConc.CqIdle → heap (StreamConc.cw s) = ∅ → StreamShutdown.calls_over s.
Proof. intros Hq Hh. split; [done|]. unfold Shutdown.no_calls. rewrite Hh. apply map_Forall_empty. Qed.

(** ** The pushes *)

(** A push past its load comes to its end when no connection is under way. *)
Lemma push_ends s c a :
  good s → StreamConc.cq s = StreamConc.CqIdle → StreamConc.io s = StreamConc.IoLoaded c a →
  ∃ ch w', (ch = StreamConc.ChPend ∨ ch = StreamConc.ChEnqueue) ∧
    let s' := {| StreamConc.cw := w'; StreamConc.cq := StreamConc.CqIdle;
                 StreamConc.io := StreamConc.IoIdle |} in
    StreamConc.schedule s ch = Some ([], s') ∧ good s'.
Proof.
  intros Hg Hq Hio. destruct a as [h|].
  - destruct (in_push _ (go_intact _ Hg) c h Hio) as [x Hx].
    destruct (enqueue_intact s h c x (go_intact _ Hg) Hx) as (w1 & Hrun & _ & Hi).
    exists StreamConc.ChEnqueue, w1. split; [by right|]. cbv zeta.
    assert (Hs : StreamConc.schedule s StreamConc.ChEnqueue = Some ([],
      {| StreamConc.cw := w1; StreamConc.cq := StreamConc.CqIdle; StreamConc.io := StreamConc.IoIdle |})).
    { cbn [StreamConc.schedule]. by rewrite Hio, Hrun, Hq. }
    split; [exact Hs|]. eapply good_step; [done|exact Hs|]. apply Hi; [done..|by right].
  - exists StreamConc.ChPend. eexists. split; [by left|]. cbv zeta.
    set (w' := set_pending (pending_commands_ (StreamConc.cw s) ++ [c]) (StreamConc.cw s)).
    assert (Hs : StreamConc.schedule s StreamConc.ChPend = Some ([],
      {| StreamConc.cw := w'; StreamConc.cq := StreamConc.CqIdle; StreamConc.io := StreamConc.IoIdle |})).
    { cbn [StreamConc.schedule]. by rewrite Hio, Hq. }
    split; [exact Hs|]. eapply good_step; [done|exact Hs|].
    apply (intact_same s); [apply Hg|done|by left|done].
Qed.

Lemma load_good s c :
  good s → StreamConc.io s = StreamConc.IoIdle →
  let s' := {| StreamConc.cw := StreamConc.cw s; StreamConc.cq := StreamConc.cq s;
               StreamConc.io := StreamConc.IoLoaded c (active_ (StreamConc.cw s)) |} in
  StreamConc.schedule s (StreamConc.ChLoad c) = Some ([c], s') ∧ good s'.
Proof.
  intros Hg Hio s'. assert (Hs : StreamConc.schedule s (StreamConc.ChLoad c) = Some ([c], s'))
    by (cbn [StreamConc.schedule]; by rewrite Hio).
  split; [exact Hs|]. eapply good_step; [done|exact Hs|].
  apply (intact_same s); [apply Hg|done|by left|]. cbn. intros c' h [= _ Ha]. right.
  by apply (lo_active _ (go_live _ Hg)).
Qed.

(** What winding down leaves to the publisher, and to the io thread. *)
Lemma winds_down_publisher s s' :
  reads_ok s → winds_down s s' → publisher (StreamConc.cw s') = publisher (StreamConc.cw s).
Proof.
  intros Hr (chs & Hrun & Hf). revert s Hr Hrun.
  induction Hf as [|ch chs He _ IH]; intros s Hr; cbn [StreamConc.run_schedule]; [by intros [= ->]|].
  intros ([l1 s1] & Hs & ([l2 s2] & Hrun & [= Hl <-])%bind_Some)%bind_Some.
  apply app_nil in Hl as [-> ->].
  destruct (step_reads _ _ _ _ Hr Hs) as [Hr1 Hp]. rewrite (IH s1 Hr1 Hrun).
  destruct ch as [o ok ev| | | | | | |]; cbn [ends choice_reads] in *; try done.
  destruct ok; [done|]. by destruct o.
Qed.

(** ** A deleted handler that is about to be used *)

(** An address is not used again. *)
Definition dead w h : Prop := h < next w ∧ heap w !! h = None.

(** What a step leaves of the uses of a deleted handler: it cannot make them. *)
Definition stays_stuck h w w' : Prop :=
  dead w' h ∧ (OpWrite h ∈ ops w → OpWrite h ∈ ops w').

Lemma insert_stuck h h' x x' w w' :
  dead w h → heap w !! h' = Some x → heap w' = <[h' := x']> (heap w) → next w' = next w →
  (OpWrite h ∈ ops w → OpWrite h ∈ ops w') → stays_stuck h w w'.
Proof.
  intros [Hlt Hd] Hx Hh Hn Ho. split; [|done]. split; [by rewrite Hn|].
  rewrite Hh, lookup_insert_ne; [done|congruence].
Qed.

Lemma delete_stuck h h' w w' :
  dead w h → heap w' = delete h' (heap w) → next w' = next w →
  (OpWrite h ∈ ops w → OpWrite h ∈ ops w') → stays_stuck h w w'.
Proof.
  intros [Hlt Hd] Hh Hn Ho. split; [|done]. split; [by rewrite Hn|].
  by rewrite Hh, lookup_delete_None; right.
Qed.

Lemma enqueue_stuck h h' c w w1 w' :
  dead w h → enqueue h' c w = (Ret tt, w1) →
  heap w' = heap w1 → next w' = next w1 → ops w' = ops w1 → stays_stuck h w w'.
Proof.
  intros Hd Hrun Hh Hn Ho. destruct (heap w !! h') as [x|] eqn:Hx.
  - destruct (enqueue_run h' c _ x Hx) as (x' & ms & w2 & Hrun2 & Hdl & _).
    rewrite Hrun in Hrun2. injection Hrun2 as <-.
    apply (insert_stuck h h' x x'); [done..|by rewrite Hh, (d_heap _ _ _ _ _ _ _ Hdl)| |].
    + by rewrite Hn, (d_next _ _ _ _ _ _ _ Hdl).
    + intros Hin. rewrite Ho, (d_ops _ _ _ _ _ _ _ Hdl). apply elem_of_app. by left.
  - unfold enqueue, update in Hrun. by rewrite !bind_unfold, (this_dangling _ _ Hx) in Hrun.
Qed.

Lemma complete_stuck a w o b v w' :
  dead w a → o ∈ ops w → StreamConc.is_connect o b = false → effect w (Complete o b v) w' →
  stays_stuck a w w'.
Proof.
  intros Hdead Hin Hcon Heff.
  assert (Hkeep : (∀ h', o = OpWrite h' → is_Some (heap w !! h')) →
    OpWrite a ∈ ops w → OpWrite a ∈ ops (completed o w)).
  { intros Hl Hw. apply completed_others; [done| |done]. intros <-.
    destruct (Hl a eq_refl) as [y Hy]. destruct Hdead. congruence. }
  remember (Complete o b v) as e eqn:He. effect_cases Heff; simplify_eq.
  - apply (delete_stuck a h); try done. by apply Hkeep.
  - apply (insert_stuck a h x (set_state READING (set_incoming v x))); try done.
    intros Hw. apply elem_of_app. left. by apply Hkeep.
  - apply (insert_stuck a h x (set_state FINISH x)); try done; cbn;
      rewrite ?released_heap, ?released_next, ?released_ops; try done.
    intros Hw. apply elem_of_app. left. by apply Hkeep.
  - apply (delete_stuck a h); try done; cbn; rewrite ?released_heap, ?released_next, ?released_ops; try done.
    by apply Hkeep.
  - apply (insert_stuck a h x x'); try done; [by rewrite (d_heap _ _ _ _ _ _ _ Hd)|..].
    + by rewrite (d_next _ _ _ _ _ _ _ Hd).
    + intros Hw. rewrite (d_ops _ _ _ _ _ _ _ Hd). apply elem_of_app. left. apply Hkeep; [|done].
      intros h' [= <-]. by rewrite Hx.
Qed.

(** The report of such a write, or such a push, is never made. *)
Lemma step_stuck s ch l s' h :
  reads_ok s → dead (StreamConc.cw s) h → StreamConc.schedule s ch = Some (l, s') →
  stays_stuck h (StreamConc.cw s) (StreamConc.cw s') ∧
  ∀ c, StreamConc.io s = StreamConc.IoLoaded c (Some h) → StreamConc.io s' = StreamConc.io s.
Proof.
  intros [Hw Hops _] Hd Hsch. pose proof Hd as [Hlt Hnone].
  assert (Hsame : stays_stuck h (StreamConc.cw s) (StreamConc.cw s)) by by split.
  destruct ch as [o ok ev|a| | | |c| |]; cbn [StreamConc.schedule] in *.
  - destruct (decide _) as [(Hq & Hin & Hco)|]; [|done].
    apply bind_Some in Hsch as (w' & Hrun%StreamConc.ran_some & [= <- <-]). split; [|done].
    apply (complete_stuck h _ o ok ev); try done. by apply complete_effect.
  - destruct (decide _) as [(Hq & Hin)|]; [|done].
    apply bind_Some in Hsch as (w' & Hrun%StreamConc.ran_some & [= <- <-]). split; [|done].
    pose proof (connect_run a _ _ Hops Hin Hrun) as (x & Hx & _ & ->). split; [split; cbn; [lia|]|cbn].
    + by rewrite lookup_insert_ne by lia.
    + intros Ho. apply elem_of_app. left. by apply completed_others.
  - destruct (StreamConc.cq s) as [|a|]; try done. by injection Hsch as <- <-.
  - destruct (StreamConc.cq s) as [| |a]; try done.
    destruct (pending_commands_ _) as [|c cs]; [done|].
    apply bind_Some in Hsch as (w' & Hrun%StreamConc.ran_some & [= <- <-]). split; [|done].
    apply bind_ret_inv in Hrun as ([] & w1 & Henq & [= <-]). by eapply enqueue_stuck.
  - destruct (StreamConc.cq s) as [| |a]; try done.
    destruct (pending_commands_ _) as [|c cs]; [|done].
    apply bind_Some in Hsch as (w' & Hrun%StreamConc.ran_some & [= <- <-]). split; [|done]. cbn.
    unfold StreamConc.connect_end in Hrun. destruct (heap (StreamConc.cw s) !! a) as [x|] eqn:Hx.
    + rewrite (moved_run a READING (OpRead a) _ x Hx) in Hrun. injection Hrun as <-.
      apply (insert_stuck h a x (set_state READING x)); try done.
      intros Ho. apply elem_of_app. by left.
    + unfold update in Hrun. by rewrite !bind_unfold, (this_dangling _ _ Hx) in Hrun.
  - destruct (StreamConc.io s) eqn:Hio; [|done]. by injection Hsch as <- <-.
  - destruct (StreamConc.io s) as [|c [a|]] eqn:Hio; try done.
    destruct (StreamConc.is_flushing _); [done|]. by injection Hsch as <- <-.
  - destruct (StreamConc.io s) as [|c [a|]] eqn:Hio; try done.
    apply bind_Some in Hsch as (w' & Hrun%StreamConc.ran_some & [= <- <-]).
    split; [by eapply enqueue_stuck|]. intros c' [= <- ->].
    unfold enqueue, update in Hrun. by rewrite !bind_unfold, (this_dangling _ _ Hnone) in Hrun.
Qed.

End stream.
End StreamEnd.
