(* ===== verification/Config.v ===== *)
(** * Configuration *)

(** The environment and the [.env] file ([src/infra/config.h]). The process
    environment is a map; the files that can be opened are an input. The parts
    of the C and C++ libraries the source uses ([find_first_not_of], [getline],
    [strtol], [strtod], ...) come first. *)

From stdpp Require Import pretty.
From S2P Require Import Prelude Double.

Module Config.

(** ** The standard library *)

Abbreviation newline := (Ascii.ascii_of_nat 10).
Abbreviation carriage_return := (Ascii.ascii_of_nat 13).
Abbreviation tab := (Ascii.ascii_of_nat 9).
Abbreviation nul := (Ascii.ascii_of_nat 0).
Abbreviation double_quote := (Ascii.ascii_of_nat 34).
Abbreviation single_quote := (Ascii.ascii_of_nat 39).

(** [s.find_first_not_of(set)]. *)
Fixpoint find_first_not_of (set s : chars) : option nat :=
  match s with
  | [] => None
  | c :: s' => if char_in c set then S <$> find_first_not_of set s' else Some 0
  end.

(** [s.find(c, pos)]. *)
Fixpoint find_char (c : ascii) (s : chars) : option nat :=
  match s with
  | [] => None
  | c' :: s' => if decide (c = c') then Some 0 else S <$> find_char c s'
  end.
Definition find (s : chars) (c : ascii) (pos : nat) : option nat :=
  Nat.add pos <$> find_char c (drop pos s).

(** [s.substr(pos, len)]. *)
Definition substr (s : chars) (pos len : nat) : chars := take len (drop pos s).

(** [while (!s.empty() && (s.back() == ...)) s.pop_back();]. *)
Definition pop_back_while (set s : chars) : chars :=
  reverse (drop (default (length s) (find_first_not_of set (reverse s))) (reverse s)).

(** [s.c_str()] read as a C string ends at the first null character. *)
Fixpoint c_str (s : chars) : chars :=
  match s with
  | [] => []
  | c :: s' => if decide (c = nul) then [] else c :: c_str s'
  end.

(** The lines [getline] reads: a text that ends with a newline has no empty last
    line. *)
Fixpoint getlines (s : chars) : list chars :=
  match s with
  | [] => []
  | c :: s' =>
      if decide (c = newline) then [] :: getlines s'
      else match getlines s' with
           | [] => [[c]]
           | l :: ls => (c :: l) :: ls
           end
  end.

(** [isspace] in the C locale. *)
Definition is_space (c : ascii) : bool :=
  let n := nat_of_ascii c in (n =? 32)%nat || ((9 <=? n)%nat && (n <=? 13)%nat).

Fixpoint skip_space (s : chars) : chars :=
  match s with
  | c :: s' => if is_space c then skip_space s' else s
  | [] => []
  end.

Definition digit (c : ascii) : option Z :=
  let n := nat_of_ascii c in
  if (48 <=? n)%nat && (n <=? 57)%nat then Some (Z.of_nat (n - 48)) else None.

Definition hex_digit (c : ascii) : option Z :=
  let n := nat_of_ascii c in
  if (48 <=? n)%nat && (n <=? 57)%nat then Some (Z.of_nat (n - 48))
  else if (97 <=? n)%nat && (n <=? 102)%nat then Some (Z.of_nat (n - 87))
  else if (65 <=? n)%nat && (n <=? 70)%nat then Some (Z.of_nat (n - 55))
  else None.

(** The longest run of digits: its value on top of [acc], its length, the rest. *)
Fixpoint digits (dig : ascii → option Z) (base acc : Z) (s : chars) : Z * nat * chars :=
  match s with
  | [] => (acc, 0, [])
  | c :: s' =>
      match dig c with
      | Some d =>
          let '(v, n, r) := digits dig base (base * acc + d)%Z s' in (v, S n, r)
      | None => (acc, 0, s)
      end
  end.

Definition sign (s : chars) : bool * chars :=
  match s with
  | c :: s' =>
      if Ascii.eqb c "-" then (true, s') else if Ascii.eqb c "+" then (false, s') else (false, s)
  | [] => (false, [])
  end.

Definition apply_sign (neg : bool) (z : Z) : Z := if neg then (- z)%Z else z.

(** [std::stoi(s)]: [None] when it throws ([invalid_argument] without digits,
    [out_of_range] beyond [int]); characters after the number are ignored. *)
Definition stoi (s : chars) : option Z :=
  let '(neg, s1) := sign (skip_space s) in
  let '(v, n, _) := digits digit 10 0 s1 in
  if (n =? 0)%nat then None
  else let z := apply_sign neg v in if int_ok z then Some z else None.

(** ASCII lower case, for the words [strtod] reads. *)
Definition lower (c : ascii) : ascii :=
  let n := nat_of_ascii c in
  if (65 <=? n)%nat && (n <=? 90)%nat then Ascii.ascii_of_nat (n + 32) else c.
Definition starts_with (w s : chars) : bool := bool_decide (w = lower <$> take (length w) s).

(** A mantissa with its fraction: value without the point, digits before or
    after it, digits after it, the rest. *)
Definition mantissa (dig : ascii → option Z) (base : Z) (s : chars) : Z * nat * nat * chars :=
  let '(v, n, r) := digits dig base 0 s in
  match r with
  | c :: r' =>
      if Ascii.eqb c "."
      then let '(v', n', r'') := digits dig base v r' in (v', n + n', n', r'')
      else (v, n, 0, r)
  | [] => (v, n, 0, [])
  end.

(** An optional exponent; it counts only when it has digits. *)
Definition exponent (mark : ascii) (s : chars) : Z :=
  match s with
  | c :: s' =>
      if Ascii.eqb (lower c) mark
      then let '(neg, s1) := sign s' in
           let '(v, n, _) := digits digit 10 0 s1 in
           if (n =? 0)%nat then 0%Z else apply_sign neg v
      else 0%Z
  | [] => 0%Z
  end.

(** [d] is exactly [m * b ^ e]. *)
Definition exact (m b e : Z) (d : double) : bool :=
  match d with
  | S754_finite _ m' e' =>
      (m * b ^ Z.max e 0 * 2 ^ Z.max (- e') 0 =?
       Zpos m' * 2 ^ Z.max e' 0 * b ^ Z.max (- e) 0)%Z
  | _ => (m =? 0)%Z
  end.

(** [strtod] reports [ERANGE] when the value overflows, or underflows to an
    inexact number below the normal range. *)
Definition range_error (m b e : Z) (d : double) : bool :=
  match d with
  | S754_infinity _ | S754_nan => true
  | S754_zero _ => negb (m =? 0)%Z
  | S754_finite _ m' _ => (Zpos m' <? 2 ^ 52)%Z && negb (exact m b e d)
  end.

Definition in_range (m b e : Z) (d : double) : option double :=
  if range_error m b e d then None else Some d.

(** [std::stod(s)]: [None] when it throws. *)
Definition stod (s : chars) : option double :=
  let '(neg, s1) := sign (skip_space s) in
  if starts_with (chars_of "inf") s1 then Some (S754_infinity neg)
  else if starts_with (chars_of "nan") s1 then Some S754_nan
  else
    let '(hv, hn, hf, hr) := mantissa hex_digit 16 (drop 2 s1) in
    if starts_with (chars_of "0x") s1 && negb (hn =? 0)%nat
    then
      let e := (exponent "p" hr - 4 * Z.of_nat hf)%Z in
      in_range hv 2 e (binary_normalize prec emax (apply_sign neg hv) e neg)
    else
      let '(v, n, f, r) := mantissa digit 10 s1 in
      if (n =? 0)%nat then None
      else
        let e := (exponent "e" r - Z.of_nat f)%Z in
        in_range v 10 e (double_of_decimal neg v e).

(** ** config.h *)

Abbreviation environment := (gmap string string).

(** [setenv(key, val, 0)]: does nothing when the variable exists, fails on an
    empty name and on one that contains ['=']. *)
Definition setenv (key val : chars) (env : environment) : environment :=
  let k := c_str key in
  if bool_decide (k = []) || char_in "=" k then env
  else match env !! string_of k with
       | Some _ => env
       | None => <[string_of k := string_of (c_str val)]> env
       end.

Definition blanks : chars := [" "%char; tab].
Definition line_ends : chars := [carriage_return; newline; " "%char; tab].

(** [val.size() >= 2 && (front and back are the same quote)]. *)
Definition quoted (val : chars) : bool :=
  (2 <=? length val)%nat &&
  ((bool_decide (head val = Some double_quote) && bool_decide (last val = Some double_quote)) ||
   (bool_decide (head val = Some single_quote) && bool_decide (last val = Some single_quote))).

(** The body of the loop of [load_dotenv] up to [setenv]; [None] is [continue]. *)
Definition dotenv_entry (line : chars) : option (chars * chars) :=
  begin ← find_first_not_of blanks line;
  if bool_decide (line !! begin = Some "#"%char) then None
  else
    eq ← find line "=" begin;
    let key := pop_back_while blanks (substr line begin (eq - begin)) in
    let val := pop_back_while line_ends (drop (eq + 1) line) in
    let val := if quoted val then substr val 1 (length val - 2) else val in
    Some (key, val).

Definition load_line (env : environment) (line : chars) : environment :=
  match dotenv_entry line with
  | Some (key, val) => if bool_decide (key = []) then env else setenv key val env
  | None => env
  end.

(** [files path] is the text of the file, [None] when it cannot be opened. *)
Definition load_dotenv (files : string → option chars) (path : string) (env : environment)
    : environment :=
  match files path with
  | None => env
  | Some text => fold_left load_line (getlines text) env
  end.

Definition env_or (env : environment) (key def : string) : string :=
  match env !! key with
  | Some v => if String.eqb v "" then def else v
  | None => def
  end.

Definition env_int (env : environment) (key : string) (def : Z) : Z :=
  match env !! key with
  | Some v => if String.eqb v "" then def else default def (stoi (chars_of v))
  | None => def
  end.

Definition env_double (env : environment) (key : string) (def : double) : double :=
  match env !! key with
  | Some v => if String.eqb v "" then def else default def (stod (chars_of v))
  | None => def
  end.

Record Config : Type := {
  vin_number : string;
  mqtt_broker : string;
  mqtt_port : Z;
  mqtt_client_id : string;
  autoware_grpc_addr : string;
  grpc_listen : string;
  zenoh_connect : string;
  base_url : string;
  admin_email : string;
  admin_password : string;
  admin_first_name : string;
  admin_last_name : string;
  admin_phone : string;
  verify_code : string;
  plate_no : string;
  color : string;
  car_company : string;
  model : string;
  seat_no : Z;
  start_lat : double;
  start_lon : double
}.

Definition default_config : Config := {|
  vin_number := "ORIN_NANO_001";
  mqtt_broker := "localhost";
  mqtt_port := 1883;
  mqtt_client_id := "vehicle_gateway";
  autoware_grpc_addr := "127.0.0.1:50051";
  grpc_listen := "0.0.0.0:50051";
  zenoh_connect := "udp/127.0.0.1:7447";
  base_url := "https://yaquod.duckdns.org";
  admin_email := ""; admin_password := ""; admin_first_name := "";
  admin_last_name := ""; admin_phone := ""; verify_code := "";
  plate_no := ""; color := ""; car_company := ""; model := "";
  seat_no := 4;
  start_lat := double_of_decimal false 3568677918 (-8);
  start_lon := double_of_decimal false 13969154336 (-8)
|}.

(** The environment [from_env] reads the values from. *)
Definition loaded_env (files : string → option chars) (env : environment) : environment :=
  load_dotenv files (env_or env "GATEWAY_ENV_FILE" ".env") env.

Definition from_env (files : string → option chars) (env : environment) : Config :=
  let env := loaded_env files env in
  let c := default_config in {|
  vin_number := env_or env "VIN_NUMBER" (vin_number c);
  mqtt_broker := env_or env "MQTT_BROKER" (mqtt_broker c);
  mqtt_port := to_uint16 (env_int env "MQTT_PORT" (mqtt_port c));
  mqtt_client_id := env_or env "MQTT_CLIENT_ID" (mqtt_client_id c);
  autoware_grpc_addr := env_or env "AUTOWARE_GRPC_ADDR" (autoware_grpc_addr c);
  grpc_listen := env_or env "GRPC_LISTEN" (grpc_listen c);
  zenoh_connect := env_or env "ZENOH_CONNECT" (zenoh_connect c);
  base_url := env_or env "BASE_URL" (base_url c);
  admin_email := env_or env "ADMIN_EMAIL" (admin_email c);
  admin_password := env_or env "ADMIN_PASSWORD" (admin_password c);
  admin_first_name := env_or env "ADMIN_FIRST_NAME" (admin_first_name c);
  admin_last_name := env_or env "ADMIN_LAST_NAME" (admin_last_name c);
  admin_phone := env_or env "ADMIN_PHONE" (admin_phone c);
  verify_code := env_or env "VERIFY_CODE" (verify_code c);
  plate_no := env_or env "PLATE_NO" (plate_no c);
  color := env_or env "COLOR" (color c);
  car_company := env_or env "CAR_COMPANY" (car_company c);
  model := env_or env "MODEL" (model c);
  seat_no := env_int env "SEAT_NO" (seat_no c);
  start_lat := env_double env "START_LAT" (start_lat c);
  start_lon := env_double env "START_LON" (start_lon c)
|}.

(** ** What a file assigns *)

(** The variables the lines of a text assign, in order. *)
Definition assignment (line : chars) : option (string * string) :=
  '(key, val) ← dotenv_entry line;
  let k := c_str key in
  if bool_decide (k = []) || char_in "=" k then None
  else Some (string_of k, string_of (c_str val)).

Definition assignments (text : chars) : list (string * string) :=
  omap assignment (getlines text).

(** What counts of a variable: the real environment hides the file, and an empty
    text is no text. *)
Definition setting (files : string → option chars) (env : environment) (key : string)
    : option string :=
  v ← match env !! key with
      | Some v => Some v
      | None => text ← files (env_or env "GATEWAY_ENV_FILE" ".env"); assoc key (assignments text)
      end;
  if String.eqb v "" then None else Some v.

(** A line that assigns [val], in double quotes, to [key]. *)
Definition render_line (kv : chars * chars) : chars :=
  kv.1 ++ "="%char :: double_quote :: kv.2 ++ [double_quote].

Definition render_file (kvs : list (chars * chars)) : chars :=
  concat ((λ kv, render_line kv ++ [newline]) <$> kvs).

(** Names and values a line can carry. *)
Definition reserved : chars := ["="%char; "#"%char; " "%char; tab; newline; nul].
Definition key_char (c : ascii) : bool := negb (char_in c reserved).
Definition key_ok (k : chars) : bool := bool_decide (k ≠ []) && forallb key_char k.
Definition val_ok (v : chars) : bool := forallb (λ c, negb (char_in c [newline; nul])) v.

(** ** Lemmas on the text functions *)

Lemma load_line_lookup env line k :
  load_line env line !! k =
  match env !! k with
  | Some v => Some v
  | None => match assignment line with
            | Some (k', v) => if decide (k = k') then Some v else None
            | None => None
            end
  end.
Proof.
  unfold load_line, assignment. destruct (dotenv_entry line) as [[key val]|];
    cbn [mbind option_bind]; [|by destruct (env !! k)].
  case_bool_decide as Hkey.
  { subst key. simpl. by destruct (env !! k). }
  unfold setenv. destruct (bool_decide (c_str key = []) || char_in "=" (c_str key));
    [by destruct (env !! k)|].
  destruct (env !! string_of (c_str key)) as [v|] eqn:Hv.
  - destruct (env !! k) eqn:Hk; [done|]. rewrite decide_False by congruence. done.
  - destruct (decide (k = string_of (c_str key))) as [->|Hne].
    + by rewrite lookup_insert_eq, Hv.
    + rewrite lookup_insert_ne by done. by destruct (env !! k).
Qed.

Lemma load_lines_lookup lines env k :
  fold_left load_line lines env !! k =
  match env !! k with
  | Some v => Some v
  | None => assoc k (omap assignment lines)
  end.
Proof.
  revert env. induction lines as [|l ls IH]; intros env; cbn [fold_left].
  - by destruct (env !! k).
  - rewrite IH, load_line_lookup. destruct (env !! k) as [v|]; [done|].
    destruct (assignment l) as [[k' v']|] eqn:Ha; cbn [omap list_omap]; rewrite Ha; [|done].
    cbn [assoc]. destruct (String.eqb_spec k k'), (decide (k = k')); congruence.
Qed.

Lemma find_char_app c s s' :
  forallb (λ c', negb (Ascii.eqb c c')) s → find_char c (s ++ c :: s') = Some (length s).
Proof.
  induction s as [|c' s IH]; cbn [app find_char forallb].
  - by rewrite decide_True.
  - intros [Hc Hs]%andb_True. destruct (Ascii.eqb_spec c c'); [done|].
    rewrite decide_False by done. by rewrite IH.
Qed.

Lemma pop_back_while_keep set s c :
  c ∉ set → pop_back_while set (s ++ [c]) = s ++ [c].
Proof.
  intros Hc. unfold pop_back_while. rewrite reverse_snoc. cbn [find_first_not_of].
  destruct (char_in c set) eqn:Hin; [by apply bool_decide_eq_true in Hin|].
  simpl. by rewrite reverse_cons, reverse_involutive.
Qed.

Lemma c_str_id s : forallb (λ c, negb (char_in c [nul])) s → c_str s = s.
Proof.
  induction s as [|c s IH]; [done|]. cbn [c_str forallb].
  intros [Hc Hs]%andb_True. apply negb_True in Hc.
  rewrite decide_False, IH by (done || intros ->; done). done.
Qed.

Lemma getlines_cons l s :
  forallb (λ c, negb (char_in c [newline])) l →
  getlines (l ++ newline :: s) = l :: getlines s.
Proof.
  induction l as [|c l IH]; cbn [app getlines forallb].
  - intros _. by rewrite decide_True.
  - intros [Hc Hl]%andb_True. rewrite decide_False by (by intros ->).
    by rewrite IH.
Qed.

Lemma char_in_weaken c l l' :
  (∀ x, x ∈ l' → x ∈ l) → negb (char_in c l) → negb (char_in c l').
Proof.
  intros Hl Hc%negb_True. apply negb_True. unfold char_in in *.
  intros Hin%bool_decide_unpack. apply Hc. apply bool_decide_pack. auto.
Qed.

Lemma key_char_not c k (l : chars) :
  forallb key_char k → c ∈ k → (∀ x, x ∈ l → x ∈ reserved) →
  c ∉ l.
Proof.
  intros Hk Hc Hl Hin. apply Is_true_true, forallb_forall with (x:=c) in Hk;
    [|by apply list_elem_of_In].
  unfold key_char in Hk. apply Is_true_true, negb_True in Hk. apply Hk.
  apply bool_decide_pack. auto.
Qed.

Lemma key_chars_not k (l : chars) :
  forallb key_char k → (∀ x, x ∈ l → x ∈ reserved) →
  forallb (λ c, negb (char_in c l)) k.
Proof. intros Hk Hl. eapply forallb_weaken; [|exact Hk]. intros c. by apply char_in_weaken. Qed.

Lemma dotenv_entry_render k v :
  key_ok k → dotenv_entry (render_line (k, v)) = Some (k, v).
Proof.
  intros [Hne Hk]%andb_True. apply bool_decide_unpack in Hne.
  destruct k as [|c k']; [done|]. set (k := c :: k') in *.
  assert (Hin : ∀ x (l : chars), x ∈ k → (∀ y, y ∈ l → y ∈ reserved) →
            x ∉ l) by (intros x l Hx; by apply key_char_not with (k:=k)).
  assert (Hc : c ∈ k) by by left.
  unfold dotenv_entry.
  assert (Hb : find_first_not_of blanks (render_line (k, v)) = Some 0).
  { cbn. destruct (char_in c blanks) eqn:Hc'; [|done].
    apply bool_decide_eq_true in Hc'. exfalso. revert Hc'. apply Hin; [done|set_solver]. }
  rewrite Hb. cbn [mbind option_bind].
  rewrite bool_decide_false.
  2: { intros [= ->]. apply (Hin "#"%char ["#"%char] Hc); set_solver. }
  assert (Hf : find (render_line (k, v)) "=" 0 = Some (length k)).
  { unfold find. rewrite drop_0. unfold render_line. cbn [fst snd].
    rewrite find_char_app; [done|]. eapply forallb_weaken; [|exact Hk].
    intros x Hx. destruct (Ascii.eqb_spec "=" x) as [<-|]; [|done]. by vm_compute in Hx. }
  rewrite Hf. cbn [mbind option_bind].
  assert (Hkey : pop_back_while blanks (substr (render_line (k, v)) 0 (length k - 0)) = k).
  { unfold substr, render_line. rewrite drop_0, Nat.sub_0_r, take_app_length. cbn [fst].
    destruct (exists_last (l:=k)) as (k0 & c0 & Hk0); [done|]. rewrite Hk0.
    apply pop_back_while_keep. apply Hin; [rewrite Hk0; set_solver|set_solver]. }
  rewrite Hkey.
  assert (Hval : pop_back_while line_ends (drop (length k + 1) (render_line (k, v))) =
                 double_quote :: v ++ [double_quote]).
  { unfold render_line. rewrite <- drop_drop, drop_app_length. cbn [drop fst snd].
    apply (pop_back_while_keep line_ends (double_quote :: v)). by apply (bool_decide_unpack _);
      vm_compute. }
  rewrite Hval. unfold quoted.
  assert (Hlast : last (double_quote :: v ++ [double_quote]) = Some double_quote)
    by (rewrite app_comm_cons; apply last_snoc).
  rewrite Hlast. cbn [head length]. rewrite length_app. cbn [length].
  rewrite !bool_decide_true by done. rewrite (proj2 (Nat.leb_le 2 _)) by lia. cbn [andb orb].
  unfold substr. cbn [drop]. do 2 f_equal.
  replace (S (length v + 1) - 2) with (length v) by lia. apply take_app_length.
Qed.

Lemma assignment_render k v :
  key_ok k → val_ok v → assignment (render_line (k, v)) = Some (string_of k, string_of v).
Proof.
  intros Hk Hv. unfold assignment. rewrite dotenv_entry_render by done. cbn [mbind option_bind].
  apply andb_True in Hk as [Hne Hk]. apply bool_decide_unpack in Hne.
  rewrite !c_str_id.
  - rewrite bool_decide_false by done. destruct (char_in "=" k) eqn:Heq; [|done].
    apply bool_decide_eq_true in Heq. exfalso.
    by apply (key_char_not "=" k ["="%char] Hk Heq); set_solver.
  - eapply forallb_weaken; [|exact Hv]. intros c. apply char_in_weaken. set_solver.
  - apply key_chars_not; [done|set_solver].
Qed.

Lemma getlines_render kvs :
  Forall (λ kv, key_ok kv.1 ∧ val_ok kv.2) kvs →
  getlines (render_file kvs) = render_line <$> kvs.
Proof.
  induction 1 as [|[k v] kvs [Hk Hv] _ IH]; [done|]. unfold render_file in *.
  cbn [fmap list_fmap concat]. rewrite <- (assoc_L (++)). cbn [app].
  rewrite getlines_cons; [by rewrite IH|]. simpl in Hk, Hv.
  apply andb_True in Hk as [_ Hk]. unfold render_line. cbn [fst snd].
  rewrite forallb_app. apply andb_True. split; [apply key_chars_not; [done|set_solver]|].
  cbn [forallb]. apply andb_True. split; [done|]. apply andb_True. split; [done|].
  rewrite forallb_app. apply andb_True. split; [|done].
  eapply forallb_weaken; [|exact Hv]. intros c. apply char_in_weaken. set_solver.
Qed.

Lemma assignments_render kvs :
  Forall (λ kv, key_ok kv.1 ∧ val_ok kv.2) kvs →
  assignments (render_file kvs) = prod_map string_of string_of <$> kvs.
Proof.
  intros Hall. unfold assignments. rewrite getlines_render by done.
  induction Hall as [|[k v] kvs [Hk Hv] _ IH]; [done|].
  cbn [fmap list_fmap omap list_omap]. rewrite assignment_render by done.
  cbn [omap list_omap fmap list_fmap] in IH. by rewrite IH.
Qed.

Lemma stoi_range s z : stoi s = Some z → int_ok z.
Proof.
  unfold stoi. destruct (sign (skip_space s)) as [neg s1].
  destruct (digits digit 10 0 s1) as [[v n] r]. destruct (n =? 0); [done|].
  destruct (int_ok (apply_sign neg v)) eqn:Hok; [|done]. intros [= <-]. by rewrite Hok.
Qed.

(** ** The theorems *)

(** C32. Loading a file adds exactly the variables its lines assign and
    the environment did not have, the first assignment of a name winning: existing
    variables are never changed, whatever the file says, and a missing file changes
    nothing. *)
Theorem load_dotenv_lookup files path env k :
  load_dotenv files path env !! k =
  match env !! k with
  | Some v => Some v
  | None => text ← files path; assoc k (assignments text)
  end.
Proof.
  unfold load_dotenv. destruct (files path) as [text|].
  - by rewrite load_lines_lookup.
  - cbn [mbind option_bind]. by destruct (env !! k).
Qed.

(** C37. Quoted values survive: a file that writes each value in double quotes,
    with spaces, quotes, ['='] or ['#'] in them, assigns exactly those values. *)
Theorem dotenv_roundtrip files path env kvs k
  (Hfile : files path = Some (render_file kvs))
  (Hok : Forall (λ kv, key_ok kv.1 ∧ val_ok kv.2) kvs) :
  load_dotenv files path env !! k =
  match env !! k with
  | Some v => Some v
  | None => assoc k (prod_map string_of string_of <$> kvs)
  end.
Proof.
  unfold load_dotenv. rewrite Hfile, load_lines_lookup.
  fold (assignments (render_file kvs)). by rewrite assignments_render.
Qed.

Lemma loaded_lookup files env key :
  loaded_env files env !! key =
  match env !! key with
  | Some v => Some v
  | None => text ← files (env_or env "GATEWAY_ENV_FILE" ".env"); assoc key (assignments text)
  end.
Proof.
  unfold loaded_env, load_dotenv.
  destruct (files _) as [text|]; [by rewrite load_lines_lookup|by destruct (env !! key)].
Qed.

(** The three readers see only the setting of their variable. *)
Lemma env_or_setting files env key def :
  env_or (loaded_env files env) key def = default def (setting files env key).
Proof.
  unfold env_or, setting. rewrite loaded_lookup.
    set (o := match env !! key with Some _ => _ | None => _ end).
  destruct o as [v|]; [|done]. cbn [mbind option_bind]. by destruct (String.eqb v "").
Qed.
Lemma env_int_setting files env key def :
  env_int (loaded_env files env) key def = default def (v ← setting files env key; stoi (chars_of v)).
Proof.
  unfold env_int, setting. rewrite loaded_lookup.
    set (o := match env !! key with Some _ => _ | None => _ end).
  destruct o as [v|]; [|done]. cbn [mbind option_bind]. by destruct (String.eqb v "").
Qed.

(** The variable and the default of each textual field. *)
Definition string_fields : list ((Config → string) * string) :=
  [(vin_number, "VIN_NUMBER"); (mqtt_broker, "MQTT_BROKER");
   (mqtt_client_id, "MQTT_CLIENT_ID"); (autoware_grpc_addr, "AUTOWARE_GRPC_ADDR");
   (grpc_listen, "GRPC_LISTEN"); (zenoh_connect, "ZENOH_CONNECT"); (base_url, "BASE_URL");
   (admin_email, "ADMIN_EMAIL"); (admin_password, "ADMIN_PASSWORD");
   (admin_first_name, "ADMIN_FIRST_NAME"); (admin_last_name, "ADMIN_LAST_NAME");
   (admin_phone, "ADMIN_PHONE"); (verify_code, "VERIFY_CODE"); (plate_no, "PLATE_NO");
   (color, "COLOR"); (car_company, "CAR_COMPANY"); (model, "MODEL")].

(** Every textual field of the configuration is the variable of the real
    environment when it is set, else the file's, and the default when the one that
    counts is missing or empty; a variable set to the empty string hides the
    file's. *)
Theorem from_env_strings files env f key
  (Hf : (f, key) ∈ string_fields) :
  let path := env_or env "GATEWAY_ENV_FILE" ".env" in
  f (from_env files env) =
  match env !! key with
  | Some v => if String.eqb v "" then f default_config else v
  | None => match text ← files path; assoc key (assignments text) with
            | Some v => if String.eqb v "" then f default_config else v
            | None => f default_config
            end
  end.
Proof.
  assert (Henv : ∀ key def, env_or (loaded_env files env) key def =
    match env !! key with
    | Some v => if String.eqb v "" then def else v
    | None => match text ← files (env_or env "GATEWAY_ENV_FILE" ".env");
                    assoc key (assignments text) with
              | Some v => if String.eqb v "" then def else v
              | None => def
              end
    end).
  { intros key' def. unfold env_or at 1. rewrite loaded_lookup. by destruct (env !! key'). }
  unfold string_fields in Hf.
  repeat (apply elem_of_cons in Hf as [[= -> ->]|Hf]; [apply Henv|]).
  by apply elem_of_nil in Hf.
Qed.

(** The numbers of the configuration stay in range whatever the variables
    hold, since text that is not an [int] falls back to the default: the seat count
    is an [int], and the port is [MQTT_PORT] modulo 2^16, so the port a user wrote
    as long as it is one. *)
Theorem from_env_numbers files env :
  let n := env_int (loaded_env files env) "MQTT_PORT" 1883 in
  int_ok (seat_no (from_env files env)) ∧ int_ok n ∧
  (0 <= mqtt_port (from_env files env) < 2 ^ 16)%Z ∧
  mqtt_port (from_env files env) = (n mod 2 ^ 16)%Z ∧
  ((0 <= n < 2 ^ 16)%Z → mqtt_port (from_env files env) = n).
Proof.
  assert (Hint : ∀ env key def, int_ok def → int_ok (env_int env key def)).
  { intros e key def Hdef. unfold env_int. destruct (e !! key) as [v|]; [|done].
    destruct (String.eqb v ""); [done|]. destruct (stoi (chars_of v)) as [z|] eqn:Hz; [|done].
    by eapply stoi_range. }
  cbv zeta. split_and!.
  - by apply Hint.
  - by apply Hint.
  - apply to_uint16_range.
  - apply to_uint16_range.
  - done.
  - intros Hn. by apply to_uint16_id.
Qed.

(** A port above 65535 is not rejected: with [MQTT_PORT=70000] the gateway
    connects to port 4464. *)
Theorem port_wraps files env
  (Hport : env !! "MQTT_PORT" = Some "70000") :
  mqtt_port (from_env files env) = 4464%Z.
Proof.
  assert (Hl : loaded_env files env !! "MQTT_PORT" = Some "70000").
  { unfold loaded_env, load_dotenv. destruct (files _); [rewrite load_lines_lookup|];
      by rewrite Hport. }
  cbn [from_env mqtt_port]. unfold env_int. by rewrite Hl.
Qed.

(** ** Numbers in decimal notation *)

Lemma digit_char x : (x < 10)%N → digit (pretty_N_char x) = Some (Z.of_N x).
Proof.
  intros Hx. assert (Hc : x = 0%N ∨ x = 1%N ∨ x = 2%N ∨ x = 3%N ∨ x = 4%N ∨ x = 5%N ∨ x = 6%N ∨
    x = 7%N ∨ x = 8%N ∨ x = 9%N) by lia.
  by repeat destruct Hc as [->|Hc]; subst.
Qed.

(** Reading the digits of [x] puts them behind those read before. *)
Lemma digits_notation x s acc :
  ∃ k, ((0 < x)%N → 0 < k) ∧
    digits digit 10 acc (chars_of (pretty_N_go x s)) =
    let '(v, m, r) := digits digit 10 (10 ^ Z.of_nat k * acc + Z.of_N x)%Z (chars_of s) in
    (v, k + m, r).
Proof.
  revert s acc. induction (N.lt_wf_0 x) as [x _ IH]; intros s acc.
  destruct (decide (x = 0)%N) as [->|Hx].
  { exists 0. split; [lia|]. rewrite pretty_N_go_0.
    replace (10 ^ Z.of_nat 0 * acc + Z.of_N 0)%Z with acc by lia. by destruct (digits _ _ _ _) as [[??]?]. }
  rewrite pretty_N_go_step by lia.
  destruct (IH (x `div` 10)%N ltac:(by apply N.div_lt; lia)
    (String (pretty_N_char (x `mod` 10)) s) acc) as (k & _ & ->).
  exists (S k). split; [lia|]. cbn [String.list_ascii_of_string digits].
  rewrite digit_char by by apply N.mod_lt.
  replace (10 * (10 ^ Z.of_nat k * acc + Z.of_N (x `div` 10)) + Z.of_N (x `mod` 10))%Z
    with (10 ^ Z.of_nat (S k) * acc + Z.of_N x)%Z.
  { destruct (digits _ _ _ _) as [[v m] r]. f_equal. f_equal. lia. }
  rewrite Nat2Z.inj_succ, Z.pow_succ_r, N2Z.inj_div, N2Z.inj_mod by lia.
  pose proof (Z.div_mod (Z.of_N x) 10 ltac:(lia)). lia.
Qed.

(** The text goes on with something that is no digit. *)
Definition no_digit (rest : string) : Prop :=
  match chars_of rest with c :: _ => digit c = None | [] => True end.

Lemma digits_stop acc rest : no_digit rest → digits digit 10 acc (chars_of rest) = (acc, 0, chars_of rest).
Proof. unfold no_digit. destruct (chars_of rest) as [|c l]; [done|]. simpl. by intros ->. Qed.

Lemma go_app x s t : pretty_N_go x s +:+ t = pretty_N_go x (s +:+ t).
Proof.
  revert s. induction (N.lt_wf_0 x) as [x _ IH]; intros s.
  destruct (decide (x = 0)%N) as [->|Hx]; [by rewrite !pretty_N_go_0|].
  rewrite !(pretty_N_go_step x) by lia. by rewrite IH by (apply N.div_lt; lia).
Qed.

Lemma digits_pretty (p : positive) rest :
  no_digit rest →
  ∃ k, digits digit 10 0 (chars_of (pretty (N.pos p) +:+ rest)) = (Z.pos p, S k, chars_of rest).
Proof.
  intros Hr. unfold pretty, pretty_N. rewrite decide_False, go_app by done.
  destruct (digits_notation (N.pos p) ("" +:+ rest) 0) as (k & Hk & ->).
  change ("" +:+ rest) with rest. rewrite digits_stop by done. destruct k as [|k]; [lia|].
  exists k. rewrite Nat.add_0_r, Z.mul_0_r. done.
Qed.

(** A notation begins with a digit, neither a blank nor a sign. *)
Lemma digit_first c s v n r :
  digits digit 10 0 (c :: s) = (v, S n, r) → is_space c = false ∧ sign (c :: s) = (false, c :: s).
Proof.
  simpl. unfold digit. destruct (_ && _) eqn:Hd; [|done]. intros _.
  apply andb_true_iff in Hd as [H1%Nat.leb_le H2%Nat.leb_le]. split.
  - unfold is_space. apply orb_false_iff. split; [apply Nat.eqb_neq; lia|].
    apply andb_false_iff. right. apply Nat.leb_gt. lia.
  - destruct (Ascii.eqb_spec c "-"); [subst; by vm_compute in H1; lia|].
    destruct (Ascii.eqb_spec c "+"); [subst; by vm_compute in H1; lia|]. done.
Qed.

Lemma stoi_pretty z rest :
  no_digit rest → stoi (chars_of (pretty z +:+ rest)) = if int_ok z then Some z else None.
Proof.
  intros Hr. destruct z as [|p|p].
  - change (chars_of (pretty 0%Z +:+ rest)) with ("0"%char :: chars_of rest).
    unfold stoi. cbn [skip_space]. change (is_space "0") with false. cbv iota.
    change (sign ("0"%char :: chars_of rest)) with (false, "0"%char :: chars_of rest). cbv beta iota.
    cbn [digits]. change (digit "0") with (Some 0%Z). cbv iota.
    by rewrite (digits_stop (10 * 0 + 0) rest Hr).
  - change (pretty (Z.pos p)) with (pretty (N.pos p)).
    destruct (digits_pretty p rest Hr) as (k & Hd).
    destruct (chars_of (pretty (N.pos p) +:+ rest)) as [|c s] eqn:Hc; [done|].
    destruct (digit_first c s _ _ _ Hd) as [Hsp Hsg].
    unfold stoi. cbn [skip_space]. rewrite Hsp, Hsg, Hd. done.
  - change (pretty (Z.neg p)) with ("-" +:+ pretty (N.pos p)).
    destruct (digits_pretty p rest Hr) as (k & Hd).
    change (chars_of (("-" +:+ pretty (N.pos p)) +:+ rest))
      with ("-"%char :: chars_of (pretty (N.pos p) +:+ rest)).
    unfold stoi. cbn [skip_space]. change (is_space "-") with false. cbv iota.
    change (sign ("-"%char :: chars_of (pretty (N.pos p) +:+ rest)))
      with (true, chars_of (pretty (N.pos p) +:+ rest)). cbv beta iota. by rewrite Hd.
Qed.

(** Digits are all that was read. *)
Lemma digits_all s acc v n :
  digits digit 10 acc s = (v, n, []) → Forall (λ c, is_Some (digit c)) s.
Proof.
  revert acc v n. induction s as [|c s IH]; intros acc v n; [by constructor|]. cbn [digits].
  destruct (digit c) as [d|] eqn:Hd; [|done].
  destruct (digits digit 10 (10 * acc + d) s) as [[v' n'] r] eqn:Hs. intros [= -> _ ->].
  constructor; [by rewrite Hd|by eapply IH].
Qed.

(** No word [strtod] knows is made of digits. *)
Lemma digit_lower c : is_Some (digit c) → lower c = c.
Proof.
  intros [d Hd]. unfold digit, lower in *. destruct (_ && _) eqn:H1 in Hd; [|done].
  apply andb_true_iff in H1 as [_ H2%Nat.leb_le].
  assert (H3 : ((65 <=? nat_of_ascii c) = false)%nat) by (apply Nat.leb_gt; lia). by rewrite H3.
Qed.

Lemma digits_no_word w c s :
  Forall (λ c, is_Some (digit c)) s → c ∈ w → digit c = None → starts_with w s = false.
Proof.
  intros Hs Hc Hn. unfold starts_with. apply bool_decide_eq_false. intros Hw. rewrite Hw in Hc.
  apply list_elem_of_fmap in Hc as (a & -> & Ha). rewrite Forall_forall in Hs.
  assert (Hin : a ∈ s).
  { apply elem_of_take in Ha as (i & Hi & _). by eapply list_elem_of_lookup_2. }
  pose proof (Hs a Hin) as Hd. rewrite (digit_lower a Hd), Hn in *. by destruct Hd.
Qed.

(** The double is the integer when its magnitude is at most 2^53; it is no range error. *)
Lemma integer_in_range (neg : bool) p :
  (Z.pos p <= 2 ^ 53)%Z →
  in_range (Z.pos p) 10 0 (double_of_decimal neg (Z.pos p) 0) =
    Some (double_of_int (apply_sign neg (Z.pos p))).
Proof.
  intros Hp.
  assert (Hd : double_of_decimal neg (Z.pos p) 0 = double_of_int (apply_sign neg (Z.pos p))).
  { unfold double_of_decimal, double_of_int. change (0 <=? 0)%Z with true. cbv iota.
    rewrite Z.pow_0_r, Z.mul_1_r. by destruct neg. }
  rewrite Hd. unfold in_range.
  enough (Hr : range_error (Z.pos p) 10 0 (double_of_int (apply_sign neg (Z.pos p))) = false) by by rewrite Hr.
  destruct (decide (Z.pos p = 2 ^ 53)%Z) as [Hmax|Hne]; [injection Hmax as ->; by destruct neg|].
  assert (Hdig : (Z.pos (digits2_pos p) <= prec)%Z).
  { pose proof (digits2_pos_lower p) as Hl. destruct (Z.le_gt_cases (Z.pos (digits2_pos p)) prec) as [?|Hgt]; [done|].
    pose proof (Z.pow_le_mono_r 2 53 (Z.pos (digits2_pos p) - 1) ltac:(lia) ltac:(unfold prec in *; lia)). lia. }
  destruct (binary_round_small neg p Hdig) as (m & Hround & Hm).
  assert (Hv : double_of_int (apply_sign neg (Z.pos p)) =
    S754_finite neg m (Z.pos (digits2_pos p) - prec)) by by destruct neg.
  rewrite Hv. cbn [range_error]. apply andb_false_iff. left. apply Z.ltb_ge. rewrite Hm.
  pose proof (digits2_pos_lower p) as Hl.
  replace (2 ^ 52)%Z with (2 ^ (Z.pos (digits2_pos p) - 1) * 2 ^ (prec - Z.pos (digits2_pos p)))%Z.
  - apply Z.mul_le_mono_nonneg_r; [apply Z.pow_nonneg; lia|done].
  - rewrite <- Z.pow_add_r by (unfold prec in *; lia). f_equal. unfold prec. lia.
Qed.

Lemma stod_digits (neg : bool) s p n :
  digits digit 10 0 s = (Z.pos p, S n, []) → (Z.pos p <= 2 ^ 53)%Z →
  stod (if neg then "-"%char :: s else s) = Some (double_of_int (apply_sign neg (Z.pos p))).
Proof.
  intros Hd Hp. pose proof (digits_all _ _ _ _ Hd) as Hall.
  assert (Hsign : sign (skip_space (if neg then "-"%char :: s else s)) = (neg, s)).
  { destruct s as [|c s]; [done|]. destruct (digit_first c s _ _ _ Hd) as [Hsp Hsg].
    destruct neg; [done|]. cbn [skip_space]. by rewrite Hsp, Hsg. }
  unfold stod. rewrite Hsign.
  rewrite (digits_no_word (chars_of "inf") "i" s Hall), (digits_no_word (chars_of "nan") "n" s Hall),
    (digits_no_word (chars_of "0x") "x" s Hall) by first [done|set_solver].
  cbn [andb]. unfold mantissa at 2. rewrite Hd. cbn [Nat.eqb exponent Z.of_nat].
  destruct (mantissa hex_digit 16 (drop 2 s)) as [[[? ?] ?] ?]. by apply integer_in_range.
Qed.

Lemma append_empty (s : string) : s +:+ "" = s.
Proof. induction s as [|c s IH]; [done|]. exact (f_equal (String c) IH). Qed.

Lemma stod_pretty z : (-2 ^ 53 <= z <= 2 ^ 53)%Z → stod (chars_of (pretty z)) = Some (double_of_int z).
Proof.
  intros Hz. destruct z as [|p|p]; [done|..];
    (destruct (digits_pretty p "" Logic.I) as (k & Hd); rewrite append_empty in Hd).
  - by apply (stod_digits false _ p k); [|lia].
  - by apply (stod_digits true _ p k); [|lia].
Qed.

(** C27. Integers are read as they are written: a variable that holds the decimal
    notation of [z], with anything that is no digit after it, sets an integer to [z] when
    [z] is an [int], and to the default when it is not; with nothing after it, it sets a
    [double] to the value that is [z] exactly, up to a magnitude of 2^53. *)
Theorem env_int_decimal env key z rest
  (Hkey : env !! key = Some (pretty z +:+ rest)) (Hrest : no_digit rest) :
  (∀ def, env_int env key def = if int_ok z then z else def) ∧
  (rest = "" → (-2 ^ 53 <= z <= 2 ^ 53)%Z →
   ∀ def, env_double env key def = double_of_int z ∧ double_trunc (double_of_int z) = Some z).
Proof.
  split.
  - intros def. unfold env_int. rewrite Hkey. pose proof (stoi_pretty z rest Hrest) as Hz.
    destruct (String.eqb_spec (pretty z +:+ rest) "") as [He|_].
    + rewrite He in Hz. unfold stoi in Hz. simpl in Hz. by destruct (int_ok z).
    + rewrite Hz. by destruct (int_ok z).
  - intros -> Hz def. split; [|by apply double_of_int_exact]. rewrite append_empty in Hkey.
    pose proof (stod_pretty z Hz) as Hs. unfold env_double. rewrite Hkey.
    destruct (String.eqb_spec (pretty z) "") as [He|_]; [by rewrite He in Hs|by rewrite Hs].
Qed.

(** ** Witnesses *)

Definition sample_numbers : environment := {["SEAT_NO" := "-12 seats"; "START_LAT" := "-12"]}.

Lemma env_int_decimal_witness :
  env_int sample_numbers "SEAT_NO" 4 = (-12)%Z ∧
  env_double sample_numbers "START_LAT" (double_of_int 35) = double_of_int (-12).
Proof.
  split.
  - destruct (env_int_decimal sample_numbers "SEAT_NO" (-12) " seats") as [Hint _];
      [vm_compute; reflexivity|vm_compute; reflexivity|]. rewrite Hint. reflexivity.
  - destruct (env_int_decimal sample_numbers "START_LAT" (-12) "") as [_ Hdouble];
      [vm_compute; reflexivity|exact Logic.I|].
    apply Hdouble; [reflexivity|lia].
Defined.

Definition sample_kvs : list (chars * chars) :=
  [(chars_of "VIN_NUMBER", chars_of "A #1 = 'x' "); (chars_of "VIN_NUMBER", chars_of "B")].

Lemma dotenv_roundtrip_witness :
  load_dotenv (λ _, Some (render_file sample_kvs)) ".env" ∅ !! "VIN_NUMBER" =
  Some "A #1 = 'x' ".
Proof.
  rewrite (dotenv_roundtrip (λ _, Some (render_file sample_kvs)) ".env" ∅ sample_kvs "VIN_NUMBER").
  - reflexivity.
  - reflexivity.
  - repeat constructor.
Defined.

Lemma from_env_strings_witness :
  vin_number (from_env (λ _, None) {[ "VIN_NUMBER" := "V1" ]}) = "V1".
Proof.
  rewrite (from_env_strings (λ _, None) {[ "VIN_NUMBER" := "V1" ]} vin_number "VIN_NUMBER").
  - reflexivity.
  - left.
Defined.

Lemma port_wraps_witness :
  mqtt_port (from_env (λ _, None) {[ "MQTT_PORT" := "70000" ]}) = 4464%Z.
Proof. apply (port_wraps (λ _, None) {[ "MQTT_PORT" := "70000" ]}). reflexivity. Defined.

End Config.
