(* ===== verification/Url.v ===== *)
(** * URLs *)

(** [Url], [parse_url] and [resolve_redirect] of
    [src/transport/http_client/http_client.cpp]. The regular expression is data,
    run by a backtracking matcher with the ECMAScript rules for the constructs it
    uses (greedy repetition of a character class, greedy option, capture); the
    direct parser it is equivalent to is [split_url]. *)

From S2P Require Import Prelude.

Module Url.

(** ** Regular expressions *)

Inductive regex : Type :=
| RChar (p : ascii → bool)
| RSeq (r1 r2 : regex)
| REmpty
| ROpt (r : regex)
| RMany (p : ascii → bool)
| RGroup (n : nat) (r : regex).

(** The text of each capture. *)
Abbreviation captures := (gmap nat chars).

(** Greedy repetition: one more character first, giving it back on failure. *)
Fixpoint match_many (p : ascii → bool) (s : chars) (k : chars → option captures)
    : option captures :=
  match s with
  | c :: s' =>
      if p c
      then match match_many p s' k with
           | Some caps => Some caps
           | None => k s
           end
      else k s
  | [] => k s
  end.

Fixpoint match_regex (r : regex) (s : chars) (caps : captures)
    (k : chars → captures → option captures) : option captures :=
  match r with
  | RChar p =>
      match s with
      | c :: s' => if p c then k s' caps else None
      | [] => None
      end
  | RSeq r1 r2 => match_regex r1 s caps (λ s caps, match_regex r2 s caps k)
  | REmpty => k s caps
  | ROpt r =>
      match match_regex r s caps k with
      | Some caps => Some caps
      | None => k s caps
      end
  | RMany p => match_many p s (λ s, k s caps)
  | RGroup n r =>
      match_regex r s caps
        (λ s' caps, k s' (<[n := take (length s - length s') s]> caps))
  end.

(** [std::regex_match]: the whole text must match. *)
Definition at_end (s : chars) (caps : captures) : option captures :=
  match s with [] => Some caps | _ :: _ => None end.
Definition regex_match (r : regex) (s : chars) : option captures := match_regex r s ∅ at_end.

Definition is_char (c c' : ascii) : bool := Ascii.eqb c c'.
Definition not_in (set : chars) (c : ascii) : bool := negb (char_in c set).
Definition is_digit (c : ascii) : bool :=
  let n := nat_of_ascii c in (48 <=? n)%nat && (n <=? 57)%nat.

(** [.]: any character but a line terminator. *)
Definition dot : ascii → bool := not_in [Ascii.ascii_of_nat 10; Ascii.ascii_of_nat 13].

Fixpoint literal (w : chars) : regex :=
  match w with
  | [] => REmpty
  | c :: w' => RSeq (RChar (is_char c)) (literal w')
  end.

Definition r_plus (p : ascii → bool) : regex := RSeq (RChar p) (RMany p).

Definition host_char : ascii → bool := not_in (chars_of ":/?#").
Definition path_char : ascii → bool := not_in (chars_of "?#").
Definition query_char : ascii → bool := not_in (chars_of "#").

(** The regular expression of [parse_url], group by group: protocol, host, port
    in a group that may be absent, path, query and fragment. *)
Definition r_fragment : regex := ROpt (RSeq (RChar (is_char "#")) (RGroup 6 (RMany dot))).
Definition r_query : regex := ROpt (RSeq (RChar (is_char "?")) (RGroup 5 (RMany query_char))).
Definition r_path : regex := ROpt (RGroup 4 (RMany path_char)).
Definition r_port : regex := ROpt (RSeq (RChar (is_char ":")) (RGroup 3 (r_plus is_digit))).
Definition r_host : regex := RGroup 2 (r_plus host_char).
Definition r_protocol : regex :=
  RGroup 1 (RSeq (literal (chars_of "http")) (ROpt (RChar (is_char "s")))).
Definition re : regex :=
  RSeq r_protocol (RSeq (literal (chars_of "://")) (RSeq r_host (RSeq r_port
    (RSeq r_path (RSeq r_query r_fragment))))).

(** ** The functions *)

Record Url : Type := {
  protocol : chars;
  host : chars;
  port : chars;
  path : chars
}.

#[export] Instance url_eq_dec : EqDecision Url.
Proof. solve_decision. Defined.

(** [m[n].str()]: empty when the group took no part. *)
Definition str (m : captures) (n : nat) : chars := default [] (m !! n).

Definition is_empty (s : chars) : bool := match s with [] => true | _ => false end.

Definition default_port (protocol : chars) : chars :=
  if bool_decide (protocol = chars_of "https") then chars_of "443" else chars_of "80".

Definition parse_url (url : chars) : option Url :=
  m ← regex_match re url;
  let protocol := str m 1 in
  let path := if is_empty (str m 4) then chars_of "/" else str m 4 in
  let query := str m 5 in
  Some {| protocol := protocol;
          host := str m 2;
          port := if is_empty (str m 3) then default_port protocol else str m 3;
          path := if is_empty query then path else path ++ "?"%char :: query |}.

(** [s.rfind(prefix, 0) == 0]. *)
Definition has_prefix (prefix s : chars) : bool := bool_decide (take (length prefix) s = prefix).

(** [path.substr(0, path.find_last_of('/') + 1)]; [None] without a ['/']. *)
Fixpoint up_to_last_slash (s : chars) : option chars :=
  match s with
  | [] => None
  | c :: s' =>
      match up_to_last_slash s' with
      | Some d => Some (c :: d)
      | None => if is_char "/" c then Some [c] else None
      end
  end.

(** [u->protocol + "://" + u->host], with the port when it is not the default. *)
Definition root (u : Url) : chars :=
  protocol u ++ chars_of "://" ++ host u ++
  (if (bool_decide (protocol u = chars_of "http") && bool_decide (port u ≠ chars_of "80")) ||
      (bool_decide (protocol u = chars_of "https") && bool_decide (port u ≠ chars_of "443"))
   then ":"%char :: port u else []).

(** [None]: [*parse_url(base)] of a base that is not a URL, which is undefined. *)
Definition resolve_redirect (base location : chars) : option chars :=
  if has_prefix (chars_of "http://") location || has_prefix (chars_of "https://") location
  then Some location
  else
    u ← parse_url base;
    match location with
    | c :: _ =>
        if is_char "/" c then Some (root u ++ location)
        else Some (root u ++ default (chars_of "/") (up_to_last_slash (path u)) ++ location)
    | [] => Some (root u ++ default (chars_of "/") (up_to_last_slash (path u)) ++ location)
    end.

(** ** Specification: a URL split in one pass *)

(** The longest prefix in a class, and the rest. *)
Fixpoint span (p : ascii → bool) (s : chars) : chars * chars :=
  match s with
  | c :: s' => if p c then let '(a, b) := span p s' in (c :: a, b) else ([], s)
  | [] => ([], [])
  end.

Fixpoint strip (w s : chars) : option chars :=
  match w, s with
  | [], _ => Some s
  | c :: w', c' :: s' => if is_char c c' then strip w' s' else None
  | _ :: _, [] => None
  end.

(** The fragment may hold anything but a line terminator. *)
Definition split_fragment (s : chars) : option chars :=
  match s with
  | [] => Some []
  | c :: f => if is_char "#" c && forallb dot f then Some f else None
  end.

Definition split_query (s : chars) : chars * chars :=
  match s with
  | c :: s' => if is_char "?" c then span query_char s' else ([], s)
  | [] => ([], [])
  end.

(** A [:] that no digit follows belongs to the path. *)
Definition split_port (s : chars) : chars * chars :=
  match s with
  | c :: s' =>
      if is_char ":" c
      then let '(p, s'') := span is_digit s' in if is_empty p then ([], s) else (p, s'')
      else ([], s)
  | [] => ([], [])
  end.

Record parts : Type := {
  p_protocol : chars; p_host : chars; p_port : chars; p_path : chars; p_query : chars
}.

Definition split_url (s : chars) : option parts :=
  s ← strip (chars_of "http") s;
  let '(protocol, s) :=
    match s with
    | c :: s' => if is_char "s" c then (chars_of "https", s') else (chars_of "http", s)
    | [] => (chars_of "http", s)
    end in
  s ← strip (chars_of "://") s;
  let '(host, s) := span host_char s in
  if is_empty host then None
  else
    let '(port, s) := split_port s in
    let '(path, s) := span path_char s in
    let '(query, s) := split_query s in
    _ ← split_fragment s;
    Some {| p_protocol := protocol; p_host := host; p_port := port; p_path := path;
            p_query := query |}.

Definition url_of_parts (p : parts) : Url :=
  let path := if is_empty (p_path p) then chars_of "/" else p_path p in
  {| protocol := p_protocol p;
     host := p_host p;
     port := if is_empty (p_port p) then default_port (p_protocol p) else p_port p;
     path := if is_empty (p_query p) then path else path ++ "?"%char :: p_query p |}.

(** ** The matcher is the direct parser *)

Lemma span_app p a b :
  forallb p a → span p (a ++ b) = (a ++ (span p b).1, (span p b).2).
Proof.
  induction a as [|c a IH]; cbn [app forallb span].
  - by destruct (span p b).
  - intros [Hc Ha]%andb_True. apply Is_true_true in Hc. rewrite Hc, IH by done. done.
Qed.

Lemma span_split p s : s = (span p s).1 ++ (span p s).2.
Proof.
  induction s as [|c s IH]; [done|]. cbn [span]. destruct (p c); [|done].
  destruct (span p s) as [a b]. simpl in *. by rewrite IH.
Qed.

Lemma span_all p s : forallb p (span p s).1.
Proof.
  induction s as [|c s IH]; [done|]. cbn [span]. destruct (p c) eqn:Hc; [|done].
  destruct (span p s) as [a b]. simpl in *. rewrite Hc. done.
Qed.

Lemma span_stop p s : match (span p s).2 with c :: _ => p c = false | [] => True end.
Proof.
  induction s as [|c s IH]; [done|]. cbn [span]. destruct (p c) eqn:Hc; [|done].
  by destruct (span p s) as [a b].
Qed.

Lemma match_many_greedy p s k m :
  k (span p s).2 = Some m → match_many p s k = Some m.
Proof.
  induction s as [|c s IH]; [done|]. cbn [span match_many]. destruct (p c); [|done].
  destruct (span p s) as [a b]. simpl. intros Hk. by rewrite IH.
Qed.

Lemma match_many_fail p s k :
  (∀ a b, s = a ++ b → forallb p a → k b = None) → match_many p s k = None.
Proof.
  induction s as [|c s IH]; intros Hk; cbn [match_many]; [by apply (Hk [] [])|].
  destruct (p c) eqn:Hc; [|by apply (Hk [] (c :: s))].
  rewrite IH; [by apply (Hk [] (c :: s))|].
  intros a b -> Ha. apply (Hk (c :: a) b); [done|]. cbn [forallb]. by rewrite Hc.
Qed.

(** The text a group captures. *)
Lemma captured (a b : chars) : take (length (a ++ b) - length b) (a ++ b) = a.
Proof. rewrite length_app, Nat.add_sub. apply take_app_length. Qed.

Lemma captured_span p s : take (length s - length (span p s).2) s = (span p s).1.
Proof. rewrite (span_split p s) at 1 3. apply captured. Qed.

(** [r] succeeds exactly when [ok], with captures in [Q]. *)
Definition yields (r : option captures) (ok : bool) (Q : captures → Prop) : Prop :=
  if ok then ∃ m, r = Some m ∧ Q m else r = None.

Definition succeeds {A} (o : option A) : bool := match o with Some _ => true | None => false end.

Definition same_below (n : nat) (m m' : captures) : Prop := ∀ i, i < n → m !! i = m' !! i.

Lemma fragment_spec s caps :
  yields (match_regex r_fragment s caps at_end) (succeeds (split_fragment s))
    (λ m, same_below 6 m caps).
Proof.
  unfold r_fragment, split_fragment. cbn [match_regex]. destruct s as [|c f]; cbn [match_regex].
  - by exists caps.
  - destruct (is_char "#" c); [|done]. cbn [andb]. destruct (forallb dot f) eqn:Hf; simpl.
    + assert (Hs : span dot f = (f, [])).
      { rewrite <- (app_nil_r f) at 1. rewrite span_app by (by rewrite Hf).
        simpl. by rewrite app_nil_r. }
      erewrite match_many_greedy by (rewrite Hs; reflexivity).
      eexists. split; [reflexivity|]. intros i Hi. rewrite lookup_insert_ne by lia. done.
    + rewrite match_many_fail; [done|]. intros a b -> Ha. destruct b; [|done].
      rewrite app_nil_r in Hf. by rewrite Hf in Ha.
Qed.

(** What is left of a text after characters that may start neither the query nor
    the fragment cannot be matched by them. *)
Lemma fragment_blocked a b c :
  query_char c → split_fragment (c :: a ++ b) = None.
Proof.
  unfold split_fragment, query_char, not_in, char_in, is_char. intros Hc.
  destruct (Ascii.eqb_spec "#" c) as [<-|]; [by vm_compute in Hc|done].
Qed.

Lemma path_query c : path_char c → query_char c.
Proof.
  unfold path_char, query_char, not_in, char_in. intros Hc%negb_True.
  apply negb_True. intros Hin%bool_decide_unpack. apply Hc. apply bool_decide_pack. set_solver.
Qed.

Lemma host_path c : host_char c → path_char c.
Proof.
  unfold path_char, host_char, not_in, char_in. intros Hc%negb_True.
  apply negb_True. intros Hin%bool_decide_unpack. apply Hc. apply bool_decide_pack. set_solver.
Qed.

Lemma digit_path c : is_digit c → path_char c.
Proof.
  intros Hd. unfold path_char, not_in, char_in. apply negb_True. intros Hin%bool_decide_unpack.
  repeat (apply elem_of_cons in Hin as [->|Hin]; [by vm_compute in Hd|]).
  by apply elem_of_nil in Hin.
Qed.

Lemma query_spec s caps :
  caps !! 5 = None →
  yields (match_regex r_query s caps (λ s caps, match_regex r_fragment s caps at_end))
    (succeeds (split_fragment (split_query s).2))
    (λ m, str m 5 = (split_query s).1 ∧ same_below 5 m caps).
Proof.
  intros H5. unfold r_query. cbn [match_regex].
  assert (Hskip : ∀ s, yields (match_regex r_fragment s caps at_end) (succeeds (split_fragment s))
                    (λ m, str m 5 = [] ∧ same_below 5 m caps)).
  { intros s'. pose proof (fragment_spec s' caps) as Hf. unfold yields in *.
    destruct (succeeds _); [|done]. destruct Hf as (m & Hm & Hs). exists m. split; [done|].
    split; [|intros i Hi; apply Hs; lia]. unfold str. rewrite Hs by lia. by rewrite H5. }
  destruct s as [|c t]; [apply Hskip|]. unfold split_query.
  destruct (is_char "?" c) eqn:Hc; [|apply Hskip].
  set (k := λ s', match_regex r_fragment s' (<[5 := take (length t - length s') t]> caps) at_end).
  change (match_many query_char t _) with (match_many query_char t k).
  pose proof (fragment_spec (span query_char t).2
    (<[5 := take (length t - length (span query_char t).2) t]> caps)) as Hf.
  unfold yields in *. destruct (succeeds (split_fragment (span query_char t).2)) eqn:Hok.
  - destruct Hf as (m & Hm & Hs).
    erewrite match_many_greedy by (unfold k; exact Hm). exists m. split; [done|]. split.
    + unfold str. rewrite Hs, lookup_insert_eq by lia. simpl. apply captured_span.
    + intros i Hi. rewrite Hs, lookup_insert_ne by lia. done.
  - rewrite match_many_fail.
    + assert (Hq : query_char c).
      { unfold is_char in Hc. apply Ascii.eqb_eq in Hc. by subst c. }
      pose proof (Hskip (c :: t)) as Hf'. unfold yields in Hf'.
      rewrite <- (app_nil_r t), (fragment_blocked _ _ _ Hq), app_nil_r in Hf'. done.
    + intros a b -> Ha. unfold k. rewrite span_app in Hok by done. simpl in Hok.
      pose proof (fragment_spec b (<[5:=take (length (a ++ b) - length b) (a ++ b)]> caps)) as Hb.
      unfold yields in Hb. destruct (succeeds (split_fragment b)) eqn:Hsb; [|done]. exfalso.
      rewrite (span_split query_char b) in Hsb. pose proof (span_all query_char b) as Hall.
      destruct (span query_char b) as [[|c' a'] b']; cbn [fst snd app forallb] in *; [congruence|].
      apply andb_True in Hall as [Hc' _]. by rewrite (fragment_blocked a' b' c' Hc') in Hsb.
Qed.

(** The matcher from each part on. *)
Definition from_query (s : chars) (caps : captures) : option captures :=
  match_regex r_query s caps (λ s caps, match_regex r_fragment s caps at_end).
Definition from_path (s : chars) (caps : captures) : option captures :=
  match_regex r_path s caps from_query.
Definition from_port (s : chars) (caps : captures) : option captures :=
  match_regex r_port s caps from_path.

(** The path, the query and the fragment of a text can be matched. *)
Definition tail_ok (s : chars) : bool :=
  succeeds (split_fragment (split_query (span path_char s).2).2).

(** What the direct parser finds from the path on. *)
Definition tail_captures (s : chars) (m : captures) : Prop :=
  str m 4 = (span path_char s).1 ∧ str m 5 = (split_query (span path_char s).2).1.

Lemma tail_ok_app a b : forallb path_char a → tail_ok (a ++ b) = tail_ok b.
Proof. intros Ha. unfold tail_ok. by rewrite span_app. Qed.

Lemma query_blocked c s : path_char c → split_query (c :: s) = ([], c :: s).
Proof.
  unfold split_query, path_char, not_in, char_in, is_char. intros Hc.
  destruct (Ascii.eqb_spec "?" c) as [<-|]; [by vm_compute in Hc|done].
Qed.

Lemma path_blocked c s caps :
  caps !! 5 = None → path_char c → from_query (c :: s) caps = None.
Proof.
  intros H5 Hc. pose proof (query_spec (c :: s) caps H5) as Hq.
  rewrite query_blocked in Hq by done. cbn [snd] in Hq.
  rewrite <- (app_nil_r s), (fragment_blocked s [] c (path_query _ Hc)), app_nil_r in Hq. exact Hq.
Qed.

Lemma path_spec s caps :
  caps !! 4 = None → caps !! 5 = None →
  yields (from_path s caps) (tail_ok s) (λ m, tail_captures s m ∧ same_below 4 m caps).
Proof.
  intros H4 H5. unfold from_path, r_path. cbn [match_regex].
  set (k := λ s', from_query s' (<[4 := take (length s - length s') s]> caps)).
  set (caps' := <[4 := (span path_char s).1]> caps).
  assert (H5' : caps' !! 5 = None) by (unfold caps'; by rewrite lookup_insert_ne).
  pose proof (query_spec (span path_char s).2 caps' H5') as Hq. unfold tail_ok, yields in *.
  destruct (succeeds _) eqn:Hok.
  - destruct Hq as (m & Hm & Hs5 & Hs).
    fold k. erewrite match_many_greedy by (unfold k; rewrite captured_span; exact Hm).
    exists m. split; [done|]. split; [split; [|done]|].
    + unfold str. rewrite Hs by lia. unfold caps'. by rewrite lookup_insert_eq.
    + intros i Hi. rewrite Hs by lia. unfold caps'. by rewrite lookup_insert_ne by lia.
  - rewrite match_many_fail.
    + pose proof (span_split path_char s) as Hsplit. pose proof (span_all path_char s) as Hall.
      destruct (span path_char s) as [[|c a] b]; cbn [fst snd app forallb] in *.
      * subst b. pose proof (query_spec s caps H5) as Hq'. by rewrite Hok in Hq'.
      * rewrite Hsplit. apply andb_True in Hall as [Hc _]. by apply path_blocked.
    + intros a b -> Ha. rewrite span_app in Hok by done. cbn [snd] in Hok.
      set (caps2 := <[4 := take (length (a ++ b) - length b) (a ++ b)]> caps).
      assert (H52 : caps2 !! 5 = None) by (unfold caps2; by rewrite lookup_insert_ne).
      pose proof (span_split path_char b) as Hsplit. pose proof (span_all path_char b) as Hall.
      destruct (span path_char b) as [[|c a'] b']; cbn [fst snd app forallb] in *.
      * subst b'. pose proof (query_spec b caps2 H52) as Hq'. by rewrite Hok in Hq'.
      * apply andb_True in Hall as [Hc _]. rewrite Hsplit. unfold k.
        apply path_blocked; [by rewrite lookup_insert_ne|done].
Qed.

Lemma digits_path s : forallb is_digit s → forallb path_char s.
Proof. apply forallb_weaken, digit_path. Qed.

Lemma colon_path c : is_char ":" c → path_char c.
Proof. unfold is_char. intros Hc%Is_true_true%Ascii.eqb_eq. by subst c. Qed.

Lemma split_port_ok s : tail_ok (split_port s).2 = tail_ok s.
Proof.
  unfold split_port. destruct s as [|c t]; [done|]. destruct (is_char ":" c) eqn:Hc; [|done].
  destruct (span is_digit t) as [p r] eqn:Hsp. destruct (is_empty p); [done|]. simpl.
  pose proof (span_split is_digit t) as Ht. pose proof (span_all is_digit t) as Hall.
  rewrite Hsp in Ht, Hall. cbn [fst snd] in *. rewrite Ht.
  symmetry. apply (tail_ok_app (c :: p)). cbn [forallb]. apply andb_True.
  split; [apply colon_path; by rewrite Hc|by apply digits_path].
Qed.

(** One digit and the rest of the run. *)
(** Without a port the matcher goes on with the path. *)
Lemma no_port_spec s caps :
  caps !! 3 = None → caps !! 4 = None → caps !! 5 = None → split_port s = ([], s) →
  yields (from_path s caps) (tail_ok s)
    (λ m, str m 3 = (split_port s).1 ∧ tail_captures (split_port s).2 m ∧ same_below 3 m caps).
Proof.
  intros H3 H4 H5 ->. pose proof (path_spec s caps H4 H5) as Hp. unfold yields in *.
  destruct (tail_ok s); [|done]. destruct Hp as (m & Hm & Ht & Hs). exists m.
  split_and!; [done| |done|]; cbn [fst].
  - unfold str. rewrite Hs by lia. by rewrite H3.
  - intros i Hi. apply Hs. lia.
Qed.

(** When the rest after the longest port does not match, no shorter port helps. *)
Lemma shorter_port_fails t a b caps :
  tail_ok (span is_digit t).2 = false → t = a ++ b → forallb is_digit a →
  caps !! 4 = None → caps !! 5 = None → from_path b caps = None.
Proof.
  intros Hok Heq Ha H4 H5. pose proof (path_spec b caps H4 H5) as Hb.
  assert (Hf : tail_ok b = false); [|by rewrite Hf in Hb].
  rewrite <- Hok. rewrite (span_split is_digit t) in Heq.
  rewrite <- (tail_ok_app (span is_digit t).1 (span is_digit t).2) by apply digits_path, span_all.
  rewrite Heq. symmetry. by apply tail_ok_app, digits_path.
Qed.

Lemma port_spec s caps :
  caps !! 3 = None → caps !! 4 = None → caps !! 5 = None →
  yields (from_port s caps) (tail_ok s)
    (λ m, str m 3 = (split_port s).1 ∧ tail_captures (split_port s).2 m ∧ same_below 3 m caps).
Proof.
  intros H3 H4 H5. unfold from_port, r_port, r_plus. cbn [match_regex].
  pose proof (no_port_spec s caps H3 H4 H5) as Hskip.
  destruct s as [|c t]; [by apply Hskip|].
  destruct (is_char ":" c) eqn:Hc; [|apply Hskip; unfold split_port; by rewrite Hc].
  destruct t as [|d t']; [apply Hskip; unfold split_port; by rewrite Hc|].
  destruct (is_digit d) eqn:Hd; [|apply Hskip; unfold split_port; rewrite Hc; cbn [span]; by rewrite Hd].
  set (t := d :: t').
  set (k := λ s', from_path s' (<[3 := take (length t - length s') t]> caps)).
  change (match_many is_digit t' _) with (match_many is_digit t' k).
  assert (Hsp : span is_digit t = (d :: (span is_digit t').1, (span is_digit t').2)).
  { unfold t. cbn [span]. rewrite Hd. by destruct (span is_digit t'). }
  assert (Hport : split_port (c :: t) = ((span is_digit t).1, (span is_digit t).2)).
  { unfold split_port. by rewrite Hc, Hsp. }
  rewrite <- split_port_ok, Hport. cbn [fst snd].
  set (caps' := <[3 := (span is_digit t).1]> caps).
  assert (Hp : yields (from_path (span is_digit t).2 caps') (tail_ok (span is_digit t).2)
                 (λ m, tail_captures (span is_digit t).2 m ∧ same_below 4 m caps')).
  { apply path_spec; unfold caps'; by rewrite lookup_insert_ne. }
  unfold yields in *. destruct (tail_ok (span is_digit t).2) eqn:Hok.
  - destruct Hp as (m & Hm & Ht & Hs).
    erewrite match_many_greedy; cycle 1.
    { unfold k. replace (span is_digit t').2 with (span is_digit t).2 by (by rewrite Hsp).
      rewrite captured_span. exact Hm. }
    exists m. split_and!; [done| |apply Ht..|].
    + unfold str. rewrite Hs by lia. unfold caps'. by rewrite lookup_insert_eq.
    + intros i Hi. rewrite Hs by lia. unfold caps'. by rewrite lookup_insert_ne by lia.
  - rewrite match_many_fail.
    + pose proof (path_spec (c :: t) caps H4 H5) as Hct.
      rewrite <- split_port_ok, Hport in Hct. cbn [snd] in Hct. by rewrite Hok in Hct.
    + intros a b Heq Ha. unfold k. apply (shorter_port_fails t (d :: a) b _ Hok).
      * unfold t. by rewrite Heq.
      * cbn [forallb]. by rewrite Hd.
      * by rewrite lookup_insert_ne.
      * by rewrite lookup_insert_ne.
Qed.

Definition from_host (s : chars) (caps : captures) : option captures :=
  match_regex r_host s caps from_port.

Lemma host_spec s caps :
  caps !! 2 = None → caps !! 3 = None → caps !! 4 = None → caps !! 5 = None →
  let '(h, s') := span host_char s in
  yields (from_host s caps) (negb (is_empty h) && tail_ok s')
    (λ m, str m 2 = h ∧ str m 3 = (split_port s').1 ∧ tail_captures (split_port s').2 m ∧
          same_below 2 m caps).
Proof.
  intros H2 H3 H4 H5. unfold from_host, r_host, r_plus. cbn [match_regex].
  destruct s as [|c t]; [done|]. cbn [span]. destruct (host_char c) eqn:Hc; [|done].
  set (s := c :: t).
  set (k := λ s', from_port s' (<[2 := take (length s - length s') s]> caps)).
  change (match_many host_char t _) with (match_many host_char t k).
  assert (Hsp : span host_char s = (c :: (span host_char t).1, (span host_char t).2)).
  { unfold s. cbn [span]. rewrite Hc. by destruct (span host_char t). }
  destruct (span host_char t) as [h s'] eqn:Hspt. cbn [fst snd is_empty negb andb] in *.
  set (caps' := <[2 := c :: h]> caps).
  assert (Hp : yields (from_port s' caps') (tail_ok s')
    (λ m, str m 3 = (split_port s').1 ∧ tail_captures (split_port s').2 m ∧ same_below 3 m caps')).
  { apply port_spec; unfold caps'; by rewrite lookup_insert_ne. }
  unfold yields in *. destruct (tail_ok s') eqn:Hok.
  - destruct Hp as (m & Hm & Hs3 & Ht & Hs). erewrite match_many_greedy; cycle 1.
    { unfold k. rewrite Hspt. cbn [snd]. replace s' with (span host_char s).2 by (by rewrite Hsp).
      rewrite captured_span, Hsp. exact Hm. }
    exists m. split_and!; [done| |done|apply Ht..|].
    + unfold str. rewrite Hs by lia. unfold caps'. by rewrite lookup_insert_eq.
    + intros i Hi. rewrite Hs by lia. unfold caps'. by rewrite lookup_insert_ne by lia.
  - apply match_many_fail. intros a b Heq Ha. unfold k.
    pose proof (port_spec b (<[2:=take (length s - length b) s]> caps)) as Hb.
    rewrite !lookup_insert_ne in Hb by lia. specialize (Hb H3 H4 H5).
    assert (Hf : tail_ok b = false); [|by rewrite Hf in Hb].
    rewrite <- Hok. pose proof (span_split host_char t) as Hsplit.
    pose proof (span_all host_char t) as Hall. rewrite Hspt in Hsplit, Hall. cbn [fst snd] in *.
    rewrite <- (tail_ok_app h s') by (by eapply forallb_weaken; [apply host_path|]).
    rewrite <- Hsplit, Heq. symmetry.
    apply tail_ok_app. by eapply forallb_weaken; [apply host_path|].
Qed.

Lemma literal_match w s caps k :
  match_regex (literal w) s caps k =
  match strip w s with Some s' => k s' caps | None => None end.
Proof.
  revert s caps k. induction w as [|c w IH]; intros s caps k; [by destruct s|].
  cbn [literal match_regex strip]. destruct s as [|c' s]; [done|].
  destruct (is_char c c'); [apply IH|done].
Qed.

Lemma strip_app w s s' : strip w s = Some s' → s = w ++ s'.
Proof.
  revert s. induction w as [|c w IH]; intros s; [by destruct s; intros [= <-]|].
  cbn [strip]. destruct s as [|c' s]; [done|]. destruct (is_char c c') eqn:Hc; [|done].
  intros Hs%IH. apply Ascii.eqb_eq in Hc. by subst.
Qed.

(** From ["://"] on, with the protocol captured. *)
Definition from_separator (s : chars) (caps : captures) : option captures :=
  match_regex (literal (chars_of "://")) s caps from_host.

Definition parse_rest (proto s : chars) : option parts :=
  s ← strip (chars_of "://") s;
  let '(host, s) := span host_char s in
  if is_empty host then None
  else
    let '(port, s) := split_port s in
    let '(path, s) := span path_char s in
    let '(query, s) := split_query s in
    _ ← split_fragment s;
    Some {| p_protocol := proto; p_host := host; p_port := port; p_path := path;
            p_query := query |}.

Definition captures_parts (m : captures) : parts :=
  {| p_protocol := str m 1; p_host := str m 2; p_port := str m 3; p_path := str m 4;
     p_query := str m 5 |}.

Lemma separator_spec s proto :
  captures_parts <$> from_separator s {[ 1 := proto ]} = parse_rest proto s.
Proof.
  unfold from_separator, parse_rest. rewrite literal_match.
  destruct (strip _ s) as [s1|]; [|done]. cbn [mbind option_bind].
  pose proof (host_spec s1 {[ 1 := proto ]} eq_refl eq_refl eq_refl eq_refl) as Hh.
  destruct (span host_char s1) as [h s2]. unfold yields in Hh.
  destruct (is_empty h); cbn [negb andb] in Hh; [by rewrite Hh|].
  destruct (split_port s2) as [po s3] eqn:Hpo. rewrite <- split_port_ok, Hpo in Hh.
  cbn [fst snd] in Hh. unfold tail_ok, tail_captures in Hh.
  destruct (span path_char s3) as [pa s4]. cbn [fst snd] in Hh.
  destruct (split_query s4) as [qu s5]. cbn [fst snd] in Hh.
  destruct (split_fragment s5) as [f|]; cbn [succeeds mbind option_bind] in *; [|by rewrite Hh].
  destruct Hh as (m & -> & H2 & H3 & [H4 H5] & Hs). cbn [fmap option_fmap option_map].
  unfold captures_parts. rewrite H2, H3, H4, H5. unfold str. by rewrite Hs by lia.
Qed.

Lemma regex_match_spec s : captures_parts <$> regex_match re s = split_url s.
Proof.
  unfold regex_match, re, r_protocol, split_url. cbn [match_regex]. rewrite literal_match.
  destruct (strip (chars_of "http") s) as [s1|] eqn:Hs; [|done]. cbn [mbind option_bind].
  apply strip_app in Hs. subst s.
  assert (Hcap : ∀ a s', take (length (a ++ s') - length s') (a ++ s') = a) by apply captured.
  destruct s1 as [|c s2]; cbn [match_regex].
  - match goal with |- _ = ?r => change r with (parse_rest (chars_of "http") []) end.
    rewrite <- (separator_spec [] (chars_of "http")). rewrite Hcap. reflexivity.
  - destruct (is_char "s" c) eqn:Hc.
    + unfold is_char in Hc. apply Ascii.eqb_eq in Hc. subst c.
      change (chars_of "http" ++ "s"%char :: s2) with (chars_of "https" ++ s2) at 1 2.
      match goal with |- _ = ?r => change r with (parse_rest (chars_of "https") s2) end.
      rewrite Hcap. rewrite <- (separator_spec s2 (chars_of "https")).
      change (<[1:=chars_of "https"]> ∅) with ({[1 := chars_of "https"]} : captures).
      match goal with
      | |- context [match ?x with Some caps => Some caps | None => _ end] =>
          change x with (from_separator s2 {[1 := chars_of "https"]})
      end.
      destruct (from_separator s2 _); [done|].
      by rewrite literal_match.
    + match goal with |- _ = ?r => change r with (parse_rest (chars_of "http") (c :: s2)) end.
      rewrite <- (separator_spec (c :: s2) (chars_of "http")). rewrite Hcap. reflexivity.
Qed.

(** ** Composing and resolving *)

Definition is_protocol (s : chars) : bool :=
  bool_decide (s = chars_of "http") || bool_decide (s = chars_of "https").

Definition compose_port (po : chars) : chars :=
  if is_empty po then [] else ":"%char :: po.
Definition compose_query (q : chars) : chars :=
  if is_empty q then [] else "?"%char :: q.

(** The text of a URL with given parts. *)
Definition compose (p : parts) : chars :=
  p_protocol p ++ chars_of "://" ++ p_host p ++ compose_port (p_port p) ++
  p_path p ++ compose_query (p_query p).

(** The parts a URL can have: a path is empty or starts with ['/']. *)
Definition origin_ok (proto h po : chars) : bool :=
  is_protocol proto && negb (is_empty h) && forallb host_char h && forallb is_digit po.
Definition rooted (s : chars) : bool := match s with c :: _ => is_char "/" c | [] => false end.
Definition parts_ok (p : parts) : bool :=
  origin_ok (p_protocol p) (p_host p) (p_port p) &&
  (is_empty (p_path p) || rooted (p_path p)) && forallb path_char (p_path p) &&
  forallb query_char (p_query p).

(** What follows the port cannot be taken for a part of the host or the port. *)
Definition separated (s : chars) : bool :=
  match s with c :: _ => char_in c (chars_of "/?#") | [] => true end.

Lemma span_exact p a b :
  forallb p a → match b with c :: _ => p c = false | [] => True end → span p (a ++ b) = (a, b).
Proof.
  intros Ha Hb. rewrite span_app by done. destruct b as [|c b]; cbn [span].
  - by rewrite app_nil_r.
  - rewrite Hb. cbn [fst snd]. by rewrite app_nil_r.
Qed.

Lemma separated_cases s :
  separated s → s = [] ∨ ∃ c t, s = c :: t ∧ (c = "/" ∨ c = "?" ∨ c = "#")%char.
Proof.
  destruct s as [|c t]; [by left|]. intros Hc%bool_decide_unpack. right. exists c, t.
  split; [done|]. simpl in Hc. set_solver.
Qed.

Lemma compose_port_sep po s : separated s → forallb is_digit po →
  split_port (compose_port po ++ s) = (po, s).
Proof.
  intros Hs Hpo. destruct po as [|d po]; cbn [compose_port is_empty app].
  - unfold split_port. apply separated_cases in Hs as [->|(c & t & -> & [->|[->| ->]])]; done.
  - unfold split_port. change (is_char ":" ":") with true. cbv iota.
    change (d :: po ++ s) with ((d :: po) ++ s).
    rewrite span_exact; [done|done|].
    by apply separated_cases in Hs as [->|(c & t & -> & [->|[->| ->]])].
Qed.

Lemma split_origin proto h po s :
  origin_ok proto h po → separated s →
  split_url (proto ++ chars_of "://" ++ h ++ compose_port po ++ s) =
  let '(path, s) := span path_char s in
  let '(query, s) := split_query s in
  _ ← split_fragment s;
  Some {| p_protocol := proto; p_host := h; p_port := po; p_path := path; p_query := query |}.
Proof.
  intros Ho Hs. unfold origin_ok in Ho. rewrite !andb_True in Ho.
  destruct Ho as [[[Hproto Hne] Hh] Hpo].
  assert (Hhost : span host_char (h ++ compose_port po ++ s) = (h, compose_port po ++ s)).
  { apply span_exact; [done|]. destruct po as [|d po]; cbn [compose_port is_empty app]; [|done].
    by apply separated_cases in Hs as [->|(c & t & -> & [->|[->| ->]])]. }
  assert (Hrest : parse_rest proto (chars_of "://" ++ h ++ compose_port po ++ s) =
    let '(path, s) := span path_char s in
    let '(query, s) := split_query s in
    _ ← split_fragment s;
    Some {| p_protocol := proto; p_host := h; p_port := po; p_path := path; p_query := query |}).
  { unfold parse_rest. cbn [app chars_of strip]. change (is_char ?c ?c) with true.
    change (strip _ _) with (Some (h ++ compose_port po ++ s)).
    cbn [mbind option_bind]. rewrite Hhost. destruct (is_empty h); [done|].
    by rewrite compose_port_sep. }
  apply orb_True in Hproto as [Hp%bool_decide_unpack|Hp%bool_decide_unpack]; subst proto;
    exact Hrest.
Qed.

Lemma split_url_origin s p :
  split_url s = Some p → origin_ok (p_protocol p) (p_host p) (p_port p) ∧
    forallb path_char (p_path p) ∧ forallb query_char (p_query p).
Proof.
  assert (Hrest : ∀ proto t, is_protocol proto → parse_rest proto t = Some p →
    origin_ok (p_protocol p) (p_host p) (p_port p) ∧
    forallb path_char (p_path p) ∧ forallb query_char (p_query p)).
  { intros proto t Hproto. unfold parse_rest. destruct (strip _ t) as [s1|]; [|done].
    cbn [mbind option_bind]. pose proof (span_all host_char s1) as Hh.
    destruct (span host_char s1) as [h s2]. destruct (is_empty h) eqn:Hne; [done|].
    destruct (split_port s2) as [po s3] eqn:Hpo.
    pose proof (span_all path_char s3) as Hpath. destruct (span path_char s3) as [pa s4].
    destruct (split_query s4) as [q s5] eqn:Hq.
    destruct (split_fragment s5); [|done]. cbn [mbind option_bind]. intros [= <-].
    cbn [p_protocol p_host p_port p_path p_query fst] in *. split_and!; [|done|].
    - unfold origin_ok. rewrite Hne. cbn [negb]. rewrite !andb_True.
      split_and!; [done..|]. unfold split_port in Hpo. destruct s2 as [|c t2]; [by injection Hpo as <- _|].
      destruct (is_char ":" c); [|by injection Hpo as <- _].
      pose proof (span_all is_digit t2) as Hd. destruct (span is_digit t2) as [d r].
      destruct (is_empty d); injection Hpo as <- _; done.
    - unfold split_query in Hq. destruct s4 as [|c t4]; [by injection Hq as <- _|].
      destruct (is_char "?" c); [|by injection Hq as <- _].
      pose proof (span_all query_char t4) as Hd. by rewrite Hq in Hd. }
  unfold split_url. destruct (strip (chars_of "http") s) as [s1|]; [|done].
  cbn [mbind option_bind]. destruct s1 as [|c s2]; [done|].
  destruct (is_char "s" c); intros Hp.
  - by apply (Hrest (chars_of "https") s2).
  - by apply (Hrest (chars_of "http") (c :: s2)).
Qed.

Lemma parse_url_split s : parse_url s = url_of_parts <$> split_url s.
Proof.
  rewrite <- regex_match_spec. unfold parse_url. by destruct (regex_match re s).
Qed.

(** What is left after the path and the query is empty or a fragment. *)
Definition tail_rest (s : chars) : chars := (split_query (span path_char s).2).2.

Lemma tail_rest_shape s :
  ∃ a, s = a ++ tail_rest s ∧
    (tail_rest s = [] ∨ ∃ f, tail_rest s = "#"%char :: f).
Proof.
  unfold tail_rest. pose proof (span_split path_char s) as Hs.
  pose proof (span_stop path_char s) as Hstop. destruct (span path_char s) as [pa r].
  cbn [fst snd] in *. destruct r as [|c t]; [exists pa; split; [done|by left]|].
  assert (Hc : c = "?"%char ∨ c = "#"%char).
  { unfold path_char, not_in, char_in in Hstop. apply negb_false_iff, bool_decide_eq_true in Hstop.
    simpl in Hstop. set_solver. }
  unfold split_query. destruct Hc as [-> | ->].
  - change (is_char "?" "?") with true. cbv iota.
    pose proof (span_split query_char t) as Ht. pose proof (span_stop query_char t) as Hq.
    destruct (span query_char t) as [q r]. cbn [fst snd] in *. exists (pa ++ "?"%char :: q).
    split; [by rewrite Hs, Ht, <- (assoc_L (++))|].
    destruct r as [|c f]; [by left|right]. exists f.
    unfold query_char, not_in, char_in in Hq. apply negb_false_iff, bool_decide_eq_true in Hq.
    simpl in Hq. apply list_elem_of_singleton in Hq. by subst.
  - exists pa. split; [done|]. right. by exists t.
Qed.

Lemma tail_ok_join d l : forallb query_char d → forallb dot l → tail_ok (d ++ l).
Proof.
  intros Hd Hl. unfold tail_ok. fold (tail_rest (d ++ l)).
  destruct (tail_rest_shape (d ++ l)) as (a & Ha & [->|[f Hf]]); [done|].
  rewrite Hf in *. unfold split_fragment. change (is_char "#" "#") with true. cbn [andb].
  assert (Hin : ∀ c, c ∈ f → c ∈ l).
  { intros c Hc. assert (Hsuf : "#"%char :: f `suffix_of` l).
    { destruct (decide (length a < length d)) as [Hlt|Hge].
      - exfalso. assert (Hin : "#"%char ∈ d).
        { apply list_elem_of_lookup. exists (length a).
          rewrite <- (lookup_app_l d l) by done. rewrite Ha.
          rewrite lookup_app_r, Nat.sub_diag by lia. done. }
        apply Is_true_true, forallb_forall with (x := "#"%char) in Hd; [done|].
        by apply list_elem_of_In.
      - exists (drop (length d) a). apply (app_inv_head d). rewrite (assoc_L (++)).
        assert (Htake : d = take (length d) a).
        { pose proof (f_equal (take (length d)) Ha) as Ht.
          rewrite take_app_length, take_app_le in Ht by lia. done. }
        rewrite Htake at 2. by rewrite take_drop. }
    destruct Hsuf as [x ->]. set_solver. }
  assert (Hdot : forallb dot f); [|by apply Is_true_true in Hdot as ->].
  apply Is_true_true. apply forallb_forall. intros c Hc%list_elem_of_In%Hin.
  apply Is_true_true in Hl. eapply forallb_forall in Hl; [exact Hl|]. by apply list_elem_of_In.
Qed.

Lemma up_to_last_slash_rooted s :
  rooted s → ∃ d, up_to_last_slash s = Some ("/"%char :: d) ∧ ("/"%char :: d) `prefix_of` s.
Proof.
  assert (Hpre : ∀ s d, up_to_last_slash s = Some d → d `prefix_of` s).
  { clear s. intros s. induction s as [|c s IH]; intros d; [done|]. cbn [up_to_last_slash].
    destruct (up_to_last_slash s) as [d'|].
    - intros [= <-]. destruct (IH d' eq_refl) as [k ->]. by exists k.
    - destruct (is_char "/" c); [|done]. intros [= <-]. by exists s. }
  destruct s as [|c s]; [done|]. cbn [rooted]. intros Hc.
  assert (c = "/"%char) as -> by (apply Is_true_true in Hc; by apply Ascii.eqb_eq in Hc).
  assert (Hex : ∃ d, up_to_last_slash ("/"%char :: s) = Some ("/"%char :: d)).
  { cbn [up_to_last_slash]. destruct (up_to_last_slash s); [by eexists|]. by exists []. }
  destruct Hex as [d Hd]. exists d. split; [done|]. by apply Hpre.
Qed.

(** [root] leaves the port out exactly when it is the default. *)
Lemma root_cases p :
  is_protocol (p_protocol p) →
  let u := url_of_parts p in
  port u = default_port (p_protocol p) ∧
    root u = p_protocol p ++ chars_of "://" ++ p_host p ++ [] ∨
  port u = p_port p ∧ is_empty (p_port p) = false ∧
    root u = p_protocol p ++ chars_of "://" ++ p_host p ++ ":"%char :: p_port p.
Proof.
  intros Hproto. unfold root, url_of_parts. cbn [protocol host port path].
  assert (Hdef : ∀ (b : bool) po, (bool_decide (po ≠ (if b then chars_of "80" else chars_of "443"))) = false →
    po = (if b then chars_of "80" else chars_of "443")).
  { intros b po Hb%bool_decide_eq_false. by apply dec_stable. }
  apply orb_True in Hproto as [ ->%bool_decide_unpack| ->%bool_decide_unpack];
    (destruct (is_empty (p_port p)) eqn:He; [by left|]).
  - change (bool_decide (chars_of "http" = chars_of "http")) with true.
    change (bool_decide (chars_of "http" = chars_of "https")) with false.
    rewrite orb_false_r, andb_true_l.
    destruct (bool_decide (p_port p ≠ chars_of "80")) eqn:Hb; [by right|left].
    split; [exact (Hdef true _ Hb)|done].
  - change (bool_decide (chars_of "https" = chars_of "http")) with false.
    change (bool_decide (chars_of "https" = chars_of "https")) with true.
    rewrite orb_false_l, andb_true_l.
    destruct (bool_decide (p_port p ≠ chars_of "443")) eqn:Hb; [by right|left].
    split; [exact (Hdef false _ Hb)|done].
Qed.

(** The port as [root] writes it. *)
Lemma root_origin p :
  origin_ok (p_protocol p) (p_host p) (p_port p) →
  let u := url_of_parts p in
  ∃ po, root u = p_protocol p ++ chars_of "://" ++ p_host p ++ compose_port po ∧
        origin_ok (p_protocol p) (p_host p) po ∧
        (if is_empty po then default_port (p_protocol p) else po) = port u.
Proof.
  intros Ho u. pose proof Ho as Ho'. unfold origin_ok in Ho'. rewrite !andb_True in Ho'.
  destruct Ho' as [[[Hproto Hne] Hh] Hpo].
  destruct (root_cases p Hproto) as [[Hpo1 Hr]|(Hpo1 & He & Hr)].
  - exists []. split_and!; [done| |done]. unfold origin_ok. by rewrite !andb_True.
  - exists (p_port p). rewrite He. split_and!; try done. by destruct (p_port p).
Qed.

(** Whatever follows [root] keeps the origin. *)
Lemma parse_root p rest :
  origin_ok (p_protocol p) (p_host p) (p_port p) → separated rest → tail_ok rest →
  ∃ u', parse_url (root (url_of_parts p) ++ rest) = Some u' ∧ protocol u' = p_protocol p ∧
        host u' = p_host p ∧ port u' = port (url_of_parts p).
Proof.
  intros Ho Hsep Htail. destruct (root_origin p Ho) as (po & Hr & Hok & Hpo).
  rewrite parse_url_split, Hr, <- !(assoc_L (++)), (split_origin _ _ po rest Hok Hsep).
  unfold tail_ok in Htail. destruct (span path_char rest) as [pa s4]. cbn [snd] in Htail.
  destruct (split_query s4) as [q s5]. cbn [snd] in Htail.
  destruct (split_fragment s5); [|done]. eexists. split_and!; [reflexivity|done..|exact Hpo].
Qed.

Lemma path_rooted p :
  is_empty (p_path p) || rooted (p_path p) → forallb path_char (p_path p) →
  forallb query_char (p_query p) →
  rooted (path (url_of_parts p)) ∧ forallb query_char (path (url_of_parts p)).
Proof.
  intros Hroot Hpath Hq. unfold url_of_parts. cbn [path].
  assert (Hpq : forallb query_char (p_path p)) by (by eapply forallb_weaken; [apply path_query|]).
  destruct (p_path p) as [|c t]; cbn [is_empty orb] in *; destruct (p_query p) as [|cq q] eqn:E;
    cbn [is_empty]; split; try done.
  rewrite forallb_app. apply andb_True. split; [done|]. by cbn [forallb].
Qed.

(** ** The theorems *)

(** C29. [parse_url], which runs the regular expression with backtracking,
    computes what the direct parser [split_url] does in one pass: on every text it
    accepts the same URLs, with the same host, port, path and query; the groups
    never overlap in another way. *)
Theorem parse_url_direct s : parse_url s = url_of_parts <$> split_url s.
Proof. apply parse_url_split. Qed.

(** C35. Parsing inverts composing: the parts of a well-formed URL come
    back, the default port and path included. *)
Theorem parse_compose p :
  parts_ok p → parse_url (compose p) = Some (url_of_parts p).
Proof.
  unfold parts_ok. rewrite !andb_True. intros [[[Ho Hroot] Hpath] Hq].
  rewrite parse_url_split. unfold compose.
  assert (Hsep : separated (p_path p ++ compose_query (p_query p))).
  { destruct (p_path p) as [|c t].
    - by destruct (p_query p).
    - apply orb_True in Hroot as [[]|Hc]. cbn [rooted] in Hc.
      apply Is_true_true, Ascii.eqb_eq in Hc. by subst c. }
  assert (Hspan : span path_char (p_path p ++ compose_query (p_query p)) =
                  (p_path p, compose_query (p_query p))).
  { apply span_exact; [done|]. by destruct (p_query p). }
  assert (Hquery : split_query (compose_query (p_query p)) = (p_query p, [])).
  { destruct (p_query p) as [|c q] eqn:E; [done|]. cbn [compose_query is_empty split_query].
    change (is_char "?" "?") with true. cbv iota.
    rewrite <- (app_nil_r (c :: q)) at 1. by rewrite span_exact. }
  rewrite (split_origin _ _ _ _ Ho Hsep), Hspan, Hquery. by destruct p.
Qed.

(** A relative redirect stays where it is: when the [Location] of a
    response is not an absolute URL and has no line terminator, the URL the client
    goes to next has the protocol, the host and the port of the current one. The
    path of the current URL must start with ['/'] or be absent; and [*u] is
    never read without a value. *)
Theorem redirect_same_origin base location p :
  split_url base = Some p → (is_empty (p_path p) || rooted (p_path p)) →
  has_prefix (chars_of "http://") location = false →
  has_prefix (chars_of "https://") location = false →
  forallb dot location →
  ∃ next u, resolve_redirect base location = Some next ∧ parse_url next = Some u ∧
    protocol u = p_protocol p ∧ host u = p_host p ∧
    port u = port (url_of_parts p).
Proof.
  intros Hp Hroot Hn1 Hn2 Hloc. destruct (split_url_origin _ _ Hp) as (Ho & Hpath & Hq).
  assert (Hbase : parse_url base = Some (url_of_parts p)) by (by rewrite parse_url_split, Hp).
  destruct (path_rooted p Hroot Hpath Hq) as [Hur Huq].
  destruct (up_to_last_slash_rooted _ Hur) as (d & Hd & [k Hk]).
  assert (Hdq : forallb query_char ("/"%char :: d)).
  { rewrite Hk, forallb_app in Huq. by apply andb_True in Huq as [Huq _]. }
  destruct (parse_root p ("/"%char :: d ++ location) Ho) as (u' & Hu' & Hsame); [done| |].
  { by apply (tail_ok_join ("/"%char :: d)). }
  unfold resolve_redirect. rewrite Hn1, Hn2, Hbase. cbn [orb mbind option_bind].
  rewrite Hd. cbn [default from_option].
  destruct location as [|c l]; [by eexists _, u'|].
  destruct (is_char "/" c) eqn:Hc; [|by eexists _, u'].
  destruct (parse_root p (c :: l) Ho) as (u2 & Hu2 & Hsame2).
  - apply Ascii.eqb_eq in Hc. by subst c.
  - by apply (tail_ok_join []).
  - by eexists _, u2.
Qed.

(** Without that condition the redirect can leave the host: the characters
    after the digits of a port belong to the path, and a relative [Location] is
    resolved to another host. *)
Theorem redirect_changes_host :
  resolve_redirect (chars_of "http://host:80.evil.org/") (chars_of "x") =
    Some (chars_of "http://host.evil.org/x").
Proof. vm_compute. reflexivity. Qed.

(** ** Witnesses *)

Definition sample_parts : parts :=
  {| p_protocol := chars_of "https"; p_host := chars_of "example.org"; p_port := chars_of "8443";
     p_path := chars_of "/api/v1/x"; p_query := chars_of "a=/b" |}.

Lemma parse_compose_witness :
  parse_url (chars_of "https://example.org:8443/api/v1/x?a=/b") = Some (url_of_parts sample_parts).
Proof. apply (parse_compose sample_parts). vm_compute. exact I. Defined.

Lemma redirect_same_origin_witness :
  ∃ next u, resolve_redirect (chars_of "https://example.org:8443/api/v1/x?a=/b") (chars_of "../y") =
    Some next ∧ parse_url next = Some u ∧ host u = chars_of "example.org".
Proof.
  destruct (redirect_same_origin (chars_of "https://example.org:8443/api/v1/x?a=/b")
              (chars_of "../y") sample_parts) as (next & u & Hr & Hu & _ & Hh & _).
  - vm_compute. reflexivity.
  - exact I.
  - vm_compute. reflexivity.
  - vm_compute. reflexivity.
  - vm_compute. exact I.
  - exists next, u. split_and!; [exact Hr|exact Hu|exact Hh].
Defined.

End Url.
