(* ===== verification/HttpClient.v ===== *)
(** * HttpClient *)

(** The HTTP client ([src/transport/http_client/http_client.h],
    [http_client.cpp]). Boost's sockets are the class [Network]: each operation
    succeeds, sets an error code or throws. The requests sent, with their
    responses, are logged in [exchanges]. *)

From stdpp Require Import sorting.
From S2P Require Import Prelude Url.

Module HttpClient.
Import Url.

Abbreviation header_map := (gmap string string).

(** The entries of a [std::map], in the order of their keys. *)
Definition key_le (a b : string * string) : Prop := String.leb a.1 b.1.
#[export] Instance key_le_dec : RelDecision key_le.
Proof. intros a b. unfold key_le. apply _. Defined.
Definition entries (m : header_map) : list (string * string) :=
  merge_sort key_le (map_to_list m).

Record http_response : Type := {
  status_code : Z;
  body : string;
  headers : header_map;
  success : bool;
  error_message : string
}.

Definition is_redirect (r : http_response) : bool :=
  ((status_code r =? 301) || (status_code r =? 302) || (status_code r =? 307) ||
   (status_code r =? 308))%Z.

(** [for (auto& [k, v] : headers) if (k == name) return v;]. *)
Fixpoint first_header (l : list (string * string)) (name : string) : option string :=
  match l with
  | [] => None
  | (k, v) :: l' => if String.eqb k name then Some v else first_header l' name
  end.

Definition get_headers (r : http_response) (name : string) : option string :=
  match headers r !! name with
  | Some v => Some v
  | None => first_header (entries (headers r)) name
  end.

Record http_options : Type := {
  timeout : Z;
  max_redirects : Z;
  follow_redirects : bool;
  restrict_redirect_to_same_host : bool
}.

Definition default_options : http_options :=
  {| timeout := 30; max_redirects := 5; follow_redirects := true;
     restrict_redirect_to_same_host := false |}.

Inductive verb : Type := VGet | VPost | VPut | VPatch | VDelete | VHead.

#[export] Instance verb_eq_dec : EqDecision verb.
Proof. solve_decision. Defined.

(** [http::request<http::string_body>]; [prepared] is [prepare_payload]. *)
Record request : Type := {
  req_verb : verb;
  target : string;
  req_fields : list (string * string);
  req_body : string;
  prepared : bool
}.

(** What a network operation does: a value, an error code's message, or an
    exception. *)
Inductive net (A : Type) : Type :=
| NetOk (a : A)
| NetErr (msg : string)
| NetThrow (what : string).
Arguments NetOk {A} _.
Arguments NetErr {A} _.
Arguments NetThrow {A} _.

(** How [http::read] ended, with what the parser holds. *)
Inductive read_end : Type :=
| ReadOk
| ReadEndOfStream
| ReadEof
| ReadPartial (done : bool) (msg : string)
| ReadError (msg : string).

Record reply : Type := {
  result_int : Z;
  reply_body : string;
  reply_fields : list (string * string)
}.

Class Network (N : Type) : Type := {
  net_resolve : string → string → N → net unit * N;
  net_tls : N → net bool * N;
  net_sni : string → N → net unit * N;
  net_connect : N → net unit * N;
  net_handshake : N → net unit * N;
  net_write : request → N → net unit * N;
  net_read : bool → N → net (read_end * reply) * N
}.

(** One request of the client, with its outcome. *)
Record exchange : Type := {
  ex_url : Url;
  ex_verb : verb;
  ex_body : string;
  ex_headers : header_map;
  ex_response : http_response
}.

Section client.
Context {N : Type} `{Network N}.

Record client : Type := { network : N; exchanges : list exchange }.

(** A network operation inside [try]: its error code, or what it throws. *)
Definition call {A} (op : N → net A * N) : M client (A + string) := λ c,
  let '(r, n) := op (network c) in
  let c' := {| network := n; exchanges := exchanges c |} in
  match r with
  | NetOk a => (Ret (inl a), c')
  | NetErr msg => (Ret (inr msg), c')
  | NetThrow what => (Exn (StdException what), c')
  end.

Definition failed (msg : string) : http_response :=
  {| status_code := 0; body := ""; headers := ∅; success := false; error_message := msg |}.

Definition lower_char (c : ascii) : ascii :=
  let n := nat_of_ascii c in
  if (65 <=? n)%nat && (n <=? 90)%nat then Ascii.ascii_of_nat (n + 32) else c.
Definition iequals (a b : string) : bool :=
  bool_decide (lower_char <$> chars_of a = lower_char <$> chars_of b).

(** [req.set(name, value)] replaces the fields of that name, whatever its case. *)
Definition set_field (fs : list (string * string)) (name value : string) : list (string * string) :=
  filter (λ f, negb (iequals f.1 name)) fs ++ [(name, value)].

Definition build_request (url : Url) (v : verb) (b : string) (hs : header_map) : request :=
  let fs := set_field [] "Host" (string_of (host url)) in
  let fs := set_field fs "User-Agent" "VehicleGateway/2.0" in
  let fs := set_field fs "Connection" "close" in
  let fs := fold_left (λ fs kv, set_field fs kv.1 kv.2) (entries hs) fs in
  {| req_verb := v; target := string_of (path url); req_fields := fs;
     req_body := b; prepared := negb (String.eqb b "") |}.

(** The response built from the parser's message. *)
Definition response_of (r : reply) : http_response :=
  {| status_code := result_int r;
     body := reply_body r;
     headers := fold_left (λ m f, <[f.1 := f.2]> m) (reply_fields r) ∅;
     success := ((200 <=? result_int r) && (result_int r <? 300))%Z;
     error_message := "" |}.

Definition read_ok (e : read_end) : option string :=
  match e with
  | ReadOk | ReadEndOfStream | ReadEof | ReadPartial true _ => None
  | ReadPartial false msg | ReadError msg => Some msg
  end.

Definition send_and_receive (url : Url) (v : verb) (b : string) (hs : header_map)
    : M client http_response :=
  w ← call (net_write (build_request url v b hs));
  match w with
  | inr msg => mret (failed ("write failed: " ++ msg))
  | inl _ =>
      r ← call (net_read (bool_decide (v = VHead)));
      match r with
      | inr msg => mret (failed ("read failed: " ++ msg))
      | inl (e, rep) =>
          match read_ok e with
          | Some msg => mret (failed ("read failed: " ++ msg))
          | None => mret (response_of rep)
          end
      end
  end.

(** [std::exception::what]. *)
Definition what (e : exn) : string :=
  match e with JsonException => "json exception" | StdException w => w end.

(** [HttpClient::impl::do_request]. *)
Definition impl_do_request (url : Url) (v : verb) (b : string) (hs : header_map)
    : M client http_response :=
  catch
    (r ← call (net_resolve (string_of (host url)) (string_of (port url)));
     match r with
     | inr msg => mret (failed ("DNS resolution failed: " ++ msg))
     | inl _ =>
         if bool_decide (protocol url = chars_of "https")
         then
           h ← call net_tls;
           match h with
           | inl false | inr _ => mret (failed "Failed to initialize OpenSSL stream")
           | inl true =>
               s ← call (net_sni (string_of (host url)));
               match s with
               | inr msg => mret (failed ("SNI setup failed: " ++ msg))
               | inl _ =>
                   c ← call net_connect;
                   match c with
                   | inr msg => mret (failed ("Connecting failed: " ++ msg))
                   | inl _ =>
                       t ← call net_handshake;
                       match t with
                       | inr msg => mret (failed ("SSL handshake failed: " ++ msg))
                       | inl _ => send_and_receive url v b hs
                       end
                   end
               end
           end
         else
           c ← call net_connect;
           match c with
           | inr msg => mret (failed ("Connection failed: " ++ msg))
           | inl _ => send_and_receive url v b hs
           end
     end)
    (λ e, mret (failed ("Exception: " ++ what e))).

(** The same, logged. *)
Definition perform (url : Url) (v : verb) (b : string) (hs : header_map)
    : M client http_response :=
  r ← impl_do_request url v b hs;
  modify (λ c, {| network := network c;
                  exchanges := exchanges c ++
                    [{| ex_url := url; ex_verb := v; ex_body := b; ex_headers := hs;
                        ex_response := r |}] |}) ;;
  mret r.

Definition verb_of (method : string) : verb :=
  if String.eqb method "POST" then VPost
  else if String.eqb method "PUT" then VPut
  else if String.eqb method "PATCH" then VPatch
  else if String.eqb method "DELETE" then VDelete
  else if String.eqb method "HEAD" then VHead
  else VGet.

(** The method and the body of the request after a redirect. *)
Definition redirect_request (status : Z) (method b : string) : string * string :=
  if ((status =? 307) || (status =? 308))%Z then (method, b)
  else if String.eqb method "POST" || String.eqb method "PUT" || String.eqb method "PATCH"
  then ("GET", "")
  else (method, "").

(** [response.get_headers("Location")], then ["location"]. *)
Definition location_of (r : http_response) : option string :=
  match get_headers r "Location" with
  | Some l => Some l
  | None => get_headers r "location"
  end.

(** [HttpClient::do_request]; the [int] [redirects_remaining] is positive exactly
    when the fuel is not zero. *)
Fixpoint do_request (options : http_options) (redirects_remaining : nat) (method url : string)
    (hs : header_map) (b : string) : M client http_response :=
  match parse_url (chars_of url) with
  | None => mret (failed ("Invalid URL: " ++ url))
  | Some uri =>
      response ← perform uri (verb_of method) b hs;
      if follow_redirects options && is_redirect response
      then
        match redirects_remaining with
        | O => mret response
        | S n =>
            match location_of response with
            | Some location =>
                match resolve_redirect (chars_of url) (chars_of location) with
                | Some new_url =>
                    let '(m, b') := redirect_request (status_code response) method b in
                    do_request options n m (string_of new_url) hs b'
                | None => undefined
                end
            | None => mret response
            end
        end
      else mret response
  end.

Definition redirects (options : http_options) : nat := Z.to_nat (max_redirects options).

Definition Get (options : http_options) (url : string) (hs : header_map) :=
  do_request options (redirects options) "GET" url hs "".
Definition Post (options : http_options) (url : string) (hs : header_map) (b : string) :=
  do_request options (redirects options) "POST" url hs b.
Definition Put (options : http_options) (url : string) (hs : header_map) (b : string) :=
  do_request options (redirects options) "PUT" url hs b.
Definition Patch (options : http_options) (url : string) (hs : header_map) (b : string) :=
  do_request options (redirects options) "PATCH" url hs b.
Definition Delete (options : http_options) (url : string) (hs : header_map) :=
  do_request options (redirects options) "DELETE" url hs "".
Definition Head (options : http_options) (url : string) (hs : header_map) :=
  do_request options (redirects options) "HEAD" url hs "".

End client.

Arguments client : clear implicits.

(** ** Requests always return *)

Section lemmas.
Context {N : Type} `{NW : Network N}.
Implicit Types (c : client N) (u : Url).

(** [m] has no undefined behaviour and logs nothing. *)
Definition quiet {A} (m : M (client N) A) : Prop :=
  ∀ c, fst (m c) ≠ UB ∧ exchanges (snd (m c)) = exchanges c.

Lemma quiet_ret {A} (a : A) : quiet (mret a).
Proof. by intros c. Qed.

Lemma quiet_call {A} (op : N → net A * N) : quiet (call op).
Proof. intros c. unfold call. by destruct (op (network c)) as [[]]. Qed.

Lemma quiet_bind {A B} (m : M (client N) A) (k : A → M (client N) B) :
  quiet m → (∀ a, quiet (k a)) → quiet (m ≫= k).
Proof.
  intros Hm Hk c. rewrite bind_unfold. destruct (Hm c) as [Hub Hex].
  destruct (m c) as [[a|e|] c']; simpl in *; [|done..].
  destruct (Hk a c') as [Hub' Hex']. split; [done|congruence].
Qed.

Lemma send_quiet u v b hs : quiet (send_and_receive u v b hs).
Proof.
  unfold send_and_receive. apply quiet_bind; [apply quiet_call|intros [w|msg]]; [|apply quiet_ret].
  apply quiet_bind; [apply quiet_call|intros [[e rep]|msg]]; [|apply quiet_ret].
  destruct (read_ok e); apply quiet_ret.
Qed.

Lemma impl_body_quiet u v b hs c :
  ∃ r n, impl_do_request u v b hs c = (Ret r, {| network := n; exchanges := exchanges c |}).
Proof.
  unfold impl_do_request, catch.
  match goal with |- context [match ?m c with _ => _ end] => assert (Hq : quiet m) end.
  { apply quiet_bind; [apply quiet_call|intros [w|msg]]; [|apply quiet_ret].
    case_bool_decide.
    - apply quiet_bind; [apply quiet_call|intros [[]|msg]]; [|apply quiet_ret..].
      apply quiet_bind; [apply quiet_call|intros [s|msg]]; [|apply quiet_ret].
      apply quiet_bind; [apply quiet_call|intros [t|msg]]; [|apply quiet_ret].
      apply quiet_bind; [apply quiet_call|intros [t'|msg]]; [|apply quiet_ret].
      apply send_quiet.
    - apply quiet_bind; [apply quiet_call|intros [t|msg]]; [|apply quiet_ret].
      apply send_quiet. }
  destruct (Hq c) as [Hub Hex].
  match goal with |- context [match ?m c with _ => _ end] => destruct (m c) as [[r|e|] [n ex]] end;
    simpl in *; subst; [by eexists _, n..|done].
Qed.

Lemma perform_run u v b hs c :
  ∃ r n, perform u v b hs c =
    (Ret r, {| network := n; exchanges := exchanges c ++
       [{| ex_url := u; ex_verb := v; ex_body := b; ex_headers := hs; ex_response := r |}] |}).
Proof.
  destruct (impl_body_quiet u v b hs c) as (r & n & Hrun).
  exists r, n. unfold perform. by rewrite (bind_run _ _ _ _ _ Hrun).
Qed.

(** ** Specification: chains of redirects *)

(** The verb and the body of the request that follows a redirect. *)
Definition redirected (status : Z) (v : verb) (b : string) : verb * string :=
  if ((status =? 307) || (status =? 308))%Z then (v, b)
  else match v with
       | VPost | VPut | VPatch => (VGet, "")
       | VGet | VDelete | VHead => (v, "")
       end.

(** [e'] is the request the response of [e] redirects to. *)
Definition next_exchange (e e' : exchange) : Prop :=
  is_redirect (ex_response e) ∧
  (∃ base location next, parse_url base = Some (ex_url e) ∧
     location_of (ex_response e) = Some location ∧
     resolve_redirect base (chars_of location) = Some next ∧
     parse_url next = Some (ex_url e')) ∧
  (ex_verb e', ex_body e') =
    redirected (status_code (ex_response e)) (ex_verb e) (ex_body e) ∧
  ex_headers e' = ex_headers e.

Fixpoint chain (es : list exchange) : Prop :=
  match es with
  | e :: ((e' :: _) as es') => next_exchange e e' ∧ chain es'
  | _ => True
  end.

(** The first request of a call. *)
Definition starts (method url : string) (hs : header_map) (b : string) (es : list exchange) : Prop :=
  match es with
  | e :: _ => parse_url (chars_of url) = Some (ex_url e) ∧ ex_verb e = verb_of method ∧
              ex_body e = b ∧ ex_headers e = hs
  | [] => parse_url (chars_of url) = None
  end.

(** Why the last response is the result. *)
Definition final (options : http_options) (n : nat) (es : list exchange) (r : http_response)
    : Prop :=
  (∃ e, last es = Some e ∧ r = ex_response e ∧
        (follow_redirects options = false ∨ is_redirect r = false ∨ length es = S n ∨
         location_of r = None)) ∨
  (∃ url, r = failed ("Invalid URL: " ++ url) ∧ parse_url (chars_of url) = None ∧ length es ≤ n).

Lemma redirect_request_verb status method b :
  let '(m, b') := redirect_request status method b in
  (verb_of m, b') = redirected status (verb_of method) b.
Proof.
  unfold redirect_request, redirected, verb_of.
  destruct ((status =? 307) || (status =? 308))%Z; [done|].
  destruct (String.eqb_spec method "POST") as [->|]; [done|].
  destruct (String.eqb_spec method "PUT") as [->|]; [done|].
  destruct (String.eqb_spec method "PATCH") as [->|]; [done|]. simpl.
  destruct (String.eqb_spec method "DELETE") as [->|]; [done|].
  destruct (String.eqb_spec method "HEAD") as [->|]; [done|].
  rewrite !(proj2 (String.eqb_neq _ _)) by done. done.
Qed.

Lemma string_chars s : chars_of (string_of s) = s.
Proof. apply String.list_ascii_of_string_of_list_ascii. Qed.

Lemma resolve_some base location u :
  parse_url base = Some u → ∃ next, resolve_redirect base location = Some next.
Proof.
  intros Hu. unfold resolve_redirect. destruct (_ || _); [by eexists|]. rewrite Hu.
  cbn [mbind option_bind]. destruct location as [|ch l]; [by eexists|].
  destruct (is_char _ _); by eexists.
Qed.

Lemma do_request_chain options n method url hs b c :
  ∃ r es nw, do_request options n method url hs b c =
      (Ret r, {| network := nw; exchanges := exchanges c ++ es |}) ∧
    length es ≤ S n ∧ starts method url hs b es ∧ chain es ∧ final options n es r.
Proof.
  revert method url b c. induction n as [|n IH]; intros method url b c; cbn [do_request];
    (destruct (parse_url (chars_of url)) as [u|] eqn:Hu;
     [|exists (failed ("Invalid URL: " ++ url)), [], (network c); rewrite app_nil_r;
       split_and!; [by destruct c|simpl; lia|exact Hu|exact I|];
       right; exists url; split_and!; [done|done|simpl; lia]]);
    destruct (perform_run u (verb_of method) b hs c) as (r & nw & Hrun);
    rewrite (bind_run _ _ _ _ _ Hrun); set (e := Build_exchange _ _ _ _ _) in *;
    (assert (Hone : ∀ n', follow_redirects options = false ∨ is_redirect r = false ∨
          1 = S n' ∨ location_of r = None →
        ∃ r' es nw', (mret r : M (client N) http_response)
            {| network := nw; exchanges := exchanges c ++ [e] |} =
            (Ret r', {| network := nw'; exchanges := exchanges c ++ es |}) ∧
          length es ≤ S n' ∧ starts method url hs b es ∧ chain es ∧ final options n' es r') by
      (intros n' Hwhy; exists r, [e], nw; split_and!; [done|simpl; lia|done|exact I|];
       left; exists e; done));
    destruct (follow_redirects options) eqn:Hfo; cbn [andb]; try (apply Hone; by left);
    destruct (is_redirect r) eqn:Hre; try (apply Hone; by right; left).
  - apply Hone. right; right; by left.
  - destruct (location_of r) as [location|] eqn:Hloc; [|apply Hone; right; right; by right].
    destruct (resolve_some (chars_of url) (chars_of location) u Hu) as [next Hnext]. rewrite Hnext.
    pose proof (redirect_request_verb (status_code r) method b) as Hrv.
    destruct (redirect_request (status_code r) method b) as [m b'].
    destruct (IH m (string_of next) b' {| network := nw; exchanges := exchanges c ++ [e] |})
      as (r' & es & nw' & -> & Hlen & Hst & Hch & Hfin).
    exists r', (e :: es), nw'. cbn [exchanges]. rewrite <- (assoc_L (++)).
    split_and!; [done|simpl; lia|done| |].
    + destruct es as [|e' es]; [done|]. split; [|done].
      destruct Hst as (Hu' & Hv & Hb & Hh). split_and!; [by (simpl; rewrite Hre)| | |by rewrite Hh].
      * exists (chars_of url), location, next. rewrite string_chars in Hu'. done.
      * by rewrite Hv, Hb.
    + destruct Hfin as [(e' & Hlast & Hr' & Hwhy)|(url' & Hr' & Hinv & Hl)]; [left|right].
      * exists e'. split_and!; [|done|simpl; naive_solver].
        destruct es; [done|]. by rewrite last_cons_cons.
      * exists url'. split_and!; [done..|simpl; lia].
Qed.

End lemmas.

(** ** What a response says *)

Section responses.
Context {N : Type} `{NW : Network N}.
Implicit Types (c : client N).

(** Every value [m] returns is in [Q]. *)
Definition results {A} (Q : A → Prop) (m : M (client N) A) : Prop :=
  ∀ c, match fst (m c) with Ret a => Q a | _ => True end.

Lemma results_ret {A} (Q : A → Prop) a : Q a → results Q (mret a).
Proof. by intros Ha c. Qed.

Lemma results_bind {A B} (Q : B → Prop) (m : M (client N) A) (k : A → M (client N) B) :
  (∀ a, results Q (k a)) → results Q (m ≫= k).
Proof.
  intros Hk c. rewrite bind_unfold. destruct (m c) as [[a|e|] c']; [apply Hk|done..].
Qed.

Definition status_success (r : http_response) : Prop :=
  success r = ((200 <=? status_code r) && (status_code r <? 300))%Z.

Lemma send_success u v b hs : results status_success (send_and_receive u v b hs).
Proof.
  unfold send_and_receive. apply results_bind. intros [w|msg]; [|by apply results_ret].
  apply results_bind. intros [[e rep]|msg]; [|by apply results_ret].
  destruct (read_ok e); by apply results_ret.
Qed.

Lemma impl_success u v b hs : results status_success (impl_do_request u v b hs).
Proof.
  intros c. unfold impl_do_request, catch.
  match goal with |- context [match ?m c with _ => _ end] =>
    assert (Hq : results status_success m) end.
  { apply results_bind. intros [w|msg]; [|by apply results_ret]. case_bool_decide.
    - apply results_bind. intros [[]|msg]; [|by apply results_ret..].
      do 3 (apply results_bind; intros [?|msg]; [|by apply results_ret]). apply send_success.
    - apply results_bind. intros [?|msg]; [|by apply results_ret]. apply send_success. }
  specialize (Hq c).
  match goal with |- context [match ?m c with _ => _ end] => by destruct (m c) as [[r|e|] c'] end.
Qed.

Lemma do_request_success options n method url hs b :
  results status_success (do_request options n method url hs b).
Proof.
  revert method url b. induction n as [|n IH]; intros method url b; cbn [do_request];
    (destruct (parse_url (chars_of url)) as [u|]; [|by apply results_ret]); intros c;
    (assert (Hp : results status_success (perform u (verb_of method) b hs)) by
      (intros c'; unfold perform; rewrite bind_unfold;
       pose proof (impl_success u (verb_of method) b hs c') as Hi;
       by destruct (impl_do_request u (verb_of method) b hs c') as [[r|e|] c'']));
    specialize (Hp c); rewrite bind_unfold;
    destruct (perform u (verb_of method) b hs c) as [[r|e|] c']; try done;
    destruct (follow_redirects options && is_redirect r); try exact Hp.
  destruct (location_of r); [|exact Hp]. destruct (resolve_redirect _ _) as [next|]; [|done].
  destruct (redirect_request (status_code r) method b) as [m b']. apply IH.
Qed.

Lemma first_header_none name l :
  name ∉ l.*1 → first_header l name = None.
Proof.
  induction l as [|[k v] l IH]; [done|]. cbn [fmap list_fmap fst first_header].
  intros [Hk Hl]%not_elem_of_cons. rewrite (proj2 (String.eqb_neq k name)) by done. auto.
Qed.

(** ** The theorems *)

(** C28. A request of the client always comes back, with at most
    [max_redirects + 1] requests on the network. They form a chain: the first has
    the given URL, method, body and headers; each next one goes where the
    [Location] of a redirect resolves, with the method and body the status code
    asks for (307 and 308 keep both, otherwise POST, PUT and PATCH become GET and
    the body is dropped) and the same headers. The result is the last response,
    when it is not a redirect, redirects are not followed, none is left or it has no
    [Location], or an error for the first URL that does not parse. *)
Theorem requests_follow_chain options method url hs b c :
  ∃ r es nw, do_request options (redirects options) method url hs b c =
      (Ret r, {| network := nw; exchanges := exchanges c ++ es |}) ∧
    length es ≤ S (Z.to_nat (max_redirects options)) ∧
    starts method url hs b es ∧ chain es ∧ final options (redirects options) es r.
Proof. apply do_request_chain. Qed.

(** [success] means a 2xx status: on every response a request returns, errors
    included, [success] is true exactly when the status code is from 200 to 299. *)
Theorem success_is_2xx options n method url hs b c r c'
  (Hrun : do_request options n method url hs b c = (Ret r, c')) :
  success r = true ↔ (200 <= status_code r < 300)%Z.
Proof.
  pose proof (do_request_success options n method url hs b c) as Hs. rewrite Hrun in Hs.
  simpl in Hs. rewrite Hs, andb_true_iff, Z.leb_le, Z.ltb_lt. done.
Qed.

(** A 303 response is not followed, although the comment on the rewriting of
    methods lists it: the request ends with it, whatever the options. *)
Theorem see_other_not_followed options n method url u hs b c r c'
  (Hurl : parse_url (chars_of url) = Some u)
  (Hrun : perform u (verb_of method) b hs c = (Ret r, c'))
  (Hstatus : status_code r = 303%Z) :
  do_request options n method url hs b c = (Ret r, c').
Proof.
  assert (Hre : is_redirect r = false) by (unfold is_redirect; by rewrite Hstatus).
  destruct n; cbn [do_request]; rewrite Hurl, (bind_run _ _ _ _ _ Hrun), Hre, andb_false_r; done.
Qed.

(** [get_headers] distinguishes case: the loop after the lookup never finds
    anything, so a [LOCATION] header is not a location. *)
Theorem get_headers_exact r name : get_headers r name = headers r !! name.
Proof.
  unfold get_headers. destruct (headers r !! name) as [v|] eqn:Hl; [done|].
  apply first_header_none. unfold entries. intros Hin.
  assert (Hm : name ∈ (map_to_list (headers r)).*1).
  { revert Hin. generalize (map_to_list (headers r)). intros l.
    assert (Hp : (merge_sort key_le l).*1 ≡ₚ l.*1) by (by rewrite merge_sort_Permutation).
    by rewrite Hp. }
  apply list_elem_of_fmap in Hm as ([k v] & -> & Hkv%elem_of_map_to_list). simpl in Hl. congruence.
Qed.

End responses.

(** ** A scripted network *)

(** Every phase succeeds and each read gives the next reply. *)
Definition script := list reply.
#[export] Instance scripted : Network script := {
  net_resolve _ _ n := (NetOk tt, n);
  net_tls n := (NetOk true, n);
  net_sni _ n := (NetOk tt, n);
  net_connect n := (NetOk tt, n);
  net_handshake n := (NetOk tt, n);
  net_write _ n := (NetOk tt, n);
  net_read _ n := match n with r :: n' => (NetOk (ReadOk, r), n') | [] => (NetThrow "closed", []) end
}.

Definition moved (status : Z) (location : string) : reply :=
  {| result_int := status; reply_body := ""; reply_fields := [("Location", location)] |}.
Definition okay (b : string) : reply :=
  {| result_int := 200; reply_body := b; reply_fields := [] |}.

Definition set_restrict (restrict : bool) (o : http_options) : http_options :=
  {| timeout := timeout o; max_redirects := max_redirects o;
     follow_redirects := follow_redirects o; restrict_redirect_to_same_host := restrict |}.

(** [restrict_redirect_to_same_host] has no effect: the same requests
    are made with and without it, and the [Authorization] header of a request is sent
    to any host its response redirects to. *)
Theorem restrict_redirect_ignored :
  (∀ {N} `{NW : Network N} options restrict n method url hs b (c : client N),
     do_request (set_restrict restrict options) n method url hs b c =
     do_request options n method url hs b c) ∧
  (let hs : header_map := {[ "Authorization" := "Bearer secret" ]} in
   let c := {| network := [moved 302 "https://other.example/"; okay "stolen"]; exchanges := [] |} in
   (λ e, (string_of (host (ex_url e)), ex_headers e)) <$>
     exchanges (exec (Get (set_restrict true default_options) "https://api.example/" hs) c) =
   [("api.example", hs); ("other.example", hs)]).
Proof.
  split; [|vm_compute; reflexivity].
  intros N NW options restrict n. induction n as [|n IH]; intros method url hs b c;
    cbn [do_request]; destruct (parse_url _); try done; rewrite !bind_unfold;
    destruct (perform _ _ _ _ c) as [[r|e|] c']; try done.
  cbn [set_restrict follow_redirects]. destruct (follow_redirects options && is_redirect r); [|done].
  destruct (location_of r); [|done]. destruct (resolve_redirect _ _) as [next|]; [|done].
  destruct (redirect_request (status_code r) method b) as [m b']. apply IH.
Qed.

(** ** Witnesses *)

Lemma requests_follow_chain_witness :
  ∃ r es nw, Get default_options "http://a/x" ∅
      {| network := [moved 301 "/y"; okay "done"]; exchanges := [] |} =
    (Ret r, {| network := nw; exchanges := es |}) ∧ length es ≤ 6 ∧ chain es.
Proof.
  destruct (requests_follow_chain default_options "GET" "http://a/x" ∅ ""
              {| network := [moved 301 "/y"; okay "done"]; exchanges := [] |})
    as (r & es & nw & Hrun & Hlen & _ & Hch & _).
  exists r, es, nw. split_and!; [exact Hrun|exact Hlen|exact Hch].
Defined.

Definition sample_result : outcome http_response * client script :=
  Get default_options "http://a/x" ∅ {| network := [okay "done"]; exchanges := [] |}.

Definition sample_response : http_response :=
  {| status_code := 200; body := "done"; headers := ∅; success := true; error_message := "" |}.

Lemma success_is_2xx_witness : (200 <= status_code sample_response < 300)%Z.
Proof.
  apply (success_is_2xx default_options 5 "GET" "http://a/x" ∅ ""
           {| network := [okay "done"]; exchanges := [] |} sample_response (snd sample_result)).
  - vm_compute. reflexivity.
  - reflexivity.
Defined.

Definition sample_303 : client script :=
  {| network := [moved 303 "/y"; okay "done"]; exchanges := [] |}.
Definition sample_url : Url :=
  {| protocol := chars_of "http"; host := chars_of "a"; port := chars_of "80";
     path := chars_of "/x" |}.

Lemma see_other_not_followed_witness :
  ∃ r, fst (do_request default_options 5 "POST" "http://a/x" ∅ "b" sample_303) = Ret r ∧
       status_code r = 303%Z.
Proof.
  eexists. split.
  - erewrite (see_other_not_followed default_options 5 "POST" "http://a/x" sample_url ∅ "b"
                sample_303).
    + reflexivity.
    + vm_compute. reflexivity.
    + vm_compute. reflexivity.
    + vm_compute. reflexivity.
  - vm_compute. reflexivity.
Defined.

(** ** The interface to the services *)

(** What the services use of an HTTP client: [Post] always comes back. *)
Class HttpPost (N : Type) : Type :=
  http_post : string → header_map → string → N → http_response * N.

#[export] Instance client_post {N} `{Network N} : HttpPost (client N) := λ url hs b c,
  match Post default_options url hs b c with
  | (Ret r, c') => (r, c')
  | (_, c') => (failed "", c')
  end.

(** The instance is the client: the branch that is not [Ret] is never taken. *)
Lemma client_post_run {N} `{Network N} url hs b (c : client N) :
  let '(r, c') := http_post url hs b c in Post default_options url hs b c = (Ret r, c').
Proof.
  unfold http_post, client_post, Post.
  destruct (do_request_chain default_options (redirects default_options) "POST" url hs b c)
    as (r & es & nw & -> & _). done.
Qed.

End HttpClient.
