(* ===== verification/Auth.v ===== *)
(** * AuthService *)

(** The HTTP side of the gateway: signing up and logging in the administrator,
    registering the vehicle and logging it in, and the file its credentials are
    kept in ([src/services/auth_services.h], [auth_services.cc]). The HTTP client
    is the interface [HttpPost]; the posts made are logged. *)

From S2P Require Import Prelude Double Json JsonModel Config HttpClient.

Module AuthService.
Import HttpClient.

(** The credentials file, and whether its directory can be made and the file be
    opened for writing. *)
Record disk : Type := {
  credentials : option string;
  can_create_directories : bool;
  can_write : bool
}.

Record AuthService : Type := {
  token_ : string;
  vehicle_registered_ : bool;
  vechile_api_key_ : string;
  vechile_api_secret_ : string;
  vechile_access_token_ : string;
  vechile_authenticated_ : bool;
  json_headers_ : header_map;
  auth_headers_ : header_map
}.

Definition new_AuthService : AuthService :=
  {| token_ := ""; vehicle_registered_ := false; vechile_api_key_ := "";
     vechile_api_secret_ := ""; vechile_access_token_ := ""; vechile_authenticated_ := false;
     json_headers_ := {[ "Content-Type" := "application/json" ]}; auth_headers_ := ∅ |}.

Definition set_token (t : string) (a : AuthService) : AuthService :=
  {| token_ := t; vehicle_registered_ := vehicle_registered_ a;
     vechile_api_key_ := vechile_api_key_ a; vechile_api_secret_ := vechile_api_secret_ a;
     vechile_access_token_ := vechile_access_token_ a;
     vechile_authenticated_ := vechile_authenticated_ a; json_headers_ := json_headers_ a;
     auth_headers_ := auth_headers_ a |}.
Definition set_registered (b : bool) (a : AuthService) : AuthService :=
  {| token_ := token_ a; vehicle_registered_ := b;
     vechile_api_key_ := vechile_api_key_ a; vechile_api_secret_ := vechile_api_secret_ a;
     vechile_access_token_ := vechile_access_token_ a;
     vechile_authenticated_ := vechile_authenticated_ a; json_headers_ := json_headers_ a;
     auth_headers_ := auth_headers_ a |}.
Definition set_api_key (k : string) (a : AuthService) : AuthService :=
  {| token_ := token_ a; vehicle_registered_ := vehicle_registered_ a;
     vechile_api_key_ := k; vechile_api_secret_ := vechile_api_secret_ a;
     vechile_access_token_ := vechile_access_token_ a;
     vechile_authenticated_ := vechile_authenticated_ a; json_headers_ := json_headers_ a;
     auth_headers_ := auth_headers_ a |}.
Definition set_api_secret (k : string) (a : AuthService) : AuthService :=
  {| token_ := token_ a; vehicle_registered_ := vehicle_registered_ a;
     vechile_api_key_ := vechile_api_key_ a; vechile_api_secret_ := k;
     vechile_access_token_ := vechile_access_token_ a;
     vechile_authenticated_ := vechile_authenticated_ a; json_headers_ := json_headers_ a;
     auth_headers_ := auth_headers_ a |}.
Definition set_access_token (t : string) (a : AuthService) : AuthService :=
  {| token_ := token_ a; vehicle_registered_ := vehicle_registered_ a;
     vechile_api_key_ := vechile_api_key_ a; vechile_api_secret_ := vechile_api_secret_ a;
     vechile_access_token_ := t;
     vechile_authenticated_ := vechile_authenticated_ a; json_headers_ := json_headers_ a;
     auth_headers_ := auth_headers_ a |}.
Definition set_authenticated (b : bool) (a : AuthService) : AuthService :=
  {| token_ := token_ a; vehicle_registered_ := vehicle_registered_ a;
     vechile_api_key_ := vechile_api_key_ a; vechile_api_secret_ := vechile_api_secret_ a;
     vechile_access_token_ := vechile_access_token_ a; vechile_authenticated_ := b;
     json_headers_ := json_headers_ a; auth_headers_ := auth_headers_ a |}.
Definition set_auth_headers (h : header_map) (a : AuthService) : AuthService :=
  {| token_ := token_ a; vehicle_registered_ := vehicle_registered_ a;
     vechile_api_key_ := vechile_api_key_ a; vechile_api_secret_ := vechile_api_secret_ a;
     vechile_access_token_ := vechile_access_token_ a;
     vechile_authenticated_ := vechile_authenticated_ a; json_headers_ := json_headers_ a;
     auth_headers_ := h |}.

(** The endpoints, below [base_url]. *)
Inductive endpoint : Type :=
| LoginEndpoint | SignupEndpoint | VerifyEndpoint | VehiclesEndpoint | VehicleLoginEndpoint.

#[export] Instance endpoint_eq_dec : EqDecision endpoint.
Proof. solve_decision. Defined.

Definition login_path : string := "/api/auth/login".
Definition signup_path : string := "/api/auth/admin/signup".
Definition verify_path : string := "/api/auth/verify-code".
Definition vehicles_path : string := "/api/vehicles".
Definition vehicle_login_path : string := "/api/auth/vehicle/login".

Definition endpoint_path (e : endpoint) : string :=
  match e with
  | LoginEndpoint => login_path
  | SignupEndpoint => signup_path
  | VerifyEndpoint => verify_path
  | VehiclesEndpoint => vehicles_path
  | VehicleLoginEndpoint => vehicle_login_path
  end.

Section auth.
Context `{JL : JsonLib} {N : Type} `{HP : HttpPost N}.
Variable config_ : Config.Config.

Record world : Type := {
  auth : AuthService;
  http : N;
  file : disk;
  posts : list (endpoint * header_map * string * http_response)
}.

Definition set_auth (f : AuthService → AuthService) (w : world) : world :=
  {| auth := f (auth w); http := http w; file := file w; posts := posts w |}.
Definition set_file (s : option string) (w : world) : world :=
  {| auth := auth w; http := http w;
     file := {| credentials := s; can_create_directories := can_create_directories (file w);
                can_write := can_write (file w) |};
     posts := posts w |}.

(** [http_client_.Post(config_.base_url + path, headers, body)]. *)
Definition post (e : endpoint) (hs : header_map) (b : string) : M world http_response := λ w,
  let '(r, n) := http_post (Config.base_url config_ ++ endpoint_path e) hs b (http w) in
  (Ret r, {| auth := auth w; http := n; file := file w; posts := posts w ++ [(e, hs, b, r)] |}).

(** [j.at("data").at(key).get<std::string>()]. *)
Definition data_string (j : json) (key : string) : option string :=
  d ← json_at j "data"; v ← json_at d key; get_string v.

(** [if (x) return false; ...] inside [try { ... } catch (...) { return false; }]. *)
Definition or_false (m : M world bool) : M world bool := catch m (λ _, mret false).

Definition login_fields : fields :=
  [("email", FString (Config.admin_email config_));
   ("password", FString (Config.admin_password config_))].

Definition login : M world bool :=
  or_false
    (body ← json_try (json_dump (object login_fields));
     hs ← gets (λ w, json_headers_ (auth w));
     resp ← post LoginEndpoint hs body;
     if negb (success resp) || String.eqb (HttpClient.body resp) "" then mret false
     else
       j ← json_try (json_parse (HttpClient.body resp));
       ok ← json_try (value_bool j "success" false);
       if (ok : bool)
       then
         t ← json_try (data_string j "accessToken");
         modify (set_auth (set_token t)) ;;
         mret true
       else mret false).

Definition ensure_auth_headers : M world unit :=
  a ← gets auth;
  if String.eqb (token_ a) "" then mret tt
  else modify (set_auth (set_auth_headers
                (<["Authorization" := ("Bearer " ++ token_ a)%string]> (json_headers_ a)))).

Definition credentials_fields (a : AuthService) : fields :=
  [("apiKey", FString (vechile_api_key_ a)); ("apiSecret", FString (vechile_api_secret_ a));
   ("accessToken", FString (vechile_access_token_ a))].

(** Opening the [ofstream] truncates the file before the text is made. *)
Definition save_vehicle_credentials : M world bool :=
  or_false
    (w ← get;
     (if can_create_directories (file w) then mret tt
      else throw (StdException "filesystem error")) ;;
     if can_write (file w)
     then
       modify (set_file (Some "")) ;;
       text ← json_try (json_dump2 (object (credentials_fields (auth w))));
       modify (set_file (Some text)) ;;
       mret true
     else mret false).

Definition load_vehicle_credentials : M world bool :=
  or_false
    (w ← get;
     match credentials (file w) with
     | None => mret false
     | Some text =>
         j ← json_try (json_parse text);
         k ← json_try (at_string j "apiKey");
         modify (set_auth (set_api_key k)) ;;
         s ← json_try (at_string j "apiSecret");
         modify (set_auth (set_api_secret s)) ;;
         t ← json_try (value_string j "accessToken" "");
         modify (set_auth (set_access_token t)) ;;
         mret true
     end).

Definition vehicle_fields : fields :=
  [("vinNumber", FString (Config.vin_number config_));
   ("plateNo", FString (Config.plate_no config_));
   ("color", FString (Config.color config_));
   ("carCompany", FString (Config.car_company config_));
   ("model", FString (Config.model config_));
   ("seats", FInt (Config.seat_no config_))].

(** The branch of [create_vehicle] for status 201. *)
Definition vehicle_created (text : string) : M world bool :=
  modify (set_auth (set_registered true)) ;;
  catch
    (j ← json_try (json_parse text);
     k ← json_try (data_string j "apiKey");
     modify (set_auth (set_api_key k)) ;;
     s ← json_try (data_string j "apiSecret");
     modify (set_auth (set_api_secret s)) ;;
     save_vehicle_credentials ;;
     mret true)
    (λ _, mret false).

(** [create_vehicle(retry_after_login, retry_after_network)]. Each recursive call
    sets a flag, or clears the second one while setting the first, so four calls
    are enough. *)
Fixpoint create_vehicle_loop (fuel : nat) (retry_after_login retry_after_network : bool)
    : M world bool :=
  match fuel with
  | O => undefined
  | S fuel' =>
      a ← gets auth;
      if vehicle_registered_ a then mret true
      else if String.eqb (token_ a) "" then mret false
      else
        ensure_auth_headers ;;
        hs ← gets (λ w, auth_headers_ (auth w));
        body ← json_try (json_dump (object vehicle_fields));
        resp ← post VehiclesEndpoint hs body;
        if (status_code resp =? 201)%Z then vehicle_created (HttpClient.body resp)
        else if (status_code resp =? 409)%Z then
          loaded ← load_vehicle_credentials;
          if (loaded : bool) then modify (set_auth (set_registered true)) ;; mret true
          else mret false
        else if (status_code resp =? 401)%Z then
          if retry_after_login then mret false
          else
            modify (set_auth (set_token "")) ;;
            logged ← login;
            if (logged : bool) then create_vehicle_loop fuel' true false else mret false
        else if negb (success resp) then
          if retry_after_network then mret false
          else create_vehicle_loop fuel' retry_after_login true
        else mret false
  end.

Definition create_vehicle (retry_after_login retry_after_network : bool) : M world bool :=
  create_vehicle_loop 4 retry_after_login retry_after_network.

Definition vehicle_login_fields (a : AuthService) : fields :=
  [("apiKey", FString (vechile_api_key_ a)); ("apiSecret", FString (vechile_api_secret_ a))].

(** The [try] block of [vechile_login]. *)
Definition vehicle_login_request : M world bool :=
  or_false
    (a ← gets auth;
     body ← json_try (json_dump (object (vehicle_login_fields a)));
     resp ← post VehicleLoginEndpoint (json_headers_ a) body;
     if negb (success resp) || String.eqb (HttpClient.body resp) "" then mret false
     else
       j ← json_try (json_parse (HttpClient.body resp));
       ok ← json_try (value_bool j "success" false);
       if (ok : bool)
       then
         t ← json_try (data_string j "accessToken");
         modify (set_auth (set_access_token t)) ;;
         save_vehicle_credentials ;;
         modify (set_auth (set_authenticated true)) ;;
         mret true
       else mret false).

Definition vechile_login : M world bool :=
  a ← gets auth;
  if vechile_authenticated_ a then mret true
  else if String.eqb (vechile_api_key_ a) "" || String.eqb (vechile_api_secret_ a) ""
  then
    loaded ← load_vehicle_credentials;
    if (loaded : bool) then vehicle_login_request else mret false
  else vehicle_login_request.

Definition verify_fields : fields :=
  [("email", FString (Config.admin_email config_));
   ("code", FString (Config.verify_code config_))].

Definition verify_code : M world bool :=
  or_false
    (body ← json_try (json_dump (object verify_fields));
     hs ← gets (λ w, json_headers_ (auth w));
     resp ← post VerifyEndpoint hs body;
     mret (status_code resp =? 200)%Z).

Definition signup_fields : fields :=
  [("email", FString (Config.admin_email config_));
   ("password", FString (Config.admin_password config_));
   ("firstName", FString (Config.admin_first_name config_));
   ("lastName", FString (Config.admin_last_name config_));
   ("phoneNumber", FString (Config.admin_phone config_))].

Definition signup : M world bool :=
  or_false
    (body ← json_try (json_dump (object signup_fields));
     hs ← gets (λ w, json_headers_ (auth w));
     resp ← post SignupEndpoint hs body;
     mret ((status_code resp =? 201) || (status_code resp =? 409))%Z).

Definition setup : M world bool :=
  a ← gets auth;
  if negb (String.eqb (token_ a) "") then mret true
  else
    logged ← login;
    if (logged : bool) then mret true
    else
      signed ← signup;
      if (signed : bool)
      then
        verified ← verify_code;
        if (verified : bool) then login else mret false
      else mret false.

(** [vehicle_access_token]. *)
Definition vehicle_access_token (w : world) : string := vechile_access_token_ (auth w).

End auth.

Arguments world : clear implicits.

(** ** What the replies mean *)

Section meaning.
Context `{JL : JsonLib}.

(** The token a login reply grants. *)
Definition token_in (text : string) : option string :=
  j ← json_parse text;
  ok ← value_bool j "success" false;
  if (ok : bool) then data_string j "accessToken" else None.

Definition accepted (r : http_response) : option string :=
  if negb (success r) || String.eqb (HttpClient.body r) "" then None
  else token_in (HttpClient.body r).

Definition signed_up (r : http_response) : bool :=
  ((status_code r =? 201) || (status_code r =? 409))%Z.
Definition verified (r : http_response) : bool := (status_code r =? 200)%Z.

(** The texts the configuration puts in requests are UTF-8. *)
Definition config_utf8 (c : Config.Config) : Prop :=
  utf8 (Config.admin_email c) ∧ utf8 (Config.admin_password c) ∧
  utf8 (Config.admin_first_name c) ∧ utf8 (Config.admin_last_name c) ∧
  utf8 (Config.admin_phone c) ∧ utf8 (Config.verify_code c) ∧
  utf8 (Config.vin_number c) ∧ utf8 (Config.plate_no c) ∧ utf8 (Config.color c) ∧
  utf8 (Config.car_company c) ∧ utf8 (Config.model c).

(** [setup] from a service with token [t]: the endpoints contacted with their
    replies, the result and the token after it. *)
Definition setup_outcome (t : string) (ps : list (endpoint * http_response)) (b : bool)
    (t' : string) : Prop :=
  match ps with
  | [] => t ≠ "" ∧ b = true ∧ t' = t
  | [(LoginEndpoint, r1)] => t = "" ∧ accepted r1 = Some t' ∧ b = true
  | [(LoginEndpoint, r1); (SignupEndpoint, r2)] =>
      t = "" ∧ accepted r1 = None ∧ signed_up r2 = false ∧ b = false ∧ t' = t
  | [(LoginEndpoint, r1); (SignupEndpoint, r2); (VerifyEndpoint, r3)] =>
      t = "" ∧ accepted r1 = None ∧ signed_up r2 = true ∧ verified r3 = false ∧ b = false ∧ t' = t
  | [(LoginEndpoint, r1); (SignupEndpoint, r2); (VerifyEndpoint, r3); (LoginEndpoint, r4)] =>
      t = "" ∧ accepted r1 = None ∧ signed_up r2 = true ∧ verified r3 = true ∧
      match accepted r4 with
      | Some t4 => b = true ∧ t' = t4
      | None => b = false ∧ t' = t
      end
  | _ => False
  end.

End meaning.

(** ** The operations run *)

Section runs.
Context `{JL : JsonLaws} {N : Type} `{HP : HttpPost N}.
Variable cfg : Config.Config.
Implicit Types w : world N.

(** The world after a post and the reply. *)
Definition posted (e : endpoint) (hs : header_map) (b : string) w : world N :=
  let '(r, n) := http_post (Config.base_url cfg ++ endpoint_path e) hs b (http w) in
  {| auth := auth w; http := n; file := file w; posts := posts w ++ [(e, hs, b, r)] |}.
Definition reply_to (e : endpoint) (hs : header_map) (b : string) w : http_response :=
  fst (http_post (Config.base_url cfg ++ endpoint_path e) hs b (http w)).

Lemma post_run e hs b w : post cfg e hs b w = (Ret (reply_to e hs b w), posted e hs b w).
Proof. unfold post, posted, reply_to. by destruct (http_post _ _ _ _). Qed.

Lemma posted_posts e hs b w : posts (posted e hs b w) = posts w ++ [(e, hs, b, reply_to e hs b w)].
Proof. unfold posted, reply_to. by destruct (http_post _ _ _ _). Qed.

Lemma posted_auth e hs b w : auth (posted e hs b w) = auth w.
Proof. unfold posted. by destruct (http_post _ _ _ _). Qed.

Lemma posted_file e hs b w : file (posted e hs b w) = file w.
Proof. unfold posted. by destruct (http_post _ _ _ _). Qed.

(** The body of an object whose texts are UTF-8. *)
Lemma dumps fs : fields_utf8 fs → ∃ s, json_dump (object fs) = Some s.
Proof. apply dump_object. Qed.

(** Keys are ASCII. *)
Lemma field_ok k f (fs : fields) :
  ascii_text k → field_utf8 f → fields_utf8 fs → fields_utf8 ((k, f) :: fs).
Proof. intros Hk Hf Hfs. constructor; [|done]. split; [by apply utf8_ascii|done]. Qed.

Lemma no_fields : fields_utf8 [].
Proof. constructor. Qed.

Lemma login_run w s :
  json_dump (object (login_fields cfg)) = Some s →
  let hs := json_headers_ (auth w) in
  let w1 := posted LoginEndpoint hs s w in
  login cfg w =
  match accepted (reply_to LoginEndpoint hs s w) with
  | Some t => (Ret true, set_auth (set_token t) w1)
  | None => (Ret false, w1)
  end.
Proof.
  intros Hs. cbv zeta. unfold login, or_false, catch. rewrite bind_json_try, Hs.
  rewrite bind_unfold. cbn [gets]. rewrite bind_unfold, post_run.
  unfold accepted. destruct (negb _ || _); [done|]. unfold token_in.
  rewrite bind_json_try. destruct (json_parse _) as [j|]; [|done]. cbn [mbind option_bind].
  rewrite bind_json_try. destruct (value_bool j "success" false) as [[]|]; [|done..].
  cbn [mbind option_bind]. rewrite bind_json_try. by destruct (data_string j "accessToken").
Qed.

Lemma verify_run w s :
  json_dump (object (verify_fields cfg)) = Some s →
  let hs := json_headers_ (auth w) in
  verify_code cfg w =
  (Ret (verified (reply_to VerifyEndpoint hs s w)), posted VerifyEndpoint hs s w).
Proof.
  intros Hs. cbv zeta. unfold verify_code, or_false, catch. rewrite bind_json_try, Hs.
  rewrite bind_unfold. cbn [gets]. by rewrite bind_unfold, post_run.
Qed.

Lemma signup_run w s :
  json_dump (object (signup_fields cfg)) = Some s →
  let hs := json_headers_ (auth w) in
  signup cfg w =
  (Ret (signed_up (reply_to SignupEndpoint hs s w)), posted SignupEndpoint hs s w).
Proof.
  intros Hs. cbv zeta. unfold signup, or_false, catch. rewrite bind_json_try, Hs.
  rewrite bind_unfold. cbn [gets]. by rewrite bind_unfold, post_run.
Qed.

(** The endpoints and replies added to the log. *)
Definition added (w w' : world N) (ps : list (endpoint * http_response)) : Prop :=
  ∃ l, posts w' = posts w ++ l ∧ (λ p, (p.1.1.1, p.2)) <$> l = ps.

Lemma added_posted e hs b w : added w (posted e hs b w) [(e, reply_to e hs b w)].
Proof. exists [(e, hs, b, reply_to e hs b w)]. by rewrite posted_posts. Qed.

Lemma added_nil w : added w w [].
Proof. exists []. by rewrite app_nil_r. Qed.

Lemma added_trans w w' w'' ps ps' : added w w' ps → added w' w'' ps' → added w w'' (ps ++ ps').
Proof.
  intros (l & Hl & <-) (l' & Hl' & <-). exists (l ++ l').
  by rewrite Hl', Hl, fmap_app, (assoc_L (++)).
Qed.

Lemma added_auth w w' f ps : added w w' ps → added w (set_auth f w') ps.
Proof. done. Qed.

Lemma setup_run w :
  config_utf8 cfg →
  ∃ b w' ps, setup cfg w = (Ret b, w') ∧ added w w' ps ∧
    setup_outcome (token_ (auth w)) ps b (token_ (auth w')).
Proof.
  intros (He & Hp & Hf & Hl & Hph & Hv & _).
  destruct (dumps (login_fields cfg)) as [s1 Hs1]; [by repeat apply field_ok; try apply no_fields|].
  destruct (dumps (signup_fields cfg)) as [s2 Hs2]; [by repeat apply field_ok; try apply no_fields|].
  destruct (dumps (verify_fields cfg)) as [s3 Hs3]; [by repeat apply field_ok; try apply no_fields|].
  unfold setup. rewrite bind_unfold. cbn [gets].
  destruct (String.eqb_spec (token_ (auth w)) "") as [Ht|Ht]; cbn [negb].
  2: { exists true, w, []. split_and!; [done|apply added_nil|done]. }
  rewrite bind_unfold, (login_run w s1 Hs1). cbv zeta.
  set (r1 := reply_to LoginEndpoint _ s1 w). set (w1 := posted LoginEndpoint _ s1 w).
  assert (H1 : added w w1 [(LoginEndpoint, r1)]) by apply added_posted.
  destruct (accepted r1) as [t1|] eqn:Ha1.
  { by exists true, (set_auth (set_token t1) w1), [(LoginEndpoint, r1)]. }
  rewrite bind_unfold, (signup_run w1 s2 Hs2). cbv zeta.
  set (r2 := reply_to SignupEndpoint _ s2 w1). set (w2 := posted SignupEndpoint _ s2 w1).
  assert (H2 : added w w2 [(LoginEndpoint, r1); (SignupEndpoint, r2)])
    by exact (added_trans _ _ _ _ _ H1 (added_posted _ _ _ _)).
  assert (Ht2 : token_ (auth w2) = token_ (auth w)) by (unfold w2, w1; by rewrite !posted_auth).
  destruct (signed_up r2) eqn:Hsu.
  2: { do 3 eexists. split_and!; [done|exact H2|done]. }
  rewrite bind_unfold, (verify_run w2 s3 Hs3). cbv zeta.
  set (r3 := reply_to VerifyEndpoint _ s3 w2). set (w3 := posted VerifyEndpoint _ s3 w2).
  assert (H3 : added w w3 [(LoginEndpoint, r1); (SignupEndpoint, r2); (VerifyEndpoint, r3)])
    by exact (added_trans _ _ _ _ _ H2 (added_posted _ _ _ _)).
  assert (Ht3 : token_ (auth w3) = token_ (auth w)) by (unfold w3; by rewrite posted_auth).
  destruct (verified r3) eqn:Hve.
  2: { do 3 eexists. split_and!; [done|exact H3|done]. }
  rewrite (login_run w3 s1 Hs1). cbv zeta.
  set (r4 := reply_to LoginEndpoint _ s1 w3). set (w4 := posted LoginEndpoint _ s1 w3).
  assert (H4 : added w w4 [(LoginEndpoint, r1); (SignupEndpoint, r2); (VerifyEndpoint, r3);
                           (LoginEndpoint, r4)])
    by exact (added_trans _ _ _ _ _ H3 (added_posted _ _ _ _)).
  assert (Ht4 : token_ (auth w4) = token_ (auth w)) by (unfold w4; by rewrite posted_auth).
  destruct (accepted r4) as [t4|] eqn:Ha4.
  - do 3 eexists. split_and!; [done|exact H4|].
    simpl. rewrite Ha4. done.
  - do 3 eexists. split_and!; [done|exact H4|]. simpl. rewrite Ha4. done.
Qed.

End runs.

Section vehicle.
Context `{JL : JsonLaws} {N : Type} `{HP : HttpPost N}.
Variable cfg : Config.Config.
Implicit Types w : world N.

Lemma save_run w text :
  can_create_directories (file w) = true → can_write (file w) = true →
  json_dump2 (object (credentials_fields (auth w))) = Some text →
  save_vehicle_credentials w = (Ret true, set_file (Some text) w).
Proof.
  intros Hd Hw Ht. unfold save_vehicle_credentials, or_false, catch.
  rewrite bind_unfold. cbn [get]. rewrite Hd. rewrite bind_unfold. cbn [mret M_ret]. rewrite Hw.
  rewrite bind_unfold. cbn [modify]. rewrite bind_json_try, Ht. done.
Qed.

(** Saving returns whatever happens, and touches the file only. *)
Lemma save_returns w :
  ∃ b s, save_vehicle_credentials w = (Ret b, set_file s w).
Proof.
  assert (Hsame : set_file (credentials (file w)) w = w) by (destruct w as [? ? [] ?]; done).
  unfold save_vehicle_credentials, or_false, catch. rewrite bind_unfold. cbn [get].
  destruct (can_create_directories (file w)).
  - rewrite bind_unfold. cbn [mret M_ret]. destruct (can_write (file w)).
    + rewrite bind_unfold. cbn [modify]. rewrite bind_json_try.
      destruct (json_dump2 _) as [text|].
      * by exists true, (Some text).
      * by exists false, (Some "").
    + exists false, (credentials (file w)). by rewrite Hsame.
  - rewrite bind_unfold. exists false, (credentials (file w)). by rewrite Hsame.
Qed.

(** Loading returns whatever happens, and touches the credentials only. *)
Lemma load_returns w :
  ∃ b a, load_vehicle_credentials w = (Ret b, set_auth (λ _, a) w) ∧
    token_ a = token_ (auth w) ∧ vehicle_registered_ a = vehicle_registered_ (auth w) ∧
    json_headers_ a = json_headers_ (auth w).
Proof.
  assert (Hsame : ∀ (b : bool) (w0 : world N), w0 = w → ∃ (b' : bool) a, (Ret b, w0) = (Ret b',
    set_auth (λ _, a) w) ∧
    token_ a = token_ (auth w) ∧ vehicle_registered_ a = vehicle_registered_ (auth w) ∧
    json_headers_ a = json_headers_ (auth w)).
  { intros b w0 ->. exists b, (auth w). by destruct w. }
  unfold load_vehicle_credentials, or_false, catch. rewrite bind_unfold. cbn [get].
  destruct (credentials (file w)) as [text|]; [|by apply Hsame].
  rewrite bind_json_try. destruct (json_parse text) as [j|]; [|by apply Hsame].
  rewrite bind_json_try. destruct (at_string j "apiKey") as [k|]; [|by apply Hsame].
  rewrite bind_unfold. cbn [modify]. rewrite bind_json_try.
  destruct (at_string j "apiSecret") as [s|]; [|by eexists false, _].
  rewrite bind_unfold. cbn [modify]. rewrite bind_json_try.
  destruct (value_string j "accessToken" "") as [t|]; by eexists _, _.
Qed.

Lemma credentials_exact a :
  utf8 (vechile_api_key_ a) → utf8 (vechile_api_secret_ a) → utf8 (vechile_access_token_ a) →
  fields_exact (credentials_fields a).
Proof.
  intros Hk Hs Ht.
  repeat (constructor; [split_and!; [by apply utf8_ascii|done..]|]). constructor.
Qed.

Lemma load_run w text a :
  credentials (file w) = Some text → fields_exact (credentials_fields a) →
  json_dump2 (object (credentials_fields a)) = Some text →
  ∃ w', load_vehicle_credentials w = (Ret true, w') ∧
    vechile_api_key_ (auth w') = vechile_api_key_ a ∧
    vechile_api_secret_ (auth w') = vechile_api_secret_ a ∧
    vechile_access_token_ (auth w') = vechile_access_token_ a.
Proof.
  intros Hf He Hd.
  destruct (parse_dump2 (credentials_fields a) text) as (j & Hj & Hfields); [|done..|].
  { apply (bool_decide_unpack _). vm_compute. exact I. }
  unfold load_vehicle_credentials, or_false, catch. rewrite bind_unfold. cbn [get]. rewrite Hf.
  rewrite bind_json_try, Hj, bind_json_try, (at_string_fields j _ "apiKey" _ Hfields eq_refl).
  rewrite bind_unfold. cbn [modify].
  rewrite bind_json_try, (at_string_fields j _ "apiSecret" _ Hfields eq_refl).
  rewrite bind_unfold. cbn [modify]. rewrite bind_json_try.
  destruct (has_fields_read j _ "accessToken" _ Hfields eq_refl) as (v & Hv & Hr).
  rewrite (value_string_at j _ v) by done. simpl in Hr. rewrite Hr. by eexists.
Qed.

Lemma added_same w w' : posts w' = posts w → added w w' [].
Proof. intros Hp. exists []. by rewrite app_nil_r. Qed.

(** The branch for status 201 returns and makes no request. *)
Lemma created_returns text w :
  ∃ b w', vehicle_created text w = (Ret b, w') ∧ posts w' = posts w.
Proof.
  unfold vehicle_created. rewrite bind_unfold. cbn [modify]. unfold catch.
  rewrite bind_json_try. destruct (json_parse _) as [j|]; [|by eexists _, _].
  rewrite bind_json_try. destruct (data_string j "apiKey") as [k|]; [|by eexists _, _].
  rewrite bind_unfold. cbn [modify]. rewrite bind_json_try.
  destruct (data_string j "apiSecret") as [k'|]; [|by eexists _, _].
  rewrite bind_unfold. cbn [modify]. rewrite bind_unfold.
  match goal with |- context [save_vehicle_credentials ?w2] =>
    destruct (save_returns w2) as (b & f & ->) end.
  by eexists _, _.
Qed.

(** One call of [create_vehicle] with a token, up to its reply. *)
Definition vehicle_headers w : header_map :=
  <["Authorization" := ("Bearer " ++ token_ (auth w))%string]> (json_headers_ (auth w)).
Definition vehicle_posted (s : string) w : world N :=
  posted cfg VehiclesEndpoint (vehicle_headers w) s
    (set_auth (set_auth_headers (vehicle_headers w)) w).
Definition vehicle_reply (s : string) w : http_response :=
  reply_to cfg VehiclesEndpoint (vehicle_headers w) s
    (set_auth (set_auth_headers (vehicle_headers w)) w).

Lemma create_vehicle_step fuel l n w s :
  vehicle_registered_ (auth w) = false → token_ (auth w) ≠ "" →
  json_dump (object (vehicle_fields cfg)) = Some s →
  let r := vehicle_reply s w in
  let w1 := vehicle_posted s w in
  added w w1 [(VehiclesEndpoint, r)] ∧
  create_vehicle_loop cfg (S fuel) l n w =
  (if (status_code r =? 201)%Z then vehicle_created (HttpClient.body r)
   else if (status_code r =? 409)%Z then
     loaded ← load_vehicle_credentials;
     if (loaded : bool) then modify (set_auth (set_registered true)) ;; mret true else mret false
   else if (status_code r =? 401)%Z then
     if l then mret false
     else
       modify (set_auth (set_token "")) ;;
       logged ← login cfg;
       if (logged : bool) then create_vehicle_loop cfg fuel true false else mret false
   else if negb (success r) then
     if n then mret false else create_vehicle_loop cfg fuel l true
   else mret false) w1.
Proof.
  intros Hreg Htok Hs r w1. split; [exact (added_posted cfg _ _ _ _)|].
  cbn [create_vehicle_loop]. rewrite bind_unfold. cbn [gets]. rewrite Hreg.
  apply String.eqb_neq in Htok. rewrite Htok.
  rewrite bind_unfold. unfold ensure_auth_headers at 1. rewrite bind_unfold. cbn [gets]. rewrite Htok.
  cbn [modify]. rewrite bind_unfold. cbn [gets]. rewrite bind_json_try, Hs, bind_unfold, post_run.
  reflexivity.
Qed.

(** [vechile_login] returns whatever happens. *)
Lemma or_false_returns (m : M (world N) bool) w :
  safe m → ∃ b w', or_false m w = (Ret b, w').
Proof.
  intros Hm. specialize (Hm w). unfold or_false, catch, no_ub in *.
  destruct (m w) as [[b|e|] w']; [by eexists _, _|by eexists _, _|done].
Qed.

Lemma post_safe e hs b : safe (post (N:=N) cfg e hs b).
Proof. intros w. unfold no_ub. by rewrite post_run. Qed.

Lemma save_safe : safe (save_vehicle_credentials (N:=N)).
Proof. intros w. destruct (save_returns w) as (b & s & Hs). unfold no_ub. by rewrite Hs. Qed.

Lemma login_returns w : ∃ b w', login cfg w = (Ret b, w').
Proof.
  apply or_false_returns.
  apply safe_bind; [apply safe_json|intros body]. apply safe_bind; [apply safe_gets|intros a].
  apply safe_bind; [apply post_safe|intros resp]. destruct (_ || _); [apply safe_ret|].
  apply safe_bind; [apply safe_json|intros j]. apply safe_bind; [apply safe_json|intros []];
    [|apply safe_ret].
  apply safe_bind; [apply safe_json|intros t]. apply safe_bind; [apply safe_modify|intros _].
  apply safe_ret.
Qed.

(** The requests that only look at the status. *)
Lemma status_returns (o : option string) e (f : http_response → bool) w :
  ∃ b w', or_false (body ← json_try o; hs ← gets (λ w, json_headers_ (auth w));
                    resp ← post (N:=N) cfg e hs body; mret (f resp)) w = (Ret b, w').
Proof.
  apply or_false_returns.
  apply safe_bind; [apply safe_json|intros body]. apply safe_bind; [apply safe_gets|intros a].
  apply safe_bind; [apply post_safe|intros resp]. apply safe_ret.
Qed.

(** [setup] returns whatever the configuration and the replies are. *)
Lemma setup_returns w : ∃ b w', setup cfg w = (Ret b, w').
Proof.
  unfold setup. rewrite bind_unfold. cbn [gets].
  destruct (negb _); [by eexists _, _|]. rewrite bind_unfold.
  destruct (login_returns w) as ([] & w1 & ->); [by eexists _, _|]. rewrite bind_unfold.
  destruct (status_returns (json_dump (object (signup_fields cfg))) SignupEndpoint
    (λ resp, (status_code resp =? 201) || (status_code resp =? 409))%Z w1) as (b & w2 & Hs).
  unfold signup. rewrite Hs. destruct b; [|by eexists _, _]. rewrite bind_unfold.
  destruct (status_returns (json_dump (object (verify_fields cfg))) VerifyEndpoint
    (λ resp, (status_code resp =? 200)%Z) w2) as (b & w3 & Hv).
  unfold verify_code. rewrite Hv. destruct b; [apply login_returns|by eexists _, _].
Qed.

Lemma vehicle_login_request_returns w :
  ∃ b w', vehicle_login_request cfg w = (Ret b, w').
Proof.
  apply or_false_returns.
  apply safe_bind; [apply safe_gets|intros a]. apply safe_bind; [apply safe_json|intros body].
  apply safe_bind; [apply post_safe|intros resp]. destruct (_ || _); [apply safe_ret|].
  apply safe_bind; [apply safe_json|intros j]. apply safe_bind; [apply safe_json|intros []];
    [|apply safe_ret].
  apply safe_bind; [apply safe_json|intros t]. apply safe_bind; [apply safe_modify|intros _].
  apply safe_bind; [apply save_safe|intros _]. apply safe_bind; [apply safe_modify|intros _].
  apply safe_ret.
Qed.

Lemma vechile_login_returns w : ∃ b w', vechile_login cfg w = (Ret b, w').
Proof.
  unfold vechile_login. rewrite bind_unfold. cbn [gets].
  destruct (vechile_authenticated_ (auth w)); [by eexists _, _|].
  destruct (_ || _); [|apply vehicle_login_request_returns].
  rewrite bind_unfold. destruct (load_returns w) as (b & a & -> & _).
  destruct b; [apply vehicle_login_request_returns|by eexists _, _].
Qed.

Lemma vehicle_dumps : config_utf8 cfg → ∃ s, json_dump (object (vehicle_fields cfg)) = Some s.
Proof.
  intros (_ & _ & _ & _ & _ & _ & Hvin & Hpl & Hco & Hcc & Hmo).
  by apply dumps; repeat apply field_ok; try apply no_fields.
Qed.

(** The calls of [create_vehicle] still possible. *)
Definition budget (l n : bool) : nat := (if l then 0 else 2) + (if n then 0 else 1).

Definition vehicle_posts (ps : list (endpoint * http_response)) : nat := occ VehiclesEndpoint ps.*1.
Definition login_posts (ps : list (endpoint * http_response)) : nat := occ LoginEndpoint ps.*1.

(** The requests a call of [create_vehicle] may make. *)
Definition within (l n : bool) (ps : list (endpoint * http_response)) : Prop :=
  vehicle_posts ps ≤ S (budget l n) ∧ login_posts ps ≤ (if l then 0 else 1) ∧
  length ps = vehicle_posts ps + login_posts ps.

Lemma within_cons_vehicle l n l' n' r ps :
  within l' n' ps → budget l' n' < budget l n → (if l' then 0 else 1) ≤ (if l then 0 else 1) →
  within l n ((VehiclesEndpoint, r) :: ps).
Proof.
  unfold within, vehicle_posts, login_posts. rewrite fmap_cons, !occ_cons. cbn [fst length].
  repeat case_decide; try done; lia.
Qed.

Lemma within_relogin n r r' ps :
  within true false ps → within false n ((VehiclesEndpoint, r) :: (LoginEndpoint, r') :: ps).
Proof.
  unfold within, vehicle_posts, login_posts, budget. rewrite !fmap_cons, !occ_cons.
  cbn [fst length]. repeat case_decide; try done; destruct n; lia.
Qed.

Lemma within_one l n r : within l n [(VehiclesEndpoint, r)].
Proof. unfold within, vehicle_posts, login_posts, occ. simpl. lia. Qed.

Lemma within_failed_login n r r' : within false n [(VehiclesEndpoint, r); (LoginEndpoint, r')].
Proof. unfold within, vehicle_posts, login_posts, occ, budget. simpl. lia. Qed.

(** The result of [create_vehicle] when the body of the request cannot be written:
    [body.dump()] is outside of every [try]. *)
Definition undumpable (w : world N) : outcome bool :=
  if vehicle_registered_ (auth w) then Ret true
  else if String.eqb (token_ (auth w)) "" then Ret false
  else Exn JsonException.

Lemma login_undumpable w :
  json_dump (object (login_fields cfg)) = None → login cfg w = (Ret false, w).
Proof. intros Hd. unfold login, or_false, catch. by rewrite bind_json_try, Hd. Qed.

Lemma create_vehicle_undumpable fuel l n w :
  json_dump (object (vehicle_fields cfg)) = None →
  ∃ w', create_vehicle_loop cfg (S fuel) l n w = (undumpable w, w') ∧ posts w' = posts w.
Proof.
  intros Hd. unfold undumpable. cbn [create_vehicle_loop]. rewrite bind_unfold. cbn [gets].
  destruct (vehicle_registered_ (auth w)); [by exists w|].
  destruct (String.eqb (token_ (auth w)) "") eqn:Ht; [by exists w|].
  unfold ensure_auth_headers. rewrite !bind_unfold. cbn [gets]. rewrite Ht.
  cbn [modify]. rewrite bind_unfold. cbn [gets]. rewrite bind_json_try, Hd. by eexists.
Qed.

Lemma create_vehicle_bounded fuel l n w s :
  json_dump (object (vehicle_fields cfg)) = Some s → budget l n < fuel →
  ∃ (b : bool) w' ps, create_vehicle_loop cfg fuel l n w = (Ret b, w') ∧ added w w' ps ∧
    within l n ps.
Proof.
  intros Hs. revert l n w. induction fuel as [|fuel IH]; intros l n w Hb; [lia|].
  assert (Hnil : within l n []) by (unfold within, vehicle_posts, login_posts, occ; simpl; lia).
  destruct (vehicle_registered_ (auth w)) eqn:Hreg.
  { exists true, w, []. split_and!; [|apply added_nil|done].
    cbn [create_vehicle_loop]. rewrite bind_unfold. cbn [gets]. by rewrite Hreg. }
  destruct (decide (token_ (auth w) = "")) as [Htok|Htok].
  { exists false, w, []. split_and!; [|apply added_nil|done].
    cbn [create_vehicle_loop]. rewrite bind_unfold. cbn [gets]. by rewrite Hreg, Htok. }
  destruct (create_vehicle_step fuel l n w s Hreg Htok Hs) as [H1 ->].
  set (r := vehicle_reply s w) in *. set (w1 := vehicle_posted s w) in *.
  assert (Hone : ∀ (b : bool) w', posts w' = posts w1 →
    ∃ (b' : bool) w'' ps, (Ret b, w') = (Ret b', w'') ∧ added w w'' ps ∧ within l n ps).
  { intros b w' Hw'. exists b, w', [(VehiclesEndpoint, r)].
    split_and!; [done|exact (added_trans _ _ _ _ _ H1 (added_same _ _ Hw'))|apply within_one]. }
  destruct (status_code r =? 201)%Z.
  { destruct (created_returns (HttpClient.body r) w1) as (b & w' & -> & Hw'). by apply Hone. }
  destruct (status_code r =? 409)%Z.
  { rewrite bind_unfold. destruct (load_returns w1) as (b & a & -> & _). destruct b; by apply Hone. }
  destruct (status_code r =? 401)%Z.
  { destruct l; [by apply Hone|]. rewrite bind_unfold. cbn [modify].
    set (w2 := set_auth (set_token "") w1). rewrite bind_unfold.
    destruct (json_dump (object (login_fields cfg))) as [s1|] eqn:Hs1;
      [|rewrite (login_undumpable w2 Hs1); by apply Hone].
    rewrite (login_run cfg w2 s1 Hs1). cbv zeta.
    set (hs := json_headers_ (auth w2)).
    pose proof (added_trans _ _ _ _ _ H1 (added_posted cfg LoginEndpoint hs s1 w2)) as H2.
    destruct (accepted _) as [t|].
    - destruct (IH true false (set_auth (set_token t) (posted cfg LoginEndpoint hs s1 w2)))
        as (b & w' & ps & Hrun & Hadd & Hps); [unfold budget in *; simpl in *; lia|].
      do 3 eexists. split_and!; [exact Hrun|exact (added_trans _ _ _ _ _ H2 Hadd)|].
      by apply within_relogin.
    - do 3 eexists. split_and!; [reflexivity|exact H2|apply within_failed_login]. }
  destruct (success r); cbn [negb]; [by apply Hone|]. destruct n; [by apply Hone|].
  destruct (IH l true w1) as (b & w' & ps & Hrun & Hadd & Hps);
    [unfold budget in *; destruct l; simpl in *; lia|].
  do 3 eexists. split_and!; [exact Hrun|exact (added_trans _ _ _ _ _ H1 Hadd)|].
  apply (within_cons_vehicle l false l true); [done|unfold budget; destruct l; simpl; lia|done].
Qed.

End vehicle.

(** ** The theorems *)

Section theorems.
Context `{JL : JsonLaws} {N : Type} `{HP : HttpPost N}.
Variable cfg : Config.Config.
Implicit Types w : world N.

(** C30. [setup] follows its protocol: with a token it contacts nobody; otherwise it
    logs in, and only if that fails signs up (a conflict counts as success), verifies
    the code and logs in again, stopping at the first failure. Its result says
    whether a login was accepted, and the token is the one of that login. It
    returns whatever the replies are. *)
Theorem setup_protocol w (Hutf : config_utf8 cfg) :
  ∃ b w' ps, setup cfg w = (Ret b, w') ∧ added w w' ps ∧
    setup_outcome (token_ (auth w)) ps b (token_ (auth w')).
Proof. by apply setup_run. Qed.

(** C31. [create_vehicle] terminates within four registrations and one login,
    whatever the configuration, the flags and the replies are, so its recursion is bounded
    and the fuel of the model is enough. It returns if the body of the request can be
    written, as it can when the configured texts are UTF-8. If not, nothing is posted, and
    a call for a vehicle that is not registered yet, with a token, ends in the exception of
    [body.dump()], which nothing in it catches. *)
Theorem create_vehicle_terminates l n w :
  ∃ o w' ps, create_vehicle cfg l n w = (o, w') ∧ added w w' ps ∧
    vehicle_posts ps ≤ S (budget l n) ∧ login_posts ps ≤ (if l then 0 else 1) ∧
    length ps = vehicle_posts ps + login_posts ps ∧
    match json_dump (object (vehicle_fields cfg)) with
    | Some _ => ∃ b, o = Ret b
    | None => ps = [] ∧ o = undumpable w ∧ ¬ config_utf8 cfg
    end.
Proof.
  destruct (json_dump (object (vehicle_fields cfg))) as [s|] eqn:Hs.
  - destruct (create_vehicle_bounded cfg 4 l n w s Hs) as (b & w' & ps & Hrun & Hadd & H1 & H2 & H3);
      [unfold budget; destruct l, n; simpl; lia|].
    exists (Ret b), w', ps. split_and!; eauto.
  - destruct (create_vehicle_undumpable cfg 3 l n w Hs) as (w' & Hrun & Hp).
    exists (undumpable w), w', []. split_and!; [done|by apply added_same|..];
      [unfold vehicle_posts, occ; simpl; lia|unfold login_posts, occ; simpl; lia|done..|].
    intros Hu. destruct (vehicle_dumps cfg Hu). congruence.
Qed.

(** A registration whose reply cannot be read is forgotten: when the backend
    creates the vehicle (201) but the reply carries no keys, [create_vehicle] fails
    once, yet it has recorded the vehicle as registered, and every later call
    succeeds at once although the service still has no keys. *)
Theorem registration_without_keys l n l' n' w s
  (Hreg : vehicle_registered_ (auth w) = false) (Htok : token_ (auth w) ≠ "")
  (Hdump : json_dump (object (vehicle_fields cfg)) = Some s)
  (Hstatus : status_code (vehicle_reply cfg s w) = 201%Z)
  (Hkeys : json_parse (HttpClient.body (vehicle_reply cfg s w)) = None) :
  ∃ w', create_vehicle cfg l n w = (Ret false, w') ∧
    vechile_api_key_ (auth w') = vechile_api_key_ (auth w) ∧
    create_vehicle cfg l' n' w' = (Ret true, w').
Proof.
  unfold create_vehicle at 1.
  destruct (create_vehicle_step cfg 3 l n w s Hreg Htok Hdump) as [_ ->].
  rewrite Hstatus. unfold vehicle_created.
  change (201 =? 201)%Z with true. cbv iota.
  rewrite bind_unfold. cbn [modify]. unfold catch. rewrite bind_json_try, Hkeys.
  eexists. split_and!; [reflexivity| |reflexivity].
  simpl. unfold vehicle_posted. by rewrite posted_auth.
Qed.

(** C36. The credentials file round-trips: what [save_vehicle_credentials] writes,
    [load_vehicle_credentials] reads back into any service, key, secret and access
    token, as long as they are UTF-8 and the file can be written. *)
Theorem credentials_roundtrip w w2
  (Hk : utf8 (vechile_api_key_ (auth w))) (Hs : utf8 (vechile_api_secret_ (auth w)))
  (Ht : utf8 (vechile_access_token_ (auth w)))
  (Hd : can_create_directories (file w) = true) (Hw : can_write (file w) = true) :
  ∃ w1, save_vehicle_credentials w = (Ret true, w1) ∧ auth w1 = auth w ∧
    (credentials (file w2) = credentials (file w1) →
     ∃ w3, load_vehicle_credentials w2 = (Ret true, w3) ∧
       vechile_api_key_ (auth w3) = vechile_api_key_ (auth w) ∧
       vechile_api_secret_ (auth w3) = vechile_api_secret_ (auth w) ∧
       vechile_access_token_ (auth w3) = vechile_access_token_ (auth w)).
Proof.
  pose proof (credentials_exact _ Hk Hs Ht) as He.
  destruct (dump2_object (credentials_fields (auth w))) as [text Htext]; [by apply fields_exact_utf8|].
  exists (set_file (Some text) w). split_and!; [by apply save_run|done|].
  intros Hfile. by apply (load_run w2 text (auth w)).
Qed.

(** C26. [vechile_login] of a vehicle that is not authenticated yet, with known keys that
    can be dumped (UTF-8), makes one request, with those keys, and
    trusts it: it returns true exactly when the reply grants a token, which it then
    keeps and marks the vehicle authenticated, even when the credentials cannot be
    saved; otherwise the service is unchanged. *)
Theorem vehicle_login_with_keys w s
  (Hauth : vechile_authenticated_ (auth w) = false)
  (Hk : vechile_api_key_ (auth w) ≠ "") (Hs : vechile_api_secret_ (auth w) ≠ "")
  (Hdump : json_dump (object (vehicle_login_fields (auth w))) = Some s) :
  let r := reply_to cfg VehicleLoginEndpoint (json_headers_ (auth w)) s w in
  ∃ b w', vechile_login cfg w = (Ret b, w') ∧ added w w' [(VehicleLoginEndpoint, r)] ∧
    match accepted r with
    | Some t => b = true ∧ vehicle_access_token w' = t ∧ vechile_authenticated_ (auth w') = true
    | None => b = false ∧ auth w' = auth w
    end.
Proof.
  intros r. unfold vechile_login. rewrite bind_unfold. cbn [gets]. rewrite Hauth.
  apply String.eqb_neq in Hk, Hs. rewrite Hk, Hs. cbn [orb].
  unfold vehicle_login_request, or_false, catch. rewrite bind_unfold. cbn [gets].
  rewrite bind_json_try, Hdump, bind_unfold, post_run. fold r.
  set (w1 := posted cfg VehicleLoginEndpoint _ s w).
  assert (H1 : added w w1 [(VehicleLoginEndpoint, r)]) by exact (added_posted cfg _ _ _ _).
  assert (Ha1 : auth w1 = auth w) by apply posted_auth.
  unfold accepted. destruct (negb _ || _); [by exists false, w1|]. unfold token_in.
  rewrite bind_json_try. destruct (json_parse _) as [j|]; [|by exists false, w1].
  cbn [mbind option_bind]. rewrite bind_json_try.
  destruct (value_bool j "success" false) as [[]|]; [|by exists false, w1..].
  cbn [mbind option_bind]. rewrite bind_json_try.
  destruct (data_string j "accessToken") as [t|]; [|by exists false, w1].
  rewrite bind_unfold. cbn [modify]. rewrite bind_unfold.
  match goal with |- context [save_vehicle_credentials ?w2] =>
    destruct (save_returns w2) as (b & f & ->) end.
  rewrite bind_unfold. cbn [modify]. by do 2 eexists.
Qed.

End theorems.

(** ** A scripted backend *)

#[export] Instance scripted_post : HttpPost (list http_response) := λ _ _ _ n,
  match n with
  | r :: n' => (r, n')
  | [] => (failed "closed", [])
  end.

Definition respond (status : Z) (b : string) : http_response :=
  {| status_code := status; body := b; headers := ∅;
     success := ((200 <=? status) && (status <? 300))%Z; error_message := "" |}.

(** The reply that grants a token. *)
Definition token_reply (t : string) : http_response :=
  respond 200 (reply_text [("success", inl true); ("data", inr [("accessToken", FString t)])]).

Definition backend (a : AuthService) (rs : list http_response) : world (list http_response) :=
  {| auth := a; http := rs;
     file := {| credentials := None; can_create_directories := true; can_write := true |};
     posts := [] |}.

Definition sample_config : Config.Config := Config.from_env (λ _, None) ∅.
Definition logged_in : AuthService := set_token "token" new_AuthService.

(** The single retries of [create_vehicle] add up: the flag for connectivity is
    cleared by the login retry, so a registration is sent four times, twice of them
    after a connectivity failure, when the backend fails, rejects the token, accepts
    the login, and fails twice again. *)
Theorem network_retried_twice :
  let w := backend logged_in [failed "down"; respond 401 ""; token_reply "new"; failed "down";
                              failed "down"] in
  let '(r, w') := create_vehicle sample_config false false w in
  r = Ret false ∧
  (λ p, p.1.1.1) <$> posts w' =
    [VehiclesEndpoint; VehiclesEndpoint; LoginEndpoint; VehiclesEndpoint; VehiclesEndpoint].
Proof. vm_compute. done. Qed.

(** A VIN that is not UTF-8. *)
Definition bad_config : Config.Config :=
  Config.from_env (λ _, None) {[ "VIN_NUMBER" := String (Ascii.ascii_of_nat 255) "" ]}.

(** [create_vehicle] can throw: [body.dump()] of a configured text that is not UTF-8 is in
    no [try] block. *)
Theorem create_vehicle_throws :
  fst (create_vehicle bad_config false false (backend logged_in [])) = Exn JsonException.
Proof. vm_compute. reflexivity. Qed.

(** ** Witnesses *)

Lemma sample_utf8 : config_utf8 sample_config.
Proof. repeat split. Qed.

Lemma setup_protocol_witness :
  ∃ b w' ps, setup sample_config (backend new_AuthService [respond 401 ""; respond 409 "";
      respond 200 ""; token_reply "t"]) = (Ret b, w') ∧
    setup_outcome "" ps b (token_ (auth w')).
Proof.
  destruct (setup_protocol sample_config (backend new_AuthService [respond 401 ""; respond 409 "";
      respond 200 ""; token_reply "t"]) sample_utf8) as (b & w' & ps & Hrun & _ & Ho).
  exists b, w', ps. split; [exact Hrun|exact Ho].
Defined.

Lemma create_vehicle_terminates_witness :
  ∃ w' ps, create_vehicle bad_config false false (backend logged_in []) = (Exn JsonException, w') ∧
    added (backend logged_in []) w' ps ∧ ps = [].
Proof.
  destruct (create_vehicle_terminates bad_config false false (backend logged_in []))
    as (o & w' & ps & Hrun & Hadd & _ & _ & _ & Hthrow & -> & _).
  exists w', ps. split; [exact Hrun|]. split; [exact Hadd|exact Hthrow].
Defined.

Lemma registration_without_keys_witness :
  ∃ w', create_vehicle sample_config false false (backend logged_in [respond 201 "oops"]) =
      (Ret false, w') ∧
    create_vehicle sample_config false false w' = (Ret true, w').
Proof.
  destruct (registration_without_keys sample_config false false false false
              (backend logged_in [respond 201 "oops"]) (flat_text (vehicle_fields sample_config)))
    as (w' & Hrun & _ & Hagain).
  - reflexivity.
  - discriminate.
  - vm_compute. reflexivity.
  - vm_compute. reflexivity.
  - vm_compute. reflexivity.
  - exists w'. split; [exact Hrun|exact Hagain].
Defined.

Definition with_keys : AuthService := set_api_secret "secret" (set_api_key "key" new_AuthService).

Lemma credentials_roundtrip_witness :
  ∃ w1, save_vehicle_credentials (backend with_keys []) = (Ret true, w1) ∧
    ∃ w3, load_vehicle_credentials {| auth := new_AuthService; http := ([] : list http_response);
        file := file w1; posts := [] |} = (Ret true, w3) ∧ vechile_api_key_ (auth w3) = "key".
Proof.
  destruct (credentials_roundtrip (backend with_keys [])
    {| auth := new_AuthService; http := ([] : list http_response);
       file := {| credentials := Some (flat_text (credentials_fields with_keys));
                  can_create_directories := true; can_write := true |}; posts := [] |})
    as (w1 & Hsave & _ & Hload).
  1-5: vm_compute; exact I || reflexivity.
  exists w1. split; [exact Hsave|].
  assert (Hw1 : file w1 = {| credentials := Some (flat_text (credentials_fields with_keys));
                  can_create_directories := true; can_write := true |}).
  { apply (f_equal (λ r, file (snd r))) in Hsave. cbn [snd] in Hsave. rewrite <- Hsave.
    vm_compute. reflexivity. }
  rewrite Hw1 in *. destruct Hload as (w3 & Hrun & Hk & _); [reflexivity|].
  exists w3. split; [exact Hrun|exact Hk].
Defined.

Lemma vehicle_login_with_keys_witness :
  ∃ w', vechile_login sample_config (backend with_keys [token_reply "t"]) = (Ret true, w') ∧
    vehicle_access_token w' = "t".
Proof.
  destruct (vehicle_login_with_keys sample_config (backend with_keys [token_reply "t"])
              (flat_text (vehicle_login_fields with_keys))) as (b & w' & Hrun & _ & Hres).
  - reflexivity.
  - discriminate.
  - discriminate.
  - vm_compute. reflexivity.
  - vm_compute in Hres. destruct Hres as (-> & Ht & _). exists w'. split; [exact Hrun|exact Ht].
Defined.

End AuthService.
