(* ===== verification/MqttClient.v ===== *)
(** * MqttClient *)

(** The MQTT client ([src/transport/mqtt_client/mqtt_client.h],
    [mqtt_client.cpp]). Boost's client is represented by what is asked of it: the
    topics in [subscribed], the messages in [sent] with their callbacks, and
    [armed], the number of [async_receive] operations outstanding. [tasks] are the
    functions posted to the [io_context]. [stop] is in two parts, since the io
    thread goes on until the disconnection completes. *)

From S2P Require Import Prelude Stream.

Module MqttClient.

(** The functions posted with [boost::asio::post]. *)
Inductive task : Type :=
| FlushPending
| SubscribeTask (topic : string).

#[export] Instance task_eq_dec : EqDecision task.
Proof. solve_decision. Defined.

Section mqtt.
Context {W : Type}.

(** [client_], [ioc_] and [runner_] are set (joinable) or not; [user] is what the
    message handler's closure captures; [connections] are the brokers [async_run] was
    told to keep a connection to, with the client identifier. *)
Record MqttClient : Type := {
  ioc_ : bool;
  runner_ : bool;
  client_ : bool;
  broker_ : string;
  port_ : Z;
  clientId_ : string;
  cb_ : option (string → string → M W unit);
  started_ : bool;
  stopped_ : bool;
  pending_topics_ : list string;
  tasks : list task;
  armed : nat;
  subscribed : list string;
  sent : list (string * string);
  connections : list (string * Z * string);
  user : W
}.

Definition new_MqttClient (broker : string) (port : Z) (clientId : string) (u : W) : MqttClient :=
  {| ioc_ := false; runner_ := false; client_ := false; broker_ := broker; port_ := port;
     clientId_ := clientId; cb_ := None; started_ := false;
     stopped_ := false; pending_topics_ := []; tasks := []; armed := 0; subscribed := [];
     sent := []; connections := []; user := u |}.

Definition set_flags (started stopped : bool) (m : MqttClient) : MqttClient :=
  {| ioc_ := ioc_ m; runner_ := runner_ m; client_ := client_ m; broker_ := broker_ m;
     port_ := port_ m; clientId_ := clientId_ m; cb_ := cb_ m; started_ := started;
     stopped_ := stopped; pending_topics_ := pending_topics_ m; tasks := tasks m;
     armed := armed m; subscribed := subscribed m; sent := sent m;
     connections := connections m; user := user m |}.
(** The context, created or destroyed: nothing is posted on a new one. *)
Definition set_ioc (b : bool) (m : MqttClient) : MqttClient :=
  {| ioc_ := b; runner_ := runner_ m; client_ := client_ m; broker_ := broker_ m;
     port_ := port_ m; clientId_ := clientId_ m; cb_ := cb_ m; started_ := started_ m;
     stopped_ := stopped_ m; pending_topics_ := pending_topics_ m; tasks := [];
     armed := armed m; subscribed := subscribed m; sent := sent m;
     connections := connections m; user := user m |}.
(** Boost's client, created or destroyed: nothing is outstanding on a new one. *)
Definition set_mqtt (b : bool) (m : MqttClient) : MqttClient :=
  {| ioc_ := ioc_ m; runner_ := runner_ m; client_ := b; broker_ := broker_ m;
     port_ := port_ m; clientId_ := clientId_ m; cb_ := cb_ m; started_ := started_ m;
     stopped_ := stopped_ m; pending_topics_ := pending_topics_ m; tasks := tasks m;
     armed := 0; subscribed := subscribed m; sent := sent m; connections := connections m;
     user := user m |}.
(** The io thread, started or joined. *)
Definition set_runner (b : bool) (m : MqttClient) : MqttClient :=
  {| ioc_ := ioc_ m; runner_ := b; client_ := client_ m; broker_ := broker_ m;
     port_ := port_ m; clientId_ := clientId_ m; cb_ := cb_ m; started_ := started_ m;
     stopped_ := stopped_ m; pending_topics_ := pending_topics_ m; tasks := tasks m;
     armed := armed m; subscribed := subscribed m; sent := sent m;
     connections := connections m; user := user m |}.
(** All three. *)
Definition set_client (b : bool) (m : MqttClient) : MqttClient :=
  set_ioc b (set_mqtt b (set_runner b m)).
Definition set_handler (h : option (string → string → M W unit)) (m : MqttClient) : MqttClient :=
  {| ioc_ := ioc_ m; runner_ := runner_ m; client_ := client_ m; broker_ := broker_ m;
     port_ := port_ m; clientId_ := clientId_ m; cb_ := h; started_ := started_ m;
     stopped_ := stopped_ m; pending_topics_ := pending_topics_ m; tasks := tasks m;
     armed := armed m; subscribed := subscribed m; sent := sent m;
     connections := connections m; user := user m |}.
Definition set_pending (l : list string) (m : MqttClient) : MqttClient :=
  {| ioc_ := ioc_ m; runner_ := runner_ m; client_ := client_ m; broker_ := broker_ m;
     port_ := port_ m; clientId_ := clientId_ m; cb_ := cb_ m; started_ := started_ m;
     stopped_ := stopped_ m; pending_topics_ := l; tasks := tasks m; armed := armed m;
     subscribed := subscribed m; sent := sent m; connections := connections m;
     user := user m |}.
Definition set_tasks (l : list task) (m : MqttClient) : MqttClient :=
  {| ioc_ := ioc_ m; runner_ := runner_ m; client_ := client_ m; broker_ := broker_ m;
     port_ := port_ m; clientId_ := clientId_ m; cb_ := cb_ m; started_ := started_ m;
     stopped_ := stopped_ m; pending_topics_ := pending_topics_ m; tasks := l;
     armed := armed m; subscribed := subscribed m; sent := sent m;
     connections := connections m; user := user m |}.
Definition set_armed (n : nat) (m : MqttClient) : MqttClient :=
  {| ioc_ := ioc_ m; runner_ := runner_ m; client_ := client_ m; broker_ := broker_ m;
     port_ := port_ m; clientId_ := clientId_ m; cb_ := cb_ m; started_ := started_ m;
     stopped_ := stopped_ m; pending_topics_ := pending_topics_ m; tasks := tasks m;
     armed := n; subscribed := subscribed m; sent := sent m; connections := connections m;
     user := user m |}.
Definition log_subscribe (t : string) (m : MqttClient) : MqttClient :=
  {| ioc_ := ioc_ m; runner_ := runner_ m; client_ := client_ m; broker_ := broker_ m;
     port_ := port_ m; clientId_ := clientId_ m; cb_ := cb_ m; started_ := started_ m;
     stopped_ := stopped_ m; pending_topics_ := pending_topics_ m; tasks := tasks m;
     armed := armed m; subscribed := subscribed m ++ [t]; sent := sent m;
     connections := connections m; user := user m |}.
Definition log_sent (t p : string) (m : MqttClient) : MqttClient :=
  {| ioc_ := ioc_ m; runner_ := runner_ m; client_ := client_ m; broker_ := broker_ m;
     port_ := port_ m; clientId_ := clientId_ m; cb_ := cb_ m; started_ := started_ m;
     stopped_ := stopped_ m; pending_topics_ := pending_topics_ m; tasks := tasks m;
     armed := armed m; subscribed := subscribed m; sent := sent m ++ [(t, p)];
     connections := connections m; user := user m |}.
(** [client_->brokers(broker_, port_).credentials(clientId_)] and [async_run]. *)
Definition log_connection (m : MqttClient) : MqttClient :=
  {| ioc_ := ioc_ m; runner_ := runner_ m; client_ := client_ m; broker_ := broker_ m;
     port_ := port_ m; clientId_ := clientId_ m; cb_ := cb_ m; started_ := started_ m;
     stopped_ := stopped_ m; pending_topics_ := pending_topics_ m; tasks := tasks m;
     armed := armed m; subscribed := subscribed m; sent := sent m;
     connections := connections m ++ [(broker_ m, port_ m, clientId_ m)]; user := user m |}.
Definition set_user (u : W) (m : MqttClient) : MqttClient :=
  {| ioc_ := ioc_ m; runner_ := runner_ m; client_ := client_ m; broker_ := broker_ m;
     port_ := port_ m; clientId_ := clientId_ m; cb_ := cb_ m; started_ := started_ m;
     stopped_ := stopped_ m; pending_topics_ := pending_topics_ m; tasks := tasks m;
     armed := armed m; subscribed := subscribed m; sent := sent m;
     connections := connections m; user := u |}.

(** [client_->...] on a null pointer is undefined. *)
Definition deref_client : M MqttClient unit :=
  m ← get; if client_ m then mret tt else undefined.

Definition do_subscribe (topic : string) : M MqttClient unit :=
  deref_client ;; modify (log_subscribe topic).

Definition arm_receive : M MqttClient unit :=
  m ← get; if client_ m then modify (set_armed (S (armed m))) else mret tt.

Definition flush_topics : M MqttClient unit :=
  m ← get; for_each do_subscribe (pending_topics_ m) ;; modify (set_pending []).

Definition start : M MqttClient unit :=
  m ← get;
  modify (set_flags true (stopped_ m)) ;;
  if started_ m then mret tt
  else
    modify (set_flags true false) ;;
    modify (set_runner false) ;;
    modify (set_ioc true) ;;
    modify (set_mqtt true) ;;
    modify log_connection ;;
    modify (λ m, set_tasks (tasks m ++ [FlushPending]) m) ;;
    arm_receive ;;
    modify (set_runner true).

(** [stop] up to [async_disconnect]. *)
Definition stop_begin : M MqttClient bool :=
  m ← get;
  modify (set_flags false (stopped_ m)) ;;
  if negb (started_ m) then mret false
  else
    modify (set_flags false true) ;;
    mret (negb (stopped_ m)).

(** The rest of [stop], once the io thread has ended. *)
Definition stop_end : M MqttClient unit :=
  modify (set_runner false) ;; modify (set_mqtt false) ;; modify (set_ioc false).

(** The destructor. *)
Definition destroy : M MqttClient unit :=
  b ← stop_begin; if (b : bool) then stop_end else mret tt.

(** [publish]: the result when the callback runs at once, [None] when the client
    keeps it. *)
Definition publish_message (topic payload : string) : M MqttClient (option (bool * string)) :=
  m ← get;
  if negb (started_ m) || negb (client_ m) then mret (Some (false, "MQTT client not started"))
  else modify (log_sent topic payload) ;; mret None.

Definition subscribe (topic : string) : M MqttClient unit :=
  modify (λ m, set_pending (pending_topics_ m ++ [topic]) m) ;;
  m ← get;
  if started_ m && client_ m && ioc_ m
  then modify (set_tasks (tasks m ++ [SubscribeTask topic]))
  else mret tt.

Definition set_message_handler (h : string → string → M W unit) : M MqttClient unit :=
  modify (set_handler (Some h)).

(** [if (cb_) cb_(topic, payload)]. *)
Definition call_handler (topic payload : string) : M MqttClient unit :=
  m ← get;
  match cb_ m with
  | Some h => zoom user set_user (h topic payload)
  | None => mret tt
  end.

(** The callback of [async_receive]: an error, or a message. *)
Definition on_receive (message : option (string * string)) : M MqttClient unit :=
  modify (λ m, set_armed (pred (armed m)) m) ;;
  match message with
  | None =>
      m ← get; if stopped_ m then mret tt else arm_receive
  | Some (topic, payload) =>
      m ← get;
      (if bool_decide (pending_topics_ m = []) then mret tt else flush_topics) ;;
      call_handler topic payload ;;
      m ← get;
      if stopped_ m then mret tt else arm_receive
  end.

Definition run_task (t : task) : M MqttClient unit :=
  modify (λ m, set_tasks (tail (tasks m)) m) ;;
  match t with
  | FlushPending => flush_topics
  | SubscribeTask topic => do_subscribe topic
  end.

(** ** Executions *)

Inductive event : Type :=
| Start
| StopBegin
| StopEnd
| Subscribe (topic : string)
| SetHandler (h : string → string → M W unit)
| PublishMessage (topic payload : string)
| RunTask
| Receive (message : option (string * string)).

Definition run_event (e : event) : M MqttClient unit :=
  match e with
  | Start => start
  | StopBegin => stop_begin ;; mret tt
  | StopEnd => stop_end
  | Subscribe t => subscribe t
  | SetHandler h => set_message_handler h
  | PublishMessage t p => publish_message t p ;; mret tt
  | RunTask => m ← get; match tasks m with t :: _ => run_task t | [] => mret tt end
  | Receive msg => on_receive msg
  end.

(** The io thread runs while the client exists; [stop] ends what it began; [start]
    is not called while [stop] runs. *)
Definition allowed (m : MqttClient) (e : event) : Prop :=
  match e with
  | RunTask => tasks m ≠ []
  | Receive _ => armed m ≠ 0
  | StopEnd => stopped_ m = true ∧ started_ m = false
  | Start => stopped_ m = true → client_ m = false
  | _ => True
  end.

#[export] Instance allowed_dec m e : Decision (allowed m e).
Proof. destruct e; simpl; apply _. Defined.

Inductive steps (m : MqttClient) : list event → MqttClient → Prop :=
| steps_nil : steps m [] m
| steps_snoc es m' e m'' :
    steps m es m' → allowed m' e → run_event e m' = (Ret tt, m'') → steps m (es ++ [e]) m''.

(** The client exists exactly while it is started or being stopped, with its
    context and its thread; one receive is outstanding while it is started. *)
Record invariant (m : MqttClient) : Prop := {
  inv_parts : ioc_ m = client_ m ∧ runner_ m = client_ m;
  inv_started : started_ m = true → client_ m = true ∧ stopped_ m = false ∧ armed m = 1;
  inv_idle : client_ m = false → tasks m = [] ∧ armed m = 0 ∧ started_ m = false;
  inv_armed : armed m ≤ 1;
  inv_stopping : client_ m = true → started_ m = false → stopped_ m = true
}.

End mqtt.

Arguments MqttClient : clear implicits.

(** The services' [PublishFn]. *)
#[export] Instance mqtt_publisher {W} : Publisher (MqttClient W) := λ topic payload m,
  match publish_message topic payload m with
  | (Ret r, m') => (r, m')
  | (_, m') => (None, m')
  end.

(** The clauses of the invariant after a step. *)
Ltac mqtt_solver := first [done|intros; congruence|lia|naive_solver congruence].

Section proofs.
Context {W : Type}.
Implicit Types (m : MqttClient W).

(** The message handler returns on what it has captured now, or whatever it has
    captured: [MqttRouter] catches what its handlers throw. *)
Definition handler_returns m : Prop :=
  ∀ h t p, cb_ m = Some h → fst (h t p (user m)) = Ret tt.
Definition handler_total m : Prop :=
  ∀ h t p u, cb_ m = Some h → fst (h t p u) = Ret tt.

(** What an event makes of the captured state. *)
Definition user_after m (e : @event W) : W :=
  match e, cb_ m with
  | Receive (Some (t, p)), Some h => exec (h t p) (user m)
  | _, _ => user m
  end.

Lemma do_subscribe_run t m :
  client_ m = true → do_subscribe t m = (Ret tt, log_subscribe t m).
Proof.
  intros Hc. unfold do_subscribe, deref_client. rewrite !bind_unfold. simpl. by rewrite Hc.
Qed.

(** Flushing subscribes to the pending topics in order. *)
Lemma flush_run m :
  client_ m = true →
  ∃ m', flush_topics m = (Ret tt, m') ∧ pending_topics_ m' = [] ∧
    subscribed m' = subscribed m ++ pending_topics_ m ∧
    client_ m' = client_ m ∧ ioc_ m' = ioc_ m ∧ runner_ m' = runner_ m ∧ cb_ m' = cb_ m ∧
    started_ m' = started_ m ∧ stopped_ m' = stopped_ m ∧ tasks m' = tasks m ∧
    armed m' = armed m ∧ sent m' = sent m ∧ user m' = user m ∧ connections m' = connections m.
Proof.
  intros Hc. unfold flush_topics. rewrite bind_unfold. cbn [get].
  assert (Hl : ∀ l m0, client_ m0 = true → ∃ m', for_each do_subscribe l m0 = (Ret tt, m') ∧
    subscribed m' = subscribed m0 ++ l ∧
    client_ m' = client_ m0 ∧ ioc_ m' = ioc_ m0 ∧ runner_ m' = runner_ m0 ∧ cb_ m' = cb_ m0 ∧
    started_ m' = started_ m0 ∧ stopped_ m' = stopped_ m0 ∧ tasks m' = tasks m0 ∧
    armed m' = armed m0 ∧ sent m' = sent m0 ∧ user m' = user m0 ∧
    connections m' = connections m0).
  { induction l as [|t l IH]; intros m0 Hc0; cbn [for_each].
    - exists m0. by rewrite app_nil_r.
    - rewrite (bind_run _ _ _ _ _ (do_subscribe_run t m0 Hc0)).
      destruct (IH (log_subscribe t m0) Hc0) as (m' & -> & Hsub & Hrest). exists m'.
      split; [done|]. split; [by rewrite Hsub; simpl; rewrite <- (assoc_L (++))|done]. }
  destruct (Hl (pending_topics_ m) m Hc) as (m' & Hrun & Hsub & Hrest).
  rewrite (bind_run _ _ _ _ _ Hrun). eexists. split; [reflexivity|]. by simpl.
Qed.

Lemma arm_run m : client_ m = true → arm_receive m = (Ret tt, set_armed (S (armed m)) m).
Proof. intros Hc. unfold arm_receive. rewrite bind_unfold. simpl. by rewrite Hc. Qed.

Lemma call_runs m t p u' h :
  cb_ m = Some h → h t p (user m) = (Ret tt, u') → call_handler t p m = (Ret tt, set_user u' m).
Proof.
  intros Hcb Hh. unfold call_handler. rewrite bind_unfold. cbn [get]. rewrite Hcb.
  unfold zoom. by rewrite Hh.
Qed.

Lemma call_returns m t p :
  handler_returns m →
  call_handler t p m = (Ret tt, set_user (user_after m (Receive (Some (t, p)))) m).
Proof.
  intros Hr. unfold user_after. destruct (cb_ m) as [h|] eqn:Hcb.
  - pose proof (Hr h t p Hcb) as Hh. unfold exec. destruct (h t p (user m)) as [o u'] eqn:Hrun.
    simpl in Hh. subst o. by eapply call_runs.
  - unfold call_handler. rewrite bind_unfold. cbn [get]. rewrite Hcb. by destruct m.
Qed.

(** [start] and [stop], as a whole. *)
Definition started_client m : MqttClient W :=
  set_armed 1 (set_tasks [FlushPending] (log_connection (set_client true (set_flags true false m)))).

Lemma start_run m : started_ m = false → start m = (Ret tt, started_client m).
Proof.
  intros Hm. unfold start. rewrite bind_unfold. cbn [get]. rewrite Hm.
  repeat (rewrite bind_unfold; cbn [modify]). rewrite arm_run by reflexivity. reflexivity.
Qed.

Lemma start_again m : started_ m = true → start m = (Ret tt, m).
Proof.
  intros Hm. unfold start. rewrite bind_unfold. cbn [get]. rewrite Hm. rewrite bind_unfold.
  destruct m. simpl in *. by subst.
Qed.

Lemma stop_begin_run m :
  started_ m = true → stopped_ m = false → stop_begin m = (Ret true, set_flags false true m).
Proof.
  intros Hst Hsp. unfold stop_begin. rewrite bind_unfold. cbn [get]. rewrite Hst, Hsp. reflexivity.
Qed.

Lemma stop_begin_idle m : started_ m = false → stop_begin m = (Ret false, m).
Proof.
  intros Hm. unfold stop_begin. rewrite bind_unfold. cbn [get]. rewrite Hm. rewrite bind_unfold.
  destruct m. simpl in *. by subst.
Qed.

Lemma stop_end_run m : stop_end m = (Ret tt, set_client false m).
Proof. reflexivity. Qed.

(** Every event allowed runs and keeps the invariant. *)
Lemma receive_runs m msg :
  invariant m → handler_returns m → armed m ≠ 0 →
  ∃ m', on_receive msg m = (Ret tt, m') ∧ invariant m' ∧ cb_ m' = cb_ m ∧
    started_ m' = started_ m ∧ stopped_ m' = stopped_ m ∧ user m' = user_after m (Receive msg).
Proof.
  intros [Hparts Hst Hidle Harm Hstop] Hh Ha.
  assert (Hc : client_ m = true).
  { destruct (client_ m) eqn:E; [done|]. by destruct (Hidle eq_refl) as (_ & ? & _). }
  assert (Hone : armed m = 1) by lia.
  unfold on_receive. rewrite bind_unfold. cbn [modify]. rewrite Hone. cbn [pred].
  set (m1 := set_armed 0 m).
  assert (Hend : ∀ m2 : MqttClient W, client_ m2 = true → ioc_ m2 = true → runner_ m2 = true →
    started_ m2 = started_ m → stopped_ m2 = stopped_ m → armed m2 = 0 →
    ∃ m3, (m0 ← get; if stopped_ m0 then mret tt else arm_receive) m2 = (Ret tt, m3) ∧
      invariant m3 ∧ cb_ m3 = cb_ m2 ∧ started_ m3 = started_ m ∧ stopped_ m3 = stopped_ m ∧
      user m3 = user m2).
  { intros m2 Hc2 Hi2 Hr2 Hs2 Hp2 Ha2. rewrite bind_unfold. cbn [get]. rewrite Hp2.
    destruct (stopped_ m) eqn:Hsm.
    - exists m2. split_and!; [done| |done..]. split; rewrite ?Hc2, ?Hi2, ?Hr2, ?Hs2, ?Hp2, ?Ha2;
        try done; [|lia]. intros Hs. by destruct (Hst Hs) as (_ & ? & _).
    - rewrite (arm_run _ Hc2), Ha2. exists (set_armed 1 m2). split_and!; [done| |done..].
      split; simpl; rewrite ?Hc2, ?Hi2, ?Hr2, ?Hs2, ?Hp2; try done; auto. }
  destruct Hparts as [Hioc Hrun]. rewrite Hc in Hioc, Hrun.
  destruct msg as [[t p]|]; [|unfold user_after; by apply (Hend m1)].
  rewrite bind_unfold. cbn [get].
  assert (Hflush : ∃ m2, (if bool_decide (pending_topics_ m1 = []) then mret tt else flush_topics) m1
    = (Ret tt, m2) ∧ client_ m2 = true ∧ ioc_ m2 = true ∧ runner_ m2 = true ∧
    started_ m2 = started_ m ∧ stopped_ m2 = stopped_ m ∧ armed m2 = 0 ∧ cb_ m2 = cb_ m ∧
    user m2 = user m).
  { case_bool_decide; [by exists m1|].
    destruct (flush_run m1 Hc)
      as (m2 & Hrun2 & _ & _ & H1 & H2 & H3 & H4 & H5 & H6 & H7 & H8 & _ & H9 & _).
    exists m2. rewrite H1, H2, H3, H4, H5, H6, H8, H9. done. }
  destruct Hflush as (m2 & Hrun2 & Hc2 & Hi2 & Hr2 & Hs2 & Hp2 & Ha2 & Hcb2 & Hu2).
  rewrite (bind_run _ _ _ _ _ Hrun2).
  assert (Hh2 : handler_returns m2) by (intros h' t' p'; rewrite Hcb2, Hu2; apply Hh).
  rewrite (bind_run _ _ _ _ _ (call_returns m2 t p Hh2)).
  destruct (Hend (set_user (user_after m2 (Receive (Some (t, p)))) m2) Hc2 Hi2 Hr2 Hs2 Hp2 Ha2)
    as (m3 & -> & Hinv & Hcb3 & Hs3 & Hp3 & Hu3).
  exists m3. rewrite Hcb3, Hs3, Hp3, Hu3. split_and!; try done. simpl. by rewrite Hcb2, Hu2.
Qed.

Lemma task_runs m t ts :
  invariant m → tasks m = t :: ts →
  ∃ m', run_task t m = (Ret tt, m') ∧ invariant m' ∧ cb_ m' = cb_ m ∧
    started_ m' = started_ m ∧ stopped_ m' = stopped_ m ∧ user m' = user m.
Proof.
  intros [[Hioc Hrun] Hst Hidle Harm Hstop] Ht.
  assert (Hc : client_ m = true).
  { destruct (client_ m) eqn:E; [done|]. destruct (Hidle eq_refl) as [Hn _]. congruence. }
  unfold run_task. rewrite bind_unfold. cbn [modify]. rewrite Ht. cbn [tail].
  set (m1 := set_tasks ts m).
  destruct t as [|topic].
  - destruct (flush_run m1 Hc) as (m2 & -> & _ & _ & H1 & H2 & H3 & H4 & H5 & H6 & H7 & H8 & _ & H9 & _).
    exists m2. split_and!; [done| |done..].
    split; rewrite ?H1, ?H2, ?H3, ?H5, ?H6, ?H7, ?H8; simpl; mqtt_solver.
  - rewrite (do_subscribe_run topic m1 Hc). eexists. split_and!; [done| |done..].
    split; simpl; mqtt_solver.
Qed.

Lemma event_runs m e :
  invariant m → handler_returns m → allowed m e →
  ∃ m', run_event e m = (Ret tt, m') ∧ invariant m' ∧
    cb_ m' = match e with SetHandler h => Some h | _ => cb_ m end ∧
    started_ m' = match e with Start => true | StopBegin => false | _ => started_ m end ∧
    user m' = user_after m e.
Proof.
  intros Hi Hh Hal. pose proof Hi as [[Hioc Hrun] Hst Hidle Harm Hstop].
  destruct e as [| | |t|h|t p| |msg]; cbn [run_event].
  - destruct (started_ m) eqn:Hs.
    + rewrite start_again by done. by exists m; rewrite ?Hs.
    + rewrite start_run by done. eexists. split_and!; [reflexivity| |done..].
      split; simpl; mqtt_solver.
  - destruct (started_ m) eqn:Hs.
    + destruct (Hst eq_refl) as (Hc & Hp & Ha).
      rewrite (bind_run _ _ _ _ _ (stop_begin_run m Hs Hp)).
      eexists. split_and!; [reflexivity| |done..]. split; simpl; mqtt_solver.
    + rewrite (bind_run _ _ _ _ _ (stop_begin_idle m Hs)). by exists m; rewrite ?Hs.
  - rewrite stop_end_run. eexists. split_and!; [reflexivity| |done..]. simpl in Hal.
    destruct Hal as [Hp Hs].
    split; simpl; mqtt_solver.
  - unfold subscribe. rewrite bind_unfold. cbn [modify]. rewrite bind_unfold. cbn [get].
    cbn [set_pending started_ client_ ioc_].
    destruct (started_ m && client_ m && ioc_ m) eqn:Hb.
    + eexists. split_and!; [reflexivity| |done..].
      apply andb_true_iff in Hb as [[Hs Hc]%andb_true_iff _].
      split; simpl; mqtt_solver.
    + eexists. split_and!; [reflexivity| |done..]. by split.
  - eexists. split_and!; [reflexivity| |done..]. by split.
  - unfold publish_message. rewrite bind_unfold, bind_unfold. cbn [get].
    destruct (negb (started_ m) || negb (client_ m)); [by exists m|].
    eexists. split_and!; [reflexivity| |done..]. by split.
  - rewrite bind_unfold. cbn [get]. simpl in Hal. destruct (tasks m) as [|t ts] eqn:Ht; [done|].
    destruct (task_runs m t ts Hi Ht) as (m' & ? & ? & ? & ? & ? & ?). by exists m'.
  - destruct (receive_runs m msg Hi Hh Hal) as (m' & ? & ? & ? & ? & ? & ?). by exists m'.
Qed.

End proofs.

(** ** The broker *)

(** What the client was constructed with, and what it was told to connect to. *)
Definition endpoint {W} (m : MqttClient W) : string * Z * string :=
  (broker_ m, port_ m, clientId_ m).
Definition network {W} (m : MqttClient W) : (string * Z * string) * list (string * Z * string) :=
  (endpoint m, connections m).

(** The thread, the context, the client and the flags. *)
Definition lifeline {W} (m : MqttClient W) : bool * bool * bool * bool * bool :=
  (ioc_ m, runner_ m, client_ m, started_ m, stopped_ m).

Lemma leaves_call {W X} (f : MqttClient W → X) t p :
  (∀ u m, f (set_user u m) = f m) → leaves f (call_handler t p).
Proof.
  intros Hf. apply leaves_read. intros m. destruct (cb_ m) as [h|]; [|apply leaves_ret].
  by apply leaves_zoom.
Qed.

Ltac leaves_solver := repeat first [leaves_step | apply leaves_call; done].

(** Only [start] connects, and to the broker of the constructor. *)
Lemma event_offline {W} (e : @event W) :
  match e with Start => True | _ => leaves network (run_event e) end.
Proof.
  destruct e; cbn [run_event]; [done|..];
    unfold stop_begin, stop_end, subscribe, set_message_handler, publish_message, run_task, on_receive,
      flush_topics, do_subscribe, deref_client, arm_receive; leaves_solver.
Qed.

(** The io thread and the publishers do not end the client's life. *)
Lemma event_lifeline {W} (e : @event W) :
  match e with Start | StopBegin | StopEnd => True | _ => leaves lifeline (run_event e) end.
Proof.
  destruct e; cbn [run_event]; [done|done|done|..];
    unfold subscribe, set_message_handler, publish_message, run_task, on_receive,
      flush_topics, do_subscribe, deref_client, arm_receive; leaves_solver.
Qed.

(** ** The theorems *)

Section theorems.
Context {W : Type}.
Variables (broker : string) (port : Z) (clientId : string).
Implicit Types (m : MqttClient W) (u : W).

Abbreviation new_client u := (new_MqttClient broker port clientId u).

(** The handlers set by an execution return. *)
Definition handlers_return (es : list (@event W)) : Prop :=
  Forall (λ e, match e with SetHandler h => ∀ t p u, fst (h t p u) = Ret tt | _ => True end) es.

Lemma total_returns m : handler_total m → handler_returns m.
Proof. intros Ht h t p. apply Ht. Qed.

Lemma mqtt_steps_invariant u es m :
  steps (new_client u) es m → handlers_return es → invariant m ∧ handler_total m.
Proof.
  induction 1 as [|es m e m' Hs IH Hal Hrun]; intros Hh.
  - split; [split; simpl; mqtt_solver|]. intros h t p u' [=].
  - apply Forall_app in Hh as [Hes He]. rewrite Forall_singleton in He.
    destruct (IH Hes) as [Hi Hr].
    destruct (event_runs m e Hi (total_returns m Hr) Hal) as (m2 & Hrun2 & Hi2 & Hcb & _).
    rewrite Hrun in Hrun2. injection Hrun2 as <-. split; [done|].
    intros h t p u'. rewrite Hcb. destruct e; try apply Hr. intros [= <-]. apply He.
Qed.

(** Subscribing before the client is started only stores the topics. *)
Lemma subscribe_stored l m :
  started_ m = false →
  for_each subscribe l m = (Ret tt, set_pending (pending_topics_ m ++ l) m).
Proof.
  revert m. induction l as [|t l IH]; intros m Hm; cbn [for_each].
  - rewrite app_nil_r. by destruct m.
  - rewrite bind_unfold. unfold subscribe at 1. rewrite bind_unfold. cbn [modify].
    rewrite bind_unfold. cbn [get set_pending started_ client_ ioc_]. rewrite Hm.
    cbn [andb mret M_ret]. rewrite IH by done. simpl. by rewrite <- (assoc_L (++)).
Qed.

(** Starting a client that is not started flushes its topics. *)
Lemma start_flushes m :
  started_ m = false →
  ∃ m', (start ;; run_event RunTask) m = (Ret tt, m') ∧ pending_topics_ m' = [] ∧
    subscribed m' = subscribed m ++ pending_topics_ m ∧ client_ m' = true ∧ cb_ m' = cb_ m ∧
    started_ m' = true ∧ stopped_ m' = false ∧ tasks m' = [] ∧ armed m' = 1 ∧ user m' = user m ∧
    connections m' = connections m ++ [(broker_ m, port_ m, clientId_ m)].
Proof.
  intros Hm. rewrite (bind_run _ _ _ _ _ (start_run m Hm)).
  destruct (flush_run (set_tasks [] (started_client m)) eq_refl)
    as (m' & Hrun & Hp & Hs & Hc & _ & _ & Hcb & Hst & Hsp & Ht & Ha & _ & Hu & Hcn).
  exists m'. split; [exact Hrun|]. rewrite Hp, Hs, Hc, Hcb, Hst, Hsp, Ht, Ha, Hu, Hcn. done.
Qed.

(** A message received by a started client with nothing to flush goes to the
    handler, and the next receive is armed. *)
Lemma receive_message m h t p u' :
  client_ m = true → stopped_ m = false → armed m = 1 → pending_topics_ m = [] →
  cb_ m = Some h → h t p (user m) = (Ret tt, u') →
  on_receive (Some (t, p)) m = (Ret tt, set_user u' m).
Proof.
  intros Hc Hsp Ha Hp Hcb Hh. unfold on_receive. rewrite bind_unfold. cbn [modify].
  rewrite bind_unfold. cbn [get]. rewrite bool_decide_true by exact Hp.
  rewrite bind_unfold. cbn [mret M_ret].
  rewrite (bind_run _ _ _ _ _ (call_runs (set_armed _ m) t p u' h Hcb Hh)), bind_unfold.
  cbn [get set_user set_armed stopped_]. rewrite Hsp, arm_run by exact Hc.
  rewrite Ha. destruct m. simpl in *. by subst.
Qed.

(** C33. The client never uses a connection it does not have: in every execution
    whose message handlers do not throw, every allowed event runs to its end, the
    io thread exists exactly while the client does, at most one receive is
    outstanding, and exactly one while the client is started. *)
Theorem mqtt_lifecycle u es m e
  (Hs : steps (new_client u) es m) (Hh : handlers_return es) (Hal : allowed m e) :
  fst (run_event e m) = Ret tt ∧ runner_ m = client_ m ∧ armed m ≤ 1 ∧
  (started_ m = true → client_ m = true ∧ armed m = 1).
Proof.
  destruct (mqtt_steps_invariant u es m Hs Hh) as [Hi Hr].
  destruct (event_runs m e Hi (total_returns m Hr) Hal) as (m' & -> & _).
  split_and!; [done|apply (inv_parts m Hi)|apply (inv_armed m Hi)|].
  intros Hst. by destruct (inv_started m Hi Hst) as (? & _ & ?).
Qed.

(** [subscribe] for each topic, then [start], then the task it posted. *)
Definition subscribe_start (ts : list string) : M (MqttClient W) unit :=
  for_each subscribe ts ;; start ;; run_event RunTask.
(** [stop] and [start] again. *)
Definition restart : M (MqttClient W) unit :=
  stop_begin ;; stop_end ;; start ;; run_event RunTask.

(** The topics subscribed before [start] are asked for once each, in order, when
    the client starts; after a [stop], a second [start] asks for none of them: they
    were cleared by the first flush, although [subscribe] stores them always. *)
Theorem subscriptions_flushed_once u ts :
  ∃ m m', subscribe_start ts (new_client u) = (Ret tt, m) ∧
    subscribed m = ts ∧ pending_topics_ m = [] ∧ started_ m = true ∧ armed m = 1 ∧
    restart m = (Ret tt, m') ∧ started_ m' = true ∧ subscribed m' = ts.
Proof.
  unfold subscribe_start. rewrite (bind_run _ _ _ _ _ (subscribe_stored ts (new_client u) eq_refl)).
  destruct (start_flushes (set_pending ts (new_client u)) eq_refl)
    as (m & Hrun & Hp & Hs & _ & _ & Hst & Hsp & _ & Ha & _).
  destruct (start_flushes (set_client false (set_flags false true m)) eq_refl)
    as (m' & Hrun' & _ & Hs' & _ & _ & Hst' & _).
  exists m, m'. split_and!; try done.
  - unfold restart. erewrite bind_run; [|by apply stop_begin_run].
    erewrite bind_run by reflexivity. exact Hrun'.
  - rewrite Hs'. simpl. rewrite Hp, app_nil_r. exact Hs.
Qed.

(** A topic subscribed while the client runs is asked for twice when a message
    arrives: once by the task [subscribe] posts, and once by the flush of the next
    receive, which finds it still pending. *)
Theorem subscribed_twice u es m t topic payload
  (Hs : steps (new_client u) es m) (Hh : handlers_return es)
  (Hst : started_ m = true) (Ht : tasks m = []) (Hp : pending_topics_ m = []) :
  ∃ m', (subscribe t ;; run_event RunTask ;; on_receive (Some (topic, payload))) m =
          (Ret tt, m') ∧ subscribed m' = subscribed m ++ [t; t].
Proof.
  destruct (mqtt_steps_invariant u es m Hs Hh) as [Hi Hr].
  destruct (inv_started m Hi Hst) as (Hc & Hsp & Ha). destruct (inv_parts m Hi) as [Hioc _].
  set (m1 := set_tasks [SubscribeTask t] (set_pending [t] m)).
  assert (H1 : subscribe t m = (Ret tt, m1)).
  { unfold subscribe. rewrite bind_unfold. cbn [modify]. rewrite bind_unfold.
    cbn [get set_pending started_ client_ ioc_ pending_topics_].
    rewrite Hst, Hioc, Hc, Hp. cbn [andb app modify]. simpl. by rewrite Ht. }
  rewrite (bind_run _ _ _ _ _ H1).
  set (m2 := log_subscribe t (set_tasks [] m1)).
  assert (H2 : run_event RunTask m1 = (Ret tt, m2)) by exact (do_subscribe_run t (set_tasks [] m1) Hc).
  rewrite (bind_run _ _ _ _ _ H2).
  destruct (flush_run (set_armed 0 m2) Hc)
    as (m3 & H3 & _ & Hsub & Hc3 & _ & _ & Hcb3 & _ & Hsp3 & _ & _ & _ & Hu3 & _).
  unfold on_receive. rewrite bind_unfold. cbn [modify].
  replace (pred (armed m2)) with 0 by (simpl; by rewrite Ha).
  rewrite bind_unfold. cbn [get]. rewrite bool_decide_false by (simpl; discriminate).
  rewrite (bind_run _ _ _ _ _ H3).
  assert (Hh3 : handler_returns m3) by (intros h' t' p'; rewrite Hcb3; apply Hr).
  rewrite (bind_run _ _ _ _ _ (call_returns m3 topic payload Hh3)), bind_unfold.
    cbn [get set_user stopped_].
  rewrite Hsp3. simpl. rewrite Hsp, arm_run by (simpl; rewrite Hc3; exact Hc).
  eexists. split; [reflexivity|]. simpl. rewrite Hsub. simpl. by rewrite <- (assoc_L (++)).
Qed.

(** [publish] settles every message: a client that is not started reports the
    failure at once and sends nothing; a started one sends exactly the message and
    keeps the callback for the broker's answer. *)
Theorem publish_settles u es m topic payload
  (Hs : steps (new_client u) es m) (Hh : handlers_return es) :
  publish topic payload m =
  if started_ m then (None, log_sent topic payload m)
  else (Some (false, "MQTT client not started"), m).
Proof.
  destruct (mqtt_steps_invariant u es m Hs Hh) as [Hi _].
  unfold publish, mqtt_publisher, publish_message. rewrite bind_unfold. cbn [get].
  destruct (started_ m) eqn:Hst; [|done].
  destruct (inv_started m Hi Hst) as (-> & _ & _). done.
Qed.

End theorems.

(** ** Witnesses *)

Definition sample_handler : string → string → M nat unit := λ _ _, modify S.

Lemma sample_steps :
  steps (new_MqttClient "broker" 1883 "id" 0) [SetHandler sample_handler; Start]
    (exec start (set_handler (Some sample_handler) (new_MqttClient "broker" 1883 "id" 0))).
Proof.
  eapply (steps_snoc _ [SetHandler sample_handler]).
  - eapply (steps_snoc _ []); [constructor|exact I|reflexivity].
  - intros [=].
  - reflexivity.
Qed.

Lemma sample_handlers : handlers_return [SetHandler sample_handler; Start].
Proof. repeat constructor. Qed.

Lemma mqtt_lifecycle_witness :
  fst (run_event (Receive (Some ("t", "p")))
         (exec start (set_handler (Some sample_handler) (new_MqttClient "broker" 1883 "id" 0)))) = Ret tt.
Proof.
  apply (mqtt_lifecycle "broker" 1883 "id" 0 [SetHandler sample_handler; Start] _ (Receive (Some ("t", "p")))
           sample_steps sample_handlers).
  discriminate.
Defined.

(** A client that has flushed its topics. *)
Definition flushed : MqttClient nat :=
  exec (run_event RunTask) (exec start (set_handler (Some sample_handler) (new_MqttClient "broker" 1883 "id" 0))).

Lemma subscribed_twice_witness :
  ∃ m', (subscribe "t" ;; run_event RunTask ;; on_receive (Some ("x", "y"))) flushed =
          (Ret tt, m') ∧ subscribed m' = ["t"; "t"].
Proof.
  apply (subscribed_twice "broker" 1883 "id" 0 [SetHandler sample_handler; Start; RunTask] flushed "t" "x" "y").
  - eapply (steps_snoc _ [SetHandler sample_handler; Start]);
      [exact sample_steps|vm_compute; discriminate|vm_compute; reflexivity].
  - repeat constructor.
  - reflexivity.
  - reflexivity.
  - reflexivity.
Defined.

Lemma publish_settles_witness :
  publish "t" "p" (exec start (set_handler (Some sample_handler) (new_MqttClient "broker" 1883 "id" 0))) =
  (None, log_sent "t" "p" (exec start (set_handler (Some sample_handler) (new_MqttClient "broker" 1883 "id" 0)))).
Proof.
  rewrite (publish_settles "broker" 1883 "id" 0 [SetHandler sample_handler; Start] _ "t" "p" sample_steps
             sample_handlers).
  reflexivity.
Defined.

End MqttClient.
