(* ===== verification/MqttConc.v ===== *)
(** * The threads of the MQTT client *)

(** [MqttClient] runs each call of [src/transport/mqtt_client/mqtt_client.cpp] as one
    step. Three kinds of threads are in it at once: the one that owns the client ([start],
    [subscribe], [stop]), the io thread it starts, and those that publish; no lock
    protects the members, only [started_] and [stopped_] are atomic. Here the calls are
    cut at their accesses to the shared members, in the order of the source, and the
    threads interleave.

    Boost's part is what its documentation says: the handlers of the [io_context] run on
    the io thread one at a time; [async_disconnect] completes; [ioc_->stop()] makes
    [run] return after the handler that calls it. *)

From S2P Require Import Prelude Stream MqttClient.

Module MqttConc.
Import MqttClient.

(** ** Where the threads are *)

(** The owner: outside, or before a statement of [subscribe], [start] or [stop]. *)
Inductive owner_pc : Type :=
| OwnerIdle
| SubPush (topic : string)
| SubPost (topic : string)
| StartFlag
| StartReset
| StartJoin
| StartContext
| StartClient
| StartRun
| StartPost
| StartArm
| StartThread
| StopFlag
| StopOnce
| StopDisconnect
| StopJoin
| StopClient
| StopContext.

(** What follows the flush: the end of the posted task, or the handler of a message. *)
Inductive after_flush : Type :=
| EndTask
| CallHandler (topic payload : string).

(** The io thread: not running, waiting in [run], or before a statement of a handler. *)
Inductive io_pc : Type :=
| IoDone
| IoIdle
| IoSubscribe (topic : string)
| IoEmpty (topic payload : string)
| IoBegin (k : after_flush)
| IoFlush (rest : list string) (k : after_flush)
| IoHandle (topic payload : string)
| IoStopped
| IoArm
| IoStop.

(** A publisher: before it reads [started_], before it reads [client_], before it uses
    it. *)
Inductive pub_pc : Type :=
| PubStarted (topic payload : string)
| PubClient (topic payload : string)
| PubUse (topic payload : string).

#[export] Instance owner_pc_eq_dec : EqDecision owner_pc.
Proof. solve_decision. Defined.
#[export] Instance after_flush_eq_dec : EqDecision after_flush.
Proof. solve_decision. Defined.
#[export] Instance io_pc_eq_dec : EqDecision io_pc.
Proof. solve_decision. Defined.
#[export] Instance pub_pc_eq_dec : EqDecision pub_pc.
Proof. solve_decision. Defined.

Inductive action : Type :=
| CallSubscribe (topic : string)
| CallStart
| CallStop
| OwnerStep
| RunTask
| Received (topic payload : string)
| ReceiveFailed
| Disconnected
| IoStep
| CallPublish (i : nat) (topic payload : string)
| PubStep (i : nat).

#[export] Instance action_eq_dec : EqDecision action.
Proof. solve_decision. Defined.

Section conc.
Context {W : Type}.

(** [disconnecting] is whether [async_disconnect] was called on the client. *)
Record config : Type := {
  mq : MqttClient W;
  owner : owner_pc;
  io : io_pc;
  pubs : gmap nat pub_pc;
  disconnecting : bool
}.

Definition set_mq (m : MqttClient W) (s : config) : config :=
  {| mq := m; owner := owner s; io := io s; pubs := pubs s; disconnecting := disconnecting s |}.
Definition set_owner (p : owner_pc) (s : config) : config :=
  {| mq := mq s; owner := p; io := io s; pubs := pubs s; disconnecting := disconnecting s |}.
Definition set_io (p : io_pc) (s : config) : config :=
  {| mq := mq s; owner := owner s; io := p; pubs := pubs s; disconnecting := disconnecting s |}.
Definition set_pubs (f : gmap nat pub_pc → gmap nat pub_pc) (s : config) : config :=
  {| mq := mq s; owner := owner s; io := io s; pubs := f (pubs s);
     disconnecting := disconnecting s |}.
Definition set_disconnecting (b : bool) (s : config) : config :=
  {| mq := mq s; owner := owner s; io := io s; pubs := pubs s; disconnecting := b |}.

Definition on_client {A} (c : M (MqttClient W) A) : M config A := zoom mq set_mq c.
Definition owner_at (p : owner_pc) : M config unit := modify (set_owner p).
Definition io_at (p : io_pc) : M config unit := modify (set_io p).

(** ** The owner *)

Definition owner_step : M config unit :=
  s ← get;
  let m := mq s in
  match owner s with
  | OwnerIdle => mret tt
  | SubPush t =>
      on_client (modify (set_pending (pending_topics_ m ++ [t]))) ;; owner_at (SubPost t)
  | SubPost t =>
      (if started_ m && client_ m && ioc_ m
       then on_client (modify (set_tasks (tasks m ++ [SubscribeTask t]))) else mret tt) ;;
      owner_at OwnerIdle
  | StartFlag =>
      on_client (modify (set_flags true (stopped_ m))) ;;
      owner_at (if started_ m then OwnerIdle else StartReset)
  | StartReset => on_client (modify (set_flags (started_ m) false)) ;; owner_at StartJoin
  | StartJoin => on_client (modify (set_runner false)) ;; owner_at StartContext
  | StartContext => on_client (modify (set_ioc true)) ;; owner_at StartClient
  | StartClient =>
      on_client (modify (set_mqtt true)) ;; modify (set_disconnecting false) ;; owner_at StartRun
  | StartRun => on_client (deref_client ;; modify log_connection) ;; owner_at StartPost
  | StartPost =>
      on_client (modify (set_tasks (tasks m ++ [FlushPending]))) ;; owner_at StartArm
  | StartArm => on_client arm_receive ;; owner_at StartThread
  | StartThread => on_client (modify (set_runner true)) ;; io_at IoIdle ;; owner_at OwnerIdle
  | StopFlag =>
      on_client (modify (set_flags false (stopped_ m))) ;;
      owner_at (if started_ m then StopOnce else OwnerIdle)
  | StopOnce =>
      on_client (modify (set_flags (started_ m) true)) ;;
      owner_at (if stopped_ m then OwnerIdle else StopDisconnect)
  | StopDisconnect =>
      (if client_ m then modify (set_disconnecting true) else mret tt) ;; owner_at StopJoin
  | StopJoin => on_client (modify (set_runner false)) ;; owner_at StopClient
  | StopClient => on_client (modify (set_mqtt false)) ;; owner_at StopContext
  | StopContext => on_client (modify (set_ioc false)) ;; owner_at OwnerIdle
  end.

(** [join] waits for the io thread. *)
Definition owner_ready (s : config) : Prop :=
  match owner s with
  | OwnerIdle => False
  | StartJoin | StopJoin => runner_ (mq s) = true → io s = IoDone
  | _ => True
  end.

(** ** The io thread *)

(** The end of the loop of a flush, and what comes after. *)
Definition after (k : after_flush) : io_pc :=
  match k with EndTask => IoIdle | CallHandler t p => IoHandle t p end.

Definition io_step : M config unit :=
  s ← get;
  let m := mq s in
  match io s with
  | IoDone | IoIdle => mret tt
  | IoSubscribe t => on_client (do_subscribe t) ;; io_at IoIdle
  | IoEmpty t p =>
      io_at (if bool_decide (pending_topics_ m = []) then IoHandle t p else IoBegin (CallHandler t p))
  | IoBegin k => io_at (IoFlush (pending_topics_ m) k)
  | IoFlush (t :: rest) k => on_client (do_subscribe t) ;; io_at (IoFlush rest k)
  | IoFlush [] k => on_client (modify (set_pending [])) ;; io_at (after k)
  | IoHandle t p => on_client (call_handler t p) ;; io_at IoStopped
  | IoStopped => io_at (if stopped_ m then IoIdle else IoArm)
  | IoArm => on_client arm_receive ;; io_at IoIdle
  | IoStop => io_at (if ioc_ m then IoDone else IoIdle)
  end.

(** The handlers [run] picks. *)
Definition run_next : M config unit :=
  s ← get;
  match tasks (mq s) with
  | [] => mret tt
  | t :: ts =>
      on_client (modify (set_tasks ts)) ;;
      io_at (match t with FlushPending => IoBegin EndTask | SubscribeTask t => IoSubscribe t end)
  end.

Definition receive (p : io_pc) : M config unit :=
  on_client (modify (λ m, set_armed (pred (armed m)) m)) ;; io_at p.

(** ** The publishers *)

(** The callback reports the failure at once. *)
Definition pub_step (i : nat) : M config unit :=
  s ← get;
  match pubs s !! i with
  | Some (PubStarted t p) =>
      modify (set_pubs (if started_ (mq s) then insert i (PubClient t p) else delete i))
  | Some (PubClient t p) =>
      modify (set_pubs (if client_ (mq s) then insert i (PubUse t p) else delete i))
  | Some (PubUse t p) =>
      on_client (deref_client ;; modify (log_sent t p)) ;; modify (set_pubs (delete i))
  | None => mret tt
  end.

(** ** Executions *)

Definition run_action (a : action) : M config unit :=
  match a with
  | CallSubscribe t => owner_at (SubPush t)
  | CallStart => owner_at StartFlag
  | CallStop => owner_at StopFlag
  | OwnerStep => owner_step
  | RunTask => run_next
  | Received t p => receive (IoEmpty t p)
  | ReceiveFailed => receive IoStopped
  | Disconnected => io_at IoStop
  | IoStep => io_step
  | CallPublish i t p => modify (set_pubs (insert i (PubStarted t p)))
  | PubStep i => pub_step i
  end.

Definition enabled (s : config) (a : action) : Prop :=
  match a with
  | CallSubscribe _ | CallStart | CallStop => owner s = OwnerIdle
  | OwnerStep => owner_ready s
  | RunTask => io s = IoIdle ∧ tasks (mq s) ≠ []
  | Received _ _ | ReceiveFailed => io s = IoIdle ∧ armed (mq s) ≠ 0
  | Disconnected => io s = IoIdle ∧ disconnecting s = true
  | IoStep => io s ≠ IoDone ∧ io s ≠ IoIdle
  | CallPublish i _ _ => pubs s !! i = None
  | PubStep i => is_Some (pubs s !! i)
  end.

#[export] Instance owner_ready_dec s : Decision (owner_ready s).
Proof. unfold owner_ready. destruct (owner s); apply _. Defined.
#[export] Instance enabled_dec s a : Decision (enabled s a).
Proof. destruct a; cbn [enabled]; apply _. Defined.

(** The executions whose steps satisfy [R]. *)
Inductive csteps (R : config → action → Prop) (s : config) : list action → config → Prop :=
| csteps_nil : csteps R s [] s
| csteps_snoc l s' a s'' :
    csteps R s l s' → enabled s' a → R s' a → run_action a s' = (Ret tt, s'') →
    csteps R s (l ++ [a]) s''.

Definition init (m : MqttClient W) : config :=
  {| mq := m; owner := OwnerIdle; io := IoDone; pubs := ∅; disconnecting := false |}.

(** ** Data races *)

(** The members no lock protects, and what the next statement of a thread reads
    ([false]) or writes ([true]) of them. *)
Inductive member : Type := Runner | Client | Context | Pending.

#[export] Instance member_eq_dec : EqDecision member.
Proof. solve_decision. Defined.

Definition owner_access (p : owner_pc) : list (member * bool) :=
  match p with
  | OwnerIdle | StartFlag | StartReset | StopFlag | StopOnce => []
  | SubPush _ => [(Pending, true)]
  | SubPost _ => [(Client, false); (Context, false)]
  | StartJoin | StartThread | StopJoin => [(Runner, true)]
  | StartContext | StopContext => [(Context, true)]
  | StartClient => [(Client, true); (Context, false)]
  | StopClient => [(Client, true)]
  | StartRun | StartArm | StopDisconnect => [(Client, false)]
  | StartPost => [(Context, false)]
  end.

Definition io_access (p : io_pc) : list (member * bool) :=
  match p with
  | IoDone | IoIdle | IoHandle _ _ | IoStopped => []
  | IoSubscribe _ | IoArm => [(Client, false)]
  | IoEmpty _ _ | IoBegin _ => [(Pending, false)]
  | IoFlush (_ :: _) _ => [(Pending, false); (Client, false)]
  | IoFlush [] _ => [(Pending, true)]
  | IoStop => [(Context, false)]
  end.

Definition pub_access (p : pub_pc) : list (member * bool) :=
  match p with PubStarted _ _ => [] | PubClient _ _ | PubUse _ _ => [(Client, false)] end.

Definition conflict (l l' : list (member * bool)) : bool :=
  existsb (λ x, existsb (λ y, bool_decide (x.1 = y.1) && (x.2 || y.2)) l') l.

(** Two threads about to access the same member, one of them to write it. Two
    publishers, or a publisher and the io thread, only read. *)
Definition races (s : config) : Prop :=
  owner_ready s ∧
  (conflict (owner_access (owner s)) (io_access (io s)) = true ∨
   ∃ i p, pubs s !! i = Some p ∧ conflict (owner_access (owner s)) (pub_access p) = true).

(** ** The discipline of [main] *)

Definition starting (p : owner_pc) : bool :=
  match p with
  | StartFlag | StartReset | StartJoin | StartContext | StartClient | StartRun | StartPost
  | StartArm | StartThread => true
  | _ => false
  end.

(** Topics are subscribed while the io thread does not run, nobody publishes while the
    client starts, and [stop] is called when nobody is publishing. *)
Definition disciplined (s : config) (a : action) : Prop :=
  match a with
  | CallSubscribe _ => runner_ (mq s) = false
  | CallStart => pubs s = ∅
  | CallPublish _ _ _ => starting (owner s) = false
  | OwnerStep => owner s = StopFlag → pubs s = ∅
  | _ => True
  end.

#[export] Instance disciplined_dec s a : Decision (disciplined s a).
Proof. destruct a; cbn [disciplined]; apply _. Defined.

End conc.

Arguments config : clear implicits.

(** ** What the threads leave alone *)

Lemma leaves_on_client {W X A} (f : config W → X) (c : M (MqttClient W) A) :
  (∀ s, leaves (λ m, f (set_mq m s)) c) → leaves f (on_client c).
Proof.
  intros Hc s. specialize (Hc s (mq s)). unfold exec, on_client, zoom in *.
  destruct (c (mq s)) as [r m]. cbn [snd] in *. rewrite Hc. by destruct s.
Qed.

Ltac conc_leaves :=
  unfold owner_step, run_next, receive, pub_step, owner_at, io_at, do_subscribe, deref_client, arm_receive;
  repeat first [leaves_step | apply leaves_call; done | apply leaves_on_client; intros].

(** The publications and what was sent belong to the publishers. *)
Definition published {W} (s : config W) := (pubs s, sent (mq s)).

Lemma owner_published {W} : leaves published (owner_step (W:=W)).
Proof. conc_leaves. Qed.
Lemma io_published {W} : leaves published (io_step (W:=W)).
Proof. unfold io_step. conc_leaves. Qed.
Lemma run_next_published {W} : leaves published (run_next (W:=W)).
Proof. conc_leaves. Qed.

(** The owner and the flag of [start] and [stop] are not the io thread's. *)
Definition owned {W} (s : config W) := (owner s, started_ (mq s)).

Lemma io_owned {W} : leaves owned (io_step (W:=W)).
Proof. unfold io_step. conc_leaves. Qed.
Lemma run_next_owned {W} : leaves owned (run_next (W:=W)).
Proof. conc_leaves. Qed.
Lemma pub_owned {W} i : leaves owned (pub_step (W:=W) i).
Proof. conc_leaves. Qed.

(** ** The invariant *)

Section proofs.
Context {W : Type}.
Implicit Types (s : config W) (m : MqttClient W).

(** What the handler keeps of what it has captured. *)
Variable I : W → Prop.

Definition handler_keeps (h : string → string → M W unit) : Prop :=
  ∀ t p v, I v → fst (h t p v) = Ret tt ∧ I (exec (h t p) v).
Definition handler_ok m : Prop := (∀ h, cb_ m = Some h → handler_keeps h) ∧ I (user m).

(** What the progress of the owner says of the members. *)
Record parts : Type := {
  p_started : bool; p_client : bool; p_context : bool; p_runner : bool
}.

Definition parts_of s : parts :=
  {| p_started := started_ (mq s); p_client := client_ (mq s); p_context := ioc_ (mq s);
     p_runner := runner_ (mq s) |}.

Definition all (b : bool) : parts :=
  {| p_started := b; p_client := b; p_context := b; p_runner := b |}.

Definition running s : Prop :=
  parts_of s = all true ∧ stopped_ (mq s) = false ∧ io s ≠ IoDone ∧ disconnecting s = false.
Definition down s : Prop := parts_of s = all false ∧ io s = IoDone.

(** [start] under way, with or without the context and the client. *)
Definition built (client context : bool) s : Prop :=
  parts_of s = {| p_started := true; p_client := client; p_context := context; p_runner := false |} ∧
  io s = IoDone.
(** [stop] under way. *)
Definition closing (client context runner : bool) s : Prop :=
  parts_of s =
    {| p_started := false; p_client := client; p_context := context; p_runner := runner |} ∧
  stopped_ (mq s) = true.

Definition shape s : Prop :=
  match owner s with
  | OwnerIdle | SubPost _ | StartFlag | StopFlag => running s ∨ down s
  | SubPush _ => down s
  | StartReset => built false false s
  | StartJoin | StartContext => built false false s ∧ stopped_ (mq s) = false
  | StartClient => built false true s ∧ stopped_ (mq s) = false
  | StartRun | StartPost | StartArm | StartThread =>
      built true true s ∧ stopped_ (mq s) = false ∧ disconnecting s = false
  | StopOnce =>
      parts_of s = {| p_started := false; p_client := true; p_context := true; p_runner := true |} ∧
      stopped_ (mq s) = false ∧ io s ≠ IoDone ∧ disconnecting s = false
  | StopDisconnect =>
      closing true true true s ∧ io s ≠ IoDone ∧ disconnecting s = false
  | StopJoin => closing true true true s ∧ (io s = IoDone ∨ disconnecting s = true)
  | StopClient => closing true true false s ∧ io s = IoDone
  | StopContext => closing false true false s ∧ io s = IoDone
  end.

(** A publisher past its check of [started_] has a client to use. *)
Definition publishing (p : pub_pc) : bool :=
  match p with PubStarted _ _ => false | _ => true end.

Record inv s : Prop := {
  i_shape : shape s;
  i_io : io s ≠ IoDone → client_ (mq s) = true ∧ ioc_ (mq s) = true ∧ runner_ (mq s) = true;
  i_stop : io s = IoStop → disconnecting s = true;
  i_pubs : ∀ i p, pubs s !! i = Some p → publishing p = true →
    started_ (mq s) = true ∧ client_ (mq s) = true;
  i_starting : starting (owner s) = true → pubs s = ∅;
  i_handler : handler_ok (mq s)
}.

(** A step that leaves the members, the owner and the publishers alone. *)
Lemma inv_frame s s' :
  inv s → owner s' = owner s → parts_of s' = parts_of s → stopped_ (mq s') = stopped_ (mq s) →
  (io s' = IoDone ↔ io s = IoDone) → (io s' = IoStop → disconnecting s = true) →
  pubs s' = pubs s → disconnecting s' = disconnecting s → handler_ok (mq s') → inv s'.
Proof.
  intros [Hsh Hio Hstop Hp Hst Ht] Ho Hparts Hsp Hi Hi' Hpubs Hd Ht'.
  pose proof Hparts as Hparts'. unfold parts_of in Hparts'. injection Hparts' as E1 E2 E3 E4.
  split; rewrite ?Ho, ?Hpubs, ?E1, ?E2, ?E3, ?E4, ?Hd; [|tauto|done..].
  unfold shape, running, down, built, closing in *. rewrite Ho.
  destruct (owner s); rewrite ?Hparts, ?Hsp, ?Hd, ?Hi; done.
Qed.

(** A computation on the client that returns. *)
Lemma on_client_run {A} (c : M (MqttClient W) A) r m' s :
  c (mq s) = (r, m') → on_client c s = (r, set_mq m' s).
Proof. intros Hc. unfold on_client, zoom. by rewrite Hc. Qed.

Lemma arm_receive_run m :
  arm_receive m = (Ret tt, if client_ m then set_armed (S (armed m)) m else m).
Proof. unfold arm_receive. rewrite bind_unfold. cbn [get]. by destruct (client_ m). Qed.

Lemma deref_run f m :
  client_ m = true → (deref_client ;; modify f) m = (Ret tt, f m).
Proof. intros Hc. unfold deref_client. rewrite !bind_unfold. cbn [get]. by rewrite Hc. Qed.

Lemma handler_runs m t p :
  handler_ok m → ∃ m', call_handler t p m = (Ret tt, m') ∧ ∃ v, m' = set_user v m ∧ handler_ok m'.
Proof.
  intros [Hh Hu]. eexists. split.
  - apply call_returns. intros h t' p' Hcb. by apply (Hh h Hcb t' p').
  - eexists. split; [reflexivity|]. split; [exact Hh|]. cbn. unfold user_after.
    destruct (cb_ m) as [h|] eqn:Hcb; [|done]. by apply (Hh h eq_refl).
Qed.

(** *** What the io thread still has to do *)

(** The statements left once [stopped_] is set: of the current handler, of the tasks,
    and of the receive outstanding, which flush at most the topics pending now. *)
Definition after_cost (k : after_flush) : nat := match k with EndTask => 2 | CallHandler _ _ => 4 end.
Definition receive_cost (n : nat) : nat := 6 + n.
Definition task_cost (n : nat) : nat := 3 + n.
Definition handler_cost (n : nat) (p : io_pc) : nat :=
  match p with
  | IoDone => 0
  | IoStop => 1
  | IoIdle => 2
  | IoSubscribe _ | IoStopped => 3
  | IoHandle _ _ => 4
  | IoFlush rest k => 1 + length rest + after_cost k
  | IoBegin k => 2 + n + after_cost k
  | IoEmpty _ _ => 7 + n
  | IoArm => 3 + receive_cost n
  end.
Definition io_cost s : nat :=
  let n := length (pending_topics_ (mq s)) in
  handler_cost n (io s) + length (tasks (mq s)) * task_cost n + armed (mq s) * receive_cost n.

(** *** The io thread *)

Definition io_action (a : action) : bool :=
  match a with
  | RunTask | Received _ _ | ReceiveFailed | Disconnected | IoStep => true
  | _ => false
  end.

(** The io thread ends only while [stop] waits for it. *)
Lemma stop_joining s :
  inv s → io s ≠ IoDone → disconnecting s = true →
  owner s = StopJoin ∧ closing true true true s.
Proof.
  intros [Hsh _ _ _ _ _] Hio Hd. unfold shape, running, down, built, closing in *.
  destruct (owner s); try naive_solver congruence.
Qed.

Lemma io_end_ok s : inv s → io s = IoStop → inv (set_io IoDone s).
Proof.
  intros Hi Hio. pose proof (i_stop _ Hi Hio) as Hd.
  destruct (stop_joining s Hi) as [Ho Hc]; [by rewrite Hio|done|].
  destruct Hi as [Hsh Hio' Hst Hp Hs Ht]. split; try done.
  unfold shape in *. cbn [set_io owner]. rewrite Ho in *. split; [exact Hc|by left].
Qed.

Ltac cost_solver Hio :=
  unfold io_cost, task_cost, receive_cost; cbn; rewrite ?Hio;
  try match goal with H : tasks _ = _ |- _ => rewrite H end;
  try match goal with H : armed _ = _ |- _ => rewrite H end;
  cbn [handler_cost after_cost length]; unfold receive_cost; cbn; nia.
Ltac io_frame s Hio :=
  eexists; split; [reflexivity|]; split;
  [ apply (inv_frame s); try done; cbn [io_at modify set_io io]; try (rewrite Hio; by split)
  | try (intros; cost_solver Hio) ].

Lemma io_step_ok s :
  inv s → enabled s IoStep →
  ∃ s', io_step s = (Ret tt, s') ∧ inv s' ∧ (stopped_ (mq s) = true → io_cost s' < io_cost s).
Proof.
  intros Hi [Hd Hidle]. destruct (i_io _ Hi Hd) as (Hc & Hctx & _).
  pose proof (i_handler _ Hi) as Ht. unfold io_step. rewrite bind_unfold. cbn [get].
  destruct (io s) as [| |t|t p|k|[|t rest] k|t p| | |] eqn:Hio; try done.
  - rewrite (bind_run _ _ _ _ _ (on_client_run _ _ _ s (do_subscribe_run t (mq s) Hc))).
    io_frame s Hio.
  - case_bool_decide; io_frame s Hio.
  - io_frame s Hio.
  - destruct k; io_frame s Hio.
  - rewrite (bind_run _ _ _ _ _ (on_client_run _ _ _ s (do_subscribe_run t (mq s) Hc))).
    io_frame s Hio.
  - destruct (handler_runs (mq s) t p Ht) as (m' & Hrun & v & -> & Hok).
    rewrite (bind_run _ _ _ _ _ (on_client_run _ _ _ s Hrun)). io_frame s Hio.
  - destruct (stopped_ (mq s)) eqn:Hsp; io_frame s Hio.
  - rewrite (bind_run _ _ _ _ _ (on_client_run _ _ _ s (arm_receive_run (mq s)))), Hc.
    io_frame s Hio.
  - rewrite Hctx. eexists. split; [reflexivity|]. split; [by apply io_end_ok|].
    intros _. cost_solver Hio.
Qed.

Lemma io_ok s a :
  inv s → enabled s a → io_action a = true →
  ∃ s', run_action a s = (Ret tt, s') ∧ inv s' ∧ (stopped_ (mq s) = true → io_cost s' < io_cost s).
Proof.
  intros Hi He Ha. pose proof (i_handler _ Hi) as Ht. destruct a; try done; cbn [run_action].
  - destruct He as [Hio Htasks]. unfold run_next. rewrite bind_unfold. cbn [get].
    destruct (tasks (mq s)) as [|[|t] ts] eqn:Hts; [done|..]; io_frame s Hio.
  - destruct He as [Hio Hone]. destruct (armed (mq s)) as [|n] eqn:Hn; [done|]. io_frame s Hio.
  - destruct He as [Hio Hone]. destruct (armed (mq s)) as [|n] eqn:Hn; [done|]. io_frame s Hio.
  - destruct He as [Hio Hd]. io_frame s Hio.
  - by apply io_step_ok.
Qed.

(** *** The publishers *)

Lemma inv_pubs s f :
  inv s → starting (owner s) = false →
  (∀ i p, f (pubs s) !! i = Some p → publishing p = true →
    (∃ j q, pubs s !! j = Some q ∧ publishing q = true) ∨
    (started_ (mq s) = true ∧ client_ (mq s) = true)) →
  inv (set_pubs f s).
Proof.
  intros [Hsh Hio Hst Hp Hs Ht] Hnot Hf. split; try done.
  - intros i p Hi Hpub. destruct (Hf i p Hi Hpub) as [(j & q & Hj & Hq)|?]; [by eapply Hp|done].
  - cbn. by rewrite Hnot.
Qed.

(** Outside [start], a client that is started exists. *)
Lemma started_client_ok s :
  inv s → starting (owner s) = false → started_ (mq s) = true → client_ (mq s) = true.
Proof.
  intros [Hsh _ _ _ _ _] Hnot Hst. unfold shape, running, down, built, closing, parts_of, all in Hsh.
  destruct (owner s); try done; naive_solver congruence.
Qed.

Lemma pub_ok s i : inv s → is_Some (pubs s !! i) → ∃ s', pub_step i s = (Ret tt, s') ∧ inv s'.
Proof.
  intros Hi [p Hp]. unfold pub_step. rewrite bind_unfold. cbn [get]. rewrite Hp.
  assert (Hnot : starting (owner s) = false).
  { destruct (starting (owner s)) eqn:E; [|done]. rewrite (i_starting _ Hi E) in Hp. done. }
  assert (Hdel : inv (set_pubs (delete i) s)).
  { apply inv_pubs; try done. intros j q [_ Hj]%lookup_delete_Some Hq. left. eauto. }
  assert (Hins : ∀ q, started_ (mq s) = true → client_ (mq s) = true → inv (set_pubs (insert i q) s)).
  { intros q Hst Hc. apply inv_pubs; try done. intros; by right. }
  destruct p as [t pl|t pl|t pl].
  - eexists. split; [reflexivity|]. destruct (started_ (mq s)) eqn:Hst; [|done].
    apply Hins; [done|by apply started_client_ok].
  - destruct (i_pubs _ Hi i _ Hp eq_refl) as [Hst Hc].
    eexists. split; [reflexivity|]. rewrite Hc. by apply Hins.
  - destruct (i_pubs _ Hi i _ Hp eq_refl) as [Hst Hc].
    rewrite (bind_run _ _ _ _ _ (on_client_run _ _ _ s (deref_run (log_sent t pl) (mq s) Hc))).
    eexists. split; [reflexivity|]. apply (inv_frame (set_pubs (delete i) s)); try done;
      apply Hi.
Qed.

(** *** The owner *)

(** The members of a state with a known owner, as equations. *)
Ltac members :=
  repeat match goal with
  | H : _ ∧ _ |- _ => destruct H
  | H : {| p_started := _; p_client := _; p_context := _; p_runner := _ |} = _ |- _ =>
      injection H as ? ? ? ?
  end.
Ltac known :=
  repeat match goal with
  | H : ?t = true |- context [?t] => rewrite H
  | H : ?t = false |- context [?t] => rewrite H
  end; cbn [andb].
Ltac goes_on := eexists; split; [reflexivity|]; split; cbn in *; members; try done; eauto.
Ltac shape_solver :=
  unfold running, down, built, closing, parts_of, all; cbn; known;
  first [by repeat split; try tauto | left; by repeat split | right; by repeat split].
(** No publisher is past its check while the client is not started. *)
Ltac publishers :=
  let j := fresh in let q := fresh in let Hj := fresh in let Hq := fresh in
  intros j q Hj Hq;
  match goal with
  | H : ?x = ?x → _ = ∅ |- _ => by rewrite (H eq_refl) in Hj
  | H : ∀ i p, _ → publishing p = true → _ |- _ => destruct (H j q Hj Hq); congruence
  end.

Lemma owner_ok s :
  inv s → owner_ready s → disciplined s OwnerStep →
  ∃ s', owner_step s = (Ret tt, s') ∧ inv s'.
Proof.
  intros [Hsh Hio Hst Hp Hs Ht] Hr Hd. destruct s as [m o i ps d].
  unfold shape, running, down, built, closing, parts_of, all, owner_ready, disciplined in *.
  unfold owner_step. rewrite bind_unfold. cbn [get].
  cbn [owner mq io pubs disconnecting starting] in *.
  destruct o; cbn [starting] in *; [done|..].
  all: try (destruct Hsh as [Hsh|Hsh]); members.
  all: try (erewrite bind_run; [|apply on_client_run, deref_run; eassumption]).
  all: try (erewrite bind_run; [|apply on_client_run, arm_receive_run]).
  all: known; goes_on; known; try shape_solver; try publishers; auto with congruence.
Qed.

(** *** Every step *)

Lemma action_ok s a :
  inv s → enabled s a → disciplined s a → ∃ s', run_action a s = (Ret tt, s') ∧ inv s'.
Proof.
  intros Hi He Hd.
  destruct (io_action a) eqn:Ha; [destruct (io_ok s a Hi He Ha) as (s' & ? & ? & _); by exists s'|].
  destruct a; try done; cbn [run_action].
  1-3: eexists; split; [reflexivity|];
    destruct Hi as [Hsh Hio Hst Hp Hs Ht]; unfold shape in Hsh; rewrite He in Hsh; split; try done.
  - destruct Hsh as [(Hr & _)|?]; [|done]. injection Hr as _ _ _ Hr. cbn [disciplined] in Hd. congruence.
  - by apply owner_ok.
  - eexists. split; [reflexivity|]. apply inv_pubs; try done.
    intros j q [[<- <-]|[_ Hj]]%lookup_insert_Some Hq; [done|]. left. eauto.
  - by apply pub_ok.
Qed.

Lemma init_inv m :
  parts_of (init m) = all false → handler_ok m → inv (init m).
Proof. intros Hm Ht. split; try done. by right. Qed.

Lemma csteps_inv s l s' : inv s → csteps disciplined s l s' → inv s'.
Proof.
  intros Hi. induction 1 as [|l s1 a s2 _ IH He Hd Hrun]; [done|].
  destruct (action_ok s1 a IH He Hd) as (s' & Hrun' & Hi'). congruence.
Qed.

(** Where the owner writes a member, the io thread has ended and no publisher is past
    its check; the topics are written before the thread starts. *)
Lemma inv_race_free s : inv s → ¬ races s.
Proof.
  intros [Hsh Hio Hst Hp Hs Ht] [Hr Hc].
  destruct Hc as [Hc|(i & p & Hi & Hc)].
  - unfold shape, down, built, closing, owner_ready, parts_of in *.
    destruct (owner s); try done; members;
      try (match goal with H : io s = IoDone |- _ => rewrite H in Hc end; done);
      destruct (io s) as [| | | | |[]| | | |]; done.
  - assert (Hpub : publishing p = true) by (destruct p; [by destruct (owner s)|done..]).
    destruct (Hp i p Hi Hpub) as [Hst' Hcl].
    unfold shape, down, built, closing, owner_ready, parts_of, all in *.
    destruct (starting (owner s)) eqn:Hstart; [by rewrite (Hs eq_refl) in Hi|].
    destruct (owner s); try done; members; try congruence; by destruct p.
Qed.

(** *** Stopping *)

(** [stop] is past its two exchanges, and when it has returned. *)
Definition stopping s : Prop :=
  match owner s with StopDisconnect | StopJoin | StopClient | StopContext => True | _ => False end.
Definition finished s : Prop := owner s = OwnerIdle ∧ down s.

Definition owner_cost (p : owner_pc) : nat :=
  match p with StopDisconnect => 4 | StopJoin => 3 | StopClient => 2 | StopContext => 1 | _ => 0 end.
Definition cost s : nat := owner_cost (owner s) + io_cost s.

(** The actions of the threads that finish the call. *)
Definition works (a : action) : bool :=
  match a with OwnerStep => true | _ => io_action a end.
Definition calls_owner (a : action) : bool :=
  match a with CallSubscribe _ | CallStart | CallStop => true | _ => false end.

Lemma stopping_flag s : inv s → stopping s → stopped_ (mq s) = true.
Proof.
  intros [Hsh _ _ _ _ _] Hs. unfold shape, stopping, closing in *.
  destruct (owner s); try done; tauto.
Qed.

(** An io step leaves the owner alone. *)
Lemma io_owner s a s' :
  io_action a = true → run_action a s = (Ret tt, s') → owner s' = owner s.
Proof.
  intros Ha Hr. destruct a; try done; cbn [run_action] in Hr; try (by injection Hr as <-).
  - apply (f_equal snd) in Hr. cbn [snd] in Hr. subst s'. by injection (run_next_owned s).
  - apply (f_equal snd) in Hr. cbn [snd] in Hr. subst s'. by injection (io_owned s).
Qed.

(** Each statement of [stop] brings its end nearer. *)
Lemma stop_owner s :
  inv s → stopping s → owner_ready s →
  ∃ s', owner_step s = (Ret tt, s') ∧ (stopping s' ∨ finished s') ∧ cost s' < cost s.
Proof.
  intros [Hsh Hio Hst Hp Hs Ht] Hstop Hr. destruct s as [m o i ps d].
  unfold shape, closing, parts_of, stopping, owner_ready, cost in *.
  unfold owner_step. rewrite bind_unfold. cbn [get]. cbn [owner mq io pubs disconnecting] in *.
  destruct o; try done; members; known;
    (eexists; split; [reflexivity|]; split; [|unfold io_cost, task_cost, receive_cost; cbn; nia]);
    try (left; exact Logic.I).
  right. split; [done|]. unfold down, parts_of, all. cbn. by known.
Qed.

Lemma pub_frame i s s' :
  pub_step i s = (Ret tt, s') → owner s' = owner s ∧ io s' = io s ∧ cost s' = cost s ∧
    parts_of s' = parts_of s.
Proof.
  unfold pub_step. rewrite bind_unfold. cbn [get].
  destruct (pubs s !! i) as [[t p|t p|t p]|]; [by intros [= <-]..| |by intros [= <-]].
  rewrite bind_unfold. unfold on_client, zoom, deref_client. rewrite !bind_unfold. cbn [get].
  destruct (client_ (mq s)); [by intros [= <-]|done].
Qed.

(** A publisher leaves the others alone. *)
Lemma pub_others i j s s' :
  i ≠ j → pub_step j s = (Ret tt, s') → pubs s' !! i = pubs s !! i.
Proof.
  intros Hne. unfold pub_step. rewrite bind_unfold. cbn [get].
  destruct (pubs s !! j) as [[t p|t p|t p]|]; [intros [= <-]..| |by intros [= <-]]; cbn.
  - destruct (started_ _); [by rewrite lookup_insert_ne|by rewrite lookup_delete_ne].
  - destruct (client_ _); [by rewrite lookup_insert_ne|by rewrite lookup_delete_ne].
  - intros ([] & s1 & Hs1 & [= <-])%bind_ret_inv. cbn. rewrite lookup_delete_ne by done.
    apply exec_ret in Hs1. subst s1. f_equal.
    assert (Hl : leaves pubs (on_client (W:=W) (deref_client ;; modify (log_sent t p)))) by conc_leaves.
    apply Hl.
Qed.

(** While [stop] runs every thread's step either brings its end nearer or is a
    publisher's. *)
Lemma stop_step s a s' :
  inv s → stopping s ∨ finished s → enabled s a → calls_owner a = false →
  run_action a s = (Ret tt, s') →
  (stopping s' ∨ finished s') ∧ if works a then cost s' < cost s else cost s' = cost s.
Proof.
  intros Hi Hs He Hc Hrun. destruct (io_action a) eqn:Ha.
  - assert (Hw : works a = true) by by destruct a. rewrite Hw.
    assert (Hio : io s ≠ IoDone).
    { intros Hio. destruct a; cbn [enabled] in He; try done; destruct He; congruence. }
    destruct Hs as [Hs|[_ [_ Hd]]]; [|done]. pose proof (io_owner s a s' Ha Hrun) as Ho.
    destruct (io_ok s a Hi He Ha) as (s2 & Hrun2 & _ & Hlt). rewrite Hrun in Hrun2.
    injection Hrun2 as <-. split; [left; unfold stopping in *; by rewrite Ho|].
    specialize (Hlt (stopping_flag s Hi Hs)). unfold cost. rewrite Ho. lia.
  - destruct a; try done; cbn [works io_action run_action] in *.
    + destruct Hs as [Hs|[Hs _]]; [|unfold owner_ready in He; cbn [enabled] in He;
        unfold owner_ready in He; by rewrite Hs in He].
      destruct (stop_owner s Hi Hs He) as (s2 & Hrun2 & Hs2 & Hlt). rewrite Hrun in Hrun2.
      by injection Hrun2 as <-.
    + injection Hrun as <-. by split.
    + destruct (pub_frame _ _ _ Hrun) as (Ho & Hio & Hcost & Hparts). split; [|done].
      unfold stopping, finished, down in *. by rewrite Ho, Hio, Hparts.
Qed.

(** Until [stop] has returned there is a thread that works on it. *)
Lemma stop_progress s :
  inv s → stopping s → ∃ a, works a = true ∧ calls_owner a = false ∧ enabled s a ∧ disciplined s a.
Proof.
  intros Hi Hs.
  assert (Hnot : disciplined s OwnerStep) by (cbn; intros Ho; unfold stopping in Hs; by rewrite Ho in Hs).
  destruct (decide (owner_ready s)) as [Hr|Hr]; [by exists OwnerStep|].
  unfold stopping, owner_ready in *. pose proof (i_shape _ Hi) as Hsh. unfold shape in Hsh.
  destruct (owner s) eqn:Ho; try done; try tauto. destruct Hsh as [_ [Hio|Hd]]; [tauto|].
  destruct (decide (io s = IoIdle)) as [Hidle|Hidle].
  - by exists Disconnected.
  - exists IoStep. split_and!; [done|done| |done]. split; [tauto|done].
Qed.

Lemma csteps_app R s l s' l' s'' :
  csteps R s l s' → csteps R s' l' s'' → csteps R s (l ++ l') s''.
Proof.
  intros H1 H2. induction H2; [by rewrite app_nil_r|]. rewrite (assoc_L (++)). by econstructor.
Qed.

Lemma csteps_one R s a s' :
  enabled s a → R s a → run_action a s = (Ret tt, s') → csteps R s [a] s'.
Proof. intros He Hr Hrun. apply (csteps_snoc R s [] s a s'); [constructor|done..]. Qed.

(** The number of steps that work on [stop] is bounded, whatever else happens. *)
Lemma stop_bounded s l s' :
  inv s → stopping s ∨ finished s → csteps disciplined s l s' →
  Forall (λ a, calls_owner a = false) l →
  (stopping s' ∨ finished s') ∧ length (List.filter works l) + cost s' ≤ cost s.
Proof.
  intros Hi Hs. induction 1 as [|l s1 a s2 Hl IH He Hd Hrun]; intros Hc; [by split|].
  apply Forall_app in Hc as [Hc Ha]. rewrite Forall_singleton in Ha.
  destruct (IH Hc) as [Hs1 Hb]. pose proof (csteps_inv s l s1 Hi Hl) as Hi1.
  destruct (stop_step s1 a s2 Hi1 Hs1 He Ha Hrun) as [Hs2 Hcost]. split; [done|].
  rewrite List.filter_app, length_app. cbn [List.filter].
  destruct (works a); cbn [length]; lia.
Qed.

Lemma stop_finishes n s :
  cost s = n → inv s → stopping s ∨ finished s →
  ∃ l s', csteps disciplined s l s' ∧ Forall (λ a, works a = true) l ∧ finished s'.
Proof.
  revert s. induction n as [n IH] using lt_wf_ind. intros s Hn Hi [Hs|Hf].
  2: { exists [], s. split_and!; [constructor|constructor|done]. }
  destruct (stop_progress s Hi Hs) as (a & Hw & Hc & He & Hd).
  destruct (action_ok s a Hi He Hd) as (s1 & Hrun & Hi1).
  destruct (stop_step s a s1 Hi (or_introl Hs) He Hc Hrun) as [Hs1 Hlt]. rewrite Hw in Hlt.
  destruct (IH (cost s1) ltac:(lia) s1 eq_refl Hi1 Hs1) as (l & s' & Hl & Hf & Hfin).
  exists ([a] ++ l), s'. split_and!; [|by constructor|done].
  eapply csteps_app; [by apply csteps_one|exact Hl].
Qed.

End proofs.

End MqttConc.
