(* ===== verification/MqttConcTheorems.v ===== *)
(** * What the threads of the MQTT client guarantee *)

(** The theorems on the interleavings of [MqttConc]: under the discipline [main] follows
    the client is used safely and [stop] returns; whole calls are interleavings; and what
    happens without the discipline. *)

From S2P Require Import Prelude Stream MqttClient MqttConc.

Module MqttConcTheorems.
Import MqttClient MqttConc.

Section threads.
Context {W : Type}.
Variables (broker : string) (port : Z) (clientId : string) (u : W)
  (h : string → string → M W unit).
Implicit Types (s : config W) (m : MqttClient W).

(** The client once its message handler is set. *)
Definition fresh : config W :=
  init (set_handler (Some h) (new_MqttClient broker port clientId u)).

(** The handler returns, and keeps an invariant of what it has captured. *)
Context (I : W → Prop) (Hh : handler_keeps I h) (Hu : I u).

Lemma fresh_inv : inv I fresh.
Proof. apply init_inv; [done|]. split; [by intros h' [= <-]|exact Hu]. Qed.

(** C16. The members of the MQTT client need no lock: when topics are subscribed before
    [start], nobody publishes during [start] and nobody is publishing when [stop] begins,
    no two threads ever race for a member, publishers that come while [stop] runs
    included, and no statement of any thread uses a client or a context that is not
    there. *)
Theorem threads_share_safely l s a
  (Hl : csteps disciplined fresh l s) (He : enabled s a) (Hd : disciplined s a) :
  fst (run_action a s) = Ret tt ∧ ¬ races s.
Proof.
  pose proof (csteps_inv _ _ _ _ fresh_inv Hl) as Hi. split; [|by apply (inv_race_free I)].
  by destruct (action_ok I s a Hi He Hd) as (s' & -> & _).
Qed.

(** C15. [stop] returns. Once it is past its two exchanges, whatever is still posted,
    received or published: its thread and the io thread take at most [cost s] more
    steps, until it has returned one of them can take the next one, and when it has
    returned the io thread has ended and the client and its context are destroyed. *)
Theorem mqtt_stop_returns l s
  (Hl : csteps disciplined fresh l s) (Hs : stopping s) :
  (∃ l' s', csteps disciplined s l' s' ∧ Forall (λ a, works a = true) l' ∧ finished s') ∧
  ∀ l' s', csteps disciplined s l' s' → Forall (λ a, calls_owner a = false) l' →
    length (List.filter works l') ≤ cost s ∧
    (finished s' ∨ ∃ a, works a = true ∧ enabled s' a ∧ disciplined s' a).
Proof.
  pose proof (csteps_inv _ _ _ _ fresh_inv Hl) as Hi. split.
  - by apply (stop_finishes I (cost s)); [| |left].
  - intros l' s' Hl' Hc. destruct (stop_bounded I s l' s' Hi (or_introl Hs) Hl' Hc) as [[Hs'|Hf] Hb];
      (split; [lia|]); [right|by left].
    destruct (stop_progress I s' (csteps_inv _ _ _ _ Hi Hl') Hs') as (a & Hw & _ & He & Hd). eauto.
Qed.

End threads.

(** ** Whole calls are interleavings *)

Section sequential.
Context {W : Type}.
Implicit Types (s : config W) (m : MqttClient W).

Definition unrestricted s (a : action) : Prop := True.
Definition goes s s' : Prop := ∃ l, csteps unrestricted s l s'.

Lemma goes_refl s : goes s s.
Proof. exists []. constructor. Qed.
Lemma goes_trans s s' s'' : goes s s' → goes s' s'' → goes s s''.
Proof. intros [l Hl] [l' Hl']. eexists. by eapply csteps_app. Qed.
Lemma goes_step a s s' s'' :
  enabled s a → run_action a s = (Ret tt, s') → goes s' s'' → goes s s''.
Proof. intros He Hr. apply goes_trans. exists [a]. by apply csteps_one. Qed.

Abbreviation state m o i d :=
  {| mq := m; owner := o; io := i; pubs := ∅; disconnecting := d |}.

(** Nothing under way but the [stop] that [stop_begin] began. *)
Definition closing_down m : bool := client_ m && negb (started_ m).

Record settled m s : Prop := {
  se_client : mq s = m;
  se_owner : owner s = if closing_down m then StopJoin else OwnerIdle;
  se_io : io s = if runner_ m then IoIdle else IoDone;
  se_pubs : pubs s = ∅;
  se_disconnecting : closing_down m = true → disconnecting s = true
}.

Ltac runs :=
  cbn [run_action]; unfold io_step, owner_step, run_next, receive, pub_step, on_client, zoom;
  repeat (rewrite bind_unfold; cbn); reflexivity.
(** A step of the io thread that is a computation on the client. *)
Ltac io_runs Ha :=
  cbn [run_action]; unfold io_step; rewrite bind_unfold; cbn [get io mq set_io set_mq];
  erewrite bind_run by (apply on_client_run; exact Ha); reflexivity.
Ltac act a := eapply (goes_step a); [by repeat split|runs|].

Lemma flush_goes l k m m' o d :
  for_each do_subscribe l m = (Ret tt, m') →
  goes (state m o (IoFlush l k) d) (state (set_pending [] m') o (after k) d).
Proof.
  revert m. induction l as [|t l IH]; intros m.
  - intros [= <-]. act IoStep. apply goes_refl.
  - cbn [for_each]. intros ([] & m1 & Ht & Hl)%bind_ret_inv.
    eapply (goes_step IoStep); [by repeat split| |by apply IH].
    io_runs Ht.
Qed.

Lemma flush_topics_goes k m m' o d :
  flush_topics m = (Ret tt, m') → goes (state m o (IoBegin k) d) (state m' o (after k) d).
Proof.
  unfold flush_topics. rewrite bind_unfold. cbn [get].
  intros ([] & m2 & Hl & [= <-])%bind_ret_inv. act IoStep. by apply flush_goes.
Qed.

(** Re-arming, at the end of a receive. *)
Lemma rearm_goes m m' o d :
  (m ← get; if stopped_ m then mret tt else arm_receive) m = (Ret tt, m') →
  goes (state m o IoStopped d) (state m' o IoIdle d).
Proof.
  rewrite bind_unfold. cbn [get]. destruct (stopped_ m) eqn:Hs.
  - intros [= <-]. act IoStep. rewrite Hs. apply goes_refl.
  - intros Ha. act IoStep. rewrite Hs. eapply (goes_step IoStep); [by repeat split| |apply goes_refl].
    io_runs Ha.
Qed.

Lemma receive_goes msg m m' o d :
  armed m ≠ 0 → on_receive msg m = (Ret tt, m') → goes (state m o IoIdle d) (state m' o IoIdle d).
Proof.
  intros Ha. unfold on_receive. rewrite bind_unfold. cbn [modify].
  destruct msg as [[t p]|]; [|intros Hr; eapply (goes_step ReceiveFailed);
    [by repeat split|cbn; reflexivity|by apply rearm_goes]].
  rewrite bind_unfold. cbn [get]. set (m0 := set_armed _ m).
  intros ([] & m1 & Hf & Hr)%bind_ret_inv.
  apply bind_ret_inv in Hr as ([] & m2 & Hh & Hr).
  act (Received t p).
  apply (goes_trans _ (state m1 o (IoHandle t p) d)).
  2: { eapply (goes_step IoStep); [by repeat split| |by apply rearm_goes]. io_runs Hh. }
  case_bool_decide as Hp.
  - injection Hf as <-. act IoStep. rewrite bool_decide_true by done. apply goes_refl.
  - act IoStep. rewrite bool_decide_false by done.
    by apply (flush_topics_goes (CallHandler t p)).
Qed.

(** The owner does one thing at a time, and the handler is set. *)
Definition owner_free m (e : @event W) : Prop :=
  match e with
  | Start | StopBegin | Subscribe _ => closing_down m = false
  | SetHandler _ => False
  | _ => True
  end.

(** The simulation, by event. *)
Definition simulated m' s : Prop := ∃ s', goes s s' ∧ settled m' s'.

Lemma simulated_step a s s1 m' :
  enabled s a → run_action a s = (Ret tt, s1) → simulated m' s1 → simulated m' s.
Proof. intros He Hr (s' & Hs & Hm). exists s'. split; [by eapply goes_step|done]. Qed.
Lemma simulated_refl m s : settled m s → simulated m s.
Proof. intros Hs. exists s. split; [apply goes_refl|done]. Qed.

Ltac sim a := eapply (simulated_step a); [by repeat split|runs|].

(** A step whose condition is known. *)
Ltac sim_if H a :=
  eapply (simulated_step a);
  [ by repeat split
  | cbn [run_action]; unfold io_step, owner_step, on_client, zoom; rewrite bind_unfold; cbn;
    rewrite H; rewrite ?bind_unfold; reflexivity |].

Lemma set_flags_same m b : started_ m = b → set_flags b (stopped_ m) m = m.
Proof. intros <-. by destruct m. Qed.

Lemma start_simulated m m' d :
  invariant m → closing_down m = false → start m = (Ret tt, m') →
  simulated m' (state m OwnerIdle (if runner_ m then IoIdle else IoDone) d).
Proof.
  intros Hi Hc Hrun. destruct (started_ m) eqn:Hs.
  - rewrite start_again in Hrun by done. injection Hrun as <-. sim CallStart. sim OwnerStep.
    rewrite Hs. apply simulated_refl. split; cbn; rewrite ?Hc; try done.
    by apply set_flags_same.
  - rewrite start_run in Hrun by done. injection Hrun as <-.
    destruct (inv_parts m Hi) as [_ Hr].
    assert (Hcl : client_ m = false) by (unfold closing_down in Hc; rewrite Hs in Hc;
      by destruct (client_ m)).
    rewrite Hr, Hcl. sim CallStart. sim OwnerStep. rewrite Hs. do 8 sim OwnerStep.
    apply simulated_refl. by split.
Qed.

Lemma stop_begin_simulated m b m' d :
  invariant m → closing_down m = false → stop_begin m = (Ret b, m') →
  simulated m' (state m OwnerIdle (if runner_ m then IoIdle else IoDone) d).
Proof.
  intros Hi Hc Hrun. destruct (started_ m) eqn:Hs.
  - destruct (inv_started m Hi Hs) as (Hcl & Hsp & _). destruct (inv_parts m Hi) as [_ Hr].
    rewrite stop_begin_run in Hrun by done. injection Hrun as <- <-.
    sim CallStop. sim OwnerStep. rewrite Hs. sim OwnerStep. rewrite Hsp. sim_if Hcl OwnerStep.
    apply simulated_refl. split; try done; cbn.
    unfold closing_down. cbn. by rewrite Hcl.
  - rewrite stop_begin_idle in Hrun by done. injection Hrun as <- <-. sim CallStop. sim OwnerStep.
    rewrite Hs. apply simulated_refl. split; cbn; rewrite ?Hc; try done.
    by apply set_flags_same.
Qed.

(** A [stop] that was begun ends when the io thread has. *)
Lemma stop_end_simulated m d :
  invariant m → started_ m = false → (closing_down m = true → d = true) →
  simulated (set_client false m)
    (state m (if closing_down m then StopJoin else OwnerIdle)
       (if runner_ m then IoIdle else IoDone) d).
Proof.
  intros Hi Hs Hd. destruct (inv_parts m Hi) as [Hctx Hr]. unfold closing_down in *.
  rewrite Hr. destruct (client_ m) eqn:Hc; rewrite ?Hs in *; cbn [andb negb] in *.
  - rewrite (Hd eq_refl). sim Disconnected. sim_if Hctx IoStep. do 3 sim OwnerStep.
    apply simulated_refl. by split.
  - destruct (inv_idle m Hi Hc) as (Ht & Ha & _).
    assert (Hm : set_client false m = m) by (clear Hi Hd; destruct m; cbn in *; by subst).
    rewrite Hm. apply simulated_refl. split; try done; cbn; unfold closing_down; by rewrite ?Hc, ?Hr.
Qed.

Lemma subscribe_simulated m t d :
  closing_down m = false →
  simulated (exec (subscribe t) m) (state m OwnerIdle (if runner_ m then IoIdle else IoDone) d).
Proof.
  intros Hc. unfold exec, subscribe. rewrite bind_unfold. cbn [modify]. rewrite bind_unfold.
  cbn [get set_pending started_ client_ ioc_]. sim (CallSubscribe t). sim OwnerStep.
  destruct (started_ m && client_ m && ioc_ m) eqn:Hb.
  all: sim_if Hb OwnerStep; apply simulated_refl; split; try done; cbn;
    unfold closing_down in *; cbn; by rewrite Hc.
Qed.

Abbreviation at_rest m d :=
  (state m (if closing_down m then StopJoin else OwnerIdle) (if runner_ m then IoIdle else IoDone) d).

Lemma settled_rest m d : (closing_down m = true → d = true) → settled m (at_rest m d).
Proof. by split. Qed.

Lemma publish_simulated m t p d :
  invariant m → (closing_down m = true → d = true) →
  simulated (exec (publish_message t p) m) (at_rest m d).
Proof.
  intros Hi Hd. unfold exec, publish_message. rewrite bind_unfold. cbn [get].
  sim (CallPublish 0 t p). cbn [set_pubs pubs].
  destruct (started_ m) eqn:Hs; cbn [negb orb].
  - destruct (inv_started m Hi Hs) as (Hc & _). rewrite Hc. cbn [negb].
    eapply (simulated_step (PubStep 0)); [by eexists| |].
    { cbn. unfold pub_step. rewrite bind_unfold. cbn. rewrite Hs. reflexivity. }
    eapply (simulated_step (PubStep 0)); [by eexists| |].
    { cbn. unfold pub_step. rewrite bind_unfold. cbn. rewrite Hc. reflexivity. }
    eapply (simulated_step (PubStep 0)); [by eexists| |].
    { cbn. unfold pub_step. rewrite bind_unfold. cbn. rewrite lookup_insert_eq.
      erewrite bind_run by (apply on_client_run, deref_run; exact Hc). reflexivity. }
    apply simulated_refl. split; try done; cbn; unfold closing_down in *; cbn; done.
  - eapply (simulated_step (PubStep 0)); [by eexists| |].
    { cbn. unfold pub_step. rewrite bind_unfold. cbn. rewrite Hs. reflexivity. }
    apply simulated_refl. by split.
Qed.

(** The io thread's events leave the owner where it is. *)
Lemma io_simulated m m' d o :
  runner_ m = true → lifeline m' = lifeline m → (closing_down m = true → d = true) →
  o = (if closing_down m then StopJoin else OwnerIdle) →
  goes (state m o IoIdle d) (state m' o IoIdle d) → simulated m' (at_rest m d).
Proof.
  intros Hr [= _ E2 E3 E4 _] Hd -> Hg. rewrite Hr. eexists. split; [exact Hg|].
  unfold closing_down in *. split; cbn; unfold closing_down; by rewrite ?E2, ?E3, ?E4, ?Hr.
Qed.

Lemma task_goes m m' o d :
  run_event MqttClient.RunTask m = (Ret tt, m') → tasks m ≠ [] →
  goes (state m o IoIdle d) (state m' o IoIdle d).
Proof.
  cbn [run_event]. rewrite bind_unfold. cbn [get].
  destruct (tasks m) as [|t ts] eqn:Ht; [done|]. unfold run_task. rewrite bind_unfold. cbn [modify].
  rewrite Ht. cbn [tail]. intros Hrun _. eapply (goes_step RunTask).
  - split; [done|]. cbn. by rewrite Ht.
  - cbn [run_action]. unfold run_next. rewrite bind_unfold. cbn [get mq]. rewrite Ht. reflexivity.
  - destruct t as [|t].
    + exact (flush_topics_goes EndTask _ _ o d Hrun).
    + eapply (goes_step IoStep); [by repeat split| |apply goes_refl]. io_runs Hrun.
Qed.

(** Each whole call is a run of the threads' statements. *)
Lemma event_simulated m m' s e :
  invariant m → settled m s → allowed m e → owner_free m e → run_event e m = (Ret tt, m') →
  simulated m' s.
Proof.
  intros Hi [Hm Ho Hio Hp Hd] Hal Hf Hrun. destruct s as [m0 o i ps d].
  cbn [mq owner io pubs disconnecting] in *. subst m0 o i ps.
  destruct (inv_parts m Hi) as [_ Hr].
  assert (Hrunning : client_ m = true → runner_ m = true) by congruence.
  assert (Hlife : match e with Start | StopBegin | StopEnd => True | _ => lifeline m' = lifeline m end).
  { pose proof (event_lifeline e) as Hl.
    destruct e; try done; specialize (Hl m); unfold exec in Hl; by rewrite Hrun in Hl. }
  destruct e as [| | |t|h|t p| |msg]; cbn [owner_free] in Hf; try done; cbn [run_event] in Hrun;
    try rewrite Hf.
  - by apply start_simulated.
  - apply bind_ret_inv in Hrun as (b & m1 & Hrun & [= <-]). by eapply stop_begin_simulated.
  - destruct Hal as [_ Hs]. rewrite stop_end_run in Hrun. injection Hrun as <-.
    by apply stop_end_simulated.
  - pose proof (subscribe_simulated m t d Hf) as H. unfold exec in H. by rewrite Hrun in H.
  - apply bind_ret_inv in Hrun as (b & m1 & Hrun & [= <-]).
    pose proof (publish_simulated m t p d Hi Hd) as H. unfold exec in H. by rewrite Hrun in H.
  - assert (Hc : client_ m = true).
    { destruct (client_ m) eqn:Hc; [done|]. destruct (inv_idle m Hi Hc) as (Ht & _). done. }
    eapply io_simulated; [auto|done|done|done|]. by apply task_goes.
  - assert (Hc : client_ m = true).
    { destruct (client_ m) eqn:Hc; [done|]. destruct (inv_idle m Hi Hc) as (_ & Ha & _). done. }
    eapply io_simulated; [auto|done|done|done|]. by eapply receive_goes.
Qed.

End sequential.

Section refinement.
Context {W : Type}.
Variables (broker : string) (port : Z) (clientId : string) (u : W)
  (h : string → string → M W unit).
Context (Hh : ∀ t p v, fst (h t p v) = Ret tt).

Abbreviation fresh_client := (set_handler (Some h) (new_MqttClient broker port clientId u)).

(** The executions of whole calls of an owner that does one thing at a time. *)
Inductive calls : list (@event W) → MqttClient W → Prop :=
| calls_nil : calls [] fresh_client
| calls_snoc es m e m' :
    calls es m → allowed m e → owner_free m e → run_event e m = (Ret tt, m') →
    calls (es ++ [e]) m'.

(** The threads can do whatever the calls can: for every execution of [MqttClient],
    where each call is one step, there is an interleaving of the threads' statements that
    ends with the same client, nothing under way but the [stop] that was begun. So what
    the sequential model shows possible is possible, and what holds of all interleavings
    holds of it. *)
Theorem calls_interleave es m (Hs : calls es m) :
  ∃ l s, csteps unrestricted (fresh broker port clientId u h) l s ∧ settled m s.
Proof.
  assert (H : invariant m ∧ handler_total m ∧
    ∃ l s, csteps unrestricted (fresh broker port clientId u h) l s ∧ settled m s).
  { induction Hs as [|es m e m' _ (Hi & Ht & l & s & Hl & Hset) Hal Hf Hrun].
    - split_and!; [split; simpl; mqtt_solver|by intros h' t p v [= <-]|].
      exists [], (fresh broker port clientId u h). split; [constructor|by split].
    - destruct (event_runs m e Hi (total_returns m Ht) Hal) as (m2 & Hrun2 & Hi2 & Hcb & _).
      rewrite Hrun in Hrun2. injection Hrun2 as <-.
      destruct (event_simulated m m' s e Hi Hset Hal Hf Hrun) as (s' & [l' Hl'] & Hset').
      split_and!; [done| |].
      + intros h' t p v. rewrite Hcb. by destruct e; try apply Ht.
      + exists (l ++ l'), s'. split; [by eapply csteps_app|done]. }
  apply H.
Qed.

End refinement.

(** ** Running a schedule *)

Section schedule.
Context {W : Type} (R : config W → action → Prop) `{HR : ∀ s a, Decision (R s a)}.

Fixpoint run_schedule (l : list action) (s : config W) : option (config W) :=
  match l with
  | [] => Some s
  | a :: l' =>
      if decide (enabled s a ∧ R s a)
      then match run_action a s with (Ret tt, s') => run_schedule l' s' | _ => None end
      else None
  end.

Lemma threads_run_sound l0 l s0 s s' :
  csteps R s0 l0 s → run_schedule l s = Some s' → csteps R s0 (l0 ++ l) s'.
Proof.
  revert l0 s. induction l as [|a l IH]; intros l0 s Hs; [intros [= <-]; by rewrite app_nil_r|].
  cbn [run_schedule]. destruct (decide _) as [[He Hr]|]; [|done].
  destruct (run_action a s) as [[[]| |] s1] eqn:Hrun; try done. intros Hl.
  change (a :: l) with ([a] ++ l). rewrite (assoc_L (++)). eapply IH; [|exact Hl].
  by econstructor.
Qed.

(** The state a schedule reaches, with what can be evaluated of it. *)
Definition schedule_test (l : list action) (s : config W) (test : config W → bool) : bool :=
  match run_schedule l s with Some s' => test s' | None => false end.

Lemma threads_schedule_sound l s test :
  schedule_test l s test = true → ∃ s', csteps R s l s' ∧ test s' = true.
Proof.
  unfold schedule_test. destruct (run_schedule l s) as [s'|] eqn:Hs; [|done]. intros Ht.
  exists s'. split; [|done]. apply (threads_run_sound [] l s s); [constructor|done].
Qed.

End schedule.

(** ** Without the discipline *)

Definition sample : config nat := fresh "broker" 1883 "id" 0 sample_handler.
Definition anything (s : config nat) (a : action) : Prop := True.

Definition starts : list action := CallStart :: replicate 9 OwnerStep.
(** [stop] as far as the join, then the end of the io thread. *)
Definition stops : list action :=
  [CallStop; OwnerStep; OwnerStep; OwnerStep; Disconnected; IoStep].

Definition is_ub {A} (o : outcome A) : bool := match o with UB => true | _ => false end.

(** A publisher that has checked [started_] and [client_] before [stop] begins uses the
    client after [stop] has destroyed it. *)
Definition publish_late : list action :=
  starts ++ [CallPublish 0 "t" "p"; PubStep 0; PubStep 0] ++ stops ++ [OwnerStep; OwnerStep].

Theorem publish_races_stop :
  ∃ s, csteps anything sample publish_late s ∧ enabled s (PubStep 0) ∧
    fst (run_action (PubStep 0) s) = UB.
Proof.
  destruct (threads_schedule_sound anything (HR := λ _ _, True_dec) publish_late sample
    (λ s, bool_decide (enabled s (PubStep 0)) && is_ub (fst (run_action (PubStep 0) s))))
    as (s & Hs & [He%bool_decide_eq_true Hub]%andb_true_iff); [vm_compute; reflexivity|].
  exists s. split_and!; [done|done|]. by destruct (fst _).
Qed.

(** [subscribe] while the io thread runs the posted flush: both threads are at
    [pending_topics_], and one writes it. *)
Definition subscribe_late : list action := starts ++ [RunTask; CallSubscribe "t"].

Theorem late_subscribe_races : ∃ s, csteps anything sample subscribe_late s ∧ races s.
Proof.
  destruct (threads_schedule_sound anything (HR := λ _ _, True_dec) subscribe_late sample
    (λ s, bool_decide (owner_ready s) && conflict (owner_access (owner s)) (io_access (io s))))
    as (s & Hs & [Hr%bool_decide_eq_true Hc]%andb_true_iff); [vm_compute; reflexivity|].
  exists s. split; [done|]. split; [done|by left].
Qed.

(** A publisher that runs while [start] replaces the client reads what [start] writes. *)
Definition publish_early : list action :=
  CallStart :: replicate 4 OwnerStep ++ [CallPublish 0 "t" "p"; PubStep 0].

Theorem start_races_publish : ∃ s, csteps anything sample publish_early s ∧ races s.
Proof.
  destruct (threads_schedule_sound anything (HR := λ _ _, True_dec) publish_early sample
    (λ s, bool_decide (owner_ready s) &&
      match pubs s !! 0 with
      | Some p => conflict (owner_access (owner s)) (pub_access p)
      | None => false
      end)) as (s & Hs & [Hr%bool_decide_eq_true Hc]%andb_true_iff); [vm_compute; reflexivity|].
  exists s. split; [done|]. split; [done|right]. destruct (pubs s !! 0) as [p|] eqn:Hp; [|done].
  by exists 0, p.
Qed.

(** ** Witnesses *)

Lemma sample_keeps : handler_keeps (λ _, True) sample_handler.
Proof. by split. Qed.

Lemma threads_share_safely_witness :
  ∃ s, csteps disciplined sample
    (CallSubscribe "t" :: OwnerStep :: OwnerStep :: starts ++ [CallStop; OwnerStep; CallPublish 0 "x" "y"]) s ∧
    enabled s (PubStep 0) ∧ fst (run_action (PubStep 0) s) = Ret tt ∧ ¬ races s.
Proof.
  destruct (threads_schedule_sound disciplined
    (CallSubscribe "t" :: OwnerStep :: OwnerStep :: starts ++ [CallStop; OwnerStep; CallPublish 0 "x" "y"])
    sample (λ s, bool_decide (enabled s (PubStep 0)))) as (s & Hs & He%bool_decide_eq_true);
    [vm_compute; reflexivity|].
  exists s. split; [exact Hs|]. split; [exact He|].
  exact (threads_share_safely "broker" 1883 "id" 0 sample_handler (λ _, True) sample_keeps I _ s (PubStep 0) Hs He I).
Defined.

Lemma mqtt_stop_returns_witness :
  ∃ s l' s', csteps disciplined sample (starts ++ [CallStop; OwnerStep; OwnerStep; Received "x" "y"]) s ∧
    csteps disciplined s l' s' ∧ finished s'.
Proof.
  destruct (threads_schedule_sound disciplined (starts ++ [CallStop; OwnerStep; OwnerStep; Received "x" "y"])
    sample (λ s, bool_decide (owner s = StopDisconnect))) as (s & Hs & Ho%bool_decide_eq_true);
    [vm_compute; reflexivity|].
  destruct (mqtt_stop_returns "broker" 1883 "id" 0 sample_handler (λ _, True) sample_keeps I _ s Hs) as [(l' & s' & H1 & _ & H2) _].
  { unfold stopping. by rewrite Ho. }
  exists s, l', s'. split; [exact Hs|]. split; [exact H1|exact H2].
Defined.

Definition sample_client : MqttClient nat :=
  set_handler (Some sample_handler) (new_MqttClient "broker" 1883 "id" 0).

Lemma calls_interleave_witness :
  ∃ l s, csteps unrestricted sample l s ∧ settled (started_client sample_client) s.
Proof.
  apply (calls_interleave "broker" 1883 "id" 0 sample_handler (λ _ _ _, eq_refl) [Start]).
  apply (calls_snoc _ _ _ _ _ [] sample_client Start).
  - constructor.
  - intros [=].
  - reflexivity.
  - exact (start_run sample_client eq_refl).
Defined.

End MqttConcTheorems.
