(* ===== verification/Gateway.v ===== *)
(** * The gateway *)

(** The wiring of [src/main.cpp]: the callbacks that turn decoded commands into
    messages for the vehicle, the topics of the router, the location forwarded
    from the vehicle's middleware, and the requests made at start-up. The parts
    are the components of the other files; the logging is left out. *)

From S2P Require Import Prelude Double Json JsonModel Messages Router Orchestrator.
From S2P Require Import Stream StreamSeq StreamDelivery Config HttpClient Auth MqttClient.

Module Gateway.
Import MqttRouter TripOrchestrator.

Section wiring.
Context `{JL : JsonLib} {P : Type} `{PB : Publisher P}.

Abbreviation stream_world := (VehicleStreamHandler.world P).
Abbreviation push_command := (VehicleStreamHandler.push_command (P:=P)).

(** The argument of [orchestrator.set_callbacks]; [push_command] is what its lambdas
    call with the message they have filled. *)
Definition callbacks_to {W} (push_command : GatewayCommand → M W unit) : TripCallbacks W := {|
  on_trip_init := Some (λ vin_number req_id s_lat s_lon e_lat e_lon,
    push_command (CmdTripInit
      {| ti_vin_number := vin_number; ti_request_id := req_id; ti_start_long := s_lon;
         ti_start_lat := s_lat; ti_end_long := e_lon; ti_end_lat := e_lat |}));
  on_trip_move := Some (λ vin_number trip_id lat lon,
    push_command (CmdTripMove
      {| tm_vin_number := vin_number; tm_trip_id := trip_id; tm_longitude := lon;
         tm_latitude := lat |}));
  on_trip_park := Some (λ vin_number lon lat,
    push_command (CmdTripPark
      {| tp_vin_number := vin_number; tp_longitude := lon; tp_latitude := lat |}));
  on_order_update_location := Some (λ vin_number,
    push_command (CmdOrderUpdateLocation {| oul_vin_number := vin_number |}));
  on_order_update_status := Some (λ vin_number,
    push_command (CmdOrderUpdateStatus {| ous_vin_number := vin_number |}));
  on_trip_cancel := Some (λ vin_number request_id,
    push_command (CmdTripCancel {| tc_vin_number := vin_number; tc_request_id := request_id |}))
|}.
Definition gateway_callbacks : TripCallbacks stream_world := callbacks_to push_command.

Definition gateway_orchestrator (vin : string) : TripOrchestrator stream_world :=
  set_callbacks gateway_callbacks (new_orchestrator vin).

(** The calls of [router.on], in order. *)
Definition gateway_router {W} : MqttRouter (TripOrchestrator W * W) :=
  on kTopicTripCancel handle_trip_cancel
    (on kTopicOrderUpdateStatus handle_order_update_status
      (on kTopicOrderUpdateLocation handle_order_update_location
        (on kTopicTripPark handle_trip_park
          (on kTopicTripMove handle_trip_move
            (on kTopicTripInit handle_trip_init empty_router))))).

(** The topics passed to [mqtt.subscribe]. *)
Definition subscribed_topics : list string :=
  [kTopicTripInit; kTopicTripMove; kTopicTripPark; kTopicOrderUpdateLocation;
   kTopicOrderUpdateStatus; kTopicTripCancel].

(** The handler passed to [mqtt.set_message_handler]. *)
Definition on_message {W} (topic payload : string) : M (TripOrchestrator W * W) unit :=
  dispatch gateway_router topic payload.

(** [MqttClient mqtt(cfg.mqtt_broker, cfg.mqtt_port, cfg.mqtt_client_id)]. *)
Definition gateway_mqtt {U} (cfg : Config.Config) (u : U) : MqttClient.MqttClient U :=
  MqttClient.new_MqttClient (Config.mqtt_broker cfg) (Config.mqtt_port cfg)
    (Config.mqtt_client_id cfg) u.

(** The calls on [mqtt]: the handler, the subscriptions, [start]. *)
Definition connect_mqtt
    : M (MqttClient.MqttClient (TripOrchestrator stream_world * stream_world)) unit :=
  MqttClient.set_message_handler on_message ;;
  for_each MqttClient.subscribe subscribed_topics ;;
  MqttClient.start.

(** The callback of the Zenoh subscriber. [j["latitude"]] of an object without the
    member is [null]. *)
Definition on_location (vin : string) (payload : string) : M P unit :=
  catch
    (j ← json_try (json_parse payload);
     lat ← json_try (json_index j "latitude");
     lon ← json_try (json_index j "longitude");
     trip ← json_try (json_index j "tripId");
     text ← json_try (json_dump (json_object
       [("vinNumber", json_of_field (FString vin)); ("latitude", lat); ("longitude", lon);
        ("tripId", trip)]));
     modify (λ p, snd (publish kTopicStreamLocation text p)))
    (λ _, mret tt).

(** ** Start-up *)

Context {N : Type} `{HP : HttpClient.HttpPost N}.

Definition start_fields (cfg : Config.Config) : fields :=
  [("vinNumber", FString (Config.vin_number cfg));
   ("latitude", FDouble (Config.start_lat cfg));
   ("longitude", FDouble (Config.start_lon cfg))].

(** The start-up requests run on the authentication service and the publisher. *)
Definition on_auth {A} (m : M (AuthService.world N) A) : M (AuthService.world N * P) A :=
  zoom fst (λ w s, (w, s.2)) m.

(** The vehicle's login, and the first location. *)
Definition login_and_locate (cfg : Config.Config) : M (AuthService.world N * P) unit :=
  logged ← on_auth (AuthService.vechile_login cfg);
  if (logged : bool)
  then
    text ← json_try (json_dump (object (start_fields cfg)));
    modify (λ s, (s.1, snd (publish kTopicUpdateLocation text s.2)))
  else mret tt.

(** From [auth.setup()] to the first location. *)
Definition authenticate (cfg : Config.Config) : M (AuthService.world N * P) unit :=
  on_auth (AuthService.setup cfg) ;;
  on_auth (AuthService.create_vehicle cfg false false) ;;
  login_and_locate cfg.

(** ** Specification *)

(** The topic of each kind of command. *)
Definition topic_of (k : kind) : string :=
  match k with
  | KTripInit => kTopicTripInit
  | KTripMove => kTopicTripMove
  | KTripPark => kTopicTripPark
  | KOrderUpdateLocation => kTopicOrderUpdateLocation
  | KOrderUpdateStatus => kTopicOrderUpdateStatus
  | KTripCancel => kTopicTripCancel
  end.

Definition kinds : list kind :=
  [KTripInit; KTripMove; KTripPark; KOrderUpdateLocation; KOrderUpdateStatus; KTripCancel].

Definition kind_of_topic (topic : string) : option kind :=
  snd <$> list_find (λ k, topic_of k = topic) kinds.

(** The command a message carries. *)
Definition command_of (msg : string * string) : option GatewayCommand :=
  k ← kind_of_topic msg.1; decode k msg.2.

End wiring.

(** ** Messages *)

Section decoding.
Context `{JL : JsonLib} {W : Type}.
Implicit Types (o : TripOrchestrator W) (w : W) (push : GatewayCommand → M W unit).

(** The callbacks push exactly the decoded command: the order of the coordinates in
    their signatures and in the messages agree. *)
Lemma notify_push push c :
  c ≠ CmdNotSet → notify (callbacks_to push) c = Some (push c).
Proof. by destruct c as [|[]|[]|[]|[]|[]|[]]. Qed.

Lemma decode_set k payload c : decode k payload = Some c → c ≠ CmdNotSet.
Proof.
  unfold decode. intros (j & _ & Hv)%bind_Some. apply bind_Some in Hv as (vin & _ & Hk).
  destruct k; repeat (apply bind_Some in Hk as (? & _ & Hk)); by injection Hk as <-.
Qed.

Lemma router_topic k :
  handlers_ (gateway_router (W:=W)) !! topic_of k = Some (handle k).
Proof. by destruct k. Qed.

Lemma router_lookup topic :
  handlers_ (gateway_router (W:=W)) !! topic = handle <$> kind_of_topic topic.
Proof.
  destruct (kind_of_topic topic) as [k|] eqn:Hk; unfold kind_of_topic in Hk.
  - apply fmap_Some in Hk as ([i k'] & Hf & ->). apply list_find_Some in Hf as (_ & <- & _).
    apply router_topic.
  - apply fmap_None, list_find_None in Hk. unfold gateway_router, on.
    cbn [handlers_ fmap option_fmap option_map].
    unfold kinds in Hk. rewrite !Forall_cons in Hk. destruct Hk as (H1 & H2 & H3 & H4 & H5 & H6 & _).
    rewrite !lookup_insert_ne by done. apply lookup_empty.
Qed.

(** What a message does, where pushing is possible. *)
Lemma message_pushes push o w topic payload :
  trip_callbacks_ o = callbacks_to push → (∀ c, fst (push c w) = Ret tt) →
  on_message topic payload (o, w) =
    (Ret tt, match command_of (topic, payload) with
             | Some c => (remember c o, exec (push c) w)
             | None => (o, w)
             end).
Proof.
  intros Ho Hpush. unfold on_message, dispatch, command_of. cbn [fst snd]. rewrite router_lookup.
  destruct (kind_of_topic topic) as [k|]; cbn [fmap option_fmap option_map mbind option_bind]; [|done].
  unfold catch. rewrite handle_decode. destruct (decode k payload) as [c|] eqn:Hd; [|done].
  unfold obey. cbn [fst snd]. rewrite Ho, notify_push by (by eapply decode_set).
  specialize (Hpush c). unfold exec. by destruct (push c w) as [[[]| |] w']; simplify_eq/=.
Qed.

Lemma remember_callbacks c o : trip_callbacks_ (remember c o) = trip_callbacks_ o.
Proof. by destruct c. Qed.

End decoding.

Section messages.
Context `{JL : JsonLib} {P : Type} `{PB : Publisher P}.
Import VehicleStreamHandler StreamSeq StreamDelivery.
Implicit Types (w : world P) (o : TripOrchestrator (world P)).

Lemma push_runs (p : P) w c :
  reachable p w → ∃ w', push_command c w = (Ret tt, w').
Proof.
  intros Hr. destruct (run_push w c (StreamSeq.reachable_invariant p w Hr)) as (w' & Hw' & _). eauto.
Qed.

Lemma message_run (p : P) o w topic payload :
  trip_callbacks_ o = gateway_callbacks → reachable p w →
  ∃ w', on_message topic payload (o, w) =
      (Ret tt, (match command_of (topic, payload) with Some c => remember c o | None => o end, w')) ∧
    steps w (Push <$> option_list (command_of (topic, payload))) w'.
Proof.
  intros Ho Hr. rewrite (message_pushes push_command); [|done|].
  2: { intros c. by destruct (push_runs p w c Hr) as [w' ->]. }
  destruct (command_of (topic, payload)) as [c|].
  - destruct (push_runs p w c Hr) as [w' Hw']. exists w'. unfold exec. rewrite Hw'. split; [done|].
    apply (steps_snoc w [] w (Push c)); [constructor|by split].
  - exists w. split; [done|constructor].
Qed.

Lemma steps_app w es w' es' w'' : steps w es w' → steps w' es' w'' → steps w (es ++ es') w''.
Proof.
  intros H1 H2. induction H2; [by rewrite app_nil_r|].
  rewrite (assoc_L (++)). by econstructor.
Qed.

(** Handled in sequence, messages have the effect of pushing the commands they carry,
    and the orchestrator keeps what each command taught it. *)
Lemma messages_run (p : P) o w msgs
  (Ho : trip_callbacks_ o = gateway_callbacks) (Hr : reachable p w) :
  ∃ o' w', for_each (λ msg, on_message msg.1 msg.2) msgs (o, w) = (Ret tt, (o', w')) ∧
    o' = foldl (λ o c, remember c o) o (omap command_of msgs) ∧
    steps w (Push <$> omap command_of msgs) w' ∧ reachable p w'.
Proof.
  revert o w Ho Hr. induction msgs as [|[topic payload] msgs IH]; intros o w Ho Hr.
  { exists o, w. split_and!; [done|done|constructor|done]. }
  destruct (message_run p o w topic payload Ho Hr) as (w1 & Hrun & Hsteps).
  assert (Hr1 : reachable p w1).
  { destruct Hr as [es Hes]. eexists. eapply steps_app; [exact Hes|exact Hsteps]. }
  cbn [for_each fst snd]. rewrite (bind_run _ _ _ _ _ Hrun).
  destruct (IH (match command_of (topic, payload) with Some c => remember c o | None => o end) w1)
    as (o' & w' & Hrun' & Ho' & Hsteps' & Hr'); [|done|].
  { destruct (command_of (topic, payload)); [by rewrite remember_callbacks|done]. }
  exists o', w'. split_and!; [done| | |done].
  { rewrite Ho'. cbn [omap list_omap]. by destruct (command_of (topic, payload)). }
  pose proof (steps_app _ _ _ _ _ Hsteps Hsteps') as Hs. rewrite <- fmap_app in Hs.
  cbn [omap list_omap]. by destruct (command_of (topic, payload)).
Qed.

(** The client calls the handler for each message received. *)
Lemma receive_run (m : MqttClient.MqttClient (TripOrchestrator (world P) * world P)) msgs s' :
  MqttClient.client_ m = true → MqttClient.stopped_ m = false → MqttClient.armed m = 1 →
  MqttClient.pending_topics_ m = [] → MqttClient.cb_ m = Some on_message →
  for_each (λ msg, on_message msg.1 msg.2) msgs (MqttClient.user m) = (Ret tt, s') →
  for_each (λ msg, MqttClient.run_event (MqttClient.Receive (Some msg))) msgs m =
    (Ret tt, MqttClient.set_user s' m).
Proof.
  revert m. induction msgs as [|[t p] msgs IH]; intros m Hc Hsp Ha Hp Hcb; cbn [for_each].
  { intros [= <-]. by destruct m. }
  cbn [fst snd]. rewrite bind_unfold.
  destruct (on_message t p (MqttClient.user m)) as [[[]| |] s1] eqn:Hm; try done. intros Hrun.
  rewrite bind_unfold. cbn [MqttClient.run_event].
  rewrite (MqttClient.receive_message m on_message t p s1 Hc Hsp Ha Hp Hcb Hm).
  by apply (IH (MqttClient.set_user s1 m)).
Qed.

(** C9. From MQTT to the vehicle, end to end: once connected and flushed, the client
    has the broker of the configuration and asked it for exactly the six topics,
      and whatever messages arrive, in whatever
    order and however malformed, it handles them all and stays ready for the next;
    the effect on the stream is exactly that of pushing the commands they carry, in
    order. Messages on unknown topics, payloads that are not JSON or lack a member push
    nothing. *)
Theorem messages_reach_stream (p : P) (cfg : Config.Config) w msgs (Hr : reachable p w) :
  let vin := Config.vin_number cfg in
  ∃ m m' w', (connect_mqtt ;; MqttClient.run_event MqttClient.RunTask)
      (gateway_mqtt cfg (gateway_orchestrator vin, w)) = (Ret tt, m) ∧
    MqttClient.connections m =
      [(Config.mqtt_broker cfg, Config.mqtt_port cfg, Config.mqtt_client_id cfg)] ∧
    MqttClient.subscribed m = subscribed_topics ∧
    for_each (λ msg, MqttClient.run_event (MqttClient.Receive (Some msg))) msgs m =
      (Ret tt, m') ∧
    MqttClient.armed m' = 1 ∧ MqttClient.stopped_ m' = false ∧
    steps w (Push <$> omap command_of msgs) w' ∧ reachable p w' ∧
    MqttClient.user m' =
      (foldl (λ o c, remember c o) (gateway_orchestrator vin) (omap command_of msgs), w').
Proof.
  intros vin. destruct (messages_run p (gateway_orchestrator vin) w msgs eq_refl Hr)
    as (o' & w' & Hrun & Ho & Hsteps & Hr').
  set (m0 := MqttClient.set_handler (Some on_message)
               (gateway_mqtt cfg (gateway_orchestrator vin, w))).
  destruct (MqttClient.start_flushes (MqttClient.set_pending subscribed_topics m0) eq_refl)
    as (m & Hm & Hp & Hs & Hc & Hcb & _ & Hsp & _ & Ha & Hu & Hcn).
  assert (Hconnect : (connect_mqtt ;; MqttClient.run_event MqttClient.RunTask)
      (gateway_mqtt cfg (gateway_orchestrator vin, w)) = (Ret tt, m)).
  { unfold connect_mqtt. rewrite bind_unfold, bind_unfold.
    cbn [MqttClient.set_message_handler modify]. fold m0.
    rewrite (bind_run _ _ _ _ _ (MqttClient.subscribe_stored subscribed_topics m0 eq_refl)).
    rewrite bind_unfold in Hm. exact Hm. }
  exists m, (MqttClient.set_user (o', w') m), w'. split_and!; try done.
  - apply receive_run; try done. by rewrite Hu.
  - simpl. by rewrite Ho.
Qed.

(** The router and the subscriptions agree: the gateway subscribes to a topic
    exactly when it has a handler for it, and each topic has the handler of its kind
    of command. *)
Theorem topics_routed topic :
  (topic ∈ subscribed_topics ↔ is_Some (handlers_ (gateway_router (W:=world P)) !! topic)) ∧
  (∀ k, handlers_ (gateway_router (W:=world P)) !! topic_of k = Some (handle k)).
Proof.
  split; [|apply router_topic]. rewrite router_lookup, fmap_is_Some. unfold kind_of_topic.
  rewrite fmap_is_Some. split.
  - intros Hin. destruct (list_find _ kinds) as [x|] eqn:Hf; [by eexists|]. exfalso.
    apply list_find_None in Hf. unfold kinds in Hf. rewrite !Forall_cons in Hf.
    unfold subscribed_topics in Hin. simpl in Hf. set_solver.
  - intros [[i k] Hf]. apply list_find_Some in Hf as (_ & <- & _).
    destruct k; unfold subscribed_topics; simpl; set_solver.
Qed.

Lemma location_run vin payload (p : P) :
  fst (on_location vin payload p) = Ret tt ∧
  (snd (on_location vin payload p) = p ∨
   ∃ text, snd (on_location vin payload p) = snd (publish kTopicStreamLocation text p)).
Proof.
  unfold on_location, catch. rewrite bind_json_try.
  destruct (json_parse payload) as [j|]; [|by split; [|left]].
  rewrite bind_json_try. destruct (json_index j "latitude") as [lat|]; [|by split; [|left]].
  rewrite bind_json_try. destruct (json_index j "longitude") as [lon|]; [|by split; [|left]].
  rewrite bind_json_try. destruct (json_index j "tripId") as [trip|]; [|by split; [|left]].
  rewrite bind_json_try. destruct (json_dump _) as [text|]; [|by split; [|left]].
  split; [done|right; by exists text].
Qed.

(** A location message never stops the gateway: whatever its payload, the
    callback returns, and either nothing was published or one message on the topic of
    the location stream. *)
Theorem location_forwarded vin payload (p : P) :
  fst (on_location vin payload p) = Ret tt ∧
  (snd (on_location vin payload p) = p ∨
   ∃ text, snd (on_location vin payload p) = snd (publish kTopicStreamLocation text p)).
Proof. apply location_run. Qed.

End messages.

(** ** Start-up *)

Section startup.
Context `{JL : JsonLaws} {P : Type} `{PB : Publisher P} {N : Type} `{HP : HttpClient.HttpPost N}.

Lemma start_dumps (cfg : Config.Config) :
  AuthService.config_utf8 cfg → ∃ text, json_dump (object (start_fields cfg)) = Some text.
Proof.
  intros (_ & _ & _ & _ & _ & _ & Hvin & _). apply dump_object.
  by repeat apply AuthService.field_ok; try apply AuthService.no_fields.
Qed.

(** The login publishes at most the first location, and returns if that can be written. *)
Lemma login_and_locate_run (cfg : Config.Config) (n : AuthService.world N) (p : P) :
  ∃ o n' p', login_and_locate cfg (n, p) = (o, (n', p')) ∧
    (p' = p ∨ ∃ text, p' = snd (publish kTopicUpdateLocation text p)) ∧
    (o = Ret tt ∨ o = Exn JsonException ∧ json_dump (object (start_fields cfg)) = None ∧
                  fst (AuthService.vechile_login cfg n) = Ret true).
Proof.
  destruct (AuthService.vechile_login_returns cfg n) as (b & n' & Hl).
  unfold login_and_locate, on_auth. rewrite bind_unfold. unfold zoom. cbn [fst snd]. rewrite Hl.
  destruct b; [rewrite bind_json_try; destruct (json_dump _)|];
    do 3 eexists; (split; [reflexivity|]); eauto 10.
Qed.

(** C39. Start-up always reaches the server: when the configured texts are UTF-8, no
    reply of the backend makes the requests of [main] throw, and the start location
    is published, once, exactly when the vehicle's login succeeds. *)
Theorem authenticate_returns (cfg : Config.Config) (n : AuthService.world N) (p : P)
  (Hutf : AuthService.config_utf8 cfg) :
  ∃ n1 n2 n3 b1 b2 b3 s text,
    json_dump (object (start_fields cfg)) = Some text ∧
    AuthService.setup cfg n = (Ret b1, n1) ∧
    AuthService.create_vehicle cfg false false n1 = (Ret b2, n2) ∧
    AuthService.vechile_login cfg n2 = (Ret b3, n3) ∧
    authenticate cfg (n, p) = (Ret tt, s) ∧ s.1 = n3 ∧
    s.2 = if (b3 : bool) then snd (publish kTopicUpdateLocation text p) else p.
Proof.
  destruct (AuthService.setup_run cfg n Hutf) as (b1 & n1 & ps1 & H1 & _).
  destruct (AuthService.vehicle_dumps cfg Hutf) as [body Hbody].
  destruct (AuthService.create_vehicle_bounded cfg 4 false false n1 body Hbody)
    as (b2 & n2 & ps2 & H2 & _); [unfold AuthService.budget; lia|].
  destruct (AuthService.vechile_login_returns cfg n2) as (b3 & n3 & H3).
  destruct (start_dumps cfg Hutf) as [text Htext].
  fold (AuthService.create_vehicle cfg false false) in H2.
  exists n1, n2, n3, b1, b2, b3.
  exists (n3, if b3 then snd (publish kTopicUpdateLocation text p) else p), text.
  split_and!; try done. unfold authenticate, login_and_locate, on_auth.
  rewrite bind_unfold. unfold zoom at 1. cbn [fst snd]. rewrite H1.
  rewrite bind_unfold. unfold zoom at 1. cbn [fst snd]. rewrite H2.
  rewrite bind_unfold. unfold zoom at 1. cbn [fst snd]. rewrite H3.
  destruct b3; [by rewrite bind_json_try, Htext|done].
Qed.

End startup.


(** ** The theorems apply *)

Definition cancel_text : string :=
  flat_text [("vinNumber", FString "V"); ("requestId", FInt 7)].

Definition sample_messages : list (string * string) :=
  [(kTopicTripCancel, cancel_text); ("unknown", cancel_text); (kTopicTripMove, "oops")].

Abbreviation sample_world :=
  (VehicleStreamHandler.init_world ([] : list (string * string))).

Lemma messages_reach_stream_witness :
  ∃ w', StreamSeq.steps sample_world
    [StreamSeq.Push (CmdTripCancel {| tc_vin_number := "V"; tc_request_id := 7 |})] w'.
Proof.
  destruct (messages_reach_stream [] Config.default_config sample_world sample_messages)
    as (m & m' & w' & _ & _ & _ & _ & _ & _ & Hw & _).
  - exists []. constructor.
  - exists w'. exact Hw.
Defined.

#[local] Existing Instance AuthService.scripted_post.

Lemma authenticate_returns_witness :
  ∃ s, authenticate AuthService.sample_config
         (AuthService.backend AuthService.new_AuthService [], ([] : list (string * string))) =
       (Ret tt, s).
Proof.
  destruct (authenticate_returns AuthService.sample_config
              (AuthService.backend AuthService.new_AuthService []) ([] : list (string * string))
              AuthService.sample_utf8)
    as (n1 & n2 & n3 & b1 & b2 & b3 & s & text & _ & _ & _ & _ & H & _).
  exists s. exact H.
Defined.

End Gateway.
