(* ===== verification/GatewayConc.v ===== *)
(** * The gateway under every interleaving *)

(** The threads of the MQTT client ([MqttConc]) and those of the stream ([StreamConc])
    in one system. Two of them cross: the io thread that decodes a message pushes its
    command, and the completion queue's thread that reads an event publishes it. The
    handler of [src/main.cpp] runs the router and the orchestrator, whose callback ends
    in [VehicleStreamHandler::push_command]; here the callback notes the command the io
    thread is to push, and the push follows statement by statement, before the io thread
    goes on. In the same way [handle_incoming] ends in the [PublishFn] of [main]; here
    the text is noted, and [MqttClient::publish] follows statement by statement, before
    the queue's thread takes the next completion. In between, all other threads take
    their steps. *)

From S2P Require Import Prelude Double Json JsonModel Messages Router Orchestrator.
From S2P Require Import Stream StreamSeq StreamDelivery StreamConc StreamReports Config.
From S2P Require Import HttpClient Auth MqttClient MqttConc Gateway.

Module GatewayConc.
Import VehicleStreamHandler StreamSeq StreamDelivery.
#[local] Existing Instances StreamConc.io_pc_eq_dec MqttConc.enabled_dec MqttConc.disciplined_dec.
#[local] Existing Instance MqttConc.io_pc_eq_dec.

Abbreviation intent := (list GatewayCommand).
Abbreviation user := (TripOrchestrator.TripOrchestrator intent * intent)%type.

Section gateway.
Context `{JL : JsonLib}.

(** The call of [push_command] in a callback. *)
Definition note (c : GatewayCommand) : M intent unit := modify (λ l, l ++ [c]).

Definition handler : string → string → M user unit := Gateway.on_message.

Definition orchestrator (vin : string) : TripOrchestrator.TripOrchestrator intent :=
  TripOrchestrator.set_callbacks (Gateway.callbacks_to note) (TripOrchestrator.new_orchestrator vin).

(** The stream's [PublishFn] notes what it is given; [told] counts the notes the queue's
    thread has begun to publish. *)
Record gateway : Type := {
  threads : MqttConc.config user;
  stream : StreamConc.config (list (string * string));
  told : nat
}.

(** The commands the io thread has decoded and not begun to push. *)
Definition todo (g : gateway) : intent := (MqttClient.user (MqttConc.mq (threads g))).2.
Definition set_todo (l : intent) (t : MqttConc.config user) : MqttConc.config user :=
  MqttConc.set_mq (MqttClient.set_user ((MqttClient.user (MqttConc.mq t)).1, l) (MqttConc.mq t)) t.

(** The io thread is in [push_command], or about to call it. *)
Definition pushing (g : gateway) : Prop :=
  todo g ≠ [] ∨ StreamConc.io (stream g) ≠ StreamConc.IoIdle.

(** The publisher the queue's thread is, what it was asked to publish, and the part of it
    whose [publish] has not begun. *)
Definition queue_thread : nat := 0.
Definition publications (g : gateway) : list (string * string) :=
  publisher (StreamConc.cw (stream g)).
Definition unpublished (g : gateway) : list (string * string) := drop (told g) (publications g).

(** The queue's thread is in [publish], or about to call it. *)
Definition publishing (g : gateway) : Prop :=
  unpublished g ≠ [] ∨ is_Some (MqttConc.pubs (threads g) !! queue_thread).

(** What happens at the borders: a message is received, an event of the vehicle is read, a
    handler is deleted with a command in its queue, a publisher hands a message to Boost's
    client. *)
Inductive happening : Type :=
| Message (topic payload : string)
| Report (ev : VehicleEvent)
| Dropped (c : GatewayCommand)
| Sent (i : nat) (topic payload : string).

Definition observed (t : MqttConc.config user) (a : MqttConc.action) : list happening :=
  match a with
  | MqttConc.Received topic payload => [Message topic payload]
  | MqttConc.PubStep i =>
      match MqttConc.pubs t !! i with
      | Some (MqttConc.PubUse topic payload) => [Sent i topic payload]
      | _ => []
      end
  | _ => []
  end.

Definition messages : list happening → list (string * string) :=
  omap (λ e, match e with Message t p => Some (t, p) | _ => None end).
Definition reports : list happening → list VehicleEvent :=
  omap (λ e, match e with Report ev => Some ev | _ => None end).
Definition losses : list happening → list GatewayCommand :=
  omap (λ e, match e with Dropped c => Some c | _ => None end).
Definition sent : list happening → list (string * string) :=
  omap (λ e, match e with Sent _ t p => Some (t, p) | _ => None end).
Definition sent_by (i : nat) : list happening → list (string * string) :=
  omap (λ e, match e with Sent j t p => if decide (i = j) then Some (t, p) else None | _ => None end).

(** What a step of the stream shows: the event it reads, and the commands in the queue of
    the handler it deletes. *)
Definition stream_observed (g : gateway) (ch : StreamConc.choice)
    (s' : StreamConc.config (list (string * string))) : list happening :=
  (Report <$> option_list (StreamReports.choice_reads ch)) ++
  (Dropped <$> StreamConc.dropped (StreamConc.cw (stream g)) (StreamConc.cw s')).

(** A scheduler's choice: an action of the client's threads, the push of the next
    command, the publication of the next text, or a step of the stream's threads. *)
Inductive choice : Type :=
| Thread (a : MqttConc.action)
| Push
| Publish
| InStream (ch : StreamConc.choice).

(** The steps of the stream that are the io thread's. *)
Definition io_choice (ch : StreamConc.choice) : bool :=
  match ch with
  | StreamConc.ChLoad _ | StreamConc.ChPend | StreamConc.ChEnqueue => true
  | _ => false
  end.

(** An action of the client's threads that is free to happen: the io thread is not
    pushing, and the queue's thread publishes only what it was asked to. *)
Definition free (g : gateway) (a : MqttConc.action) : Prop :=
  (MqttConc.io_action a = true → ¬ pushing g) ∧ ∀ t p, a ≠ MqttConc.CallPublish queue_thread t p.

Inductive gstep (g : gateway) : choice → list happening → gateway → Prop :=
| g_thread a t' :
    free g a → MqttConc.enabled (threads g) a →
    MqttConc.run_action a (threads g) = (Ret tt, t') →
    gstep g (Thread a) (observed (threads g) a)
      {| threads := t'; stream := stream g; told := told g |}
| g_push c cs s' :
    todo g = c :: cs → StreamConc.io (stream g) = StreamConc.IoIdle →
    StreamConc.schedule (stream g) (StreamConc.ChLoad c) = Some ([c], s') →
    gstep g Push [] {| threads := set_todo cs (threads g); stream := s'; told := told g |}
| g_publish t p ps t' :
    unpublished g = (t, p) :: ps →
    MqttConc.enabled (threads g) (MqttConc.CallPublish queue_thread t p) →
    MqttConc.run_action (MqttConc.CallPublish queue_thread t p) (threads g) = (Ret tt, t') →
    gstep g Publish [] {| threads := t'; stream := stream g; told := S (told g) |}
| g_stream ch s' :
    (io_choice ch = false → ¬ publishing g) →
    StreamConc.schedule (stream g) ch = Some ([], s') →
    gstep g (InStream ch) (stream_observed g ch s')
      {| threads := threads g; stream := s'; told := told g |}.

(** The use of the client is that of [MqttConc.disciplined]; [MainConc] shows that [main]
    keeps it. *)
Definition disciplined (g : gateway) (ch : choice) : Prop :=
  match ch with
  | Thread a => MqttConc.disciplined (threads g) a
  | Publish => MqttConc.starting (MqttConc.owner (threads g)) = false
  | _ => True
  end.

#[export] Instance disciplined_dec g ch : Decision (disciplined g ch).
Proof. destruct ch; cbn [disciplined]; apply _. Defined.

(** The executions whose steps satisfy [R], with what happens in them. *)
Inductive gsteps (R : gateway → choice → Prop) (g : gateway) : list happening → gateway → Prop :=
| gsteps_nil : gsteps R g [] g
| gsteps_snoc tr g' ch l g'' :
    gsteps R g tr g' → R g' ch → gstep g' ch l g'' → gsteps R g (tr ++ l) g''.

(** [main] once it has set the callbacks and the handler. *)
Definition boot (cfg : Config.Config) : gateway := {|
  threads := MqttConc.init (MqttClient.set_handler (Some handler)
    (Gateway.gateway_mqtt cfg (orchestrator (Config.vin_number cfg), [])));
  stream := StreamConc.init_config [];
  told := 0 |}.

(** ** The invariant *)

(** The message the io thread has received and not handed to the router. *)
Definition message_at (p : MqttConc.io_pc) : list (string * string) :=
  match p with
  | MqttConc.IoEmpty t p | MqttConc.IoHandle t p
  | MqttConc.IoBegin (MqttConc.CallHandler t p)
  | MqttConc.IoFlush _ (MqttConc.CallHandler t p) => [(t, p)]
  | _ => []
  end.

Definition noting (u : user) : Prop :=
  TripOrchestrator.trip_callbacks_ u.1 = Gateway.callbacks_to note.

(** What the io thread still holds of the messages received. *)
Definition in_hand (g : gateway) : list GatewayCommand :=
  todo g ++ omap Gateway.command_of (message_at (MqttConc.io (threads g))).

(** Everything between the messages and the vehicle: what is on a stream or waits for
    one, and the push under way. *)
Definition held (g : gateway) : list GatewayCommand :=
  StreamConc.content (StreamConc.cw (stream g)) ++ StreamConc.in_flight (StreamConc.io (stream g)).

Record ginv (msgs : list (string * string)) (lost : list GatewayCommand) (g : gateway) : Prop := {
  gi_threads : MqttConc.inv noting (threads g);
  gi_handler : MqttClient.cb_ (MqttConc.mq (threads g)) = Some handler;
  gi_writes : StreamConc.writes_ok (StreamConc.cw (stream g));
  gi_commands : ∃ cs, cs ≡ₚ held g ++ lost ∧ omap Gateway.command_of msgs = cs ++ in_hand g;
  gi_pushing : pushing g → MqttConc.io (threads g) = MqttConc.IoStopped
}.

(** The handler decodes, and notes the command. *)
Lemma handler_run t p (u : user) :
  noting u →
  ∃ o, handler t p u = (Ret tt, (o, u.2 ++ option_list (Gateway.command_of (t, p)))) ∧
    noting (o, u.2).
Proof.
  intros Hn. destruct u as [o l]. unfold handler.
  rewrite (Gateway.message_pushes note o l t p Hn) by done.
  destruct (Gateway.command_of (t, p)) as [c|]; cbn [option_list fst snd].
  - eexists. split; [reflexivity|]. unfold noting in *. cbn [fst].
    by rewrite Gateway.remember_callbacks.
  - exists o. by rewrite app_nil_r.
Qed.

Lemma handler_noting : MqttConc.handler_keeps noting handler.
Proof.
  intros t p u Hn. destruct (handler_run t p u Hn) as (o & Hrun & Ho). unfold exec. rewrite Hrun.
  by split.
Qed.

(** ** The threads of the client *)

(** What an action leaves of the handler and of what it has captured. *)
Definition closure (m : MqttClient.MqttClient user) := (MqttClient.cb_ m, MqttClient.user m).

Lemma io_step_closure s s' :
  (∀ t p, MqttConc.io s ≠ MqttConc.IoHandle t p) →
  MqttConc.io_step s = (Ret tt, s') → closure (MqttConc.mq s') = closure (MqttConc.mq s).
Proof.
  intros Hne Hrun. apply (f_equal snd) in Hrun. cbn [snd] in Hrun. subst s'.
  unfold MqttConc.io_step. rewrite bind_unfold. cbn [get].
  pose (f := λ s : MqttConc.config user, closure (MqttConc.mq s)).
  match goal with |- closure (MqttConc.mq (snd (?c s))) = _ => enough (H : leaves f c) by apply (H s) end.
  destruct (MqttConc.io s) as [| |t|t p|k|[|t rest] k|t p| | |] eqn:Hio;
    try (by destruct (Hne t p)); MqttConc.conc_leaves.
Qed.

Lemma owner_closure : leaves (λ s, closure (MqttConc.mq s)) (MqttConc.owner_step (W:=user)).
Proof. MqttConc.conc_leaves. Qed.
Lemma run_next_closure : leaves (λ s, closure (MqttConc.mq s)) (MqttConc.run_next (W:=user)).
Proof. MqttConc.conc_leaves. Qed.
Lemma pub_closure i : leaves (λ s, closure (MqttConc.mq s)) (MqttConc.pub_step (W:=user) i).
Proof. MqttConc.conc_leaves. Qed.

(** Every action but the call of the handler leaves it alone. *)
Lemma action_closure a s s' :
  (a = MqttConc.IoStep → ∀ t p, MqttConc.io s ≠ MqttConc.IoHandle t p) →
  MqttConc.run_action a s = (Ret tt, s') → closure (MqttConc.mq s') = closure (MqttConc.mq s).
Proof.
  intros Hne Hrun. destruct a; cbn [MqttConc.run_action] in Hrun; try (by injection Hrun as <-).
  - rewrite <- (exec_ret _ _ _ _ Hrun). apply owner_closure.
  - rewrite <- (exec_ret _ _ _ _ Hrun). apply run_next_closure.
  - apply io_step_closure; [by apply Hne|done].
  - rewrite <- (exec_ret _ _ _ _ Hrun). apply pub_closure.
Qed.

(** ** The message the io thread is at *)

Lemma client_then_at {U} (c : M (MqttClient.MqttClient U) unit) p s s' :
  (MqttConc.on_client c ;; MqttConc.io_at p) s = (Ret tt, s') → MqttConc.io s' = p.
Proof. by intros ([] & s1 & _ & [= <-])%bind_ret_inv. Qed.

Lemma io_step_message (s s' : MqttConc.config user) :
  (∀ t p, MqttConc.io s ≠ MqttConc.IoHandle t p) →
  MqttConc.io_step s = (Ret tt, s') → message_at (MqttConc.io s') = message_at (MqttConc.io s).
Proof.
  intros Hne. unfold MqttConc.io_step. rewrite bind_unfold. cbn [get].
  destruct (MqttConc.io s) as [| |t|t p|k|[|t rest] k|t p| | |] eqn:Hio;
    try (intros Hrun; apply client_then_at in Hrun; rewrite Hrun);
    try done; try (by destruct (Hne t p)).
  - intros [= <-]. by rewrite Hio.
  - intros [= <-]. by rewrite Hio.
  - intros [= <-]. cbn. by case_bool_decide.
  - intros [= <-]. by destruct k.
  - by destruct k.
  - intros [= <-]. cbn. by destruct (MqttClient.stopped_ _).
  - intros [= <-]. cbn. by destruct (MqttClient.ioc_ _).
Qed.

Lemma on_client_io (c : M (MqttClient.MqttClient user) unit) (k : unit → M (MqttConc.config user) unit) s :
  (∀ s, MqttConc.io (exec (k tt) s) = MqttConc.io s) →
  MqttConc.io (exec (MqttConc.on_client c ≫= k) s) = MqttConc.io s.
Proof.
  intros Hk. unfold exec. rewrite bind_unfold. unfold MqttConc.on_client, zoom.
  destruct (c (MqttConc.mq s)) as [[[]| |] m']; [|done|done].
  exact (Hk (MqttConc.set_mq m' s)).
Qed.

Lemma owner_io (s s' : MqttConc.config user) :
  MqttConc.inv noting s → MqttConc.owner_step s = (Ret tt, s') →
  MqttConc.io s' = MqttConc.io s ∨
  MqttConc.io s = MqttConc.IoDone ∧ MqttConc.io s' = MqttConc.IoIdle.
Proof.
  intros Hi Hrun. apply (f_equal snd) in Hrun. cbn [snd] in Hrun. subst s'.
  fold (exec MqttConc.owner_step s). pose proof (MqttConc.i_shape _ _ Hi) as Hsh.
  unfold MqttConc.shape in Hsh. unfold MqttConc.owner_step. unfold exec.
  rewrite bind_unfold. cbn [get].
  destruct (MqttConc.owner s); try (by left); try (left; by apply on_client_io).
  - left. by destruct (_ && _).
  - right. destruct Hsh as ((_ & Hio) & _). by rewrite Hio.
  - left. by destruct (MqttClient.client_ _).
Qed.

Lemma pub_io i (s s' : MqttConc.config user) :
  MqttConc.pub_step i s = (Ret tt, s') → MqttConc.io s' = MqttConc.io s.
Proof. intros Hrun. by destruct (MqttConc.pub_frame i s s' Hrun) as (_ & ? & _). Qed.

Lemma action_message a (s s' : MqttConc.config user) :
  MqttConc.inv noting s → MqttConc.enabled s a →
  (a = MqttConc.IoStep → ∀ t p, MqttConc.io s ≠ MqttConc.IoHandle t p) →
  MqttConc.run_action a s = (Ret tt, s') →
  message_at (MqttConc.io s') = message_at (MqttConc.io s) ++ messages (observed s a).
Proof.
  intros Hi He Hne Hrun. destruct a; cbn [MqttConc.run_action observed messages omap list_omap] in *;
    rewrite ?app_nil_r; try (by injection Hrun as <-).
  - by destruct (owner_io s s' Hi Hrun) as [->|[-> ->]].
  - destruct He as [Hio _]. rewrite Hio. unfold MqttConc.run_next in Hrun.
    rewrite bind_unfold in Hrun. cbn [get] in Hrun.
    destruct (MqttClient.tasks _) as [|[|]]; injection Hrun as <-; [by rewrite Hio|done|done].
  - destruct He as [Hio _]. rewrite Hio. by injection Hrun as <-.
  - destruct He as [Hio _]. rewrite Hio. by injection Hrun as <-.
  - destruct He as [Hio _]. rewrite Hio. by injection Hrun as <-.
  - apply io_step_message; [by apply Hne|done].
  - rewrite (pub_io _ _ _ Hrun). by destruct (MqttConc.pubs s !! i) as [[]|]; rewrite app_nil_r.
Qed.

(** The call of the handler. *)
Lemma handle_step (s s' : MqttConc.config user) t p :
  MqttClient.cb_ (MqttConc.mq s) = Some handler → noting (MqttClient.user (MqttConc.mq s)) →
  MqttConc.io s = MqttConc.IoHandle t p → MqttConc.io_step s = (Ret tt, s') →
  MqttConc.io s' = MqttConc.IoStopped ∧ MqttClient.cb_ (MqttConc.mq s') = Some handler ∧
  (MqttClient.user (MqttConc.mq s')).2 =
    (MqttClient.user (MqttConc.mq s)).2 ++ option_list (Gateway.command_of (t, p)).
Proof.
  intros Hcb Hn Hio. unfold MqttConc.io_step. rewrite bind_unfold. cbn [get]. rewrite Hio.
  destruct (handler_run t p _ Hn) as (o & Hrun & _).
  rewrite (bind_run _ _ _ _ _ (MqttConc.on_client_run _ _ _ s
    (MqttClient.call_runs _ t p _ handler Hcb Hrun))).
  by intros [= <-].
Qed.

(** ** Every step *)

Lemma set_todo_inv l t : MqttConc.inv noting t → MqttConc.inv noting (set_todo l t).
Proof.
  intros Hi. apply (MqttConc.inv_frame noting t); try done; [apply Hi|].
  destruct (MqttConc.i_handler _ _ Hi) as [H1 H2]. by split.
Qed.

(** While the io thread pushes, the others leave it where it is. *)
Lemma others_io a (s s' : MqttConc.config user) :
  MqttConc.inv noting s → MqttConc.io_action a = false → MqttConc.io s ≠ MqttConc.IoDone →
  MqttConc.run_action a s = (Ret tt, s') → MqttConc.io s' = MqttConc.io s.
Proof.
  intros Hi Ha Hio Hrun. destruct a; try done; cbn [MqttConc.run_action] in Hrun;
    try (by injection Hrun as <-).
  - by destruct (owner_io s s' Hi Hrun) as [->|[? _]].
  - by eapply pub_io.
Qed.

Definition calls_handler (a : MqttConc.action) (s : MqttConc.config user) : option (string * string) :=
  match a, MqttConc.io s with
  | MqttConc.IoStep, MqttConc.IoHandle t p => Some (t, p)
  | _, _ => None
  end.

Lemma thread_step_ok msgs lost g a t' :
  ginv msgs lost g → free g a → MqttConc.enabled (threads g) a → MqttConc.disciplined (threads g) a →
  MqttConc.run_action a (threads g) = (Ret tt, t') →
  ginv (msgs ++ messages (observed (threads g) a)) lost {| threads := t'; stream := stream g; told := told g |}.
Proof.
  intros [Hi Hcb Hw (cs & Hacc & Hcs) Hp] [Hbusy _] He Hd Hrun.
  destruct (MqttConc.action_ok noting _ a Hi He Hd) as (t2 & Hrun2 & Hi').
  rewrite Hrun in Hrun2. injection Hrun2 as <-. unfold pushing, in_hand, todo in *.
  destruct (calls_handler a (threads g)) as [[t p]|] eqn:Hh.
  - assert (H : a = MqttConc.IoStep ∧ MqttConc.io (threads g) = MqttConc.IoHandle t p).
    { destruct a; try done. cbn in Hh. destruct (MqttConc.io (threads g)); naive_solver. }
    destruct H as [-> Hio]. specialize (Hbusy eq_refl).
    cbn [observed messages omap list_omap]. rewrite app_nil_r.
    assert (Htodo : (MqttClient.user (MqttConc.mq (threads g))).2 = [])
      by (destruct (decide ((MqttClient.user (MqttConc.mq (threads g))).2 = [])); tauto).
    destruct (handle_step (threads g) t' t p Hcb (proj2 (MqttConc.i_handler _ _ Hi)) Hio Hrun)
      as (Hio' & Hcb' & Hu').
    split; cbn [threads stream]; try done. exists cs. split; [done|]. unfold in_hand, todo.
    cbn [threads]. rewrite Hu', Htodo, Hio', Hcs, Htodo, Hio. cbn [message_at omap list_omap].
    by destruct (Gateway.command_of (t, p)).
  - assert (Hne : a = MqttConc.IoStep → ∀ t p, MqttConc.io (threads g) ≠ MqttConc.IoHandle t p).
    { intros -> t p Hio. cbn in Hh. by rewrite Hio in Hh. }
    pose proof (action_closure a _ _ Hne Hrun) as [= Hcb' Hu'].
    pose proof (action_message a _ _ Hi He Hne Hrun) as Hm.
    split; cbn [threads stream]; unfold pushing, in_hand, todo; cbn [threads stream];
      rewrite ?Hcb', ?Hu'; try done.
    + exists cs. split; [done|]. rewrite Hm, !omap_app, Hcs, <- !(assoc_L (++)). done.
    + intros Hpush. pose proof (Hp Hpush) as Hio.
      destruct (MqttConc.io_action a) eqn:Ha; [by destruct (Hbusy eq_refl)|].
      rewrite (others_io a _ _ Hi Ha ltac:(by rewrite Hio) Hrun). done.
Qed.

(** A step of the stream's threads that leaves the io thread out, or is its next one. *)
Lemma stream_step_ok msgs lost g ch l s' t' n :
  ginv msgs lost g → StreamConc.schedule (stream g) ch = Some (l, s') →
  MqttConc.inv noting t' → MqttConc.io t' = MqttConc.io (threads g) →
  MqttClient.cb_ (MqttConc.mq t') = Some handler →
  todo g = l ++ (MqttClient.user (MqttConc.mq t')).2 →
  ginv msgs (lost ++ StreamConc.dropped (StreamConc.cw (stream g)) (StreamConc.cw s'))
    {| threads := t'; stream := s'; told := n |}.
Proof.
  intros [Hi Hcb Hw (ps & Hacc & Hcs) Hp] Hst%StreamConc.schedule_sound Hi' Hio Hcb' Htodo.
  split; cbn [threads stream]; try done.
  - by eapply StreamConc.cstep_writes_ok.
  - exists (ps ++ l). unfold held in *. rewrite <- (assoc_L (++)) in *.
    split; [by apply (StreamConc.accounts_step _ _ _ _ _ Hst Hw)|].
    unfold in_hand, todo in *. cbn [threads]. by rewrite Hcs, Hio, Htodo, !(assoc_L (++)).
  - unfold pushing, todo in *. cbn [threads stream]. intros Hpush. rewrite Hio. apply Hp.
    rewrite Htodo. destruct l as [|c l]; [|by left]. destruct Hpush as [?|Hne]; [by left|right].
    intros Hidle. apply Hne. inversion Hst; subst; cbn; congruence.
Qed.

Lemma observed_losses t a : losses (observed t a) = [].
Proof. destruct a; try done. cbn [observed]. by destruct (MqttConc.pubs t !! i) as [[]|]. Qed.

Lemma stream_observed_all g ch s' :
  messages (stream_observed g ch s') = [] ∧
  reports (stream_observed g ch s') = option_list (StreamReports.choice_reads ch) ∧
  losses (stream_observed g ch s') =
    StreamConc.dropped (StreamConc.cw (stream g)) (StreamConc.cw s') ∧
  sent (stream_observed g ch s') = [] ∧ sent_by queue_thread (stream_observed g ch s') = [].
Proof.
  assert (Hd : ∀ cs, messages (Dropped <$> cs) = [] ∧ reports (Dropped <$> cs) = [] ∧
    losses (Dropped <$> cs) = cs ∧ sent (Dropped <$> cs) = [] ∧ sent_by queue_thread (Dropped <$> cs) = []).
  { induction cs as [|c cs (H1 & H2 & H3 & H4 & H5)]; [done|]. split_and!; [done|done| |done|done].
    cbn. by rewrite <- H3 at 2. }
  unfold stream_observed. destruct (Hd (StreamConc.dropped (StreamConc.cw (stream g)) (StreamConc.cw s')))
    as (H1 & H2 & H3 & H4 & H5). unfold messages, reports, losses, sent, sent_by in *.
  rewrite !omap_app, H1, H2, H3, H4, H5. by destruct (StreamReports.choice_reads ch).
Qed.

Lemma gstep_ok msgs lost g ch l g' :
  ginv msgs lost g → disciplined g ch → gstep g ch l g' →
  ginv (msgs ++ messages l) (lost ++ losses l) g'.
Proof.
  intros Hg Hd Hst. pose proof Hg as [Hi Hcb _ _ _].
  destruct Hst as [a t' Hfree He Hrun|c cs s' Htodo Hidle Hst|t p ps t' Hun He Hrun|ch s' _ Hst].
  - rewrite observed_losses, app_nil_r. by eapply thread_step_ok.
  - assert (Hnone : StreamConc.dropped (StreamConc.cw (stream g)) (StreamConc.cw s') = []).
    { cbn [StreamConc.schedule] in Hst. rewrite Hidle in Hst. injection Hst as <-.
      by apply StreamConc.dropped_none. }
    rewrite app_nil_r. cbn [losses omap list_omap]. rewrite <- Hnone.
    eapply stream_step_ok; [done|exact Hst|by apply set_todo_inv|done..].
  - change (messages []) with (messages (observed (threads g) (MqttConc.CallPublish (S queue_thread) t p))).
    rewrite !app_nil_r. injection Hrun as <-. destruct Hg as [_ _ Hw Hacc Hp].
    split; cbn [threads stream]; try done.
    destruct (MqttConc.action_ok noting _ _ Hi He Hd) as (t2 & [= <-] & Hi'). exact Hi'.
  - destruct (stream_observed_all g ch s') as (-> & _ & -> & _).
    rewrite app_nil_r. by eapply stream_step_ok.
Qed.

Lemma boot_ginv cfg : ginv [] [] (boot cfg).
Proof.
  split; cbn [boot threads stream]; try done.
  - apply MqttConc.init_inv; [done|]. split; [intros h [= <-]; apply handler_noting|done].
  - apply StreamConc.init_writes_ok.
  - by exists [].
  - by intros [?|?].
Qed.

Lemma messages_app tr tr' : messages (tr ++ tr') = messages tr ++ messages tr'.
Proof. apply omap_app. Qed.
Lemma losses_app tr tr' : losses (tr ++ tr') = losses tr ++ losses tr'.
Proof. apply omap_app. Qed.

Lemma gsteps_inv cfg tr g :
  gsteps disciplined (boot cfg) tr g → ginv (messages tr) (losses tr) g.
Proof.
  induction 1; [apply boot_ginv|]. rewrite messages_app, losses_app. by eapply gstep_ok.
Qed.

(** The io thread has nothing in hand when it is not handling a message. *)
Lemma nothing_in_hand msgs lost g :
  ginv msgs lost g → MqttConc.io (threads g) ∈ [MqttConc.IoIdle; MqttConc.IoDone] →
  in_hand g = [] ∧ StreamConc.in_flight (StreamConc.io (stream g)) = [].
Proof.
  intros [_ _ _ _ Hp] Hio. unfold pushing in Hp.
  assert (Hnot : ¬ (todo g ≠ [] ∨ StreamConc.io (stream g) ≠ StreamConc.IoIdle)).
  { intros H. rewrite (Hp H) in Hio. set_solver. }
  unfold in_hand. split.
  - assert (todo g = []) as -> by (destruct (decide (todo g = [])); tauto).
    rewrite !elem_of_cons, elem_of_nil in Hio. by destruct Hio as [->|[->|[]]].
  - destruct (StreamConc.io (stream g)); [done|]. exfalso. apply Hnot. by right.
Qed.

Lemma gsteps_mono (R R' : gateway → choice → Prop) g tr g' :
  (∀ g ch, R g ch → R' g ch) → gsteps R g tr g' → gsteps R' g tr g'.
Proof. intros HR. induction 1; econstructor; eauto. Qed.

(** ** The theorems *)

(** C4. No command is lost between MQTT and the vehicle, but in the queue of a stream that
    ends, whatever the threads do: under every interleaving of the io thread, the thread
    that starts and stops the client, the publishers and the completion queue's thread that
    uses the client as [disciplined] says, the commands of the messages received are, in
    order, those the io thread has pushed and those it still has in hand; and those pushed
    are, each exactly once, the commands handed to a stream, queued on a live handler,
    pending, in the push under way, and those that were in the queue of a handler at the
    step that deleted it. Between messages, and when [stop] has returned, the io thread has
    nothing in hand. *)
Theorem received_commands_conserved (cfg : Config.Config) tr g
  (Hs : gsteps disciplined (boot cfg) tr g) :
  let w := StreamConc.cw (stream g) in
  let flying := StreamConc.in_flight (StreamConc.io (stream g)) in
  ∃ cs, omap Gateway.command_of (messages tr) = cs ++ in_hand g ∧
    cs ≡ₚ (written w).*2 ++ StreamConc.queues (heap w) ++ pending_commands_ w ++ flying ++ losses tr ∧
    (MqttConc.io (threads g) ∈ [MqttConc.IoIdle; MqttConc.IoDone] → in_hand g = [] ∧ flying = []).
Proof.
  intros w flying. pose proof (gsteps_inv cfg tr g Hs) as Hi.
  destruct (gi_commands _ _ _ Hi) as (cs & Hcs & Hm). exists cs. split_and!; [done| |].
  - unfold held, StreamConc.content in Hcs. by rewrite <- !(assoc_L (++)) in Hcs.
  - by eapply nothing_in_hand.
Qed.

(** The decoding of messages does not disturb the threads of the client: none of their
    statements fails, and they never race. *)
Theorem decoding_shares_safely (cfg : Config.Config) tr g a
  (Hs : gsteps disciplined (boot cfg) tr g)
  (He : MqttConc.enabled (threads g) a) (Hd : MqttConc.disciplined (threads g) a) :
  fst (MqttConc.run_action a (threads g)) = Ret tt ∧ ¬ MqttConc.races (threads g).
Proof.
  pose proof (gi_threads _ _ _ (gsteps_inv cfg tr g Hs)) as Hi.
  split; [|by apply (MqttConc.inv_race_free noting)].
  by destruct (MqttConc.action_ok noting _ a Hi He Hd) as (s' & -> & _).
Qed.

(** ** Running a schedule *)

#[export] Instance pushing_dec g : Decision (pushing g).
Proof. unfold pushing. apply _. Defined.
#[export] Instance publishing_dec g : Decision (publishing g).
Proof. unfold publishing. apply _. Defined.

(** [free], as a test. *)
Definition is_free (g : gateway) (a : MqttConc.action) : bool :=
  (negb (MqttConc.io_action a) || bool_decide (¬ pushing g)) &&
  match a with MqttConc.CallPublish i _ _ => negb (i =? queue_thread) | _ => true end.

Lemma is_free_sound g a : is_free g a = true → free g a.
Proof.
  intros [Hp Ha]%andb_true_iff. split.
  - intros Hio. rewrite Hio in Hp. by apply bool_decide_eq_true in Hp.
  - by intros t p ->.
Qed.

Definition schedule (g : gateway) (ch : choice) : option (list happening * gateway) :=
  match ch with
  | Thread a =>
      if is_free g a && bool_decide (MqttConc.enabled (threads g) a)
      then match MqttConc.run_action a (threads g) with
           | (Ret tt, t') =>
               Some (observed (threads g) a, {| threads := t'; stream := stream g; told := told g |})
           | _ => None
           end
      else None
  | Push =>
      match todo g, StreamConc.io (stream g) with
      | c :: cs, StreamConc.IoIdle =>
          '(l, s') ← StreamConc.schedule (stream g) (StreamConc.ChLoad c);
          if decide (l = [c])
          then Some ([], {| threads := set_todo cs (threads g); stream := s'; told := told g |})
          else None
      | _, _ => None
      end
  | Publish =>
      match unpublished g with
      | (t, p) :: _ =>
          let a := MqttConc.CallPublish queue_thread t p in
          if bool_decide (MqttConc.enabled (threads g) a)
          then match MqttConc.run_action a (threads g) with
               | (Ret tt, t') => Some ([], {| threads := t'; stream := stream g; told := S (told g) |})
               | _ => None
               end
          else None
      | [] => None
      end
  | InStream ch =>
      if io_choice ch || bool_decide (¬ publishing g)
      then '(l, s') ← StreamConc.schedule (stream g) ch;
           if decide (l = [])
           then Some (stream_observed g ch s',
                      {| threads := threads g; stream := s'; told := told g |})
           else None
      else None
  end.

Lemma gateway_schedule_sound g ch l g' : schedule g ch = Some (l, g') → gstep g ch l g'.
Proof.
  destruct ch as [a| | |ch]; cbn [schedule].
  - destruct (is_free g a && _) eqn:H; [|done]. apply andb_true_iff in H as [Hf He].
    destruct (MqttConc.run_action a (threads g)) as [[[]| |] t'] eqn:Hrun; try done.
    intros [= <- <-]. apply g_thread; [by apply is_free_sound|by apply bool_decide_eq_true in He|done].
  - destruct (todo g) as [|c cs] eqn:Ht; [done|].
    destruct (StreamConc.io (stream g)) eqn:Hio; [|done].
    intros ([l' s'] & Hs & Hd)%bind_Some. case_decide; [|done]. injection Hd as <- <-. subst l'.
    by eapply g_push.
  - destruct (unpublished g) as [|[t p] ps] eqn:Hu; [done|].
    case_bool_decide as He; [|done].
    destruct (MqttConc.run_action _ (threads g)) as [[[]| |] t'] eqn:Hrun; try done.
    intros [= <- <-]. by eapply g_publish.
  - destruct (io_choice ch || _) eqn:H; [|done].
    intros ([l' s'] & Hs & Hd)%bind_Some. case_decide; [|done]. injection Hd as <- <-. subst l'.
    apply g_stream; [|done]. intros Hio. rewrite Hio in H. by apply bool_decide_eq_true in H.
Qed.

Section restricted.
Variable R : gateway → choice → Prop.
Context {HR : ∀ g ch, Decision (R g ch)}.

Fixpoint run_choices (chs : list choice) (g : gateway) : option (list happening * gateway) :=
  match chs with
  | [] => Some ([], g)
  | ch :: chs' =>
      if decide (R g ch)
      then '(l, g1) ← schedule g ch; '(ls, g2) ← run_choices chs' g1; Some (l ++ ls, g2)
      else None
  end.

Lemma run_choices_sound chs g0 tr0 g tr g' :
  gsteps R g0 tr0 g → run_choices chs g = Some (tr, g') → gsteps R g0 (tr0 ++ tr) g'.
Proof.
  revert tr0 g tr. induction chs as [|ch chs IH]; intros tr0 g tr Hg; cbn [run_choices].
  - intros [= <- <-]. by rewrite app_nil_r.
  - destruct (decide (R g ch)) as [Hr|]; [|done].
    intros ([l g1] & Hs & ([ls g2] & Hrun & [= <- <-])%bind_Some)%bind_Some.
    rewrite (assoc_L (++)). eapply IH; [|exact Hrun].
    econstructor; [exact Hg|exact Hr|by eapply gateway_schedule_sound].
Qed.

(** The state a schedule reaches, with what can be evaluated of it. *)
Lemma choices_reach {X} (f : list happening → gateway → X) chs g x :
  uncurry f <$> run_choices chs g = Some x → ∃ tr g', gsteps R g tr g' ∧ f tr g' = x.
Proof.
  destruct (run_choices chs g) as [[tr g']|] eqn:Hr; [|done]. intros [= Hf].
  exists tr, g'. split; [|done]. apply (run_choices_sound chs g [] g tr g'); [constructor|done].
Qed.

End restricted.

End gateway.

(** ** Witnesses *)

(** The client starts, a vehicle connects, and a cancellation is received; the push
    finds the connection, and the write is started. *)
Definition started_choices : list choice :=
  (Thread <$> (MqttConc.CallStart :: replicate 9 MqttConc.OwnerStep)) ++
  (InStream <$> [StreamConc.ChConnect 0; StreamConc.ChLock; StreamConc.ChUnlock]).

Definition cancel_choices : list choice :=
  (Thread <$> [MqttConc.Received kTopicTripCancel Gateway.cancel_text; MqttConc.IoStep;
               MqttConc.IoStep]) ++
  [Push; InStream StreamConc.ChEnqueue] ++ (Thread <$> [MqttConc.IoStep; MqttConc.IoStep]).

(** A second cancellation waits for the first one's write when the vehicle leaves. *)
Definition sample_choices : list choice :=
  started_choices ++ cancel_choices ++ cancel_choices ++
  (InStream <$> [StreamConc.ChComplete (OpRead 0) false EvNotSet;
                 StreamConc.ChComplete (OpFinish 0) true EvNotSet]).

Definition sample_gateway : gateway := boot Config.default_config.

Definition cancellation : GatewayCommand :=
  CmdTripCancel {| tc_vin_number := "V"; tc_request_id := 7 |}.

Lemma received_commands_conserved_witness :
  ∃ tr g, gsteps disciplined sample_gateway tr g ∧ losses tr = [cancellation] ∧
    ∃ cs, [cancellation; cancellation] = cs ∧ in_hand g = [] ∧
      cs ≡ₚ (written (StreamConc.cw (stream g))).*2 ++
        StreamConc.queues (heap (StreamConc.cw (stream g))) ++
        pending_commands_ (StreamConc.cw (stream g)) ++ [] ++ [cancellation].
Proof.
  destruct (choices_reach disciplined
    (λ tr g, (MqttConc.io (threads g), omap Gateway.command_of (messages tr), losses tr))
    sample_choices sample_gateway (MqttConc.IoIdle, [cancellation; cancellation], [cancellation]))
    as (tr & g & Hs & [= Hio Hc Hl]); [vm_compute; reflexivity|].
  exists tr, g. split; [exact Hs|]. split; [exact Hl|].
  destruct (received_commands_conserved Config.default_config tr g Hs) as (cs & H1 & H2 & H3).
  destruct H3 as [H3 H4]; [rewrite Hio; set_solver|].
  exists cs. split; [rewrite <- Hc, H1, H3, app_nil_r; reflexivity|]. split; [exact H3|].
  rewrite Hl, H4 in H2. exact H2.
Defined.

End GatewayConc.
