(* ===== verification/Telemetry.v ===== *)
(** * What the messages say *)

(** The other files treat a published message as a topic and a text. Here the texts
    are read again, as their receivers read them: the vehicle's events come out of
    the MQTT messages of [VehicleStreamHandler::handle_incoming]
    ([src/services/vehicle_stream_handler.h]), the locations of the vehicle's
    middleware out of those of [main] ([src/main.cpp]), and the trips a vehicle asks
    for by a unary call ([src/services/rpc_dispatcher.cc]) out of the gateway's own
    subscriptions. *)

From S2P Require Import Prelude Double Json JsonModel Messages Router Orchestrator Stream StreamSeq.
From S2P Require Import StreamDelivery Rpc Gateway.

Module Telemetry.
Import VehicleStreamHandler StreamSeq StreamDelivery.

(** ** The reports of a vehicle *)

Section reports.
Context `{JL : JsonLib}.

(** What the backend makes of a message, by its topic. *)
Definition read_eta (j : json) : option VehicleEvent :=
  vin ← at_string j "vinNumber"; id ← at_int64 j "requestId";
  fare ← at_double j "estimatedFare"; time ← at_double j "estimatedTime";
  status ← at_string j "status";
  Some (EvEta {| eta_vin_number := vin; eta_request_id := id; eta_time := time;
                 eta_fare := fare; eta_status := status |}).
Definition read_status (j : json) : option VehicleEvent :=
  vin ← at_string j "vinNumber"; id ← at_int64 j "tripId"; status ← at_string j "tripStatus";
  Some (EvStatus {| st_vin_number := vin; st_trip_id := id; st_status := status |}).
Definition read_arrive (j : json) : option VehicleEvent :=
  vin ← at_string j "vinNumber"; id ← at_int64 j "tripId";
  lon ← at_double j "longitude"; lat ← at_double j "latitude";
  Some (EvArrive {| ar_vin_number := vin; ar_trip_id := id; ar_long := lon; ar_lat := lat |}).
Definition read_location (j : json) : option VehicleEvent :=
  vin ← at_string j "vinNumber"; lat ← at_double j "latitude"; lon ← at_double j "longitude";
  Some (EvLocation {| ul_vinNumber := vin; ul_longitude := lon; ul_latitude := lat |}).

Definition read_event (msg : string * string) : option VehicleEvent :=
  j ← json_parse msg.2;
  if decide (msg.1 = kTopicTripEta) then read_eta j
  else if decide (msg.1 = kTopicTripStatus) then read_status j
  else if decide (msg.1 = kTopicTripArrive) then read_arrive j
  else if decide (msg.1 = kTopicUpdateLocation) then read_location j
  else None.

(** The events the backend is told about. *)
Definition is_report (ev : VehicleEvent) : bool :=
  match ev with EvEta _ | EvStatus _ | EvArrive _ | EvLocation _ => true | _ => false end.

(** The event can be sent: its texts are UTF-8 and its numbers finite, in the ranges
    of their types. *)
Definition event_exact (ev : VehicleEvent) : Prop :=
  match ev with
  | EvEta r => utf8 (eta_vin_number r) ∧ utf8 (eta_status r) ∧ int64_ok (eta_request_id r) ∧
               is_finite (eta_fare r) ∧ is_finite (eta_time r)
  | EvStatus r => utf8 (st_vin_number r) ∧ utf8 (st_status r) ∧ int64_ok (st_trip_id r)
  | EvArrive r => utf8 (ar_vin_number r) ∧ int64_ok (ar_trip_id r) ∧
                  is_finite (ar_long r) ∧ is_finite (ar_lat r)
  | EvLocation r => utf8 (ul_vinNumber r) ∧ is_finite (ul_latitude r) ∧ is_finite (ul_longitude r)
  | _ => True
  end.

(** The same for the trips of the unary calls. *)
Definition trip_init_exact (r : TripInitRequest) : Prop :=
  utf8 (ti_vin_number r) ∧ int64_ok (ti_request_id r) ∧
  is_finite (ti_start_long r) ∧ is_finite (ti_start_lat r) ∧
  is_finite (ti_end_long r) ∧ is_finite (ti_end_lat r).
Definition trip_move_exact (r : TripMoveRequest) : Prop :=
  utf8 (tm_vin_number r) ∧ int64_ok (tm_trip_id r) ∧
  is_finite (tm_longitude r) ∧ is_finite (tm_latitude r).

End reports.

Section lemmas.
Context `{JL : JsonLaws}.

Lemma exact_field k f (fs : fields) :
  ascii_text k → field_utf8 f → field_finite f → field_int64 f → fields_exact fs →
  fields_exact ((k, f) :: fs).
Proof. intros Hk Hu Hd Hz Hfs. constructor; [|done]. split; [by apply utf8_ascii|done]. Qed.

Lemma exact_nil : fields_exact [].
Proof. constructor. Qed.

(** What was built from exact fields is dumped and read back. *)
Lemma dump_exact fs :
  NoDup fs.*1 → fields_exact fs →
  ∃ text j, json_dump (object fs) = Some text ∧ json_parse text = Some j ∧ has_fields j fs.
Proof.
  intros Hnd Hex. destruct (dump_object fs (fields_exact_utf8 fs Hex)) as [text Ht].
  destruct (parse_dump fs text Hnd Hex Ht) as (j & Hj & Hf). by exists text, j.
Qed.

End lemmas.

(** The fields are exact when their values are. *)
Ltac exact_fields :=
  repeat first [apply exact_nil | apply exact_field]; cbn [field_utf8 field_finite field_int64];
  first [exact I | tauto | by vm_compute].
Ltac distinct_keys := cbn; apply (bool_decide_unpack _); vm_compute; exact I.
(** Read the members of an object with known fields. *)
Ltac read_fields Hj :=
  repeat (match goal with
          | |- context [at_string ?j ?k] => erewrite (at_string_fields j _ k _ Hj) by reflexivity
          | |- context [at_int64 ?j ?k] => erewrite (at_int64_fields j _ k _ Hj) by reflexivity
          | |- context [at_double ?j ?k] => erewrite (at_double_fields j _ k _ Hj) by reflexivity
          end; cbn [mbind option_bind]).

Section roundtrips.
Context `{JL : JsonLaws} {P : Type} `{PB : Publisher P}.

Lemma publish_exact topic fs (w : world P) :
  NoDup fs.*1 → fields_exact fs →
  ∃ text j, publish_fields topic fs w =
      (Ret tt, set_publisher (snd (publish topic text (publisher w))) w) ∧
    json_parse text = Some j ∧ has_fields j fs.
Proof.
  intros Hnd Hex. destruct (dump_exact fs Hnd Hex) as (text & j & Ht & Hj & Hf).
  exists text, j. split_and!; [|done|done]. unfold publish_fields. by rewrite bind_json_try, Ht.
Qed.

Lemma report_published ev (w : world P) :
  event_exact ev →
  if is_report ev
  then ∃ topic text,
    handle_incoming ev w =
      (Ret tt, set_publisher (snd (publish topic text (publisher w))) w) ∧
    read_event (topic, text) = Some ev
  else handle_incoming ev w = (Ret tt, w).
Proof.
  intros Hex.
  destruct ev as [|r|r|r|r|r|r|r|r|r|r]; try done; cbn [is_report handle_incoming event_exact] in *;
    match goal with |- context [publish_fields ?t ?fs w] =>
      destruct (publish_exact t fs w) as (text & j & Hrun & Hj & Hf);
        [distinct_keys|exact_fields|];
      exists t, text; split; [exact Hrun|]
    end;
    unfold read_event; cbn [fst snd]; rewrite Hj; cbn [mbind option_bind]; cbn [decide];
    repeat (rewrite decide_False by done); rewrite decide_True by done;
    unfold read_eta, read_status, read_arrive, read_location; read_fields Hf; by destruct r.
Qed.

(** C11. Nothing the vehicle reports is lost on the way to the backend: handling an
    event whose texts are UTF-8 and whose numbers are finite publishes exactly one
    message, and reading that message by its topic gives back the event, every member
    of it. The acknowledgements, and an event with no member set, publish nothing. *)
Theorem telemetry_roundtrip ev (w : world P) (Hex : event_exact ev) :
  if is_report ev
  then ∃ topic text,
    handle_incoming ev w =
      (Ret tt, set_publisher (snd (publish topic text (publisher w))) w) ∧
    read_event (topic, text) = Some ev
  else handle_incoming ev w = (Ret tt, w).
Proof. by apply report_published. Qed.

(** C38. A location of the vehicle's middleware reaches the backend unchanged: when the
    payload has the three numbers, exactly one message is published, and it reads
    back as the same numbers under the gateway's own vehicle number. *)
Theorem location_roundtrip vin payload (p : P) j lat lon trip
  (Hj : json_parse payload = Some j) (Hvin : utf8 vin)
  (Hlat : at_double j "latitude" = Some lat) (Hlon : at_double j "longitude" = Some lon)
  (Htrip : at_int64 j "tripId" = Some trip) (Hfin : is_finite lat ∧ is_finite lon) :
  ∃ text j', Gateway.on_location vin payload p =
      (Ret tt, snd (publish kTopicStreamLocation text p)) ∧
    json_parse text = Some j' ∧ at_string j' "vinNumber" = Some vin ∧
    at_double j' "latitude" = Some lat ∧ at_double j' "longitude" = Some lon ∧
    at_int64 j' "tripId" = Some trip.
Proof.
  apply bind_Some in Hlat as (vlat & Alat & Glat).
  apply bind_Some in Hlon as (vlon & Alon & Glon).
  apply bind_Some in Htrip as (vtrip & Atrip & Gtrip). destruct Hfin as [Flat Flon].
  set (l := [("vinNumber", json_of_field (FString vin)); ("latitude", vlat);
             ("longitude", vlon); ("tripId", vtrip)]).
  pose proof (of_field_reads (FString vin) I) as Gvin.
  assert (Hok : Forall (λ kv, utf8 kv.1 ∧ ∃ f, field_utf8 f ∧ reads_as kv.2 f) l).
  { repeat constructor; try (by apply utf8_ascii); cbn [snd].
    - by exists (FString vin).
    - by exists (FDouble lat).
    - by exists (FDouble lon).
    - by exists (FInt trip). }
  destruct (dump_values l Hok) as [text Htext].
  destruct (parse_dump_values l text ltac:(distinct_keys) Htext) as (j' & Hj' & Hread).
  exists text, j'. split_and!; [|done|..].
  - unfold Gateway.on_location, catch. rewrite bind_json_try, Hj, bind_json_try,
      (index_at _ _ _ Alat), bind_json_try, (index_at _ _ _ Alon), bind_json_try,
      (index_at _ _ _ Atrip), bind_json_try. fold l. by rewrite Htext.
  - destruct (Hread "vinNumber" _ (FString vin) eq_refl I Gvin) as (v & Hv & Gv).
    exact (at_field_read _ _ _ _ Hv Gv).
  - destruct (Hread "latitude" _ (FDouble lat) eq_refl Flat Glat) as (v & Hv & Gv).
    exact (at_field_read _ _ _ _ Hv Gv).
  - destruct (Hread "longitude" _ (FDouble lon) eq_refl Flon Glon) as (v & Hv & Gv).
    exact (at_field_read _ _ _ _ Hv Gv).
  - destruct (Hread "tripId" _ (FInt trip) eq_refl I Gtrip) as (v & Hv & Gv).
    exact (at_field_read _ _ _ _ Hv Gv).
Qed.

(** The trips a vehicle asks for by a unary call are published on topics the
    gateway itself subscribes to: the message read back as a command of the backend is
    the same trip, so the gateway streams it to the vehicle that sent it. *)
Theorem unary_trip_echo :
  (∀ r, trip_init_exact r → ∃ text,
     CallData.build_payload (CallData.ReqTripInit r) = Some text ∧
     Gateway.command_of (CallData.mqtt_topic CallData.TripInit, text) = Some (CmdTripInit r)) ∧
  (∀ r, trip_move_exact r → ∃ text,
     CallData.build_payload (CallData.ReqTripMove r) = Some text ∧
     Gateway.command_of (CallData.mqtt_topic CallData.TripMove, text) = Some (CmdTripMove r)).
Proof.
  split; intros r Hr; unfold trip_init_exact, trip_move_exact in Hr.
  - destruct (dump_exact (CallData.trip_init_payload r)) as (text & j & Ht & Hj & Hf);
      [distinct_keys|exact_fields|].
    exists text. split; [done|].
    change (TripOrchestrator.decode TripOrchestrator.KTripInit text = Some (CmdTripInit r)).
    unfold TripOrchestrator.decode. rewrite Hj. cbn [mbind option_bind]. read_fields Hf. by destruct r.
  - destruct (dump_exact (CallData.trip_move_payload r)) as (text & j & Ht & Hj & Hf);
      [distinct_keys|exact_fields|].
    exists text. split; [done|].
    change (TripOrchestrator.decode TripOrchestrator.KTripMove text = Some (CmdTripMove r)).
    unfold TripOrchestrator.decode. rewrite Hj. cbn [mbind option_bind]. read_fields Hf. by destruct r.
Qed.

End roundtrips.

(** ** The theorems apply *)

Definition sample_eta : EtaRequest :=
  {| eta_vin_number := "V"; eta_request_id := 7; eta_time := double_of_int 12;
     eta_fare := double_of_int 30; eta_status := "ok" |}.

Abbreviation empty := (init_world ([] : list (string * string))).

Lemma telemetry_roundtrip_witness :
  ∃ topic text, read_event (topic, text) = Some (EvEta sample_eta).
Proof.
  destruct (telemetry_roundtrip (EvEta sample_eta) empty) as (topic & text & _ & Hread).
  - vm_compute. tauto.
  - exists topic, text. exact Hread.
Defined.

Definition sample_location : string :=
  flat_text [("latitude", FDouble (double_of_int 30)); ("longitude", FDouble (double_of_int 31));
             ("tripId", FInt 5)].

Lemma location_roundtrip_witness :
  ∃ text j', json_parse text = Some j' ∧ at_int64 j' "tripId" = Some 5%Z.
Proof.
  destruct (location_roundtrip (H:=model_json) "V" sample_location ([] : list (string * string))
    (flat_value [("latitude", FDouble (double_of_int 30));
                 ("longitude", FDouble (double_of_int 31)); ("tripId", FInt 5)])
    (double_of_int 30) (double_of_int 31) 5)
    as (text & j' & _ & Hj & _ & _ & _ & Ht); [vm_compute; reflexivity|exact I|
      vm_compute; reflexivity..|split; exact I|].
  exists text, j'. split; [exact Hj|exact Ht].
Defined.

Definition sample_trip : TripMoveRequest :=
  {| tm_vin_number := "V"; tm_trip_id := 5; tm_longitude := double_of_int 31;
     tm_latitude := double_of_int 30 |}.

Lemma unary_trip_echo_witness :
  ∃ text, CallData.build_payload (CallData.ReqTripMove sample_trip) = Some text ∧
    Gateway.command_of (kTopicTripMove, text) = Some (CmdTripMove sample_trip).
Proof.
  destruct unary_trip_echo as [_ Hmove]. apply Hmove. vm_compute. tauto.
Defined.

End Telemetry.
