(* ===== verification/GatewayReports.v ===== *)
(** * Reports of the vehicle on their way to the broker *)

(** The way of [GatewayConc] from the vehicle to the backend: the completion queue's
    thread reads an event, [handle_incoming] composes a text, and [MqttClient::publish]
    hands it to Boost's client, while every other thread takes its steps. *)

From S2P Require Import Prelude Double Json JsonModel Messages Stream StreamSeq StreamConc.
From S2P Require Import StreamReports Config MqttClient MqttConc Gateway GatewayConc Telemetry.

Module GatewayReports.
Import VehicleStreamHandler StreamSeq GatewayConc.
#[local] Existing Instances StreamConc.io_pc_eq_dec MqttConc.enabled_dec MqttConc.disciplined_dec.
#[local] Existing Instances MqttConc.io_pc_eq_dec MqttConc.owner_pc_eq_dec.

Section reports.
Context `{JL : JsonLaws}.

(** ** The discipline of [main] *)

(** The MQTT client has been started and [stop] has not been called. *)
Definition up (g : gateway) : Prop :=
  MqttConc.owner (threads g) = MqttConc.OwnerIdle ∧
  MqttClient.started_ (MqttConc.mq (threads g)) = true.

(** [main] starts the client before the server whose thread takes completions, and stops
    it after it has joined that thread. *)
Definition served (g : gateway) (ch : choice) : Prop :=
  disciplined g ch ∧
  match ch with
  | InStream ch => io_choice ch = false → up g
  | Thread MqttConc.CallStart | Thread MqttConc.CallStop => ¬ publishing g
  | _ => True
  end.

#[export] Instance up_dec g : Decision (up g).
Proof. unfold up. apply _. Defined.
#[export] Instance served_dec g ch : Decision (served g ch).
Proof. apply and_dec; [apply _|]. destruct ch as [[]| | |]; apply _. Defined.

(** ** What each action does to the publications *)

(** What the queue's thread is publishing. *)
Definition in_call (t : MqttConc.config user) : list (string * string) :=
  match MqttConc.pubs t !! queue_thread with
  | Some (MqttConc.PubStarted t p) | Some (MqttConc.PubClient t p) | Some (MqttConc.PubUse t p) =>
      [(t, p)]
  | None => []
  end.

Definition is_pub (a : MqttConc.action) : bool :=
  match a with MqttConc.PubStep _ => true | MqttConc.CallPublish _ _ _ => true | _ => false end.

(** The owner and the io thread publish nothing. *)
Lemma others_published a (s s' : MqttConc.config user) :
  is_pub a = false → MqttConc.run_action a s = (Ret tt, s') →
  MqttConc.published s' = MqttConc.published s ∧
  sent (observed s a) = [] ∧ sent_by queue_thread (observed s a) = [].
Proof.
  intros Ha Hrun. split; [|by destruct a].
  destruct a; try done; cbn [MqttConc.run_action] in Hrun; try (by injection Hrun as <-);
    rewrite <- (exec_ret _ _ _ _ Hrun).
  - apply MqttConc.owner_published.
  - apply MqttConc.run_next_published.
  - apply MqttConc.io_published.
Qed.

(** A step of a publisher: the message it sends, if it sends one, is the one it has. *)
Lemma pub_published i (s s' : MqttConc.config user) :
  (i = queue_thread → MqttClient.started_ (MqttConc.mq s) = true ∧
     MqttClient.client_ (MqttConc.mq s) = true) →
  MqttConc.pub_step i s = (Ret tt, s') →
  MqttClient.sent (MqttConc.mq s') = MqttClient.sent (MqttConc.mq s) ++ sent (observed s (MqttConc.PubStep i)) ∧
  in_call s = sent_by queue_thread (observed s (MqttConc.PubStep i)) ++ in_call s'.
Proof.
  intros Hup Hrun. unfold MqttConc.pub_step in Hrun. rewrite bind_unfold in Hrun. cbn [get] in Hrun.
  unfold in_call, observed. destruct (decide (i = queue_thread)) as [->|Hne].
  - destruct (Hup eq_refl) as [Hst Hc].
    destruct (MqttConc.pubs s !! queue_thread) as [[t p|t p|t p]|] eqn:Hp; rewrite ?Hst, ?Hc in Hrun.
    + injection Hrun as <-. split; [by rewrite app_nil_r|]. cbn [MqttConc.set_pubs MqttConc.pubs].
      by rewrite lookup_insert_eq.
    + injection Hrun as <-. split; [by rewrite app_nil_r|]. cbn [MqttConc.set_pubs MqttConc.pubs].
      by rewrite lookup_insert_eq.
    + rewrite (bind_run _ _ _ _ _ (MqttConc.on_client_run _ _ _ s
        (MqttConc.deref_run (MqttClient.log_sent t p) _ Hc))) in Hrun. injection Hrun as <-.
      split; [done|]. cbn [MqttConc.set_pubs MqttConc.pubs MqttConc.set_mq]. by rewrite lookup_delete_eq.
    + injection Hrun as <-. rewrite Hp. by rewrite app_nil_r.
  - assert (Hsame : ∀ pc, <[i:=pc]> (MqttConc.pubs s) !! queue_thread = MqttConc.pubs s !! queue_thread)
      by (intros; by rewrite lookup_insert_ne).
    assert (Hdel : delete i (MqttConc.pubs s) !! queue_thread = MqttConc.pubs s !! queue_thread)
      by by rewrite lookup_delete_ne.
    destruct (MqttConc.pubs s !! i) as [[t p|t p|t p]|].
    + injection Hrun as <-. cbn [MqttConc.set_pubs MqttConc.pubs MqttConc.mq].
      destruct (MqttClient.started_ _); by rewrite ?Hsame, ?Hdel, app_nil_r.
    + injection Hrun as <-. cbn [MqttConc.set_pubs MqttConc.pubs MqttConc.mq].
      destruct (MqttClient.client_ _); by rewrite ?Hsame, ?Hdel, app_nil_r.
    + apply bind_ret_inv in Hrun as ([] & s1 & Hs1 & [= <-]).
      unfold MqttConc.on_client, zoom, MqttClient.deref_client in Hs1. rewrite !bind_unfold in Hs1.
      cbn [get] in Hs1. destruct (MqttClient.client_ _); [|done]. injection Hs1 as <-.
      cbn [MqttConc.set_pubs MqttConc.pubs MqttConc.mq MqttConc.set_mq]. rewrite Hdel. split; [done|].
      cbn. by rewrite decide_False.
    + injection Hrun as <-. by rewrite app_nil_r.
Qed.

(** ** The invariant *)

(** What [handle_incoming] publishes of an event. *)
Definition composed (ev : VehicleEvent) : list (string * string) :=
  publisher (exec (handle_incoming ev) (empty_world [])).

(** The text composed of an event; one that reads back as an exact event. *)
Definition tells (m : string * string) (ev : VehicleEvent) : Prop :=
  composed ev = [m] ∧ (Telemetry.event_exact ev → Telemetry.read_event m = Some ev).

(** What has been published is what was read; the publications are, in order, those sent
    by the queue's thread, the one it is publishing and those it has not begun. *)
Record rinv (tr : list happening) (g : gateway) : Prop := {
  ri_gateway : ginv (messages tr) (losses tr) g;
  ri_stream : StreamReports.reads_ok (stream g);
  ri_told : told g ≤ length (publications g);
  ri_calls : take (told g) (publications g) = sent_by queue_thread tr ++ in_call (threads g);
  ri_up : publishing g → up g;
  ri_sent : MqttClient.sent (MqttConc.mq (threads g)) = sent tr;
  ri_read : Forall2 tells (publications g) (List.filter Telemetry.is_report (reports tr))
}.

Lemma up_running (g : gateway) :
  MqttConc.inv noting (threads g) → up g → MqttConc.running (threads g).
Proof.
  intros Hi [Ho Hs]. pose proof (MqttConc.i_shape _ _ Hi) as Hsh. unfold MqttConc.shape in Hsh.
  rewrite Ho in Hsh. destruct Hsh as [?|[Hp _]]; [done|]. injection Hp. congruence.
Qed.

(** While the queue's thread publishes the client stays up. *)
Lemma thread_up g a t' :
  MqttConc.inv noting (threads g) → publishing g → up g → served g (Thread a) →
  MqttConc.enabled (threads g) a →
  MqttConc.run_action a (threads g) = (Ret tt, t') →
  MqttConc.owner t' = MqttConc.OwnerIdle ∧ MqttClient.started_ (MqttConc.mq t') = true.
Proof.
  intros Hi Hp Hu [Hd Hsv] He Hrun. pose proof (up_running g Hi Hu) as (Hparts & _).
  destruct Hu as [Ho Hs].
  assert (Hk : ∀ c : M (MqttConc.config user) unit, leaves MqttConc.owned c → exec c (threads g) = t' →
    MqttConc.owner t' = MqttConc.OwnerIdle ∧ MqttClient.started_ (MqttConc.mq t') = true).
  { intros c Hc <-. injection (Hc (threads g)) as H1 H2. by rewrite H1, H2. }
  destruct a; cbn [MqttConc.run_action disciplined] in *; try (by injection Hrun as <-); try done;
    try (apply exec_ret in Hrun).
  - cbn in Hd. injection Hparts. congruence.
  - unfold MqttConc.enabled, MqttConc.owner_ready in He. by rewrite Ho in He.
  - by eapply Hk; [apply MqttConc.run_next_owned|].
  - by eapply Hk; [apply MqttConc.io_owned|].
  - by eapply Hk; [apply MqttConc.pub_owned|].
Qed.

Lemma in_call_some t : in_call t ≠ [] ↔ is_Some (MqttConc.pubs t !! queue_thread).
Proof.
  unfold in_call. destruct (MqttConc.pubs t !! queue_thread) as [[]|]; split; intros Hp; try done;
    by destruct Hp.
Qed.

Lemma publishing_iff g : publishing g ↔ unpublished g ≠ [] ∨ in_call (threads g) ≠ [].
Proof. unfold publishing. by rewrite in_call_some. Qed.

Lemma reports_observed t a : reports (observed t a) = [].
Proof. destruct a; try done. cbn [observed]. by destruct (MqttConc.pubs t !! i) as [[]|]. Qed.

(** An action of the client's threads. *)
Lemma thread_published g a t' :
  MqttConc.inv noting (threads g) → (publishing g → up g) → free g a →
  MqttConc.enabled (threads g) a → MqttConc.run_action a (threads g) = (Ret tt, t') →
  MqttClient.sent (MqttConc.mq t') =
    MqttClient.sent (MqttConc.mq (threads g)) ++ sent (observed (threads g) a) ∧
  in_call (threads g) = sent_by queue_thread (observed (threads g) a) ++ in_call t'.
Proof.
  intros Hi Hu [_ Hq] He Hrun. destruct (is_pub a) eqn:Ha.
  - destruct a as [| | | | | | | | |i t p|i]; try done; cbn [MqttConc.run_action] in Hrun.
    + injection Hrun as <-. cbn. rewrite app_nil_r. split; [done|]. unfold in_call. cbn.
      rewrite lookup_insert_ne; [done|]. intros ->. by apply (Hq t p).
    + apply pub_published; [|done]. intros ->.
      destruct (up_running g Hi (Hu (or_intror He))) as (Hp & _). by injection Hp.
  - destruct (others_published a _ _ Ha Hrun) as ([= Hp Hs] & -> & ->). rewrite app_nil_r, Hs.
    split; [done|]. unfold in_call. by rewrite Hp.
Qed.

Lemma thread_rinv tr g a t' :
  rinv tr g → served g (Thread a) → gstep g (Thread a) (observed (threads g) a)
      {| threads := t'; stream := stream g; told := told g |} →
  rinv (tr ++ observed (threads g) a) {| threads := t'; stream := stream g; told := told g |}.
Proof.
  intros [Hg Hr Ht Hc Hu Hs Hrd] Hsv Hst. pose proof (gstep_ok _ _ _ _ _ _ Hg (proj1 Hsv) Hst) as Hg'.
  assert (Hall : free g a ∧ MqttConc.enabled (threads g) a ∧
    MqttConc.run_action a (threads g) = (Ret tt, t')) by by inversion Hst; subst.
  destruct Hall as (Hf & He & Hrun). pose proof (gi_threads _ _ _ Hg) as Hi.
  destruct (thread_published g a t' Hi Hu Hf He Hrun) as [Hsent Hcall].
  split; cbn [threads stream told]; try done.
  - by rewrite messages_app, losses_app.
  - unfold sent_by in *. rewrite omap_app, <- (assoc_L (++)). unfold publications in *. cbn [stream].
    by rewrite Hc, Hcall.
  - rewrite publishing_iff. intros Hp. assert (Hpub : publishing g).
    { rewrite publishing_iff. destruct Hp as [?|Hp]; [by left|right]. rewrite Hcall. cbn in Hp.
      by intros [_ ?]%app_nil. }
    by apply (thread_up g a t' Hi Hpub (Hu Hpub) Hsv He).
  - unfold sent in *. by rewrite Hsent, Hs, omap_app.
  - unfold reports in *. rewrite omap_app. fold (reports (observed (threads g) a)).
    by rewrite reports_observed, app_nil_r.
Qed.

(** A step of the stream that reads nothing, the client's threads standing still but for
    what the io thread has in hand. *)
Lemma quiet_rinv tr g s' t' l :
  rinv tr g →
  ginv (messages (tr ++ l)) (losses (tr ++ l)) {| threads := t'; stream := s'; told := told g |} →
  reports l = [] → sent l = [] → sent_by queue_thread l = [] →
  StreamReports.reads_ok s' → publisher (StreamConc.cw s') = publications g →
  MqttConc.published t' = MqttConc.published (threads g) →
  MqttConc.owned t' = MqttConc.owned (threads g) →
  rinv (tr ++ l) {| threads := t'; stream := s'; told := told g |}.
Proof.
  intros [_ _ Ht Hc Hu Hs Hrd] Hg Hl1 Hl2 Hl3 Hr Hp [= Hpubs Hsent] [= Ho Hst].
  unfold reports, sent, sent_by in *.
  split; unfold up, publishing, unpublished, publications, in_call, reports, sent, sent_by in *;
    cbn [threads stream told] in *;
    rewrite ?omap_app, ?Hl1, ?Hl2, ?Hl3, ?app_nil_r, ?Hp, ?Hpubs, ?Hsent, ?Ho, ?Hst; done.
Qed.

(** The queue's thread begins to publish. *)
Lemma publish_rinv tr g t p ps :
  rinv tr g → unpublished g = (t, p) :: ps → MqttConc.pubs (threads g) !! queue_thread = None →
  let g' := {| threads := MqttConc.set_pubs (insert queue_thread (MqttConc.PubStarted t p)) (threads g);
               stream := stream g; told := S (told g) |} in
  ginv (messages tr) (losses tr) g' → rinv tr g'.
Proof.
  intros [_ Hr Ht Hc Hu Hs Hrd] Hun Hno g' Hg'.
  assert (Hl : publications g !! told g = Some (t, p)).
  { rewrite <- (Nat.add_0_r (told g)), <- lookup_drop. fold (unpublished g). by rewrite Hun. }
  split; cbn [g' threads stream told]; try done.
  - apply lookup_lt_Some in Hl. done.
  - change (publications g') with (publications g). rewrite (take_S_r _ _ _ Hl), Hc. unfold in_call.
    cbn. by rewrite Hno, lookup_insert_eq, app_nil_r.
  - intros _. apply Hu. left. by rewrite Hun.
Qed.

Lemma fields_append {P Q} `{PB1 : Publisher P} `{PB2 : Publisher Q} (w : world P) (w1 : world Q)
    topic fs w' :
  publish_fields topic fs w = (Ret tt, w') →
  ∃ text, publish_fields topic fs w = (Ret tt, set_publisher (snd (publish topic text (publisher w))) w) ∧
    publish_fields topic fs w1 =
      (Ret tt, set_publisher (snd (publish topic text (publisher w1))) w1).
Proof.
  unfold publish_fields. rewrite !bind_json_try.
  destruct (json_dump (object fs)) as [text|]; [|done]. intros _. by exists text.
Qed.

(** Handling an event appends what is composed of it, one text for a report. *)
Lemma incoming_appends ev (w : world (list (string * string))) p :
  handle_incoming ev w = (Ret tt, set_publisher p w) →
  p = publisher w ++ composed ev ∧ Forall2 tells (composed ev) (List.filter Telemetry.is_report [ev]).
Proof.
  intros Hrun.
  assert (Hc : p = publisher w ++ composed ev ∧
    if Telemetry.is_report ev then ∃ m, composed ev = [m] else composed ev = []).
  { unfold composed.
    assert (Hpub : ∀ t fs, publish_fields t fs w = (Ret tt, set_publisher p w) → ∃ m,
      p = publisher w ++ [m] ∧ publisher (exec (publish_fields t fs) (empty_world [])) = [m]).
    { intros t fs Hp.
      destruct (fields_append w (empty_world ([] : list (string * string))) t fs _ Hp)
        as (text & Hp1 & Hp2).
      exists (t, text). rewrite (exec_ret _ _ _ _ Hp2). split; [|done].
      rewrite Hp in Hp1. injection Hp1 as Hp1. exact Hp1. }
    destruct ev; cbn [handle_incoming Telemetry.is_report] in *;
      try (destruct (Hpub _ _ Hrun) as (m & -> & ->); by eauto);
      injection Hrun as Hw; apply (f_equal publisher) in Hw; cbn in Hw; by rewrite app_nil_r. }
  destruct Hc as [-> Hc]. split; [done|]. cbn [List.filter].
  pose proof (λ Hex, Telemetry.report_published ev (empty_world []) Hex) as Hr.
  destruct (Telemetry.is_report ev); [|rewrite Hc; constructor].
  destruct Hc as [m Hc]. rewrite Hc. constructor; [|constructor]. split; [done|]. intros Hex.
  destruct (Hr Hex) as (topic & text & Hrun' & Hread). unfold composed in Hc.
  rewrite (exec_ret _ _ _ _ Hrun') in Hc. cbn in Hc. by injection Hc as <-.
Qed.

(** The queue's thread takes the completion of a read. *)
Lemma report_rinv tr g s' l ev :
  rinv tr g → up g → ¬ publishing g →
  ginv (messages (tr ++ l)) (losses (tr ++ l)) {| threads := threads g; stream := s'; told := told g |} →
  reports l = [ev] → sent l = [] → sent_by queue_thread l = [] →
  StreamReports.reads_ok s' → StreamReports.handed ev (StreamConc.cw (stream g)) (StreamConc.cw s') →
  rinv (tr ++ l) {| threads := threads g; stream := s'; told := told g |}.
Proof.
  intros [_ _ Ht Hc Hu Hs Hrd] Hup Hnp Hg Hl1 Hl2 Hl3 Hr (w1 & Hw1 & Hin).
  destruct (incoming_appends _ _ _ Hin) as [Hp Htell]. rewrite Hw1 in Hp.
  assert (Hlen : length (publications g) ≤ told g).
  { rewrite publishing_iff in Hnp.
    destruct (decide (length (publications g) ≤ told g)); [done|]. destruct Hnp. left.
    unfold unpublished. intros Hd. apply (f_equal length) in Hd. rewrite length_drop in Hd.
      cbn in Hd. lia. }
  unfold reports, sent, sent_by in Hl1, Hl2, Hl3.
  split; unfold publishing, unpublished, publications in *; cbn [threads stream told]; rewrite ?Hp;
    try done.
  - rewrite length_app. lia.
  - rewrite take_app_le by lia. rewrite Hc. unfold sent_by. by rewrite omap_app, Hl3, app_nil_r.
  - rewrite Hs. unfold sent. by rewrite omap_app, Hl2, app_nil_r.
  - unfold reports. rewrite omap_app, Hl1, List.filter_app. by apply Forall2_app.
Qed.

Lemma stream_rinv tr g ch s' :
  rinv tr g → served g (InStream ch) →
  gstep g (InStream ch) (stream_observed g ch s')
    {| threads := threads g; stream := s'; told := told g |} →
  rinv (tr ++ stream_observed g ch s') {| threads := threads g; stream := s'; told := told g |}.
Proof.
  intros Hi Hsv Hst. pose proof (gstep_ok _ _ _ _ _ _ (ri_gateway _ _ Hi) (proj1 Hsv) Hst) as Hg.
  rewrite <- messages_app, <- losses_app in Hg.
  assert (Hall : (io_choice ch = false → ¬ publishing g) ∧
    StreamConc.schedule (stream g) ch = Some ([], s')) by by inversion Hst; subst.
  destruct Hall as [Hfree Hsch].
  destruct (stream_observed_all g ch s') as (_ & Hl1 & _ & Hl2 & Hl3).
  destruct (StreamReports.step_reads _ _ _ _ (ri_stream _ _ Hi) Hsch) as [Hr Hp].
  destruct (StreamReports.choice_reads ch) as [ev|] eqn:Hev; cbn [option_list] in *.
  - assert (Hio : io_choice ch = false) by by destruct ch.
    eapply report_rinv; [done|by apply Hsv|by apply Hfree|done..].
  - by apply quiet_rinv.
Qed.

Lemma step_rinv tr g ch l g' :
  rinv tr g → served g ch → gstep g ch l g' → rinv (tr ++ l) g'.
Proof.
  intros Hi Hsv Hst. pose proof (gstep_ok _ _ _ _ _ _ (ri_gateway _ _ Hi) (proj1 Hsv) Hst) as Hg.
  rewrite <- messages_app, <- losses_app in Hg.
  destruct Hst as [a t' Hf He Hrun|c cs s' Htodo Hidle Hsch|t p ps t' Hun He Hrun|ch s' Hf Hsch].
  - apply thread_rinv; [done|done|by apply g_thread].
  - destruct (StreamReports.step_reads _ _ _ _ (ri_stream _ _ Hi) Hsch) as [Hr Hp].
    by apply quiet_rinv.
  - rewrite app_nil_r in *. injection Hrun as <-. by eapply publish_rinv.
  - apply stream_rinv; [done|done|by apply g_stream].
Qed.

Lemma gsteps_rinv cfg tr g : gsteps served (boot cfg) tr g → rinv tr g.
Proof.
  induction 1 as [|tr g ch l g' _ IH Hsv Hst]; [|by eapply step_rinv].
  split; try done; [apply boot_ginv|apply StreamReports.init_reads_ok|].
  by intros [?|[? ?]].
Qed.

(** ** The theorem *)

(** The reports read and the messages sent. *)
Definition reported (tr : list happening) (g : gateway) : Prop :=
  Forall2 tells (sent_by queue_thread tr ++ in_call (threads g) ++ unpublished g)
    (List.filter Telemetry.is_report (reports tr)) ∧
  MqttClient.sent (MqttConc.mq (threads g)) = sent tr.

Lemma gsteps_reported cfg tr g : gsteps served (boot cfg) tr g → reported tr g.
Proof.
  intros Hs. destruct (gsteps_rinv cfg tr g Hs) as [_ _ _ Hc _ Hsent Hread]. split; [|done].
  rewrite (assoc_L (++)), <- Hc. unfold unpublished. by rewrite take_drop.
Qed.

(** C5. No report of the vehicle is lost on the way to the broker, whatever the threads
    do: while the queue's thread runs between the start and the stop of the MQTT client,
    every event it reads that has something to report gives one text, the one
    [handle_incoming] composes of it; the client sends the texts of that thread in the
    order of the events, each once and unchanged, and those not yet sent are the one it is
    publishing and those it is about to. The text of an exact event ([event_exact]: finite
    numbers, UTF-8) reads back as the event. Every other message the client has sent was
    published by another thread. *)
Theorem reports_sent (cfg : Config.Config) tr g (Hs : gsteps served (boot cfg) tr g) :
  Forall2 (λ m ev, composed ev = [m] ∧
                   (Telemetry.event_exact ev → Telemetry.read_event m = Some ev))
    (sent_by queue_thread tr ++ in_call (threads g) ++ unpublished g)
    (List.filter Telemetry.is_report (reports tr)) ∧
  MqttClient.sent (MqttConc.mq (threads g)) = sent tr.
Proof. exact (gsteps_reported cfg tr g Hs). Qed.

End reports.

(** ** Witness *)

(** The client starts, a vehicle connects and reports the estimate of an arrival; while
    the queue's thread publishes it, another thread publishes a location. *)
Definition report_choices : list choice :=
  started_choices ++
  [InStream (StreamConc.ChComplete (OpRead 0) true (EvEta Telemetry.sample_eta)); Publish] ++
  (Thread <$> [MqttConc.PubStep 0; MqttConc.CallPublish 1 kTopicStreamLocation "{}";
               MqttConc.PubStep 1; MqttConc.PubStep 0; MqttConc.PubStep 1; MqttConc.PubStep 0;
               MqttConc.PubStep 1]).

Lemma reports_sent_witness :
  ∃ tr g m, gsteps served sample_gateway tr g ∧ sent_by queue_thread tr = [m] ∧
    Telemetry.read_event m = Some (EvEta Telemetry.sample_eta) ∧
    length (MqttClient.sent (MqttConc.mq (threads g))) = 2.
Proof.
  destruct (choices_reach served
    (λ tr g, (reports tr, in_call (threads g), unpublished g, length (sent tr)))
    report_choices sample_gateway ([EvEta Telemetry.sample_eta], [], [], 2))
    as (tr & g & Hs & [= Hr Hc Hu Hl]); [vm_compute; reflexivity|].
  destruct (reports_sent Config.default_config tr g Hs) as [Hread Hsent].
  rewrite Hr, Hc, Hu, app_nil_r in Hread. cbn [List.filter Telemetry.is_report] in Hread.
  apply Forall2_cons_inv_r in Hread as (m & l & [_ Hm] & Hl2 & Hms).
  apply Forall2_nil_inv_r in Hl2 as ->.
  exists tr, g, m. split; [exact Hs|]. split; [exact Hms|]. split.
  - apply Hm. vm_compute. tauto.
  - rewrite Hsent. exact Hl.
Defined.

End GatewayReports.
