(* ===== verification/MainConc.v ===== *)
(** * [main] and the threads it starts, statement by statement *)

(** [Main] runs each call of [src/main.cpp] as one step. Here the calls [main] makes on
    the MQTT client run statement by statement, as in [MqttConc], while the io thread,
    the completion queue's thread and Zenoh's thread take their own steps, as in
    [GatewayConc]. The theorem says that [main] uses the client as [MqttConc] and
    [GatewayReports] ask for, so their theorems hold of it.

    As in [Main.orderly], the signal is handled on the thread of [main], in [wait]: its
    handler's [stop], also cut at its statements, joins the completion queue's thread
    before [main] goes on. What gRPC documents of its two [Shutdown]s is what [Shutdown]
    takes of it. Zenoh's documentation does not say that [zsession.reset()] waits for a
    callback of the subscriber that is running, so here it does not wait; [cut] remembers
    whether one was. The claims on the client's use are about the executions in which none
    was; [reset_races] shows what comes of it otherwise. *)

From S2P Require Import Prelude Double Json JsonModel Messages Stream StreamSeq StreamConc.
From S2P Require Import StreamReports Shutdown StreamShutdown Config.
From S2P Require Import MqttClient MqttConc Gateway GatewayConc Telemetry GatewayReports.

Module MainConc.
Import VehicleStreamHandler GatewayConc GatewayReports.
#[local] Existing Instances StreamConc.io_pc_eq_dec StreamConc.cq_pc_eq_dec.
#[local] Existing Instances MqttConc.enabled_dec MqttConc.disciplined_dec.
#[local] Existing Instances MqttConc.io_pc_eq_dec MqttConc.owner_pc_eq_dec MqttConc.action_eq_dec.

(** Before a statement of [main]. From [ShutdownServer] to [JoinQueue] it is in [wait],
    where the signal's handler has called [GrpcServer::stop]. *)
Inductive main_pc : Type :=
| SubscribeTopics (rest : list string)
| OpenZenoh
| Authenticate
| StartGrpc
| WaitGrpc
| ShutdownServer
| ShutdownQueue
| JoinQueue
| ResetZenoh
| StopMqtt
| DestroyMqtt
| Exited.

#[export] Instance main_pc_eq_dec : EqDecision main_pc.
Proof. solve_decision. Defined.

Section main.
Context `{JL : JsonLib}.

(** [zenoh] is whether the subscriber is declared on an open session, [serving] whether
    the thread of the completion queue runs, [cut] whether the session was ended while
    its subscriber's callback was publishing a location. *)
Record state : Type := {
  gw : gateway;
  pc : main_pc;
  zenoh : bool;
  serving : bool;
  cut : bool
}.

(** The publishers besides the queue's thread: Zenoh's thread and [main] itself. *)
Definition zenoh_thread : nat := 1.
Definition main_thread : nat := 2.

(** The subscriber's callback is in [publish]. *)
Definition delivering (g : gateway) : bool :=
  bool_decide (is_Some (MqttConc.pubs (threads g) !! zenoh_thread)).

(** The call [main] has made on the client has returned. *)
Definition returned (s : state) : Prop :=
  MqttConc.owner (threads (gw s)) = MqttConc.OwnerIdle ∧
  MqttConc.pubs (threads (gw s)) !! main_thread = None.

(** The calls [main] makes on the client. The payload is the start location's; the
    destructor of the client calls [stop] again. *)
Definition main_calls (p : main_pc) (a : MqttConc.action) : Prop :=
  match p, a with
  | SubscribeTopics (t :: _), MqttConc.CallSubscribe t' => t = t'
  | SubscribeTopics [], MqttConc.CallStart => True
  | Authenticate, MqttConc.CallPublish i t _ => i = main_thread ∧ t = kTopicUpdateLocation
  | StopMqtt, MqttConc.CallStop | DestroyMqtt, MqttConc.CallStop => True
  | _, _ => False
  end.

Definition next_pc (p : main_pc) : main_pc :=
  match p with
  | SubscribeTopics (_ :: ts) => SubscribeTopics ts
  | SubscribeTopics [] => OpenZenoh
  | OpenZenoh => Authenticate
  | Authenticate => StartGrpc
  | StartGrpc => WaitGrpc
  | WaitGrpc => ShutdownServer
  | ShutdownServer => ShutdownQueue
  | ShutdownQueue => JoinQueue
  | JoinQueue => ResetZenoh
  | ResetZenoh => StopMqtt
  | StopMqtt => DestroyMqtt
  | DestroyMqtt | Exited => Exited
  end.

(** [server_->Shutdown()] has returned, and [cq_->Shutdown()]. *)
Definition server_is_down (p : main_pc) : bool :=
  match p with
  | ShutdownQueue | JoinQueue | ResetZenoh | StopMqtt | DestroyMqtt | Exited => true
  | _ => false
  end.
Definition queue_is_down (p : main_pc) : bool :=
  match p with JoinQueue | ResetZenoh | StopMqtt | DestroyMqtt | Exited => true | _ => false end.

(** What the other threads may do: the statements of a call under way, the io thread's,
    and those of the publishers; Zenoh's thread publishes while the subscriber is
    declared, the queue's thread takes completions while it runs, but no new call once
    the server is down. *)
Definition others (s : state) (ch : choice) : Prop :=
  match ch with
  | Thread (MqttConc.CallSubscribe _) | Thread MqttConc.CallStart | Thread MqttConc.CallStop => False
  | Thread (MqttConc.CallPublish i t _) =>
      i = zenoh_thread ∧ t = kTopicStreamLocation ∧ zenoh s = true
  | Thread _ | Push | Publish => True
  | InStream ch =>
      io_choice ch = false →
      serving s = true ∧ server_is_down (pc s) && StreamShutdown.accepts ch = false
  end.

(** The loop of the completion queue has ended. *)
Definition queue_ended (g : gateway) : Prop :=
  StreamConc.cq (stream g) = StreamConc.CqIdle ∧ ops (StreamConc.cw (stream g)) = [] ∧ ¬ publishing g.

Inductive mstep (s : state) : list happening → state → Prop :=
| m_call a l g' :
    returned s → main_calls (pc s) a → gstep (gw s) (Thread a) l g' →
    mstep s l {| gw := g'; pc := next_pc (pc s); zenoh := zenoh s; serving := serving s; cut := cut s |}
| m_open :
    pc s = OpenZenoh → returned s →
    mstep s [] {| gw := gw s; pc := next_pc (pc s); zenoh := true; serving := serving s; cut := cut s |}
| m_unregistered :
    pc s = Authenticate → returned s →
    mstep s [] {| gw := gw s; pc := next_pc (pc s); zenoh := zenoh s; serving := serving s; cut := cut s |}
| m_serve builds :
    pc s = StartGrpc → returned s →
    mstep s [] {| gw := gw s; pc := next_pc (pc s); zenoh := zenoh s; serving := builds; cut := cut s |}
| m_unbuilt :
    pc s = WaitGrpc → serving s = false →
    mstep s [] {| gw := gw s; pc := ResetZenoh; zenoh := zenoh s; serving := serving s; cut := cut s |}
| m_signal :
    pc s = WaitGrpc → serving s = true →
    mstep s [] {| gw := gw s; pc := next_pc (pc s); zenoh := zenoh s; serving := serving s; cut := cut s |}
| m_server_down :
    pc s = ShutdownServer → StreamShutdown.calls_over (stream (gw s)) →
    mstep s [] {| gw := gw s; pc := next_pc (pc s); zenoh := zenoh s; serving := serving s; cut := cut s |}
| m_queue_down :
    pc s = ShutdownQueue →
    mstep s [] {| gw := gw s; pc := next_pc (pc s); zenoh := zenoh s; serving := serving s; cut := cut s |}
| m_join :
    pc s = JoinQueue → queue_ended (gw s) →
    mstep s [] {| gw := gw s; pc := next_pc (pc s); zenoh := zenoh s; serving := false; cut := cut s |}
| m_reset :
    pc s = ResetZenoh →
    mstep s [] {| gw := gw s; pc := next_pc (pc s); zenoh := false; serving := serving s;
                  cut := cut s || delivering (gw s) |}
| m_other ch l g' :
    others s ch → gstep (gw s) ch l g' →
    mstep s l {| gw := g'; pc := pc s; zenoh := zenoh s; serving := serving s; cut := cut s |}.

Inductive msteps (s : state) : list happening → state → Prop :=
| msteps_nil : msteps s [] s
| msteps_snoc tr s' l s'' : msteps s tr s' → mstep s' l s'' → msteps s (tr ++ l) s''.

(** [main] once it has set the callbacks and the handler. *)
Definition launch (cfg : Config.Config) : state :=
  {| gw := boot cfg; pc := SubscribeTopics Gateway.subscribed_topics; zenoh := false;
     serving := false; cut := false |}.

(** ** The invariant *)

(** [stop] is under way. *)
Definition stops (o : MqttConc.owner_pc) : bool :=
  match o with
  | MqttConc.StopFlag | MqttConc.StopOnce | MqttConc.StopDisconnect | MqttConc.StopJoin
  | MqttConc.StopClient | MqttConc.StopContext => true
  | _ => false
  end.

Definition phase (p : main_pc) (g : gateway) : Prop :=
  match p with
  | SubscribeTopics _ =>
      match MqttConc.owner (threads g) with
      | MqttConc.OwnerIdle | MqttConc.SubPush _ | MqttConc.SubPost _ => True
      | _ => False
      end ∧ MqttClient.started_ (MqttConc.mq (threads g)) = false
  | OpenZenoh => MqttConc.starting (MqttConc.owner (threads g)) = true ∨ up g
  | DestroyMqtt | Exited => stops (MqttConc.owner (threads g)) = true ∨
      MqttConc.owner (threads g) = MqttConc.OwnerIdle ∧
      MqttClient.started_ (MqttConc.mq (threads g)) = false
  | _ => up g
  end.

Definition zenoh_open (p : main_pc) : bool :=
  match p with
  | Authenticate | StartGrpc | WaitGrpc | ShutdownServer | ShutdownQueue | JoinQueue
  | ResetZenoh => true
  | _ => false
  end.

(** Who may be publishing. *)
Definition may_publish (s : state) (i : nat) : Prop :=
  i = queue_thread ∧ serving s = true ∨ i = zenoh_thread ∧ zenoh s = true ∨
  i = main_thread ∧ pc s = StartGrpc.

(** The states of [main] in which the queue's thread may run. *)
Definition may_serve (p : main_pc) : bool :=
  match p with WaitGrpc | ShutdownServer | ShutdownQueue | JoinQueue => true | _ => false end.

(** What holds of the stream in every execution. *)
Record sinv (s : state) : Prop := {
  si_stream : StreamReports.reads_ok (stream (gw s));
  si_serving : serving s = true → may_serve (pc s) = true;
  si_calls : StreamReports.calls_ok (stream (gw s));
  si_down : serving s = false ∨ server_is_down (pc s) = true →
    StreamShutdown.calls_over (stream (gw s))
}.

(** What holds as long as no callback outlives its session. *)
Record minv (s : state) : Prop := {
  mi_client : MqttConc.inv noting (threads (gw s));
  mi_stream : StreamReports.reads_ok (stream (gw s));
  mi_phase : phase (pc s) (gw s);
  mi_pubs i : is_Some (MqttConc.pubs (threads (gw s)) !! i) → may_publish s i;
  mi_notes : serving s = false → unpublished (gw s) = [];
  mi_zenoh : zenoh s = zenoh_open (pc s);
  mi_serving : serving s = true → may_serve (pc s) = true;
  mi_calls : StreamReports.calls_ok (stream (gw s));
  mi_down : serving s = false ∨ server_is_down (pc s) = true →
    StreamShutdown.calls_over (stream (gw s))
}.

Lemma minv_sinv s : minv s → sinv s.
Proof. by intros [_ ? _ _ _ _ ? ? ?]. Qed.

(** The client is up in every phase between the return of [start] and the call of [stop]. *)
Lemma phase_up s : minv s → zenoh s = true ∨ serving s = true → up (gw s).
Proof.
  intros [_ _ Hp _ _ Hz Hs _ _] Hor. rewrite Hz in Hor. unfold phase, zenoh_open, may_serve in *.
  destruct Hor as [Hz'|Hs']; [by destruct (pc s)|]. specialize (Hs Hs'). by destruct (pc s).
Qed.

Lemma up_not_starting g : up g → MqttConc.starting (MqttConc.owner (threads g)) = false.
Proof. by intros [-> _]. Qed.

(** Who publishes while [main] is in a phase in which nobody may. *)
Lemma no_publisher s :
  minv s → zenoh s = false → serving s = false → pc s ≠ StartGrpc →
  MqttConc.pubs (threads (gw s)) = ∅ ∧ ¬ publishing (gw s).
Proof.
  intros [_ _ _ Hpubs Hn _ _ _ _] Hz Hs Hpc.
  assert (Hnone : ∀ i, MqttConc.pubs (threads (gw s)) !! i = None).
  { intros i. destruct (MqttConc.pubs (threads (gw s)) !! i) eqn:Hi; [|done].
    destruct (Hpubs i (mk_is_Some _ _ Hi)) as [[_ ?]|[[_ ?]|[_ ?]]]; congruence. }
  split; [by apply map_empty|]. intros [Hun|[x Hx]]; [by apply Hun, Hn|by rewrite Hnone in Hx].
Qed.

Lemma quiet_notes g : ¬ publishing g → unpublished g = [].
Proof. intros Hp. destruct (decide (unpublished g = [])) as [?|Hn]; [done|]. by destruct Hp; left. Qed.

Lemma not_serving s : minv s → may_serve (pc s) = false → serving s = false.
Proof.
  intros Hi Hpc. destruct (serving s) eqn:E; [|done]. by rewrite (mi_serving _ Hi E) in Hpc.
Qed.

(** ** [main] uses the client as it should *)

Lemma call_served s a :
  minv s → returned s → main_calls (pc s) a → served (gw s) (Thread a).
Proof.
  intros Hi [Hret Hmain] Hc. pose proof (mi_phase _ Hi) as Hp. pose proof (mi_zenoh _ Hi) as Hz.
  destruct (pc s) as [[|t ts]| | | | | | | | | | |] eqn:Hpc; destruct a; try done;
    cbn [zenoh_open phase] in Hp, Hz.
  - destruct (no_publisher s Hi Hz) as [Hpubs Hq]; [by apply not_serving; rewrite ?Hpc|by rewrite Hpc|].
    by split.
  - split; [|done]. cbn. pose proof (MqttConc.i_shape _ _ (mi_client _ Hi)) as Hsh.
    unfold MqttConc.shape in Hsh. rewrite Hret in Hsh, Hp. destruct Hp as [_ Hst].
    destruct Hsh as [[Hparts _]|[Hparts _]]; injection Hparts; congruence.
  - destruct Hc as [-> ->]. split; [|done]. by apply up_not_starting.
  - destruct (no_publisher s Hi Hz) as [Hpubs Hq]; [by apply not_serving; rewrite ?Hpc|by rewrite Hpc|].
    by split.
  - destruct (no_publisher s Hi Hz) as [Hpubs Hq]; [by apply not_serving; rewrite ?Hpc|by rewrite Hpc|].
    by split.
Qed.

(** [stop] is under way only when nobody publishes. *)
Lemma owner_disciplined s : minv s → MqttConc.disciplined (threads (gw s)) MqttConc.OwnerStep.
Proof.
  intros Hi Ho. pose proof (mi_phase _ Hi) as Hp. pose proof (mi_zenoh _ Hi) as Hz.
  assert (Hpc : pc s = DestroyMqtt ∨ pc s = Exited).
  { unfold phase, up in Hp. rewrite Ho in Hp. clear Hz.
    destruct (pc s); cbn in Hp; intuition congruence. }
  apply no_publisher; [done|..].
  - rewrite Hz. by destruct Hpc as [-> | ->].
  - apply not_serving; [done|]. by destruct Hpc as [-> | ->].
  - by destruct Hpc as [-> | ->].
Qed.

Lemma others_served s ch :
  minv s → others s ch → (ch = Publish → unpublished (gw s) ≠ []) → served (gw s) ch.
Proof.
  intros Hi Ho Hun. destruct ch as [a| | |ch].
  - destruct a; try done; try (by split).
    + split; [by apply owner_disciplined|done].
    + destruct Ho as (_ & _ & Hz). split; [|done]. apply up_not_starting, phase_up; tauto.
  - by split.
  - split; [|done]. cbn. apply up_not_starting, phase_up; [done|right].
    destruct (serving s) eqn:E; [done|]. by destruct (Hun eq_refl (mi_notes _ Hi E)).
  - split; [done|]. intros Hio. apply phase_up; [done|right]. by apply Ho.
Qed.

(** ** Every step *)

Lemma then_owner_at {A} (c : M (MqttConc.config user) A) o t t' :
  (c ;; MqttConc.owner_at o) t = (Ret tt, t') → MqttConc.owner t' = o.
Proof. by intros (a & t1 & _ & [= <-])%bind_ret_inv. Qed.

(** Where the owner goes from the calls of [subscribe] and [start]. *)
Lemma owner_moves t t' :
  MqttConc.inv noting t → MqttConc.owner_step t = (Ret tt, t') →
  match MqttConc.owner t with
  | MqttConc.SubPush topic => MqttConc.owner t' = MqttConc.SubPost topic ∧
      MqttClient.started_ (MqttConc.mq t') = MqttClient.started_ (MqttConc.mq t)
  | MqttConc.SubPost _ => MqttConc.owner t' = MqttConc.OwnerIdle ∧
      MqttClient.started_ (MqttConc.mq t') = MqttClient.started_ (MqttConc.mq t)
  | o => (MqttConc.starting o = true → MqttConc.starting (MqttConc.owner t') = true ∨
        MqttConc.owner t' = MqttConc.OwnerIdle ∧ MqttClient.started_ (MqttConc.mq t') = true) ∧
      (stops o = true → stops (MqttConc.owner t') = true ∨
        MqttConc.owner t' = MqttConc.OwnerIdle ∧ MqttClient.started_ (MqttConc.mq t') = false)
  end.
Proof.
  intros Hi Hrun. pose proof (MqttConc.i_shape _ _ Hi) as Hsh. unfold MqttConc.shape in Hsh.
  unfold MqttConc.owner_step in Hrun. rewrite bind_unfold in Hrun. cbn [get] in Hrun.
  destruct (MqttConc.owner t) eqn:Ho; try done; cbn [MqttConc.starting stops];
    try (apply then_owner_at in Hrun; rewrite Hrun; split; [by left|by left]).
  - by injection Hrun as <-.
  - destruct (_ && _); by injection Hrun as <-.
  - split; [|done]. intros _. injection Hrun as <-. cbn.
    destruct (MqttClient.started_ (MqttConc.mq t)); [by right|by left].
  - split; [|done]. intros _. right. injection Hrun as <-. cbn.
    destruct Hsh as ((Hparts & _) & _). by injection Hparts.
  - split; [done|]. intros _. injection Hrun as <-. cbn.
    destruct (MqttClient.started_ (MqttConc.mq t)); [by left|by right].
  - split; [done|]. intros _. injection Hrun as <-. cbn. destruct Hsh as (Hparts & Hst & _).
    rewrite Hst. by left.
  - split; [done|]. intros _. right. injection Hrun as <-. cbn.
    destruct Hsh as ((Hparts & _) & _). by injection Hparts.
Qed.

Lemma phase_owned p g g' :
  MqttConc.owned (threads g') = MqttConc.owned (threads g) → phase p g → phase p g'.
Proof. intros [= Ho Hs]. unfold phase, up. by rewrite Ho, Hs. Qed.

(** The actions that are not the owner's. *)
Lemma thread_owned a (t t' : MqttConc.config user) :
  match a with
  | MqttConc.CallSubscribe _ | MqttConc.CallStart | MqttConc.CallStop | MqttConc.OwnerStep => False
  | _ => True
  end → MqttConc.run_action a t = (Ret tt, t') → MqttConc.owned t' = MqttConc.owned t.
Proof.
  intros Ha Hrun. apply exec_ret in Hrun. subst t'.
  destruct a; try done; [apply MqttConc.run_next_owned|apply MqttConc.io_owned|apply MqttConc.pub_owned].
Qed.

Lemma owner_phase s t' :
  minv s → MqttConc.owner_ready (threads (gw s)) → MqttConc.owner_step (threads (gw s)) = (Ret tt, t') →
  phase (pc s) {| threads := t'; stream := stream (gw s); told := told (gw s) |}.
Proof.
  intros Hi Hr Hrun. pose proof (mi_phase _ Hi) as Hp.
  pose proof (owner_moves _ _ (mi_client _ Hi) Hrun) as Hm. unfold MqttConc.owner_ready in Hr.
  assert (Hidle : ¬ up (gw s)) by (intros [Ho _]; by rewrite Ho in Hr).
  destruct (pc s); cbn [phase] in *; try done; unfold up; cbn [threads].
  - destruct Hp as [Ho Hst].
    destruct (MqttConc.owner (threads (gw s))); try done; by destruct Hm as [-> ->].
  - destruct Hp as [Hst|?]; [|done].
    destruct (MqttConc.owner (threads (gw s))); try done; by apply Hm.
  - destruct Hp as [Hst|[Ho _]]; [|by rewrite Ho in Hr].
    destruct (MqttConc.owner (threads (gw s))); try done; by apply Hm.
  - destruct Hp as [Hst|[Ho _]]; [|by rewrite Ho in Hr].
    destruct (MqttConc.owner (threads (gw s))); try done; by apply Hm.
Qed.

Lemma others_phase s ch l g' :
  minv s → others s ch → gstep (gw s) ch l g' → phase (pc s) g'.
Proof.
  intros Hi Ho Hst. pose proof (mi_phase _ Hi) as Hp.
  destruct Hst as [a t' _ He Hrun|c cs s' _ _ _|t p ps t' _ _ Hrun|ch s' _ _].
  - destruct (decide (a = MqttConc.OwnerStep)) as [->|Hne]; [by apply owner_phase|].
    apply (phase_owned _ (gw s)); [|done]. apply (thread_owned a); [|done]. by destruct a.
  - by apply (phase_owned _ (gw s)).
  - injection Hrun as <-. by apply (phase_owned _ (gw s)).
  - by apply (phase_owned _ (gw s)).
Qed.

(** Who begins to publish. *)
Lemma thread_pubs a (t t' : MqttConc.config user) i :
  MqttConc.run_action a t = (Ret tt, t') → is_Some (MqttConc.pubs t' !! i) →
  is_Some (MqttConc.pubs t !! i) ∨ ∃ topic p, a = MqttConc.CallPublish i topic p.
Proof.
  intros Hrun Hi. destruct (is_pub a) eqn:Ha.
  - destruct a as [| | | | | | | | |j topic p|j]; try done; cbn [MqttConc.run_action] in Hrun.
    + injection Hrun as <-. cbn in Hi. destruct (decide (i = j)) as [->|Hne]; [right; eauto|left].
      by rewrite lookup_insert_ne in Hi.
    + left. destruct (decide (i = j)) as [->|Hne].
      * destruct (MqttConc.pubs t !! j) as [pc|] eqn:Hj; [done|].
        unfold MqttConc.pub_step in Hrun. rewrite bind_unfold in Hrun. cbn [get] in Hrun.
        rewrite Hj in Hrun. injection Hrun as <-. by rewrite Hj in Hi.
      * by rewrite <- (MqttConc.pub_others i j t t' Hne Hrun).
  - left. destruct (others_published a _ _ Ha Hrun) as ([= Hp _] & _). by rewrite <- Hp.
Qed.

(** A step of another thread, or of a call under way. *)
Lemma gstep_client g ch l g' :
  MqttConc.inv noting (threads g) → disciplined g ch → gstep g ch l g' →
  MqttConc.inv noting (threads g').
Proof.
  intros Hi Hd Hst.
  destruct Hst as [a t' _ He Hrun|c cs s' _ _ _|t p ps t' _ He Hrun|ch' s' _ _]; cbn [threads]; [| | |done].
  - destruct (MqttConc.action_ok noting _ a Hi He Hd) as (t2 & Hrun2 & Hi'). congruence.
  - by apply set_todo_inv.
  - destruct (MqttConc.action_ok noting _ _ Hi He Hd) as (t2 & Hrun2 & Hi'). congruence.
Qed.

Lemma gstep_stream g ch l g' :
  StreamReports.reads_ok (stream g) → gstep g ch l g' →
  StreamReports.reads_ok (stream g') ∧
  (match ch with InStream ch => io_choice ch = true | _ => True end →
   publications g' = publications g).
Proof.
  intros Hr Hst.
  destruct Hst as [a t' _ _ _|c cs s' _ _ Hs|t p ps t' _ _ _|ch' s' _ Hs]; cbn [stream]; try done;
    destruct (StreamReports.step_reads _ _ _ _ Hr Hs) as [Hr' Hp]; (split; [done|]).
  - by intros _.
  - intros Hio. by destruct ch'.
Qed.

Lemma gstep_pubs s ch l g' i :
  minv s → others s ch → gstep (gw s) ch l g' → is_Some (MqttConc.pubs (threads g') !! i) →
  may_publish s i.
Proof.
  intros Hi Ho Hst Hp. pose proof (mi_pubs _ Hi i) as Hmi.
  destruct Hst as [a t' _ _ Hrun|c cs s' _ _ _|t p ps t' Hun _ Hrun|ch' s' _ _]; cbn [threads]
    in Hp; try by apply Hmi.
  - destruct (thread_pubs a _ _ i Hrun Hp) as [?|(topic & p & ->)]; [by apply Hmi|].
    destruct Ho as (-> & _ & Hz). right. by left.
  - injection Hrun as <-. cbn in Hp. destruct (decide (i = queue_thread)) as [->|Hne].
    + left. split; [done|]. destruct (serving s) eqn:E; [done|]. by rewrite (mi_notes _ Hi E) in Hun.
    + rewrite lookup_insert_ne in Hp by done. by apply Hmi.
Qed.

(** What the queue's thread was asked to publish grows only while it runs. *)
Lemma gstep_notes s ch l g' :
  minv s → others s ch → gstep (gw s) ch l g' → serving s = false → unpublished g' = [].
Proof.
  intros Hi Ho Hst Hs. pose proof (mi_notes _ Hi Hs) as Hn.
  destruct (gstep_stream _ _ _ _ (mi_stream _ Hi) Hst) as [_ Hp].
  assert (Hpub : publications g' = publications (gw s)).
  { apply Hp. destruct ch as [| | |ch]; try done. destruct (io_choice ch) eqn:E; [done|].
    destruct (Ho E) as [Ho' _]. congruence. }
  unfold unpublished in *. rewrite Hpub.
  destruct Hst as [| |t p ps t' Hun|]; cbn [told]; try done. unfold unpublished in Hun. congruence.
Qed.

Lemma gstep_calls g ch l g' :
  StreamReports.reads_ok (stream g) → StreamReports.calls_ok (stream g) → gstep g ch l g' →
  StreamReports.calls_ok (stream g').
Proof.
  intros Hr Hc Hst. destruct Hst as [|c cs s' _ _ Hs| |ch' s' _ Hs]; cbn [stream]; try done;
    by eapply StreamReports.step_calls.
Qed.

(** No call is accepted, and nothing started, by a step of another thread once the server
    is down, or before it is up. *)
Lemma gstep_down s ch l g' :
  sinv s → others s ch → gstep (gw s) ch l g' →
  serving s = false ∨ server_is_down (pc s) = true →
  StreamShutdown.calls_over (stream g') ∧
  StreamShutdown.starts_nothing (stream (gw s)) (stream g').
Proof.
  intros [Hr _ Hc Hdn] Ho Hst Hdown. pose proof (Hdn Hdown) as Hover.
  destruct Hst as [a t' _ _ _|c cs s' _ _ Hs|t p ps t' _ _ _|ch' s' _ Hs]; cbn [stream];
    try (split; [done|by left]).
  - by apply (StreamShutdown.quiet_when_down _ (StreamConc.ChLoad c) [c]).
  - apply (StreamShutdown.quiet_when_down _ ch' []); [done..| |done]. cbn [others] in Ho.
    destruct (io_choice ch') eqn:E; [by destruct ch'|]. destruct (Ho eq_refl) as [Hsv Hacc].
    destruct Hdown as [?|Hd]; [congruence|]. by rewrite Hd in Hacc.
Qed.

Lemma gstep_has_notes g ch l g' : gstep g ch l g' → ch = Publish → unpublished g ≠ [].
Proof. intros [| |t p ps t' Hun|]; [done|done| |done]. by rewrite Hun. Qed.

Lemma others_ok s ch l g' :
  minv s → others s ch → gstep (gw s) ch l g' →
  minv {| gw := g'; pc := pc s; zenoh := zenoh s; serving := serving s; cut := cut s |}.
Proof.
  intros Hi Ho Hst.
  pose proof (others_served s ch Hi Ho (gstep_has_notes _ _ _ _ Hst)) as [Hd _].
  split; cbn [gw pc zenoh serving].
  - by eapply gstep_client; [apply Hi| |].
  - by eapply gstep_stream; [apply Hi|].
  - by eapply others_phase.
  - intros i Hp. by eapply (gstep_pubs s).
  - by eapply gstep_notes.
  - apply Hi.
  - apply Hi.
  - by eapply gstep_calls; [apply Hi..|].
  - intros Hdown. by apply (gstep_down s ch l g' (minv_sinv _ Hi)).
Qed.

(** A call of [main]. *)
Lemma call_ok s a l g' :
  minv s → returned s → main_calls (pc s) a → gstep (gw s) (Thread a) l g' →
  minv {| gw := g'; pc := next_pc (pc s); zenoh := zenoh s; serving := serving s; cut := cut s |}.
Proof.
  intros Hi Hret Hc Hst. pose proof (call_served s a Hi Hret Hc) as [Hd _].
  pose proof Hi as [_ _ Hp Hpubs Hn Hz Hs Hcs Hdn].
  assert (Hcl : MqttConc.inv noting (threads g')) by (eapply gstep_client; [apply Hi|exact Hd|exact Hst]).
  assert (Hrd : StreamReports.reads_ok (stream g')) by (eapply gstep_stream; [apply Hi|exact Hst]).
  assert (Hnot : serving s = true → False).
  { intros E. specialize (Hs E). by destruct (pc s). }
  assert (Hall : ∃ t', MqttConc.run_action a (threads (gw s)) = (Ret tt, t') ∧
    g' = {| threads := t'; stream := stream (gw s); told := told (gw s) |}) by (inversion Hst; eauto).
  destruct Hall as (t' & Hrun & ->). destruct Hret as [Hown Hmain].
  split; cbn [gw pc zenoh serving threads stream] in *; try done.
  - destruct (pc s) as [[|t ts]| | | | | | | | | | |] eqn:Hpc; destruct a; try done; injection Hrun as <-;
      cbn [next_pc phase threads]; try done.
    + by left.
    + split; [done|]. apply Hp.
    + by left.
    + by left.
  - intros i Hi'. destruct (thread_pubs a _ _ i Hrun Hi') as [Hold|(topic & p & ->)].
    + destruct (Hpubs i Hold) as [?|[?|[-> Hpc]]]; [by left|by right; left|].
      by rewrite Hmain in Hold; destruct Hold.
    + destruct (pc s) as [[|? ?]| | | | | | | | | | |] eqn:Hpc; try done. destruct Hc as [-> _].
      right. by right.
  - rewrite Hz. by destruct (pc s) as [[|t ts]| | | | | | | | | | |] eqn:Hpc; destruct a.
  - intros _. apply Hdn. left. by destruct (serving s) eqn:E; [destruct Hnot|].
Qed.

(** [cut] is not taken back, and only the end of the session sets it. *)
Definition late (p : main_pc) : bool :=
  match p with StopMqtt | DestroyMqtt | Exited => true | _ => false end.

Lemma cut_stays s l s' : mstep s l s' → cut s' = false → cut s = false.
Proof. intros [] Hc; try exact Hc. by apply orb_false_iff in Hc as [Hc _]. Qed.

Lemma late_stays p : late p = true → late (next_pc p) = true.
Proof. by destruct p. Qed.

Lemma cut_late cfg tr s : msteps (launch cfg) tr s → cut s = true → late (pc s) = true.
Proof.
  induction 1 as [|tr s l s' _ IH Hst]; [done|].
  destruct Hst as [| | | |Hpc| | | | |Hpc|]; cbn [cut pc] in *; intros Hc;
    try (by apply late_stays, IH); try (by apply IH).
  - specialize (IH Hc). by rewrite Hpc in IH.
  - by rewrite Hpc.
Qed.

(** The stream's part, whatever becomes of the client. *)
Lemma mstep_sinv s l s' : sinv s → mstep s l s' → sinv s'.
Proof.
  intros Hi Hst. pose proof Hi as [Hr Hs Hc Hdn].
  assert (Hnot : may_serve (pc s) = false → serving s = false).
  { intros Hpc. destruct (serving s) eqn:E; [|done]. by rewrite (Hs eq_refl) in Hpc. }
  assert (Hidle : ∀ p z b c, serving s = false → (b = true → may_serve p = true) →
    sinv {| gw := gw s; pc := p; zenoh := z; serving := b; cut := c |}).
  { intros p z b c Hsv Hb. split; cbn; try done. intros _. apply Hdn. by left. }
  destruct Hst as [a l g' Hret Hca Hst|Hpc _|Hpc _|builds Hpc _|Hpc Hsv|Hpc Hsv|Hpc Hover|Hpc|Hpc Hq
    |Hpc|ch l g' Ho Hst].
  - assert (Hg : stream g' = stream (gw s)) by by inversion Hst.
    assert (Hsv : serving s = false) by (apply Hnot; by destruct (pc s)).
    split; cbn [gw pc serving]; rewrite ?Hg, ?Hsv; try done. intros _. apply Hdn. by left.
  - apply Hidle; [apply Hnot; by rewrite Hpc|]. rewrite Hnot; [done|by rewrite Hpc].
  - apply Hidle; [apply Hnot; by rewrite Hpc|]. rewrite Hnot; [done|by rewrite Hpc].
  - apply Hidle; [apply Hnot|]; by rewrite Hpc.
  - by apply Hidle; [|rewrite Hsv].
  - split; cbn; rewrite ?Hpc, ?Hsv; try done. by intros [?|?].
  - split; cbn; rewrite ?Hpc; done.
  - split; cbn; rewrite ?Hpc; try done. intros _. apply Hdn. right. by rewrite Hpc.
  - split; cbn; rewrite ?Hpc; try done. intros _. apply Hdn. right. by rewrite Hpc.
  - apply Hidle; [apply Hnot; by rewrite Hpc|]. rewrite Hnot; [done|by rewrite Hpc].
  - split; cbn [gw pc serving]; [by eapply gstep_stream|done|by eapply gstep_calls|].
    intros Hdown. by apply (gstep_down s ch l).
Qed.

(** A statement of [main] that is no call of the client. *)
Lemma mstep_ok s l s' : minv s → mstep s l s' → cut s' = false → minv s'.
Proof.
  intros Hi Hst Hcut. pose proof Hi as [Hcl Hrd Hp Hpubs Hn Hz Hs Hcs Hdn].
  destruct Hst as [a l g' Hret Hc Hst|Hpc [Hown Hmain]|Hpc [Hown Hmain]|builds Hpc [Hown Hmain]
    |Hpc Hsv|Hpc Hsv|Hpc Hover|Hpc|Hpc Hq|Hpc|ch l g' Ho Hst];
    [by eapply call_ok|..|by eapply others_ok].
  all: rewrite Hpc in *; split;
    cbn [gw pc zenoh serving next_pc zenoh_open phase may_serve server_is_down] in *; try done.
  all: try tauto.
  all: try (intros i Hsome; destruct (Hpubs i Hsome) as [[-> ?]|[[-> ?]|[-> ?]]]; try done).
  all: try (by destruct Hsome; congruence).
  all: try (unfold may_publish; cbn; tauto).
  all: try (match goal with E : serving _ = true |- _ => by specialize (Hs E) end).
  all: try (by intros E; specialize (Hs E)).
  - destruct Hp as [Hst|?]; [|done]. by rewrite Hown in Hst.
  - intros _. apply Hn. destruct (serving s) eqn:E; [by specialize (Hs eq_refl)|done].
  - intros _. apply Hdn. left. destruct (serving s) eqn:E; [by specialize (Hs eq_refl)|done].
  - congruence.
  - exfalso. apply Hq. by right.
  - intros _. by apply quiet_notes, Hq.
  - apply orb_false_iff in Hcut as [_ Hz0]. by apply bool_decide_eq_false in Hz0.
Qed.

(** A step of the program is one of the threads, used as they should be, or leaves them. *)
Lemma mstep_served s l s' :
  minv s → mstep s l s' →
  l = [] ∧ gw s' = gw s ∨ ∃ ch, served (gw s) ch ∧ gstep (gw s) ch l (gw s').
Proof.
  intros Hi [a l' g' Hret Hc Hst| | | | | | | | | |ch l' g' Ho Hst]; try by left.
  - right. exists (Thread a). by split; [apply call_served|].
  - right. exists ch. split; [|done]. apply others_served; [done|done|]. by eapply gstep_has_notes.
Qed.

Lemma launch_minv cfg : minv (launch cfg).
Proof.
  split; cbn [launch gw pc zenoh serving]; try done.
  - apply (gi_threads _ _ _ (boot_ginv cfg)).
  - apply StreamReports.init_reads_ok.
  - by intros i [? ?].
  - apply StreamReports.init_calls_ok.
  - intros _. split; [done|]. intros h x Hx.
    change (heap (init_world (P:=list (string * string)) []) !! h = Some x) in Hx.
    rewrite StreamSeq.init_world_eq in Hx. cbn in Hx.
    apply lookup_insert_Some in Hx as [[_ <-]|[_ Hx]]; [done|by rewrite lookup_empty in Hx].
Qed.

Lemma msteps_sinv cfg tr s : msteps (launch cfg) tr s → sinv s.
Proof.
  induction 1 as [|tr s l s' _ IH Hst]; [apply minv_sinv, launch_minv|by eapply mstep_sinv].
Qed.

Lemma msteps_inv cfg tr s :
  msteps (launch cfg) tr s → cut s = false → minv s ∧ gsteps served (boot cfg) tr (gw s).
Proof.
  induction 1 as [|tr s l s' _ IH Hst]; intros Hcut; [split; [apply launch_minv|constructor]|].
  destruct IH as [Hi Hg]; [by eapply cut_stays|]. split; [by eapply mstep_ok|].
  destruct (mstep_served s l s' Hi Hst) as [[-> ->]|(ch & Hsv & Hgst)]; [by rewrite app_nil_r|].
  by econstructor.
Qed.

(** The io thread has ended when [main] has exited. *)
Lemma exited_down s :
  minv s → pc s = Exited → MqttConc.owner (threads (gw s)) = MqttConc.OwnerIdle →
  MqttConc.down (threads (gw s)).
Proof.
  intros Hi Hpc Ho. pose proof (mi_phase _ Hi) as Hp. rewrite Hpc in Hp. cbn [phase] in Hp.
  rewrite Ho in Hp. destruct Hp as [?|[_ Hst]]; [done|].
  pose proof (MqttConc.i_shape _ _ (mi_client _ Hi)) as Hsh. unfold MqttConc.shape in Hsh. rewrite Ho in Hsh.
  destruct Hsh as [[Hparts _]|?]; [|done]. injection Hparts. congruence.
Qed.

(** What [main] or another thread may do next to the client. *)
Definition may (s : state) (a : MqttConc.action) : Prop :=
  others s (Thread a) ∨ returned s ∧ main_calls (pc s) a.

(** ** The theorem *)

(** C24. [cq_->Shutdown()] comes late enough, in [main] too, whatever its threads do: once
    the queue is shut down no step of any thread starts an operation on it; a push that
    was half way when the last call ended included. What is outstanding only shrinks. *)
Theorem queue_quiet_after_shutdown cfg tr s l s'
  (Hs : msteps (launch cfg) tr s) (Hq : queue_is_down (pc s) = true) (Hst : mstep s l s') :
  StreamShutdown.starts_nothing (stream (gw s)) (stream (gw s')).
Proof.
  pose proof (msteps_sinv cfg tr s Hs) as Hi.
  destruct Hst as [a l g' _ _ Hst| | | | | | | | | |ch l g' Ho Hst]; cbn [gw]; try by left.
  - by inversion Hst; left.
  - apply (gstep_down s ch l g' Hi Ho Hst). right. by destruct (pc s).
Qed.

(** ** Running a schedule *)

#[export] Instance returned_dec s : Decision (returned s).
Proof. unfold returned. apply _. Defined.
#[export] Instance main_calls_dec p a : Decision (main_calls p a).
Proof. destruct p as [[]| | | | | | | | | | |], a; cbn [main_calls]; apply _. Defined.
#[export] Instance others_dec s ch : Decision (others s ch).
Proof. destruct ch as [[]| | |]; cbn [others]; apply _. Defined.
#[export] Instance queue_ended_dec g : Decision (queue_ended g).
Proof. unfold queue_ended. apply _. Defined.

(** A scheduler's choice: a call of [main], its next plain statement (with whether the
    server can be built), or a step of another thread. *)
Inductive turn : Type :=
| Call (a : MqttConc.action)
| Plain (builds : bool)
| Other (ch : choice).

Definition plain (s : state) (builds : bool) : option state :=
  let goes (z sv : bool) :=
    Some {| gw := gw s; pc := next_pc (pc s); zenoh := z; serving := sv; cut := cut s |} in
  match pc s with
  | OpenZenoh => if decide (returned s) then goes true (serving s) else None
  | Authenticate => if decide (returned s) then goes (zenoh s) (serving s) else None
  | StartGrpc => if decide (returned s) then goes (zenoh s) builds else None
  | WaitGrpc =>
      if serving s then goes (zenoh s) (serving s)
      else Some {| gw := gw s; pc := ResetZenoh; zenoh := zenoh s; serving := serving s; cut := cut s |}
  | ShutdownServer =>
      if decide (StreamShutdown.calls_over (stream (gw s))) then goes (zenoh s) (serving s) else None
  | ShutdownQueue => goes (zenoh s) (serving s)
  | JoinQueue => if decide (queue_ended (gw s)) then goes (zenoh s) false else None
  | ResetZenoh =>
      Some {| gw := gw s; pc := next_pc (pc s); zenoh := false; serving := serving s;
              cut := cut s || delivering (gw s) |}
  | _ => None
  end.

Definition take_turn (s : state) (t : turn) : option (list happening * state) :=
  match t with
  | Call a =>
      if decide (returned s ∧ main_calls (pc s) a)
      then '(l, g') ← schedule (gw s) (Thread a);
           Some (l, {| gw := g'; pc := next_pc (pc s); zenoh := zenoh s; serving := serving s; cut := cut s |})
      else None
  | Plain builds => s' ← plain s builds; Some ([], s')
  | Other ch =>
      if decide (others s ch)
      then '(l, g') ← schedule (gw s) ch;
           Some (l, {| gw := g'; pc := pc s; zenoh := zenoh s; serving := serving s; cut := cut s |})
      else None
  end.

Lemma plain_sound s builds s' : plain s builds = Some s' → mstep s [] s'.
Proof.
  unfold plain. remember (next_pc (pc s)) as n eqn:Hn.
  destruct (pc s) eqn:Hpc; try done; try (case_decide; [|done]);
    try (intros [= <-]; rewrite Hn, <- Hpc; by constructor).
  destruct (serving s) eqn:Hsv; intros [= <-]; [|by rewrite <- Hsv; apply m_unbuilt].
  rewrite <- Hsv, Hn, <- Hpc. by apply m_signal.
Qed.

Lemma turn_sound s t l s' : take_turn s t = Some (l, s') → mstep s l s'.
Proof.
  destruct t as [a|b|ch]; cbn [take_turn].
  - case_decide as Hd; [|done].
    intros ([l' g'] & Hs%gateway_schedule_sound & [= <- <-])%bind_Some. destruct Hd. by apply (m_call s a).
  - intros (s1 & Hs%plain_sound & [= <- <-])%bind_Some. done.
  - case_decide as Hd; [|done].
    intros ([l' g'] & Hs%gateway_schedule_sound & [= <- <-])%bind_Some. by apply (m_other s ch).
Qed.

Fixpoint take_turns (ts : list turn) (s : state) : option (list happening * state) :=
  match ts with
  | [] => Some ([], s)
  | t :: ts' => '(l, s1) ← take_turn s t; '(ls, s2) ← take_turns ts' s1; Some (l ++ ls, s2)
  end.

Lemma turns_sound ts s0 tr0 s tr s' :
  msteps s0 tr0 s → take_turns ts s = Some (tr, s') → msteps s0 (tr0 ++ tr) s'.
Proof.
  revert tr0 s tr. induction ts as [|t ts IH]; intros tr0 s tr Hs; cbn [take_turns].
  - intros [= <- <-]. by rewrite app_nil_r.
  - intros ([l s1] & Ht%turn_sound & ([ls s2] & Hrun & [= <- <-])%bind_Some)%bind_Some.
    rewrite (assoc_L (++)). eapply IH; [|exact Hrun]. by econstructor.
Qed.

Lemma turns_reach {X} (f : list happening → state → X) ts s x :
  uncurry f <$> take_turns ts s = Some x → ∃ tr s', msteps s tr s' ∧ f tr s' = x.
Proof.
  destruct (take_turns ts s) as [[tr s']|] eqn:Hr; [|done]. intros [= Hf].
  exists tr, s'. split; [|done]. apply (turns_sound ts s [] s tr s'); [constructor|done].
Qed.

End main.

Section discipline.
Context `{JL : JsonLaws}.

(** C6. [main] uses the MQTT client as its threads need it. In every execution, whatever
    the interleaving of [main]'s statements, the io thread, the completion queue's thread
    and Zenoh's thread, unless the Zenoh session was ended while its subscriber's callback
    was publishing a location ([cut]): no two threads race for a member of the client;
    every statement any of them may run next on it runs to its end; the commands received
    are, in order, those pushed and those the io thread has in hand, and those pushed are
    on a stream, wait for one, are being pushed or were dropped with a stream's handler;
    the texts of the events read are, in order, those sent, the one being published and
    those about to be, and read back as the events where these are exact; and when [main] has exited the io thread has ended and the client
    and its context are destroyed. *)
Theorem main_keeps_discipline cfg tr s (Hs : msteps (launch cfg) tr s) (Hcut : cut s = false) :
  ¬ MqttConc.races (threads (gw s)) ∧
  (∀ a, may s a → MqttConc.enabled (threads (gw s)) a →
     fst (MqttConc.run_action a (threads (gw s))) = Ret tt) ∧
  (∃ cs, omap Gateway.command_of (messages tr) = cs ++ in_hand (gw s) ∧
     cs ≡ₚ held (gw s) ++ losses tr) ∧
  Forall2 (λ m ev, composed ev = [m] ∧
                   (Telemetry.event_exact ev → Telemetry.read_event m = Some ev))
    (sent_by queue_thread tr ++ in_call (threads (gw s)) ++ unpublished (gw s))
    (List.filter Telemetry.is_report (reports tr)) ∧
  (pc s = Exited → returned s → MqttConc.down (threads (gw s))).
Proof.
  destruct (msteps_inv cfg tr s Hs Hcut) as [Hi Hg]. pose proof (mi_client _ Hi) as Hcl.
  split_and!; [by apply (MqttConc.inv_race_free noting)|..].
  - intros a Hmay He. assert (Hd : served (gw s) (Thread a)).
    { destruct Hmay as [Ho|[Hret Hc]]; [by apply others_served|by apply call_served]. }
    by destruct (MqttConc.action_ok noting _ a Hcl He (proj1 Hd)) as (t' & -> & _).
  - destruct (gi_commands _ _ _ (ri_gateway _ _ (gsteps_rinv cfg tr _ Hg))) as (cs & Hcs & Hm). eauto.
  - apply (gsteps_reported cfg tr _ Hg).
  - intros Hpc [Ho _]. by apply exited_down.
Qed.

End discipline.

(** ** Witness *)

Definition owner_turns (n : nat) : list turn := replicate n (Other (Thread MqttConc.OwnerStep)).
Definition in_stream (ch : StreamConc.choice) : turn := Other (InStream ch).
Definition in_thread (a : MqttConc.action) : turn := Other (Thread a).

(** The topics are subscribed, the client starts, a location comes in while [main] logs
    in, and a vehicle connects; a signal stops the server, the handlers are told, [main]
    stops the client, and returns. *)
Definition whole_run : list turn :=
  concat ((λ t, Call (MqttConc.CallSubscribe t) :: owner_turns 2) <$> Gateway.subscribed_topics) ++
  Call MqttConc.CallStart :: owner_turns 9 ++
  [Plain true; in_thread (MqttConc.CallPublish zenoh_thread kTopicStreamLocation "{}");
   Call (MqttConc.CallPublish main_thread kTopicUpdateLocation "{}")] ++
  concat (replicate 3 [in_thread (MqttConc.PubStep zenoh_thread);
    in_thread (MqttConc.PubStep main_thread)]) ++
  [Plain true; in_stream (StreamConc.ChConnect 0); in_stream StreamConc.ChLock;
   in_stream StreamConc.ChUnlock; Plain true;
   in_stream (StreamConc.ChComplete (OpRead 0) false EvNotSet);
   in_stream (StreamConc.ChComplete (OpFinish 0) true EvNotSet); Plain true; Plain true;
   in_stream (StreamConc.ChComplete (OpRequest 1) false EvNotSet);
   Plain true; Plain true; Call MqttConc.CallStop] ++
  owner_turns 3 ++ [in_thread MqttConc.Disconnected; in_thread MqttConc.IoStep] ++ owner_turns 3 ++
  Call MqttConc.CallStop :: owner_turns 1.

Lemma main_keeps_discipline_witness :
  ∃ tr s, msteps (launch Config.default_config) tr s ∧ pc s = Exited ∧ length (sent tr) = 2 ∧
    MqttConc.down (threads (gw s)).
Proof.
  destruct (turns_reach (λ tr s, (pc s, bool_decide (returned s), length (sent tr), cut s))
    whole_run (launch Config.default_config) (Exited, true, 2, false))
    as (tr & s & Hs & [= Hpc Hret Hl Hcut]); [vm_compute; reflexivity|].
  exists tr, s. split; [exact Hs|]. split; [exact Hpc|]. split; [exact Hl|].
  apply (main_keeps_discipline Config.default_config tr s Hs Hcut); [exact Hpc|].
  apply bool_decide_eq_true in Hret. exact Hret.
Defined.

(** A location comes in at the end, and is being published when the session is ended. *)
Definition torn_run : list turn :=
  take 48 whole_run ++
  [in_thread (MqttConc.CallPublish zenoh_thread kTopicStreamLocation "{}");
   in_thread (MqttConc.PubStep zenoh_thread); Plain true; Call MqttConc.CallStop] ++
  owner_turns 3 ++ [in_thread MqttConc.Disconnected; in_thread MqttConc.IoStep] ++ owner_turns 1.

(** If [zsession.reset()] does not wait for the callback of the subscriber, the callback
    reads the pointer to the client while [stop] clears it. *)
Theorem reset_races :
  ∃ tr s, msteps (launch Config.default_config) tr s ∧ cut s = true ∧
    MqttConc.races (threads (gw s)).
Proof.
  destruct (turns_reach (λ tr s, (cut s, MqttConc.owner (threads (gw s)),
      MqttConc.pubs (threads (gw s)) !! zenoh_thread))
    torn_run (launch Config.default_config)
    (true, MqttConc.StopClient, Some (MqttConc.PubClient kTopicStreamLocation "{}")))
    as (tr & s & Hs & [= Hcut Ho Hp]); [vm_compute; reflexivity|].
  exists tr, s. split; [exact Hs|]. split; [exact Hcut|]. unfold MqttConc.races, MqttConc.owner_ready.
  rewrite Ho. split; [done|]. right. exists zenoh_thread. eexists. split; [exact Hp|reflexivity].
Qed.

(** Up to the join; the handler that waits for the next vehicle is told, and deleted. *)
Definition refused : turn := in_stream (StreamConc.ChComplete (OpRequest 1) false EvNotSet).

Lemma queue_quiet_after_shutdown_witness :
  ∃ tr s l s', msteps (launch Config.default_config) tr s ∧ pc s = JoinQueue ∧ mstep s l s' ∧
    ops (StreamConc.cw (stream (gw s'))) = [] ∧
    StreamShutdown.starts_nothing (stream (gw s)) (stream (gw s')).
Proof.
  destruct (turns_reach
    (λ tr s, (pc s, (λ x, ops (StreamConc.cw (stream (gw x.2)))) <$> take_turn s refused))
    (take 46 whole_run) (launch Config.default_config) (JoinQueue, Some []))
    as (tr & s & Hs & [Hpc Hops]%pair_equal_spec); [vm_compute; reflexivity|].
  apply fmap_Some in Hops as ([l s'] & Ht & Hops). cbn in Hops. symmetry in Hops.
  apply turn_sound in Ht. exists tr, s, l, s'. split_and!; [exact Hs|exact Hpc|exact Ht|exact Hops|].
  apply (queue_quiet_after_shutdown Config.default_config tr s l s' Hs); [rewrite Hpc; reflexivity|exact Ht].
Defined.

End MainConc.
