(* ===== verification/MainExit.v ===== *)
(** * [main] can always return *)

(** [MainConc] says what holds whenever [main] ([src/main.cpp]) has returned. Here it is
    shown to get there: from every state of every interleaving, unless one of the two
    known uses of a deleted handler is about to happen or has happened, or the Zenoh
    session was ended under a running callback, the threads can
    be scheduled so that the calls end, the queue is drained, the io thread is joined and
    [main] returns. No thread waits for another one that waits for it. *)

From S2P Require Import Prelude Double Json JsonModel Messages Stream StreamSeq StreamConc.
From S2P Require Import StreamReports Shutdown StreamShutdown StreamEnd Config.
From S2P Require Import MqttClient MqttConc Gateway GatewayConc GatewayReports MainConc.

Module MainExit.
Import VehicleStreamHandler GatewayConc GatewayReports MainConc.
#[local] Existing Instances StreamConc.io_pc_eq_dec StreamConc.cq_pc_eq_dec.
#[local] Existing Instances MqttConc.enabled_dec MqttConc.disciplined_dec.
#[local] Existing Instances MqttConc.io_pc_eq_dec MqttConc.owner_pc_eq_dec MqttConc.action_eq_dec.

(** The statements a publisher has left. *)
Definition pub_left (p : MqttConc.pub_pc) : nat :=
  match p with MqttConc.PubStarted _ _ => 3 | MqttConc.PubClient _ _ => 2 | MqttConc.PubUse _ _ => 1 end.

(** The statements the owner has left before its call returns, or [stop] has closed the
    client's flags. *)
Definition owner_left (p : MqttConc.owner_pc) : nat :=
  match p with
  | MqttConc.StartFlag => 9
  | MqttConc.StartReset => 8
  | MqttConc.StartJoin => 7
  | MqttConc.StartContext => 6
  | MqttConc.StartClient => 5
  | MqttConc.StartRun => 4
  | MqttConc.StartPost => 3
  | MqttConc.StartArm | MqttConc.SubPush _ | MqttConc.StopFlag => 2
  | MqttConc.StartThread | MqttConc.SubPost _ | MqttConc.StopOnce => 1
  | _ => 0
  end.

(** The statements [main] has left, the topics still to be subscribed included. *)
Definition main_left (p : main_pc) : nat :=
  match p with
  | SubscribeTopics ts => 11 + length ts
  | OpenZenoh => 10
  | Authenticate => 9
  | StartGrpc => 8
  | WaitGrpc => 7
  | ShutdownServer => 6
  | ShutdownQueue => 5
  | JoinQueue => 4
  | ResetZenoh => 3
  | StopMqtt => 2
  | DestroyMqtt => 1
  | Exited => 0
  end.

Section exit.
Context `{JL : JsonLib}.

(** [stop] of the server is called only when its thread runs. *)
Definition stops_served (s : state) : Prop :=
  match pc s with ShutdownServer | ShutdownQueue | JoinQueue => serving s = true | _ => True end.

Record sound (s : state) : Prop := {
  so_main : minv s;
  so_stream : StreamEnd.good (stream (gw s));
  so_served : stops_served s;
  so_cut : cut s = false
}.

(** [s'] is reached by the other threads alone. *)
Record onward (s s' : state) : Prop := {
  on_run : ∃ tr, msteps s tr s';
  on_main : minv s';
  on_pc : pc s' = pc s;
  on_zenoh : zenoh s' = zenoh s;
  on_serving : serving s' = serving s;
  on_cut : cut s' = cut s
}.

Lemma msteps_trans s tr s1 tr' s' : msteps s tr s1 → msteps s1 tr' s' → msteps s (tr ++ tr') s'.
Proof.
  intros H1 H2. induction H2; [by rewrite app_nil_r|]. rewrite (assoc_L (++)). by econstructor.
Qed.

Lemma msteps_one s l s' : mstep s l s' → msteps s l s'.
Proof. intros Hs. apply (msteps_snoc s [] s l s'); [constructor|done]. Qed.

Lemma onward_refl s : minv s → onward s s.
Proof. intros Hi. split; [exists []; constructor|done..]. Qed.

Lemma onward_trans s s1 s' : onward s s1 → onward s1 s' → onward s s'.
Proof.
  intros [[tr H1] _ ? ? ? ?] [[tr' H2] ? ? ? ? ?]. split; [|done|congruence..].
  exists (tr ++ tr'). by eapply msteps_trans.
Qed.

(** The state after a step of another thread. *)
Definition with_gw (g : gateway) (s : state) : state :=
  {| gw := g; pc := pc s; zenoh := zenoh s; serving := serving s; cut := cut s |}.

Lemma onward_step s ch l g' :
  minv s → others s ch → gstep (gw s) ch l g' → onward s (with_gw g' s).
Proof.
  intros Hi Ho Hs. split; [|by eapply others_ok|done..]. exists l. by apply msteps_one, (m_other s ch).
Qed.

Lemma onward_sound s s' :
  sound s → onward s s' → StreamEnd.good (stream (gw s')) → sound s'.
Proof.
  intros [_ _ Hsv Hc] Ho Hg. split; [apply Ho|done| |by rewrite (on_cut _ _ Ho)].
  unfold stops_served in *. by rewrite (on_pc _ _ Ho), (on_serving _ _ Ho).
Qed.

(** ** The publishers *)

(** The part of the client's threads a publisher leaves alone. *)
Lemma pub_next i (t t' : MqttConc.config user) p :
  MqttConc.pubs t !! i = Some p → MqttConc.pub_step i t = (Ret tt, t') →
  MqttConc.pubs t' !! i = None ∨ ∃ p', MqttConc.pubs t' !! i = Some p' ∧ pub_left p' < pub_left p.
Proof.
  intros Hp. unfold MqttConc.pub_step. rewrite bind_unfold. cbn [get]. rewrite Hp.
  destruct p as [topic pl|topic pl|topic pl].
  - intros [= <-]. cbn. destruct (MqttClient.started_ _); [right|left; apply lookup_delete_eq].
    eexists. split; [apply lookup_insert_eq|cbn; lia].
  - intros [= <-]. cbn. destruct (MqttClient.client_ _); [right|left; apply lookup_delete_eq].
    eexists. split; [apply lookup_insert_eq|cbn; lia].
  - intros ([] & t1 & _ & [= <-])%bind_ret_inv. left. apply lookup_delete_eq.
Qed.

(** [publish] returns. *)
Lemma publisher_returns i n : ∀ s,
  match MqttConc.pubs (threads (gw s)) !! i with Some p => pub_left p | None => 0 end = n →
  minv s →
  ∃ s', onward s s' ∧ stream (gw s') = stream (gw s) ∧ told (gw s') = told (gw s) ∧
    MqttConc.pubs (threads (gw s')) !! i = None ∧
    ∀ j, j ≠ i → MqttConc.pubs (threads (gw s')) !! j = MqttConc.pubs (threads (gw s)) !! j.
Proof.
  induction n as [n IH] using lt_wf_ind. intros s Hn Hi.
  destruct (MqttConc.pubs (threads (gw s)) !! i) as [p|] eqn:Hp.
  2: { exists s. split_and!; [by apply onward_refl|done..]. }
  destruct (MqttConc.pub_ok noting _ i (mi_client _ Hi)) as (t' & Hrun & _); [by rewrite Hp|].
  assert (Hst : gstep (gw s) (Thread (MqttConc.PubStep i)) (observed (threads (gw s)) (MqttConc.PubStep i))
    {| threads := t'; stream := stream (gw s); told := told (gw s) |}).
  { apply g_thread; [by split|cbn; by rewrite Hp|exact Hrun]. }
  pose proof (onward_step s (Thread (MqttConc.PubStep i)) _ _ Hi Logic.I Hst) as Ho.
  destruct (IH (match MqttConc.pubs t' !! i with Some p => pub_left p | None => 0 end))
    with (s := with_gw {| threads := t'; stream := stream (gw s); told := told (gw s) |} s)
    as (s' & Ho' & Hs & Ht & Hnone & Hrest); [|done|apply Ho|].
  - rewrite <- Hn. destruct (pub_next i _ _ p Hp Hrun) as [->|(p' & -> & Hlt)]; [by destruct p; cbn; lia|done].
  - exists s'. split_and!; [by eapply onward_trans|done..|]. intros j Hj. rewrite Hrest by done.
    by apply (MqttConc.pub_others j i).
Qed.

(** The queue's thread publishes all it was asked to. *)
Lemma notes_published l : ∀ s,
  unpublished (gw s) = l → minv s →
  ∃ s', onward s s' ∧ stream (gw s') = stream (gw s) ∧ unpublished (gw s') = [] ∧
    MqttConc.pubs (threads (gw s')) !! queue_thread = None.
Proof.
  induction l as [|[topic p] l IH]; intros s Hl Hi;
    destruct (publisher_returns queue_thread _ s eq_refl Hi) as (s1 & Ho1 & Hs1 & Ht1 & Hn1 & _);
    assert (Hun : unpublished (gw s1) = unpublished (gw s))
      by (unfold unpublished, publications; by rewrite Hs1, Ht1).
  - exists s1. split_and!; [done..|congruence|done].
  - pose (t' := MqttConc.set_pubs (insert queue_thread (MqttConc.PubStarted topic p)) (threads (gw s1))).
    pose (g' := {| threads := t'; stream := stream (gw s1); told := S (told (gw s1)) |}).
    assert (Hst : gstep (gw s1) Publish [] g').
    { apply (g_publish (gw s1) topic p l); [congruence|exact Hn1|done]. }
    pose proof (onward_step s1 Publish _ _ (on_main _ _ Ho1) Logic.I Hst) as Ho2.
    destruct (IH (with_gw g' s1)) as (s' & Ho3 & Hs3 & Hu3 & Hn3); [|apply Ho2|].
    + rewrite Hl in Hun. unfold unpublished, publications in *. cbn.
      by rewrite <- Nat.add_1_r, <- drop_drop, Hun.
    + exists s'. split_and!; [|cbn in Hs3; congruence|done..].
      eapply onward_trans; [exact Ho1|]. by eapply onward_trans.
Qed.

Lemma publishers_return s :
  minv s →
  ∃ s', onward s s' ∧ stream (gw s') = stream (gw s) ∧ unpublished (gw s') = [] ∧
    MqttConc.pubs (threads (gw s')) = ∅.
Proof.
  intros Hi. destruct (notes_published _ s eq_refl Hi) as (s1 & Ho1 & Hs1 & Hu1 & Hq1).
  destruct (publisher_returns zenoh_thread _ s1 eq_refl (on_main _ _ Ho1))
    as (s2 & Ho2 & Hs2 & Ht2 & Hz2 & Hr2).
  destruct (publisher_returns main_thread _ s2 eq_refl (on_main _ _ Ho2))
    as (s3 & Ho3 & Hs3 & Ht3 & Hm3 & Hr3).
  exists s3. split_and!.
  - eapply onward_trans; [exact Ho1|]. by eapply onward_trans.
  - congruence.
  - unfold unpublished, publications in *. by rewrite Hs3, Ht3, Hs2, Ht2.
  - apply map_empty. intros i. destruct (MqttConc.pubs (threads (gw s3)) !! i) eqn:Hp; [|done].
    destruct (mi_pubs _ (on_main _ _ Ho3) i (mk_is_Some _ _ Hp)) as [[-> _]|[[-> _]|[-> _]]]; [| |congruence];
      rewrite Hr3 in Hp by done; [|congruence]. rewrite Hr2 in Hp by done. congruence.
Qed.

Lemma quiet_publishers g :
  unpublished g = [] → MqttConc.pubs (threads g) = ∅ → ¬ publishing g.
Proof. intros Hu Hp [?|[x Hx]]; [done|]. by rewrite Hp in Hx. Qed.

(** ** The stream *)

Definition with_stream (st : StreamConc.config (list (string * string))) (g : gateway) : gateway :=
  {| threads := threads g; stream := st; told := told g |}.

(** The queue's thread winds the stream down while [main] is anywhere. *)
Lemma stream_onward s st' :
  minv s → serving s = true → ¬ publishing (gw s) → StreamEnd.winds_down (stream (gw s)) st' →
  onward s (with_gw (with_stream st' (gw s)) s).
Proof.
  intros Hi Hsv Hnp (chs & Hrun & Hf). revert s Hi Hsv Hnp Hrun.
  induction Hf as [|ch chs He _ IH]; intros s Hi Hsv Hnp; cbn [StreamConc.run_schedule].
  - intros [= <-]. replace (with_gw (with_stream (stream (gw s)) (gw s)) s) with s
      by (by destruct s as [[]]). by apply onward_refl.
  - intros ([l1 s1] & Hs & ([l2 s2] & Hrun & [= Hl <-])%bind_Some)%bind_Some.
    apply app_nil in Hl as [-> ->].
    assert (Hacc : StreamShutdown.accepts ch = false) by by destruct ch.
    assert (Hst : gstep (gw s) (InStream ch) (stream_observed (gw s) ch s1)
      (with_stream s1 (gw s))) by by apply g_stream.
    assert (Ho : onward s (with_gw (with_stream s1 (gw s)) s)).
    { eapply onward_step; [done| |exact Hst]. intros _. rewrite Hacc. by rewrite andb_false_r. }
    eapply onward_trans; [exact Ho|]. apply (IH (with_gw (with_stream s1 (gw s)) s)); [apply Ho|done| |done].
    assert (Hp : publisher (StreamConc.cw s1) = publisher (StreamConc.cw (stream (gw s)))).
    { apply (StreamEnd.winds_down_publisher _ _ (mi_stream _ Hi)).
      eapply StreamEnd.winds_cons; [exact Hs|done|apply StreamEnd.winds_nil]. }
    intros Hpub. apply Hnp. unfold publishing, unpublished, publications in *. cbn in Hpub.
    by rewrite Hp in Hpub.
Qed.

(** Nobody publishes, and no connection is under way. *)
Record calm (g : gateway) : Prop := {
  ca_pubs : MqttConc.pubs (threads g) = ∅;
  ca_notes : unpublished g = [];
  ca_queue : StreamConc.cq (stream g) = StreamConc.CqIdle
}.

Lemma calms_down s : sound s → ∃ s', onward s s' ∧ sound s' ∧ calm (gw s').
Proof.
  intros Hs. destruct (publishers_return s (so_main _ Hs)) as (s1 & Ho1 & Hst1 & Hu1 & Hp1).
  assert (Hs1 : sound s1) by (apply (onward_sound s); [done..|rewrite Hst1; apply Hs]).
  destruct (decide (StreamConc.cq (stream (gw s1)) = StreamConc.CqIdle)) as [Hq|Hq].
  { exists s1. split_and!; [done..|by split]. }
  assert (Hsv : serving s1 = true).
  { destruct (serving s1) eqn:E; [done|]. by destruct (mi_down _ (so_main _ Hs1) (or_introl E)). }
  destruct (StreamEnd.connection_ends _ (so_stream _ Hs1)) as (st & Hw & Hg & Hq' & _).
  pose proof (stream_onward s1 st (so_main _ Hs1) Hsv (quiet_publishers _ Hu1 Hp1) Hw) as Ho2.
  exists (with_gw (with_stream st (gw s1)) s1). split_and!.
  - by eapply onward_trans.
  - by eapply onward_sound.
  - split; [done| |done]. unfold unpublished, publications in *. cbn.
    by rewrite (StreamEnd.winds_down_publisher _ _ (mi_stream _ (so_main _ Hs1)) Hw).
Qed.

(** ** The pushes *)

(** A statement of the io thread in [push_command]. *)
Lemma push_onward s ch st' :
  sound s → io_choice ch = true → StreamConc.schedule (stream (gw s)) ch = Some ([], st') →
  StreamEnd.good st' →
  onward s (with_gw (with_stream st' (gw s)) s) ∧ sound (with_gw (with_stream st' (gw s)) s) ∧
  (calm (gw s) → StreamConc.cq st' = StreamConc.CqIdle → calm (with_stream st' (gw s))).
Proof.
  intros Hs Hio Hsch Hg.
  assert (Hst : gstep (gw s) (InStream ch) (stream_observed (gw s) ch st')
    (with_stream st' (gw s))) by (apply g_stream; [congruence|done]).
  assert (Ho : onward s (with_gw (with_stream st' (gw s)) s)).
  { eapply onward_step; [apply Hs| |exact Hst]. cbn. congruence. }
  split_and!; [done|by eapply onward_sound|]. intros [Hp Hn Hq] Hq'. split; [done| |done].
  destruct (gstep_stream _ _ _ _ (mi_stream _ (so_main _ Hs)) Hst) as [_ Hpub].
  unfold unpublished in *. cbn [told with_stream]. change (told (with_stream st' (gw s))) with (told (gw s)).
  by rewrite (Hpub Hio).
Qed.

(** The push under way returns. *)
Lemma push_goes_on s :
  sound s → calm (gw s) →
  ∃ s', onward s s' ∧ sound s' ∧ calm (gw s') ∧ threads (gw s') = threads (gw s) ∧
    StreamConc.io (stream (gw s')) = StreamConc.IoIdle.
Proof.
  intros Hs Hc. destruct (StreamConc.io (stream (gw s))) as [|c a] eqn:Hio.
  { exists s. split_and!; [apply onward_refl, Hs|done..]. }
  destruct (StreamEnd.push_ends _ c a (so_stream _ Hs) (ca_queue _ Hc) Hio) as (ch & w' & Hch & Hsch & Hg).
  destruct (push_onward s ch _ Hs ltac:(by destruct Hch as [-> | ->]) Hsch Hg) as (Ho & Hs' & Hc').
  eexists. split_and!; [exact Ho|exact Hs'|by apply Hc'|done|done].
Qed.

Lemma set_todo_same l (t : MqttConc.config user) :
  (MqttClient.user (MqttConc.mq t)).2 = l → set_todo l t = t.
Proof.
  intros <-. unfold set_todo. rewrite <- surjective_pairing. by destruct t as [[] ? ? ? ?].
Qed.

(** The next push begins. *)
Lemma push_begins s c cs :
  sound s → calm (gw s) → todo (gw s) = c :: cs → StreamConc.io (stream (gw s)) = StreamConc.IoIdle →
  ∃ s', onward s s' ∧ sound s' ∧ calm (gw s') ∧ threads (gw s') = set_todo cs (threads (gw s)).
Proof.
  intros Hs Hc Ht Hio. destruct (StreamEnd.load_good _ c (so_stream _ Hs) Hio) as [Hsch Hg].
  eexists (with_gw {| threads := set_todo cs (threads (gw s)); stream := _; told := told (gw s) |} s).
  match type of Hg with StreamEnd.good ?st =>
    assert (Hst : gstep (gw s) Push []
      {| threads := set_todo cs (threads (gw s)); stream := st; told := told (gw s) |})
      by by apply (g_push _ c cs)
  end.
  pose proof (onward_step s Push _ _ (so_main _ Hs) Logic.I Hst) as Ho.
  split_and!; [exact Ho|by eapply onward_sound| |done]. destruct Hc as [Hp Hn Hq]. by split.
Qed.

Lemma pushes_return l : ∀ s,
  todo (gw s) = l → sound s → calm (gw s) →
  ∃ s', onward s s' ∧ sound s' ∧ calm (gw s') ∧ threads (gw s') = set_todo [] (threads (gw s)) ∧
    ¬ pushing (gw s').
Proof.
  induction l as [|c cs IH]; intros s Hl Hs Hc;
    destruct (push_goes_on s Hs Hc) as (s1 & Ho1 & Hs1 & Hc1 & Ht1 & Hio1);
    assert (Htodo : todo (gw s1) = todo (gw s)) by (unfold todo; by rewrite Ht1).
  - exists s1. split_and!; [done..|by rewrite Ht1, set_todo_same|].
    intros [?|?]; congruence.
  - destruct (push_begins s1 c cs Hs1 Hc1 ltac:(congruence) Hio1) as (s2 & Ho2 & Hs2 & Hc2 & Ht2).
    destruct (IH s2) as (s3 & Ho3 & Hs3 & Hc3 & Ht3 & Hp3); [by unfold todo; rewrite Ht2|done..|].
    exists s3. split_and!; [|done..| |done].
    + eapply onward_trans; [exact Ho1|]. by eapply onward_trans.
    + by rewrite Ht3, Ht2, Ht1.
Qed.

(** ** The owner *)

(** A step of the client's threads that publishes nothing. *)
Lemma thread_onward s a t' :
  sound s → calm (gw s) → MqttConc.works a = true → is_pub a = false →
  (MqttConc.io_action a = true → ¬ pushing (gw s)) →
  MqttConc.enabled (threads (gw s)) a → MqttConc.run_action a (threads (gw s)) = (Ret tt, t') →
  ∃ s', onward s s' ∧ sound s' ∧ calm (gw s') ∧ threads (gw s') = t'.
Proof.
  intros Hs [Hp Hn Hq] Hw Ha Hfree He Hrun.
  exists (with_gw {| threads := t'; stream := stream (gw s); told := told (gw s) |} s).
  assert (Hst : gstep (gw s) (Thread a) (observed (threads (gw s)) a)
    {| threads := t'; stream := stream (gw s); told := told (gw s) |}).
  { apply g_thread; [split; [done|by destruct a]|done..]. }
  assert (Ho : onward s (with_gw {| threads := t'; stream := stream (gw s); told := told (gw s) |} s)).
  { eapply onward_step; [apply Hs| |exact Hst]. by destruct a. }
  split_and!; [done|by apply (onward_sound s); [..|apply Hs]| |done]. split; [|done..].
  cbn. by destruct (others_published a _ _ Ha Hrun) as ([= -> _] & _).
Qed.

(** Before [stop] has closed the flags no statement of the owner waits. *)
Lemma owner_next (t t' : MqttConc.config user) :
  MqttConc.inv noting t → owner_left (MqttConc.owner t) ≠ 0 → MqttConc.owner_step t = (Ret tt, t') →
  owner_left (MqttConc.owner t') < owner_left (MqttConc.owner t).
Proof.
  intros Hi Hne Hrun. unfold MqttConc.owner_step in Hrun. rewrite bind_unfold in Hrun. cbn [get] in Hrun.
  destruct (MqttConc.owner t) eqn:Ho; try done;
    try (apply then_owner_at in Hrun; rewrite Hrun; cbn;
      repeat match goal with |- context [if ?b then _ else _] => destruct b end; cbn; lia).
Qed.

Lemma owner_free (t : MqttConc.config user) :
  MqttConc.inv noting t → owner_left (MqttConc.owner t) ≠ 0 → MqttConc.owner_ready t.
Proof.
  intros Hi Hne. pose proof (MqttConc.i_shape _ _ Hi) as Hsh. unfold MqttConc.shape in Hsh.
  unfold MqttConc.owner_ready. destruct (MqttConc.owner t); try done.
  destruct Hsh as [[_ Hio] _]. by intros _.
Qed.

(** So a call that does not wait for the io thread returns. *)
Lemma owner_goes_on n : ∀ s,
  owner_left (MqttConc.owner (threads (gw s))) = n → sound s → calm (gw s) →
  ∃ s', onward s s' ∧ sound s' ∧ calm (gw s') ∧ owner_left (MqttConc.owner (threads (gw s'))) = 0.
Proof.
  induction n as [n IH] using lt_wf_ind. intros s Hn Hs Hc.
  destruct (decide (n = 0)) as [->|Hne].
  { exists s. split_and!; [apply onward_refl, Hs|done..]. }
  pose proof (mi_client _ (so_main _ Hs)) as Hi.
  pose proof (owner_free _ Hi ltac:(congruence)) as Hr.
  destruct (MqttConc.owner_ok noting _ Hi Hr (owner_disciplined s (so_main _ Hs))) as (t' & Hrun & _).
  pose proof (owner_next _ t' Hi ltac:(congruence) Hrun) as Hlt.
  destruct (thread_onward s MqttConc.OwnerStep t' Hs Hc) as (s1 & Ho1 & Hs1 & Hc1 & Ht1); [done..|].
  destruct (IH (owner_left (MqttConc.owner (threads (gw s1))))) with (s := s1)
    as (s' & Ho' & Hrest); [rewrite Ht1; lia|done..|].
  exists s'. split; [by eapply onward_trans|exact Hrest].
Qed.

(** Closing, the owner may wait for the io thread; it ends. *)
Lemma stop_goes_on n : ∀ s,
  MqttConc.cost (threads (gw s)) = n → sound s → calm (gw s) →
  MqttConc.stopping (threads (gw s)) ∨ MqttConc.finished (threads (gw s)) →
  ∃ s', onward s s' ∧ sound s' ∧ calm (gw s') ∧ MqttConc.owner (threads (gw s')) = MqttConc.OwnerIdle.
Proof.
  induction n as [n IH] using lt_wf_ind. intros s Hn Hs Hc [Hst|Hf].
  2: { exists s. split_and!; [apply onward_refl, Hs|done..|apply Hf]. }
  destruct (pushes_return _ s eq_refl Hs Hc) as (s1 & Ho1 & Hs1 & Hc1 & Ht1 & Hp1).
  assert (Hst1 : MqttConc.stopping (threads (gw s1))) by by rewrite Ht1.
  pose proof (mi_client _ (so_main _ Hs1)) as Hi.
  destruct (MqttConc.stop_progress noting _ Hi Hst1) as (a & Hw & Hcall & He & Hd).
  destruct (MqttConc.action_ok noting _ a Hi He Hd) as (t2 & Hrun & _).
  destruct (MqttConc.stop_step noting _ a t2 Hi (or_introl Hst1) He Hcall Hrun) as [Hst2 Hlt].
  rewrite Hw in Hlt.
  destruct (thread_onward s1 a t2 Hs1 Hc1) as (s2 & Ho2 & Hs2 & Hc2 & Ht2);
    [done|by destruct a|done..|].
  assert (Hlt' : MqttConc.cost (threads (gw s2)) < n) by (rewrite Ht2, <- Hn; by rewrite Ht1 in Hlt).
  destruct (IH _ Hlt' s2 eq_refl Hs2 Hc2) as (s' & Ho' & Hrest); [by rewrite Ht2|].
  exists s'. split; [|exact Hrest]. eapply onward_trans; [exact Ho1|]. by eapply onward_trans.
Qed.

(** ** Every call of [main] returns *)

Record settled (s : state) : Prop := {
  se_sound : sound s;
  se_calm : calm (gw s);
  se_owner : MqttConc.owner (threads (gw s)) = MqttConc.OwnerIdle;
  se_pushes : ¬ pushing (gw s)
}.

Lemma settles s : sound s → ∃ s', onward s s' ∧ settled s'.
Proof.
  intros Hs. destruct (calms_down s Hs) as (s1 & Ho1 & Hs1 & Hc1).
  destruct (owner_goes_on _ s1 eq_refl Hs1 Hc1) as (s2 & Ho2 & Hs2 & Hc2 & Hl2).
  assert (H3 : ∃ s3, onward s2 s3 ∧ sound s3 ∧ calm (gw s3) ∧
    MqttConc.owner (threads (gw s3)) = MqttConc.OwnerIdle).
  { destruct (decide (MqttConc.owner (threads (gw s2)) = MqttConc.OwnerIdle)) as [Hidle|Hne].
    - exists s2. split_and!; [apply onward_refl, Hs2|done..].
    - apply (stop_goes_on _ s2 eq_refl Hs2 Hc2). left. unfold MqttConc.stopping.
      by destruct (MqttConc.owner (threads (gw s2))). }
  destruct H3 as (s3 & Ho3 & Hs3 & Hc3 & Hidle).
  destruct (pushes_return _ s3 eq_refl Hs3 Hc3) as (s4 & Ho4 & Hs4 & Hc4 & Ht4 & Hp4).
  exists s4. split; [|split; [done..|by rewrite Ht4|done]].
  eapply onward_trans; [exact Ho1|]. eapply onward_trans; [exact Ho2|]. by eapply onward_trans.
Qed.

Lemma settled_returned s : settled s → returned s.
Proof. intros Hs. split; [apply Hs|]. by rewrite (ca_pubs _ (se_calm _ Hs)). Qed.

(** The queue's thread ends every call, and is told of everything that is outstanding. *)
Lemma calls_end s :
  settled s → serving s = true →
  ∃ s', onward s s' ∧ settled s' ∧ ops (StreamConc.cw (stream (gw s'))) = [] ∧
    StreamShutdown.calls_over (stream (gw s')).
Proof.
  intros Hs Hsv. pose proof (se_sound _ Hs) as Hso. pose proof (se_calm _ Hs) as Hc.
  assert (Hio : StreamConc.io (stream (gw s)) = StreamConc.IoIdle).
  { destruct (decide (StreamConc.io (stream (gw s)) = StreamConc.IoIdle)) as [?|Hn]; [done|].
    by destruct (se_pushes _ Hs); right. }
  destruct (StreamEnd.stream_ends _ (so_stream _ Hso) Hio) as (st & Hw & Hg & Hq & Hio' & Ho & Hh).
  pose proof (stream_onward s st (so_main _ Hso) Hsv
    (quiet_publishers _ (ca_notes _ Hc) (ca_pubs _ Hc)) Hw) as Hon.
  exists (with_gw (with_stream st (gw s)) s). split_and!; [done| |done|by apply StreamEnd.empty_over].
  split; [by eapply onward_sound| |apply Hs|].
  - split; [apply Hc| |done]. pose proof (ca_notes _ Hc) as Hn. unfold unpublished, publications in *. cbn.
    by rewrite (StreamEnd.winds_down_publisher _ _ (mi_stream _ (so_main _ Hso)) Hw).
  - intros [Ht|?]; [|done]. by destruct (se_pushes _ Hs); left.
Qed.

(** [main] makes its next step from [s], where all its calls have returned. *)
Definition steps_on (s : state) : Prop :=
  ∃ tr s', msteps s tr s' ∧ sound s' ∧ main_left (pc s') < main_left (pc s).

Lemma steps_on_after s s1 : onward s s1 → steps_on s1 → steps_on s.
Proof.
  intros Ho (tr & s' & Hst & Hs & Hlt). destruct (on_run _ _ Ho) as [tr1 Hst1].
  exists (tr1 ++ tr), s'. split_and!; [by eapply msteps_trans|done|]. by rewrite <- (on_pc _ _ Ho).
Qed.

(** A step of [main] itself. *)
Lemma steps_on_one s l s' :
  sound s → mstep s l s' → stream (gw s') = stream (gw s) → stops_served s' → cut s' = false →
  main_left (pc s') < main_left (pc s) → steps_on s.
Proof.
  intros Hs Hst Hg Hsv Hc Hlt. exists l, s'. split_and!; [by apply msteps_one| |done].
  split; [by eapply mstep_ok; [apply Hs|..]|rewrite Hg; apply Hs|done|done].
Qed.

(** A call of the client. *)
Lemma steps_on_call s a :
  settled s → main_calls (pc s) a →
  match a with
  | MqttConc.CallSubscribe _ | MqttConc.CallStart | MqttConc.CallStop => True
  | _ => False
  end → stops_served {| gw := gw s; pc := next_pc (pc s); zenoh := zenoh s; serving := serving s; cut := cut s |} →
  main_left (next_pc (pc s)) < main_left (pc s) → steps_on s.
Proof.
  intros Hs Hc Ha Hsv Hlt. destruct (MqttConc.run_action a (threads (gw s))) as [r t'] eqn:Hrun.
  assert (Hr : r = Ret tt) by (destruct a; try done; by injection Hrun). subst r.
  apply (steps_on_one s (observed (threads (gw s)) a)
    {| gw := {| threads := t'; stream := stream (gw s); told := told (gw s) |};
       pc := next_pc (pc s); zenoh := zenoh s; serving := serving s; cut := cut s |});
    [apply Hs| |done|done|apply Hs|done].
  apply (m_call s a); [by apply settled_returned|done|]. apply g_thread; [split| |exact Hrun].
  - by destruct a.
  - by destruct a.
  - by destruct a; try done; apply Hs.
Qed.

(** A statement of [main] other than a call of the client. *)
Lemma steps_on_plain s z sv c p :
  settled s → mstep s [] {| gw := gw s; pc := p; zenoh := z; serving := sv; cut := c |} →
  c = false → stops_served {| gw := gw s; pc := p; zenoh := z; serving := sv; cut := c |} →
  main_left p < main_left (pc s) → steps_on s.
Proof. intros Hs Hst Hc Hsv Hlt. by eapply steps_on_one; [apply Hs|exact Hst|..]. Qed.

Ltac stepped Hpc := unfold stops_served; cbn; rewrite ?Hpc; cbn; try done; try lia.

Lemma main_steps_on s : settled s → pc s ≠ Exited → steps_on s.
Proof.
  intros Hs Hne. pose proof (so_served _ (se_sound _ Hs)) as Hsv. unfold stops_served in Hsv.
  pose proof (settled_returned s Hs) as Hret.
  destruct (pc s) as [[|t ts]| | | | | | | | | | |] eqn:Hpc; try done.
  - apply (steps_on_call s MqttConc.CallStart); stepped Hpc.
  - apply (steps_on_call s (MqttConc.CallSubscribe t)); stepped Hpc.
  - eapply steps_on_plain; [done|by apply m_open|apply Hs|stepped Hpc..].
  - eapply steps_on_plain; [done|by apply m_unregistered|apply Hs|stepped Hpc..].
  - eapply steps_on_plain; [done|by apply (m_serve s true)|apply Hs|stepped Hpc..].
  - destruct (serving s) eqn:E.
    + eapply steps_on_plain; [done|by apply m_signal|apply Hs|stepped Hpc..].
    + eapply steps_on_plain; [done|by apply m_unbuilt|apply Hs|stepped Hpc..].
  - destruct (calls_end s Hs Hsv) as (s1 & Ho & Hs1 & _ & Hover). eapply steps_on_after; [done|].
    pose proof (on_pc _ _ Ho) as Hpc1. pose proof (on_serving _ _ Ho) as Hsv1. rewrite Hpc in Hpc1.
    eapply steps_on_plain; [done|by apply m_server_down|apply Hs1|stepped Hpc1; congruence..].
  - eapply steps_on_plain; [done|by apply m_queue_down|apply Hs|stepped Hpc..].
  - destruct (calls_end s Hs Hsv) as (s1 & Ho & Hs1 & Hops & Hover). eapply steps_on_after; [done|].
    pose proof (on_pc _ _ Ho) as Hpc1. rewrite Hpc in Hpc1.
    eapply steps_on_plain; [done|apply m_join; [done|split_and!; [apply Hover|done|]]|apply Hs1|stepped Hpc1..].
    apply quiet_publishers; [apply (ca_notes _ (se_calm _ Hs1))|apply (ca_pubs _ (se_calm _ Hs1))].
  - eapply steps_on_plain; [done|by apply m_reset| |stepped Hpc..].
    apply orb_false_iff. split; [apply Hs|]. unfold delivering.
    by rewrite (ca_pubs _ (se_calm _ Hs)).
  - apply (steps_on_call s MqttConc.CallStop); stepped Hpc.
  - apply (steps_on_call s MqttConc.CallStop); stepped Hpc.
Qed.

Lemma exits n : ∀ s,
  main_left (pc s) = n → sound s → ∃ tr s', msteps s tr s' ∧ settled s' ∧ pc s' = Exited.
Proof.
  induction n as [n IH] using lt_wf_ind. intros s Hn Hs.
  destruct (settles s Hs) as (s1 & Ho1 & Hs1). destruct (on_run _ _ Ho1) as [tr1 Hst1].
  destruct (decide (pc s1 = Exited)) as [He|Hne]; [by exists tr1, s1|].
  destruct (main_steps_on s1 Hs1 Hne) as (tr2 & s2 & Hst2 & Hs2 & Hlt).
  destruct (IH (main_left (pc s2)) ltac:(rewrite <- Hn, <- (on_pc _ _ Ho1); exact Hlt) s2 eq_refl Hs2)
    as (tr3 & s3 & Hst3 & Hs3 & He).
  exists (tr1 ++ (tr2 ++ tr3)), s3. split_and!; [|done..]. eapply msteps_trans; [done|].
  by eapply msteps_trans.
Qed.

(** ** From the start *)

Lemma mstep_stream s l s' :
  mstep s l s' → stream (gw s') = stream (gw s) ∨
    ∃ ch l', StreamConc.schedule (stream (gw s)) ch = Some (l', stream (gw s')).
Proof.
  assert (Hg : ∀ ch l g', gstep (gw s) ch l g' → stream g' = stream (gw s) ∨
    ∃ ch l', StreamConc.schedule (stream (gw s)) ch = Some (l', stream g')).
  { intros ch l' g' [|c cs st _ _ Hs| |ch' st _ Hs]; [by left|right; eauto|by left|right; eauto]. }
  intros [a l' g' _ _ Hst| | | | | | | | | |ch l' g' _ Hst]; cbn [gw]; try (by left); by eapply Hg.
Qed.

Lemma mstep_served_pc s l s' : stops_served s → mstep s l s' → stops_served s'.
Proof.
  unfold stops_served.
  intros Hsv [a l' g' _ Hc _|Hpc|Hpc|b Hpc|Hpc|Hpc E|Hpc|Hpc|Hpc|Hpc|ch l' g' _ _]; cbn; try done;
    rewrite ?Hpc in *; cbn; try done.
  by destruct (pc s) as [[|t ts]| | | | | | | | | | |].
Qed.

(** Nothing is written while the queue's thread does not run. *)
Definition quiet_writes (s : state) : Prop :=
  serving s = false → ∀ h, OpWrite h ∉ ops (StreamConc.cw (stream (gw s))).

Lemma quiet_starts s g' :
  quiet_writes s → StreamShutdown.starts_nothing (stream (gw s)) (stream g') → serving s = false →
  ∀ h, OpWrite h ∉ ops (StreamConc.cw (stream g')).
Proof.
  intros Hq [Ho|[o Ho]] Hsv h Hin; apply (Hq Hsv h); rewrite Ho in Hin; [done|].
  by eapply elem_of_remove_one.
Qed.

Lemma mstep_quiet s l s' : minv s → quiet_writes s → mstep s l s' → quiet_writes s'.
Proof.
  intros Hi Hq [a l' g' _ _ Hst|?|?|b Hpc|?|?|?|?|Hpc He|?|ch l' g' Ho Hst]; try done;
    unfold quiet_writes; cbn [serving gw].
  - apply quiet_starts; [done|]. by inversion Hst; left.
  - intros _. apply Hq. apply not_serving; [done|]. by rewrite Hpc.
  - intros _ h Hin. destruct He as (_ & Ho & _). rewrite Ho in Hin. by apply elem_of_nil in Hin.
  - intros Hsv. eapply quiet_starts; [done| |done]. apply (gstep_down s ch l' g' (minv_sinv _ Hi) Ho Hst). by left.
Qed.

Lemma launched cfg tr s :
  msteps (launch cfg) tr s → cut s = false →
  minv s ∧ StreamEnd.live_ok (stream (gw s)) ∧ stops_served s ∧ quiet_writes s.
Proof.
  intros Hs Hc. split; [by eapply msteps_inv|].
  induction Hs as [|tr s l s' Hs IH Hst].
  - split_and!; [apply StreamEnd.init_live_ok|done|]. intros _ h Hin.
    change (OpWrite h ∈ ops (init_world (P:=list (string * string)) [])) in Hin.
    rewrite StreamSeq.init_world_eq in Hin. by apply list_elem_of_singleton in Hin.
  - pose proof (cut_stays _ _ _ Hst Hc) as Hc0. destruct (IH Hc0) as (Hl & Hsv & Hq).
    destruct (msteps_inv cfg tr s Hs Hc0) as [Hi _].
    split_and!; [|by eapply mstep_served_pc|by eapply mstep_quiet].
    destruct (mstep_stream s l s' Hst) as [->|(ch & l' & Hsch)]; [done|].
    by eapply StreamEnd.step_live; [apply Hi..| |exact Hsch].
Qed.

(** *** The two uses of a deleted handler *)

(** A use of a deleted handler that is about to happen keeps its thread for ever. *)
Lemma stuck_for_ever s tr s' h :
  msteps s tr s' → minv s → cut s' = false → StreamEnd.dead (StreamConc.cw (stream (gw s))) h →
  minv s' ∧ StreamEnd.stays_stuck h (StreamConc.cw (stream (gw s))) (StreamConc.cw (stream (gw s'))) ∧
  ∀ c, StreamConc.io (stream (gw s)) = StreamConc.IoLoaded c (Some h) →
    StreamConc.io (stream (gw s')) = StreamConc.io (stream (gw s)).
Proof.
  intros Hs Hi Hk Hd. induction Hs as [|tr s1 l s2 _ IH Hst]; [by split_and!|].
  destruct (IH (cut_stays _ _ _ Hst Hk)) as (Hi1 & [Hd1 Hw1] & Hio1). split; [by eapply mstep_ok|].
  destruct (mstep_stream s1 l s2 Hst) as [->|(ch & l' & Hsch)]; [by split|].
  destruct (StreamEnd.step_stuck _ ch l' _ h (mi_stream _ Hi1) Hd1 Hsch) as [[Hd2 Hw2] Hio2].
  split; [by split; [|intros ?; by apply Hw2, Hw1]|]. intros c Hc. rewrite (Hio2 c); [by apply (Hio1 c)|].
  by rewrite (Hio1 c Hc).
Qed.

(** When [main] has exited, no write is outstanding and the io thread pushes nothing. *)
Lemma exited_quiet cfg tr s :
  msteps (launch cfg) tr s → cut s = false → pc s = Exited → returned s →
  (∀ h, OpWrite h ∉ ops (StreamConc.cw (stream (gw s)))) ∧
  StreamConc.io (stream (gw s)) = StreamConc.IoIdle.
Proof.
  intros Hs Hc Hpc [Ho _]. destruct (launched cfg tr s Hs Hc) as (Hi & _ & _ & Hq). split.
  - apply Hq, not_serving; [done|]. by rewrite Hpc.
  - destruct (msteps_inv cfg tr s Hs Hc) as [_ Hg].
    destruct (decide (StreamConc.io (stream (gw s)) = StreamConc.IoIdle)) as [?|Hn]; [done|exfalso].
    assert (Hp : pushing (gw s)) by by right.
    apply (gsteps_mono _ disciplined) in Hg; [|by intros g ch [? _]].
    apply (gi_pushing _ _ _ (gsteps_inv cfg tr _ Hg)) in Hp.
    destruct (exited_down s Hi Hpc Ho) as [_ Hdone]. congruence.
Qed.

(** ** The theorem *)

(** C7. The two uses of a deleted handler are all that can keep [main] from its end, as long
    as the Zenoh session is not ended while a location is being published ([cut]). From
    every state of every interleaving of [main] and its threads in which it was not,
    [main] can come to return without that, the client and its context destroyed and the io
    thread joined, exactly when no outstanding write, and no push past its load of
    [active_], belongs to a handler that is deleted already. *)
Theorem main_can_exit cfg tr s (Hs : msteps (launch cfg) tr s) (Hc : cut s = false) :
  StreamEnd.intact (stream (gw s)) ↔
  ∃ tr' s', msteps s tr' s' ∧ cut s' = false ∧ pc s' = Exited ∧ returned s' ∧
    MqttConc.down (threads (gw s')).
Proof.
  destruct (launched cfg tr s Hs Hc) as (Hi & Hl & Hsv & _). split.
  - intros Hint. assert (Hso : sound s) by (split; [done|split; [apply Hi..|done|done]|done|done]).
    destruct (exits _ s eq_refl Hso) as (tr' & s' & Hst & Hs' & Hpc).
    exists tr', s'. split_and!; [done|apply Hs'|done|by apply settled_returned|].
    by apply exited_down; [apply Hs'|..|apply Hs'].
  - intros (tr' & s' & Hst & Hc' & Hpc & Hret & _).
    destruct (exited_quiet cfg _ s' (msteps_trans _ _ _ _ _ Hs Hst) Hc' Hpc Hret) as [Hw Hio].
    split; intros *.
    + intros Hin. destruct (heap (StreamConc.cw (stream (gw s))) !! h) eqn:Hx; [done|].
      assert (Hd : StreamEnd.dead (StreamConc.cw (stream (gw s))) h).
      { split; [|done]. apply (StreamConc.wo_ops _ (StreamReports.ro_writes _ (mi_stream _ Hi)) (OpWrite h) Hin). }
      destruct (stuck_for_ever s tr' s' h Hst Hi Hc' Hd) as (_ & [_ Hkeep] & _). by destruct (Hw h); apply Hkeep.
    + intros Hload. destruct (heap (StreamConc.cw (stream (gw s))) !! h) eqn:Hx; [done|].
      assert (Hd : StreamEnd.dead (StreamConc.cw (stream (gw s))) h).
      { split; [|done]. apply (StreamReports.co_active _ (mi_calls _ Hi)). right. by exists c. }
      destruct (stuck_for_ever s tr' s' h Hst Hi Hc' Hd) as (_ & _ & Hkeep).
      rewrite (Hkeep c Hload), Hload in Hio. done.
Qed.

End exit.

(** ** Witness *)

(** [main] up to its wait; a vehicle is connected and a cancellation received, whose push
    has found the connection. *)
Definition busy_run : list turn :=
  concat ((λ t, Call (MqttConc.CallSubscribe t) :: owner_turns 2) <$> Gateway.subscribed_topics) ++
  Call MqttConc.CallStart :: owner_turns 9 ++
  [Plain true; Plain true; Plain true; in_stream (StreamConc.ChConnect 0);
   in_stream StreamConc.ChLock; in_stream StreamConc.ChUnlock;
   in_thread (MqttConc.Received kTopicTripCancel Gateway.cancel_text)] ++
  replicate 10 (in_thread MqttConc.IoStep) ++ [Other Push].

(** The vehicle disconnects before the push goes on. *)
Definition stuck_run : list turn :=
  busy_run ++ [in_stream (StreamConc.ChComplete (OpRead 0) false EvNotSet);
               in_stream (StreamConc.ChComplete (OpFinish 0) true EvNotSet)].

(** What tells the two states apart. *)
Definition push_at (s : state) : StreamConc.io_pc * bool * list op :=
  let st := stream (gw s) in
  (StreamConc.io st, bool_decide (is_Some (heap (StreamConc.cw st) !! 0)), ops (StreamConc.cw st)).

Lemma main_can_exit_witness :
  (∃ tr s tr' s', msteps (launch Config.default_config) tr s ∧ pc s = WaitGrpc ∧
     msteps s tr' s' ∧ pc s' = Exited ∧ MqttConc.down (threads (gw s'))) ∧
  ∃ tr s, msteps (launch Config.default_config) tr s ∧
     ¬ ∃ tr' s', msteps s tr' s' ∧ cut s' = false ∧ pc s' = Exited ∧ returned s' ∧ MqttConc.down (threads (gw s')).
Proof.
  split.
  - destruct (turns_reach (λ tr s, (pc s, push_at s, cut s)) busy_run (launch Config.default_config)
      (WaitGrpc, (StreamConc.IoLoaded cancellation (Some 0), true, [OpRequest 1; OpRead 0]), false))
      as (tr & s & Hs & [= Hpc Hio Hx Ho Hk]); [vm_compute; reflexivity|].
    apply bool_decide_eq_true in Hx.
    destruct (proj1 (main_can_exit Config.default_config tr s Hs Hk)) as (tr' & s' & Hst & _ & He & _ & Hd).
    { split.
      - intros h Hin. rewrite Ho in Hin. clear -Hin. exfalso.
        apply elem_of_cons in Hin as [?|[?|?%elem_of_nil]%elem_of_cons]; done.
      - intros c h Hc. rewrite Hio in Hc. injection Hc as _ <-. exact Hx. }
    exists tr, s, tr', s'. split_and!; [exact Hs|exact Hpc|exact Hst|exact He|exact Hd].
  - destruct (turns_reach (λ tr s, (push_at s, cut s)) stuck_run (launch Config.default_config)
      (StreamConc.IoLoaded cancellation (Some 0), false, [OpRequest 1], false))
      as (tr & s & Hs & [= Hio Hx _ Hc]); [vm_compute; reflexivity|].
    apply bool_decide_eq_false in Hx. exists tr, s. split; [exact Hs|]. intros Hexit.
    apply (main_can_exit Config.default_config tr s Hs Hc) in Hexit. apply Hx.
    apply (StreamEnd.in_push _ Hexit cancellation 0). exact Hio.
Defined.

End MainExit.
