(* ===== verification/MainJoin.v ===== *)
(** * The join of the completion queue's thread returns *)

(** [MainExit] says that [main] can return. For its wait in [cq_thread_.join()]
    ([src/services/grpc_server.cc]) more is true: once [cq_->Shutdown()] was called the
    queue's thread has a bounded number of steps left, whatever the io thread, Zenoh's
    thread and the broker do, and until its loop has ended it can make one. So the join
    returns under every scheduler that lets that thread run. *)

From S2P Require Import Prelude Double Json JsonModel Messages Stream StreamSeq StreamConc.
From S2P Require Import StreamReports Shutdown StreamShutdown StreamEnd Config.
From S2P Require Import MqttClient MqttConc Gateway GatewayConc GatewayReports MainConc MainExit.

Module MainJoin.
Import VehicleStreamHandler GatewayConc GatewayReports MainConc MainExit.
#[local] Existing Instances StreamConc.io_pc_eq_dec StreamConc.cq_pc_eq_dec.

(** The steps of the queue's thread. *)
Definition queue_choice (ch : choice) : bool :=
  match ch with
  | InStream ch => negb (io_choice ch)
  | Publish => true
  | Thread (MqttConc.PubStep i) => bool_decide (i = queue_thread)
  | _ => false
  end.

Section join.
Context `{JL : JsonLib}.

(** The steps it has left: a report for every operation outstanding, and four for every
    publication it was asked for. *)
Definition publish_left (t : MqttConc.config user) : nat :=
  match MqttConc.pubs t !! queue_thread with Some p => pub_left p | None => 0 end.
Definition queue_left (g : gateway) : nat :=
  length (ops (StreamConc.cw (stream g))) + 4 * length (unpublished g) + publish_left (threads g).

(** The executions of the other threads while [main] waits, with the number of steps of
    the queue's thread in them. *)
Inductive joins (s : state) : nat → state → Prop :=
| joins_nil : joins s 0 s
| joins_snoc n s' ch l g' :
    joins s n s' → others s' ch → gstep (gw s') ch l g' →
    joins s (n + Nat.b2n (queue_choice ch)) (with_gw g' s').

Lemma remove_one_length `{EqDecision A} (x : A) l : length (remove_one x l) ≤ length l.
Proof. induction l as [|y l IH]; [done|]. cbn. case_decide; cbn; lia. Qed.

Lemma remove_one_shorter `{EqDecision A} (x : A) l : x ∈ l → S (length (remove_one x l)) = length l.
Proof. intros Hin. by rewrite (remove_one_perm x l Hin) at 2. Qed.

Lemma starts_nothing_length (st st' : StreamConc.config (list (string * string))) :
  StreamShutdown.starts_nothing st st' →
  length (ops (StreamConc.cw st')) ≤ length (ops (StreamConc.cw st)).
Proof. intros [->|[o ->]]; [done|apply remove_one_length]. Qed.

(** An action of the client's threads. *)
Lemma publish_left_step a (t t' : MqttConc.config user) :
  MqttConc.enabled t a → (∀ topic p, a ≠ MqttConc.CallPublish queue_thread topic p) →
  MqttConc.run_action a t = (Ret tt, t') →
  Nat.b2n (queue_choice (Thread a)) + publish_left t' ≤ publish_left t.
Proof.
  intros He Hne Hrun. unfold publish_left. destruct (is_pub a) eqn:Ha.
  2: { destruct (others_published a _ _ Ha Hrun) as ([= -> _] & _). by destruct a. }
  destruct a as [| | | | | | | | |i topic p|i]; try done; cbn [MqttConc.run_action] in Hrun.
  - injection Hrun as <-. cbn. rewrite lookup_insert_ne; [done|]. by intros ->; destruct (Hne topic p).
  - cbn. case_bool_decide as Hi.
    + subst i. destruct He as [p Hp]. rewrite Hp.
      destruct (pub_next queue_thread t t' p Hp Hrun) as [->|(p' & -> & Hlt)]; [by destruct p; cbn; lia|cbn; lia].
    + by rewrite (MqttConc.pub_others queue_thread i t t').
Qed.

(** Once the calls are over a report is that of a request nobody answers. *)
Lemma refusal (st st' : StreamConc.config (list (string * string))) ch l :
  StreamReports.reads_ok st → StreamReports.calls_ok st → StreamShutdown.calls_over st →
  io_choice ch = false → StreamShutdown.accepts ch = false →
  StreamConc.schedule st ch = Some (l, st') →
  S (length (ops (StreamConc.cw st'))) = length (ops (StreamConc.cw st)) ∧
  publisher (StreamConc.cw st') = publisher (StreamConc.cw st).
Proof.
  intros Hr Hc Hover Hio Hacc Hsch. pose proof Hover as [Hq Hno].
  pose proof (StreamReports.step_reads _ _ _ _ Hr Hsch) as [_ Hpub].
  destruct ch as [o ok ev|h| | | |c| |]; try done; cbn [StreamConc.schedule] in Hsch;
    rewrite ?Hq in Hsch; try done.
  destruct (decide _) as [(_ & Hin & Hco)|]; [|done].
  apply bind_Some in Hsch as (w' & Hrun%StreamConc.ran_some & [= <- <-]).
  pose proof (StreamReports.complete_effect _ _ _ _ _ (StreamReports.ro_ops _ Hr) Hin Hco Hrun) as Heff.
  destruct (StreamShutdown.refused_after_calls st o ok ev w' Hr Hc Hover Hin Heff) as [Hops _].
  { by intros h [= -> ->]. }
  split; [cbn; rewrite Hops; by apply remove_one_shorter|].
  cbn [StreamReports.choice_reads] in Hpub. destruct o as [h|h|h|h]; cbn [StreamReports.reads] in Hpub; try done.
  destruct (StreamReports.reported_state _ _ (StreamReports.ro_ops _ Hr) Hin eq_refl) as ((x & Hx & He) & _).
  cbn in Hx, He. by rewrite (Hno h x Hx) in He.
Qed.

(** Every step of the queue's thread brings the end of its loop nearer, and no other step
    takes it away. *)
Lemma queue_left_step s ch l g' :
  minv s → server_is_down (pc s) = true → others s ch → gstep (gw s) ch l g' →
  Nat.b2n (queue_choice ch) + queue_left g' ≤ queue_left (gw s).
Proof.
  intros Hi Hdown Ho Hst. pose proof (mi_down _ Hi (or_intror Hdown)) as Hover.
  pose proof (gstep_down s ch l g' (minv_sinv _ Hi) Ho Hst (or_intror Hdown)) as [_ Hnone%starts_nothing_length].
  pose proof (gstep_stream _ _ _ _ (mi_stream _ Hi) Hst) as [_ Hpub]. unfold queue_left.
  destruct Hst as [a t' [_ Hne] He Hrun|c cs st' _ _ Hs|t p ps t' Hun He Hrun|ch st' _ Hs]; cbn [stream threads] in *.
  - pose proof (publish_left_step a _ _ He Hne Hrun) as Hleft.
    change (unpublished {| threads := t'; stream := stream (gw s); told := told (gw s) |})
      with (unpublished (gw s)). lia.
  - specialize (Hpub Logic.I). unfold unpublished in *. cbn [told queue_choice Nat.b2n]. rewrite Hpub.
    change (publish_left (set_todo cs (threads (gw s)))) with (publish_left (threads (gw s))). lia.
  - injection Hrun as <-. cbn [MqttConc.enabled] in He. unfold publish_left. rewrite He, Hun.
    assert (Hps : drop (S (told (gw s))) (publications (gw s)) = ps).
    { unfold unpublished in Hun. by rewrite <- Nat.add_1_r, <- drop_drop, Hun. }
    unfold unpublished, publications in *. cbn [told stream queue_choice Nat.b2n]. rewrite Hps.
    cbn [MqttConc.set_pubs MqttConc.pubs length]. rewrite lookup_insert_eq.
    cbn [pub_left]. lia.
  - unfold unpublished in *. cbn [told queue_choice]. destruct (io_choice ch) eqn:Hio.
    + rewrite (Hpub eq_refl). cbn. lia.
    + cbn [others] in Ho. destruct (Ho Hio) as [_ Hacc]. rewrite Hdown in Hacc.
      destruct (refusal _ _ _ _ (mi_stream _ Hi) (mi_calls _ Hi) Hover Hio Hacc Hs) as [Hlen Hp].
      unfold publications. cbn [stream]. rewrite Hp. cbn. lia.
Qed.

(** No write is outstanding, so every report is of a live handler. *)
Definition no_write (st : StreamConc.config (list (string * string))) : Prop :=
  ∀ h, OpWrite h ∉ ops (StreamConc.cw st).

Lemma starts_no_write st st' : StreamShutdown.starts_nothing st st' → no_write st → no_write st'.
Proof.
  intros Hst Hn h Hin. apply (Hn h). destruct Hst as [Ho|[o Ho]]; rewrite Ho in Hin; [done|].
  by eapply elem_of_remove_one.
Qed.

(** A write left when the calls are over would be that of a deleted handler. *)
Lemma over_no_write st :
  StreamReports.reads_ok st → StreamReports.calls_ok st → StreamShutdown.calls_over st →
  StreamEnd.intact st → no_write st.
Proof.
  intros Hr Hc [Hq Hno] Hi h Hin. destruct (StreamEnd.in_writes _ Hi h Hin) as [x Hx].
  pose proof (occ_pos _ _ Hin) as Hpos.
  rewrite (StreamConc.wo_live _ (StreamReports.ro_writes _ Hr) _ _ Hx) in Hpos.
  rewrite (StreamReports.co_waiting _ Hc h x Hx (Hno h x Hx)) in Hpos; [cbn in Hpos; lia|].
  unfold StreamReports.connecting. rewrite Hq. by intros [?|?].
Qed.

Lemma joins_keep s n s' :
  minv s → stops_served s → pc s = JoinQueue → joins s n s' →
  minv s' ∧ stops_served s' ∧ pc s' = JoinQueue ∧ n + queue_left (gw s') ≤ queue_left (gw s) ∧
  (no_write (stream (gw s)) → no_write (stream (gw s'))).
Proof.
  intros Hi Hsv Hpc. induction 1 as [|n s1 ch l g' _ (Hi1 & Hsv1 & Hpc1 & Hle & Hnw) Ho Hst]; [done|].
  assert (Hdown : server_is_down (pc s1) = true) by by rewrite Hpc1.
  pose proof (queue_left_step s1 ch l g' Hi1 Hdown Ho Hst) as Hstep.
  destruct (gstep_down s1 ch l g' (minv_sinv _ Hi1) Ho Hst (or_intror Hdown)) as [_ Hnone].
  split_and!; [by eapply others_ok|done|done|cbn; lia|].
  intros Hnw0. by apply (starts_no_write _ _ Hnone), Hnw.
Qed.

(** The queue's thread can go on as long as its loop has not ended. *)
Lemma queue_goes_on s :
  minv s → stops_served s → pc s = JoinQueue → no_write (stream (gw s)) →
  queue_ended (gw s) ∨ ∃ ch l g', queue_choice ch = true ∧ others s ch ∧ gstep (gw s) ch l g'.
Proof.
  intros Hi Hsv Hpc Hnw. unfold stops_served in Hsv. rewrite Hpc in Hsv.
  destruct (mi_down _ Hi) as [Hq _]; [right; by rewrite Hpc|].
  destruct (MqttConc.pubs (threads (gw s)) !! queue_thread) as [p|] eqn:Hp.
  { right. destruct (MqttConc.pub_ok noting _ queue_thread (mi_client _ Hi)) as (t' & Hrun & _);
      [by rewrite Hp|].
    exists (Thread (MqttConc.PubStep queue_thread)). do 2 eexists. split_and!; [done..|].
    apply g_thread; [by split|cbn; by rewrite Hp|exact Hrun]. }
  destruct (unpublished (gw s)) as [|[topic pl] l] eqn:Hun.
  2: { right. exists Publish. do 2 eexists. split_and!; [done..|]. by eapply (g_publish _ topic pl l). }
  assert (Hnp : ¬ publishing (gw s)) by (intros [?|Hs]; [done|rewrite Hp in Hs; by destruct Hs]).
  destruct (ops (StreamConc.cw (stream (gw s)))) as [|o os] eqn:Ho; [by left|right].
  assert (Hin : o ∈ ops (StreamConc.cw (stream (gw s)))) by (rewrite Ho; apply elem_of_cons; by left).
  assert (Hw : StreamSeq.is_write o = false) by (destruct o as [| | |h]; [done..|by destruct (Hnw h)]).
  destruct (StreamEnd.report_fails _ o (StreamReports.ro_ops _ (mi_stream _ Hi)) Hin Hw) as (w' & Hrun & _).
  exists (InStream (StreamConc.ChComplete o false EvNotSet)). do 2 eexists. split_and!; [done| |].
  - intros _. by rewrite andb_false_r.
  - apply g_stream; [done|]. by apply StreamEnd.fail_step.
Qed.

(** C14. The join of the completion queue's thread returns. While [main] waits in it, the
    steps of that thread are bounded by what was outstanding when [cq_->Shutdown()] was
    called and what it still had to publish, whatever all other threads do in between; and
    until its loop has ended it always can take one, unless the report of a write of a
    deleted handler was left. *)
Theorem join_returns_fairly cfg tr s n s'
  (Hs : msteps (launch cfg) tr s) (Hpc : pc s = JoinQueue) (Hj : joins s n s') :
  n + queue_left (gw s') ≤ queue_left (gw s) ∧
  (StreamEnd.intact (stream (gw s)) →
   queue_ended (gw s') ∨ ∃ ch l g', queue_choice ch = true ∧ others s' ch ∧ gstep (gw s') ch l g').
Proof.
  assert (Hcut : cut s = false).
  { destruct (cut s) eqn:E; [|done]. pose proof (cut_late cfg tr s Hs E) as Hl. by rewrite Hpc in Hl. }
  destruct (launched cfg tr s Hs Hcut) as (Hi & _ & Hsv & _).
  destruct (joins_keep s n s' Hi Hsv Hpc Hj) as (Hi' & Hsv' & Hpc' & Hle & Hnw). split; [done|].
  intros Hint. apply queue_goes_on; [done..|]. apply Hnw.
  apply over_no_write; [apply Hi..| |done]. apply Hi. right. by rewrite Hpc.
Qed.

End join.

(** ** Witness *)

(** While [main] waits in the join a location is still published, and the request nobody
    answers is reported. *)
Lemma join_returns_fairly_witness :
  ∃ tr s s', msteps (launch Config.default_config) tr s ∧ pc s = JoinQueue ∧ joins s 1 s' ∧
    1 + queue_left (gw s') ≤ queue_left (gw s) ∧ queue_left (gw s) = 1.
Proof.
  set (location := Thread (MqttConc.CallPublish zenoh_thread kTopicStreamLocation "{}")).
  set (refusal := InStream (StreamConc.ChComplete (OpRequest 1) false EvNotSet)).
  destruct (turns_reach
    (λ tr s, (pc s, queue_left (gw s),
      match schedule (gw s) location with
      | Some (_, g1) => bool_decide (others s location) && bool_decide (others (with_gw g1 s) refusal) &&
          match schedule g1 refusal with Some _ => true | None => false end
      | None => false
      end))
    (take 46 whole_run) (launch Config.default_config) (JoinQueue, 1, true))
    as (tr & s & Hs & [[Hpc Hleft]%pair_equal_spec Hok]%pair_equal_spec); [vm_compute; reflexivity|].
  destruct (schedule (gw s) location) as [[l1 g1]|] eqn:H1; [|discriminate].
  destruct (schedule g1 refusal) as [[l2 g2]|] eqn:H2; [|rewrite andb_false_r in Hok; discriminate].
  rewrite andb_true_r in Hok. apply andb_true_iff in Hok as [Ho1%bool_decide_eq_true Ho2%bool_decide_eq_true].
  assert (Hj : joins s 1 (with_gw g2 (with_gw g1 s))).
  { apply (joins_snoc s 0 (with_gw g1 s) refusal l2 g2); [|exact Ho2|exact (gateway_schedule_sound _ _ _ _ H2)].
    apply (joins_snoc s 0 s location l1 g1); [apply joins_nil|exact Ho1|].
    exact (gateway_schedule_sound _ _ _ _ H1). }
  exists tr, s, (with_gw g2 (with_gw g1 s)). split; [exact Hs|]. split; [exact Hpc|]. split; [exact Hj|].
  split; [|exact Hleft].
  apply (proj1 (join_returns_fairly Config.default_config tr s 1 _ Hs Hpc Hj)).
Defined.

End MainJoin.
