(* ===== verification/Main.v ===== *)
(** * The gateway as a whole *)

(** [main] ([src/main.cpp]) as one transition system: the thread of [main], statement
    by statement; the io thread of the MQTT client; the thread of the completion
    queue; the callback of the Zenoh subscriber; the signal handler. The components
    are those of the other files, wired as [main] wires them: the message handler of
    the MQTT client decodes commands and pushes them to the stream, and the stream
    publishes by the MQTT client.

    The closure given to the MQTT client captures the orchestrator and uses the static
    members of the stream, which live in the server's state; this is the [user] of the
    client. The stream needs the client as its publisher: its operations run on the
    stream of the server with the client put in ([StreamErase.with_publisher]), and
    both are taken apart again afterwards.

    What Zenoh and gRPC answer are parameters: whether the session opens on a
    configuration, and whether [BuildAndStart] succeeds on an address. *)

From S2P Require Import Prelude Double Json JsonModel Messages Router Orchestrator.
From S2P Require Import Stream StreamSeq StreamDelivery StreamErase Rpc GrpcServer Shutdown.
From S2P Require Import Config HttpClient Auth MqttClient Gateway.

Module Main.
Import VehicleStreamHandler StreamErase.
#[local] Existing Instance MqttClient.mqtt_publisher.

(** ** The statements of [main] *)

(** Where [GrpcServer::stop] is: at each of its three [if]s, or in [join]. *)
Inductive stop_pc : Type := AtServer | AtQueue | AtJoin | Joining.

#[export] Instance stop_pc_eq_dec : EqDecision stop_pc.
Proof. solve_decision. Defined.

(** What [main] does next. [Destroy] is the destructor of the server, [DestroyMqtt]
    that of the client; the other destructors do nothing. *)
Inductive main_pc : Type :=
| SetCallbacks | SetHandler | SubscribeTopics | StartMqtt | OpenZenoh | DeclareSubscriber
| AuthSetup | CreateVehicle | VehicleLogin | SetPointer | InstallHandlers | StartGrpc
| WaitGrpc | ResetZenoh | StopMqtt | JoinMqtt | Destroy (p : stop_pc) | DestroyMqtt | Exited.

#[export] Instance main_pc_eq_dec : EqDecision main_pc.
Proof. solve_decision. Defined.

(** [zconfig.insert_json5], three times. *)
Definition zenoh_config (cfg : Config.Config) : list (string * string) :=
  let quote := String Config.double_quote EmptyString in
  [("scouting/multicast/enabled", "false");
   ("transport/shared_memory/enabled", "false");
   ("connect/endpoints", ("[" ++ quote ++ Config.zenoh_connect cfg ++ quote ++ "]")%string)].

(** What the message handler's closure reaches. *)
Abbreviation user :=
  (TripOrchestrator.TripOrchestrator (world unit) * GrpcServer.GrpcServer unit)%type.
Abbreviation client := (MqttClient.MqttClient user).

Section gateway.
Context `{JL : JsonLib} {N : Type} `{HP : HttpClient.HttpPost N}.
Variables (cfg : Config.Config) (zenoh_opens : list (string * string) → bool)
  (builds : string → bool).

(** The objects of [main] and the globals: [zenoh] is whether the subscriber is
    declared on an open session, [handling] whether the handlers are installed,
    [signal] where the handler's call of [stop] is. *)
Record gateway : Type := {
  mqtt : client;
  auth : AuthService.world N;
  zenoh : bool;
  g_grpc_ptr : bool;
  handling : bool;
  g_shutdown : bool;
  pc : main_pc;
  signal : option stop_pc
}.

Definition set_mqtt (m : client) (g : gateway) : gateway :=
  {| mqtt := m; auth := auth g; zenoh := zenoh g; g_grpc_ptr := g_grpc_ptr g;
     handling := handling g; g_shutdown := g_shutdown g; pc := pc g; signal := signal g |}.
Definition set_startup (s : AuthService.world N * client) (g : gateway) : gateway :=
  {| mqtt := s.2; auth := s.1; zenoh := zenoh g; g_grpc_ptr := g_grpc_ptr g;
     handling := handling g; g_shutdown := g_shutdown g; pc := pc g; signal := signal g |}.
Definition set_zenoh (b : bool) (g : gateway) : gateway :=
  {| mqtt := mqtt g; auth := auth g; zenoh := b; g_grpc_ptr := g_grpc_ptr g;
     handling := handling g; g_shutdown := g_shutdown g; pc := pc g; signal := signal g |}.
Definition set_pointer (g : gateway) : gateway :=
  {| mqtt := mqtt g; auth := auth g; zenoh := zenoh g; g_grpc_ptr := true;
     handling := handling g; g_shutdown := g_shutdown g; pc := pc g; signal := signal g |}.
Definition set_handling (g : gateway) : gateway :=
  {| mqtt := mqtt g; auth := auth g; zenoh := zenoh g; g_grpc_ptr := g_grpc_ptr g;
     handling := true; g_shutdown := g_shutdown g; pc := pc g; signal := signal g |}.
Definition set_shutdown (g : gateway) : gateway :=
  {| mqtt := mqtt g; auth := auth g; zenoh := zenoh g; g_grpc_ptr := g_grpc_ptr g;
     handling := handling g; g_shutdown := true; pc := pc g; signal := signal g |}.
Definition set_pc (p : main_pc) (g : gateway) : gateway :=
  {| mqtt := mqtt g; auth := auth g; zenoh := zenoh g; g_grpc_ptr := g_grpc_ptr g;
     handling := handling g; g_shutdown := g_shutdown g; pc := p; signal := signal g |}.
Definition set_signal (s : option stop_pc) (g : gateway) : gateway :=
  {| mqtt := mqtt g; auth := auth g; zenoh := zenoh g; g_grpc_ptr := g_grpc_ptr g;
     handling := handling g; g_shutdown := g_shutdown g; pc := pc g; signal := s |}.

(** The server, the orchestrator and the stream inside the client's user. *)
Definition grpc (g : gateway) : GrpcServer.GrpcServer unit := (MqttClient.user (mqtt g)).2.
Definition orchestrator (g : gateway) : TripOrchestrator.TripOrchestrator (world unit) :=
  (MqttClient.user (mqtt g)).1.
Definition stream_of (g : gateway) : world unit := GrpcServer.stream (grpc g).

Definition set_grpc (s : GrpcServer.GrpcServer unit) (g : gateway) : gateway :=
  set_mqtt (MqttClient.set_user (orchestrator g, s) (mqtt g)) g.
Definition set_orchestrator (o : TripOrchestrator.TripOrchestrator (world unit)) (g : gateway)
    : gateway :=
  set_mqtt (MqttClient.set_user (o, grpc g) (mqtt g)) g.

Definition on_mqtt {A} (m : M client A) : M gateway A := zoom mqtt set_mqtt m.
Definition on_grpc {A} (m : M (GrpcServer.GrpcServer unit) A) : M gateway A :=
  zoom grpc set_grpc m.
Definition on_startup {A} (m : M (AuthService.world N * client) A) : M gateway A :=
  zoom (λ g, (auth g, mqtt g)) set_startup m.

(** A stream operation with the MQTT client as its publisher. *)
Definition on_stream {A} (m : M (world client) A) : M gateway A := λ g,
  let '(r, w) := m (with_publisher (mqtt g) (stream_of g)) in
  (r, set_grpc (GrpcServer.set_stream (erase w) (grpc g)) (set_mqtt (publisher w) g)).

(** The handler given to the MQTT client. *)
Definition handle_message (topic payload : string) : M user unit :=
  zoom (λ u, (u.1, GrpcServer.stream u.2)) (λ s u, (s.1, GrpcServer.set_stream s.2 u.2))
    (Gateway.on_message topic payload).

(** ** Stopping the server *)

(** One step of [GrpcServer::stop]: the next one, or [None] when it returns. Joining a
    thread another thread is joining is undefined ([other] is the other call). *)
Definition stop_step (other : option stop_pc) (p : stop_pc)
    : M (GrpcServer.GrpcServer unit) (option stop_pc) :=
  s ← get;
  match p with
  | AtServer =>
      (if GrpcServer.server_ s then modify (GrpcServer.set_server true true) else mret tt) ;;
      mret (Some AtQueue)
  | AtQueue =>
      (if GrpcServer.cq_ s then modify (GrpcServer.set_cq true true) else mret tt) ;;
      mret (Some AtJoin)
  | AtJoin =>
      if GrpcServer.cq_thread_ s
      then if decide (other = Some Joining) then undefined else mret (Some Joining)
      else mret None
  | Joining => modify (GrpcServer.set_thread false) ;; mret None
  end.

(** [server_->Shutdown()] returns when no call is left, [join] when the queue is shut
    down and has nothing left to report. *)
Definition stop_ready (p : stop_pc) (s : GrpcServer.GrpcServer unit) : Prop :=
  match p with
  | AtServer => GrpcServer.server_ s = true → Shutdown.no_calls (GrpcServer.stream s)
  | Joining => GrpcServer.cq_shutdown s = true ∧ ops (GrpcServer.stream s) = []
  | _ => True
  end.

#[export] Instance stop_ready_dec p s : Decision (stop_ready p s).
Proof. destruct p; cbn [stop_ready]; apply _. Defined.

(** ** The thread of [main] *)

Definition goto (p : main_pc) : M gateway unit := modify (set_pc p).

Definition stopping (g : gateway) : option stop_pc :=
  match pc g with Destroy p => Some p | _ => None end.

Definition main_step : M gateway unit :=
  g ← get;
  match pc g with
  | SetCallbacks =>
      modify (λ g, set_orchestrator
        (TripOrchestrator.set_callbacks Gateway.gateway_callbacks (orchestrator g)) g) ;;
      goto SetHandler
  | SetHandler => on_mqtt (MqttClient.set_message_handler handle_message) ;; goto SubscribeTopics
  | SubscribeTopics =>
      on_mqtt (for_each MqttClient.subscribe Gateway.subscribed_topics) ;; goto StartMqtt
  | StartMqtt => on_mqtt MqttClient.start ;; goto OpenZenoh
  | OpenZenoh =>
      if zenoh_opens (zenoh_config cfg) then goto DeclareSubscriber
      else throw (StdException "zenoh")
  | DeclareSubscriber => modify (set_zenoh true) ;; goto AuthSetup
  | AuthSetup => on_startup (Gateway.on_auth (AuthService.setup cfg)) ;; goto CreateVehicle
  | CreateVehicle =>
      on_startup (Gateway.on_auth (AuthService.create_vehicle cfg false false)) ;;
      goto VehicleLogin
  | VehicleLogin => on_startup (Gateway.login_and_locate cfg) ;; goto SetPointer
  | SetPointer => modify set_pointer ;; goto InstallHandlers
  | InstallHandlers => modify set_handling ;; goto StartGrpc
  | StartGrpc => on_grpc (GrpcServer.start (builds (Config.grpc_listen cfg))) ;; goto WaitGrpc
  | WaitGrpc => goto ResetZenoh
  | ResetZenoh => modify (set_zenoh false) ;; goto StopMqtt
  | StopMqtt =>
      b ← on_mqtt MqttClient.stop_begin; goto (if (b : bool) then JoinMqtt else Destroy AtServer)
  | JoinMqtt => on_mqtt MqttClient.stop_end ;; goto (Destroy AtServer)
  | Destroy p =>
      next ← on_grpc (stop_step (signal g) p);
      goto (match next with Some p' => Destroy p' | None => DestroyMqtt end)
  | DestroyMqtt => on_mqtt MqttClient.destroy ;; goto Exited
  | Exited => mret tt
  end.

(** [main] is not blocked. *)
Definition main_ready (g : gateway) : Prop :=
  match pc g with
  | WaitGrpc => GrpcServer.wait_returns (grpc g) = true
  | Destroy p => stop_ready p (grpc g)
  | Exited => False
  | _ => True
  end.

(** [signal_handler]: the server it points to may be gone. *)
Definition signal_handler : M gateway unit :=
  modify set_shutdown ;;
  g ← get;
  if g_grpc_ptr g
  then if decide (pc g = DestroyMqtt) then undefined else modify (set_signal (Some AtServer))
  else mret tt.

Definition signal_step : M gateway unit :=
  g ← get;
  match signal g with
  | Some p => next ← on_grpc (stop_step (stopping g) p); modify (set_signal next)
  | None => mret tt
  end.

(** ** Executions *)

(** A step of each thread. *)
Inductive event : Type :=
| MainStep
| IoTask
| Receive (message : option (string * string))
| Report (o : op) (ok : bool) (ev : VehicleEvent)
| Location (payload : string)
| Signal
| SignalStep.

Definition run_event (e : event) : M gateway unit :=
  match e with
  | MainStep => main_step
  | IoTask => on_mqtt (MqttClient.run_event MqttClient.RunTask)
  | Receive msg => on_mqtt (MqttClient.run_event (MqttClient.Receive msg))
  | Report o ok ev => on_stream (complete o ok ev)
  | Location payload => on_mqtt (Gateway.on_location (Config.vin_number cfg) payload)
  | Signal => signal_handler
  | SignalStep => signal_step
  end.

Definition is_request (o : op) : bool := match o with OpRequest _ => true | _ => false end.

(** When a step can be taken. A server that is shut down accepts no call; one handler
    runs at a time; before they are installed a signal ends the process. *)
Definition allowed (g : gateway) (e : event) : Prop :=
  match e with
  | MainStep => main_ready g
  | IoTask => MqttClient.tasks (mqtt g) ≠ []
  | Receive _ => MqttClient.armed (mqtt g) ≠ 0
  | Report o ok _ =>
      GrpcServer.cq_thread_ (grpc g) = true ∧ o ∈ ops (stream_of g) ∧
      GrpcServer.server_down (grpc g) && ok && is_request o = false
  | Location _ => zenoh g = true
  | Signal => handling g = true ∧ signal g = None ∧ pc g ≠ Exited
  | SignalStep =>
      pc g ≠ Exited ∧ match signal g with Some p => stop_ready p (grpc g) | None => False end
  end.

#[export] Instance allowed_dec g e : Decision (allowed g e).
Proof.
  destruct e; cbn [allowed]; try apply _.
  - unfold main_ready. destruct (pc g); apply _.
  - destruct (signal g); apply _.
Defined.

(** The executions whose every step satisfies [R]. *)
Inductive steps (R : gateway → event → Prop) (g : gateway) : list event → gateway → Prop :=
| steps_nil : steps R g [] g
| steps_snoc es g' e g'' :
    steps R g es g' → allowed g' e → R g' e → run_event e g' = (Ret tt, g'') →
    steps R g (es ++ [e]) g''.

(** The objects as they are constructed; the static members are empty. *)
Definition boot (a : AuthService.world N) : gateway := {|
  mqtt := Gateway.gateway_mqtt cfg
    (TripOrchestrator.new_orchestrator (Config.vin_number cfg), GrpcServer.new_GrpcServer tt);
  auth := a; zenoh := false; g_grpc_ptr := false; handling := false; g_shutdown := false;
  pc := SetCallbacks; signal := None |}.

(** Signals are handled by the thread of [main], which goes on when the handler has
    returned, and none comes after the server is destroyed. What vehicles send is
    UTF-8, and no write outlives its handler. *)
Definition orderly (g : gateway) (e : event) : Prop :=
  match e with
  | MainStep => signal g = None
  | Signal => pc g ≠ DestroyMqtt
  | Report o ok ev => StreamDelivery.event_utf8 ev ∧ StreamSeq.accounted (stream_of g) o
  | _ => True
  end.

(** The commands the received messages carry. *)
Definition command_in (e : event) : option GatewayCommand :=
  match e with Receive (Some msg) => Gateway.command_of msg | _ => None end.
Definition received (es : list event) : list GatewayCommand := omap command_in es.

End gateway.

(** From the first statement of [main]: the configuration is read, and the client and
    the orchestrator are constructed from it. *)
Definition launch {N} (files : string → option chars) (env : Config.environment)
    (a : AuthService.world N) : gateway :=
  boot (Config.from_env files env) a.

End Main.
