(* ===== verification/MainInv.v ===== *)
(** * The invariant of the gateway *)

(** What holds in every orderly execution of [Main], whatever the threads, the vehicles
    and the backend do: where [main] is determines the state of the client, the server
    and the subscriber; the server and its stream are in a state of [Shutdown], with the
    commands of the received messages pushed. Every step that is allowed runs to its end
    and keeps the invariant, or is one of the start-up statements of [main] whose exception
    ends the process ([event_ok], [main_throws]). *)

From S2P Require Import Prelude Double Json JsonModel Messages Router Orchestrator.
From S2P Require Import Stream StreamSeq StreamDelivery StreamErase Rpc GrpcServer Shutdown.
From S2P Require Import Config HttpClient Auth MqttClient Gateway Main.

Module MainInv.
Import VehicleStreamHandler StreamSeq StreamDelivery StreamErase Main.
#[local] Existing Instances MqttClient.mqtt_publisher Shutdown.phase_eq_dec Shutdown.no_calls_dec.

(** The place of a statement in [main]. *)
Definition rank (p : main_pc) : nat :=
  match p with
  | SetCallbacks => 0 | SetHandler => 1 | SubscribeTopics => 2 | StartMqtt => 3
  | OpenZenoh => 4 | DeclareSubscriber => 5 | AuthSetup => 6 | CreateVehicle => 7
  | VehicleLogin => 8 | SetPointer => 9 | InstallHandlers => 10 | StartGrpc => 11
  | WaitGrpc => 12 | ResetZenoh => 13 | StopMqtt => 14 | JoinMqtt => 15
  | Destroy _ => 16 | DestroyMqtt => 17 | Exited => 18
  end.

(** ** The server *)

Section server.
Context `{JL : JsonLaws}.
Import GrpcServer.
Implicit Types (s : GrpcServer.GrpcServer unit) (cs : list GatewayCommand).

Definition phase_of s : Shutdown.phase :=
  if negb (cq_thread_ s) then Shutdown.Joined
  else if cq_shutdown s then Shutdown.QueueDown
  else if server_down s then Shutdown.ServerDown
  else Shutdown.Running.

(** A server that was started: its stream is in a state of [Shutdown]. *)
Record running cs s : Prop := {
  r_server : server_ s = true;
  r_queue : cq_ s = true;
  r_order : cq_shutdown s = true → server_down s = true;
  r_joined : cq_thread_ s = false → cq_shutdown s = true;
  r_stream : ∃ l x, Shutdown.acts l (Shutdown.started tt) = Some x ∧
    Shutdown.sw x = stream s ∧ Shutdown.ph x = phase_of s ∧ Shutdown.acts_pushed l = cs
}.

(** A server that was not, or that failed to start: the commands wait. *)
Record unstarted cs s : Prop := {
  u_server : server_ s = false;
  u_thread : cq_thread_ s = false;
  u_stream : stream s = set_pending cs (empty_world tt)
}.

Definition server_inv cs (called : bool) s : Prop :=
  if called then running cs s ∨ unstarted cs s else unstarted cs s ∧ cq_ s = false.

(** What a call of [stop] has done before it is at [p]. *)
Definition stop_at (p : stop_pc) s : Prop :=
  match p with
  | AtServer => True
  | AtQueue => server_ s = true → server_down s = true
  | AtJoin => (server_ s = true → server_down s = true) ∧ (cq_ s = true → cq_shutdown s = true)
  | Joining => (server_ s = true → server_down s = true) ∧
               (cq_ s = true → cq_shutdown s = true) ∧ cq_thread_ s = true
  end.

(** The stream is the only difference. *)
Definition same_flags s s' : Prop :=
  server_ s' = server_ s ∧ server_down s' = server_down s ∧ cq_ s' = cq_ s ∧
  cq_shutdown s' = cq_shutdown s ∧ cq_thread_ s' = cq_thread_ s.

Lemma stop_at_flags p s s' : same_flags s s' → stop_at p s → stop_at p s'.
Proof. intros (H1 & H2 & H3 & H4 & H5). destruct p; simpl; by rewrite ?H1, ?H2, ?H3, ?H4, ?H5. Qed.

Lemma phase_of_flags s s' : same_flags s s' → phase_of s' = phase_of s.
Proof. intros (_ & H2 & _ & H4 & H5). unfold phase_of. by rewrite H2, H4, H5. Qed.

Lemma server_is_running cs b s :
  server_inv cs b s → server_ s = true ∨ cq_thread_ s = true → running cs s.
Proof.
  destruct b; [intros [Hr|[]]|intros [[] _]]; [done|intros [?|?]; congruence..].
Qed.

Lemma running_shutdown cs s :
  running cs s → ∃ x, Shutdown.shutdown_inv x ∧ Shutdown.sw x = stream s ∧ Shutdown.ph x = phase_of s.
Proof.
  intros [_ _ _ _ (l & x & Hl & Hw & Hp & _)]. exists x. split_and!; [|done..].
  eapply Shutdown.acts_invariant; [apply (Shutdown.started_inv tt)|exact Hl].
Qed.

Lemma running_invariant cs s : running cs s → invariant (stream s).
Proof. intros (x & [Hi _ _] & <- & _)%running_shutdown. exact Hi. Qed.

(** One more action of the schedule. *)
Lemma running_act cs cs' a s s' x :
  running cs s → same_flags s s' →
  (∀ y, Shutdown.sw y = stream s → Shutdown.ph y = phase_of s → Shutdown.act a y = Some x) →
  Shutdown.sw x = stream s' → Shutdown.ph x = phase_of s →
  cs' = cs ++ Shutdown.acts_pushed [a] → running cs' s'.
Proof.
  intros [H1 H2 H3 H4 (l & y & Hl & Hw & Hp & Hcs)] Hf Ha Hx Hph ->.
  pose proof (phase_of_flags _ _ Hf) as Hphase. destruct Hf as (F1 & F2 & F3 & F4 & F5).
  split; [by rewrite F1|by rewrite F3|by rewrite F2, F4|by rewrite F4, F5|].
  exists (l ++ [a]), x. split_and!; [|done|by rewrite Hphase|].
  - eapply Shutdown.acts_app; [exact Hl|]. simpl. by rewrite (Ha y Hw Hp).
  - by rewrite Shutdown.acts_pushed_app, Hcs.
Qed.

Lemma set_stream_flags w s : same_flags s (set_stream w s).
Proof. by split_and!. Qed.

Lemma push_returns cs b s c : server_inv cs b s → fst (push_command c (stream s)) = Ret tt.
Proof.
  intros Hs. assert (Hs' : running cs s ∨ unstarted cs s) by (destruct b; [done|right; apply Hs]).
  destruct Hs' as [Hr|[_ _ Hu]].
  - destruct (run_push _ c (running_invariant cs s Hr)) as (w' & -> & _). done.
  - by rewrite Hu.
Qed.

Lemma push_server cs b s c :
  server_inv cs b s →
  server_inv (cs ++ [c]) b (set_stream (exec (push_command c) (stream s)) s).
Proof.
  intros Hs. pose proof (push_returns cs b s c Hs) as Hret.
  assert (Hu : unstarted cs s → unstarted (cs ++ [c]) (set_stream (exec (push_command c) (stream s)) s)).
  { intros [H1 H2 H3]. split; [done|done|]. unfold exec. simpl. by rewrite H3. }
  destruct b; [destruct Hs as [Hr|Hr]|destruct Hs as [Hr Hq]; split; auto].
  - left. unfold exec in *. destruct (push_command c (stream s)) as [[[]| |] w'] eqn:Hrun; try done.
    eapply (running_act cs _ (Shutdown.PushCommand c) s _ {| Shutdown.sw := w';
      Shutdown.ph := phase_of s |});
      [done|apply set_stream_flags| |done|done|done].
    intros [yw yp]. simpl. intros -> ->. unfold step_fn. cbn [StreamSeq.run_event]. by rewrite Hrun.
  - right. by apply Hu.
Qed.

Lemma report_server cs b s o ok ev :
  server_inv cs b s → cq_thread_ s = true → o ∈ ops (stream s) → accounted (stream s) o →
  event_utf8 ev → server_down s && ok && is_request o = false →
  fst (complete o ok ev (stream s)) = Ret tt ∧
  server_inv cs b (set_stream (exec (complete o ok ev) (stream s)) s).
Proof.
  intros Hs Hth Ho Hacc Hutf Hreq.
  pose proof (server_is_running cs b s Hs (or_intror Hth)) as Hr.
  pose proof (invariant_returns (stream s) (Complete o ok ev) (running_invariant cs s Hr)
                (conj Ho Hacc) Hutf) as Hret. cbn [StreamSeq.run_event] in Hret. split; [done|].
  assert (Hr' : running cs (set_stream (exec (complete o ok ev) (stream s)) s)).
  { unfold exec. destruct (complete o ok ev (stream s)) as [[[]| |] w'] eqn:Hrun; try done.
    eapply (running_act cs _ (Shutdown.Report o ok ev) s _
              {| Shutdown.sw := w'; Shutdown.ph := phase_of s |});
      [done|apply set_stream_flags| |done|done|by rewrite app_nil_r].
    intros [yw yp]. cbn [Shutdown.sw Shutdown.ph Shutdown.act]. intros -> ->.
    assert (Hcan : Shutdown.can_report {| Shutdown.sw := stream s;
      Shutdown.ph := phase_of s |} o ok = true).
    { unfold Shutdown.can_report, phase_of. simpl. rewrite Hth. simpl.
      destruct (cq_shutdown s) eqn:Hq;
        [pose proof (r_order cs s Hr Hq) as Hd|destruct (server_down s) eqn:Hd];
        rewrite ?Hd in Hreq; destruct o as [h| | |]; try done; by destruct ok. }
    rewrite Hcan. unfold step_fn. rewrite bool_decide_true by done. cbn [StreamSeq.run_event].
      by rewrite Hrun. }
  destruct b; [by left|]. destruct Hs as [[Hsv _ _] _]. by rewrite (r_server _ _ Hr) in Hsv.
Qed.

(** ** Starting and stopping it *)

Lemma new_calls_run l s :
  ∃ c, for_each (λ m, on_rpcs (CallData.new_CallData m) ;; mret tt) l s = (Ret tt, set_rpcs c s).
Proof.
  revert s. induction l as [|m l IH]; intros s; [exists (rpcs s); by destruct s|].
  cbn [for_each]. rewrite bind_unfold.
  destruct (IH (set_rpcs (CallData.alloc (CallData.new_call m) (rpcs s)) s)) as [c Hc].
  exists c. exact Hc.
Qed.

Lemma pending_handler cs :
  new_VehicleStreamHandler (set_pending cs (empty_world tt)) =
    (Ret tt, set_pending cs (init_world tt)).
Proof. rewrite init_world_eq. by rewrite new_handler_run. Qed.

(** The commands that came before the start are pushes before the first report. *)
Lemma pending_acts cs :
  Shutdown.acts (Shutdown.PushCommand <$> cs) (Shutdown.started tt) =
    Some {| Shutdown.sw := set_pending cs (init_world tt); Shutdown.ph := Shutdown.Running |} ∧
  Shutdown.acts_pushed (Shutdown.PushCommand <$> cs) = cs.
Proof.
  induction cs as [|c cs [IH1 IH2]] using rev_ind; [by rewrite init_world_eq|].
  rewrite fmap_app, Shutdown.acts_pushed_app, IH2. split; [|done].
  eapply Shutdown.acts_app; [exact IH1|]. by rewrite init_world_eq.
Qed.

Lemma start_ok cs s built :
  unstarted cs s →
  ∃ s', start built s = (Ret tt, s') ∧ server_inv cs true s' ∧ server_ s' = built ∧
    server_down s' = false ∧ cq_thread_ s' = built.
Proof.
  intros [Hsv Hth Hst]. unfold start. rewrite bind_unfold. cbn [modify].
  rewrite bind_unfold. cbn [modify]. destruct built.
  - destruct (new_calls_run CallData.methods (set_server true false (set_cq true false s))) as [c Hc].
    rewrite (bind_run _ _ _ _ _ Hc), bind_unfold. unfold on_stream, zoom.
    cbn [stream set_rpcs set_server set_cq]. rewrite Hst, pending_handler, bind_unfold.
    cbn [get set_stream cq_thread_ set_rpcs set_server set_cq]. rewrite Hth.
    eexists. split; [reflexivity|]. split_and!; [|done..]. left. destruct (pending_acts cs) as [Ha Hp].
    split; [done..|]. exists (Shutdown.PushCommand <$> cs). eexists. by split_and!.
  - eexists. split; [reflexivity|]. split_and!; [|done|done|done]. right. by split.
Qed.

(** What one call of [stop] leaves to another. *)
Definition stop_after (next : option stop_pc) s : Prop :=
  match next with
  | Some p => stop_at p s
  | None => cq_thread_ s = false ∧ (server_ s = true → server_down s = true)
  end.

Definition stop_next (p : stop_pc) s : option stop_pc :=
  match p with
  | AtServer => Some AtQueue
  | AtQueue => Some AtJoin
  | AtJoin => if cq_thread_ s then Some Joining else None
  | Joining => None
  end.

(** Stopping goes one way. *)
Record later s s' : Prop := {
  l_server : server_ s' = server_ s;
  l_queue : cq_ s' = cq_ s;
  l_down : server_down s = true → server_down s' = true;
  l_shut : cq_shutdown s = true → cq_shutdown s' = true;
  l_thread : cq_thread_ s = false → cq_thread_ s' = false;
  l_stream : stream s' = stream s
}.

Lemma stop_at_later p s s' : later s s' → p ≠ Joining → stop_at p s → stop_at p s'.
Proof. intros [H1 H2 H3 H4 H5 _] Hp. destruct p; simpl; rewrite ?H1, ?H2; naive_solver. Qed.

(** [server_->Shutdown()] on a running server. *)
Lemma stop_server_ok cs b s :
  server_inv cs b s → server_ s = true → Shutdown.no_calls (stream s) →
  server_inv cs b (set_server true true s).
Proof.
  intros Hs Hsv Hn.
  pose proof (server_is_running cs b s Hs (or_introl Hsv)) as Hr.
  assert (Hr' : running cs (set_server true true s)).
  { destruct Hr as [H1 H2 H3 H4 (l & x & Hl & Hw & Hp & Hcs)]. split; [done..|].
    destruct (decide (phase_of s = Shutdown.Running)) as [Hrun|Hrun].
    - exists (l ++ [Shutdown.CallServerShutdown; Shutdown.ServerShutdownReturns]).
      exists {| Shutdown.sw := stream s; Shutdown.ph := Shutdown.ServerDown |}. split_and!.
      + eapply Shutdown.acts_app; [exact Hl|]. destruct x as [xw xp]. simpl in *. subst xw xp.
        rewrite Hrun. cbn [mbind option_bind]. rewrite decide_True by done. cbn [mbind option_bind].
        simpl. by rewrite decide_True.
      + done.
      + unfold phase_of in *. simpl. destruct (cq_thread_ s), (cq_shutdown s); done.
      + by rewrite Shutdown.acts_pushed_app, app_nil_r.
    - exists l, x. split_and!; [done|done| |done]. rewrite Hp. unfold phase_of in *. simpl.
      destruct (cq_thread_ s), (cq_shutdown s), (server_down s); done. }
  destruct b; [by left|]. destruct Hs as [[? _ _] _]. congruence.
Qed.

(** [cq_->Shutdown()]. *)
Lemma stop_queue_ok cs s :
  server_inv cs true s → (server_ s = true → server_down s = true) →
  server_inv cs true (set_cq true true s).
Proof.
  intros [[H1 H2 H3 H4 (l & x & Hl & Hw & Hp & Hcs)]|[H1 H2 H3]] Hd; [left|right; by split].
  split; [done|done|by intros _; apply Hd|done|].
  destruct (decide (phase_of s = Shutdown.ServerDown)) as [Hph|Hph].
  - exists (l ++ [Shutdown.CallQueueShutdown]).
    exists {| Shutdown.sw := stream s; Shutdown.ph := Shutdown.QueueDown |}. split_and!.
    + eapply Shutdown.acts_app; [exact Hl|]. destruct x as [xw xp]. simpl in *. subst xw xp.
      by rewrite Hph.
    + done.
    + unfold phase_of in *. simpl. by destruct (cq_thread_ s).
    + by rewrite Shutdown.acts_pushed_app, app_nil_r.
  - exists l, x. split_and!; [done|done| |done]. rewrite Hp. specialize (Hd H1).
    unfold phase_of in *. simpl. destruct (cq_thread_ s), (cq_shutdown s), (server_down s); done.
Qed.

(** [cq_thread_.join()]. *)
Lemma join_ok cs b s :
  server_inv cs b s → stop_at Joining s → ops (stream s) = [] →
  server_inv cs b (set_thread false s).
Proof.
  intros Hs (Hd & Hsh & Hth) Ho.
  pose proof (server_is_running cs b s Hs (or_intror Hth)) as Hr.
  assert (Hr' : running cs (set_thread false s)).
  { destruct Hr as [H1 H2 H3 H4 (l & x & Hl & Hw & Hp & Hcs)]. specialize (Hsh H2).
    split; [done..|]. exists (l ++ [Shutdown.JoinReturns]).
    exists {| Shutdown.sw := stream s; Shutdown.ph := Shutdown.Joined |}. split_and!; [|done|done|].
    - eapply Shutdown.acts_app; [exact Hl|]. destruct x as [xw xp]. simpl in *. subst xw xp.
      unfold phase_of. rewrite Hth, Hsh. simpl. by rewrite decide_True.
    - by rewrite Shutdown.acts_pushed_app, app_nil_r. }
  destruct b; [by left|]. destruct Hs as [[? _ _] _]. by rewrite (r_server _ _ Hr) in *.
Qed.

Lemma stop_ok cs b s other p :
  server_inv cs b s → stop_at p s → stop_ready p s →
  (p = AtJoin → cq_thread_ s = true → other ≠ Some Joining) →
  ∃ s', stop_step other p s = (Ret (stop_next p s), s') ∧ server_inv cs b s' ∧
    stop_after (stop_next p s) s' ∧ later s s'.
Proof.
  intros Hs Hat Hready Hother. unfold stop_step. rewrite bind_unfold. cbn [get].
  assert (Hrefl : later s s) by by split.
  destruct p; cbn [stop_next stop_after].
  - destruct (server_ s) eqn:Hsv; rewrite bind_unfold; cbn [modify].
    + eexists. split; [reflexivity|]. split_and!; [|done|].
      * apply stop_server_ok; auto.
      * by split.
    + exists s. split_and!; [done|done|by intros; congruence|done].
  - destruct (cq_ s) eqn:Hq; rewrite bind_unfold; cbn [modify].
    + eexists. split; [reflexivity|]. split_and!; [|by split|by split].
      destruct b; [by apply stop_queue_ok|]. destruct Hs as [_ Hq']. congruence.
    + exists s. split_and!; [done|done|split; [done|congruence]|done].
  - destruct Hat as [Hd Hsh]. destruct (cq_thread_ s) eqn:Hth.
    + rewrite decide_False by auto. exists s. by split_and!.
    + exists s. by split_and!.
  - pose proof Hat as (Hd & Hsh & Hth). rewrite bind_unfold. cbn [modify].
    eexists. split; [reflexivity|]. split_and!; [by apply join_ok, Hready|done|done|by split].
Qed.

(** The steps of a call that nothing interrupts are the call of [GrpcServer]. *)
Lemma stop_steps_stop s :
  stop [] s =
  (stop_step None AtServer ;; stop_step None AtQueue ;;
   next ← stop_step None AtJoin;
   match next with Some p => stop_step None p ;; mret tt | None => mret tt end) s.
Proof. by destruct s as [[] d [] sh [] rp st]. Qed.

End server.

(** ** The gateway *)

Section gateway.
Context `{JL : JsonLaws} {N : Type} `{HP : HttpClient.HttpPost N}.
Variables (cfg : Config.Config) (zenoh_opens : list (string * string) → bool)
  (builds : string → bool).
Implicit Types (g : gateway (N:=N)) (cs : list GatewayCommand) (m : client).

(** The broker of the configuration, and the identifier of the client there. *)
Definition broker (cfg : Config.Config) : string * Z * string :=
  (Config.mqtt_broker cfg, Config.mqtt_port cfg, Config.mqtt_client_id cfg).

Record inv cs g : Prop := {
  i_client : MqttClient.invariant (mqtt g);
  i_handler : MqttClient.cb_ (mqtt g) =
    if rank (pc g) <=? 1 then None else Some handle_message;
  i_callbacks : TripOrchestrator.trip_callbacks_ (orchestrator g) =
    if rank (pc g) =? 0 then TripOrchestrator.no_callbacks else Gateway.gateway_callbacks;
  i_started : MqttClient.started_ (mqtt g) = (4 <=? rank (pc g)) && (rank (pc g) <=? 14);
  i_stopped : rank (pc g) < 4 ∨ 16 ≤ rank (pc g) → MqttClient.client_ (mqtt g) = false;
  i_server : server_inv cs (12 <=? rank (pc g)) (grpc g);
  i_zenoh : zenoh g = (6 <=? rank (pc g)) && (rank (pc g) <=? 13);
  i_joined : 13 ≤ rank (pc g) → GrpcServer.cq_thread_ (grpc g) = false ∧
    (GrpcServer.server_ (grpc g) = true → GrpcServer.server_down (grpc g) = true);
  i_destroy : ∀ p, pc g = Destroy p → stop_at p (grpc g);
  i_signal : ∀ p, signal g = Some p → stop_at p (grpc g);
  i_quiet : signal g = None → GrpcServer.server_down (grpc g) = true →
    GrpcServer.cq_thread_ (grpc g) = false;
  i_pointer : g_grpc_ptr g = (10 <=? rank (pc g));
  i_handling : handling g = (11 <=? rank (pc g));
  i_network : MqttClient.network (mqtt g) =
    (broker cfg, if 4 <=? rank (pc g) then [broker cfg] else [])
}.

(** The client with another list of sent messages. *)
Definition with_sent (l : list (string * string)) m : client :=
  {| MqttClient.client_ := MqttClient.client_ m; MqttClient.ioc_ := MqttClient.ioc_ m;
     MqttClient.runner_ := MqttClient.runner_ m; MqttClient.broker_ := MqttClient.broker_ m;
     MqttClient.port_ := MqttClient.port_ m; MqttClient.clientId_ := MqttClient.clientId_ m;
     MqttClient.cb_ := MqttClient.cb_ m;
     MqttClient.started_ := MqttClient.started_ m; MqttClient.stopped_ := MqttClient.stopped_ m;
     MqttClient.pending_topics_ := MqttClient.pending_topics_ m;
     MqttClient.tasks := MqttClient.tasks m; MqttClient.armed := MqttClient.armed m;
     MqttClient.subscribed := MqttClient.subscribed m; MqttClient.sent := l;
     MqttClient.connections := MqttClient.connections m; MqttClient.user := MqttClient.user m |}.

Definition published m m' : Prop := ∃ l, m' = with_sent l m.

Lemma published_refl m : published m m.
Proof. exists (MqttClient.sent m). by destruct m. Qed.

Lemma publish_published t p m0 m : published m0 m → published m0 (snd (publish t p m)).
Proof.
  intros [l ->]. unfold publish, MqttClient.mqtt_publisher, MqttClient.publish_message.
  rewrite bind_unfold. cbn [get]. destruct (_ || _); [by exists l|]. rewrite bind_unfold.
  cbn [modify mret M_ret snd]. by eexists.
Qed.

Lemma invariant_sent l m : MqttClient.invariant m → MqttClient.invariant (with_sent l m).
Proof. intros [H1 H2 H3 H4 H5]. by split. Qed.

Lemma invariant_user u m : MqttClient.invariant m → MqttClient.invariant (MqttClient.set_user u m).
Proof. intros [H1 H2 H3 H4 H5]. by split. Qed.

(** A change of the client that leaves [main], and the flags of the server, alone. *)
Lemma inv_client cs cs' g m' :
  inv cs g → MqttClient.invariant m' → MqttClient.cb_ m' = MqttClient.cb_ (mqtt g) →
  MqttClient.started_ m' = MqttClient.started_ (mqtt g) →
  (MqttClient.client_ (mqtt g) = false → MqttClient.client_ m' = false) →
  TripOrchestrator.trip_callbacks_ (MqttClient.user m').1 =
    TripOrchestrator.trip_callbacks_ (orchestrator g) →
  MqttClient.network m' = MqttClient.network (mqtt g) →
  same_flags (grpc g) (MqttClient.user m').2 →
  server_inv cs' (12 <=? rank (pc g)) (MqttClient.user m').2 →
  inv cs' (set_mqtt m' g).
Proof.
  intros [] Hm Hcb Hst Hc Ho Hn Hf Hs. pose proof Hf as (F1 & F2 & F3 & F4 & F5).
  split; unfold grpc, orchestrator in *; cbn [set_mqtt mqtt pc signal zenoh g_grpc_ptr handling];
    rewrite ?Hcb, ?Hst, ?Ho, ?Hn, ?F1, ?F2, ?F5; eauto using stop_at_flags.
Qed.

Lemma publish_inv cs g m' : inv cs g → published (mqtt g) m' → inv cs (set_mqtt m' g).
Proof.
  intros Hi [l ->]. apply (inv_client cs cs); try done.
  - apply invariant_sent, Hi.
  - apply Hi.
Qed.

(** A change of the server alone. *)
Lemma inv_grpc cs cs' g s' :
  inv cs g → same_flags (grpc g) s' → server_inv cs' (12 <=? rank (pc g)) s' →
  inv cs' (set_grpc s' g).
Proof.
  intros Hi Hf Hs. apply (inv_client cs cs'); try done. apply invariant_user, Hi.
Qed.

(** ** The other threads *)

Lemma armed_client cs g : inv cs g → MqttClient.armed (mqtt g) ≠ 0 → MqttClient.client_ (mqtt g) = true.
Proof.
  intros Hi Ha. destruct (MqttClient.client_ (mqtt g)) eqn:Hc; [done|].
  by destruct (MqttClient.inv_idle _ (i_client _ _ Hi) Hc) as (_ & ? & _).
Qed.

(** While the client exists, [main] has set its handler and the callbacks. *)
Lemma client_rank cs g : inv cs g → MqttClient.client_ (mqtt g) = true → 4 <= rank (pc g).
Proof.
  intros Hi Hc. destruct (decide (4 <= rank (pc g))) as [|Hlt]; [done|].
  rewrite (i_stopped _ _ Hi) in Hc; [done|lia].
Qed.

Lemma handler_callbacks cs g :
  inv cs g → 4 <= rank (pc g) → MqttClient.cb_ (mqtt g) = Some handle_message ∧
    TripOrchestrator.trip_callbacks_ (orchestrator g) = Gateway.gateway_callbacks.
Proof.
  intros Hi Hr. rewrite (i_handler _ _ Hi), (i_callbacks _ _ Hi).
  destruct (rank (pc g)) as [|[|n]]; [lia..|done].
Qed.

(** The stream after a command, if there is one. *)
Definition pushed_on (c : option GatewayCommand) (w : world unit) : world unit :=
  match c with Some c => exec (push_command c) w | None => w end.

(** A message is decoded, and its command pushed. *)
Lemma handle_message_run cs b topic payload o (s : GrpcServer.GrpcServer unit) :
  TripOrchestrator.trip_callbacks_ o = Gateway.gateway_callbacks → server_inv cs b s →
  ∃ o' s', handle_message topic payload (o, s) = (Ret tt, (o', s')) ∧
    TripOrchestrator.trip_callbacks_ o' = Gateway.gateway_callbacks ∧ same_flags s s' ∧
    server_inv (cs ++ option_list (Gateway.command_of (topic, payload))) b s' ∧
    GrpcServer.stream s' = pushed_on (Gateway.command_of (topic, payload)) (GrpcServer.stream s).
Proof.
  intros Ho Hs. unfold handle_message, zoom. cbn [fst snd].
  rewrite (Gateway.message_pushes _ _ _ topic payload Ho (λ c, push_returns cs b s c Hs)).
  destruct (Gateway.command_of (topic, payload)) as [c|]; cbn [option_list fst snd].
  - do 2 eexists. split_and!; [reflexivity|by rewrite Gateway.remember_callbacks|
      by repeat split|by apply push_server|done].
  - exists o, s. rewrite app_nil_r. split_and!; [by destruct s|done|by repeat split|done|done].
Qed.

Lemma receive_ok cs g msg :
  inv cs g → MqttClient.armed (mqtt g) ≠ 0 →
  ∃ m', MqttClient.run_event (MqttClient.Receive msg) (mqtt g) = (Ret tt, m') ∧
    inv (cs ++ option_list (command_in (Receive msg))) (set_mqtt m' g) ∧
    same_flags (grpc g) (grpc (set_mqtt m' g)) ∧
    stream_of (set_mqtt m' g) = pushed_on (command_in (Receive msg)) (stream_of g).
Proof.
  intros Hi Ha. pose proof (armed_client cs g Hi Ha) as Hc.
  destruct (handler_callbacks cs g Hi (client_rank cs g Hi Hc)) as [Hcb Hcalls].
  assert (Hrun : ∀ t p, ∃ o' s', handle_message t p (MqttClient.user (mqtt g)) = (Ret tt, (o', s')) ∧
    TripOrchestrator.trip_callbacks_ o' = Gateway.gateway_callbacks ∧ same_flags (grpc g) s' ∧
    server_inv (cs ++ option_list (Gateway.command_of (t, p))) (12 <=? rank (pc g)) s' ∧
    GrpcServer.stream s' = pushed_on (Gateway.command_of (t, p)) (stream_of g)).
  { intros t p. pose proof (i_server _ _ Hi) as Hs. unfold stream_of, grpc, orchestrator in *.
    destruct (MqttClient.user (mqtt g)) as [o s]. by apply handle_message_run. }
  assert (Hret : MqttClient.handler_returns (mqtt g)).
  { intros h t p. rewrite Hcb. intros [= <-]. by destruct (Hrun t p) as (o' & s' & -> & _). }
  destruct (MqttClient.event_runs (mqtt g) (MqttClient.Receive msg) (i_client _ _ Hi) Hret Ha)
    as (m' & Hm & Hinv & Hcb' & Hst & Hu).
  pose proof (MqttClient.event_offline (MqttClient.Receive msg) (mqtt g)) as Hn.
  unfold exec in Hn. rewrite Hm in Hn.
  exists m'. split; [done|]. unfold MqttClient.user_after in Hu. rewrite Hcb in Hu.
  destruct msg as [[t p]|]; cbn [command_in option_list].
  - destruct (Hrun t p) as (o' & s' & Hh & Ho & Hf & Hs & Hw). unfold exec in Hu. rewrite Hh in Hu.
    split; [|unfold stream_of, grpc at 2 3; cbn [set_mqtt mqtt]; by rewrite Hu].
    apply (inv_client cs _ g m'); try done; rewrite ?Hu; cbn [fst snd]; try done; congruence.
  - rewrite app_nil_r.
    split; [|unfold stream_of, grpc at 2 3; cbn [set_mqtt mqtt]; by rewrite Hu].
    apply (inv_client cs cs g m'); try done; rewrite ?Hu; try done.
    + congruence.
    + apply Hi.
Qed.

Lemma task_ok cs g :
  inv cs g → MqttClient.tasks (mqtt g) ≠ [] →
  ∃ m', MqttClient.run_event MqttClient.RunTask (mqtt g) = (Ret tt, m') ∧ inv cs (set_mqtt m' g) ∧
    same_flags (grpc g) (grpc (set_mqtt m' g)) ∧ stream_of (set_mqtt m' g) = stream_of g.
Proof.
  intros Hi Ht. destruct (MqttClient.tasks (mqtt g)) as [|t ts] eqn:Htasks; [done|].
  destruct (MqttClient.task_runs (mqtt g) t ts (i_client _ _ Hi) Htasks)
    as (m' & Hm & Hinv & Hcb & Hst & _ & Hu).
  assert (Hrun : MqttClient.run_event MqttClient.RunTask (mqtt g) = (Ret tt, m')).
  { cbn [MqttClient.run_event]. rewrite bind_unfold. cbn [get]. by rewrite Htasks. }
  pose proof (MqttClient.event_offline MqttClient.RunTask (mqtt g)) as Hn.
  unfold exec in Hn. rewrite Hrun in Hn.
  exists m'. split; [done|].
  - split; [|unfold stream_of, grpc at 2 3; cbn [set_mqtt mqtt]; by rewrite Hu].
    apply (inv_client cs cs g m'); rewrite ?Hu; try done.
    + intros Hc. destruct (MqttClient.inv_idle _ (i_client _ _ Hi) Hc) as (Hnone & _). congruence.
    + apply Hi.
Qed.

(** A report with the client as publisher is one on the stream without, and the client
    has only sent something. *)
Lemma stream_report_run g o ok ev :
  ∃ m', published (mqtt g) m' ∧
    run_event cfg zenoh_opens builds (Report o ok ev) g =
      (fst (complete o ok ev (stream_of g)),
       set_grpc (GrpcServer.set_stream (exec (complete o ok ev) (stream_of g)) (grpc g))
         (set_mqtt m' g)).
Proof.
  cbn [run_event]. unfold on_stream.
  pose proof (complete_erases (P:=client) o ok ev (with_publisher (mqtt g) (stream_of g))) as He.
  pose proof (complete_keeps (published (mqtt g)) (λ t s p, publish_published t s (mqtt g) p) o ok ev
    (with_publisher (mqtt g) (stream_of g)) (published_refl (mqtt g))) as Hp. unfold exec in Hp.
  assert (Hs : erase (with_publisher (mqtt g) (stream_of g)) = stream_of g).
  { unfold erase, with_publisher. destruct (stream_of g) as [? ? ? ? ? ? []]. done. }
  rewrite Hs in He. unfold exec. rewrite He.
  destruct (complete o ok ev (with_publisher (mqtt g) (stream_of g))) as [r w']. cbn [fst snd] in *.
  by exists (publisher w').
Qed.

Lemma report_ok cs g o ok ev :
  inv cs g → allowed g (Report o ok ev) → orderly g (Report o ok ev) →
  ∃ m', published (mqtt g) m' ∧
    let g' := set_grpc (GrpcServer.set_stream (exec (complete o ok ev) (stream_of g)) (grpc g))
                (set_mqtt m' g) in
    run_event cfg zenoh_opens builds (Report o ok ev) g = (Ret tt, g') ∧ inv cs g'.
Proof.
  intros Hi (Hth & Ho & Hreq) (Hev & Hacc).
  destruct (stream_report_run g o ok ev) as (m' & Hpub & Hrun). exists m'. split; [done|].
  destruct (report_server cs (12 <=? rank (pc g)) (grpc g) o ok ev (i_server _ _ Hi) Hth Ho Hacc Hev Hreq)
    as [Hret Hs].
  cbv zeta. rewrite Hrun. unfold stream_of in *. rewrite Hret. split; [done|].
  pose proof (publish_inv cs g m' Hi Hpub) as Hi'. destruct Hpub as [l ->].
  apply (inv_grpc cs cs); [exact Hi'|by repeat split|exact Hs].
Qed.

Lemma location_ok cs g payload :
  inv cs g →
  ∃ m', published (mqtt g) m' ∧
    run_event cfg zenoh_opens builds (Location payload) g = (Ret tt, set_mqtt m' g) ∧
    inv cs (set_mqtt m' g).
Proof.
  intros Hi. cbn [run_event]. unfold on_mqtt, zoom.
  assert (Hl : fst (Gateway.on_location (Config.vin_number cfg) payload (mqtt g)) = Ret tt ∧
    published (mqtt g) (snd (Gateway.on_location (Config.vin_number cfg) payload (mqtt g)))).
  { destruct (Gateway.location_run (Config.vin_number cfg) payload (mqtt g)) as [Hr [-> |[text ->]]];
      (split; [done|]); [apply published_refl|apply publish_published, published_refl]. }
  destruct Hl as [Hr Hp]. destruct (Gateway.on_location _ _ _) as [r m']. cbn [fst snd] in *. subst r.
  exists m'. split_and!; [done|done|by apply publish_inv].
Qed.

(** ** The thread of [main] *)

(** Where [main] goes from here. *)
Definition next_pc g : main_pc :=
  match pc g with
  | SetCallbacks => SetHandler | SetHandler => SubscribeTopics | SubscribeTopics => StartMqtt
  | StartMqtt => OpenZenoh | OpenZenoh => DeclareSubscriber | DeclareSubscriber => AuthSetup
  | AuthSetup => CreateVehicle | CreateVehicle => VehicleLogin | VehicleLogin => SetPointer
  | SetPointer => InstallHandlers | InstallHandlers => StartGrpc | StartGrpc => WaitGrpc
  | WaitGrpc => ResetZenoh | ResetZenoh => StopMqtt | StopMqtt => JoinMqtt
  | JoinMqtt => Destroy AtServer
  | Destroy p => match stop_next p (grpc g) with Some p' => Destroy p' | None => DestroyMqtt end
  | DestroyMqtt => Exited | Exited => Exited
  end.

(** What a statement of [main] does. *)
Definition main_result cs g : Prop :=
  ∃ g', main_step cfg zenoh_opens builds g = (Ret tt, g') ∧ inv cs g' ∧ pc g' = next_pc g ∧
    signal g' = signal g ∧ g_shutdown g' = g_shutdown g ∧
    (pc g = StartGrpc → GrpcServer.server_ (grpc g') = builds (Config.grpc_listen cfg) ∧
                        GrpcServer.server_down (grpc g') = false) ∧
    ((12 <=? rank (pc g)) = true → later (grpc g) (grpc g')).

(** The statements of [main] that throw out of it, which ends the process: the session
    cannot be opened; the body of a request, or the first location, holds a text that is
    not UTF-8. *)
Definition ends_process g : Prop :=
  match pc g with
  | OpenZenoh => zenoh_opens (zenoh_config cfg) = false
  | CreateVehicle =>
      json_dump (object (AuthService.vehicle_fields cfg)) = None ∧
      AuthService.undumpable (auth g) = Exn JsonException
  | VehicleLogin =>
      json_dump (object (Gateway.start_fields cfg)) = None ∧
      fst (AuthService.vechile_login cfg (auth g)) = Ret true
  | _ => False
  end.

Definition main_throws g : Prop :=
  ends_process g ∧ ∃ ex, fst (main_step cfg zenoh_opens builds g) = Exn ex.

Lemma ends_throws g : ends_process g → main_throws g.
Proof.
  intros He. split; [done|]. unfold ends_process in He. unfold main_step. rewrite bind_unfold.
  cbn [get]. destruct (pc g) eqn:Hpc; try done.
  - rewrite He. by eexists.
  - destruct He as [Hd Hu]. rewrite bind_unfold. unfold on_startup, Gateway.on_auth, zoom.
    cbn [fst snd]. destruct (AuthService.create_vehicle_undumpable cfg 3 false false (auth g) Hd)
      as (n & Hrun & _).
    fold (AuthService.create_vehicle cfg false false) in Hrun. rewrite Hrun, Hu. by eexists.
  - destruct He as [Hd Hl]. rewrite bind_unfold. unfold on_startup, zoom, Gateway.login_and_locate.
    rewrite bind_unfold. unfold Gateway.on_auth, zoom. cbn [fst snd].
    destruct (AuthService.vechile_login cfg (auth g)) as [o n]. cbn [fst] in Hl. subst o.
    rewrite bind_json_try, Hd. by eexists.
Qed.

(** The statements that only go on. *)
Ltac fields_of Hi :=
  destruct Hi as [I1 I2 I3 I4 I5 I6 I7 I8 I9 I10 I11 I12 I13 I14];
  cbn -[server_inv stop_at same_flags] in I1, I2, I3, I4, I5, I6, I7, I8, I9, I10, I11, I12, I13, I14.
Ltac plain_step :=
  eexists; split; [reflexivity|]; split; [|by split];
  split; cbn -[server_inv stop_at same_flags]; try done; try (intros; by auto with lia);
  try by apply invariant_user.

Lemma plain_ok cs g :
  inv cs g → pc g ∈ [SetCallbacks; DeclareSubscriber; SetPointer; InstallHandlers; ResetZenoh] →
  main_result cs g.
Proof.
  intros Hi Hpc. destruct g as [m a z gp h sd p sg]. cbn [pc] in Hpc. unfold main_result.
  rewrite !elem_of_cons, elem_of_nil in Hpc. destruct Hpc as [->|[->|[->|[->|[->|[]]]]]];
    fields_of Hi; plain_step.
Qed.

Lemma invariant_idle m m' :
  MqttClient.invariant m → MqttClient.client_ m = false →
  MqttClient.client_ m' = false → MqttClient.ioc_ m' = false → MqttClient.runner_ m' = false →
  MqttClient.started_ m' = false → MqttClient.tasks m' = MqttClient.tasks m →
  MqttClient.armed m' = MqttClient.armed m → MqttClient.invariant m'.
Proof.
  intros [Hp Hs Hi Ha Ht] Hc Hc' Hio Hr Hst Htask Harm. destruct (Hi Hc) as (E1 & E2 & E3).
  split; rewrite ?Hc', ?Hio, ?Hr, ?Hst, ?Htask, ?Harm; try done; by intros.
Qed.

(** The client before and after its life. *)
Lemma mqtt_setup_ok cs g :
  inv cs g → pc g ∈ [SetHandler; SubscribeTopics] → main_result cs g.
Proof.
  intros Hi Hpc. destruct g as [m a z gp h sd p sg]. cbn [pc] in Hpc. unfold main_result.
  rewrite !elem_of_cons, elem_of_nil in Hpc. destruct Hpc as [->|[->|[]]]; fields_of Hi.
  - specialize (I5 ltac:(lia)). pose proof (MqttClient.inv_parts _ I1) as [J1 J2].
    rewrite I5 in J1, J2. plain_step. by apply (invariant_idle m).
  - specialize (I5 ltac:(lia)). pose proof (MqttClient.inv_parts _ I1) as [J1 J2].
    rewrite I5 in J1, J2. eexists. split.
    { unfold main_step. rewrite bind_unfold. cbn [get pc]. rewrite bind_unfold.
      unfold on_mqtt, zoom. cbn [mqtt]. rewrite (MqttClient.subscribe_stored _ m I4). reflexivity. }
    split; [|by split].
    split; cbn -[server_inv stop_at same_flags]; try done; try (intros; by auto with lia).
    by apply (invariant_idle m).
Qed.

Lemma mqtt_start_ok cs g : inv cs g → pc g = StartMqtt → main_result cs g.
Proof.
  intros Hi Hpc. destruct g as [m a z gp h sd p sg]. cbn [pc] in Hpc. subst p. fields_of Hi.
  eexists. split.
  { unfold main_step. rewrite bind_unfold. cbn [get pc]. rewrite bind_unfold.
    unfold on_mqtt, zoom. cbn [mqtt]. rewrite (MqttClient.start_run m I4). reflexivity. }
  split; [|by split].
  split; cbn -[server_inv stop_at same_flags]; try done; try (intros; by auto with lia).
  destruct m. unfold MqttClient.network, MqttClient.endpoint in *. cbn in *. unfold broker in *.
    by injection I14 as -> -> -> ->.
Qed.

Lemma mqtt_stop_ok cs g : inv cs g → pc g = StopMqtt → main_result cs g.
Proof.
  intros Hi Hpc. destruct g as [m a z gp h sd p sg]. cbn [pc] in Hpc. subst p. fields_of Hi.
  destruct (MqttClient.inv_started _ I1 I4) as (J1 & J2 & J3). eexists. split.
  { unfold main_step. rewrite bind_unfold. cbn [get pc]. rewrite bind_unfold.
    unfold on_mqtt, zoom. cbn [mqtt]. rewrite (MqttClient.stop_begin_run m I4 J2). reflexivity. }
  split; [|by split].
  split; cbn -[server_inv stop_at same_flags]; try done; try (intros; by auto with lia).
  destruct I1 as [K1 K2 K3 K4 K5]. split; simpl; try done; rewrite ?J1; done.
Qed.

Lemma mqtt_join_ok cs g : inv cs g → pc g = JoinMqtt → main_result cs g.
Proof.
  intros Hi Hpc. destruct g as [m a z gp h sd p sg]. cbn [pc] in Hpc. subst p. fields_of Hi.
  plain_step.
  - split; simpl; try done; try lia; rewrite ?I4; done.
  - by intros p [= <-].
Qed.

Lemma mqtt_destroy_ok cs g : inv cs g → pc g = DestroyMqtt → main_result cs g.
Proof.
  intros Hi Hpc. destruct g as [m a z gp h sd p sg]. cbn [pc] in Hpc. subst p. fields_of Hi.
  eexists. split.
  { unfold main_step. rewrite bind_unfold. cbn [get pc]. rewrite bind_unfold.
    unfold on_mqtt, zoom. cbn [mqtt]. unfold MqttClient.destroy.
    rewrite (bind_run _ _ _ _ _ (MqttClient.stop_begin_idle m I4)). reflexivity. }
  split; [|by split].
  split; cbn -[server_inv stop_at same_flags]; try done; try (intros; by auto with lia).
Qed.

(** The requests of the start-up. *)
Lemma requested cs g a' m' p' :
  inv cs g → published (mqtt g) m' → 6 <= rank (pc g) <= 8 → rank p' = S (rank (pc g)) →
  inv cs (set_pc p' (set_startup (a', m') g)).
Proof.
  intros Hi Hp Hr Hr'. pose proof (publish_inv cs g m' Hi Hp) as Hi'.
  destruct g as [m a z gp h sd p sg]. cbn [pc] in Hr, Hr'.
  destruct p; cbn in Hr; try lia; fields_of Hi';
    destruct p'; cbn in Hr'; try lia;
    split; cbn -[server_inv stop_at same_flags]; try done; by auto with lia.
Qed.

(** A request that returns, and sends at most something. *)
Lemma startup_goes {A} cs g (m : M (AuthService.world N * client) A) p' x n p :
  main_step cfg zenoh_opens builds g = (on_startup m ;; goto p') g → next_pc g = p' →
  inv cs g → 6 <= rank (pc g) <= 8 → rank p' = S (rank (pc g)) →
  m (auth g, mqtt g) = (Ret x, (n, p)) → published (mqtt g) p → main_result cs g.
Proof.
  intros Hstep Hnext Hi Hr Hr' Hm Hp. unfold main_result. rewrite Hstep, bind_unfold.
  unfold on_startup, zoom. rewrite Hm. eexists. split; [reflexivity|].
  split_and!; [by apply requested|done|done|done|..].
  - intros Hpc. rewrite Hpc in Hr. cbn in Hr. lia.
  - intros Hle%Nat.leb_le. lia.
Qed.

Ltac at_statement Hpc := unfold main_step, next_pc; rewrite ?bind_unfold; cbn [get]; by rewrite Hpc.

Lemma setup_ok cs g : inv cs g → pc g = AuthSetup → main_result cs g.
Proof.
  intros Hi Hpc. destruct (AuthService.setup_returns cfg (auth g)) as (b & n & Hrun).
  apply (startup_goes cs g (Gateway.on_auth (AuthService.setup cfg)) CreateVehicle b n (mqtt g));
    rewrite ?Hpc; cbn [rank]; [at_statement Hpc..|done|lia|done| |apply published_refl].
  unfold Gateway.on_auth, zoom. cbn [fst snd]. by rewrite Hrun.
Qed.

Lemma create_ok cs g : inv cs g → pc g = CreateVehicle → main_result cs g ∨ main_throws g.
Proof.
  intros Hi Hpc.
  assert (Hgo : ∀ (b : bool) n,
    AuthService.create_vehicle cfg false false (auth g) = (Ret b, n) → main_result cs g).
  { intros b n Hrun.
    apply (startup_goes cs g (Gateway.on_auth (AuthService.create_vehicle cfg false false))
      VehicleLogin b n (mqtt g));
      rewrite ?Hpc; cbn [rank]; [at_statement Hpc..|done|lia|done| |apply published_refl].
    unfold Gateway.on_auth, zoom. cbn [fst snd]. by rewrite Hrun. }
  destruct (json_dump (object (AuthService.vehicle_fields cfg))) as [body|] eqn:Hd.
  - destruct (AuthService.create_vehicle_bounded cfg 4 false false (auth g) body Hd)
      as (b & n & ps & Hrun & _); [unfold AuthService.budget; lia|]. left. by eapply Hgo.
  - destruct (AuthService.create_vehicle_undumpable cfg 3 false false (auth g) Hd) as (n & Hrun & _).
    fold (AuthService.create_vehicle cfg false false) in Hrun.
    destruct (AuthService.undumpable (auth g)) as [b|ex|] eqn:Hu; [left; by eapply Hgo|right|];
      unfold AuthService.undumpable in *; repeat case_match; simplify_eq.
    apply ends_throws. unfold ends_process, AuthService.undumpable. rewrite Hpc.
    by repeat case_match.
Qed.

Lemma login_ok cs g : inv cs g → pc g = VehicleLogin → main_result cs g ∨ main_throws g.
Proof.
  intros Hi Hpc.
  destruct (Gateway.login_and_locate_run cfg (auth g) (mqtt g)) as (o & n & p & Hrun & Hp & Ho).
  destruct Ho as [->|(-> & Hd & Hl)]; [left|right].
  - apply (startup_goes cs g (Gateway.login_and_locate cfg) SetPointer tt n p);
      rewrite ?Hpc; cbn [rank]; [at_statement Hpc..|done|lia|done|done|].
    destruct Hp as [-> |[text ->]]; [apply published_refl|apply publish_published, published_refl].
  - apply ends_throws. unfold ends_process. by rewrite Hpc.
Qed.

Lemma zenoh_ok cs g : inv cs g → pc g = OpenZenoh → main_result cs g ∨ main_throws g.
Proof.
  intros Hi Hpc. destruct (zenoh_opens (zenoh_config cfg)) eqn:Hz.
  - left. destruct g as [m a z gp h sd p sg]. cbn [pc] in Hpc. subst p. fields_of Hi.
    eexists. split. { unfold main_step. rewrite bind_unfold. cbn [get pc]. rewrite Hz. reflexivity. }
    split; [|by split]. split; cbn -[server_inv stop_at same_flags]; try done; by auto with lia.
  - right. apply ends_throws. unfold ends_process. by rewrite Hpc.
Qed.

(** The server. *)
Lemma grpc_start_ok cs g : inv cs g → pc g = StartGrpc → signal g = None → main_result cs g.
Proof.
  intros Hi Hpc Hsig.
  destruct (start_ok cs (grpc g) (builds (Config.grpc_listen cfg))) as (s' & Hrun & Hs & Hsv & Hd & Hth).
  { pose proof (i_server _ _ Hi) as Hs. rewrite Hpc in Hs. apply Hs. }
  exists (set_pc WaitGrpc (set_grpc s' g)). split.
  { unfold main_step. rewrite bind_unfold. cbn [get]. rewrite Hpc, bind_unfold.
    unfold on_grpc, zoom. by rewrite Hrun. }
  split; [|unfold next_pc; by rewrite Hpc].
  destruct g as [m a z gp h sd p sg]. cbn [pc signal] in Hpc, Hsig. subst p sg. fields_of Hi.
  split; cbn -[server_inv stop_at same_flags]; try done; try (by auto with lia).
  - by apply invariant_user.
  - intros _. by rewrite Hd.
Qed.

Lemma wait_ok cs g :
  inv cs g → pc g = WaitGrpc → main_ready g → signal g = None → main_result cs g.
Proof.
  intros Hi Hpc Hready Hsig. unfold main_ready in Hready. rewrite Hpc in Hready.
  pose proof (i_server _ _ Hi) as Hs. pose proof (i_quiet _ _ Hi Hsig) as Hq.
  assert (Hj : GrpcServer.cq_thread_ (grpc g) = false ∧
    (GrpcServer.server_ (grpc g) = true → GrpcServer.server_down (grpc g) = true)).
  { rewrite Hpc in Hs. unfold GrpcServer.wait_returns in Hready. destruct Hs as [Hr|[H1 H2 _]].
    - rewrite (r_server _ _ Hr) in Hready. simpl in Hready. auto.
    - split; [done|]. congruence. }
  destruct g as [m a z gp h sd p sg]. cbn [pc signal] in Hpc, Hsig. subst p sg. fields_of Hi.
  plain_step.
Qed.

Lemma destroy_ok cs g p :
  inv cs g → pc g = Destroy p → main_ready g → signal g = None → main_result cs g.
Proof.
  intros Hi Hpc Hready Hsig. unfold main_ready in Hready. rewrite Hpc in Hready.
  destruct (i_joined _ _ Hi) as [Hth Hdown]; [rewrite Hpc; cbn; lia|].
  destruct (stop_ok cs true (grpc g) (signal g) p) as (s' & Hrun & Hs & Hafter & Hl).
  { pose proof (i_server _ _ Hi) as Hs. by rewrite Hpc in Hs. }
  { by apply (i_destroy _ _ Hi). }
  { done. }
  { intros _. by rewrite Hsig. }
  pose proof Hl as [L1 L2 L3 L4 L5 _].
  exists (set_pc (next_pc g) (set_grpc s' g)). split_and!; [| |done|done|done|by rewrite Hpc|done].
  { unfold main_step, next_pc. rewrite bind_unfold. cbn [get]. rewrite Hpc, bind_unfold.
    unfold on_grpc, zoom. rewrite Hrun. by destruct (stop_next p (grpc g)). }
  unfold next_pc. rewrite Hpc.
  destruct g as [m a z gp h sd pp sg]. cbn [pc signal] in Hpc, Hsig. subst pp sg. fields_of Hi.
  assert (Hm : MqttClient.invariant (MqttClient.set_user (orchestrator
    {| mqtt := m; auth := a; zenoh := z; g_grpc_ptr := gp; handling := h; g_shutdown := sd;
       pc := Destroy p; signal := None |}, s') m)) by by apply invariant_user.
  destruct (stop_next p _) as [p'|]; split; cbn -[server_inv stop_at same_flags] in *;
    try done; try (by auto with lia); rewrite ?L1; try (intros; by auto with lia).
  by intros q [= <-].
Qed.

Lemma main_ok cs g :
  inv cs g → main_ready g → signal g = None → main_result cs g ∨ main_throws g.
Proof.
  intros Hi Hready Hsig. destruct (pc g) eqn:Hpc;
    first [ by apply zenoh_ok | by apply create_ok | by apply login_ok | left ];
    first
      [ apply plain_ok; [done|rewrite Hpc; set_solver]
      | apply mqtt_setup_ok; [done|rewrite Hpc; set_solver]
      | by apply mqtt_start_ok | by apply mqtt_stop_ok | by apply mqtt_join_ok
      | by apply mqtt_destroy_ok | by apply setup_ok
      | by apply grpc_start_ok | by apply wait_ok | by eapply destroy_ok
      | by unfold main_ready in Hready; rewrite Hpc in Hready ].
Qed.

(** ** The signal handler *)

Lemma signal_ok cs g :
  inv cs g → allowed g Signal → orderly g Signal →
  run_event cfg zenoh_opens builds Signal g = (Ret tt, set_signal (Some AtServer) (set_shutdown g)) ∧
  inv cs (set_signal (Some AtServer) (set_shutdown g)).
Proof.
  intros Hi (Hh & _ & _) Hpc. cbn [orderly] in Hpc.
  assert (Hptr : g_grpc_ptr g = true).
  { rewrite (i_handling _ _ Hi) in Hh. rewrite (i_pointer _ _ Hi). apply Nat.leb_le.
    apply Nat.leb_le in Hh. lia. }
  split.
  - cbn [run_event]. unfold signal_handler. rewrite bind_unfold. cbn [modify]. rewrite bind_unfold.
    cbn [get set_shutdown g_grpc_ptr pc]. by rewrite Hptr, decide_False.
  - destruct Hi. split; cbn -[server_inv stop_at rank]; try done. by intros p [= <-].
Qed.

Lemma signal_step_ok cs g p :
  inv cs g → signal g = Some p → stop_ready p (grpc g) →
  ∃ s', run_event cfg zenoh_opens builds SignalStep g =
      (Ret tt, set_signal (stop_next p (grpc g)) (set_grpc s' g)) ∧
    inv cs (set_signal (stop_next p (grpc g)) (set_grpc s' g)) ∧ later (grpc g) s'.
Proof.
  intros Hi Hsig Hready.
  assert (Hmain : ∀ q, pc g = Destroy q → q ≠ Joining).
  { intros q Hq ->. destruct (i_destroy _ _ Hi _ Hq) as (_ & _ & Hth).
    destruct (i_joined _ _ Hi) as [Hf _]; [rewrite Hq; cbn; lia|congruence]. }
  destruct (stop_ok cs (12 <=? rank (pc g)) (grpc g) (stopping g) p) as (s' & Hrun & Hs & Hafter & Hlater).
  { apply Hi. }
  { by apply (i_signal _ _ Hi). }
  { done. }
  { intros _ _. unfold stopping. destruct (pc g) eqn:Hpc; try done. intros [= ->].
    by apply (Hmain Joining). }
  exists s'. split.
  { cbn [run_event]. unfold signal_step. rewrite bind_unfold. cbn [get]. rewrite Hsig, bind_unfold.
    unfold on_grpc, zoom. by rewrite Hrun. }
  split; [|done]. pose proof (i_client _ _ Hi) as Hm. pose proof Hlater as [L1 L2 L3 L4 L5 _].
  destruct Hi; split; unfold grpc, orchestrator in *; cbn -[server_inv stop_at rank stop_next]
    in *; try done.
  - by apply invariant_user.
  - intros Hr. destruct (i_joined0 Hr). rewrite L1. auto.
  - intros q Hq. by eapply stop_at_later; [|apply Hmain|apply i_destroy0].
  - intros q Hq. by rewrite Hq in Hafter.
  - intros Hn _. rewrite Hn in Hafter. apply Hafter.
Qed.

(** ** Every step *)

(** What a step of each thread leaves alone. *)
Definition framed g (e : event) g' : Prop :=
  match e with
  | MainStep => pc g' = next_pc g ∧ signal g' = signal g ∧ g_shutdown g' = g_shutdown g ∧
      (pc g = StartGrpc → GrpcServer.server_ (grpc g') = builds (Config.grpc_listen cfg) ∧
                          GrpcServer.server_down (grpc g') = false) ∧
      ((12 <=? rank (pc g)) = true → later (grpc g) (grpc g'))
  | Signal => pc g' = pc g ∧ signal g' = Some AtServer ∧ g_shutdown g' = true ∧ grpc g' = grpc g
  | SignalStep => pc g' = pc g ∧ g_shutdown g' = g_shutdown g ∧
      signal g' = match signal g with Some p => stop_next p (grpc g) | None => None end ∧
      later (grpc g) (grpc g')
  | _ => pc g' = pc g ∧ signal g' = signal g ∧ g_shutdown g' = g_shutdown g ∧
      same_flags (grpc g) (grpc g') ∧
      stream_of g' = match e with
                     | Report o ok ev => exec (complete o ok ev) (stream_of g)
                     | _ => pushed_on (command_in e) (stream_of g)
                     end
  end.

(** A step that ran to its end. *)
Definition event_result cs g e : Prop :=
  ∃ g', run_event cfg zenoh_opens builds e g = (Ret tt, g') ∧
    inv (cs ++ option_list (command_in e)) g' ∧ framed g e g'.

(** In an orderly execution every step that is allowed runs to its end, keeps the
    invariant, and adds the command it received; or it is a statement of [main] that
    throws out of it. *)
Lemma event_ok cs g e :
  inv cs g → allowed g e → orderly g e → event_result cs g e ∨ e = MainStep ∧ main_throws g.
Proof.
  intros Hi Hal Hor. unfold event_result.
  destruct e as [| |msg|o ok ev|payload| |]; cbn [command_in option_list]; rewrite ?app_nil_r; [|left..].
  - destruct (main_ok cs g Hi Hal Hor) as [(g' & ? & ? & ? & ? & ? & ? & ?)|]; [left; by exists g'|by right].
  - destruct (task_ok cs g Hi Hal) as (m' & Hm & Hi' & Hf & Hw). exists (set_mqtt m' g).
    cbn [run_event]. unfold on_mqtt, zoom. rewrite Hm. by split_and!.
  - destruct (receive_ok cs g msg Hi Hal) as (m' & Hm & Hi' & Hf & Hw). exists (set_mqtt m' g).
    cbn [run_event]. unfold on_mqtt, zoom. rewrite Hm. by split_and!.
  - destruct (report_ok cs g o ok ev Hi Hal Hor) as (m' & [l ->] & Hrun & Hi').
    eexists. split; [exact Hrun|]. split; [exact Hi'|]. by repeat split.
  - destruct (location_ok cs g payload Hi) as (m' & [l ->] & Hrun & Hi').
    eexists. split; [exact Hrun|]. split; [exact Hi'|]. by repeat split.
  - destruct (signal_ok cs g Hi Hal Hor) as [Hrun Hi']. eexists. by split.
  - destruct Hal as [_ Hal]. destruct (signal g) as [p|] eqn:Hsig; [|done].
    destruct (signal_step_ok cs g p Hi Hsig Hal) as (s' & Hrun & Hi' & Hl). eexists.
    split; [exact Hrun|]. split; [exact Hi'|]. cbn [framed]. by rewrite Hsig.
Qed.

Lemma boot_inv a : inv [] (boot cfg a).
Proof.
  split; cbn -[server_inv stop_at]; try done; try (intros; by auto with lia); try lia.
  split; simpl; MqttClient.mqtt_solver.
Qed.

(** The invariant of the orderly executions. *)
Lemma steps_inv cs es g g' :
  inv cs g → steps cfg zenoh_opens builds orderly g es g' → inv (cs ++ received es) g'.
Proof.
  intros Hi. induction 1 as [|es g1 e g2 _ IH Hal Hor Hrun]; [by rewrite app_nil_r|].
  destruct (event_ok _ g1 e IH Hal Hor) as [(g' & Hrun' & Hi' & _)|(-> & _ & ex & Hex)];
    [|cbn [run_event] in Hrun; by rewrite Hrun in Hex].
  rewrite Hrun in Hrun'. injection Hrun' as <-.
  unfold received. rewrite omap_app, (assoc_L (++)).
  change (omap command_in es) with (received es). cbn [omap list_omap].
  by destruct (command_in e).
Qed.

Lemma orderly_inv a es g :
  steps cfg zenoh_opens builds orderly (boot cfg a) es g → inv (received es) g.
Proof. intros Hs. exact (steps_inv [] es _ g (boot_inv a) Hs). Qed.

End gateway.

End MainInv.
