(* ===== verification/MainTheorems.v ===== *)
(** * What the gateway guarantees *)

(** The theorems on the whole of [main], on top of the invariant of [MainInv]: in an
    orderly execution every step runs to its end but for three statements of the start-up,
    whose exceptions are told exactly; the vehicle gets the commands of the backend and
    the backend the reports of the vehicle, the gateway can be stopped and leaves nothing
    behind; and what happens when signals come at the wrong moment or on the wrong
    thread. *)

From S2P Require Import Prelude Double Json JsonModel Messages Router Orchestrator.
From S2P Require Import Stream StreamSeq StreamDelivery StreamErase Rpc GrpcServer Shutdown.
From S2P Require Import Config HttpClient Auth MqttClient Gateway Telemetry Main MainInv.

Module MainTheorems.
Import VehicleStreamHandler StreamSeq StreamDelivery StreamErase Main MainInv.
#[local] Existing Instances MqttClient.mqtt_publisher Shutdown.no_calls_dec AuthService.scripted_post.

Section gateway.
Context `{JL : JsonLaws} {N : Type} `{HP : HttpClient.HttpPost N}.
Variables (cfg : Config.Config) (zenoh_opens : list (string * string) → bool)
  (builds : string → bool).
Implicit Types (g : gateway (N:=N)) (cs : list GatewayCommand) (a : AuthService.world N).

Abbreviation run e g := (run_event cfg zenoh_opens builds e g).
Abbreviation orderly_steps := (steps cfg zenoh_opens builds orderly).

(** The configured texts are UTF-8, and the Zenoh session opens. *)
Definition good_environment : Prop :=
  AuthService.config_utf8 cfg ∧ zenoh_opens (zenoh_config cfg) = true.

Lemma good_goes_on g : good_environment → ¬ ends_process cfg zenoh_opens g.
Proof.
  intros [Hutf Hz] He. unfold ends_process in He.
  destruct (pc g); try done; [by rewrite Hz in He|destruct He as [Hd _]..].
  - destruct (AuthService.vehicle_dumps cfg Hutf). congruence.
  - destruct (Gateway.start_dumps cfg Hutf). congruence.
Qed.

Lemma reached a es g : orderly_steps (boot cfg a) es g → inv cfg (received es) g.
Proof. apply orderly_inv. Qed.

Lemma step_ok cs g e :
  inv cfg cs g → allowed g e → orderly g e → (e = MainStep → ¬ ends_process cfg zenoh_opens g) →
  ∃ g', run e g = (Ret tt, g') ∧ inv cfg (cs ++ option_list (command_in e)) g' ∧ framed cfg builds g e g'.
Proof.
  intros Hi Hal Hor He.
  destruct (event_ok cfg zenoh_opens builds cs g e Hi Hal Hor) as [Hr|[-> [Hends _]]]; [exact Hr|].
  by destruct (He eq_refl).
Qed.

(** What is not one of the three statements goes on. *)
Lemma goes_on g :
  pc g ∉ [OpenZenoh; CreateVehicle; VehicleLogin] → ¬ ends_process cfg zenoh_opens g.
Proof.
  rewrite !not_elem_of_cons. intros (H1 & H2 & H3 & _) He.
  unfold ends_process in He. destruct (pc g); auto.
Qed.

Lemma late_goes_on g : 9 <= rank (pc g) → ¬ ends_process cfg zenoh_opens g.
Proof.
  intros Hr. apply goes_on. intros Hpc. rewrite !elem_of_cons, elem_of_nil in Hpc.
  destruct Hpc as [E|[E|[E|[]]]]; rewrite E in Hr; cbn in Hr; lia.
Qed.

Lemma main_steps_app g es g' es' g'' :
  orderly_steps g es g' → orderly_steps g' es' g'' → orderly_steps g (es ++ es') g''.
Proof.
  intros H1 H2. induction H2; [by rewrite app_nil_r|]. rewrite (assoc_L (++)). by econstructor.
Qed.

Lemma main_steps_one g e g' :
  allowed g e → orderly g e → run e g = (Ret tt, g') → orderly_steps g [e] g'.
Proof. intros Ha Ho Hr. apply (steps_snoc _ _ _ _ g [] g e g'); [constructor|done..]. Qed.

(** ** Leaving [main] *)

Definition to_go (p : main_pc) : nat :=
  match p with
  | WaitGrpc => 9 | ResetZenoh => 8 | StopMqtt => 7 | JoinMqtt => 6 | Destroy AtServer => 5
  | Destroy AtQueue => 4 | Destroy AtJoin => 3 | Destroy Joining => 2 | DestroyMqtt => 1 | _ => 0
  end.

Definition only_main (es : list event) : Prop := Forall (λ e, e = MainStep) es.

Lemma only_main_received es : only_main es → received es = [].
Proof. by induction 1 as [|e es -> _ IH]. Qed.

(** Once [wait] has returned, [main] runs to its end. *)
Lemma main_exits n cs g :
  inv cfg cs g → signal g = None → 13 <= rank (pc g) → to_go (pc g) = n →
  ∃ es g', orderly_steps g es g' ∧ pc g' = Exited ∧ only_main es.
Proof.
  revert cs g. induction n as [n IH] using lt_wf_ind. intros cs g Hi Hsig Hr Hn.
  destruct (decide (pc g = Exited)) as [He|He].
  { exists [], g. split_and!; [constructor|done|constructor]. }
  destruct (i_joined _ _ _ Hi Hr) as [Hth Hdown].
  assert (Hready : main_ready g).
  { unfold main_ready. destruct (pc g) as [| | | | | | | | | | | | | | | |p| |] eqn:Hpc; try done.
    { by cbn in Hr; lia. }
    destruct p; try done.
    - intros Hsv. pose proof (i_server _ _ _ Hi) as Hs. rewrite Hpc in Hs.
      destruct Hs as [Hrun|[]]; [|congruence].
      destruct (running_shutdown _ _ Hrun) as (x & [_ Hx _] & <- & Hph). apply Hx.
      rewrite Hph. unfold phase_of. by rewrite Hth.
    - destruct (i_destroy _ _ _ Hi _ Hpc) as (_ & _ & ?). congruence. }
  destruct (step_ok cs g MainStep Hi Hready Hsig) as (g' & Hrun & Hi' & Hpc' & Hsig' & _).
  { intros _. apply late_goes_on. lia. }
  rewrite app_nil_r in Hi'.
  assert (Hlt : to_go (pc g') < n ∧ 13 <= rank (pc g')).
  { rewrite Hpc'. unfold next_pc. subst n.
    destruct (pc g) as [| | | | | | | | | | | | | | | |p| |]; cbn in Hr; cbn [to_go rank]; try lia;
      try done.
    destruct p; cbn [stop_next to_go rank]; rewrite ?Hth; cbn [to_go rank]; lia. }
  destruct (IH (to_go (pc g')) (proj1 Hlt) cs g' Hi') as (es & g2 & Hes & Hex & Hrec); try done.
  { congruence. }
  { apply Hlt. }
  exists ([MainStep] ++ es), g2. split_and!; [|done|by constructor].
  eapply main_steps_app; [by apply main_steps_one|exact Hes].
Qed.

Lemma stream_invariant cs g : inv cfg cs g → GrpcServer.server_ (grpc g) = true → invariant (stream_of g).
Proof.
  intros Hi Hsv. eapply running_invariant, server_is_running; [apply Hi|by left].
Qed.

(** ** Stopping *)

(** A step of [stop] that can be taken. *)
Lemma stop_one cs g p :
  inv cfg cs g → signal g = Some p → stop_ready p (grpc g) → pc g ≠ Exited →
  ∃ g', orderly_steps g [SignalStep] g' ∧ inv cfg cs g' ∧ pc g' = pc g ∧
    signal g' = stop_next p (grpc g) ∧ later (grpc g) (grpc g') ∧ g_shutdown g' = g_shutdown g.
Proof.
  intros Hi Hsig Hready Hne. assert (Hal : allowed g SignalStep) by (cbn [allowed]; by rewrite Hsig).
  destruct (step_ok cs g SignalStep Hi Hal I ltac:(done)) as (g' & Hrun & Hi' & Hpc & Hd & Hsig' & Hl).
  rewrite app_nil_r in Hi'. rewrite Hsig in Hsig'.
  exists g'. split_and!; try done. by apply main_steps_one.
Qed.

(** [server_->Shutdown()] has returned. *)
Definition down g : Prop :=
  GrpcServer.server_ (grpc g) = true ∧ GrpcServer.server_down (grpc g) = true.

Definition no_writes g : Prop := Forall (λ o, is_write o = false) (ops (stream_of g)).

Definition signal_to_go (s : option stop_pc) : nat :=
  match s with
  | Some AtServer => 4 | Some AtQueue => 3 | Some AtJoin => 2 | Some Joining => 1 | None => 0
  end.

(** What is left to do: the statements of [main], those of the handler's call of [stop],
    and the reports of the queue. *)
Definition left_to_do g : nat := to_go (pc g) + signal_to_go (signal g) + length (ops (stream_of g)).

(** The steps of the shutdown, and the signals that ask for another call of [stop]. *)
Definition working (e : event) : bool :=
  match e with MainStep | SignalStep | Report _ _ _ => true | _ => false end.
Definition is_signal (e : event) : bool := match e with Signal => true | _ => false end.
Definition count (f : event → bool) (es : list event) : nat := length (filter f es).

Lemma count_snoc f es e : count f (es ++ [e]) = count f es + (if f e then 1 else 0).
Proof. unfold count. rewrite filter_app, length_app. cbn. by destruct (f e). Qed.

Lemma down_running cs g :
  inv cfg cs g → down g → running cs (grpc g) ∧ 12 <= rank (pc g) ∧ invariant (stream_of g) ∧
    Shutdown.no_calls (stream_of g).
Proof.
  intros Hi [Hsv Hd].
  pose proof (server_is_running _ _ _ (i_server _ _ _ Hi) (or_introl Hsv)) as Hr.
  destruct (running_shutdown _ _ Hr) as (x & [Hx Hn _] & Hw & Hph). rewrite Hw in *.
  split_and!; [done| |exact Hx|].
  - pose proof (i_server _ _ _ Hi) as Hs. apply Nat.leb_le. destruct (12 <=? _); [done|].
    destruct Hs as [[Hf _ _] _]. congruence.
  - apply Hn. rewrite Hph. unfold phase_of. rewrite Hd. by repeat case_match.
Qed.

(** With the thread joined nothing is outstanding. *)
Lemma joined_ops cs g :
  inv cfg cs g → down g → GrpcServer.cq_thread_ (grpc g) = false → ops (stream_of g) = [].
Proof.
  intros Hi Hd Hth. destruct (down_running cs g Hi Hd) as (Hr & _).
  destruct (running_shutdown _ _ Hr) as (x & [_ _ Hj] & Hw & Hph). rewrite Hw in Hj.
  apply Hj. rewrite Hph. unfold phase_of. by rewrite Hth.
Qed.

(** What the queue still reports is refused requests. *)
Lemma down_requests cs g o :
  inv cfg cs g → down g → no_writes g → o ∈ ops (stream_of g) → ∃ h, o = OpRequest h.
Proof.
  intros Hi Hd Hw Ho. destruct (down_running cs g Hi Hd) as (_ & _ & Hinv & Hn).
  unfold no_writes in Hw. rewrite Forall_forall in Hw. specialize (Hw o Ho).
  destruct (outstanding_state _ o Hinv Ho Hw) as (x & Hx & He). pose proof (Hn _ _ Hx) as Hacc.
  destruct o as [h|h|h|h]; simpl in He, Hacc, Hw; rewrite ?Hacc in He; [eauto|done..].
Qed.

(** A push then only keeps its command for later, a report takes one off the queue. *)
Lemma down_push cs g c : inv cfg cs g → down g → ops (exec (push_command c) (stream_of g)) = ops (stream_of g).
Proof.
  intros Hi Hd. destruct (down_running cs g Hi Hd) as (_ & _ & Hinv & Hn).
  destruct (run_push _ c Hinv) as (w' & Hw & Heff). rewrite (exec_ret _ _ _ _ Hw).
  destruct (Shutdown.down_effect _ _ _ Hinv Hn Heff I ltac:(done))
    as [(c' & _ & ->)|(h & x & ev & [=] & _)]; done.
Qed.

Lemma down_report cs g o ok ev g' :
  inv cfg cs g → down g → no_writes g → allowed g (Report o ok ev) → orderly g (Report o ok ev) →
  stream_of g' = exec (complete o ok ev) (stream_of g) →
  no_writes g' ∧ S (length (ops (stream_of g'))) = length (ops (stream_of g)).
Proof.
  intros Hi Hd Hw (_ & Ho & Hreq) _ Hst. destruct (down_requests cs g o Hi Hd Hw Ho) as [h ->].
  destruct (down_running cs g Hi Hd) as (_ & _ & Hinv & Hn). destruct Hd as [_ Hdown].
  rewrite Hdown in Hreq. destruct ok; [done|].
  destruct (run_request (stream_of g) h false ev (outstanding_state _ _ Hinv Ho eq_refl)
    ltac:(done)) as (w' & Hw' & Heff).
  rewrite (exec_ret _ _ _ _ Hw') in Hst.
  assert (Hops : ops (stream_of g') = remove_one (OpRequest h) (ops (stream_of g))).
  { rewrite Hst. inversion Heff; [by subst|by simplify_eq..]. }
  unfold no_writes in *. rewrite Hops. split.
  - rewrite Forall_forall in Hw |- *. intros o ?%elem_of_remove_one. by apply Hw.
  - by rewrite (remove_one_perm _ _ Ho) at 2.
Qed.

(** A step of a server that is down: one thing less to do, or four more for a signal. *)
Definition one_less g e g' : Prop :=
  down g' ∧ no_writes g' ∧
  (if working e then 1 else 0) + left_to_do g' ≤ left_to_do g + (if is_signal e then 4 else 0).

Lemma down_signal_step cs g g' p :
  inv cfg cs g → down g → no_writes g → signal g = Some p →
  framed cfg builds g SignalStep g' → one_less g SignalStep g'.
Proof.
  intros Hi [Hsv Hd] Hw Hsig (Hpc & _ & Hsig' & Hl). rewrite Hsig in Hsig'.
  unfold one_less, down, no_writes, left_to_do, stream_of.
  rewrite (l_server _ _ Hl), (l_down _ _ Hl Hd), (l_stream _ _ Hl), Hpc, Hsig, Hsig'.
  split_and!; [done|done|exact Hw|]. destruct p; cbn [stop_next signal_to_go working is_signal];
    try case_match; cbn [signal_to_go]; lia.
Qed.

Lemma down_main_step cs g g' :
  inv cfg cs g → down g → no_writes g → main_ready g → signal g = None →
  framed cfg builds g MainStep g' → one_less g MainStep g'.
Proof.
  intros Hi Hdown Hw Hready Hsig (Hpc & Hsig' & _ & _ & Hl).
  destruct (down_running cs g Hi Hdown) as (_ & Hr & _). destruct Hdown as [Hsv Hd].
  specialize (Hl (proj2 (Nat.leb_le _ _) Hr)). pose proof (i_quiet _ _ _ Hi Hsig Hd) as Hth.
  unfold one_less, down, no_writes, left_to_do, stream_of.
  rewrite (l_server _ _ Hl), (l_down _ _ Hl Hd), (l_stream _ _ Hl), Hpc, Hsig', Hsig.
  split_and!; [done|done|exact Hw|]. unfold next_pc, main_ready in *.
  destruct (pc g) as [| | | | | | | | | | | | | | | |p| |]; cbn in Hr; try lia; cbn; try lia.
  destruct p; cbn; rewrite ?Hth; cbn; lia.
Qed.

Lemma down_event cs g e g' :
  inv cfg cs g → down g → no_writes g → allowed g e → orderly g e → run e g = (Ret tt, g') →
  (∃ cs', inv cfg cs' g') ∧ one_less g e g'.
Proof.
  intros Hi Hd Hw Hal Hor Hrun. destruct (down_running cs g Hi Hd) as (_ & Hr & _).
  destruct (step_ok cs g e Hi Hal Hor) as (g1 & Hrun' & Hi' & Hf);
    [intros _; apply late_goes_on; lia|].
  rewrite Hrun in Hrun'. injection Hrun' as <-. split; [by eexists|].
  assert (Hkeep : ∀ n, same_flags (grpc g) (grpc g') → pc g' = pc g → signal g' = signal g →
    no_writes g' → n + length (ops (stream_of g')) ≤ length (ops (stream_of g)) →
    down g' ∧ no_writes g' ∧ n + left_to_do g' ≤ left_to_do g + 0).
  { intros n (F1 & F2 & _) F3 F4 Hw' Hn. unfold down, left_to_do. rewrite F1, F2, F3, F4.
    destruct Hd. split_and!; [done..|]. lia. }
  assert (Hquiet : ops (stream_of g') = ops (stream_of g) → no_writes g' ∧
    0 + length (ops (stream_of g')) ≤ length (ops (stream_of g))).
  { intros Ho. unfold no_writes. by rewrite Ho. }
  destruct e as [| |[msg|]|o ok ev|payload| |]; cbn [allowed orderly] in Hal, Hor.
  - by eapply down_main_step.
  - destruct Hf as (F1 & F2 & F3 & F4 & F5). destruct Hquiet as [Q1 Q2]; [by rewrite F5|]. by apply Hkeep.
  - destruct Hf as (F1 & F2 & F3 & F4 & F5). destruct Hquiet as [Q1 Q2]; [|by apply Hkeep].
    rewrite F5. destruct (command_in _) as [c|]; [|done]. by eapply down_push.
  - destruct Hf as (F1 & F2 & F3 & F4 & F5). destruct Hquiet as [Q1 Q2]; [by rewrite F5|]. by apply Hkeep.
  - destruct Hf as (F1 & F2 & F3 & F4 & F5).
    destruct (down_report cs g o ok ev g' Hi Hd Hw Hal Hor F5) as [Q1 Q2]. apply (Hkeep 1); try done. lia.
  - destruct Hf as (F1 & F2 & F3 & F4 & F5). destruct Hquiet as [Q1 Q2]; [by rewrite F5|]. by apply Hkeep.
  - destruct Hf as (F1 & F2 & F3 & F4). destruct Hal as (_ & Hs & _).
    unfold one_less, down, no_writes, left_to_do, stream_of. rewrite F1, F2, F4, Hs.
    destruct Hd. split_and!; [done|done|exact Hw|]. cbn [working is_signal signal_to_go]. lia.
  - destruct Hal as [_ Hal]. destruct (signal g) as [p|] eqn:Hs; [|done]. by eapply down_signal_step.
Qed.

Lemma down_steps cs g es g' :
  inv cfg cs g → down g → no_writes g → orderly_steps g es g' →
  (∃ cs', inv cfg cs' g') ∧ down g' ∧ no_writes g' ∧
  count working es + left_to_do g' ≤ left_to_do g + 4 * count is_signal es.
Proof.
  intros Hi Hd Hw Hs. induction Hs as [|es g1 e g2 _ IH Hal Hor Hrun].
  { split_and!; [by eexists|done..|cbn; lia]. }
  destruct IH as ([cs1 Hi1] & Hd1 & Hw1 & Hle).
  destruct (down_event cs1 g1 e g2 Hi1 Hd1 Hw1 Hal Hor Hrun) as (Hi2 & Hd2 & Hw2 & Hle2).
  rewrite !count_snoc. split_and!; [done..|]. destruct (working e), (is_signal e); lia.
Qed.

(** Until [main] has returned, some thread of the shutdown can go on. *)
Lemma down_progress cs g :
  inv cfg cs g → down g → no_writes g → pc g ≠ Exited →
  ∃ e, working e = true ∧ allowed g e ∧ orderly g e ∧ fst (run e g) = Ret tt.
Proof.
  intros Hi Hd Hw Hpc. destruct (down_running cs g Hi Hd) as (Hrun & Hr & Hinv & Hn).
  assert (Hgo : ∀ e, working e = true → allowed g e → orderly g e →
    ∃ e, working e = true ∧ allowed g e ∧ orderly g e ∧ fst (run e g) = Ret tt).
  { intros e Hwk Hal Hor. exists e. split_and!; [done..|].
    destruct (step_ok cs g e Hi Hal Hor) as (g1 & -> & _); [intros _; apply late_goes_on; lia|done]. }
  destruct (signal g) as [p|] eqn:Hs.
  - destruct (decide (stop_ready p (grpc g))) as [Hready|Hready].
    { apply (Hgo SignalStep); [done|cbn [allowed]; by rewrite Hs|done]. }
    destruct p; [by destruct Hready; intros _|by destruct Hready..|].
    cbn [stop_ready] in Hready.
    destruct (i_signal _ _ _ Hi _ Hs) as (_ & Hq & Hth). specialize (Hq (r_queue _ _ Hrun)).
    destruct (ops (stream_of g)) as [|o l] eqn:Hops; [by destruct Hready|].
    assert (Ho : o ∈ ops (stream_of g)) by (rewrite Hops; by left).
    destruct (down_requests cs g o Hi Hd Hw Ho) as [h ->].
    apply (Hgo (Report (OpRequest h) false EvNotSet)); [done| |].
    + split_and!; [done|done|by rewrite andb_false_r].
    + by split; [|intros [=]].
  - pose proof (i_quiet _ _ _ Hi Hs (proj2 Hd)) as Hth.
    apply (Hgo MainStep); [done| |done]. cbn [allowed]. unfold main_ready.
    destruct (pc g) as [| | | | | | | | | | | | | | | |p| |] eqn:Hp; try done.
    + unfold GrpcServer.wait_returns. destruct Hd as [-> ->]. done.
    + destruct p; [by intros _|done..|]. by destruct (i_destroy _ _ _ Hi _ Hp) as (_ & _ & Hf); rewrite Hth in Hf.
Qed.

(** ** The theorems *)

(** C2. Nothing goes wrong in the gateway as a whole, three statements of [main]'s start-up
    apart. Whatever the configuration, whatever the backend sends by MQTT, whatever a
    vehicle sends, whatever Zenoh delivers, and whenever a signal comes: every step of every
    thread runs to its end, without an exception and without undefined behaviour, when
    signals are handled by the thread of [main] before the server is destroyed, what
    vehicles send is UTF-8, and no write outlives its handler. The three statements throw
    out of [main], which ends the process, exactly in the cases of [ends_process]: the
    Zenoh session does not open; [create_vehicle] has to post, or a vehicle that has logged
    in has to publish, a configured text that is not UTF-8. None of them is met when the
    session opens and the configured texts are UTF-8. *)
Theorem gateway_safe a es g e
  (Hs : orderly_steps (boot cfg a) es g) (Hal : allowed g e) (Hor : orderly g e) :
  (fst (run e g) = Ret tt ∧ ¬ (e = MainStep ∧ ends_process cfg zenoh_opens g) ∨
   e = MainStep ∧ ends_process cfg zenoh_opens g ∧ ∃ ex, fst (run e g) = Exn ex) ∧
  (good_environment → fst (run e g) = Ret tt).
Proof.
  pose proof (event_ok cfg zenoh_opens builds _ g e (reached a es g Hs) Hal Hor) as Hev.
  split; [destruct Hev as [(g' & Hrun & _)|(-> & Hends & Hex)]|].
  - left. rewrite Hrun. split; [done|]. intros [-> He].
    destruct (ends_throws cfg zenoh_opens builds g He) as [_ [ex Hex]].
    cbn [run_event] in Hrun. by rewrite Hrun in Hex.
  - right. by split_and!.
  - intros Henv. destruct Hev as [(g' & -> & _)|(_ & Hends & _)]; [done|].
    by destruct (good_goes_on g Henv).
Qed.

(** C1. The gateway implements the stream: in every orderly execution the state of the
    stream is that of a sequential execution whose pushes are exactly the commands
    carried by the MQTT messages received, in order, those that came before the server
    was started included. So the guarantees on sequential executions, order and
    conservation of commands among them, hold of the gateway; without a server all the
    commands wait. *)
Theorem gateway_refines_stream a es g (Hs : orderly_steps (boot cfg a) es g) :
  if GrpcServer.server_ (grpc g)
  then ∃ es', StreamSeq.steps (init_world tt) es' (stream_of g) ∧ pushed es' = received es
  else stream_of g = set_pending (received es) (empty_world tt).
Proof.
  pose proof (i_server _ _ _ (reached a es g Hs)) as Hi. unfold server_inv in Hi.
  assert (Hcase : running (received es) (grpc g) ∨ unstarted (received es) (grpc g))
    by (destruct (_ <=? _); [done|right; apply Hi]).
  destruct Hcase as [[-> _ _ _ (l & x & Hl & Hw & _ & Hp)]|[-> _ Hu]]; [|done].
  exists (omap Shutdown.stream_event l). split; [|exact Hp]. unfold stream_of. rewrite <- Hw.
  exact (Shutdown.acts_steps l _ _ Hl).
Qed.

(** C12. What the vehicle reports reaches the broker: when the MQTT client is started, the
    report of a read with an exact event sends exactly one MQTT message, and the message
    reads back as the event. *)
Theorem report_reaches_broker a es g h ev
  (Hs : orderly_steps (boot cfg a) es g) (Hal : allowed g (Report (OpRead h) true ev))
  (Hex : Telemetry.event_exact ev) (Hrep : Telemetry.is_report ev)
  (Hon : MqttClient.started_ (mqtt g) = true) :
  ∃ g' topic text, run (Report (OpRead h) true ev) g = (Ret tt, g') ∧
    MqttClient.sent (mqtt g') = MqttClient.sent (mqtt g) ++ [(topic, text)] ∧
    Telemetry.read_event (topic, text) = Some ev.
Proof.
  pose proof (reached a es g Hs) as Hi. destruct Hal as (Hth & Ho & _).
  destruct (MqttClient.inv_started _ (i_client _ _ _ Hi) Hon) as (Hc & _).
  pose proof (r_server _ _ (server_is_running _ _ _ (i_server _ _ _ Hi) (or_intror Hth))) as Hsv.
  destruct (outstanding_state _ _ (stream_invariant _ g Hi Hsv) Ho eq_refl) as (x & Hx & He).
  simpl in Hx, He. case_bool_decide as Hread; [|done].
  set (w := with_publisher (mqtt g) (stream_of g)).
  pose proof (Telemetry.report_published ev (read_world h ev x w) Hex) as Hpub.
  rewrite (Is_true_true_1 _ Hrep) in Hpub. destruct Hpub as (topic & text & Hrun & Hback).
  assert (Hcomp : complete (OpRead h) true ev w = (Ret tt,
    set_ops (ops (read_world h ev x w) ++ [OpRead h]) (set_publisher (snd (publish topic text (mqtt g)))
      (read_world h ev x w)))).
  { apply complete_run. cbv beta iota. rewrite (read_run w h ev x Hx Hread).
    by rewrite (bind_run _ _ _ _ _ Hrun). }
  eexists _, topic, text. split_and!; [|..|exact Hback].
  - cbn [run_event]. unfold on_stream. fold w. rewrite Hcomp. reflexivity.
  - simpl. unfold publish, MqttClient.mqtt_publisher, MqttClient.publish_message.
    rewrite bind_unfold. cbn [get]. by rewrite Hon, Hc.
Qed.

(** A signal that finds [main] waiting takes the server down, unless it finds a vehicle
    connected: the handler runs, and [server_->Shutdown()] returns as soon as no call is
    left. *)
Theorem signal_takes_down a es g
  (Hs : orderly_steps (boot cfg a) es g) (Hpc : pc g = WaitGrpc) (Hsig : signal g = None)
  (Hsv : GrpcServer.server_ (grpc g) = true) :
  ∃ g1, orderly_steps g [Signal] g1 ∧
    (allowed g1 SignalStep ↔ Shutdown.no_calls (stream_of g)) ∧
    (Shutdown.no_calls (stream_of g) → ∃ g2, orderly_steps g1 [SignalStep] g2 ∧ down g2).
Proof.
  pose proof (reached a es g Hs) as Hi.
  assert (Hal : allowed g Signal).
  { split_and!; [|done|congruence]. rewrite (i_handling _ _ _ Hi). by rewrite Hpc. }
  assert (Hor : orderly g Signal) by (cbn [orderly]; congruence).
  destruct (step_ok _ g Signal Hi Hal Hor ltac:(done)) as (g1 & Hrun & I1 & P1 & G1 & _ & Hgrpc).
  assert (Hal1 : allowed g1 SignalStep ↔ Shutdown.no_calls (stream_of g)).
  { cbn [allowed]. rewrite G1. unfold stop_ready, stream_of. rewrite Hgrpc, P1, Hpc. naive_solver. }
  exists g1. split_and!; [by apply main_steps_one|done|]. intros Hn.
  destruct (stop_one _ g1 AtServer I1 G1 ltac:(by apply Hal1 in Hn as [_ Hn]; rewrite G1 in Hn)
    ltac:(congruence)) as (g2 & S2 & I2 & P2 & G2 & L2 & _).
  exists g2. split; [done|]. pose proof (i_signal _ _ _ I2 _ G2) as Hd.
  assert (Hsv2 : GrpcServer.server_ (grpc g2) = true) by (rewrite (l_server _ _ L2); congruence).
  split; [done|]. by apply Hd.
Qed.

(** C13. The shutdown completes. Once [server_->Shutdown()] has returned, and no write is in
    flight, [main] cannot but return: in every orderly continuation, whatever comes in
    between, the steps of the shutdown (of [main], of the signal handler's call of [stop],
    of the queue that reports the refused requests) are at most those left to do, and four
    for every further signal; and until [main] has returned one of them can be taken, and
    runs to its end. [server_->Shutdown()] itself waits for the vehicles that are
    connected, and the claim says nothing of how long they stay. *)
Theorem shutdown_completes a es g es' g'
  (Hs : orderly_steps (boot cfg a) es g) (Hdown : down g) (Hw : no_writes g)
  (Hs' : orderly_steps g es' g') :
  count working es' + left_to_do g' ≤ left_to_do g + 4 * count is_signal es' ∧
  (pc g' = Exited ∨
   ∃ e, working e = true ∧ allowed g' e ∧ orderly g' e ∧ fst (run e g') = Ret tt).
Proof.
  destruct (down_steps _ g es' g' (reached a es g Hs) Hdown Hw Hs') as ([cs Hi] & Hd & Hw' & Hle).
  split; [done|]. destruct (decide (pc g' = Exited)) as [|Hpc]; [by left|right].
  by eapply down_progress.
Qed.

(** C20. A gateway that has exited has cleaned up: no handler is left on the heap, gRPC owes
    no completion, the thread of the queue is joined, the MQTT client is gone with its
    receive, the Zenoh session is closed, and no thread can take another step. *)
Theorem clean_exit a es g (Hs : orderly_steps (boot cfg a) es g) (Hpc : pc g = Exited) :
  heap (stream_of g) = ∅ ∧ ops (stream_of g) = [] ∧ GrpcServer.cq_thread_ (grpc g) = false ∧
  MqttClient.client_ (mqtt g) = false ∧ MqttClient.armed (mqtt g) = 0 ∧ zenoh g = false ∧
  ∀ e, ¬ allowed g e.
Proof.
  pose proof (reached a es g Hs) as Hi. pose proof (i_server _ _ _ Hi) as Hsv. rewrite Hpc in Hsv.
  destruct (i_joined _ _ _ Hi) as [Hth _]; [rewrite Hpc; cbn; lia|].
  assert (Hc : MqttClient.client_ (mqtt g) = false) by (apply (i_stopped _ _ _ Hi); rewrite Hpc; cbn; lia).
  destruct (MqttClient.inv_idle _ (i_client _ _ _ Hi) Hc) as (Htasks & Harm & _).
  assert (Hz : zenoh g = false) by (rewrite (i_zenoh _ _ _ Hi), Hpc; done).
  assert (Hst : heap (stream_of g) = ∅ ∧ ops (stream_of g) = []).
  { destruct Hsv as [Hr|[_ _ Hu]].
    - destruct (running_shutdown _ _ Hr) as (x & Hx & Hw & Hph). unfold stream_of. rewrite <- Hw.
      apply Shutdown.joined_empty; [done|]. rewrite Hph. unfold phase_of. by rewrite Hth.
    - unfold stream_of. by rewrite Hu. }
  destruct Hst as [Hh Ho]. split_and!; try done. intros e He.
  destruct e as [| |msg|o ok ev|payload| |]; cbn [allowed] in He.
  - unfold main_ready in He. by rewrite Hpc in He.
  - done.
  - done.
  - destruct He as (He & _). congruence.
  - congruence.
  - by destruct He as (_ & _ & He).
  - by destruct He as (He & _).
Qed.

(** The client has its configured broker, from [main]'s call of [start] on. *)
Lemma network_run a es g (Hs : orderly_steps (boot cfg a) es g) :
  MqttClient.network (mqtt g) = (broker cfg, if 4 <=? rank (pc g) then [broker cfg] else []).
Proof. exact (i_network _ _ _ (reached a es g Hs)). Qed.

(** A server that cannot be built ends the program as if it had been asked to stop:
    [wait] returns at once and [main] runs to its end alone. *)
Theorem failed_start_exits a es g
  (Hs : orderly_steps (boot cfg a) es g) (Hpc : pc g = StartGrpc) (Hsig : signal g = None)
  (Hb : builds (Config.grpc_listen cfg) = false) :
  ∃ es' g', orderly_steps g es' g' ∧ pc g' = Exited ∧ only_main es'.
Proof.
  pose proof (reached a es g Hs) as Hi.
  assert (Hal : allowed g MainStep) by (cbn [allowed]; unfold main_ready; by rewrite Hpc).
  destruct (step_ok _ g MainStep Hi Hal Hsig) as (g1 & Hrun1 & I1 & P1 & G1 & _ & B1 & _);
    [intros _; apply late_goes_on; rewrite Hpc; cbn; lia|].
  unfold next_pc in P1. rewrite Hpc in P1. destruct (B1 Hpc) as [Hsv _]. rewrite Hb in Hsv.
  assert (Hal1 : allowed g1 MainStep).
  { cbn [allowed]. unfold main_ready, GrpcServer.wait_returns. by rewrite P1, Hsv. }
  destruct (step_ok _ g1 MainStep I1 Hal1 ltac:(cbn; congruence)) as (g2 & Hrun2 & I2 & P2 & G2 & _);
    [intros _; apply late_goes_on; rewrite P1; cbn; lia|].
  unfold next_pc in P2. rewrite P1 in P2.
  destruct (main_exits 8 _ g2 I2) as (es3 & g3 & S3 & P3 & R3); [congruence|rewrite P2; cbn;
    lia|by rewrite P2|].
  exists ([MainStep] ++ [MainStep] ++ es3), g3. split_and!; [|done|by repeat constructor].
  eapply main_steps_app; [by apply main_steps_one|].
  eapply main_steps_app; [apply main_steps_one; [done|cbn; congruence|done]|exact S3].
Qed.

(** The plain members of the MQTT client are never raced for, although three
    threads use it and no lock protects them: while [main] sets the handler, the topics
    and the client itself, no other thread has anything to run; and when [main] stops and
    destroys the client, the threads that publish are gone: no completion can be
    reported and no location delivered. *)
Theorem client_unshared a es g (Hs : orderly_steps (boot cfg a) es g) :
  (pc g ∈ [SetHandler; SubscribeTopics; StartMqtt] →
     ¬ allowed g IoTask ∧ ∀ msg, ¬ allowed g (Receive msg)) ∧
  (pc g ∈ [SetHandler; SubscribeTopics; StartMqtt; StopMqtt; JoinMqtt] →
     (∀ o ok ev, ¬ allowed g (Report o ok ev)) ∧ ∀ payload, ¬ allowed g (Location payload)).
Proof.
  pose proof (reached a es g Hs) as Hi. rewrite !elem_of_cons, !elem_of_nil.
  assert (Hcq : rank (pc g) < 12 ∨ 13 <= rank (pc g) → GrpcServer.cq_thread_ (grpc g) = false).
  { intros [Hr|Hr]; [|by apply (i_joined _ _ _ Hi)].
    pose proof (i_server _ _ _ Hi) as Hu. rewrite (proj2 (Nat.leb_gt _ _) Hr) in Hu. apply Hu. }
  split.
  - intros Hpc. assert (Hr : rank (pc g) < 4) by (destruct Hpc as [-> |[-> |[-> |[]]]]; cbn; lia).
    pose proof (i_stopped _ _ _ Hi (or_introl Hr)) as Hc.
    destruct (MqttClient.inv_idle _ (i_client _ _ _ Hi) Hc) as (Htasks & Harm & _). split;
      [intros Ht; by apply Ht|intros msg Ha; by apply Ha].
  - intros Hpc.
    assert (Hz : zenoh g = false ∧ (rank (pc g) < 12 ∨ 13 <= rank (pc g))).
    { rewrite (i_zenoh _ _ _ Hi).
      destruct Hpc as [-> |[-> |[-> |[-> |[-> |[]]]]]]; (split; [done|cbn; lia]). }
    destruct Hz as [Hz Hr]. split; cbn [allowed]; [|congruence].
    intros o ok ev (Hth & _). rewrite (Hcq Hr) in Hth. done.
Qed.

(** [main] waits for a server nobody has shut down. *)
Record waiting g : Prop := {
  w_pc : pc g = WaitGrpc;
  w_signal : signal g = None;
  w_server : GrpcServer.server_ (grpc g) = true ∧ GrpcServer.server_down (grpc g) = false;
  w_shutdown : g_shutdown g = true
}.

Lemma waiting_step cs g e g' :
  inv cfg cs g → waiting g → allowed g e → orderly g e → e ≠ Signal → run e g = (Ret tt, g') →
  waiting g' ∧ ∃ cs', inv cfg cs' g'.
Proof.
  intros Hi [W1 W2 [W3 W4] W5] Hal Hor He Hrun.
  destruct (step_ok cs g e Hi Hal Hor) as (g1 & Hrun' & Hi' & Hf);
    [intros _; apply late_goes_on; rewrite W1; cbn; lia|].
  rewrite Hrun in Hrun'. injection Hrun' as <-. split; [|by eexists].
  destruct e as [| |msg|o ok ev|payload| |]; try done; cbn [allowed] in Hal.
  1: { unfold main_ready, GrpcServer.wait_returns in Hal. by rewrite W1, W3, W4 in Hal. }
  5: { by rewrite W2 in Hal; destruct Hal. }
  all: destruct Hf as (F1 & F2 & F3 & (E1 & E2 & _) & _); split; simplify_eq; congruence || (split; congruence).
Qed.

Lemma waiting_forever cs g es g' :
  inv cfg cs g → waiting g → orderly_steps g es g' → Signal ∉ es → waiting g'.
Proof.
  intros Hi Hw Hs. cut (Signal ∉ es → waiting g' ∧ ∃ cs', inv cfg cs' g'); [intuition|].
  induction Hs as [|es g1 e g2 Hs IH Hal Hor Hrun]; intros Hn; [eauto|].
  destruct IH as (Hw1 & cs1 & Hi1); [set_solver|].
  eapply waiting_step; [done..| |done]. set_solver.
Qed.

(** A signal that comes too early is forgotten: between the installation of the
    handlers and the start of the server, [stop] finds nothing to stop, and nobody reads
    [g_shutdown]: [main] starts the server and waits for ever, until another signal
    comes. *)
Theorem early_signal_lost a es g
  (Hs : orderly_steps (boot cfg a) es g) (Hpc : pc g = StartGrpc) (Hsig : signal g = None)
  (Hb : builds (Config.grpc_listen cfg) = true) :
  ∃ g1, orderly_steps g [Signal; SignalStep; SignalStep; SignalStep; MainStep] g1 ∧
    ∀ es' g', orderly_steps g1 es' g' → Signal ∉ es' →
      g_shutdown g' = true ∧ pc g' = WaitGrpc ∧ ¬ allowed g' MainStep.
Proof.
  pose proof (reached a es g Hs) as Hi.
  assert (Hal : allowed g Signal).
  { split_and!; [|done|congruence]. rewrite (i_handling _ _ _ Hi). by rewrite Hpc. }
  assert (Hor : orderly g Signal) by (cbn [orderly]; congruence).
  destruct (step_ok _ g Signal Hi Hal Hor ltac:(done)) as (g1 & Hrun1 & I1 & P1 & G1 & D1 & E1).
  rewrite app_nil_r in I1.
  assert (Hready : ∀ g0, inv cfg (received es) g0 → pc g0 = StartGrpc → stop_ready AtServer (grpc g0) ∧
    GrpcServer.cq_thread_ (grpc g0) = false).
  { intros g0 H0 P0. pose proof (i_server _ _ _ H0) as Hu. rewrite P0 in Hu. destruct Hu as [[Hu1 Hu2 _] _].
    split; [|done]. cbn [stop_ready]. congruence. }
  assert (P1' : pc g1 = StartGrpc) by congruence.
  destruct (stop_one _ g1 AtServer I1 G1 (proj1 (Hready g1 I1 P1')) ltac:(congruence))
    as (g2 & S2 & I2 & P2 & G2 & L2 & D2).
  destruct (stop_one _ g2 AtQueue I2 G2 I ltac:(congruence)) as (g3 & S3 & I3 & P3 & G3 & L3 & D3).
  destruct (stop_one _ g3 AtJoin I3 G3 I ltac:(congruence)) as (g4 & S4 & I4 & P4 & G4 & L4 & D4).
  assert (P4' : pc g4 = StartGrpc) by congruence.
  cbn [stop_next] in G4. rewrite (proj2 (Hready g3 I3 ltac:(congruence))) in G4.
  destruct (step_ok _ g4 MainStep I4) as (g5 & Hrun5 & I5 & P5 & G5 & D5 & B5 & _);
    [cbn [allowed]; unfold main_ready; by rewrite P4'|done
    |intros _; apply late_goes_on; rewrite P4'; cbn; lia|].
  exists g5. split.
  { apply (main_steps_app g [Signal] g1); [by apply main_steps_one|].
    apply (main_steps_app g1 [SignalStep] g2); [done|].
    apply (main_steps_app g2 [SignalStep] g3); [done|].
    apply (main_steps_app g3 [SignalStep] g4); [done|].
    apply main_steps_one; [|done|done]. cbn [allowed]. unfold main_ready. by rewrite P4'. }
  intros es' g' Hes Hn. rewrite Hb in B5. unfold next_pc in P5. rewrite P4' in P5.
  assert (Hwait : waiting g5).
  { destruct (B5 P4') as [B1 B2]. split; [done|congruence|done|]. by rewrite D5, D4, D3, D2. }
  destruct (waiting_forever _ g5 es' g' I5 Hwait Hes Hn) as [W1 W2 [W3 W4] W5].
  split_and!; [done|done|]. cbn [allowed]. unfold main_ready, GrpcServer.wait_returns.
  by rewrite W1, W3, W4.
Qed.

End gateway.

(** ** Running the gateway *)

#[export] Instance orderly_dec `{JL : JsonLib} {N} (g : gateway (N:=N)) e : Decision (orderly g e).
Proof.
  destruct e as [| |msg|o ok ev|payload| |]; cbn [orderly]; try apply _.
  apply and_dec; [destruct ev; cbn [event_utf8]; apply _|]. unfold accounted. apply _.
Defined.

Section concrete.
Context `{JL : JsonLib} {N : Type} `{HP : HttpClient.HttpPost N}.
Variables (cfg : Config.Config) (zenoh_opens : list (string * string) → bool)
  (builds : string → bool).
Variables (R : gateway (N:=N) → event → Prop) (R_dec : ∀ g e, Decision (R g e)).

Fixpoint run_steps (es : list event) (g : gateway) : option gateway :=
  match es with
  | [] => Some g
  | e :: es' =>
      if decide (allowed g e ∧ R g e)
      then match run_event cfg zenoh_opens builds e g with
           | (Ret tt, g') => run_steps es' g'
           | _ => None
           end
      else None
  end.

Lemma run_steps_sound es0 es g0 g g' :
  steps cfg zenoh_opens builds R g0 es0 g → run_steps es g = Some g' →
  steps cfg zenoh_opens builds R g0 (es0 ++ es) g'.
Proof.
  revert es0 g. induction es as [|e es IH]; intros es0 g Hs.
  { intros [= <-]. by rewrite app_nil_r. }
  cbn [run_steps]. destruct (decide _) as [[Hal Hor]|]; [|done].
  destruct (run_event cfg zenoh_opens builds e g) as [[[]| |] g1] eqn:Hrun; try done. intros Hes.
  change (e :: es) with ([e] ++ es). rewrite (assoc_L (++)). eapply IH; [|exact Hes].
  by econstructor.
Qed.

(** What can be evaluated of the state an execution reaches: the state itself holds
    closures. *)
Definition reaches (es : list event) (g : gateway) (test : gateway → bool) : bool :=
  match run_steps es g with Some g' => test g' | None => false end.

Lemma reaches_sound es g test :
  reaches es g test = true →
  ∃ g', steps cfg zenoh_opens builds R g es g' ∧ test g' = true.
Proof.
  unfold reaches. destruct (run_steps es g) as [g'|] eqn:Hs; [|done]. intros Ht. exists g'.
  split; [|done]. apply (run_steps_sound [] es g g); [constructor|done].
Qed.

End concrete.

(** ** From the environment *)

Section launch.
Context `{JL : JsonLaws} {N : Type} `{HP : HttpClient.HttpPost N}.
Variables (zenoh_opens : list (string * string) → bool) (builds : string → bool).

(** C25. The gateway connects where the deployment says, once, and never anywhere else:
    in every orderly execution from the first statement of [main], the only connection
    the MQTT client was told to keep is to the broker, port and client identifier of
    the environment, of the [.env] file where the environment is silent, and of the
    defaults where both are; a port that is no [int] counts as 1883, and one beyond
    65535 wraps. *)
Theorem connects_as_deployed (files : string → option chars) (env : Config.environment)
    (a : AuthService.world N) es (g : gateway (N:=N)) :
  let cfg := Config.from_env files env in
  let setting := Config.setting files env in
  let port := default 1883%Z (v ← setting "MQTT_PORT"; Config.stoi (chars_of v)) in
  steps cfg zenoh_opens builds orderly (launch files env a) es g →
  MqttClient.connections (mqtt g) =
    if 4 <=? rank (pc g)
    then [(default "localhost" (setting "MQTT_BROKER"), (port mod 2 ^ 16)%Z,
           default "vehicle_gateway" (setting "MQTT_CLIENT_ID"))]
    else [].
Proof.
  intros cfg setting port Hs. pose proof (network_run cfg zenoh_opens builds a es g Hs) as Hn.
  apply (f_equal snd) in Hn. unfold MqttClient.network in Hn. cbn [snd] in Hn. rewrite Hn.
  unfold broker, cfg, Config.from_env.
  cbn [Config.mqtt_broker Config.mqtt_port Config.mqtt_client_id Config.default_config].
  by rewrite !Config.env_or_setting, Config.env_int_setting.
Qed.

End launch.

Definition is_ub {A} (o : outcome A) : bool := match o with UB => true | _ => false end.

(** No backend answers; everything else works. *)
Abbreviation sample_boot :=
  (boot AuthService.sample_config (AuthService.backend AuthService.new_AuthService [])).
Abbreviation sample_steps R := (steps AuthService.sample_config (λ _, true) (λ _, true) R sample_boot).
Definition anything (g : gateway (N:=list HttpClient.http_response)) (e : event) : Prop := True.

(** From [boot] to [wait]. *)
Definition start_up : list event := replicate 12 MainStep.

(** Signals handled by another thread than that of [main]: [wait] returns when the
    handler has shut the server down, and [main] is in its destructor when the handler
    joins the thread of the queue. *)
Definition other_thread : list event :=
  start_up ++ [Signal; SignalStep] ++ replicate 5 MainStep ++ [SignalStep; SignalStep; MainStep].

(** The handler must run on the thread of [main]: on another thread it joins the
    thread of the queue while the destructor of the server joins it too. *)
Theorem double_join :
  ∃ g, sample_steps anything other_thread g ∧ allowed g MainStep ∧
    fst (run_event AuthService.sample_config (λ _, true) (λ _, true) MainStep g) = UB.
Proof.
  destruct (reaches_sound AuthService.sample_config (λ _, true) (λ _, true) anything (λ _ _, True_dec)
    other_thread sample_boot
    (λ g, bool_decide (allowed g MainStep) &&
      is_ub (fst (run_event AuthService.sample_config (λ _, true) (λ _, true) MainStep g))))
    as (g & Hs & [Hal%bool_decide_eq_true Hub]%andb_true_iff); [vm_compute; reflexivity|].
  exists g. split_and!; [done|done|]. by destruct (fst _).
Qed.

(** A signal stops the gateway, and another one comes before the process ends. *)
Definition stopping_twice : list event :=
  start_up ++ [Signal; SignalStep; SignalStep; SignalStep; Report (OpRequest 0) false EvNotSet;
               SignalStep] ++ replicate 7 MainStep.

(** [g_grpc_ptr] is never reset: a signal between the destruction of the server and the
    end of the process uses a dead object. *)
Theorem late_signal :
  ∃ g, sample_steps orderly stopping_twice g ∧ allowed g Signal ∧
    fst (run_event AuthService.sample_config (λ _, true) (λ _, true) Signal g) = UB.
Proof.
  destruct (reaches_sound AuthService.sample_config (λ _, true) (λ _, true) orderly orderly_dec
    stopping_twice sample_boot
    (λ g, bool_decide (allowed g Signal) &&
      is_ub (fst (run_event AuthService.sample_config (λ _, true) (λ _, true) Signal g))))
    as (g & Hs & [Hal%bool_decide_eq_true Hub]%andb_true_iff); [vm_compute; reflexivity|].
  exists g. split_and!; [done|done|]. by destruct (fst _).
Qed.

(** ** Witnesses *)

Lemma sample_environment : good_environment AuthService.sample_config (λ _, true).
Proof. split; [apply AuthService.sample_utf8|done]. Qed.

(** A state an orderly execution reaches, with what can be evaluated of it. *)
Abbreviation sample_reaches es test builds :=
  (reaches_sound AuthService.sample_config (λ _, true) builds orderly orderly_dec es sample_boot test).

(** A deployment that sets the broker, and a file that sets the port. *)
Definition sample_files : string → option chars := λ path,
  if String.eqb path ".env" then Some (chars_of "MQTT_PORT=8883") else None.
Definition sample_env : Config.environment := {[ "MQTT_BROKER" := "broker.example" ]}.

Lemma connects_as_deployed_witness :
  ∃ g : gateway (N:=list HttpClient.http_response), pc g = OpenZenoh ∧
    MqttClient.connections (mqtt g) = [("broker.example", 8883%Z, "vehicle_gateway")].
Proof.
  set (cfg := Config.from_env sample_files sample_env).
  destruct (reaches_sound cfg (λ _, true) (λ _, true) orderly orderly_dec (replicate 4 MainStep)
    (launch sample_files sample_env (AuthService.backend AuthService.new_AuthService []))
    (λ g, bool_decide (pc g = OpenZenoh)))
    as (g & Hs & Hpc%bool_decide_eq_true); [vm_compute; reflexivity|].
  exists g. split; [exact Hpc|].
  rewrite (connects_as_deployed (λ _, true) (λ _, true) sample_files sample_env
    (AuthService.backend AuthService.new_AuthService []) (replicate 4 MainStep) g).
  - by rewrite Hpc.
  - exact Hs.
Defined.

(** A command arrives, a vehicle connects and reports an estimated time of arrival. *)
Definition serving_events : list event :=
  start_up ++ [Receive (Some (kTopicTripCancel, Gateway.cancel_text));
               Report (OpRequest 0) true EvNotSet].

Lemma gateway_safe_witness :
  ∃ g, sample_steps orderly serving_events g ∧
    fst (run_event AuthService.sample_config (λ _, true) (λ _, true) Signal g) = Ret tt.
Proof.
  destruct (sample_reaches serving_events (λ g, bool_decide (allowed g Signal ∧ orderly g Signal))
    (λ _, true)) as (g & Hs & [Hal Hor]%bool_decide_eq_true); [vm_compute; reflexivity|].
  exists g. split; [exact Hs|].
  destruct (gateway_safe _ _ _ _ serving_events g Signal Hs Hal Hor) as [_ Hgood].
  exact (Hgood sample_environment).
Defined.

Lemma gateway_refines_stream_witness :
  ∃ g es', sample_steps orderly serving_events g ∧
    StreamSeq.steps (init_world tt) es' (stream_of g) ∧
    pushed es' = [CmdTripCancel {| tc_vin_number := "V"; tc_request_id := 7 |}].
Proof.
  destruct (sample_reaches serving_events (λ g, GrpcServer.server_ (grpc g)) (λ _, true))
    as (g & Hs & Hsv); [vm_compute; reflexivity|].
  pose proof (gateway_refines_stream _ _ _ _ serving_events g Hs) as Hr.
  rewrite Hsv in Hr. destruct Hr as (es' & Hes & Hp). exists g, es'.
  split; [exact Hs|]. split; [exact Hes|]. rewrite Hp. vm_compute. reflexivity.
Defined.

Lemma report_reaches_broker_witness :
  ∃ g g' topic text,
    run_event AuthService.sample_config (λ _, true) (λ _, true)
      (Report (OpRead 0) true (EvEta Telemetry.sample_eta)) g = (Ret tt, g') ∧
    MqttClient.sent (mqtt g') = MqttClient.sent (mqtt g) ++ [(topic, text)] ∧
    Telemetry.read_event (topic, text) = Some (EvEta Telemetry.sample_eta).
Proof.
  destruct (sample_reaches serving_events
    (λ g, bool_decide (allowed g (Report (OpRead 0) true (EvEta Telemetry.sample_eta))) &&
          MqttClient.started_ (mqtt g)) (λ _, true))
    as (g & Hs & [Hal%bool_decide_eq_true Hon]%andb_true_iff); [vm_compute; reflexivity|].
  destruct (report_reaches_broker _ _ _ _ serving_events g 0
    (EvEta Telemetry.sample_eta) Hs Hal) as (g' & topic & text & H1 & H2 & H3);
    [vm_compute; tauto|exact I|exact Hon|].
  exists g, g', topic, text. split_and!; [exact H1|exact H2|exact H3].
Defined.

Lemma client_unshared_witness :
  ∃ g, sample_steps orderly (replicate 2 MainStep) g ∧ pc g = SubscribeTopics ∧ ¬ allowed g IoTask.
Proof.
  destruct (sample_reaches (replicate 2 MainStep) (λ g, bool_decide (pc g = SubscribeTopics))
    (λ _, true)) as (g & Hs & Hpc%bool_decide_eq_true); [vm_compute; reflexivity|].
  destruct (client_unshared _ _ _ _ _ g Hs) as [H1 _].
  exists g. split; [exact Hs|]. split; [exact Hpc|]. apply H1. rewrite Hpc. set_solver.
Defined.

(** A signal, and [server_->Shutdown()] returns. *)
Definition going_down : list event := start_up ++ [Signal; SignalStep].

Definition is_down (g : gateway (N:=list HttpClient.http_response)) : bool :=
  GrpcServer.server_ (grpc g) && GrpcServer.server_down (grpc g) &&
  bool_decide (Forall (λ o, is_write o = false) (ops (stream_of g))).

(** The rest of [stop], a message that comes in between, and the return of [main]. *)
Definition leaving : list event :=
  [SignalStep; Receive (Some (kTopicTripCancel, Gateway.cancel_text)); SignalStep;
   Report (OpRequest 0) false EvNotSet; SignalStep] ++ replicate 8 MainStep.

Lemma shutdown_completes_witness :
  ∃ g g', sample_steps orderly going_down g ∧
    steps AuthService.sample_config (λ _, true) (λ _, true) orderly g leaving g' ∧
    count working leaving + left_to_do g' ≤ left_to_do g.
Proof.
  destruct (sample_reaches going_down
    (λ g, is_down g && bool_decide (is_Some (run_steps AuthService.sample_config (λ _, true) (λ _, true)
       orderly orderly_dec leaving g))) (λ _, true))
    as (g & Hs & Hi); [vm_compute; reflexivity|].
  unfold is_down in Hi. rewrite !andb_true_iff, !bool_decide_eq_true in Hi.
  destruct Hi as [[[H1 H2] H3] [g' Hg']].
  pose proof (run_steps_sound AuthService.sample_config (λ _, true) (λ _, true) orderly orderly_dec
    [] leaving g g g' ltac:(constructor) Hg') as Hs'.
  destruct (shutdown_completes _ _ _ _ going_down g leaving g' Hs (conj H1 H2) H3 Hs') as [Hle _].
  exists g, g'. split; [exact Hs|]. split; [exact Hs'|]. change (count is_signal leaving) with 0 in Hle. lia.
Defined.

Lemma signal_takes_down_witness :
  ∃ g g1 g2, sample_steps orderly start_up g ∧
    steps AuthService.sample_config (λ _, true) (λ _, true) orderly g [Signal] g1 ∧
    steps AuthService.sample_config (λ _, true) (λ _, true) orderly g1 [SignalStep] g2 ∧ down g2.
Proof.
  destruct (sample_reaches start_up (λ g, bool_decide (pc g = WaitGrpc) && bool_decide (signal g = None) &&
    GrpcServer.server_ (grpc g) && bool_decide (Shutdown.no_calls (stream_of g))) (λ _, true))
    as (g & Hs & Hi); [vm_compute; reflexivity|].
  rewrite !andb_true_iff, !bool_decide_eq_true in Hi. destruct Hi as [[[H1 H2] H3] H4].
  destruct (signal_takes_down _ _ _ _ start_up g Hs H1 H2 H3) as (g1 & Hg1 & _ & Hd).
  destruct (Hd H4) as (g2 & Hg2 & Hdown). exists g, g1, g2. split_and!; [exact Hs|exact Hg1|exact Hg2|exact Hdown].
Defined.

Definition stopped_events : list event := stopping_twice ++ [MainStep].

Lemma clean_exit_witness : ∃ g, sample_steps orderly stopped_events g ∧ heap (stream_of g) = ∅.
Proof.
  destruct (sample_reaches stopped_events (λ g, bool_decide (pc g = Exited)) (λ _, true))
    as (g & Hs & Hpc%bool_decide_eq_true); [vm_compute; reflexivity|].
  exists g. split; [exact Hs|]. apply (clean_exit _ _ _ _ stopped_events g Hs Hpc).
Defined.

Definition at_start (g : gateway (N:=list HttpClient.http_response)) : bool :=
  bool_decide (pc g = StartGrpc) && bool_decide (signal g = None).

Lemma early_signal_lost_witness :
  ∃ g g1, sample_steps orderly (replicate 11 MainStep) g ∧
    steps AuthService.sample_config (λ _, true) (λ _, true) orderly g
      [Signal; SignalStep; SignalStep; SignalStep; MainStep] g1 ∧ ¬ allowed g1 MainStep.
Proof.
  destruct (sample_reaches (replicate 11 MainStep) at_start (λ _, true))
    as (g & Hs & [H1%bool_decide_eq_true H2%bool_decide_eq_true]%andb_true_iff);
    [vm_compute; reflexivity|].
  destruct (early_signal_lost _ _ _ _ _ g Hs H1 H2 eq_refl) as (g1 & Hg1 & Hall).
  exists g, g1. split; [exact Hs|]. split; [exact Hg1|].
  destruct (Hall [] g1 (steps_nil _ _ _ _ g1)) as (_ & _ & Hn); [set_solver|exact Hn].
Defined.

Lemma failed_start_exits_witness :
  ∃ g es' g', steps AuthService.sample_config (λ _, true) (λ _, false) orderly g es' g' ∧
    pc g = StartGrpc ∧ pc g' = Exited.
Proof.
  destruct (sample_reaches (replicate 11 MainStep) at_start (λ _, false))
    as (g & Hs & [H1%bool_decide_eq_true H2%bool_decide_eq_true]%andb_true_iff);
    [vm_compute; reflexivity|].
  destruct (failed_start_exits _ _ _ _ _ g Hs H1 H2 eq_refl)
    as (es' & g' & Hes & Hpc & _).
  exists g, es', g'. split_and!; [exact Hes|exact H1|exact Hpc].
Defined.

End MainTheorems.
